(* ===== verification/_CoqProject ===== *)
-Q . S2P
Prelude.v
CppInt.v
CText.v
Sys.v
Buffer.v
LogStream.v
Timestamp.v
Logging.v
TimerQueue.v
Channel.v
EpollPoller.v
TcpConnection.v
EventLoop.v
ThreadPool.v
HttpRequest.v
HttpResponse.v
HttpServer.v
MainServer.v
TcpServer.v
Kmp.v
Tomato.v
RssTime.v
Rss.v
Turns.v
FizzBuzz.v
TsQueue.v
LockFreeStack.v
Parallel.v
QuickSort.v
Spreadsheet.v
Sockets.v
SelectServer.v
PollServer.v
EpollServer.v
Compress.v
CnWords.v
Locks.v
WorkQueue.v
Grid.v
Ch18.v
LastLine.v
Encrypt.v
IoUring.v
Ch27.v
Peers.v
EchoServer.v
LineQueues.v
ThreadLines.v
SelectEcho.v
ProcLocks.v
IpcSem.v
Copy.v
Topic.v
TopicCalm.v
PrintDir.v
