(* ===== verification/Prelude.v ===== *)
(** * Verification of the C++ programs of this repository

    The repository collects C++ programs.  The ones with logic of their own are
    modelled here: [myserver], an HTTP server on a reactor library in the manner of
    muduo; the RSS reader [rss_b]; the tomato clock of [waybar_tomato_clock]; the
    thread exercises and [kmp.cpp] of [any]; the lock-based, lock-free and parallel
    data structures and algorithms of [cpp_concurrency_2nd]; the servers of
    [io_multiplexing], [libev] and [socket]; the compressor of [cmd_ffmpeg]; [EnDecrypt]
    of [encrypt_decrypt]; [cat] over io_uring; the classes [Spreadsheet] and [Grid] and
    the synchronisation of [professional_cpp]; and the programs of [linux_program] and
    [ipc] in which processes or threads depend on each other.

    ** How the code is modelled

    - A computation has an [outcome]: a value, an exception, or undefined
      behaviour (an access out of bounds, a use after free, a signed overflow).
      Code with state runs in the monad [M S] of this file, and [wp] says what an
      operation leaves.  Theorems that end in [wp] or [Ok] exclude exceptions and
      undefined behaviour.
    - Unsigned integers wrap and signed ones are checked ([CppInt]).
    - Loops without a bound of their own take fuel, and [None] says that the loop is
      still running; each has a theorem that some fuel is enough, or that none is.
    - Threads are step relations: a step is one access to shared data (a critical
      section, an atomic access, a system call), [Ok None] says that the thread cannot
      move; a failing round of a spin lock is a step.  Theorems quantify over all interleavings, spurious wake-ups and
      spurious failures of weak compare-exchanges included.  Memory is sequentially
      consistent, as it is for the mutexes and default atomics the code uses.
    - What is not code of the repository (the kernel, the clock, MySQL, pugixml, an
      order the standard leaves open) is an argument, or a class whose laws are its
      documented behaviour ([Epoll], [PugiXml], [MysqlRow], [Partition], [Ffmpeg],
      [Evp], [Kernel] with its [KernelLaws] for io_uring; [SafeQueue] for the
      [thread_safe_queue] that thread_pool.cpp uses and nothing declares).
    - A plain access that races with another thread's is undefined ([Ch18],
      [LockFreeStack], [TcpConnection]): where the code has such a race, the theorems
      say which runs are free of it, and another exhibits it.

    ** The files, and the code they model

    - [Prelude], [CppInt], [CText], [Sys]: outcomes, the monad and its [wp] rules,
      reachability; machine integers; decimal texts and searches; the replies of
      system calls.
    - [myserver], from the bottom: [Buffer] (buffer.h, buffer.cpp); [LogStream]
      (fixed_buffer.h, log_stream.h/.cpp); [Timestamp]; [Logging] (logging.h/.cpp);
      [TimerQueue] (timer.h/.cpp, timer_queue.h/.cpp); [Channel] (channel.h/.cpp);
      [EpollPoller] (poller, epoll_poller, the update of a channel);
      [TcpConnection] (tcp_connection.h/.cpp); [EventLoop] (event_loop.h/.cpp);
      [ThreadPool] (mythread, current_thread, event_loop_thread, ..._threadpool);
      [HttpRequest] (http_request.h, http_context.h/.cpp); [HttpResponse];
      [HttpServer] (http_server.h/.cpp); [MainServer] (main/main.cpp); [TcpServer]
      (inet_address, mysocket, acceptor, tcp_server).  A [TcpConnection] holds two
      [Buffer]s and a [Channel] of its loop's poller; [HttpServer] runs on a
      connection and parses its input with [HttpRequest]; [TcpServer] makes
      connections and gives them to the loops of [ThreadPool]; a loop is a queue of
      functors, as [EventLoop] shows.
    - [Kmp] (any/kmp.cpp); [CnWords] (any/cn_word_io.cpp);
      [LastLine] (any/file_operation.cpp); [Tomato] (waybar_tomato_clock); [RssTime] and [Rss]
      (rss_b/src/main.cpp): the schedule and [DATETIME] columns, and the rounds.
    - [Turns] (any/concurrency/LT_1115_foobar.cpp; it also holds the runs all thread
      models share), [FizzBuzz] (LT_1195_fizzbuzz.cpp), [Ch18]
      (tour_of_cpp_ch18.cpp), [TsQueue]
      (cpp_concurrency_2nd/thread_safe_stack_queue.cpp), [LockFreeStack]
      (lock_free_stack.cpp), [Parallel] (parallel_find_accu_async_for_each.cpp),
      [QuickSort] (cv_promise_future_packaged_task_quick_sort.cpp), [Locks]
      (mutex_RAII.cpp, atomic_spinlock.cpp; the class [Lock] is their interface),
      [WorkQueue] ([thread_pool] and [work_stealing_queue] of thread_pool.cpp).
    - [SelectServer], [PollServer], [EpollServer] (io_multiplexing/select_01.cpp,
      poll_01.cpp, epoll_01.cpp), on the sockets of [Sockets]; [EchoServer]
      (libev/01_server_epoll.cpp) and [SelectEcho] ([Plus]:
      linux_program/ch15_socket/08_server_use_select.c, [Greet]:
      socket/02_server_select.c) on the same sockets, with what a peer has sent and got
      back in [Peers]; [Compress] (cmd_ffmpeg/ckb_ffmpeg_compress_mp4_and_jpg.m.cpp).
    - [Spreadsheet] (professional_cpp/src/ch09); [Grid] (professional_cpp/src/ch26_template);
      [Ch27] (professional_cpp/src/ch27_concurrency: barrier, semaphore, latch);
      [Encrypt] (encrypt_decrypt/main.cpp); [IoUring] (any/io_uring_test.cpp).
    - linux_program and ipc: [Copy] (ch03/copy_system.c, copy_block.c, copy_stdio.c),
      [PrintDir] (ch03/print_dir.c), [ProcLocks] ([LockFile]:
      ch07/manager_by_file_lock_7.c, [SysV]: ch14.../01_semaphore.c), [ThreadLines]
      (ch12_thread/02_semaphore.c, 03_pthread_mutex.c), [LineQueues] (ch14...: shared
      memory and message queue), [Topic] (ch13.../12_advance_topic_server.c and
      _client.c, on the named pipes of its module [Pipe]) with [TopicCalm], the runs
      without its race, and [IpcSem] (ipc/semaphore_01.c).

    ** What the theorems show

    - Data: the buffer is a byte queue ([buffer_refines_queue]); log records and
      lines have the text of their items; times print and parse back; a request
      printed and parsed is itself ([parse_print_roundtrip]); [DATETIME] columns
      decode to what was encoded.
    - Components: the poller's map and the kernel agree ([poller_agrees]); expired
      timers run, repeating ones are armed again, one-shot ones are freed; no
      functor handed to a loop is lost or reordered ([no_lost_wakeup],
      [functors_fifo]); a pool hands out its loops in turn.
    - Connections: the bytes a connection sends are the bytes it was given, in
      order, whatever the kernel takes ([tcp_refines_stream]), also when other threads
      send and shut down, whose test of the state and what follows it are separate
      steps ([shutdown_race_revives] is the one bad interleaving); shutting down drains
      them; its life cycle; a server's connections are made and destroyed in order in
      every interleaving of its loops, without a use after free, and without an
      exception if it was given a connection callback ([server_never_undefined]).
    - Programs: a request that arrives in one piece is answered, and the client gets
      the whole response ([main_serves_client] composes the parser, the routes, the
      connection and its write events); what the routes answer; a round of the RSS reader handles every source; the tomato clock.
    - Threads: exclusion, order and the absence of lost notifications in the thread
      exercises and the queue, with bounds on the length of all runs;
      [lock_free_stack_7] is linearizable but for a data race in [pop]; the parallel algorithms equal the
      sequential ones.
    - Servers with [select], [poll] and [epoll]: a round of each is a round of the
      abstract server, where every ready descriptor gets one turn
      ([select_round_refines], [poll_round_refines], [epoll_round_refines]), with the
      exact conditions under which it is undefined; their states stay well formed.
      The echo servers answer every byte of every peer that stays, in order
      ([echo_server_echoes], [plus_server_answers], [greet_server_echoes]), and catch up
      when the network is quiet.  In [SelectEcho] a write waits for a peer that does
      not read, and [SIGPIPE] ends the process; in the other servers what a write takes
      or fails with is arbitrary, and [SIGPIPE] is taken to be ignored.
    - Processes: lock files and semaphores exclude ([lock_file_excludes],
      [semaphore_pairs]); lines arrive in order and complete, or how they get lost and,
      at the end of an input without "end", repeated ([shm_line_twice]);
      a semaphore in shared memory delivers and a private copy does not; the server
      over named pipes gives every client all its answers but for one race
      ([topic_clients_served], [topic_all_or_none]), which can kill or block it.
    - Locks and pools: additions under any lock are exact; a pool starts a task
      at most once and loses none but those queued when it is destroyed; a work-stealing queue neither loses nor repeats one.
    - Files and text: compressing replaces the originals; Chinese text is cut at
      its separators; the last line of a file; under which conditions the class [EnDecrypt] would decrypt
      what it encrypted (its constructor does not establish them: [key_dangles]);
      copies over io_uring, system calls and streams ([uring_refines_calls],
      [cat_copies], [copies_agree]); a tree of directories is listed, as far
      as descriptors allow ([main_lists]).
    - Ownership: spreadsheets behave as values; blocks are deleted exactly once.
    - Errors: which inputs the code refuses, where it spins for ever, terminates or
      runs into undefined behaviour, among them the bugs the models showed: a
      request that arrives in two pieces, seconds that never reach the log, a
      buffer that is too small for a gigantic append, descriptors and photos that
      are lost, a directory listing that goes astray.

    ** Bounds and fuel

    [parseRequest] needs one unit of fuel per line, for which one per two bytes is
    enough, and [parseRequest_returns_iff] says exactly when any fuel is; [convert] needs one per item of the feed;
    the divisions of [Parallel] and the recursion of [QuickSort] one more than the
    length; the searches of [Kmp] one per step of the loop, bounded by the two
    strings; [main_ok] of [CnWords] needs one per character.  The loops of the
    [select] and [epoll] servers end after 60 and 40 rounds, that of the [poll] server
    with a quiet round; they run over a list of rounds.  Connection numbers are bounded by [int]; theorems that need fewer than
    [2^31] connections, or counters below [2^31], say so.  [printdir] needs one unit for
    each level of the tree, [cat] and the copy loops one for each read.  Runs of threads
    and processes have no fuel: their length is bounded by theorems ([latch_6_ends],
    [plus_server_drains], [lock_file_ends], [semaphore_ends], [topic_ends] and others).

    ** Not modelled

    Destructors and constructors that do nothing but store or release, and output
    of demonstration programs.  The other directories are demonstrations of language
    features, of the standard library and of client libraries, benchmarks and build
    files without an algorithm of their own; [pugixml] and [cpp-httplib] are
    vendored.  Of [lock_free_stack.cpp] the versions 2 to 6 and 9 are fragments, and
    the later pools of [cpp_concurrency_2nd/thread_pool.cpp] refer to members that do
    not exist.  The client processes of the [io_multiplexing] programs only send
    random texts; they are the arbitrary events of the network.  The programs of [linux_program], [ipc] and
    [socket] that only show one call of the system are left out, and so is
    [sem_1_error] of [ipc/semaphore_01.c], which passes a null pointer.  Weak memory, exhausted memory outside [Buffer] and [Spreadsheet], and failures to create
    a thread are not modelled. *)

From stdpp Require Export base list numbers option strings gmap fin_maps.
From Stdlib Require Export ZArith Lia.
From Stdlib Require Export Ascii.

#[export] Set Default Goal Selector "!".
Open Scope Z_scope.

(** ** 1. Outcomes of a C++ computation

    A call returns a value, throws, or runs into undefined behaviour
    (out-of-bounds access, use after free, null dereference, signed
    overflow, ...).  [Throw] carries what the source throws. *)

Inductive exn : Type :=
  | ExnOutOfRange (what : string)
  | ExnLengthError
  | ExnBadFunctionCall
  | ExnInvalidArgument (what : string)
  | ExnNamed (what : string).

Inductive outcome (A : Type) : Type :=
  | Ok (a : A)
  | Throw (e : exn)
  | UB.
Arguments Ok {A} a.
Arguments Throw {A} e.
Arguments UB {A}.

#[export] Instance exn_eq_dec : EqDecision exn.
Proof. solve_decision. Defined.

#[export] Instance outcome_ret : MRet outcome := fun A a => Ok a.
#[export] Instance outcome_bind : MBind outcome := fun A B f m =>
  match m with Ok a => f a | Throw e => Throw e | UB => UB end.
#[export] Instance outcome_fmap : FMap outcome := fun A B f m =>
  match m with Ok a => Ok (f a) | Throw e => Throw e | UB => UB end.

(** ** 2. State passing with outcomes

    [M S A] is the type of an operation on an object of state [S]; the
    state after a [Throw] is not observed by any caller modelled here, so it
    is not kept. *)

Definition M (S A : Type) : Type := S -> outcome (A * S).

#[export] Instance M_ret {S} : MRet (M S) := fun A a s => Ok (a, s).
#[export] Instance M_bind {S} : MBind (M S) := fun A B f m s =>
  match m s with Ok (a, s') => f a s' | Throw e => Throw e | UB => UB end.

Section state_ops.
Context {S : Type}.

Definition getS : M S S := fun s => Ok (s, s).
Definition gets {A} (f : S -> A) : M S A := fun s => Ok (f s, s).
Definition modify (f : S -> S) : M S unit := fun s => Ok (tt, f s).
Definition throwM {A} (e : exn) : M S A := fun _ => Throw e.
Definition undefined {A} : M S A := fun _ => UB.
Definition liftO {A} (o : outcome A) : M S A := fun s =>
  match o with Ok a => Ok (a, s) | Throw e => Throw e | UB => UB end.
Definition whenM (b : bool) (m : M S unit) : M S unit :=
  if b then m else mret tt.
Fixpoint forM {A} (l : list A) (body : A -> M S unit) : M S unit :=
  match l with
  | [] => mret tt
  | x :: l' => body x ;; forM l' body
  end.
End state_ops.

(** A sub-object of state [T] inside an object of state [S]. *)
Definition zoom {S T A} (get : S -> T) (put : T -> S -> S) (m : M T A) : M S A :=
  fun s => match m (get s) with
           | Ok (a, t) => Ok (a, put t s)
           | Throw e => Throw e
           | UB => UB
           end.

(** ** 3. Weakest preconditions

    [wp m Q s]: from [s] the operation [m] returns normally, with a result
    and a state in [Q].  It excludes both [Throw] and [UB]. *)

Definition wp {S A} (m : M S A) (Q : A -> S -> Prop) (s : S) : Prop :=
  match m s with Ok (a, s') => Q a s' | _ => False end.

Section wp_rules.
Context {S : Type}.
Implicit Types s : S.

Lemma wp_ok {A} (m : M S A) Q s a s' : m s = Ok (a, s') -> Q a s' -> wp m Q s.
Proof. unfold wp. intros ->. done. Qed.

Lemma M_bind_ok {A B} (m : M S A) (f : A -> M S B) s a s' :
  m s = Ok (a, s') -> (m ≫= f) s = f a s'.
Proof. unfold mbind, M_bind. by intros ->. Qed.

Lemma wp_inv {A} (m : M S A) Q s :
  wp m Q s -> exists a s', m s = Ok (a, s') /\ Q a s'.
Proof. unfold wp. destruct (m s) as [[a s']| |]; naive_solver. Qed.

Lemma wp_elim {A} (m : M S A) Q s a s' : wp m Q s -> m s = Ok (a, s') -> Q a s'.
Proof. unfold wp. intros H E. by rewrite E in H. Qed.

Lemma wp_mono {A} (m : M S A) (Q R : A -> S -> Prop) s :
  wp m Q s -> (forall a s', Q a s' -> R a s') -> wp m R s.
Proof. unfold wp. destruct (m s) as [[a s']| |]; naive_solver. Qed.

Lemma wp_ret {A} (a : A) (Q : A -> S -> Prop) s :
  wp (mret a) Q s <-> Q a s.
Proof. done. Qed.

Lemma wp_bind {A B} (m : M S A) (f : A -> M S B) Q s :
  wp (m ≫= f) Q s <-> wp m (fun a s' => wp (f a) Q s') s.
Proof. unfold wp, mbind, M_bind. by destruct (m s) as [[a s']| |]. Qed.

Lemma wp_getS (Q : S -> S -> Prop) s : wp getS Q s <-> Q s s.
Proof. done. Qed.

Lemma wp_gets {A} (f : S -> A) (Q : A -> S -> Prop) s :
  wp (gets f) Q s <-> Q (f s) s.
Proof. done. Qed.

Lemma wp_modify (f : S -> S) (Q : unit -> S -> Prop) s :
  wp (modify f) Q s <-> Q tt (f s).
Proof. done. Qed.

Lemma wp_whenM b (m : M S unit) (Q : unit -> S -> Prop) s :
  wp (whenM b m) Q s <-> (if b then wp m Q s else Q tt s).
Proof. by destruct b. Qed.

Lemma wp_liftO {A} (o : outcome A) (Q : A -> S -> Prop) s :
  wp (liftO o) Q s <-> match o with Ok a => Q a s | _ => False end.
Proof. unfold wp, liftO. by destruct o. Qed.

Lemma wp_zoom {T A} (get : S -> T) put (m : M T A) (Q : A -> S -> Prop) s :
  wp (zoom get put m) Q s <-> wp m (fun a t => Q a (put t s)) (get s).
Proof. unfold wp, zoom. by destruct (m (get s)) as [[a t]| |]. Qed.

(** An invariant that every iteration keeps is kept by the loop. *)
Lemma wp_forM {A} (I : S -> Prop) (body : A -> M S unit) l s :
  I s -> (forall x s', x ∈ l -> I s' -> wp (body x) (fun _ => I) s') ->
  wp (forM l body) (fun _ => I) s.
Proof.
  revert s. induction l as [|x l IH]; intros s Hs Hb; [done|].
  simpl. apply wp_bind. eapply wp_mono.
  - apply Hb; [left|done].
  - intros ? s1 Hs1. apply IH; [done|]. intros y s2 Hy. apply Hb. by right.
Qed.
End wp_rules.

(** The rewriting base that computes a weakest precondition through the
    monad's operations. *)
Create Rewrite HintDb wp.
#[export] Hint Rewrite @wp_ret @wp_bind @wp_getS @wp_gets @wp_modify @wp_whenM @wp_liftO
  @wp_zoom : wp.

Ltac wp_simpl := repeat (autorewrite with wp; cbn beta iota).

(** Case analysis on the condition a program stops at. *)
Ltac wp_if :=
  match goal with
  | |- if ?b then _ else _ => destruct b eqn:?
  | |- wp (if ?b then _ else _) _ _ => destruct b eqn:?
  end.

(** ** 4. Reachability of a step relation *)

Section reachability.
Context {St : Type} (init : St -> Prop) (step : St -> St -> Prop).

Inductive reachable : St -> Prop :=
  | reach_init s : init s -> reachable s
  | reach_step s s' : reachable s -> step s s' -> reachable s'.

(** Rule induction packaged: an inductive invariant holds of every
    reachable state. *)
Lemma reachable_invariant (I : St -> Prop) :
  (forall s, init s -> I s) ->
  (forall s s', reachable s -> I s -> step s s' -> I s') ->
  forall s, reachable s -> I s.
Proof. intros Hi Hs s. induction 1; eauto. Qed.
End reachability.

Section labelled.
Context {St L : Type} (step : St -> L -> St -> Prop).

Inductive lsteps : St -> list L -> St -> Prop :=
  | lsteps_nil s : lsteps s [] s
  | lsteps_cons s l s' ls s'' :
      step s l s' -> lsteps s' ls s'' -> lsteps s (l :: ls) s''.

Lemma lsteps_app s ls s' ls' s'' :
  lsteps s ls s' -> lsteps s' ls' s'' -> lsteps s (ls ++ ls') s''.
Proof. induction 1; [done|]. intros. econstructor; eauto. Qed.

Lemma lsteps_snoc s ls s' l s'' :
  lsteps s ls s' -> step s' l s'' -> lsteps s (ls ++ [l]) s''.
Proof. intros H1 H2. eapply lsteps_app; [done|]. repeat econstructor; done. Qed.
End labelled.

(** ** 5. Byte strings *)

(** [std::string] and character arrays are lists of characters. *)
Abbreviation bytes := (list Ascii.ascii).
Definition str (s : string) : bytes := String.list_ascii_of_string s.
Abbreviation len l := (Z.of_nat (length l)).
Definition NUL : Ascii.ascii := "000"%char.

(** The tactic for goals about lengths of lists and [Z] bounds. *)
Ltac list_lia :=
  repeat first
    [ rewrite length_app in * | rewrite length_take in * | rewrite length_drop in *
    | rewrite length_replicate in * | rewrite length_reverse in *
    | rewrite length_fmap in * | rewrite length_insert in *
    | progress simpl length in * ];
  try lia.

(** What follows a separator. *)
Lemma drop_past {A} (p : list A) (c : A) q : drop (S (length p)) (p ++ c :: q) = q.
Proof. induction p as [|x p IH]; [done|exact IH]. Qed.
