(* ===== verification/CppInt.v ===== *)
(** * Machine integers of the C++ code

    Unsigned types wrap modulo [2^w]; conversion to a signed type takes the
    two's complement representative; arithmetic of a signed type is undefined
    when the exact result is not representable, so it returns an [outcome].
    The target is the one the repository builds for (x86-64 Linux): [int] has
    32 bits, [long], [size_t], [ssize_t], [time_t] and pointers have 64. *)

From S2P Require Import Prelude.

(** ** Conversions *)

Definition wrapu (w x : Z) : Z := x mod 2 ^ w.
Definition wraps (w x : Z) : Z :=
  let y := x mod 2 ^ w in if decide (y < 2 ^ (w - 1)) then y else y - 2 ^ w.

Definition u64 : Z -> Z := wrapu 64.
Definition u32 : Z -> Z := wrapu 32.
Definition s32 : Z -> Z := wraps 32.
Definition s64 : Z -> Z := wraps 64.

Definition in_u (w x : Z) : Prop := 0 <= x < 2 ^ w.
Definition in_s (w x : Z) : Prop := - 2 ^ (w - 1) <= x < 2 ^ (w - 1).

#[export] Instance in_u_dec w x : Decision (in_u w x).
Proof. unfold in_u. apply _. Defined.
#[export] Instance in_s_dec w x : Decision (in_s w x).
Proof. unfold in_s. apply _. Defined.

Abbreviation in_u64 := (in_u 64).
Abbreviation in_s64 := (in_s 64).
Abbreviation in_u32 := (in_u 32).
Abbreviation in_s32 := (in_s 32).

(** ** Signed arithmetic: undefined on overflow *)

Definition schk (w x : Z) : outcome Z := if decide (in_s w x) then Ok x else UB.
Definition int_add (x y : Z) : outcome Z := schk 32 (x + y).
Definition int_sub (x y : Z) : outcome Z := schk 32 (x - y).
Definition int_mul (x y : Z) : outcome Z := schk 32 (x * y).
Definition i64_add (x y : Z) : outcome Z := schk 64 (x + y).
Definition i64_sub (x y : Z) : outcome Z := schk 64 (x - y).
Definition i64_mul (x y : Z) : outcome Z := schk 64 (x * y).

(** C++ division truncates towards zero. *)
Definition cdiv : Z -> Z -> Z := Z.quot.
Definition cmod : Z -> Z -> Z := Z.rem.

(** ** Facts *)

Lemma wrapu_range w x : 0 < w -> 0 <= wrapu w x < 2 ^ w.
Proof. intros. apply Z.mod_pos_bound. lia. Qed.

Lemma wrapu_small w x : in_u w x -> wrapu w x = x.
Proof. intros. by apply Z.mod_small. Qed.

Lemma wraps_range w x : 0 < w -> in_s w (wraps w x).
Proof.
  intros Hw. unfold wraps, in_s.
  pose proof (Z.mod_pos_bound x (2 ^ w) ltac:(lia)).
  assert (2 ^ w = 2 * 2 ^ (w - 1)).
  { rewrite <- Z.pow_succ_r by lia. f_equal. lia. }
  case_decide; lia.
Qed.

Lemma wraps_small w x : 0 < w -> in_s w x -> wraps w x = x.
Proof.
  intros Hw [H1 H2]. unfold wraps.
  assert (2 ^ w = 2 * 2 ^ (w - 1)).
  { rewrite <- Z.pow_succ_r by lia. f_equal. lia. }
  destruct (decide (0 <= x)).
  - rewrite Z.mod_small by lia. rewrite decide_True by lia. done.
  - replace (x mod 2 ^ w) with (x + 2 ^ w).
    + rewrite decide_False by lia. lia.
    + apply Z.mod_unique with (-1); lia.
Qed.

Lemma u64_small x : 0 <= x < 2 ^ 64 -> u64 x = x.
Proof. apply wrapu_small. Qed.
Lemma u64_range x : 0 <= u64 x < 2 ^ 64.
Proof. by apply wrapu_range. Qed.
Lemma u32_small x : 0 <= x < 2 ^ 32 -> u32 x = x.
Proof. apply wrapu_small. Qed.
Lemma s32_small x : - 2 ^ 31 <= x < 2 ^ 31 -> s32 x = x.
Proof. intros. by apply wraps_small. Qed.
Lemma s64_small x : - 2 ^ 63 <= x < 2 ^ 63 -> s64 x = x.
Proof. intros. by apply wraps_small. Qed.

Lemma schk_ok w x : in_s w x -> schk w x = Ok x.
Proof. intros. unfold schk. by rewrite decide_True. Qed.

Lemma schk_inv w x y : schk w x = Ok y -> y = x /\ in_s w x.
Proof. unfold schk. case_decide; naive_solver. Qed.

(** [wrap_simpl] removes the conversions whose argument is in range. *)
Ltac wrap_simpl :=
  repeat match goal with
    | |- context [u64 ?x] => rewrite (u64_small x) in * by lia
    | H : context [u64 ?x] |- _ => rewrite (u64_small x) in * by lia
    | |- context [u32 ?x] => rewrite (u32_small x) in * by lia
    | H : context [u32 ?x] |- _ => rewrite (u32_small x) in * by lia
    | |- context [s32 ?x] => rewrite (s32_small x) in * by lia
    | H : context [s32 ?x] |- _ => rewrite (s32_small x) in * by lia
    | |- context [s64 ?x] => rewrite (s64_small x) in * by lia
    | H : context [s64 ?x] |- _ => rewrite (s64_small x) in * by lia
    end.
