(* ===== verification/CText.v ===== *)
(** * Text of the C and C++ standard libraries

    The decimal conversions of [printf] and [std::to_string], [strrchr], and
    the searches of [std::string] the programs use.  Characters are [ascii]. *)

From stdpp Require Import pretty.
From S2P Require Import Prelude CppInt.

(** ** Decimal numbers *)

(** The text of [%d], [std::to_string] and [operator<<] on an integer. *)
Definition number_text (n : Z) : bytes := str (pretty n).

Lemma str_cons c s : str (String c s) = c :: str s.
Proof. done. Qed.

Lemma str_inj s t : str s = str t -> s = t.
Proof.
  unfold str. intros H. apply (f_equal String.string_of_list_ascii) in H.
  by rewrite !String.string_of_list_ascii_of_string in H.
Qed.

Lemma number_text_inj n m : number_text n = number_text m -> n = m.
Proof. intros H%str_inj. by apply (inj pretty). Qed.

(** [%Nd] and [%0Nd]: at least [w] characters, padded on the left with blanks
    or, behind the sign, with zeros. *)
Definition fmt_d (w : nat) (n : Z) : bytes :=
  let t := number_text n in replicate (w - length t) " "%char ++ t.

Definition fmt_0d (w : nat) (n : Z) : bytes :=
  let t := number_text (Z.abs n) in
  let sign := if decide (n < 0) then str "-" else [] in
  sign ++ replicate (w - length sign - length t) "0"%char ++ t.

(** The reference: the last [w] decimal digits of [n]. *)
Definition digit_char (d : Z) : Ascii.ascii := pretty_N_char (Z.to_N d).

Fixpoint dec_digits (w : nat) (n : Z) : bytes :=
  match w with
  | O => []
  | S w' => dec_digits w' (n `div` 10) ++ [digit_char (n `mod` 10)]
  end.

Lemma dec_digits_length w n : length (dec_digits w n) = w.
Proof.
  revert n. induction w as [|w IH]; intros n; simpl; [done|].
  rewrite length_app, IH. simpl. lia.
Qed.

Lemma dec_digits_zero w : dec_digits w 0 = replicate w "0"%char.
Proof.
  induction w as [|w IH]; [done|].
  cbn [dec_digits]. change (0 `div` 10) with 0. rewrite IH.
  change [digit_char (0 `mod` 10)] with (replicate 1 "0"%char).
  rewrite <- replicate_add. f_equal. lia.
Qed.

Lemma pretty_go_digits w n s :
  0 < n < 10 ^ Z.of_nat w ->
  exists k t, (k + length t = w)%nat /\ str (pretty_N_go (Z.to_N n) s) = t ++ str s /\
    replicate k "0"%char ++ t = dec_digits w n /\ t <> [].
Proof.
  revert n s. induction w as [|w IH]; intros n s Hn; [simpl in Hn; lia|].
  rewrite pretty_N_go_step by lia.
  assert (Hm : (Z.to_N n mod 10)%N = Z.to_N (n mod 10)) by (rewrite Z2N.inj_mod by lia; done).
  assert (Hd : (Z.to_N n / 10)%N = Z.to_N (n / 10)) by (rewrite Z2N.inj_div by lia; done).
  rewrite Hm, Hd. change (pretty_N_char (Z.to_N (n mod 10))) with (digit_char (n mod 10)).
  cbn [dec_digits]. rewrite Nat2Z.inj_succ, Z.pow_succ_r in Hn by lia.
  destruct (decide (n < 10)) as [Hs|Hs].
  - rewrite Z.div_small by lia. simpl pretty_N_go. exists w, [digit_char (n mod 10)].
    rewrite dec_digits_zero. split_and!; [simpl; lia|done|done|done].
  - assert (0 < n / 10 < 10 ^ Z.of_nat w).
    { split; [apply Z.div_str_pos; lia|]. apply Z.div_lt_upper_bound; lia. }
    destruct (IH (n / 10) (String (digit_char (n mod 10)) s)) as (k & t & Hk & Ht & Hz & _); [done|].
    exists k, (t ++ [digit_char (n mod 10)]). split_and!.
    + rewrite length_app. simpl. lia.
    + rewrite Ht, str_cons, <- app_assoc. done.
    + by rewrite app_assoc, Hz.
    + by destruct t.
Qed.

Lemma number_text_digits w n :
  (0 < w)%nat -> 0 <= n < 10 ^ Z.of_nat w ->
  replicate (w - length (number_text n)) "0"%char ++ number_text n = dec_digits w n.
Proof.
  intros Hw Hn. destruct (decide (n = 0)) as [->|Hn0].
  { rewrite dec_digits_zero. change (number_text 0) with (replicate 1 "0"%char).
    rewrite <- replicate_add. f_equal. simpl. lia. }
  destruct (pretty_go_digits w n "") as (k & t & Hk & Ht & Hz & _); [lia|].
  assert (E : number_text n = t).
  { unfold number_text, pretty, pretty_Z. destruct n as [|p|p]; [done| |lia].
    unfold pretty, pretty_positive, pretty, pretty_N. rewrite decide_False by done.
    simpl in Ht. rewrite app_nil_r in Ht. done. }
  rewrite E, <- Hz. f_equal. f_equal. lia.
Qed.

Lemma fmt_0d_digits w n :
  (0 < w)%nat -> 0 <= n < 10 ^ Z.of_nat w -> fmt_0d w n = dec_digits w n.
Proof.
  intros Hw Hn. unfold fmt_0d. rewrite decide_False by lia. rewrite Z.abs_eq by lia.
  simpl. rewrite Nat.sub_0_r. by apply number_text_digits.
Qed.

(** Case analysis on a digit. *)
Ltac digit_cases d :=
  let H := fresh in
  assert (H : d = 0 \/ d = 1 \/ d = 2 \/ d = 3 \/ d = 4 \/ d = 5 \/ d = 6 \/ d = 7 \/
              d = 8 \/ d = 9) by lia;
  destruct_or! H; subst d.

Lemma digit_char_nonzero d : 0 < d < 10 -> digit_char d <> "0"%char.
Proof. intros Hd. digit_cases d; [lia|discriminate..]. Qed.

(** A four-digit number needs no padding. *)
Lemma fmt_d_digits4 n : 1000 <= n < 10000 -> fmt_d 4 n = dec_digits 4 n.
Proof.
  intros Hn. pose proof (number_text_digits 4 n ltac:(lia) ltac:(simpl; lia)) as E.
  assert (Hlen : length (number_text n) = 4%nat).
  { pose proof (f_equal length E) as El.
    rewrite length_app, length_replicate, dec_digits_length in El.
    destruct (4 - length (number_text n))%nat eqn:Hk; [lia|exfalso].
    cbn in E. injection E as E _. symmetry in E. revert E. apply digit_char_nonzero.
    Z.div_mod_to_equations. lia. }
  unfold fmt_d. rewrite Hlen in *. simpl in *. done.
Qed.

(** Reading digits back. *)
Definition digit_value (c : Ascii.ascii) : option Z :=
  let d := Z.of_nat (nat_of_ascii c) - 48 in
  if decide (0 <= d < 10) then Some d else None.

Fixpoint read_digits (acc : Z) (l : bytes) : option Z :=
  match l with
  | [] => Some acc
  | c :: l' => d ← digit_value c; read_digits (acc * 10 + d) l'
  end.

Lemma digit_value_char d : 0 <= d < 10 -> digit_value (digit_char d) = Some d.
Proof. intros Hd. by digit_cases d. Qed.

Lemma read_digits_app acc l l' :
  read_digits acc (l ++ l') = (acc' ← read_digits acc l; read_digits acc' l').
Proof.
  revert acc. induction l as [|c l IH]; intros acc; simpl; [done|].
  destruct (digit_value c); simpl; [apply IH|done].
Qed.

Lemma read_dec_digits w n acc :
  0 <= n < 10 ^ Z.of_nat w ->
  read_digits acc (dec_digits w n) = Some (acc * 10 ^ Z.of_nat w + n).
Proof.
  revert n. induction w as [|w IH]; intros n Hn; simpl.
  - simpl in Hn. f_equal. lia.
  - rewrite Nat2Z.inj_succ, Z.pow_succ_r in * by lia.
    rewrite read_digits_app, IH.
    + simpl. pose proof (Z.mod_pos_bound n 10 ltac:(lia)).
      rewrite digit_value_char by lia. simpl. f_equal. pose proof (Z.div_mod n 10). lia.
    + split; [apply Z.div_pos; lia|]. apply Z.div_lt_upper_bound; lia.
Qed.

(** ** Searching text *)

(** [strrchr]: the last occurrence. *)
Fixpoint strrchr (l : bytes) (c : Ascii.ascii) : option nat :=
  match l with
  | [] => None
  | x :: l' =>
      match strrchr l' c with
      | Some i => Some (S i)
      | None => if decide (x = c) then Some 0%nat else None
      end
  end.

Lemma strrchr_spec l c :
  match strrchr l c with
  | Some i => l !! i = Some c /\ c ∉ drop (S i) l
  | None => c ∉ l
  end.
Proof.
  induction l as [|x l IH]; simpl; [set_solver|].
  destruct (strrchr l c) as [i|]; [done|].
  case_decide; [|set_solver]. subst. rewrite drop_0. done.
Qed.

(** [std::find] and [std::string::find] of one character: the first occurrence. *)
Fixpoint find_char (c : Ascii.ascii) (l : bytes) : option nat :=
  match l with
  | [] => None
  | x :: l' => if decide (x = c) then Some 0%nat else S <$> find_char c l'
  end.

Lemma find_char_app c p q : c ∉ p -> find_char c (p ++ c :: q) = Some (length p).
Proof.
  induction p as [|x p IH]; intros Hp; simpl; [by rewrite decide_True|].
  rewrite not_elem_of_cons in Hp. rewrite decide_False by naive_solver.
  rewrite IH by naive_solver. done.
Qed.

Lemma find_char_None c l : find_char c l = None <-> c ∉ l.
Proof.
  induction l as [|x l IH]; simpl; [set_solver|].
  rewrite not_elem_of_cons. case_decide; [naive_solver|].
  rewrite fmap_None. naive_solver.
Qed.

Lemma find_char_Some c l i :
  find_char c l = Some i -> exists p q, l = p ++ c :: q /\ length p = i /\ c ∉ p.
Proof.
  revert i. induction l as [|x l IH]; intros i; simpl; [done|]. case_decide as Hx.
  - intros [= <-]. exists [], l. subst. set_solver.
  - intros (j & Hj & ->)%fmap_Some. destruct (IH j Hj) as (p & q & -> & <- & Hp).
    exists (x :: p), q. split_and!; [done|done|set_solver].
Qed.
