(* ===== verification/Sys.v ===== *)
(** * The operating-system boundary

    System calls are not code of the repository: what they answer is an
    argument of the operations that make them.  A reply is one of the results
    POSIX documents; the transfer functions below only say that a call moves
    at most the bytes it was given room for. *)

From S2P Require Import Prelude CppInt.

Definition EPIPE : Z := 32.
Definition ECONNRESET : Z := 104.
Definition EWOULDBLOCK : Z := 11.
Definition EINTR : Z := 4.
Definition EMFILE : Z := 24.

(** Reply of [read]/[readv]: an error with its [errno], or bytes ([[]] is end of file). *)
Inductive rreply : Type :=
  | RFail (errno : Z)
  | RData (d : bytes).

(** Reply of [write]: an error with its [errno], or a number of bytes taken. *)
Inductive wreply : Type :=
  | WFail (errno : Z)
  | WAccept (n : nat).

(** [readv] with room for [cap] bytes. *)
Definition kread (cap : Z) (d : bytes) : bytes := take (Z.to_nat cap) d.

(** [write] of [data]: the value returned, [errno] if it failed, the bytes sent. *)
Definition kwrite (rep : wreply) (data : bytes) : Z * option Z * bytes :=
  match rep with
  | WFail e => (-1, Some e, [])
  | WAccept n => let sent := take n data in (Z.of_nat (length sent), None, sent)
  end.

Lemma kwrite_prefix rep data n e sent :
  kwrite rep data = (n, e, sent) ->
  sent ++ drop (length sent) data = data /\
  match e with Some _ => n = -1 /\ sent = [] | None => n = Z.of_nat (length sent) end /\
  (length sent <= length data)%nat.
Proof.
  destruct rep as [e'|k]; simpl; intros [= <- <- <-].
  - split_and!; [done..|simpl; lia].
  - split_and!; [|done|].
    + rewrite length_take. destruct (decide (k <= length data)%nat).
      * rewrite Nat.min_l by lia. apply take_drop.
      * rewrite Nat.min_r by lia. rewrite (take_ge data k), drop_ge, app_nil_r by lia. done.
    + rewrite length_take. lia.
Qed.

Lemma kread_length cap d : 0 <= cap -> Z.of_nat (length (kread cap d)) <= cap.
Proof. intros. unfold kread. rewrite length_take. lia. Qed.
