(* ===== verification/Buffer.v ===== *)
(** * The byte buffer ([myserver/include/buffer.h], [myserver/common/buffer.cpp])

    State: the vector and the two indices, as in the class.  A pointer into
    the vector is its offset from [begin()].  Reading or writing outside the
    vector is [UB]; a [resize] beyond the vector's maximal size throws. *)

From S2P Require Import Prelude CppInt Sys.

Definition kCheapPrepend : Z := 8.
Definition kInitialSize : Z := 1024.
Definition kCRLF : bytes := ["013"%char; "010"%char].

Record Buffer := mkBuffer {
  m_buffer : bytes;
  m_readerIndex : Z;
  m_writerIndex : Z;
}.

(** ** [std::vector<char>] and the copying algorithms *)

Definition vector_max_size : Z := 2 ^ 63 - 1.

Definition vec_resize (v : bytes) (n : Z) : outcome bytes :=
  if decide (vector_max_size < n) then Throw ExnLengthError
  else Ok (take (Z.to_nat n) v ++ replicate (Z.to_nat n - length v)%nat NUL).

Definition vec_read (v : bytes) (i n : Z) : outcome bytes :=
  if decide (0 <= i /\ 0 <= n /\ i + n <= len v)
  then Ok (take (Z.to_nat n) (drop (Z.to_nat i) v)) else UB.

Definition vec_write (v : bytes) (i : Z) (d : bytes) : outcome bytes :=
  if decide (0 <= i /\ i + len d <= len v)
  then Ok (take (Z.to_nat i) v ++ d ++ drop (Z.to_nat i + length d) v) else UB.

(** [std::copy(first, last, dst)] inside one vector: undefined when [dst] lies in the range. *)
Definition vec_copy (v : bytes) (first last dst : Z) : outcome bytes :=
  if decide (first <= dst < last) then UB
  else d ← vec_read v first (last - first); vec_write v dst d.

(** [std::search]: offset of the first occurrence, the length when there is none. *)
Fixpoint search (pat l : bytes) : nat :=
  if decide (pat `prefix_of` l) then 0%nat
  else match l with [] => 0%nat | _ :: l' => S (search pat l') end.

(** ** The class *)

Definition Buffer_new (initSize : Z) : outcome Buffer :=
  v ← vec_resize [] (u64 (kCheapPrepend + initSize));
  Ok (mkBuffer v kCheapPrepend kCheapPrepend).

Definition readableBytes (b : Buffer) : Z := u64 (m_writerIndex b - m_readerIndex b).
Definition writableBytes (b : Buffer) : Z := u64 (len (m_buffer b) - m_writerIndex b).
Definition prependableBytes (b : Buffer) : Z := m_readerIndex b.
Definition peek (b : Buffer) : Z := m_readerIndex b.
Definition beginWrite (b : Buffer) : Z := m_writerIndex b.

Definition retrieveAll : M Buffer unit :=
  modify (fun b => mkBuffer (m_buffer b) kCheapPrepend kCheapPrepend).

Definition retrieve (n : Z) : M Buffer unit :=
  b ← getS;
  if decide (n < readableBytes b)
  then modify (fun b => mkBuffer (m_buffer b) (u64 (m_readerIndex b + n)) (m_writerIndex b))
  else retrieveAll.

Definition retrieveUntil (e : Z) : M Buffer unit :=
  b ← getS; retrieve (u64 (e - peek b)).

Definition getBufferAsString : M Buffer bytes :=
  b ← getS; liftO (vec_read (m_buffer b) (peek b) (readableBytes b)).

Definition retrieveAsString (n : Z) : M Buffer bytes :=
  b ← getS;
  result ← liftO (vec_read (m_buffer b) (peek b) n);
  retrieve n ;;
  mret result.

Definition retrieveAllAsString : M Buffer bytes :=
  b ← getS; retrieveAsString (readableBytes b).

(** The parameter of [makeSpace] is an [int]: the mixed arithmetic with
    [size_t] converts it back to 64 unsigned bits. *)
Definition makeSpace (n : Z) : M Buffer unit :=
  b ← getS;
  if decide (u64 (writableBytes b + prependableBytes b) < u64 (u64 n + kCheapPrepend))
  then
    v ← liftO (vec_resize (m_buffer b) (u64 (m_writerIndex b + u64 n)));
    modify (fun b => mkBuffer v (m_readerIndex b) (m_writerIndex b))
  else
    let readable := readableBytes b in
    v ← liftO (vec_copy (m_buffer b) (m_readerIndex b) (m_writerIndex b) kCheapPrepend);
    modify (fun b => mkBuffer v kCheapPrepend (u64 (kCheapPrepend + readable))).

Definition ensureWritableBytes (n : Z) : M Buffer unit :=
  b ← getS;
  whenM (bool_decide (writableBytes b < n)) (makeSpace (s32 n)).

Definition append (data : bytes) : M Buffer unit :=
  ensureWritableBytes (len data) ;;
  b ← getS;
  v ← liftO (vec_write (m_buffer b) (beginWrite b) data);
  modify (fun b => mkBuffer v (m_readerIndex b) (u64 (m_writerIndex b + len data))).

Definition findCRLF (b : Buffer) : outcome (option Z) :=
  l ← vec_read (m_buffer b) (peek b) (beginWrite b - peek b);
  let crlf := peek b + Z.of_nat (search kCRLF l) in
  Ok (if decide (crlf = beginWrite b) then None else Some crlf).

(** [readFd]: scatter read into the writable part and a 65536-byte array on
    the stack.  Returns the value and what is stored in [*saveErrno]. *)
Definition extrabuf_size : Z := 65536.

Definition readFd (rep : rreply) : M Buffer (Z * option Z) :=
  b ← getS;
  let writable := writableBytes b in
  let iovcnt := if decide (writable < extrabuf_size) then 2 else 1 in
  match rep with
  | RFail e => mret (-1, Some e)
  | RData d0 =>
      let d := kread (writable + (if decide (iovcnt = 2) then extrabuf_size else 0)) d0 in
      let n := len d in
      v ← liftO (vec_write (m_buffer b) (m_writerIndex b) (take (Z.to_nat writable) d));
      modify (fun b => mkBuffer v (m_readerIndex b) (m_writerIndex b)) ;;
      (if decide (n <= writable)
       then modify (fun b => mkBuffer (m_buffer b) (m_readerIndex b) (u64 (m_writerIndex b + n)))
       else
         modify (fun b => mkBuffer (m_buffer b) (m_readerIndex b) (len (m_buffer b))) ;;
         append (drop (Z.to_nat writable) d)) ;;
      mret (n, None)
  end.

(** [writeFd]: the bytes sent are part of the result. *)
Definition writeFd (rep : wreply) : M Buffer (Z * option Z * bytes) :=
  b ← getS;
  d ← liftO (vec_read (m_buffer b) (peek b) (readableBytes b));
  mret (kwrite rep d).

(** ** Abstract view: a queue of bytes

    [content] is the readable region; [wf] the index invariant drawn in the
    header of the class. *)

Definition slice (v : bytes) (i j : Z) : bytes :=
  take (Z.to_nat (j - i)) (drop (Z.to_nat i) v).

Definition content (b : Buffer) : bytes :=
  slice (m_buffer b) (m_readerIndex b) (m_writerIndex b).

Definition wf (b : Buffer) : Prop :=
  kCheapPrepend <= m_readerIndex b <= m_writerIndex b /\
  m_writerIndex b <= len (m_buffer b) <= vector_max_size.

#[export] Instance wf_dec b : Decision (wf b).
Proof. unfold wf. apply _. Defined.

(** *** Slices *)

Lemma slice_length v i j :
  0 <= i <= j -> j <= len v -> len (slice v i j) = j - i.
Proof. intros. unfold slice. list_lia. Qed.

Lemma slice_nil v i : slice v i i = [].
Proof. unfold slice. by rewrite Z.sub_diag. Qed.

Lemma slice_drop v i j n :
  0 <= i -> 0 <= n <= j - i -> slice v (i + n) j = drop (Z.to_nat n) (slice v i j).
Proof.
  intros. unfold slice. rewrite skipn_firstn_comm, drop_drop.
  f_equal; [lia|]. f_equal. lia.
Qed.

Lemma slice_take v i j n :
  0 <= n <= j - i -> slice v i (i + n) = take (Z.to_nat n) (slice v i j).
Proof. intros. unfold slice. rewrite take_take. f_equal. lia. Qed.

Lemma slice_app v i j k :
  0 <= i <= j -> j <= k -> slice v i k = slice v i j ++ slice v j k.
Proof.
  intros. unfold slice. rewrite <- (take_drop (Z.to_nat (j - i)) (take (Z.to_nat (k - i)) _)).
  f_equal.
  - rewrite take_take. f_equal. lia.
  - rewrite skipn_firstn_comm, drop_drop. f_equal; [lia|]. f_equal. lia.
Qed.

Lemma slice_prefix v u i j :
  0 <= i <= j -> j <= len v -> slice (v ++ u) i j = slice v i j.
Proof.
  intros. unfold slice. rewrite drop_app_le by lia.
  rewrite take_app_le; [done|]. rewrite length_drop. lia.
Qed.

(** A write after the slice leaves it; a write is read back. *)
Lemma slice_write_before v i j p d v' :
  vec_write v p d = Ok v' -> 0 <= i <= j -> j <= p -> slice v' i j = slice v i j.
Proof.
  unfold vec_write. case_decide as Hd; intros [= <-] ??.
  rewrite slice_prefix by list_lia. unfold slice.
  rewrite skipn_firstn_comm, take_take. f_equal. lia.
Qed.

Lemma slice_write_same v p d v' :
  vec_write v p d = Ok v' -> slice v' p (p + len d) = d.
Proof.
  unfold vec_write. case_decide as Hd; intros [= <-]. unfold slice.
  rewrite drop_app_ge by list_lia.
  replace (Z.to_nat p - length (take (Z.to_nat p) v))%nat with 0%nat by list_lia.
  rewrite drop_0, take_app_le by list_lia. by rewrite take_ge by list_lia.
Qed.

Lemma vec_write_ok v p d :
  0 <= p -> p + len d <= len v ->
  exists v', vec_write v p d = Ok v' /\ length v' = length v.
Proof.
  intros. unfold vec_write. rewrite decide_True by lia. eexists. split; [done|]. list_lia.
Qed.

Lemma vec_read_ok v i j :
  0 <= i <= j -> j <= len v -> vec_read v i (j - i) = Ok (slice v i j).
Proof. intros. unfold vec_read. rewrite decide_True by lia. done. Qed.

Lemma vec_resize_ok v n :
  len v <= n <= vector_max_size ->
  exists u, vec_resize v n = Ok (v ++ u) /\ len (v ++ u) = n.
Proof.
  intros. unfold vec_resize. rewrite decide_False by lia.
  rewrite take_ge by lia. eexists. split; [done|]. list_lia.
Qed.

Lemma content_length b : wf b -> len (content b) = m_writerIndex b - m_readerIndex b.
Proof. intros (?&?). unfold content. rewrite slice_length; unfold kCheapPrepend in *; lia. Qed.

(** Unfold the index arithmetic of a well-formed buffer and let [lia] see the bounds. *)
Ltac buf_arith :=
  unfold wf, readableBytes, writableBytes, prependableBytes, peek, beginWrite,
    kCheapPrepend, vector_max_size, extrabuf_size, kInitialSize in *;
  simpl m_buffer in *; simpl m_readerIndex in *; simpl m_writerIndex in *;
  wrap_simpl.

Lemma readable_content b : wf b -> readableBytes b = len (content b).
Proof. intros H. rewrite content_length by done. buf_arith. lia. Qed.

(** *** The operations on the abstract queue *)

Lemma content_eq v r w b :
  m_buffer b = v -> m_readerIndex b = r -> m_writerIndex b = w -> content b = slice v r w.
Proof. by intros <- <- <-. Qed.

Lemma retrieveAll_spec b :
  wf b -> wp retrieveAll (fun _ b' => wf b' /\ content b' = [] /\ m_buffer b' = m_buffer b) b.
Proof.
  intros Hb. unfold retrieveAll. wp_simpl. split_and!; [|apply slice_nil|done].
  buf_arith. lia.
Qed.

(** [retrieve n] removes the first [n] bytes, everything when there are fewer. *)
Lemma retrieve_spec b n :
  wf b -> 0 <= n < 2 ^ 64 ->
  wp (retrieve n)
     (fun _ b' => wf b' /\ content b' = drop (Z.to_nat n) (content b) /\
                  m_buffer b' = m_buffer b) b.
Proof.
  intros Hb Hn. unfold retrieve. wp_simpl. pose proof (content_length b Hb).
  rewrite (readable_content b Hb). case_decide as Hd.
  - wp_simpl. assert (Hu : u64 (m_readerIndex b + n) = m_readerIndex b + n) by (buf_arith; lia).
    rewrite Hu. split_and!; [buf_arith; lia| |done].
    unfold content at 1; simpl. rewrite slice_drop; [done|buf_arith; lia..].
  - eapply wp_mono; [by apply retrieveAll_spec|]. intros _ b' (?&->&?).
    split_and!; [done| |done]. rewrite drop_ge; [done|lia].
Qed.

(** [makeSpace n] keeps the content and leaves room for [n] bytes. *)
Lemma makeSpace_spec b n :
  wf b -> writableBytes b < n -> n < 2 ^ 31 -> m_writerIndex b + n <= vector_max_size ->
  wp (makeSpace n)
     (fun _ b' => wf b' /\ content b' = content b /\ n <= writableBytes b' /\
                  len (m_buffer b') <= Z.max (len (m_buffer b)) (m_writerIndex b + n)) b.
Proof.
  intros Hb Hw Hn Hmax. unfold makeSpace. wp_simpl.
  assert (0 <= n) by (pose proof (u64_range (len (m_buffer b) - m_writerIndex b)); buf_arith; lia).
  rewrite (u64_small n), (u64_small (n + kCheapPrepend)) by (buf_arith; lia).
  rewrite (u64_small (m_writerIndex b + n)) by (buf_arith; lia).
  case_decide as Hd; simpl.
  - destruct (vec_resize_ok (m_buffer b) (m_writerIndex b + n)) as (u & Hu & Hlen);
      [buf_arith; lia|].
    wp_simpl. rewrite Hu. wp_simpl.
    split_and!; [buf_arith; lia| |buf_arith; lia|buf_arith; lia].
    unfold content; simpl. apply slice_prefix; buf_arith; lia.
  - wp_simpl. unfold vec_copy.
    rewrite (decide_False (P := _ <= kCheapPrepend < _)) by (buf_arith; lia).
    rewrite vec_read_ok by (buf_arith; lia). cbn [mbind outcome_bind].
    fold (content b). pose proof (content_length b Hb) as Hc.
    destruct (vec_write_ok (m_buffer b) kCheapPrepend (content b)) as (v & Hv & Hl);
      [buf_arith; lia..|].
    rewrite Hv. wp_simpl.
    assert (Hr : u64 (kCheapPrepend + readableBytes b) = kCheapPrepend + len (content b)).
    { rewrite readable_content by done. buf_arith. lia. }
    rewrite Hr. split_and!; [buf_arith; lia| |buf_arith; lia|buf_arith; lia].
    unfold content at 1; simpl. by eapply slice_write_same.
Qed.

Lemma ensureWritableBytes_spec b n :
  wf b -> 0 <= n < 2 ^ 31 -> m_writerIndex b + n <= vector_max_size ->
  wp (ensureWritableBytes n)
     (fun _ b' => wf b' /\ content b' = content b /\ n <= writableBytes b' /\
                  len (m_buffer b') <= Z.max (len (m_buffer b)) (m_writerIndex b + n)) b.
Proof.
  intros Hb Hn Hmax. unfold ensureWritableBytes. wp_simpl.
  case_bool_decide as Hd.
  - rewrite s32_small by lia. apply makeSpace_spec; auto with lia.
  - split_and!; [done..|lia|lia].
Qed.

(** [append] adds the bytes behind the content, for at most [INT_MAX] bytes. *)
Lemma append_spec b data :
  wf b -> len data < 2 ^ 31 -> m_writerIndex b + len data <= vector_max_size ->
  wp (append data)
     (fun _ b' => wf b' /\ content b' = content b ++ data /\
                  len (m_buffer b') <= Z.max (len (m_buffer b)) (m_writerIndex b + len data)) b.
Proof.
  intros Hb Hd Hmax. unfold append. wp_simpl.
  eapply wp_mono; [apply ensureWritableBytes_spec; auto with lia|].
  intros _ b' (Hb' & Hc & Hroom & Hsz). wp_simpl.
  destruct (vec_write_ok (m_buffer b') (beginWrite b') data) as (v & Hv & Hl);
    [buf_arith; lia..|].
  rewrite Hv. wp_simpl.
  assert (Hu : u64 (m_writerIndex b' + len data) = m_writerIndex b' + len data)
    by (buf_arith; lia).
  rewrite Hu. split_and!; [buf_arith; lia| |buf_arith; lia].
  unfold content at 1; simpl.
  unfold beginWrite in Hv. rewrite (slice_app _ _ (m_writerIndex b')) by (buf_arith; lia).
  rewrite (slice_write_same _ _ _ _ Hv), (slice_write_before _ _ _ _ _ _ Hv)
    by (buf_arith; lia).
  by rewrite <- Hc.
Qed.

Lemma retrieveAsString_spec b n :
  wf b -> 0 <= n <= readableBytes b ->
  wp (retrieveAsString n)
     (fun r b' => wf b' /\ r = take (Z.to_nat n) (content b) /\
                  content b' = drop (Z.to_nat n) (content b)) b.
Proof.
  intros Hb Hn. unfold retrieveAsString. wp_simpl.
  assert (Hr : vec_read (m_buffer b) (peek b) n =
               Ok (slice (m_buffer b) (peek b) (peek b + n))).
  { rewrite <- vec_read_ok by (buf_arith; lia). f_equal. lia. }
  rewrite Hr. wp_simpl.
  eapply wp_mono; [apply retrieve_spec; [done|buf_arith; lia]|]. intros _ b' (?&?&?).
  split_and!; [done| |done]. unfold content. apply slice_take. buf_arith. lia.
Qed.

Lemma retrieveAllAsString_spec b :
  wf b ->
  wp retrieveAllAsString (fun r b' => wf b' /\ r = content b /\ content b' = []) b.
Proof.
  intros Hb. unfold retrieveAllAsString. wp_simpl.
  pose proof (u64_range (m_writerIndex b - m_readerIndex b)).
  eapply wp_mono; [apply retrieveAsString_spec; [done|unfold readableBytes; lia]|].
  intros r b' (?&->&->). rewrite readable_content, Nat2Z.id by done.
  rewrite take_ge, drop_ge by lia. done.
Qed.

Lemma writeFd_spec b rep :
  wf b ->
  wp (writeFd rep) (fun r b' => b' = b /\ r = kwrite rep (content b)) b.
Proof.
  intros Hb. unfold writeFd. wp_simpl.
  assert (Hr : readableBytes b = m_writerIndex b - m_readerIndex b) by (buf_arith; lia).
  unfold peek. rewrite Hr, vec_read_ok by (buf_arith; lia). wp_simpl. done.
Qed.

(** What one [readFd] can take from the kernel: at least 65536 bytes. *)
Definition read_room (b : Buffer) : Z :=
  writableBytes b + (if decide (writableBytes b < extrabuf_size) then extrabuf_size else 0).

Lemma read_room_ge b : extrabuf_size <= read_room b.
Proof.
  unfold read_room. pose proof (u64_range (len (m_buffer b) - m_writerIndex b)).
  fold (writableBytes b) in *. case_decide; unfold extrabuf_size in *; lia.
Qed.

Lemma readFd_room_eq b :
  writableBytes b +
    (if decide ((if decide (writableBytes b < extrabuf_size) then 2 else 1) = 2)
     then extrabuf_size else 0) = read_room b.
Proof. unfold read_room. by destruct (decide (writableBytes b < extrabuf_size)). Qed.

Lemma readFd_spec b rep :
  wf b -> m_writerIndex b + read_room b <= vector_max_size ->
  wp (readFd rep)
     (fun r b' => wf b' /\
        match rep with
        | RFail e => r = (-1, Some e) /\ b' = b
        | RData d0 =>
            let d := kread (read_room b) d0 in
            r = (len d, None) /\ content b' = content b ++ d /\
            len (m_buffer b') <= len (m_buffer b) + len d
        end) b.
Proof.
  intros Hb Hmax. unfold readFd. wp_simpl.
  destruct rep as [e|d0]; wp_simpl; [done|].
  rewrite readFd_room_eq. set (d := kread (read_room b) d0).
  assert (Hroom : len d <= read_room b).
  { apply kread_length. pose proof (read_room_ge b). unfold extrabuf_size in *. lia. }
  assert (Hw : writableBytes b = len (m_buffer b) - m_writerIndex b) by (buf_arith; lia).
  destruct (vec_write_ok (m_buffer b) (m_writerIndex b) (take (Z.to_nat (writableBytes b)) d))
    as (v & Hv & Hl); [buf_arith; lia|list_lia; buf_arith; lia|].
  rewrite Hv. wp_simpl.
  pose proof (slice_write_same _ _ _ _ Hv) as Hsame.
  assert (Hbefore : slice v (m_readerIndex b) (m_writerIndex b) = content b).
  { eapply slice_write_before; [done|buf_arith; lia..]. }
  rewrite length_take in Hsame.
  case_decide as Hn; wp_simpl; cbn [m_buffer m_readerIndex m_writerIndex].
  - assert (Hu : u64 (m_writerIndex b + len d) = m_writerIndex b + len d) by (buf_arith; lia).
    rewrite Hu. split_and!; [buf_arith; lia|done| |simpl; lia].
    unfold content at 1; simpl.
    rewrite (slice_app _ _ (m_writerIndex b)), Hbefore by (buf_arith; lia). f_equal.
    rewrite Nat.min_r, take_ge in Hsame by lia. done.
  - set (b1 := mkBuffer v (m_readerIndex b) (len v)).
    assert (Hb1 : wf b1) by (subst b1; buf_arith; lia).
    assert (Hc1 : content b1 = content b ++ take (Z.to_nat (writableBytes b)) d).
    { unfold content at 1, b1; simpl.
      rewrite (slice_app _ _ (m_writerIndex b)), Hbefore by (buf_arith; lia). f_equal.
      rewrite Nat.min_l in Hsame by lia. rewrite <- Hsame. f_equal. buf_arith. lia. }
    assert (Hx : len (drop (Z.to_nat (writableBytes b)) d) <= extrabuf_size).
    { rewrite length_drop. unfold read_room in *. case_decide; unfold extrabuf_size in *; lia. }
    eapply wp_mono; [apply append_spec; [done|..]|].
    + unfold extrabuf_size in Hx. lia.
    + subst b1; simpl. rewrite length_drop in *. lia.
    + intros _ b' (Hb' & Hc' & Hs'). wp_simpl. split_and!; [done|done| |].
      * rewrite Hc', Hc1, <- app_assoc. by rewrite take_drop.
      * subst b1; simpl in Hs'. rewrite length_drop in *. lia.
Qed.

(** *** Searching *)

Lemma search_spec pat l :
  pat <> [] ->
  (search pat l = length l /\ ~ exists p q, l = p ++ pat ++ q) \/
  (exists q, l = take (search pat l) l ++ pat ++ q /\
             forall p q', l = p ++ pat ++ q' -> (search pat l <= length p)%nat).
Proof.
  intros Hp. induction l as [|x l IH].
  - left. simpl. case_decide as H.
    + destruct H as [q Hq]. by destruct pat.
    + split; [done|]. intros (p & q & E). destruct p, pat; simplify_list_eq.
  - simpl. case_decide as H.
    + right. destruct H as [q Hq]. exists q. split; [done|]. intros. lia.
    + destruct IH as [[E Hno]|(q & E & Hfirst)].
      * left. rewrite E. split; [done|]. intros (p & q & Eq). destruct p as [|y p].
        -- apply H. by exists q.
        -- simplify_list_eq. naive_solver.
      * right. exists q. simpl. split; [by f_equal|]. intros p q' Eq. destruct p as [|y p].
        -- destruct H. by exists q'.
        -- simplify_list_eq. simpl. apply le_n_S. eauto.
Qed.

(** [findCRLF] returns the first CRLF of the readable bytes, if there is one. *)
Lemma findCRLF_spec b :
  wf b ->
  (findCRLF b = Ok None /\ ~ exists p q, content b = p ++ kCRLF ++ q) \/
  (exists p q, findCRLF b = Ok (Some (m_readerIndex b + len p)) /\
     content b = p ++ kCRLF ++ q /\
     forall p' q', content b = p' ++ kCRLF ++ q' -> (length p <= length p')%nat).
Proof.
  intros Hb. unfold findCRLF.
  assert (Hr : vec_read (m_buffer b) (peek b) (beginWrite b - peek b) = Ok (content b)).
  { apply vec_read_ok; buf_arith; lia. }
  rewrite Hr. cbn [mbind outcome_bind]. pose proof (content_length b Hb) as Hl.
  destruct (search_spec kCRLF (content b)) as [[E Hno]|(q & E & Hfirst)]; [done|..].
  - left. rewrite E. split; [|done]. rewrite decide_True; [done|]. buf_arith. lia.
  - right. exists (take (search kCRLF (content b)) (content b)), q.
    assert (Hlen : (length (take (search kCRLF (content b)) (content b)) =
                    search kCRLF (content b) /\
                    search kCRLF (content b) + 2 <= length (content b))%nat).
    { apply (f_equal length) in E. rewrite !length_app in E. simpl in E.
      rewrite length_take in *. lia. }
    destruct Hlen as [Hlen Hlt]. rewrite Hlen. split_and!; [|done|done].
    rewrite decide_False; [done|]. buf_arith. lia.
Qed.

Create HintDb bufspec.
#[export] Hint Resolve retrieve_spec retrieveAll_spec append_spec readFd_spec
  retrieveAllAsString_spec writeFd_spec : bufspec.

(** ** Refinement: any run of operations behaves like a byte queue *)

Inductive bop : Type :=
  | BAppend (d : bytes)
  | BRetrieve (n : Z)
  | BRetrieveAll
  | BReadFd (rep : rreply).

Definition bop_run (o : bop) : M Buffer unit :=
  match o with
  | BAppend d => append d
  | BRetrieve n => retrieve n
  | BRetrieveAll => retrieveAll
  | BReadFd rep => readFd rep ;; mret tt
  end.

Fixpoint bops_run (os : list bop) : M Buffer unit :=
  match os with [] => mret tt | o :: os' => bop_run o ;; bops_run os' end.

(** The queue: [BReadFd] appends what the kernel delivered, of which at least
    65536 bytes are taken in one call. *)
Inductive queue_step : bytes -> bop -> bytes -> Prop :=
  | q_append q d : queue_step q (BAppend d) (q ++ d)
  | q_retrieve q n : queue_step q (BRetrieve n) (drop (Z.to_nat n) q)
  | q_retrieveAll q : queue_step q BRetrieveAll []
  | q_readFail q e : queue_step q (BReadFd (RFail e)) q
  | q_read q d n : extrabuf_size <= n -> queue_step q (BReadFd (RData d)) (q ++ kread n d).

(** The arguments for which the contract is promised, and the growth an
    operation may cause. *)
Definition bop_ok (o : bop) : Prop :=
  match o with
  | BAppend d => len d < 2 ^ 31
  | BRetrieve n => 0 <= n < 2 ^ 64
  | _ => True
  end.

#[export] Instance bop_ok_dec o : Decision (bop_ok o).
Proof. destruct o; simpl; apply _. Defined.

Definition bop_cost (o : bop) : Z :=
  match o with
  | BAppend d => len d
  | BReadFd (RData d) => len d
  | _ => 0
  end.

Definition bops_cost (os : list bop) : Z := foldr (fun o n => bop_cost o + n) 0 os.

Lemma bop_cost_nonneg o : 0 <= bop_cost o.
Proof. destruct o as [| | |[]]; simpl; lia. Qed.

Lemma bops_cost_nonneg os : 0 <= bops_cost os.
Proof.
  induction os as [|o os IH]; simpl; [lia|]. pose proof (bop_cost_nonneg o). lia.
Qed.

Lemma kread_cost cap d : len (kread cap d) <= len d.
Proof. unfold kread. rewrite length_take. lia. Qed.

Lemma bop_refines b o :
  wf b -> bop_ok o -> len (m_buffer b) + extrabuf_size + bop_cost o <= vector_max_size ->
  wp (bop_run o)
     (fun _ b' => wf b' /\ queue_step (content b) o (content b') /\
                  len (m_buffer b') <= len (m_buffer b) + bop_cost o) b.
Proof.
  intros Hb Ho Hmax. pose proof (bop_cost_nonneg o).
  destruct o as [d|n| |rep]; simpl in *.
  - eapply wp_mono; [apply append_spec; [done|done|]|].
    + buf_arith. lia.
    + intros _ b' (?&->&?). split_and!; [done|constructor|buf_arith; lia].
  - eapply wp_mono; [by apply retrieve_spec|]. intros _ b' (?&->&->).
    split_and!; [done|constructor|lia].
  - eapply wp_mono; [by apply retrieveAll_spec|]. intros _ b' (?&->&->).
    split_and!; [done|constructor|lia].
  - wp_simpl. eapply wp_mono; [apply readFd_spec; [done|]|].
    + unfold read_room. case_decide; buf_arith; lia.
    + intros r b' (Hwf & Hres). destruct rep as [e|d]; wp_simpl.
      * destruct Hres as [_ ->]. split_and!; [done|constructor|lia].
      * destruct Hres as (_ & -> & Hl). pose proof (kread_cost (read_room b) d).
        split_and!; [done|constructor; apply read_room_ge|lia].
Qed.

(** C6. The buffer refines a byte queue: from a well-formed buffer every
    sequence of [append], [retrieve], [retrieveAll] and [readFd] runs without
    undefined behaviour or exception, the contents follow the queue operation
    by operation, and the index invariant holds at the end; as long as no
    single [append] exceeds [INT_MAX] bytes and the sizes stay below the
    vector's maximum. *)
Theorem buffer_refines_queue b os :
  wf b -> Forall bop_ok os ->
  len (m_buffer b) + extrabuf_size + bops_cost os <= vector_max_size ->
  wp (bops_run os)
     (fun _ b' => wf b' /\ lsteps queue_step (content b) os (content b')) b.
Proof.
  intros Hb Hos. revert b Hb. induction Hos as [|o os Ho Hos IH]; intros b Hb Hmax; simpl in *.
  - split; [done|constructor].
  - pose proof (bops_cost_nonneg os). wp_simpl.
    eapply wp_mono; [apply bop_refines; auto with lia|]. intros _ b' (Hb' & Hq & Hl).
    eapply wp_mono; [apply IH; [done|lia]|]. intros _ b'' (Hb'' & Hqs).
    split; [done|]. econstructor; done.
Qed.

(** The freshly constructed buffer. *)
Definition fresh_buffer : Buffer :=
  mkBuffer (replicate 1032 NUL) kCheapPrepend kCheapPrepend.

Lemma Buffer_new_fresh : Buffer_new kInitialSize = Ok fresh_buffer.
Proof. vm_compute. reflexivity. Qed.

Lemma fresh_wf : wf fresh_buffer.
Proof. unfold wf, fresh_buffer. cbn [m_buffer m_readerIndex m_writerIndex].
  rewrite length_replicate. unfold kCheapPrepend, vector_max_size. lia. Qed.

Lemma fresh_content : content fresh_buffer = [].
Proof. reflexivity. Qed.

Definition buffer_refines_queue_input : list bop :=
  [BAppend (str "GET "); BRetrieve 2; BReadFd (RData (str "/x")); BRetrieve 100;
   BReadFd (RFail EINTR); BAppend (str "y"); BRetrieveAll].

Lemma buffer_refines_queue_witness :
  wp (bops_run buffer_refines_queue_input)
     (fun _ b' => wf b' /\
        lsteps queue_step (content fresh_buffer) buffer_refines_queue_input (content b'))
     fresh_buffer.
Proof.
  apply (buffer_refines_queue fresh_buffer buffer_refines_queue_input).
  - exact fresh_wf.
  - apply (bool_decide_unpack _). vm_compute. exact I.
  - vm_compute. discriminate.
Defined.

(** [readFd] takes everything the kernel offers up to 64 KiB in one call,
    whatever room the buffer has left, and appends it behind the content; a
    failed call changes nothing and reports [errno]. *)
Theorem readFd_takes_64k b rep :
  wf b -> m_writerIndex b + 2 * extrabuf_size <= vector_max_size ->
  match rep with RData d => len d <= extrabuf_size | _ => True end ->
  writableBytes b <= extrabuf_size ->
  wp (readFd rep)
     (fun r b' => wf b' /\
        match rep with
        | RFail e => r = (-1, Some e) /\ b' = b
        | RData d => r = (len d, None) /\ content b' = content b ++ d
        end) b.
Proof.
  intros Hb Hmax Hd Hw. eapply wp_mono; [apply readFd_spec; [done|]|].
  - unfold read_room. case_decide; unfold extrabuf_size in *; lia.
  - intros r b' (Hwf & Hres). split; [done|]. destruct rep as [e|d]; [done|].
    assert (Hk : kread (read_room b) d = d).
    { unfold kread. apply take_ge. pose proof (read_room_ge b). lia. }
    rewrite Hk in Hres. by destruct Hres as (?&?&?).
Qed.

Lemma readFd_takes_64k_witness :
  wp (readFd (RData (str "hello")))
     (fun r b' => wf b' /\ r = (5, None) /\ content b' = content fresh_buffer ++ str "hello")
     fresh_buffer.
Proof.
  apply (readFd_takes_64k fresh_buffer (RData (str "hello"))).
  - exact fresh_wf.
  - vm_compute. discriminate.
  - vm_compute. discriminate.
  - vm_compute. discriminate.
Defined.

(** [makeSpace] takes an [int]: an [append] of [2^31] bytes to a fresh
    buffer converts the length to a negative number, asks for a vector of
    almost [2^64] bytes and throws; an [append] of [2^32] bytes converts it to
    [0], reserves nothing and writes past the end of the vector. *)
Theorem append_int_truncation data :
  (len data = 2 ^ 31 -> append data fresh_buffer = Throw ExnLengthError) /\
  (len data = 2 ^ 32 -> append data fresh_buffer = UB).
Proof.
  assert (Hw : writableBytes fresh_buffer = 1024) by reflexivity.
  split; intros Hlen; unfold append, ensureWritableBytes, mbind, M_bind, getS;
    rewrite Hlen, Hw; rewrite bool_decide_eq_true_2 by lia.
  - reflexivity.
  - change (whenM true (makeSpace (s32 (2 ^ 32))) fresh_buffer) with (Ok (tt, fresh_buffer)).
    cbn. unfold vec_write. by rewrite decide_False by (rewrite Hlen; cbn; lia).
Qed.
