(* ===== verification/LogStream.v ===== *)
(** * The log line buffer and its formatting
    ([myserver/include/fixed_buffer.h], [log_stream.h], [myserver/common/log_stream.cpp])

    The character array of [FixedBuffer] is not initialised by its constructor,
    so a cell is [None] until it is written. *)

From stdpp Require Import pretty.
From S2P Require Import Prelude CppInt CText.

(** ** [FixedBuffer<SIZE>] *)

Definition kSmallBuffer : Z := 4000.
Definition kMaxNumberSize : Z := 48.

Record FixedBuffer := mkFB {
  m_data : list (option Ascii.ascii);
  m_cur : Z;
}.

Section fixed_buffer.
Context (SIZE : Z).

Definition FixedBuffer_new : FixedBuffer :=
  mkFB (replicate (Z.to_nat SIZE) None) 0.

(** Stores into the array: undefined outside it. *)
Definition cells_write (v : list (option Ascii.ascii)) (i : Z) (d : bytes) :
    outcome (list (option Ascii.ascii)) :=
  if decide (0 <= i /\ i + len d <= len v)
  then Ok (take (Z.to_nat i) v ++ (Some <$> d) ++ drop (Z.to_nat i + length d) v)
  else UB.

Definition fb_end : Z := SIZE.
Definition avail (fb : FixedBuffer) : Z := s32 (fb_end - m_cur fb).
Definition fb_length (fb : FixedBuffer) : Z := s32 (fb_end - 0).

(** Pointer arithmetic may not leave the array (one past the end included). *)
Definition fb_add (n : Z) : M FixedBuffer unit :=
  fb ← getS;
  if decide (0 <= m_cur fb + n <= SIZE)
  then modify (fun fb => mkFB (m_data fb) (m_cur fb + n)) else undefined.

Definition fb_store (i : Z) (d : bytes) : M FixedBuffer unit :=
  fb ← getS;
  v ← liftO (cells_write (m_data fb) i d);
  modify (fun fb => mkFB v (m_cur fb)).

Definition fb_append (buf : bytes) : M FixedBuffer unit :=
  fb ← getS;
  whenM (bool_decide (u64 (avail fb) > len buf))
    (fb_store (m_cur fb) buf ;; fb_add (len buf)).

Definition fb_reset : M FixedBuffer unit := modify (fun fb => mkFB (m_data fb) 0).
Definition fb_bzero : M FixedBuffer unit :=
  modify (fun fb => mkFB (replicate (Z.to_nat SIZE) (Some "000"%char)) (m_cur fb)).
Definition fb_toString (fb : FixedBuffer) : list (option Ascii.ascii) :=
  take (Z.to_nat (fb_length fb)) (m_data fb).

(** ** [formatInteger]

    [T] is a type of [w] bits; the division truncates, so the remainders of
    a negative number are negative and index [digits] to the left of
    [zero]. *)

Definition digits : bytes := str "9876543210123456789".
Definition zero_at (remainder : Z) : outcome Ascii.ascii :=
  match (if decide (0 <= 9 + remainder) then digits !! Z.to_nat (9 + remainder) else None) with
  | Some c => Ok c
  | None => UB
  end.

(** The do-while loop, with the characters in the order they are stored. *)
Fixpoint digit_loop (fuel : nat) (num : Z) : outcome bytes :=
  match fuel with
  | O => UB
  | S fuel =>
      c ← zero_at (cmod num 10);
      let num' := cdiv num 10 in
      if decide (num' = 0) then Ok [c] else l ← digit_loop fuel num'; Ok (c :: l)
  end.

(** 20 decimal digits hold every 64-bit number. *)
Definition digit_fuel : nat := 20.

Definition formatInteger (num : Z) : M FixedBuffer unit :=
  fb ← getS;
  whenM (bool_decide (avail fb >= kMaxNumberSize))
    (let start := m_cur fb in
     ds ← liftO (digit_loop digit_fuel num);
     let written := ds ++ (if decide (num < 0) then str "-" else []) in
     fb_store start written ;;
     fb_store (start + len written) ["000"%char] ;;
     fb_store start (reverse written) ;;
     fb_add (s32 (len written))).
End fixed_buffer.

(** ** [LogStream]: the insertion operators

    [snprintf] of a [double] with ["%.12g"] is the C library's: a parameter. *)

Section log_stream.
Context {dbl : Type} (snprintf_g12 : dbl -> bytes).

(** A value inserted with [<<]; a C string is [None] when null, and carries
    its bytes up to the terminator. *)
Inductive logval : Type :=
  | LShort (v : Z) | LUShort (v : Z) | LInt (v : Z) | LUInt (v : Z)
  | LLong (v : Z) | LULong (v : Z) | LLongLong (v : Z) | LULongLong (v : Z)
  | LFloat (v : dbl) | LDouble (v : dbl)
  | LChar (c : Ascii.ascii)
  | LVoid (p : option bytes) | LCStr (p : option bytes) | LUCStr (p : option bytes)
  | LString (s : bytes)
  | LGeneral (data : bytes) (n : Z).

Abbreviation fmt := (formatInteger kSmallBuffer).
Abbreviation app_ := (fb_append kSmallBuffer).

Definition insert_double (v : dbl) : M FixedBuffer unit :=
  fb ← getS;
  whenM (bool_decide (avail kSmallBuffer fb >= kMaxNumberSize))
    (let out := take (Z.to_nat (kMaxNumberSize - 1)) (snprintf_g12 v) in
     fb_store (m_cur fb) (out ++ ["000"%char]) ;;
     fb_add kSmallBuffer (len (snprintf_g12 v))).

Definition insert_cstr (p : option bytes) : M FixedBuffer unit :=
  match p with Some s => app_ s | None => app_ (str "(null)") end.

(** [append(g.m_data, g.m_len)]: the [int] length becomes a [size_t]; reading
    past the bytes pointed to is undefined. *)
Definition insert_general (data : bytes) (n : Z) : M FixedBuffer unit :=
  fb ← getS;
  if decide (u64 (avail kSmallBuffer fb) > u64 n)
  then if decide (u64 n <= len data) then app_ (take (Z.to_nat (u64 n)) data) else undefined
  else mret tt.

Definition insert (x : logval) : M FixedBuffer unit :=
  match x with
  | LShort v => fmt (s32 v)
  | LUShort v => fmt (u32 v)
  | LInt v | LUInt v | LLong v | LULong v | LLongLong v | LULongLong v => fmt v
  | LFloat v => insert_double v
  | LDouble v => insert_double v
  | LChar c => app_ [c]
  | LVoid p => insert_cstr p
  | LCStr p => insert_cstr p
  | LUCStr p => insert_cstr p
  | LString s => app_ s
  | LGeneral data n => insert_general data n
  end.

(** [LogStream::append(const char*, int)]. *)
Definition LogStream_append (data : bytes) (n : Z) : M FixedBuffer unit :=
  insert_general data n.

Definition resetBuffer : M FixedBuffer unit := fb_reset.

Fixpoint inserts (l : list logval) : M FixedBuffer unit :=
  match l with [] => mret tt | x :: l' => insert x ;; inserts l' end.

(** [operator<<(const Buffer&)]: the whole array as a string; copying a cell
    that was never written is undefined. *)
Definition insert_buffer (src : FixedBuffer) : M FixedBuffer unit :=
  match mapM id (fb_toString kSmallBuffer src) with
  | Some chars => app_ chars
  | None => undefined
  end.
End log_stream.
Arguments logval : clear implicits.

(** ** Integers are printed in decimal *)

Lemma zero_at_rem r : -10 < r < 10 -> zero_at r = Ok (pretty_N_char (Z.to_N (Z.abs r))).
Proof.
  intros H.
  assert (Hr : r ∈ seqZ (-9) 19) by (apply elem_of_seqZ; lia).
  clear H. revert r Hr. apply Forall_forall. vm_compute. repeat constructor.
Qed.

Lemma digit_loop_nonzero fuel n :
  n <> 0 -> Z.abs n < 10 ^ Z.of_nat fuel ->
  exists l, digit_loop fuel n = Ok l /\ (length l <= fuel)%nat /\
    forall s, str (pretty_N_go (Z.abs_N n) s) = reverse l ++ str s.
Proof.
  revert n. induction fuel as [|fuel IH]; intros n Hn Hlt; [simpl in *; lia|].
  simpl digit_loop. unfold cmod, cdiv.
  pose proof (Z.rem_bound_abs n 10 ltac:(lia)).
  assert (Hrem : Z.to_N (Z.abs (Z.rem n 10)) = (Z.abs_N n mod 10)%N).
  { apply N2Z.inj. rewrite N2Z.inj_mod, N2Z.inj_abs_N, Z2N.id by lia.
    rewrite <- Z.rem_abs by lia. by rewrite Z.rem_mod_nonneg by lia. }
  assert (Hquot : Z.abs_N (n ÷ 10) = (Z.abs_N n / 10)%N).
  { apply N2Z.inj. rewrite N2Z.inj_div, !N2Z.inj_abs_N, <- Z.quot_abs by lia.
    by rewrite Z.quot_div_nonneg by lia. }
  rewrite zero_at_rem, Hrem by lia. cbn [mbind outcome_bind].
  set (c := pretty_N_char _).
  assert (Hstep : forall s, pretty_N_go (Z.abs_N n) s =
                            pretty_N_go (Z.abs_N (n ÷ 10)) (String c s)).
  { intros s. rewrite pretty_N_go_step by lia. by rewrite Hquot. }
  case_decide as H0.
  - exists [c]. split_and!; [done|simpl; lia|]. intros s.
    rewrite Hstep, H0. done.
  - destruct (IH (n ÷ 10)) as (l & Hl & Hle & Hs); [done| |].
    + rewrite <- Z.quot_abs by lia. rewrite Z.quot_div_nonneg by lia.
      rewrite Nat2Z.inj_succ, Z.pow_succ_r in Hlt by lia.
      change (Z.abs 10) with 10. apply Z.div_lt_upper_bound; lia.
    + rewrite Hl. exists (c :: l). split_and!; [done|simpl; lia|]. intros s.
      rewrite Hstep, Hs, str_cons, reverse_cons, <- app_assoc. done.
Qed.

Lemma digit_loop_text n :
  Z.abs n < 10 ^ 20 ->
  exists ds, digit_loop digit_fuel n = Ok ds /\ (length ds <= 20)%nat /\
    reverse (ds ++ (if decide (n < 0) then str "-" else [])) = number_text n.
Proof.
  intros Hn. destruct (decide (n = 0)) as [->|Hn0].
  { exists ["0"%char]. split_and!; [done|simpl; lia|done]. }
  destruct (digit_loop_nonzero digit_fuel n) as (l & Hl & Hle & Hs); [done..|].
  exists l. split_and!; [done|done|].
  unfold number_text, pretty, pretty_Z. destruct n as [|p|p]; [done| |].
  - rewrite decide_False by lia. rewrite app_nil_r. unfold pretty, pretty_positive, pretty, pretty_N.
    rewrite decide_False by done. specialize (Hs "").
    rewrite app_nil_r in Hs. by rewrite <- Hs.
  - rewrite decide_True by lia. rewrite reverse_app.
    unfold pretty, pretty_positive, pretty, pretty_N. rewrite decide_False by done.
    specialize (Hs ""). rewrite app_nil_r in Hs. simpl in Hs. rewrite <- Hs. done.
Qed.

Lemma number_text_length n : Z.abs n < 10 ^ 20 -> (length (number_text n) <= 21)%nat.
Proof.
  intros Hn. destruct (digit_loop_text n Hn) as (ds & _ & Hl & <-).
  rewrite length_reverse, length_app. case_decide; simpl; lia.
Qed.

(** ** The array keeps its size and its written prefix *)

Section fixed_buffer_facts.
Context (SIZE : Z) (HSIZE : 0 <= SIZE < 2 ^ 31).

Definition fb_wf (fb : FixedBuffer) : Prop :=
  0 <= m_cur fb <= SIZE /\ len (m_data fb) = SIZE.

(** [t] is what has been written so far. *)
Definition fb_text (fb : FixedBuffer) (t : bytes) : Prop :=
  take (Z.to_nat (m_cur fb)) (m_data fb) = Some <$> t.

Lemma avail_eq fb : fb_wf fb -> avail SIZE fb = SIZE - m_cur fb.
Proof. intros (?&?). unfold avail, fb_end. rewrite s32_small; lia. Qed.

Lemma FixedBuffer_new_wf : fb_wf (FixedBuffer_new SIZE) /\ fb_text (FixedBuffer_new SIZE) [].
Proof. unfold fb_wf, fb_text. simpl. rewrite length_replicate. split; [lia|done]. Qed.

Lemma cells_write_ok v i d :
  0 <= i -> i + len d <= len v ->
  exists v', cells_write v i d = Ok v' /\ length v' = length v /\
    take (Z.to_nat i) v' = take (Z.to_nat i) v /\
    take (Z.to_nat (i + len d)) v' = take (Z.to_nat i) v ++ (Some <$> d).
Proof.
  intros Hi Hd. unfold cells_write. rewrite decide_True by lia. eexists. split; [done|].
  split_and!.
  - rewrite !length_app, length_fmap, length_take, length_drop. lia.
  - rewrite take_app_le by (rewrite length_take; lia). rewrite take_take. f_equal. lia.
  - rewrite app_assoc, take_app_length'; [done|].
    rewrite length_app, length_fmap, length_take. lia.
Qed.

(** Storing at or behind the cursor keeps the text. *)
Lemma fb_store_spec fb i d t :
  fb_wf fb -> fb_text fb t -> m_cur fb <= i -> i + len d <= SIZE ->
  wp (fb_store i d)
     (fun _ fb' => fb_wf fb' /\ fb_text fb' t /\ m_cur fb' = m_cur fb /\
        (i = m_cur fb ->
         take (Z.to_nat (i + len d)) (m_data fb') = Some <$> (t ++ d))) fb.
Proof.
  intros (Hc & Hl) Ht Hi Hd. unfold fb_store. wp_simpl.
  destruct (cells_write_ok (m_data fb) i d) as (v & Hv & Hlen & Hpre & Hpost); [lia..|].
  rewrite Hv. wp_simpl. unfold fb_wf, fb_text in *. cbn [m_data m_cur].
  split_and!; [lia|lia|lia| |done|].
  - apply (f_equal (take (Z.to_nat (m_cur fb)))) in Hpre.
    rewrite !take_take, Nat.min_l in Hpre by lia. by rewrite Hpre.
  - intros ->. by rewrite Hpost, Ht, fmap_app.
Qed.

Lemma fb_add_spec fb n t :
  fb_wf fb -> 0 <= m_cur fb + n <= SIZE ->
  take (Z.to_nat (m_cur fb + n)) (m_data fb) = Some <$> t ->
  wp (fb_add SIZE n)
     (fun _ fb' => fb_wf fb' /\ fb_text fb' t /\ m_cur fb' = m_cur fb + n) fb.
Proof.
  intros (Hc & Hl) Hn Ht. unfold fb_add. wp_simpl. rewrite decide_True by lia. wp_simpl.
  unfold fb_wf, fb_text. cbn [m_data m_cur]. split_and!; [lia..|done|done].
Qed.

(** Emitting [d] at the cursor. *)
Lemma fb_emit_spec fb d t :
  fb_wf fb -> fb_text fb t -> m_cur fb + len d <= SIZE ->
  wp (fb_store (m_cur fb) d ;; fb_add SIZE (len d))
     (fun _ fb' => fb_wf fb' /\ fb_text fb' (t ++ d) /\ m_cur fb' = m_cur fb + len d) fb.
Proof.
  intros Hw Ht Hd. wp_simpl. eapply wp_mono; [apply fb_store_spec; [done|done|lia|done]|].
  intros [] fb' (Hw' & _ & Hcur & Htake). rewrite <- Hcur.
  apply fb_add_spec; [done| |rewrite Hcur; by apply Htake].
  destruct Hw'. rewrite Hcur. destruct Hw. lia.
Qed.

Lemma fb_append_spec fb buf t :
  fb_wf fb -> fb_text fb t ->
  let kept := if decide (len buf < SIZE - m_cur fb) then buf else [] in
  wp (fb_append SIZE buf)
     (fun _ fb' => fb_wf fb' /\ fb_text fb' (t ++ kept) /\ m_cur fb' = m_cur fb + len kept) fb.
Proof.
  intros Hw Ht kept. unfold fb_append. wp_simpl. rewrite avail_eq by done.
  assert (0 <= SIZE - m_cur fb < 2 ^ 64) by (destruct Hw; lia).
  rewrite u64_small by done. subst kept.
  case_bool_decide; [rewrite decide_True by lia|rewrite decide_False by lia].
  - apply fb_emit_spec; [done..|lia].
  - rewrite app_nil_r. split_and!; [done|done|simpl; lia].
Qed.

Lemma formatInteger_spec fb n t :
  fb_wf fb -> fb_text fb t -> Z.abs n < 10 ^ 20 ->
  let kept := if decide (kMaxNumberSize <= SIZE - m_cur fb) then number_text n else [] in
  wp (formatInteger SIZE n)
     (fun _ fb' => fb_wf fb' /\ fb_text fb' (t ++ kept) /\ m_cur fb' = m_cur fb + len kept) fb.
Proof.
  intros Hw Ht Hn kept. unfold formatInteger. wp_simpl. rewrite avail_eq by done. subst kept.
  case_bool_decide as Hroom;
    [rewrite (decide_True (P := kMaxNumberSize <= _)) by lia
    |rewrite (decide_False (P := kMaxNumberSize <= _)) by lia].
  2: { rewrite app_nil_r. split_and!; [done|done|simpl; lia]. }
  unfold kMaxNumberSize in Hroom.
  destruct (digit_loop_text n Hn) as (ds & Hds & Hlen & Htext).
  pose proof (number_text_length n Hn) as Hnl.
  rewrite Hds. wp_simpl. set (w := ds ++ _) in *.
  assert (Hwl : length w = length (number_text n)) by (by rewrite <- Htext, length_reverse).
  eapply wp_mono; [apply fb_store_spec; [done|done|lia|lia]|].
  intros [] fb1 (Hw1 & Ht1 & Hc1 & _). wp_simpl.
  eapply wp_mono; [apply fb_store_spec; [done|done|lia|simpl; lia]|].
  intros [] fb2 (Hw2 & Ht2 & Hc2 & _).
  rewrite s32_small by lia. rewrite Htext, <- Hc1, <- Hc2.
  replace (len w) with (len (number_text n)) by lia.
  apply fb_emit_spec; [done..|lia].
Qed.
End fixed_buffer_facts.

(** ** What a line contains

    [piece room x] is what the operator keeps of [x] when [room] bytes are
    left: numbers need 48 bytes of room, texts must be shorter than the room,
    and what does not fit is dropped whole. *)

Section log_line.
Context {dbl : Type} (snprintf_g12 : dbl -> bytes).
Context (Hsnprintf : forall v, len (snprintf_g12 v) < kMaxNumberSize).

Definition logval_ok (x : logval dbl) : Prop :=
  match x with
  | LShort v => in_s 16 v
  | LUShort v => in_u 16 v
  | LInt v => in_s32 v
  | LUInt v => in_u32 v
  | LLong v | LLongLong v => in_s64 v
  | LULong v | LULongLong v => in_u64 v
  | LGeneral data n => 0 <= n < 2 ^ 31 /\ n <= len data
  | _ => True
  end.

Definition value_text (x : logval dbl) : bytes :=
  match x with
  | LShort v | LUShort v | LInt v | LUInt v | LLong v | LULong v | LLongLong v | LULongLong v =>
      number_text v
  | LFloat v | LDouble v => snprintf_g12 v
  | LChar c => [c]
  | LVoid p | LCStr p | LUCStr p => default (str "(null)") p
  | LString s => s
  | LGeneral data n => take (Z.to_nat n) data
  end.

Definition is_number (x : logval dbl) : bool :=
  match x with
  | LChar _ | LVoid _ | LCStr _ | LUCStr _ | LString _ | LGeneral _ _ => false
  | _ => true
  end.

Definition fits (room : Z) (x : logval dbl) : bool :=
  if is_number x then bool_decide (kMaxNumberSize <= room)
  else bool_decide (len (value_text x) < room).

Definition piece (room : Z) (x : logval dbl) : bytes :=
  if fits room x then value_text x else [].

Fixpoint render (room : Z) (l : list (logval dbl)) : bytes :=
  match l with
  | [] => []
  | x :: l' => piece room x ++ render (room - len (piece room x)) l'
  end.

Definition emits (m : M FixedBuffer unit) (x : logval dbl) : Prop :=
  forall fb t, fb_wf kSmallBuffer fb -> fb_text fb t ->
    wp m (fun _ fb' => fb_wf kSmallBuffer fb' /\
            fb_text fb' (t ++ piece (kSmallBuffer - m_cur fb) x) /\
            m_cur fb' = m_cur fb + len (piece (kSmallBuffer - m_cur fb) x)) fb.

Lemma ksmall_ok : 0 <= kSmallBuffer < 2 ^ 31.
Proof. unfold kSmallBuffer. lia. Qed.

Lemma emits_number n x :
  is_number x = true -> value_text x = number_text n -> Z.abs n < 10 ^ 20 ->
  emits (formatInteger kSmallBuffer n) x.
Proof.
  intros Hx Hv Hn fb t Hw Ht. unfold piece, fits. rewrite Hx, Hv.
  eapply wp_mono; [apply formatInteger_spec; [apply ksmall_ok|done..]|].
  intros [] fb' H. by repeat (case_decide || case_bool_decide).
Qed.

Lemma emits_text s x :
  is_number x = false -> value_text x = s -> emits (fb_append kSmallBuffer s) x.
Proof.
  intros Hx Hv fb t Hw Ht. unfold piece, fits. rewrite Hx, Hv.
  eapply wp_mono; [apply fb_append_spec; [apply ksmall_ok|done..]|].
  intros [] fb' H. by repeat (case_decide || case_bool_decide).
Qed.

Lemma emits_double v x :
  is_number x = true -> value_text x = snprintf_g12 v -> emits (insert_double snprintf_g12 v) x.
Proof.
  intros Hx Hv fb t Hw Ht. unfold piece, fits, insert_double. rewrite Hx, Hv.
  specialize (Hsnprintf v). wp_simpl.
  rewrite avail_eq by (done || apply ksmall_ok).
  case_bool_decide; [rewrite bool_decide_true by lia|rewrite bool_decide_false by lia].
  2: { rewrite app_nil_r. split_and!; [done|done|simpl; lia]. }
  unfold kMaxNumberSize in *. rewrite take_ge by lia. wp_simpl.
  eapply wp_mono; [apply (fb_store_spec kSmallBuffer); [done..|lia|list_lia]|].
  intros [] fb' (Hw' & _ & Hc & Hpost). rewrite <- Hc.
  apply fb_add_spec; [done|destruct Hw'; rewrite Hc; lia|].
  specialize (Hpost eq_refl). apply (f_equal (take (Z.to_nat (m_cur fb + len (snprintf_g12 v))))) in Hpost.
  rewrite take_take, Nat.min_l in Hpost by list_lia. rewrite Hc, Hpost, app_assoc, fmap_app.
  apply take_app_length'. rewrite length_fmap, length_app.
  apply (f_equal length) in Ht. rewrite length_fmap, length_take in Ht.
  destruct Hw. lia.
Qed.

Lemma insert_emits x : logval_ok x -> emits (insert snprintf_g12 x) x.
Proof.
  intros Hx. destruct x; simpl in *; unfold in_s, in_u in *.
  1-8: wrap_simpl; by apply emits_number; [..|lia].
  - by apply emits_double.
  - by apply emits_double.
  - by apply emits_text.
  - destruct p; by apply emits_text.
  - destruct p; by apply emits_text.
  - destruct p; by apply emits_text.
  - by apply emits_text.
  - intros fb t Hw Ht. unfold insert_general. wp_simpl.
    rewrite avail_eq by (done || apply ksmall_ok).
    pose proof ksmall_ok. assert (0 <= kSmallBuffer - m_cur fb < 2 ^ 64) by (destruct Hw; lia).
    wrap_simpl. case_decide as Hroom.
    + rewrite decide_True by lia. by apply emits_text.
    + wp_simpl. unfold piece, fits. simpl. rewrite bool_decide_false.
      * rewrite app_nil_r. split_and!; [done|done|simpl; lia].
      * rewrite length_take. lia.
Qed.

Lemma inserts_render l fb t :
  Forall logval_ok l -> fb_wf kSmallBuffer fb -> fb_text fb t ->
  wp (inserts snprintf_g12 l)
     (fun _ fb' => fb_wf kSmallBuffer fb' /\
        fb_text fb' (t ++ render (kSmallBuffer - m_cur fb) l)) fb.
Proof.
  intros Hl. revert fb t. induction Hl as [|x l Hx Hl IH]; intros fb t Hw Ht; simpl.
  - by rewrite app_nil_r.
  - wp_simpl. eapply wp_mono; [by apply insert_emits|].
    intros [] fb' (Hw' & Ht' & Hc). eapply wp_mono; [by apply IH|].
    intros [] fb'' (Hw'' & Ht''). split; [done|].
    rewrite <- app_assoc in Ht''. rewrite Hc in Ht''.
    rewrite <- Z.sub_add_distr. done.
Qed.

(** A log line holds the decimal text of the integers and the bytes of the
    strings inserted into it, in order; an item that does not fit in the 4000
    bytes is dropped as a whole, and no insertion writes outside the array or
    reads a cell it did not write. *)
Theorem log_line_text l :
  Forall logval_ok l ->
  wp (inserts snprintf_g12 l)
     (fun _ fb => 0 <= m_cur fb <= kSmallBuffer /\
        take (Z.to_nat (m_cur fb)) (m_data fb) = Some <$> render kSmallBuffer l)
     (FixedBuffer_new kSmallBuffer).
Proof.
  intros Hl. destruct (FixedBuffer_new_wf kSmallBuffer ksmall_ok) as [Hw Ht].
  eapply wp_mono; [by eapply inserts_render|].
  intros [] fb ((Hc & _) & Ht'). split; [done|]. exact Ht'.
Qed.
End log_line.

Definition log_line_input : list (logval bytes) :=
  [LLong (- 2 ^ 63); LChar " "; LULong (2 ^ 64 - 1); LCStr None; LDouble (str "1.5");
   LGeneral (str "abcdef") 3].

Lemma log_line_text_witness :
  render (fun d => d) kSmallBuffer log_line_input =
    str "-9223372036854775808 18446744073709551615(null)1.5abc" /\
  wp (inserts (take 40) log_line_input)
     (fun _ fb => 0 <= m_cur fb <= kSmallBuffer /\
        take (Z.to_nat (m_cur fb)) (m_data fb) =
          Some <$> render (take 40) kSmallBuffer log_line_input)
     (FixedBuffer_new kSmallBuffer).
Proof.
  split; [vm_compute; reflexivity|].
  apply (log_line_text (take 40)).
  - intros v. rewrite length_take. unfold kMaxNumberSize. lia.
  - repeat constructor; unfold in_s, in_u; simpl; lia.
Defined.
