(* ===== verification/Timestamp.v ===== *)
(** * Points in time ([myserver/include/timestamp.h], [myserver/common/timestamp.cpp])

    A [Timestamp] is its [int64_t] number of microseconds since the epoch.
    [double] is IEEE 754 binary64 as in the Standard Library's [SpecFloat].
    The calendar ([localtime]) is the C library's and is a parameter. *)

From Stdlib Require Import SpecFloat.
From S2P Require Import Prelude CppInt CText.

Definition kMicroSecondsPerSecond : Z := 1000 * 1000.

(** ** [double] *)

Definition double : Type := spec_float.
Definition dmul : double -> double -> double := SFmul 53 1024.
Definition double_of_Z (n : Z) : double := binary_normalize 53 1024 n 0 false.
Definition dgt0 (x : double) : bool := SFltb (S754_zero false) x.

(** Truncation towards zero; the conversion of an infinity, a NaN or a value
    out of range is undefined. *)
Definition trunc (x : double) : option Z :=
  match x with
  | S754_zero _ => Some 0
  | S754_finite s m e =>
      let a := if decide (0 <= e) then Zpos m * 2 ^ e else Zpos m / 2 ^ (- e) in
      Some (if s then - a else a)
  | _ => None
  end.

Definition double_to_int64 (x : double) : outcome Z :=
  match trunc x with Some n => schk 64 n | None => UB end.

(** ** The class *)

Definition getSecond (ts : Z) : Z := cdiv ts kMicroSecondsPerSecond.
Definition ts_invalid : Z := 0.
Definition ts_lt (lhs rhs : Z) : bool := bool_decide (lhs < rhs).
Definition ts_eq (lhs rhs : Z) : bool := bool_decide (lhs = rhs).

(** [gettimeofday]: seconds and microseconds. *)
Definition ts_now (tv_sec tv_usec : Z) : outcome Z :=
  s ← i64_mul tv_sec kMicroSecondsPerSecond; i64_add s tv_usec.

Definition addTime (ts : Z) (seconds : double) : outcome Z :=
  mcs ← double_to_int64 (dmul seconds (double_of_Z kMicroSecondsPerSecond));
  i64_add ts mcs.

(** [struct tm], the fields that are printed. *)
Record tm := mkTm {
  tm_year : Z; tm_mon : Z; tm_mday : Z; tm_hour : Z; tm_min : Z; tm_sec : Z;
}.

(** ["%4d/%02d/%02d %02d:%02d:%02d"] of the broken-down time. *)
Definition tm_text (t : tm) : bytes :=
  fmt_d 4 (tm_year t + 1900) ++ str "/" ++ fmt_0d 2 (tm_mon t + 1) ++ str "/" ++
  fmt_0d 2 (tm_mday t) ++ str " " ++ fmt_0d 2 (tm_hour t) ++ str ":" ++
  fmt_0d 2 (tm_min t) ++ str ":" ++ fmt_0d 2 (tm_sec t).

(** [snprintf] into an array of [n] bytes. *)
Definition snprintf_cut (n : Z) (s : bytes) : bytes := take (Z.to_nat (n - 1)) s.

Definition ts_format (localtime : Z -> tm) (showMicroSec : bool) (ts : Z) : bytes :=
  let seconds := cdiv ts kMicroSecondsPerSecond in
  let tm_time := localtime seconds in
  if showMicroSec
  then
    let microSec := s32 (cmod ts kMicroSecondsPerSecond) in
    snprintf_cut 64 (tm_text tm_time ++ str "." ++ fmt_0d 6 microSec)
  else snprintf_cut 64 (tm_text tm_time).

(** ** Facts *)

(** The fields POSIX documents for a calendar date, for a year of four digits. *)
Definition tm_ok (t : tm) : Prop :=
  1000 <= tm_year t + 1900 < 10000 /\ 0 <= tm_mon t < 12 /\ 1 <= tm_mday t <= 31 /\
  0 <= tm_hour t < 24 /\ 0 <= tm_min t < 60 /\ 0 <= tm_sec t <= 60.

#[export] Instance tm_ok_dec t : Decision (tm_ok t).
Proof. unfold tm_ok. apply _. Defined.

(** The text with every field in its columns. *)
Definition tm_columns (t : tm) : bytes :=
  dec_digits 4 (tm_year t + 1900) ++ str "/" ++ dec_digits 2 (tm_mon t + 1) ++ str "/" ++
  dec_digits 2 (tm_mday t) ++ str " " ++ dec_digits 2 (tm_hour t) ++ str ":" ++
  dec_digits 2 (tm_min t) ++ str ":" ++ dec_digits 2 (tm_sec t).

Lemma tm_text_columns t : tm_ok t -> tm_text t = tm_columns t.
Proof.
  intros (?&?&?&?&?&?). unfold tm_text, tm_columns.
  rewrite fmt_d_digits4 by lia. rewrite !fmt_0d_digits by (simpl; lia). done.
Qed.

Lemma tm_columns_length t : length (tm_columns t) = 19%nat.
Proof. unfold tm_columns. rewrite !length_app, !dec_digits_length. done. Qed.

(** Columns of decimal digits, each followed by a separator, and reading them back. *)
Fixpoint cols (fs : list (nat * Z * Ascii.ascii)) (rest : bytes) : bytes :=
  match fs with
  | [] => rest
  | (w, v, sep) :: fs' => dec_digits w v ++ sep :: cols fs' rest
  end.

Fixpoint parse_cols (ws : list nat) (s : bytes) : option (list Z * bytes) :=
  match ws with
  | [] => Some ([], s)
  | w :: ws' =>
      v ← read_digits 0 (take w s);
      '(vs, rest) ← parse_cols ws' (drop (S w) s);
      Some (v :: vs, rest)
  end.

Lemma parse_cols_ok fs rest :
  Forall (fun f => 0 <= f.1.2 < 10 ^ Z.of_nat f.1.1) fs ->
  parse_cols (map (fun f => f.1.1) fs) (cols fs rest) = Some (map (fun f => f.1.2) fs, rest).
Proof.
  induction 1 as [|[[w v] sep] fs Hv _ IH]; [done|]. simpl in *.
  rewrite take_app_length' by (by rewrite dec_digits_length).
  rewrite read_dec_digits by done. simpl.
  rewrite (cons_middle sep), app_assoc, drop_app_length'.
  - rewrite IH. done.
  - rewrite length_app, dec_digits_length. simpl. lia.
Qed.

Definition parse_tm (s : bytes) : option tm :=
  '(vs, rest) ← parse_cols [4; 2; 2; 2; 2]%nat s;
  sec ← read_digits 0 (take 2 rest);
  match vs with
  | [y; mo; d; h; mi] => Some (mkTm (y - 1900) (mo - 1) d h mi sec)
  | _ => None
  end.

Lemma tm_columns_cols t q :
  tm_columns t ++ q =
  cols [(4%nat, tm_year t + 1900, "/"%char); (2%nat, tm_mon t + 1, "/"%char);
        (2%nat, tm_mday t, " "%char); (2%nat, tm_hour t, ":"%char); (2%nat, tm_min t, ":"%char)]
       (dec_digits 2 (tm_sec t) ++ q).
Proof. unfold tm_columns. by rewrite <- !app_assoc. Qed.

Lemma parse_columns t q : tm_ok t -> parse_tm (tm_columns t ++ q) = Some t.
Proof.
  intros (?&?&?&?&?&?). rewrite tm_columns_cols. unfold parse_tm.
  match goal with |- context [cols ?fs ?r] => pose proof (parse_cols_ok fs r) as E end.
  simpl map in E. rewrite E.
  - cbn [mbind option_bind]. rewrite take_app_length' by (by rewrite dec_digits_length).
    rewrite read_dec_digits by (simpl; lia). simpl. f_equal. destruct t; simpl. f_equal; lia.
  - repeat constructor; simpl; lia.
Qed.

(** [Timestamp::format] loses nothing it shows: for every time stamp since
    the epoch, as long as the calendar delivers a date of a four-digit year, the
    text has 19 characters (26 with microseconds) from which the calendar date,
    and the microseconds when they are shown, can be read back. *)
Theorem format_roundtrip localtime ts :
  0 <= ts -> tm_ok (localtime (getSecond ts)) ->
  let plain := ts_format localtime false ts in
  let micro := ts_format localtime true ts in
  length plain = 19%nat /\ length micro = 26%nat /\
  parse_tm plain = Some (localtime (getSecond ts)) /\
  parse_tm micro = Some (localtime (getSecond ts)) /\
  read_digits 0 (drop 20 micro) = Some (ts mod kMicroSecondsPerSecond).
Proof.
  intros Hts Hok. cbn zeta. unfold ts_format, snprintf_cut. fold (getSecond ts).
  set (t := localtime (getSecond ts)) in *.
  assert (Hm : cmod ts kMicroSecondsPerSecond = ts mod kMicroSecondsPerSecond).
  { apply Z.rem_mod_nonneg; unfold kMicroSecondsPerSecond; lia. }
  assert (Hb : 0 <= ts mod kMicroSecondsPerSecond < 1000 * 1000) by (by apply Z.mod_pos_bound).
  rewrite Hm, s32_small, (tm_text_columns t) by (done || lia).
  rewrite fmt_0d_digits by (change (10 ^ Z.of_nat 6) with (1000 * 1000); lia).
  set (u := dec_digits 6 _). pose proof (tm_columns_length t) as Hl.
  assert (Hu : length u = 6%nat) by apply dec_digits_length.
  rewrite !take_ge by list_lia.
  split_and!.
  - done.
  - list_lia.
  - rewrite <- (app_nil_r (tm_columns t)). by apply parse_columns.
  - by apply parse_columns.
  - rewrite app_assoc, drop_app_length'; [|list_lia].
    unfold u. rewrite read_dec_digits by (simpl; lia). done.
Qed.

(** The proleptic calendar of one day, for the witness. *)
Definition first_day (s : Z) : tm := mkTm 70 0 1 (s / 3600) ((s / 60) mod 60) (s mod 60).

Lemma format_roundtrip_witness :
  ts_format first_day true 3723000045 = str "1970/01/01 01:02:03.000045" /\
  parse_tm (ts_format first_day false 3723000045) = Some (first_day 3723).
Proof.
  split; [vm_compute; reflexivity|].
  apply (format_roundtrip first_day 3723000045).
  - lia.
  - apply (bool_decide_unpack _). vm_compute. exact I.
Defined.

(** *** [addTime] *)

Lemma trunc_nonneg_sign x n : trunc x = Some n ->
  match x with S754_finite true _ _ => n <= 0 | _ => 0 <= n end.
Proof.
  destruct x as [| | |s m e]; simpl; intros [= <-]; [done..|].
  case_decide.
  - assert (0 < 2 ^ e) by (apply Z.pow_pos_nonneg; lia).
    destruct s; nia.
  - assert (0 <= Z.pos m / 2 ^ (- e)) by (apply Z.div_pos; [lia|apply Z.pow_pos_nonneg; lia]).
    destruct s; lia.
Qed.

Definition sign_nonneg (x : double) : Prop :=
  match x with S754_finite s _ _ => s = false | _ => True end.

Lemma binary_round_aux_sign prec emax mx ex lx :
  sign_nonneg (binary_round_aux prec emax false mx ex lx).
Proof.
  unfold binary_round_aux.
  destruct (shr_fexp prec emax mx ex lx) as [mrs e].
  destruct (shr_fexp prec emax _ e loc_Exact) as [mrs' e'].
  destruct (shr_m mrs'); simpl; [done| |done]. by destruct (_ <=? _).
Qed.

Lemma dmul_sign x y : dgt0 x = true -> dgt0 y = true -> sign_nonneg (dmul x y).
Proof.
  destruct x as [s|s| |s mx ex], y as [s'|s'| |s' my ey]; unfold dgt0; simpl; try done;
    destruct s; try done; destruct s'; try done.
  intros _ _. unfold dmul, SFmul. apply binary_round_aux_sign.
Qed.

Lemma addTime_ge ts x r :
  dgt0 x = true -> addTime ts x = Ok r -> ts <= r.
Proof.
  intros Hx. unfold addTime, double_to_int64.
  pose proof (dmul_sign x (double_of_Z kMicroSecondsPerSecond) Hx eq_refl) as Hs.
  destruct (trunc _) as [n|] eqn:Ht; [|done].
  apply trunc_nonneg_sign in Ht.
  unfold schk at 1. case_decide; [|done]. cbn [mbind outcome_bind].
  intros [-> _]%schk_inv.
  destruct (dmul x _) as [| | |[] ? ?]; simpl in *; [lia..|done|lia].
Qed.
