(* ===== verification/Logging.v ===== *)
(** * The logger ([myserver/include/logging.h], [myserver/common/logging.cpp])

    One log statement is the life of a [Logger]: its constructor writes the
    header of the record, the statement inserts items, the destructor writes
    the trailer and hands the buffer to [g_output].  The clock, the calendar
    and the texts of [strerror_r] are arguments. *)

From S2P Require Import Prelude CppInt CText LogStream Timestamp.

Inductive LogLevel : Type :=
  | TRACE | DEBUG | INFO | WARN | ERROR | FATAL | LEVEL_COUNT.

#[export] Instance LogLevel_eq_dec : EqDecision LogLevel.
Proof. solve_decision. Defined.

Definition level_num (l : LogLevel) : Z :=
  match l with
  | TRACE => 0 | DEBUG => 1 | INFO => 2 | WARN => 3 | ERROR => 4 | FATAL => 5
  | LEVEL_COUNT => 6
  end.


(** The string literals of the table, terminator included. *)
Definition getLevelName : list bytes :=
  [str "TRACE " ++ [NUL]; str "DEBUG" ++ [NUL]; str "INFO " ++ [NUL]; str "WARN " ++ [NUL];
   str "ERROR " ++ [NUL]; str "FATAL " ++ [NUL]].

(** The base name of the file and its length. *)
Definition SourceFile (filename : bytes) : bytes * Z :=
  let m_data := match strrchr filename "/"%char with
                | Some slash => drop (S slash) filename
                | None => filename
                end in
  (m_data, s32 (len m_data)).

(** Writing a C string over the start of an array. *)
Definition c_store (old : bytes) (s : bytes) : bytes :=
  s ++ [NUL] ++ drop (length s + 1) old.

Inductive logeffect : Type :=
  | Output (cells : list (option Ascii.ascii))
  | Flush
  | Abort.

Section logger.
Context {dbl : Type} (snprintf_g12 : dbl -> bytes).
Context (localtime : Z -> tm) (strerror : Z -> bytes).

Abbreviation put := (insert snprintf_g12).

(** [t_time] is the thread's 64-byte array, with what the previous record left in it. *)
Definition formatTime (now : Z) (t_time : bytes) : M FixedBuffer unit :=
  let seconds := cdiv now kMicroSecondsPerSecond in
  let microSec := s32 (cmod now kMicroSecondsPerSecond) in
  let t_time := c_store t_time (snprintf_cut 64 (tm_text (localtime seconds))) in
  let buf := c_store (replicate 32 NUL) (snprintf_cut 32 (fmt_0d 6 microSec)) in
  put (LGeneral t_time 17) ;; put (LGeneral buf 7).

Definition Impl_new (level : LogLevel) (savedErrno now : Z) (t_time : bytes) : M FixedBuffer unit :=
  formatTime now t_time ;;
  match getLevelName !! Z.to_nat (level_num level) with
  | Some name => put (LGeneral name 6)
  | None => undefined
  end ;;
  whenM (bool_decide (savedErrno <> 0))
    (put (LCStr (Some (strerror savedErrno))) ;;
     put (LCStr (Some (str " errno is "))) ;; put (LInt savedErrno)).

Definition finish (file : bytes) (line : Z) : M FixedBuffer unit :=
  let '(m_data, m_size) := SourceFile file in
  put (LCStr (Some (str " - "))) ;; put (LGeneral m_data m_size) ;;
  put (LCStr (Some (str " : "))) ;; put (LInt line) ;; put (LCStr (Some ["010"%char])).

(** The three constructors: without and with a level, and with the function's name. *)
Definition Logger_new (level : LogLevel) (func : option bytes) (now : Z) (t_time : bytes) :
    M FixedBuffer unit :=
  Impl_new level 0 now t_time ;;
  match func with
  | Some f => put (LCStr (Some f)) ;; put (LChar " "%char)
  | None => mret tt
  end.

Definition Logger_destroy (level : LogLevel) (file : bytes) (line : Z) :
    M FixedBuffer (list logeffect) :=
  finish file line ;;
  buf ← getS;
  mret (Output (fb_toString kSmallBuffer buf) ::
        (if decide (level = FATAL) then [Flush; Abort] else [])).

(** A whole statement [Logger(file, line, level, func).stream() << items]. *)
Definition log_statement (level : LogLevel) (func : option bytes) (file : bytes) (line : Z)
    (items : list (logval dbl)) (now : Z) (t_time : bytes) : M FixedBuffer (list logeffect) :=
  Logger_new level func now t_time ;;
  inserts snprintf_g12 items ;;
  Logger_destroy level file line.

(** The macros: the level a macro logs at, and whether it looks at [g_logLevel]. *)
Inductive log_macro : Type := LOG_DEBUG | LOG_INFO | LOG_WARN | LOG_ERROR | LOG_FATAL.

Definition macro_level (m : log_macro) : LogLevel :=
  match m with
  | LOG_DEBUG => DEBUG | LOG_INFO => INFO | LOG_WARN => WARN | LOG_ERROR => ERROR
  | LOG_FATAL => FATAL
  end.

Definition macro_enabled (g_logLevel : LogLevel) (m : log_macro) : bool :=
  match m with
  | LOG_DEBUG => bool_decide (level_num g_logLevel <= level_num DEBUG)
  | LOG_INFO => bool_decide (level_num g_logLevel <= level_num INFO)
  | _ => true
  end.

Definition log_run (g_logLevel : LogLevel) (m : log_macro) (file : bytes) (line : Z) (func : bytes)
    (items : list (logval dbl)) (now : Z) (t_time : bytes) : outcome (list logeffect) :=
  if macro_enabled g_logLevel m
  then
    let func := match m with LOG_DEBUG => Some func | _ => None end in
    fst <$> log_statement (macro_level m) func file line items now t_time
              (FixedBuffer_new kSmallBuffer)
  else Ok [].

(** ** The record as a list of items *)

Definition header_items (level : LogLevel) (func : option bytes) (now : Z) (t_time : bytes) :
    list (logval dbl) :=
  [LGeneral (c_store t_time (snprintf_cut 64 (tm_text (localtime (getSecond now))))) 17;
   LGeneral (c_store (replicate 32 NUL)
     (snprintf_cut 32 (fmt_0d 6 (s32 (cmod now kMicroSecondsPerSecond))))) 7;
   LGeneral (default [] (getLevelName !! Z.to_nat (level_num level))) 6] ++
  match func with Some f => [LCStr (Some f); LChar " "%char] | None => [] end.

Definition trailer_items (file : bytes) (line : Z) : list (logval dbl) :=
  [LCStr (Some (str " - ")); LGeneral (SourceFile file).1 (SourceFile file).2;
   LCStr (Some (str " : ")); LInt line; LCStr (Some ["010"%char])].

Lemma wp_inserts_cons x l Q s :
  wp (inserts snprintf_g12 (x :: l)) Q s ->
  wp (put x) (fun _ s' => wp (inserts snprintf_g12 l) Q s') s.
Proof. cbn [inserts]. by rewrite wp_bind. Qed.

Lemma wp_inserts_app l l' Q s :
  wp (inserts snprintf_g12 (l ++ l')) Q s ->
  wp (inserts snprintf_g12 l) (fun _ s' => wp (inserts snprintf_g12 l') Q s') s.
Proof.
  revert s. induction l as [|x l IH]; intros s; [done|].
  cbn [app inserts]. rewrite !wp_bind. intros H. eapply wp_mono; [exact H|].
  intros [] s1. apply IH.
Qed.

(** One insertion of the statement against one item of the list. *)
Ltac peel H :=
  wp_simpl; apply wp_inserts_cons in H; eapply wp_mono; [exact H|clear H; intros [] ? H].

Lemma log_statement_inserts level func file line items now t_time Q s :
  level <> LEVEL_COUNT ->
  wp (inserts snprintf_g12
        (header_items level func now t_time ++ items ++ trailer_items file line))
     (fun _ fb => Q (Output (fb_toString kSmallBuffer fb) ::
                     (if decide (level = FATAL) then [Flush; Abort] else [])) fb) s ->
  wp (log_statement level func file line items now t_time) Q s.
Proof.
  intros Hl H. unfold log_statement, Logger_new, Impl_new, formatTime.
  unfold header_items in H. unfold getSecond in H. rewrite <- app_assoc in H.
  set (T := c_store t_time _) in *. set (U := c_store (replicate 32 NUL) _) in *.
  destruct (getLevelName !! _) as [name|] eqn:Hn; [|by destruct level].
  cbn [app] in H. do 3 peel H. rewrite bool_decide_eq_false_2 by lia.
  assert (Htail : forall s', wp (inserts snprintf_g12 (items ++ trailer_items file line))
     (fun _ fb => Q (Output (fb_toString kSmallBuffer fb) ::
                     (if decide (level = FATAL) then [Flush; Abort] else [])) fb) s' ->
     wp (inserts snprintf_g12 items)
       (fun _ s'' => wp (Logger_destroy level file line) Q s'') s').
  { intros s3 H'%wp_inserts_app. eapply wp_mono; [exact H'|]. clear. intros [] s1 H.
    unfold Logger_destroy, finish, trailer_items in *.
    destruct (SourceFile file) as [m_data m_size]. simpl fst in *; simpl snd in *.
    do 5 peel H. exact H. }
  destruct func as [f|]; cbn [app] in H; wp_simpl.
  - do 2 peel H. wp_simpl. eapply wp_mono; [by apply Htail|].
    intros [] s2 H2. exact H2.
  - eapply wp_mono; [by apply Htail|]. intros [] s2 H2. exact H2.
Qed.

(** *** The header of a record *)

Definition header_text (t : tm) (us : Z) (level : LogLevel) : bytes :=
  take 17 (tm_columns t) ++ dec_digits 6 us ++ [NUL] ++
  take 6 (default [] (getLevelName !! Z.to_nat (level_num level))).

Lemma time_array t old :
  tm_ok t -> length old = 64%nat ->
  take 17 (c_store old (snprintf_cut 64 (tm_text t))) = take 17 (tm_columns t) /\
  length (c_store old (snprintf_cut 64 (tm_text t))) = 64%nat.
Proof.
  intros Ht Hold. rewrite tm_text_columns by done. pose proof (tm_columns_length t).
  unfold snprintf_cut, c_store. rewrite (take_ge (tm_columns t) (Z.to_nat _)) by lia. split; [|list_lia].
  rewrite take_app_le by list_lia. done.
Qed.

Lemma micro_array now :
  0 <= now ->
  take 7 (c_store (replicate 32 NUL)
    (snprintf_cut 32 (fmt_0d 6 (s32 (cmod now kMicroSecondsPerSecond))))) =
  dec_digits 6 (now mod kMicroSecondsPerSecond) ++ [NUL].
Proof.
  intros Hnow. unfold cmod. rewrite Z.rem_mod_nonneg by (done || unfold kMicroSecondsPerSecond; lia).
  assert (Hb : 0 <= now mod kMicroSecondsPerSecond < 1000 * 1000) by (by apply Z.mod_pos_bound).
  rewrite s32_small by lia.
  rewrite fmt_0d_digits by (change (10 ^ Z.of_nat 6) with (1000 * 1000); lia).
  unfold snprintf_cut, c_store. pose proof (dec_digits_length 6 (now mod kMicroSecondsPerSecond)).
  rewrite (take_ge (dec_digits _ _)) by list_lia.
  rewrite app_assoc. rewrite take_app_length'; [done|list_lia].
Qed.

Lemma header_render level func now t_time rest :
  level <> LEVEL_COUNT -> 0 <= now -> tm_ok (localtime (getSecond now)) ->
  length t_time = 64%nat ->
  render snprintf_g12 kSmallBuffer (header_items level func now t_time ++ rest) =
  header_text (localtime (getSecond now)) (now mod kMicroSecondsPerSecond) level ++
  render snprintf_g12 (kSmallBuffer - 30)
    (match func with Some f => [LCStr (Some f); LChar " "%char] | None => [] end ++ rest).
Proof.
  intros Hl Hnow Htm Hold. unfold header_items, header_text. rewrite <- app_assoc.
  cbn [app render].
  destruct (time_array (localtime (getSecond now)) t_time Htm Hold) as [HT _].
  pose proof (micro_array now Hnow) as HU.
  set (T := c_store t_time _) in *. set (U := c_store (replicate 32 NUL) _) in *.
  set (name := default [] _). assert (Hname : length (take 6 name) = 6%nat) by (destruct level; done || reflexivity).
  pose proof (tm_columns_length (localtime (getSecond now))) as Hc.
  pose proof (dec_digits_length 6 (now mod kMicroSecondsPerSecond)) as Hd.
  assert (P1 : piece snprintf_g12 kSmallBuffer (LGeneral T 17) = take 17 (tm_columns (localtime (getSecond now)))).
  { unfold piece, fits. simpl is_number. cbn [value_text]. change (Z.to_nat 17) with 17%nat.
    rewrite HT, bool_decide_eq_true_2; [done|]. unfold kSmallBuffer. list_lia. }
  rewrite P1.
  assert (P2 : forall room, 10 <= room -> piece snprintf_g12 room (LGeneral U 7) =
            dec_digits 6 (now mod kMicroSecondsPerSecond) ++ [NUL]).
  { intros room Hr. unfold piece, fits. simpl is_number. cbn [value_text].
    change (Z.to_nat 7) with 7%nat. rewrite HU, bool_decide_eq_true_2; [done|]. list_lia. }
  rewrite P2 by (unfold kSmallBuffer; list_lia).
  assert (P3 : forall room, 10 <= room -> piece snprintf_g12 room (LGeneral name 6) = take 6 name).
  { intros room Hr. unfold piece, fits. simpl is_number. cbn [value_text].
    change (Z.to_nat 6) with 6%nat.
    rewrite bool_decide_eq_true_2 by lia. done. }
  rewrite P3 by (unfold kSmallBuffer; list_lia).
  match goal with |- context [kSmallBuffer - ?a - ?b - ?c] =>
    assert (Hroom : kSmallBuffer - a - b - c = kSmallBuffer - 30) by list_lia end.
  rewrite Hroom. by simplify_list_eq.
Qed.

Lemma header_items_ok level func now t_time :
  level <> LEVEL_COUNT -> tm_ok (localtime (getSecond now)) -> length t_time = 64%nat ->
  Forall logval_ok (header_items level func now t_time).
Proof.
  intros Hl Htm Hold. unfold header_items. rewrite Forall_app, !Forall_cons, Forall_nil.
  destruct (time_array _ _ Htm Hold) as [_ HT].
  split_and!; [cbn [logval_ok]..|by destruct func; repeat constructor].
  - rewrite HT. lia.
  - split; [lia|]. unfold c_store. rewrite !length_app, length_drop, length_replicate.
    simpl length. lia.
  - split; [lia|]. destruct level; done.
  - done.
Qed.

Lemma trailer_items_ok file line :
  len file < 2 ^ 31 -> in_s32 line -> Forall logval_ok (trailer_items file line).
Proof.
  intros Hf Hline. unfold trailer_items. rewrite !Forall_cons, Forall_nil.
  assert (Hs : exists m, SourceFile file = (m, s32 (len m)) /\ len m <= len file).
  { unfold SourceFile. destruct (strrchr file _); eexists; (split; [done|list_lia]). }
  destruct Hs as (m & -> & Hm). unfold in_s in Hline.
  split_and!; [done|..|done|done|done|done]; cbn [logval_ok fst snd]; rewrite s32_small; lia.
Qed.

Context (Hsnprintf : forall v, len (snprintf_g12 v) < kMaxNumberSize).

(** C12. A log record: the array handed to the output function holds, in its first
    [m_cur] cells, the header (the first 17 characters of the date, the
    microseconds with their terminating NUL, and six bytes of the level's name),
    the function's name if there is one, the items, and the trailer with the base
    name of the file and the line, as far as they fit; a [FATAL] record flushes
    and aborts. *)
Theorem log_record_text level func file line items now t_time :
  level <> LEVEL_COUNT -> 0 <= now -> tm_ok (localtime (getSecond now)) ->
  length t_time = 64%nat -> len file < 2 ^ 31 -> in_s32 line -> Forall logval_ok items ->
  wp (log_statement level func file line items now t_time)
     (fun effs fb =>
        (exists cells,
          effs = Output cells :: (if decide (level = FATAL) then [Flush; Abort] else []) /\
          len cells = kSmallBuffer /\
          take (Z.to_nat (m_cur fb)) cells = Some <$>
            (header_text (localtime (getSecond now)) (now mod kMicroSecondsPerSecond) level ++
             render snprintf_g12 (kSmallBuffer - 30)
               (match func with Some f => [LCStr (Some f); LChar " "%char] | None => [] end ++
                items ++ trailer_items file line))))
     (FixedBuffer_new kSmallBuffer).
Proof.
  intros Hl Hnow Htm Hold Hfile Hline Hitems. apply log_statement_inserts; [done|].
  destruct (FixedBuffer_new_wf kSmallBuffer ksmall_ok) as [Hw Ht].
  eapply wp_mono; [eapply inserts_render; [done| |done|done]|].
  - rewrite !Forall_app. split_and!; [by apply header_items_ok|done|by apply trailer_items_ok].
  - intros [] fb (Hfb & Htext). exists (m_data fb). destruct Hfb as (Hc & Hlen).
    split_and!; [|done|].
    + f_equal. f_equal. unfold fb_toString, fb_length, fb_end. rewrite Z.sub_0_r, s32_small by done.
      apply take_ge. lia.
    + rewrite <- header_render with (t_time := t_time) by done. exact Htext.
Qed.
End logger.

Definition log_record_input : list (logval bytes) :=
  [LCStr (Some (str "conn ")); LInt (-7)].

Lemma log_record_text_witness :
  wp (log_statement (take 40) first_day (fun _ => []) WARN None (str "net/acceptor.cpp") 49
        log_record_input 3723000045 (replicate 64 NUL))
     (fun effs fb =>
        (exists cells,
          effs = Output cells :: (if decide (WARN = FATAL) then [Flush; Abort] else []) /\
          len cells = kSmallBuffer /\
          take (Z.to_nat (m_cur fb)) cells = Some <$>
            (header_text (first_day (getSecond 3723000045)) (3723000045 mod kMicroSecondsPerSecond)
               WARN ++
             render (take 40) (kSmallBuffer - 30)
               ([] ++ log_record_input ++ trailer_items (str "net/acceptor.cpp") 49))))
     (FixedBuffer_new kSmallBuffer).
Proof.
  apply (log_record_text (take 40) first_day (fun _ => [])).
  - intros v. rewrite length_take. unfold kMaxNumberSize. lia.
  - discriminate.
  - lia.
  - apply (bool_decide_unpack _). vm_compute. exact I.
  - reflexivity.
  - vm_compute. reflexivity.
  - vm_compute. split; discriminate || reflexivity.
  - repeat constructor; unfold in_s; simpl; lia.
Defined.

(** ** The seconds are not in the record *)

Section seconds.
Context {dbl : Type} (snprintf_g12 : dbl -> bytes).

Lemma insert_general_take (d1 d2 : bytes) n s :
  0 <= n < 2 ^ 31 -> n <= len d1 -> n <= len d2 -> take (Z.to_nat n) d1 = take (Z.to_nat n) d2 ->
  insert_general d1 n s = insert_general d2 n s.
Proof.
  intros Hn H1 H2 E. unfold insert_general, mbind, M_bind, getS.
  rewrite (u64_small n), E by lia. by rewrite !(decide_True (P := n <= _)) by lia.
Qed.

Lemma tm_columns_minute t t' :
  t' = mkTm (tm_year t) (tm_mon t) (tm_mday t) (tm_hour t) (tm_min t) (tm_sec t') ->
  take 17 (tm_columns t) = take 17 (tm_columns t').
Proof.
  intros ->. unfold tm_columns. simpl tm_year. simpl tm_mon. simpl tm_mday.
  simpl tm_hour. simpl tm_min. simpl tm_sec.
  rewrite !app_assoc.
  rewrite !take_app_le by (rewrite !length_app, !dec_digits_length; simpl; lia). done.
Qed.

Lemma formatTime_minute localtime now now' t_time s :
  tm_ok (localtime (getSecond now)) -> tm_ok (localtime (getSecond now')) ->
  length t_time = 64%nat ->
  cmod now kMicroSecondsPerSecond = cmod now' kMicroSecondsPerSecond ->
  (let t := localtime (getSecond now) in let t' := localtime (getSecond now') in
   t' = mkTm (tm_year t) (tm_mon t) (tm_mday t) (tm_hour t) (tm_min t) (tm_sec t')) ->
  formatTime snprintf_g12 localtime now t_time s = formatTime snprintf_g12 localtime now' t_time s.
Proof.
  intros Hok Hok' Hl Hus Hmin. unfold formatTime. rewrite <- Hus.
  fold (getSecond now). fold (getSecond now').
  destruct (time_array _ _ Hok Hl) as [HT HTl]. destruct (time_array _ _ Hok' Hl) as [HT' HTl'].
  unfold mbind, M_bind. cbn [insert].
  rewrite (insert_general_take _ (c_store t_time (snprintf_cut 64 (tm_text (localtime (getSecond now')))))).
  - done.
  - lia.
  - rewrite HTl. lia.
  - rewrite HTl'. lia.
  - change (Z.to_nat 17) with 17%nat. rewrite HT, HT'. by apply tm_columns_minute.
Qed.

(** The seconds never reach the log: two statements run at instants of the
    same minute with the same microseconds hand the same bytes to the output,
    whatever the seconds. *)
Theorem log_seconds_lost localtime strerror g m file line func items now now' t_time :
  tm_ok (localtime (getSecond now)) -> tm_ok (localtime (getSecond now')) ->
  length t_time = 64%nat ->
  cmod now kMicroSecondsPerSecond = cmod now' kMicroSecondsPerSecond ->
  (let t := localtime (getSecond now) in let t' := localtime (getSecond now') in
   t' = mkTm (tm_year t) (tm_mon t) (tm_mday t) (tm_hour t) (tm_min t) (tm_sec t')) ->
  log_run snprintf_g12 localtime strerror g m file line func items now t_time =
  log_run snprintf_g12 localtime strerror g m file line func items now' t_time.
Proof.
  intros Hok Hok' Hl Hus Hmin. unfold log_run. destruct (macro_enabled g m); [|done].
  f_equal. unfold log_statement, Logger_new, Impl_new, mbind, M_bind.
  by rewrite (formatTime_minute localtime now now').
Qed.
End seconds.

Lemma log_seconds_lost_witness :
  log_run (take 40) first_day (fun _ => []) INFO LOG_INFO (str "a.cpp") 1 [] log_record_input
    3601000045 (replicate 64 NUL) =
  log_run (take 40) first_day (fun _ => []) INFO LOG_INFO (str "a.cpp") 1 [] log_record_input
    3659000045 (replicate 64 NUL).
Proof.
  apply (log_seconds_lost (take 40) first_day).
  - apply (bool_decide_unpack _). vm_compute. exact I.
  - apply (bool_decide_unpack _). vm_compute. exact I.
  - reflexivity.
  - reflexivity.
  - reflexivity.
Defined.
