(* ===== verification/TimerQueue.v ===== *)
(** * Timers ([myserver/include/timer.h], [myserver/common/timer.cpp],
      [myserver/include/timer_queue.h], [myserver/common/timer_queue.cpp],
      the [run*] members of [myserver/include/event_loop.h])

    [Timer] objects live on the heap and are used through raw pointers, so the
    state has a heap from addresses to live timers: a dereference or a delete
    of an address that is not live is [UB].  [m_timers] is the [std::set] of
    pairs (expiration, address), a strictly sorted list.  The clock delivers
    one reading per call of [Timestamp::now].  A callback is opaque but for
    the timers its body adds (in the loop's thread, so at once). *)

From Stdlib Require Import SpecFloat Sorting.
From S2P Require Import Prelude CppInt Timestamp.

Abbreviation addr := Z.
Abbreviation entry := (Z * Z)%type.
Definition UINTPTR_MAX : Z := 2 ^ 64 - 1.

(** [operator<] of [std::pair]. *)
Definition entry_ltb (a b : entry) : bool :=
  (a.1 <? b.1) || ((a.1 =? b.1) && (a.2 <? b.2)).

(** [std::set::insert]: an equal element is not inserted again. *)
Fixpoint set_insert (e : entry) (l : list entry) : list entry :=
  match l with
  | [] => [e]
  | x :: l' =>
      if entry_ltb e x then e :: l
      else if entry_ltb x e then x :: set_insert e l' else l
  end.

(** The elements before and from [lower_bound(sentry)]. *)
Fixpoint split_lower_bound (sentry : entry) (l : list entry) : list entry * list entry :=
  match l with
  | [] => ([], [])
  | x :: l' =>
      if entry_ltb x sentry
      then let '(before, from) := split_lower_bound sentry l' in (x :: before, from)
      else ([], l)
  end.

Section timers.
(** The callbacks' type, the clock and the allocator. *)
Context {C : Type} (clk : nat -> Z).

Record Timer := mkTimer {
  t_callback : C;
  t_expiration : Z;
  t_interval : double;
  t_repeat : bool;
}.

Record TimerQueue := mkTQ {
  tq_heap : gmap addr Timer;
  m_timers : list entry;
  tq_pending : list addr;             (* functors [addTimerInLoop] queued in the loop *)
  tq_armed : option (Z * Z * Z);      (* clock when armed, [tv_sec], [tv_nsec] *)
  m_callingExpiredTimers : bool;
  tq_ticks : nat;                     (* readings taken from the clock *)
  tq_trace : list C;                  (* callbacks run *)
}.

(** What a callback's body asks of its loop. *)
Inductive request : Type :=
  | runAt (ts : Z) (cb : C)
  | runAfter (waitTime : double) (cb : C)
  | runEvery (interval : double) (cb : C).

Context (body : C -> list request).
Context (alloc : gmap addr Timer -> addr).

Abbreviation M := (M TimerQueue).

Definition set_heap f (s : TimerQueue) := mkTQ (f (tq_heap s)) (m_timers s) (tq_pending s)
  (tq_armed s) (m_callingExpiredTimers s) (tq_ticks s) (tq_trace s).
Definition set_timers f (s : TimerQueue) := mkTQ (tq_heap s) (f (m_timers s)) (tq_pending s)
  (tq_armed s) (m_callingExpiredTimers s) (tq_ticks s) (tq_trace s).
Definition set_pending f (s : TimerQueue) := mkTQ (tq_heap s) (m_timers s) (f (tq_pending s))
  (tq_armed s) (m_callingExpiredTimers s) (tq_ticks s) (tq_trace s).
Definition set_armed a (s : TimerQueue) := mkTQ (tq_heap s) (m_timers s) (tq_pending s)
  a (m_callingExpiredTimers s) (tq_ticks s) (tq_trace s).
Definition set_calling b (s : TimerQueue) := mkTQ (tq_heap s) (m_timers s) (tq_pending s)
  (tq_armed s) b (tq_ticks s) (tq_trace s).
Definition set_ticks n (s : TimerQueue) := mkTQ (tq_heap s) (m_timers s) (tq_pending s)
  (tq_armed s) (m_callingExpiredTimers s) n (tq_trace s).
Definition set_trace f (s : TimerQueue) := mkTQ (tq_heap s) (m_timers s) (tq_pending s)
  (tq_armed s) (m_callingExpiredTimers s) (tq_ticks s) (f (tq_trace s)).

Definition now : M Z :=
  s ← getS; modify (set_ticks (S (tq_ticks s))) ;; mret (clk (tq_ticks s)).

(** ** [Timer] *)

Definition Timer_new (cb : C) (when : Z) (interval : double) : M addr :=
  s ← getS;
  let p := alloc (tq_heap s) in
  modify (set_heap (<[p := mkTimer cb when interval (dgt0 interval)]>)) ;;
  mret p.

Definition deref (p : addr) : M Timer :=
  s ← getS; match tq_heap s !! p with Some t => mret t | None => undefined end.

Definition delete_timer (p : addr) : M unit :=
  deref p ;; modify (set_heap (base.delete p)).

Definition restart (p : addr) (now : Z) : M unit :=
  t ← deref p;
  e ← (if t_repeat t then liftO (addTime now (t_interval t)) else mret ts_invalid);
  modify (set_heap (<[p := mkTimer (t_callback t) e (t_interval t) (t_repeat t)]>)).

(** ** [TimerQueue] *)

Definition resetTimerfd (expiration : Z) : M unit :=
  n ← now;
  diff ← liftO (i64_sub expiration n);
  let microSecDiff := if decide (diff < 100) then 100 else diff in
  modify (set_armed (Some (n, cdiv microSecDiff kMicroSecondsPerSecond,
                           cmod microSecDiff kMicroSecondsPerSecond * 1000))).

Definition tq_insert (timer : addr) : M bool :=
  t ← deref timer;
  let when := t_expiration t in
  s ← getS;
  let earliestChanged :=
    match m_timers s with [] => true | it :: _ => bool_decide (when < it.1) end in
  modify (set_timers (set_insert (when, timer))) ;;
  mret earliestChanged.

Definition addTimerInLoop (timer : addr) : M unit :=
  earliestChanged ← tq_insert timer;
  if (earliestChanged : bool)
  then t ← deref timer; resetTimerfd (t_expiration t)
  else mret tt.

(** [runInLoop]: at once in the loop's thread, queued from another one. *)
Definition addTimer (inLoopThread : bool) (cb : C) (when : Z) (interval : double) : M unit :=
  timer ← Timer_new cb when interval;
  if inLoopThread then addTimerInLoop timer
  else modify (set_pending (fun l => l ++ [timer])).

(** The loop runs the first queued functor. *)
Definition run_pending : M unit :=
  s ← getS;
  match tq_pending s with
  | [] => mret tt
  | p :: _ => modify (set_pending tail) ;; addTimerInLoop p
  end.

Definition run_request (inLoopThread : bool) (r : request) : M unit :=
  match r with
  | runAt ts cb => addTimer inLoopThread cb ts (S754_zero false)
  | runAfter waitTime cb =>
      n ← now; ts ← liftO (addTime n waitTime);
      addTimer inLoopThread cb ts (S754_zero false)
  | runEvery interval cb =>
      n ← now; ts ← liftO (addTime n interval);
      addTimer inLoopThread cb ts interval
  end.

(** [Timer::run]. *)
Definition run_timer (timer : addr) : M unit :=
  t ← deref timer;
  modify (set_trace (fun l => l ++ [t_callback t])) ;;
  forM (body (t_callback t)) (run_request true).

Definition getExpired (n : Z) : M (list entry) :=
  s ← getS;
  let '(expired, rest) := split_lower_bound (n, UINTPTR_MAX) (m_timers s) in
  modify (set_timers (fun _ => rest)) ;;
  mret expired.

Definition reset_one (it : entry) : M unit :=
  t ← deref it.2;
  (if t_repeat t
   then n ← now; restart it.2 n ;; tq_insert it.2 ;; mret tt
   else delete_timer it.2) ;;
  s ← getS;
  match m_timers s with
  | [] => mret tt
  | first :: _ => t ← deref first.2; resetTimerfd (t_expiration t)
  end.

Definition tq_reset (expired : list entry) : M unit := forM expired reset_one.

(** [readTimerFd] only logs when the read is short. *)
Definition tq_handleRead : M unit :=
  n ← now;
  expired ← getExpired n;
  modify (set_calling true) ;;
  forM expired (fun it => run_timer it.2) ;;
  modify (set_calling false) ;;
  tq_reset expired.

(** The destructor frees the timers of the set. *)
Definition TimerQueue_destroy : M unit :=
  s ← getS; forM (m_timers s) (fun it => delete_timer it.2).

(** The kernel: an armed timer fires once and is then disarmed. *)
Definition timerfd_fires : M unit := modify (set_armed None).
End timers.
Arguments Timer : clear implicits.
Arguments TimerQueue : clear implicits.
Arguments request : clear implicits.
Arguments mkTQ {C}.
Arguments mkTimer {C}.

(** ** The ordered set *)

Definition entry_lt (a b : entry) : Prop := entry_ltb a b = true.

Lemma entry_lt_spec a b : entry_lt a b <-> a.1 < b.1 \/ (a.1 = b.1 /\ a.2 < b.2).
Proof.
  unfold entry_lt, entry_ltb. rewrite orb_true_iff, andb_true_iff, !Z.ltb_lt, Z.eqb_eq. done.
Qed.

Lemma entry_lt_trans a b c : entry_lt a b -> entry_lt b c -> entry_lt a c.
Proof. rewrite !entry_lt_spec. lia. Qed.

Lemma entry_ltb_total a b : entry_ltb a b = false -> entry_ltb b a = false -> a = b.
Proof.
  intros H1 H2. destruct a as [x p], b as [y q].
  assert (~ entry_lt (x, p) (y, q)) by (unfold entry_lt; by rewrite H1).
  assert (~ entry_lt (y, q) (x, p)) by (unfold entry_lt; by rewrite H2).
  rewrite !entry_lt_spec in *. simpl in *. f_equal; lia.
Qed.

Abbreviation sorted := (StronglySorted entry_lt).

Lemma set_insert_perm e l : e ∉ l -> set_insert e l ≡ₚ e :: l.
Proof.
  induction l as [|x l IH]; intros He; simpl; [done|].
  rewrite not_elem_of_cons in He. destruct He as [Hex Hel].
  destruct (entry_ltb e x) eqn:H1; [done|]. destruct (entry_ltb x e) eqn:H2.
  - rewrite IH by done. apply Permutation_swap.
  - by destruct Hex; apply entry_ltb_total.
Qed.

Lemma set_insert_sorted e l : e ∉ l -> sorted l -> sorted (set_insert e l).
Proof.
  intros He Hs. induction Hs as [|x l Hs IH Hx]; simpl; [repeat constructor|].
  rewrite not_elem_of_cons in He. destruct He as [Hex Hel].
  destruct (entry_ltb e x) eqn:H1.
  - constructor; [by constructor|]. constructor; [done|].
    eapply Forall_impl; [exact Hx|]. intros y. by apply entry_lt_trans.
  - destruct (entry_ltb x e) eqn:H2; [|by destruct Hex; apply entry_ltb_total].
    constructor; [auto|]. rewrite set_insert_perm by done. by constructor.
Qed.

Lemma set_insert_head e l :
  head (set_insert e l) =
  Some (match l with [] => e | x :: _ => if entry_ltb e x then e else x end).
Proof. destruct l as [|x l]; simpl; [done|]. by destruct (entry_ltb e x), (entry_ltb x e). Qed.

Lemma list_filter_none {A} (P : A -> Prop) `{forall x, Decision (P x)} l :
  Forall (fun x => ~ P x) l -> filter P l = [].
Proof. induction 1; [done|]. by rewrite filter_cons_False. Qed.

Lemma split_lower_bound_spec n l before from :
  sorted l -> Forall (fun e => e.2 < UINTPTR_MAX) l ->
  split_lower_bound (n, UINTPTR_MAX) l = (before, from) ->
  l = before ++ from /\ before = filter (fun e => e.1 <= n) l /\
  Forall (fun e => e.1 <= n) before /\ Forall (fun e => n < e.1) from.
Proof.
  intros Hs Hp. revert before from. induction Hs as [|x l Hs IH Hx]; intros before from; simpl.
  - intros [= <- <-]. done.
  - apply Forall_cons in Hp as [Hpx Hp].
    destruct (entry_ltb x (n, UINTPTR_MAX)) eqn:H.
    + destruct (split_lower_bound _ l) as [b f]. intros [= <- <-].
      destruct (IH Hp b f eq_refl) as (-> & Hb & ? & ?).
      assert (x.1 <= n).
      { assert (entry_lt x (n, UINTPTR_MAX)) as Hlt by done.
        rewrite entry_lt_spec in Hlt. simpl in Hlt. lia. }
      split_and!; [done| |by constructor|done].
      rewrite filter_cons_True by done. by f_equal.
    + intros [= <- <-].
      assert (n < x.1).
      { assert (~ entry_lt x (n, UINTPTR_MAX)) as Hlt by (unfold entry_lt; by rewrite H).
        rewrite entry_lt_spec in Hlt. simpl in Hlt. lia. }
      assert (Hall : Forall (fun e => n < e.1) (x :: l)).
      { constructor; [done|]. eapply Forall_impl; [exact Hx|]. intros y.
        rewrite entry_lt_spec. lia. }
      split_and!; [done| |done|done].
      symmetry. apply list_filter_none. eapply Forall_impl; [exact Hall|]. intros y. simpl. lia.
Qed.

(** ** The invariant

    [E] lists the addresses that are live but neither in the set nor queued:
    a timer just created, or the expired timers while they are processed. *)

Section timer_invariant.
Context {C : Type} (clk : nat -> Z) (body : C -> list (request C)).
Context (alloc : gmap addr (Timer C) -> addr).

(** The clock stays within the next 36000 years and delays within 73000;
    [new] returns an address that is not live while fewer than 2^60 are. *)
Definition clock_ok : Prop := forall n, 0 <= clk n <= 2 ^ 60.
Definition delay_ok (d : double) : Prop :=
  exists n, double_to_int64 (dmul d (double_of_Z kMicroSecondsPerSecond)) = Ok n /\
            0 <= n <= 2 ^ 61.
Definition request_ok (r : request C) : Prop :=
  match r with
  | runAt ts _ => - 2 ^ 62 <= ts <= 2 ^ 62
  | runAfter d _ => delay_ok d
  | runEvery d _ => delay_ok d
  end.
Definition alloc_ok : Prop :=
  forall h, Z.of_nat (size h) < 2 ^ 60 -> h !! alloc h = None /\ 0 < alloc h < UINTPTR_MAX.

Context (Hclk : clock_ok) (Hbody : forall c, Forall request_ok (body c)) (Halloc : alloc_ok).

Definition timer_ok (p : addr) (t : Timer C) : Prop :=
  0 < p < UINTPTR_MAX /\ - 2 ^ 62 <= t_expiration t <= 2 ^ 62 /\
  t_repeat t = dgt0 (t_interval t) /\ (t_repeat t = true -> delay_ok (t_interval t)).

Definition owned (E : list addr) (s : TimerQueue C) : list addr :=
  E ++ ((snd <$> m_timers s) ++ tq_pending s).

(** [B] is the number of allocations the heap has room for. *)
Record tq_inv (B : nat) (E : list addr) (s : TimerQueue C) : Prop := {
  inv_sorted : sorted (m_timers s);
  inv_nodup : NoDup (owned E s);
  inv_live : forall p, is_Some (tq_heap s !! p) <-> p ∈ owned E s;
  inv_exp : forall e, e ∈ m_timers s ->
    exists t, tq_heap s !! e.2 = Some t /\ t_expiration t = e.1;
  inv_room : Z.of_nat (size (tq_heap s) + B) <= 2 ^ 60;
  inv_timer : forall p t, tq_heap s !! p = Some t -> timer_ok p t;
}.

(** What running a callback keeps. *)
Definition keeps (s s' : TimerQueue C) : Prop :=
  (forall p t, tq_heap s !! p = Some t -> tq_heap s' !! p = Some t) /\
  (tq_ticks s <= tq_ticks s')%nat /\ tq_trace s' = tq_trace s.

Lemma keeps_refl s : keeps s s.
Proof. done. Qed.

Lemma keeps_trans s1 s2 s3 : keeps s1 s2 -> keeps s2 s3 -> keeps s1 s3.
Proof. intros (?&?&?) (?&?&?). split_and!; [auto|lia|congruence]. Qed.

(** The kernel timer is armed for the earliest timer of the set, at the
    earliest 100 microseconds after it was armed. *)
Definition armed_ok (s : TimerQueue C) : Prop :=
  match m_timers s with
  | [] => True
  | first :: _ => exists n sec nsec, tq_armed s = Some (n, sec, nsec) /\
      (exists k, n = clk k) /\ 0 <= sec /\ 0 <= nsec < 10 ^ 9 /\ nsec mod 1000 = 0 /\
      n + sec * kMicroSecondsPerSecond + nsec / 1000 = Z.max first.1 (n + 100)
  end.

Lemma now_spec s :
  wp (now (C := C) clk) (fun n s' => n = clk (tq_ticks s) /\ s' = set_ticks (S (tq_ticks s)) s) s.
Proof. unfold now. wp_simpl. done. Qed.

Lemma tq_inv_ticks B E n s : tq_inv B E s -> tq_inv B E (set_ticks n s).
Proof. intros [H1 H2 H3 H4 HB H5]. split; done. Qed.

Lemma resetTimerfd_spec e s :
  - 2 ^ 62 <= e <= 2 ^ 62 ->
  wp (resetTimerfd clk e)
     (fun _ s' => exists a, s' = set_armed a (set_ticks (S (tq_ticks s)) s) /\
        forall first rest, m_timers s = first :: rest -> first.1 = e -> armed_ok s') s.
Proof.
  intros He. unfold resetTimerfd. wp_simpl. eapply wp_mono; [apply now_spec|].
  intros n s1 (-> & ->). wp_simpl. pose proof (Hclk (tq_ticks s)) as Hn.
  unfold i64_sub. rewrite schk_ok by (unfold in_s; lia). wp_simpl.
  eexists. split; [done|]. intros first rest Hm Hf. unfold armed_ok.
  cbn [m_timers set_armed set_ticks tq_armed]. rewrite Hm.
  set (d := if decide (e - clk (tq_ticks s) < 100) then 100 else e - clk (tq_ticks s)).
  assert (Hd : d = Z.max (e - clk (tq_ticks s)) 100) by (subst d; case_decide; lia).
  unfold cdiv, cmod. unfold kMicroSecondsPerSecond.
  rewrite Z.quot_div_nonneg, Z.rem_mod_nonneg by lia.
  pose proof (Z.mod_pos_bound d (1000 * 1000) ltac:(lia)).
  pose proof (Z.div_mod d (1000 * 1000) ltac:(lia)).
  do 3 eexists. split; [done|]. split_and!; [by eexists|apply Z.div_pos; lia|lia|lia| |].
  - by rewrite Z.mod_mul.
  - rewrite Z.div_mul by lia. lia.
Qed.

Lemma Timer_new_spec B E cb when interval s :
  tq_inv (S B) E s -> - 2 ^ 62 <= when <= 2 ^ 62 ->
  (dgt0 interval = true -> delay_ok interval) ->
  wp (Timer_new alloc cb when interval)
     (fun p s' => tq_inv B (p :: E) s' /\ keeps s s' /\ tq_heap s !! p = None /\
        tq_heap s' !! p = Some (mkTimer cb when interval (dgt0 interval)) /\
        m_timers s' = m_timers s /\ tq_armed s' = tq_armed s) s.
Proof.
  intros [H1 H2 H3 H4 HB H5] Hw Hi. unfold Timer_new. wp_simpl.
  destruct (Halloc (tq_heap s)) as [Hfresh Hp]; [lia|]. set (p := alloc (tq_heap s)) in *.
  assert (Hnew : p ∉ owned E s).
  { rewrite <- H3, Hfresh. by intros [? ?]. }
  assert (Hne : forall q t, tq_heap s !! q = Some t -> q <> p) by congruence.
  split_and!; [|split_and!|done|by simplify_map_eq|done|done].
  - split; cbn [set_heap tq_heap m_timers tq_pending]; [done|..].
    + unfold owned. cbn. constructor; done.
    + intros q. change (owned (p :: E) _) with (p :: owned E s).
      rewrite elem_of_cons, <- H3. destruct (decide (q = p)) as [->|].
      * rewrite lookup_insert_eq. naive_solver.
      * rewrite lookup_insert_ne by done. naive_solver.
    + intros e He. destruct (H4 e He) as (t & Ht & Hexp). exists t.
      rewrite lookup_insert_ne by (apply not_eq_sym; by eapply Hne). done.
    + rewrite map_size_insert_None by done. lia.
    + intros q t. rewrite lookup_insert_Some. intros [[<- <-]|[_ Ht]]; [|by apply H5].
      split_and!; simpl; [lia..|done|done].
  - intros q t Ht. cbn. rewrite lookup_insert_ne by (apply not_eq_sym; by eapply Hne). done.
  - simpl. lia.
  - done.
Qed.

Lemma owned_insert E p when s :
  (when, p) ∉ m_timers s ->
  owned E (set_timers (set_insert (when, p)) s) ≡ₚ owned (p :: E) s.
Proof.
  intros Hn. unfold owned. cbn [set_timers m_timers tq_pending].
  rewrite set_insert_perm by done. rewrite fmap_cons. simpl.
  symmetry. apply Permutation_middle.
Qed.

Lemma tq_insert_spec B E p t s :
  tq_inv B (p :: E) s -> tq_heap s !! p = Some t ->
  wp (tq_insert p)
     (fun b s' => tq_inv B E s' /\
        s' = set_timers (set_insert (t_expiration t, p)) s /\
        (m_timers s' ≡ₚ (t_expiration t, p) :: m_timers s) /\
        exists first rest, m_timers s' = first :: rest /\
          (if b then first.1 = t_expiration t
           else exists old l, m_timers s = old :: l /\ first.1 = old.1)) s.
Proof.
  intros [H1 H2 H3 H4 HB H5] Ht. unfold tq_insert, deref. wp_simpl. rewrite Ht. wp_simpl.
  assert (Hn : (t_expiration t, p) ∉ m_timers s).
  { intros Hin. apply NoDup_cons in H2 as [Hp _]. apply Hp.
    rewrite !elem_of_app. right. left. by apply (list_elem_of_fmap_2 snd) in Hin. }
  pose proof (owned_insert E p (t_expiration t) s Hn) as Ho.
  split_and!; [| |by apply set_insert_perm|].
  - split; cbn [set_timers tq_heap m_timers].
    + by apply set_insert_sorted.
    + by rewrite Ho.
    + intros q. by rewrite H3, Ho.
    + intros e. rewrite set_insert_perm by done. intros [->|He]%elem_of_cons; [|by apply H4].
      exists t. done.
    + done.
    + done.
  - done.
  - cbn [set_timers m_timers]. pose proof (set_insert_head (t_expiration t, p) (m_timers s)) as Hh.
    destruct (set_insert _ _) as [|first rest] eqn:E1; [done|].
    exists first, rest. split; [done|]. injection Hh as ->.
    destruct (m_timers s) as [|[w q] l]; [done|].
    destruct (entry_ltb (t_expiration t, p) (w, q)) eqn:E3; case_bool_decide as E4; simpl in *.
    + done.
    + exists (w, q), l. split; [done|]. simpl. change (entry_lt (t_expiration t, p) (w, q)) in E3.
      rewrite entry_lt_spec in E3. simpl in E3. lia.
    + assert (entry_lt (t_expiration t, p) (w, q)) as Hl by (rewrite entry_lt_spec; simpl; lia).
      unfold entry_lt in Hl. congruence.
    + by exists (w, q), l.
Qed.

Lemma armed_ok_same s s' :
  armed_ok s -> tq_armed s' = tq_armed s ->
  (exists old l first rest, m_timers s = old :: l /\ m_timers s' = first :: rest /\
     first.1 = old.1) ->
  armed_ok s'.
Proof.
  unfold armed_ok. intros Ha Harm (old & l & first & rest & H1 & H2 & H3).
  rewrite H1 in Ha. rewrite H2, H3, Harm. done.
Qed.

Lemma tq_inv_armed B E a s : tq_inv B E s -> tq_inv B E (set_armed a s).
Proof. intros [H1 H2 H3 H4 HB H5]. split; done. Qed.

Lemma addTimerInLoop_spec B E p t s :
  tq_inv B (p :: E) s -> tq_heap s !! p = Some t ->
  wp (addTimerInLoop clk p)
     (fun _ s' => tq_inv B E s' /\ keeps s s' /\
        m_timers s' ≡ₚ (t_expiration t, p) :: m_timers s /\
        (armed_ok s -> armed_ok s')) s.
Proof.
  intros Hi Ht. unfold addTimerInLoop. wp_simpl.
  eapply wp_mono; [by eapply tq_insert_spec|].
  intros b s1 (Hi1 & Hs1 & Hperm & first & rest & Hm & Hb).
  assert (Ht1 : tq_heap s1 !! p = Some t) by (by subst s1).
  destruct b.
  - unfold deref. wp_simpl. rewrite Ht1. wp_simpl.
    destruct (inv_timer _ _ _ Hi1 _ _ Ht1) as (_ & He & _).
    eapply wp_mono; [by apply resetTimerfd_spec|].
    intros [] s2 (a & Hs2 & Harm). split_and!.
    + subst s2. apply tq_inv_armed, tq_inv_ticks. done.
    + subst s2 s1. split_and!; [done|simpl; lia|done].
    + by subst s2.
    + intros _. by eapply Harm.
  - wp_simpl. split_and!; [done|by subst s1|done|].
    destruct Hb as (old & l & Hold & Hf).
    intros Ha. eapply armed_ok_same; [exact Ha|by subst s1|]. by exists old, l, first, rest.
Qed.

Lemma addTimer_spec B E b cb when interval s :
  tq_inv (S B) E s -> - 2 ^ 62 <= when <= 2 ^ 62 ->
  (dgt0 interval = true -> delay_ok interval) ->
  wp (addTimer clk alloc b cb when interval)
     (fun _ s' => tq_inv B E s' /\ keeps s s' /\ m_timers s ⊆ m_timers s' /\
        (armed_ok s -> armed_ok s') /\
        exists p, tq_heap s !! p = None /\
          tq_heap s' !! p = Some (mkTimer cb when interval (dgt0 interval)) /\
          (if b then (when, p) ∈ m_timers s' else p ∈ tq_pending s')) s.
Proof.
  intros Hi Hw Hd. unfold addTimer. wp_simpl. eapply wp_mono; [by apply Timer_new_spec|].
  intros p s1 (Hi1 & Hk1 & Hnew & Hp & Hm1 & Ha1).
  assert (Harm1 : armed_ok s -> armed_ok s1) by (unfold armed_ok; by rewrite Hm1, Ha1).
  destruct b.
  - eapply wp_mono; [by eapply addTimerInLoop_spec|].
    intros [] s2 (Hi2 & Hk2 & Hm2 & Ha2). split_and!; [done|by eapply keeps_trans| |auto|].
    + intros e He. rewrite Hm2, Hm1. by right.
    + exists p. split_and!; [done|by apply Hk2|]. rewrite Hm2. left.
  - wp_simpl. split_and!.
    + destruct Hi1 as [H1 H2 H3 H4 HB H5].
      assert (Hperm : owned E (set_pending (fun l => l ++ [p]) s1) ≡ₚ owned (p :: E) s1).
      { unfold owned. cbn [set_pending m_timers tq_pending app].
        rewrite !app_assoc. symmetry. apply Permutation_cons_append. }
      split; [done| |intros q; by rewrite H3, Hperm|done|done|done]. by rewrite Hperm.
    + done.
    + cbn. by rewrite Hm1.
    + done.
    + exists p. split_and!; [done..|]. cbn. apply elem_of_app. right. by left.
Qed.

Lemma addTime_spec n d :
  0 <= n <= 2 ^ 60 -> delay_ok d ->
  exists e, addTime n d = Ok e /\ - 2 ^ 62 <= e <= 2 ^ 62.
Proof.
  intros Hn (m & Hm & Hb). unfold addTime. rewrite Hm. cbn [mbind outcome_bind].
  unfold i64_add. rewrite schk_ok by (unfold in_s; lia). eexists. split; [done|]. lia.
Qed.

Lemma tq_inv_request B E b r s :
  tq_inv (S B) E s -> request_ok r ->
  wp (run_request clk alloc b r)
     (fun _ s' => tq_inv B E s' /\ keeps s s' /\ m_timers s ⊆ m_timers s') s.
Proof.
  intros Hi Hr. destruct r as [ts cb|d cb|d cb]; cbn [run_request request_ok] in *.
  - eapply wp_mono; [by apply addTimer_spec|]. naive_solver.
  - wp_simpl. eapply wp_mono; [apply now_spec|]. intros n s1 (-> & ->). wp_simpl.
    destruct (addTime_spec (clk (tq_ticks s)) d) as (e & -> & He); [apply Hclk|done|].
    wp_simpl. eapply wp_mono; [apply (addTimer_spec B E); [by apply tq_inv_ticks|done|discriminate]|].
    intros [] s2 (H1 & (H2 & H3 & H4) & H5 & _). split_and!; [exact H1|split_and!; [exact H2|simpl in *; lia|exact H4]|exact H5].
  - wp_simpl. eapply wp_mono; [apply now_spec|]. intros n s1 (-> & ->). wp_simpl.
    destruct (addTime_spec (clk (tq_ticks s)) d) as (e & -> & He); [apply Hclk|done|].
    wp_simpl. eapply wp_mono; [apply (addTimer_spec B E); [by apply tq_inv_ticks|done|by intros]|].
    intros [] s2 (H1 & (H2 & H3 & H4) & H5 & _). split_and!; [exact H1|split_and!; [exact H2|simpl in *; lia|exact H4]|exact H5].
Qed.

(** Running the expired timers: their callbacks, in order, and nothing freed. *)
Definition ran (cbs : list C) (s s' : TimerQueue C) : Prop :=
  (forall p t, tq_heap s !! p = Some t -> tq_heap s' !! p = Some t) /\
  (tq_ticks s <= tq_ticks s')%nat /\ tq_trace s' = tq_trace s ++ cbs /\
  m_timers s ⊆ m_timers s'.

Lemma requests_spec B E l s :
  tq_inv (length l + B) E s -> Forall request_ok l ->
  wp (forM l (run_request clk alloc true))
     (fun _ s' => tq_inv B E s' /\ keeps s s' /\ m_timers s ⊆ m_timers s') s.
Proof.
  intros Hi Hl. revert s Hi. induction Hl as [|r l Hr Hl IH]; intros s Hi; simpl.
  - wp_simpl. done.
  - wp_simpl. eapply wp_mono; [by apply (tq_inv_request (length l + B) E)|].
    intros [] s1 (Hi1 & Hk1 & Hm1). eapply wp_mono; [by apply IH|].
    intros [] s2 (Hi2 & Hk2 & Hm2). split_and!; [done|by eapply keeps_trans|by etrans].
Qed.

Lemma run_timer_spec B E p t s :
  tq_inv (length (body (t_callback t)) + B) E s -> tq_heap s !! p = Some t ->
  wp (run_timer clk body alloc p)
     (fun _ s' => tq_inv B E s' /\ ran [t_callback t] s s') s.
Proof.
  intros Hi Ht. unfold run_timer, deref. wp_simpl. rewrite Ht. wp_simpl.
  set (s0 := set_trace _ s).
  assert (Hi0 : tq_inv (length (body (t_callback t)) + B) E s0)
    by (destruct Hi as [H1 H2 H3 H4 HB H5]; by split).
  eapply wp_mono; [by apply requests_spec|].
  intros [] s1 (Hi1 & (Hk1 & Hk2 & Hk3) & Hm1). by split_and!.
Qed.

Lemma ran_trans c1 c2 s1 s2 s3 : ran c1 s1 s2 -> ran c2 s2 s3 -> ran (c1 ++ c2) s1 s3.
Proof.
  intros (?&?&E1&?) (?&?&E2&?). split_and!; [auto|lia| |by etrans].
  by rewrite E2, E1, app_assoc.
Qed.

(** The callbacks of the live timers at the given entries. *)
Definition callbacks_of (s : TimerQueue C) (l : list entry) : list C :=
  omap (fun e => t_callback <$> tq_heap s !! e.2) l.

(** The timers the callbacks of some entries add. *)
Definition requests_of (s : TimerQueue C) (l : list entry) : nat :=
  sum_list (length <$> (body <$> callbacks_of s l)).

Lemma callbacks_of_keep s s' l :
  (forall e, e ∈ l -> is_Some (tq_heap s !! e.2)) ->
  (forall p t, tq_heap s !! p = Some t -> tq_heap s' !! p = Some t) ->
  callbacks_of s' l = callbacks_of s l.
Proof.
  intros Hl Hk. unfold callbacks_of. induction l as [|x l IH]; [done|]. simpl.
  destruct (Hl x) as [t' Ht']; [set_solver|].
  rewrite Ht', (Hk _ _ Ht'). simpl. f_equal. apply IH.
  intros e' He'. apply Hl. set_solver.
Qed.

Lemma run_expired_spec B E l s :
  tq_inv (requests_of s l + B) E s -> (forall e, e ∈ l -> is_Some (tq_heap s !! e.2)) ->
  wp (forM l (fun it => run_timer clk body alloc it.2))
     (fun _ s' => tq_inv B E s' /\ ran (callbacks_of s l) s s') s.
Proof.
  revert s. induction l as [|e l IH]; intros s Hi Hl; simpl.
  - wp_simpl. split; [done|]. split_and!; [done|lia|by rewrite app_nil_r|done].
  - destruct (Hl e) as [t Ht]; [left|]. wp_simpl.
    assert (Hcb : callbacks_of s (e :: l) = t_callback t :: callbacks_of s l)
      by (unfold callbacks_of; simpl; by rewrite Ht).
    unfold requests_of in Hi. rewrite Hcb in Hi. cbn [fmap list_fmap sum_list] in Hi.
    fold (requests_of s l) in Hi. rewrite <- Nat.add_assoc in Hi.
    eapply wp_mono; [by apply (run_timer_spec (requests_of s l + B) E)|].
    intros [] s1 (Hi1 & Hr1).
    assert (Hc : callbacks_of s1 l = callbacks_of s l).
    { apply callbacks_of_keep; [set_solver|apply Hr1]. }
    eapply wp_mono; [apply IH|].
    + unfold requests_of. by rewrite Hc.
    + intros e' He'. destruct (Hl e') as [t' Ht']; [by right|]. exists t'. by apply Hr1.
    + intros [] s2 (Hi2 & Hr2). split; [done|]. rewrite Hc in Hr2.
      fold (callbacks_of s l). rewrite Ht.
      by apply (ran_trans [t_callback t] (callbacks_of s l) s s1 s2).
Qed.

(** *** Resetting *)

(** What becomes of an expired timer: freed, or restarted from a reading of the clock. *)
Definition after_reset (k0 : nat) (p : addr) (t : Timer C) (s' : TimerQueue C) : Prop :=
  if t_repeat t
  then exists k e, (k0 <= k)%nat /\ addTime (clk k) (t_interval t) = Ok e /\
         tq_heap s' !! p = Some (mkTimer (t_callback t) e (t_interval t) true) /\
         (e, p) ∈ m_timers s'
  else tq_heap s' !! p = None.

Lemma not_in_set B E p s e : tq_inv B (p :: E) s -> e ∈ m_timers s -> e.2 <> p.
Proof.
  intros [_ H2 _ _ _ _] He <-. apply NoDup_cons in H2 as [Hp _]. apply Hp.
  apply elem_of_app. right. apply elem_of_app. left. by apply list_elem_of_fmap_2.
Qed.

Lemma restart_spec B E p t k s :
  tq_inv B (p :: E) s -> tq_heap s !! p = Some t -> t_repeat t = true ->
  wp (restart p (clk k))
     (fun _ s' => exists e, addTime (clk k) (t_interval t) = Ok e /\
        s' = set_heap (<[p := mkTimer (t_callback t) e (t_interval t) true]>) s /\
        tq_inv B (p :: E) s') s.
Proof.
  intros Hi Ht Hr. unfold restart, deref. wp_simpl. rewrite Ht. wp_simpl. rewrite Hr.
  destruct (inv_timer _ _ _ Hi _ _ Ht) as (Hp & _ & Hrep & Hd). rewrite Hr in Hrep.
  destruct (addTime_spec (clk k) (t_interval t)) as (e & He & Hb); [apply Hclk|by apply Hd|].
  rewrite He. wp_simpl. exists e. split_and!; [done|done|].
  pose proof Hi as [H1 H2 H3 H4 HB H5]. split; cbn [set_heap tq_heap m_timers]; [done|done|..].
  - intros q. change (owned (p :: E) (set_heap _ s)) with (owned (p :: E) s). rewrite <- H3.
    destruct (decide (q = p)) as [->|]; [|by rewrite lookup_insert_ne].
    rewrite lookup_insert_eq, Ht. by split; eauto.
  - intros x Hx. rewrite lookup_insert_ne; [by apply H4|].
    apply not_eq_sym. by eapply not_in_set.
  - by rewrite map_size_insert_Some by eauto.
  - intros q u. rewrite lookup_insert_Some. intros [[<- <-]|[_ Hu]]; [|by apply H5].
    split_and!; simpl; [lia..|done|auto].
Qed.

Lemma delete_timer_spec B E p s :
  tq_inv B (p :: E) s ->
  wp (delete_timer p)
     (fun _ s' => s' = set_heap (base.delete p) s /\ tq_inv B E s') s.
Proof.
  intros Hi. pose proof Hi as [H1 H2 H3 H4 HB H5].
  assert (Hp : is_Some (tq_heap s !! p)) by (apply H3; left).
  destruct Hp as [t Ht]. unfold delete_timer, deref. wp_simpl. rewrite Ht. wp_simpl.
  split; [done|]. split; cbn [set_heap tq_heap m_timers]; [done|..].
  - by apply NoDup_cons in H2 as [_ H2].
  - intros q. change (owned E (set_heap _ s)) with (owned E s).
    apply NoDup_cons in H2 as [Hp H2]. fold (owned E s) in Hp.
    specialize (H3 q). change (owned (p :: E) s) with (p :: owned E s) in H3.
    rewrite elem_of_cons in H3. destruct (decide (q = p)) as [->|].
    + rewrite lookup_delete_eq. split; [by intros [? ?]|done].
    + rewrite lookup_delete_ne by done. naive_solver.
  - intros x Hx. rewrite lookup_delete_ne; [by apply H4|].
    apply not_eq_sym. by eapply not_in_set.
  - rewrite map_size_delete_Some by eauto. lia.
  - intros q u. rewrite lookup_delete_Some. intros [_ Hu]. by apply H5.
Qed.

(** The last step of an iteration: arm for the first timer. *)
Lemma rearm_spec B E s :
  tq_inv B E s ->
  wp (s ← getS;
      match m_timers s with
      | [] => mret tt
      | first :: _ => t ← deref first.2; resetTimerfd clk (t_expiration t)
      end)
     (fun _ s' => tq_inv B E s' /\ tq_heap s' = tq_heap s /\ m_timers s' = m_timers s /\
        tq_trace s' = tq_trace s /\ (tq_ticks s <= tq_ticks s')%nat /\ armed_ok s') s.
Proof.
  intros Hi. wp_simpl. destruct (m_timers s) as [|first rest] eqn:Hm.
  - wp_simpl. split_and!; [done..|]. unfold armed_ok. by rewrite Hm.
  - destruct (inv_exp _ _ _ Hi first) as (t & Ht & He); [rewrite Hm; left|].
    unfold deref. wp_simpl. rewrite Ht. wp_simpl.
    destruct (inv_timer _ _ _ Hi _ _ Ht) as (_ & Hb & _).
    eapply wp_mono; [by apply resetTimerfd_spec|]. intros [] s' (a & -> & Harm).
    split_and!; [by apply tq_inv_armed, tq_inv_ticks|done|done|done|simpl; lia|].
    by eapply Harm.
Qed.

Lemma reset_one_spec B E x t s :
  tq_inv B (x.2 :: E) s -> tq_heap s !! x.2 = Some t ->
  wp (reset_one clk x)
     (fun _ s' => tq_inv B E s' /\ (forall q, q <> x.2 -> tq_heap s' !! q = tq_heap s !! q) /\
        after_reset (tq_ticks s) x.2 t s' /\ m_timers s ⊆ m_timers s' /\
        tq_trace s' = tq_trace s /\ (tq_ticks s <= tq_ticks s')%nat /\ armed_ok s') s.
Proof.
  intros Hi Ht. unfold reset_one. rewrite wp_bind. unfold deref at 1. wp_simpl. rewrite Ht.
  wp_simpl. unfold after_reset. destruct (t_repeat t) eqn:Hr.
  - wp_simpl. eapply wp_mono; [apply now_spec|]. intros n s1 (-> & ->). wp_simpl.
    eapply wp_mono; [by apply (restart_spec B E); [apply tq_inv_ticks|..]|].
    intros [] s2 (e & He & Hs2 & Hi2). wp_simpl.
    eapply wp_mono; [eapply tq_insert_spec; [done|subst s2; by simplify_map_eq]|].
    intros b s3 (Hi3 & Hs3 & Hperm & _). wp_simpl.
    eapply wp_mono; [by apply rearm_spec|].
    intros [] s4 (Hi4 & Hh4 & Hm4 & Ht4 & Hk4 & Ha4).
    assert (Hh : tq_heap s4 = <[x.2 := mkTimer (t_callback t) e (t_interval t) true]> (tq_heap s))
      by (rewrite Hh4; by subst s3 s2).
    split_and!; [done|..|by rewrite Ht4; subst s3 s2| |done].
    + intros q Hq. rewrite Hh. by rewrite lookup_insert_ne.
    + exists (tq_ticks s), e. split_and!; [lia|done|rewrite Hh; by simplify_map_eq|].
      rewrite Hm4, Hperm. left.
    + intros y Hy. rewrite Hm4, Hperm. right. by subst s2.
    + transitivity (tq_ticks s3); [|done]. subst s3 s2. simpl. lia.
  - eapply wp_mono; [by apply (delete_timer_spec B E)|]. intros [] s1 (Hs1 & Hi1).
    eapply wp_mono; [by apply rearm_spec|].
    intros [] s4 (Hi4 & Hh4 & Hm4 & Ht4 & Hk4 & Ha4).
    assert (Hh : tq_heap s4 = base.delete x.2 (tq_heap s)) by (rewrite Hh4; by subst s1).
    split_and!; [done|..|by rewrite Ht4; subst s1| |done].
    + intros q Hq. rewrite Hh. by rewrite lookup_delete_ne.
    + rewrite Hh. apply lookup_delete_eq.
    + rewrite Hm4. by subst s1.
    + by subst s1.
Qed.

Lemma after_reset_keep k0 k1 p t s s' :
  after_reset k1 p t s -> (k0 <= k1)%nat -> tq_heap s' !! p = tq_heap s !! p ->
  m_timers s ⊆ m_timers s' -> after_reset k0 p t s'.
Proof.
  unfold after_reset. intros H Hk Hh Hm. rewrite Hh. destruct (t_repeat t); [|done].
  destruct H as (k & e & ? & ? & ? & ?). exists k, e. split_and!; [lia|done|done|auto].
Qed.

Lemma tq_reset_spec B l s :
  tq_inv B (snd <$> l) s ->
  wp (tq_reset clk l)
     (fun _ s' => tq_inv B [] s' /\
        (forall q, q ∉ (snd <$> l) -> tq_heap s' !! q = tq_heap s !! q) /\
        (forall x t, x ∈ l -> tq_heap s !! x.2 = Some t -> after_reset (tq_ticks s) x.2 t s') /\
        m_timers s ⊆ m_timers s' /\ tq_trace s' = tq_trace s /\
        (armed_ok s \/ l <> [] -> armed_ok s')) s.
Proof.
  unfold tq_reset. revert s. induction l as [|x l IH]; intros s Hi; simpl.
  - wp_simpl. split_and!; [done|done|set_solver|done|done|naive_solver].
  - wp_simpl. simpl in Hi. assert (Hx : is_Some (tq_heap s !! x.2)).
    { apply (inv_live _ _ _ Hi). left. }
    destruct Hx as [t Ht]. eapply wp_mono; [by apply (reset_one_spec B (snd <$> l))|].
    intros [] s1 (Hi1 & Hh1 & Hr1 & Hm1 & Ht1 & Hk1 & Ha1).
    eapply wp_mono; [by apply IH|].
    intros [] s2 (Hi2 & Hh2 & Hr2 & Hm2 & Ht2 & Ha2).
    assert (Hnd : x.2 ∉ snd <$> l).
    { pose proof (inv_nodup _ _ _ Hi) as Hnd. apply NoDup_cons in Hnd as [Hn _].
      unfold owned in Hn. intros Hin. apply Hn. apply elem_of_app. by left. }
    split_and!; [done|..|by etrans|congruence|].
    + intros q [Hq1 Hq2]%not_elem_of_cons. by rewrite Hh2, Hh1.
    + intros y u [->|Hy]%elem_of_cons Hu.
      * rewrite Ht in Hu. injection Hu as ->.
        eapply after_reset_keep; [exact Hr1|done|by apply Hh2|done].
      * assert (y.2 <> x.2).
        { intros E. apply Hnd. rewrite <- E. by apply list_elem_of_fmap_2. }
        assert (Hu1 : tq_heap s1 !! y.2 = Some u) by (by rewrite Hh1).
        eapply after_reset_keep; [by apply Hr2|done|done|done].
    + intros _. apply Ha2. by left.
Qed.

Lemma getExpired_spec B n s :
  tq_inv B [] s ->
  wp (getExpired n)
     (fun l s' => l = filter (fun e => e.1 <= n) (m_timers s) /\
        tq_inv B (snd <$> l) s' /\
        s' = set_timers (fun _ => m_timers s') s /\
        m_timers s = l ++ m_timers s' /\ Forall (fun e => n < e.1) (m_timers s')) s.
Proof.
  intros Hi. pose proof Hi as [H1 H2 H3 H4 HB H5]. unfold getExpired. wp_simpl.
  destruct (split_lower_bound _ _) as [before from] eqn:Hs.
  apply split_lower_bound_spec in Hs as (Hm & Hb & _ & Hf); [|done|].
  2: { apply Forall_forall. intros e He. destruct (H4 e He) as (t & Ht & _).
       destruct (H5 _ _ Ht) as ((? & ?) & _). done. }
  wp_simpl. split_and!; [done| |done|done|done].
  assert (Ho : owned (snd <$> before) (set_timers (fun _ => from) s) = owned [] s).
  { unfold owned. cbn [set_timers m_timers tq_pending app]. by rewrite Hm, fmap_app, app_assoc. }
  split; cbn [set_timers m_timers tq_heap].
  - rewrite Hm in H1. clear -H1. induction before as [|x l IH]; [done|].
    inversion H1; auto.
  - by rewrite Ho.
  - intros p. by rewrite H3, Ho.
  - intros e He. apply H4. rewrite Hm. apply elem_of_app. by right.
  - done.
  - done.
Qed.

(** C8. When the timer descriptor fires, [handleRead] runs the callback of every
    expired timer exactly once, in order of expiration, and of no other; it frees
    the expired one-shot timers, re-inserts each repeating one to expire its
    interval (cut to whole microseconds) after a clock reading taken during this
    call, leaves all others alone, never touches a freed timer even when callbacks
    add timers, and re-arms the descriptor for the earliest timer if some timer had
    expired.  The clock may stand still or step back.  Supposed: its readings are
    below 2^60 microseconds and the delays at most 2^61 (beyond, the conversion and
    the sum may overflow), and [new] returns a fresh address while fewer than 2^60
    timers live. *)
Theorem handleRead_runs_expired B s :
  let n := clk (tq_ticks s) in
  let expired := filter (fun e => e.1 <= n) (m_timers s) in
  tq_inv (requests_of s expired + B) [] s ->
  wp (tq_handleRead clk body alloc)
     (fun _ s' => tq_inv B [] s' /\
        tq_trace s' = tq_trace s ++ callbacks_of s expired /\
        (forall p t, tq_heap s !! p = Some t -> p ∉ (snd <$> expired) ->
           tq_heap s' !! p = Some t) /\
        (forall e t, e ∈ expired -> tq_heap s !! e.2 = Some t ->
           after_reset (tq_ticks s) e.2 t s') /\
        (expired <> [] -> armed_ok s')) s.
Proof.
  intros n expired Hi. unfold tq_handleRead. wp_simpl.
  eapply wp_mono; [apply now_spec|]. intros n' s0 (-> & Hs0). wp_simpl. fold n.
  assert (Hi0 : tq_inv (requests_of s expired + B) [] s0) by (subst s0; by apply tq_inv_ticks).
  eapply wp_mono; [by apply (getExpired_spec (requests_of s expired + B) n)|].
  intros l s1 (Hl & Hi1 & Hs1 & Hm1 & Hf). wp_simpl.
  assert (l = expired) as -> by (by rewrite Hl; subst s0). clear Hl.
  assert (Hh1 : tq_heap s1 = tq_heap s) by (by rewrite Hs1; subst s0).
  assert (Hlive : forall e, e ∈ expired -> is_Some (tq_heap s1 !! e.2)).
  { intros e He. apply (inv_live _ _ _ Hi1). apply elem_of_app. left.
    by apply list_elem_of_fmap_2. }
  assert (Hc : callbacks_of (set_calling true s1) expired = callbacks_of s expired)
    by (unfold callbacks_of; cbn [set_calling tq_heap]; by rewrite Hh1).
  eapply wp_mono; [apply (run_expired_spec B (snd <$> expired)); [|done]|].
  { unfold requests_of. rewrite Hc. destruct Hi1 as [H1 H2 H3 H4 HB H5]. split; done. }
  intros [] s2 (Hi2 & Hk2 & Ht2 & Htr2 & Hm2). rewrite Hc in Htr2. wp_simpl.
  eapply wp_mono; [apply tq_reset_spec|].
  { destruct Hi2 as [H1 H2 H3 H4 HB H5]. split; done. }
  intros [] s3 (Hi3 & Hh3 & Hr3 & Hm3 & Htr3 & Ha3).
  split_and!; [done|..].
  - rewrite Htr3. cbn [set_calling tq_trace]. rewrite Htr2. cbn [set_calling tq_trace].
    rewrite Hs1. by subst s0.
  - intros p t Hp Hn. rewrite Hh3 by done. apply Hk2. cbn. by rewrite Hh1.
  - intros e t He Ht. eapply (after_reset_keep _ (tq_ticks (set_calling false s2))); [|..].
    + apply Hr3; [done|]. cbn. apply Hk2. cbn. by rewrite Hh1.
    + cbn in *. rewrite Hs1 in Ht2. subst s0. cbn in Ht2. lia.
    + done.
    + done.
  - intros Hne. apply Ha3. by right.
Qed.

(** A wake-up that comes too early loses the timers: if no timer has expired
    when the (one-shot) descriptor fires, [handleRead] leaves it disarmed, with
    the timers still in the set. *)
Theorem early_wakeup_disarms B s first rest :
  tq_inv B [] s -> m_timers s = first :: rest -> clk (tq_ticks s) < first.1 ->
  wp (timerfd_fires ;; tq_handleRead clk body alloc)
     (fun _ s' => m_timers s' = first :: rest /\ tq_armed s' = None /\
        tq_trace s' = tq_trace s) s.
Proof.
  intros Hi Hm Hlt. unfold timerfd_fires, tq_handleRead. wp_simpl.
  eapply wp_mono; [apply now_spec|]. intros n s0 (-> & ->). wp_simpl.
  cbn [tq_ticks set_armed]. eapply wp_mono; [apply getExpired_spec|].
  { by apply tq_inv_ticks, tq_inv_armed. }
  intros l s1 (Hl & _ & Hs1 & Hm1 & _).
  assert (l = []) as ->.
  { rewrite Hl. cbn [m_timers set_ticks set_armed]. apply list_filter_none. rewrite Hm.
    pose proof (inv_sorted _ _ _ Hi) as Hsort. rewrite Hm in Hsort. inversion Hsort as [|? ? _ Hall].
    constructor; simpl; [lia|]. eapply Forall_impl; [exact Hall|]. intros y.
    rewrite entry_lt_spec. simpl. lia. }
  wp_simpl. unfold tq_reset. cbn [forM]. wp_simpl. cbn in Hm1 |- *.
  rewrite <- Hm1, Hm. split; [done|]. rewrite Hs1. done.
Qed.
End timer_invariant.

(** ** A concrete loop: three timers, the first of which adds another *)

Definition demo_clock (n : nat) : Z := 1000000 + 10 * Z.of_nat (Nat.min n 1000).
Definition one_second : double := double_of_Z 1.
Definition demo_body (c : nat) : list (request nat) :=
  if decide (c = 1%nat) then [runAfter one_second 7%nat] else [].

(** The lowest free address. *)
Definition demo_alloc (h : gmap addr (Timer nat)) : addr :=
  default 0 (head (filter (fun p => h !! p = None) (seqZ 1 (Z.of_nat (size h) + 1)))).

Lemma demo_clock_ok : clock_ok demo_clock.
Proof. intros n. unfold demo_clock. lia. Qed.

Lemma one_second_ok : delay_ok one_second.
Proof. exists 1000000. split; [vm_compute; reflexivity|lia]. Qed.

Lemma demo_body_ok c : Forall request_ok (demo_body c).
Proof.
  unfold demo_body. case_decide; [|done]. repeat constructor. apply one_second_ok.
Qed.

Lemma demo_alloc_ok : alloc_ok demo_alloc.
Proof.
  intros h Hh. unfold demo_alloc.
  destruct (filter _ _) as [|p l] eqn:E; simpl.
  - exfalso.
    assert (Hsub : list_to_set (C := gset Z) (seqZ 1 (Z.of_nat (size h) + 1)) ⊆ dom h).
    { intros p Hp. rewrite elem_of_list_to_set in Hp. apply elem_of_dom.
      destruct (h !! p) as [t|] eqn:Hl; [by eexists|].
      assert (Hin : p ∈ filter (fun p => h !! p = None) (seqZ 1 (Z.of_nat (size h) + 1)))
        by (by apply list_elem_of_filter).
      rewrite E in Hin. by apply not_elem_of_nil in Hin. }
    apply subseteq_size in Hsub. rewrite size_dom, size_list_to_set in Hsub by apply NoDup_seqZ.
    rewrite length_seqZ in Hsub. lia.
  - assert (Hin : p ∈ filter (fun p => h !! p = None) (seqZ 1 (Z.of_nat (size h) + 1)))
      by (rewrite E; left).
    apply list_elem_of_filter in Hin as [Hn Hp]. apply elem_of_seqZ in Hp.
    unfold UINTPTR_MAX. split; [done|lia].
Qed.

Definition demo_empty : TimerQueue nat := mkTQ ∅ [] [] None false 0 [].

Lemma demo_empty_inv B : Z.of_nat B <= 2 ^ 60 -> tq_inv B [] demo_empty.
Proof.
  intros HB. split; simpl.
  - constructor.
  - constructor.
  - intros p. unfold owned. simpl. rewrite lookup_empty. split; [by intros [? ?]|by intros ?%not_elem_of_nil].
  - intros e He. by apply not_elem_of_nil in He.
  - rewrite map_size_empty. lia.
  - intros p t. by rewrite lookup_empty.
Qed.

Definition demo_setup : M (TimerQueue nat) unit :=
  forM [runAt 999999 1%nat; runAt 5000000 3%nat; runAt 999000 2%nat]
    (run_request demo_clock demo_alloc true).

Lemma demo_setup_spec :
  wp demo_setup (fun _ s => tq_inv 97 [] s) demo_empty.
Proof.
  eapply wp_mono; [apply (requests_spec demo_clock demo_alloc demo_clock_ok demo_alloc_ok 97 [])|].
  - apply demo_empty_inv. simpl length. lia.
  - repeat constructor; simpl; lia.
  - naive_solver.
Qed.

Definition demo_state : TimerQueue nat :=
  match demo_setup demo_empty with Ok (_, s) => s | _ => demo_empty end.

Lemma demo_state_inv B : (B <= 97)%nat -> tq_inv B [] demo_state.
Proof.
  intros HB. unfold demo_state. pose proof demo_setup_spec as H. unfold wp in H.
  destruct (demo_setup demo_empty) as [[[] s]| |]; [|done..].
  destruct H as [H1 H2 H3 H4 HR H5]. split; try done. lia.
Qed.

Lemma handleRead_runs_expired_witness :
  (fun r => match r with Ok (_, s') => tq_trace s' | _ => [] end)
    (tq_handleRead demo_clock demo_body demo_alloc demo_state) = [2%nat; 1%nat] /\
  wp (tq_handleRead demo_clock demo_body demo_alloc)
     (fun _ s' => tq_inv 1 [] s' /\ tq_trace s' = [2%nat; 1%nat] /\ armed_ok demo_clock s') demo_state.
Proof.
  split; [vm_compute; reflexivity|].
  eapply wp_mono; [apply (handleRead_runs_expired demo_clock demo_body demo_alloc
    demo_clock_ok demo_body_ok demo_alloc_ok 1)|].
  - apply demo_state_inv. apply Nat.leb_le. vm_compute. reflexivity.
  - intros [] s' (H1 & H2 & _ & _ & H5). split_and!; [exact H1|exact H2|].
    apply H5. vm_compute. discriminate.
Defined.

Lemma early_wakeup_disarms_witness :
  wp (timerfd_fires ;; tq_handleRead demo_clock demo_body demo_alloc)
     (fun _ s' => tq_armed s' = None /\ m_timers s' = [(5000000, 1)])
     (match run_request demo_clock demo_alloc true (runAt 5000000 3%nat) demo_empty with
      | Ok (_, s) => s | _ => demo_empty end).
Proof.
  pose proof (tq_inv_request demo_clock demo_alloc demo_clock_ok demo_alloc_ok 0 [] true
    (runAt 5000000 3%nat) demo_empty) as Hi. unfold wp at 1 in Hi.
  eapply wp_mono; [apply (early_wakeup_disarms demo_clock demo_body demo_alloc 0 _ (5000000, 1) [])|].
  - destruct (run_request _ _ _ _ _) as [[[] s]| |].
    + apply Hi; [apply demo_empty_inv; lia|simpl; lia].
    + destruct Hi; [apply demo_empty_inv; lia|simpl; lia].
    + destruct Hi; [apply demo_empty_inv; lia|simpl; lia].
  - vm_compute. reflexivity.
  - vm_compute. reflexivity.
  - intros [] s' (H1 & H2 & _). by split.
Defined.
