(* ===== verification/Channel.v ===== *)
(** * Channels ([myserver/include/channel.h], [myserver/net/channel.cpp])

    A [Channel] is a descriptor with the event mask it is interested in, the
    events the poller last reported and its registration state [m_index].
    The callbacks are code of the owner; the channel only knows whether one is
    set.  [handleEvent] is the sequence of callbacks it makes. *)

From S2P Require Import Prelude CppInt.

Definition EPOLLIN : Z := 1.
Definition EPOLLPRI : Z := 2.
Definition EPOLLOUT : Z := 4.
Definition EPOLLERR : Z := 8.
Definition EPOLLHUP : Z := 16.

Definition kNoneEvent : Z := 0.
Definition kReadEvent : Z := Z.lor EPOLLIN EPOLLPRI.
Definition kWriteEvent : Z := EPOLLOUT.

(** The callbacks that are set. *)
Record Callbacks := mkCallbacks {
  cb_read : bool; cb_write : bool; cb_close : bool; cb_error : bool;
}.

Record Channel := mkChannel {
  ch_fd : Z;
  ch_events : Z;
  ch_revents : Z;
  ch_index : Z;
  ch_tied : bool;
  ch_callbacks : Callbacks;
}.

#[export] Instance Callbacks_eq_dec : EqDecision Callbacks.
Proof. solve_decision. Defined.
#[export] Instance Channel_eq_dec : EqDecision Channel.
Proof. solve_decision. Defined.

Definition Channel_new (fd : Z) : Channel :=
  mkChannel fd 0 0 (-1) false (mkCallbacks false false false false).

Definition setReadCallback (c : Channel) : Channel :=
  let cb := ch_callbacks c in
  mkChannel (ch_fd c) (ch_events c) (ch_revents c) (ch_index c) (ch_tied c)
    (mkCallbacks true (cb_write cb) (cb_close cb) (cb_error cb)).
Definition setWriteCallback (c : Channel) : Channel :=
  let cb := ch_callbacks c in
  mkChannel (ch_fd c) (ch_events c) (ch_revents c) (ch_index c) (ch_tied c)
    (mkCallbacks (cb_read cb) true (cb_close cb) (cb_error cb)).
Definition setCloseCallback (c : Channel) : Channel :=
  let cb := ch_callbacks c in
  mkChannel (ch_fd c) (ch_events c) (ch_revents c) (ch_index c) (ch_tied c)
    (mkCallbacks (cb_read cb) (cb_write cb) true (cb_error cb)).
Definition setErrorCallback (c : Channel) : Channel :=
  let cb := ch_callbacks c in
  mkChannel (ch_fd c) (ch_events c) (ch_revents c) (ch_index c) (ch_tied c)
    (mkCallbacks (cb_read cb) (cb_write cb) (cb_close cb) true).

Definition tie (c : Channel) : Channel :=
  mkChannel (ch_fd c) (ch_events c) (ch_revents c) (ch_index c) true (ch_callbacks c).
Definition setEvents (e : Z) (c : Channel) : Channel :=
  mkChannel (ch_fd c) e (ch_revents c) (ch_index c) (ch_tied c) (ch_callbacks c).
Definition setRevents (e : Z) (c : Channel) : Channel :=
  mkChannel (ch_fd c) (ch_events c) e (ch_index c) (ch_tied c) (ch_callbacks c).
Definition setIndex (i : Z) (c : Channel) : Channel :=
  mkChannel (ch_fd c) (ch_events c) (ch_revents c) i (ch_tied c) (ch_callbacks c).

Definition isNoneEvent (c : Channel) : bool := bool_decide (ch_events c = kNoneEvent).
Definition isWrite (c : Channel) : bool := bool_decide (Z.land (ch_events c) kWriteEvent <> 0).
Definition isRead (c : Channel) : bool := bool_decide (Z.land (ch_events c) kReadEvent <> 0).

(** The masks the five mutators install before they call [update()]. *)
Inductive mask_op : Type := enableRead | disableRead | enableWrite | disableWrite | disableAll.

Definition mask_of (o : mask_op) (events : Z) : Z :=
  match o with
  | enableRead => Z.lor events kReadEvent
  | disableRead => Z.land events (Z.lnot kReadEvent)
  | enableWrite => Z.lor events kWriteEvent
  | disableWrite => Z.land events (Z.lnot kWriteEvent)
  | disableAll => Z.land events kNoneEvent
  end.

(** ** Dispatch *)

Inductive callback : Type := CloseCb | ErrorCb | ReadCb (receiveTime : Z) | WriteCb.

Definition has_bits (m bits : Z) : bool := bool_decide (Z.land m bits <> 0).

Definition handleEventWithGuard (c : Channel) (receiveTime : Z) : list callback :=
  (if has_bits (ch_revents c) EPOLLHUP && negb (has_bits (ch_revents c) EPOLLIN)
   then if cb_close (ch_callbacks c) then [CloseCb] else [] else []) ++
  (if has_bits (ch_revents c) EPOLLERR
   then if cb_error (ch_callbacks c) then [ErrorCb] else [] else []) ++
  (if has_bits (ch_revents c) (Z.lor EPOLLIN EPOLLPRI)
   then if cb_read (ch_callbacks c) then [ReadCb receiveTime] else [] else []) ++
  (if has_bits (ch_revents c) EPOLLOUT
   then if cb_write (ch_callbacks c) then [WriteCb] else [] else []).

(** [alive]: whether the owner the channel is tied to still exists. *)
Definition handleEvent (c : Channel) (alive : bool) (receiveTime : Z) : list callback :=
  if ch_tied c
  then if alive then handleEventWithGuard c receiveTime else []
  else handleEventWithGuard c receiveTime.

(** ** Facts about masks *)

(** The masks a channel can reach. *)
Definition mask_ok (e : Z) : Prop := e = 0 \/ e = 3 \/ e = 4 \/ e = 7.

Lemma mask_of_ok o e : mask_ok e -> mask_ok (mask_of o e).
Proof. unfold mask_ok. intros [-> | [-> | [-> | ->]]]; destruct o; vm_compute; tauto. Qed.

Lemma write_mask_bits e :
  mask_ok e ->
  has_bits (mask_of enableWrite e) kWriteEvent = true /\
  has_bits (mask_of disableWrite e) kWriteEvent = false /\
  has_bits (mask_of enableWrite e) kReadEvent = has_bits e kReadEvent /\
  has_bits (mask_of disableWrite e) kReadEvent = has_bits e kReadEvent.
Proof. unfold mask_ok. intros [-> | [-> | [-> | ->]]]; vm_compute; tauto. Qed.
