(* ===== verification/EpollPoller.v ===== *)
(** * The poller ([myserver/include/poller.h], [myserver/common/poller.cpp],
      [myserver/include/epoll_poller.h], [myserver/common/epoll_poller.cpp],
      the [update()]/[remove()] members of [Channel])

    The epoll instance is the kernel's: an interface [Epoll] whose laws are the
    documented results of [epoll_ctl].  The state has the channel objects (by
    address), the poller's map from descriptors to channels, and the epoll
    instance.  [LOG_FATAL] aborts the process: the operation throws [abort]. *)

From S2P Require Import Prelude CppInt Sys Channel.

Definition kNew : Z := -1.
Definition kAdded : Z := 1.
Definition kDeleted : Z := 2.
Definition kInitEventListSize : Z := 16.

Inductive epoll_op : Type := EPOLL_CTL_ADD | EPOLL_CTL_MOD | EPOLL_CTL_DEL.

(** An epoll instance: what it watches of a descriptor (the mask and the
    pointer given with it), and [epoll_ctl]. *)
Class Epoll (K : Type) : Type := {
  ep_interest : K -> Z -> option (Z * Z);
  epoll_ctl : K -> epoll_op -> Z -> Z * Z -> K * Z;
}.

(** The manual page: adding a watched descriptor fails with [EEXIST], changing
    or removing one that is not watched with [ENOENT]; a failed call changes
    nothing, a successful one only its descriptor. *)
Class EpollLaws (K : Type) `{Epoll K} : Prop := {
  ctl_add k fd ev : ep_interest k fd = None ->
    exists k', epoll_ctl k EPOLL_CTL_ADD fd ev = (k', 0) /\
      (forall fd', ep_interest k' fd' = if decide (fd' = fd) then Some ev else ep_interest k fd');
  ctl_mod k fd ev old : ep_interest k fd = Some old ->
    exists k', epoll_ctl k EPOLL_CTL_MOD fd ev = (k', 0) /\
      (forall fd', ep_interest k' fd' = if decide (fd' = fd) then Some ev else ep_interest k fd');
  ctl_del k fd ev old : ep_interest k fd = Some old ->
    exists k', epoll_ctl k EPOLL_CTL_DEL fd ev = (k', 0) /\
      (forall fd', ep_interest k' fd' = if decide (fd' = fd) then None else ep_interest k fd');
  ctl_exists k fd ev old : ep_interest k fd = Some old ->
    epoll_ctl k EPOLL_CTL_ADD fd ev = (k, -1);
  ctl_missing k op fd ev : ep_interest k fd = None -> op <> EPOLL_CTL_ADD ->
    epoll_ctl k op fd ev = (k, -1);
}.

(** A concrete kernel: the interest list as a finite map. *)
#[export] Instance gmap_epoll : Epoll (gmap Z (Z * Z)) := {
  ep_interest k fd := k !! fd;
  epoll_ctl k op fd ev :=
    match op, k !! fd with
    | EPOLL_CTL_ADD, None => (<[fd := ev]> k, 0)
    | EPOLL_CTL_MOD, Some _ => (<[fd := ev]> k, 0)
    | EPOLL_CTL_DEL, Some _ => (base.delete fd k, 0)
    | _, _ => (k, -1)
    end;
}.

#[export] Instance gmap_epoll_laws : EpollLaws (gmap Z (Z * Z)).
Proof.
  split; simpl.
  - intros k fd ev ->. eexists. split; [done|]. intros fd'. case_decide; subst; by simplify_map_eq.
  - intros k fd ev old ->. eexists. split; [done|]. intros fd'. case_decide; subst; by simplify_map_eq.
  - intros k fd ev old ->. eexists. split; [done|]. intros fd'. case_decide; subst; by simplify_map_eq.
  - intros k fd ev old ->. done.
  - intros k op fd ev ->. by destruct op.
Qed.

Section epoll_poller.
Context {K : Type} `{Epoll K}.

Record World := mkWorld {
  w_channels : gmap Z Channel;         (* the channel objects by address *)
  m_channels : gmap Z Z;               (* [Poller::m_channels]: descriptor to channel *)
  w_epoll : K;
  m_events_size : Z;
}.

Definition set_channels f w := mkWorld (f (w_channels w)) (m_channels w) (w_epoll w) (m_events_size w).
Definition set_map f w := mkWorld (w_channels w) (f (m_channels w)) (w_epoll w) (m_events_size w).
Definition set_epoll k w := mkWorld (w_channels w) (m_channels w) k (m_events_size w).
Definition set_size n w := mkWorld (w_channels w) (m_channels w) (w_epoll w) n.

Abbreviation M := (M World).

Definition channel_at (p : Z) : M Channel :=
  w ← getS; match w_channels w !! p with Some c => mret c | None => undefined end.
Definition store_channel (p : Z) (c : Channel) : M unit :=
  modify (set_channels (<[p := c]>)).

Definition hasChannel (p : Z) : M bool :=
  c ← channel_at p;
  w ← getS;
  mret (bool_decide (m_channels w !! ch_fd c = Some p)).

(** [EpollPoller::update]: a failed removal is only logged, any other failure is fatal. *)
Definition ep_update (operation : epoll_op) (p : Z) : M unit :=
  c ← channel_at p;
  w ← getS;
  let '(k, r) := epoll_ctl (w_epoll w) operation (ch_fd c) (ch_events c, p) in
  modify (set_epoll k) ;;
  if decide (r < 0)
  then match operation with
       | EPOLL_CTL_DEL => mret tt
       | _ => throwM (ExnNamed "abort")
       end
  else mret tt.

Definition updateChannel (p : Z) : M unit :=
  c ← channel_at p;
  let index := ch_index c in
  if decide (index = kNew \/ index = kDeleted)
  then
    whenM (bool_decide (index = kNew)) (modify (set_map (<[ch_fd c := p]>))) ;;
    store_channel p (setIndex kAdded c) ;;
    ep_update EPOLL_CTL_ADD p
  else if isNoneEvent c
  then ep_update EPOLL_CTL_DEL p ;; store_channel p (setIndex kDeleted c)
  else ep_update EPOLL_CTL_MOD p.

Definition removeChannel (p : Z) : M unit :=
  c ← channel_at p;
  modify (set_map (base.delete (ch_fd c))) ;;
  whenM (bool_decide (ch_index c = kAdded)) (ep_update EPOLL_CTL_DEL p) ;;
  store_channel p (setIndex kNew c).

(** [Channel::enableRead] and its siblings: the mask, then [update()]. *)
Definition change_mask (o : mask_op) (p : Z) : M unit :=
  c ← channel_at p;
  store_channel p (setEvents (mask_of o (ch_events c)) c) ;;
  updateChannel p.

(** [Channel::tie]. *)
Definition tie_channel (p : Z) : M unit :=
  c ← channel_at p; store_channel p (tie c).

(** ** [poll] *)

(** What [epoll_wait] answers: an error, or the ready events (mask, pointer). *)
Inductive wait_reply : Type :=
  | WaitFail (errno : Z)
  | WaitEvents (evs : list (Z * Z)).

(** The loop over [m_events]: it runs [numEvents] (an [int]) times. *)
Fixpoint fillActiveChannels (evs : list (Z * Z)) : M (list Z) :=
  match evs with
  | [] => mret []
  | (revents, p) :: evs' =>
      c ← channel_at p;
      store_channel p (setRevents revents c) ;;
      l ← fillActiveChannels evs';
      mret (p :: l)
  end.

Inductive poll_log : Type := PollTimeout | PollFailed.

(** [numEvents] is a [size_t]: a result of -1 becomes [2^64 - 1]. *)
Definition poll (rep : wait_reply) : M (list Z * list poll_log) :=
  w ← getS;
  let ret := match rep with WaitFail _ => -1 | WaitEvents evs => len evs end in
  let numEvents := u64 ret in
  if decide (numEvents > 0)
  then
    active ← fillActiveChannels
      (take (Z.to_nat (s32 numEvents)) (match rep with WaitEvents evs => evs | _ => [] end));
    whenM (bool_decide (numEvents = m_events_size w)) (modify (set_size (m_events_size w * 2))) ;;
    mret (active, [])
  else if decide (numEvents = 0)
  then mret ([], [PollTimeout])
  else
    mret ([], match rep with
              | WaitFail e => if decide (e <> EINTR) then [PollFailed] else []
              | _ => []
              end).
End epoll_poller.
Arguments World : clear implicits.
Arguments mkWorld {K}.

(** ** Agreement of the channels with the kernel *)

Section agreement.
Context {K : Type} `{EpollLaws K}.
Implicit Types w : World K.

(** The state machine of [m_index], channel by channel. *)
Definition channel_agrees w (p : Z) (c : Channel) : Prop :=
  mask_ok (ch_events c) /\
  (ch_index c = kNew \/
   (ch_index c = kAdded /\ m_channels w !! ch_fd c = Some p /\
    ep_interest (w_epoll w) (ch_fd c) = Some (ch_events c, p)) \/
   (ch_index c = kDeleted /\ m_channels w !! ch_fd c = Some p /\
    ep_interest (w_epoll w) (ch_fd c) = None)).

(** Every channel agrees, and whatever the kernel or the map mention is such a channel. *)
Record agree w : Prop := {
  agree_channel : forall p c, w_channels w !! p = Some c -> channel_agrees w p c;
  agree_map : forall fd p, m_channels w !! fd = Some p ->
    exists c, w_channels w !! p = Some c /\ ch_fd c = fd /\ ch_index c <> kNew;
  agree_kernel : forall fd e p, ep_interest (w_epoll w) fd = Some (e, p) ->
    m_channels w !! fd = Some p;
}.

(** [p] may register: its descriptor belongs to no other registered channel. *)
Definition fd_free w (p : Z) : Prop :=
  forall c, w_channels w !! p = Some c ->
    m_channels w !! ch_fd c = None \/ m_channels w !! ch_fd c = Some p.

Lemma added_is_known w p c :
  agree w -> w_channels w !! p = Some c -> ch_index c = kAdded ->
  m_channels w !! ch_fd c = Some p /\
  ep_interest (w_epoll w) (ch_fd c) = Some (ch_events c, p).
Proof.
  intros Ha Hp Hi. destruct (agree_channel _ Ha _ _ Hp) as (_ & [E|[(_&?&?)|(E&_)]]); [|done|];
    rewrite Hi in E; discriminate.
Qed.

Lemma new_is_unknown w p c :
  agree w -> w_channels w !! p = Some c -> fd_free w p -> ch_index c = kNew ->
  m_channels w !! ch_fd c = None /\ ep_interest (w_epoll w) (ch_fd c) = None.
Proof.
  intros Ha Hp Hf Hi.
  assert (Hm : m_channels w !! ch_fd c = None).
  { destruct (Hf _ Hp) as [E|E]; [done|].
    destruct (agree_map _ Ha _ _ E) as (c' & Hc' & _ & Hn). congruence. }
  split; [done|]. destruct (ep_interest _ _) as [[e q]|] eqn:E; [|done].
  apply (agree_kernel _ Ha) in E. congruence.
Qed.

(** Replacing channel [p] and the entries of its descriptor keeps the agreement. *)
Lemma agree_update w w' p c c' :
  agree w -> w_channels w !! p = Some c -> ch_fd c' = ch_fd c ->
  (forall q, m_channels w !! ch_fd c = Some q -> q = p) ->
  w_channels w' = <[p := c']> (w_channels w) ->
  (forall fd, fd <> ch_fd c -> m_channels w' !! fd = m_channels w !! fd) ->
  (forall fd, fd <> ch_fd c -> ep_interest (w_epoll w') fd = ep_interest (w_epoll w) fd) ->
  channel_agrees w' p c' ->
  (forall q, m_channels w' !! ch_fd c = Some q -> q = p /\ ch_index c' <> kNew) ->
  (forall e q, ep_interest (w_epoll w') (ch_fd c) = Some (e, q) ->
     m_channels w' !! ch_fd c = Some q) ->
  agree w'.
Proof.
  intros Ha Hp Hfd Honly Hch Hm Hk Hc' Hmp Hkp. split.
  - intros q d. rewrite Hch, lookup_insert_Some. intros [[<- <-]|[Hne Hq]]; [done|].
    destruct (agree_channel _ Ha _ _ Hq) as (Hmask & Hst). split; [done|].
    destruct Hst as [E|Hst]; [by left|right].
    assert (Hdf : ch_fd d <> ch_fd c).
    { intros E. apply Hne. symmetry. apply Honly. rewrite <- E. naive_solver. }
    rewrite Hm, Hk by done. done.
  - intros fd q Hq. destruct (decide (fd = ch_fd c)) as [->|Hne].
    + destruct (Hmp _ Hq) as [-> Hn]. exists c'. rewrite Hch, lookup_insert_eq. done.
    + rewrite Hm in Hq by done. destruct (agree_map _ Ha _ _ Hq) as (d & Hd & Hf & Hn).
      exists d. rewrite Hch, lookup_insert_ne; [done|]. intros <-. congruence.
  - intros fd e q Hq. destruct (decide (fd = ch_fd c)) as [->|Hne]; [by eapply Hkp|].
    rewrite Hk in Hq by done. rewrite Hm by done. by eapply agree_kernel.
Qed.

Lemma fd_free_only w p c q :
  fd_free w p -> w_channels w !! p = Some c -> m_channels w !! ch_fd c = Some q -> q = p.
Proof. intros Hf Hp Hq. destruct (Hf _ Hp); congruence. Qed.

(** What an update leaves behind for channel [p]: the mask [m] is watched, or
    nothing is, and other channels are not touched. *)
Definition frame w w' (p fd : Z) : Prop :=
  (forall q, q <> p -> w_channels w' !! q = w_channels w !! q) /\
  (forall fd', fd' <> fd -> ep_interest (w_epoll w') fd' = ep_interest (w_epoll w) fd') /\
  (forall fd', fd' <> fd -> m_channels w' !! fd' = m_channels w !! fd').

Ltac world_simpl :=
  unfold set_channels, set_map, set_epoll, set_size;
  cbn [set_channels set_map set_epoll set_size w_channels m_channels w_epoll m_events_size
       setIndex setEvents ch_fd ch_events ch_index].

(** The states an update of channel [p] ends in. *)
Lemma install w p c c1 mp k' sz :
  agree w -> w_channels w !! p = Some c -> fd_free w p ->
  ch_fd c1 = ch_fd c -> mask_ok (ch_events c1) -> mp !! ch_fd c = Some p ->
  (forall fd, fd <> ch_fd c -> mp !! fd = m_channels w !! fd) ->
  (forall fd, fd <> ch_fd c -> ep_interest k' fd = ep_interest (w_epoll w) fd) ->
  ep_interest k' (ch_fd c) = (if decide (ch_index c1 = kAdded) then Some (ch_events c1, p) else None) ->
  ch_index c1 = kAdded \/ ch_index c1 = kDeleted ->
  let w' := mkWorld (<[p := c1]> (w_channels w)) mp k' sz in
  agree w' /\ frame w w' p (ch_fd c) /\ fd_free w' p.
Proof.
  intros Ha Hp Hfree Hfd Hmask Hmp Hmo Hko Hk Hidx w'. split_and!.
  - eapply (agree_update w w' p c c1); try done; subst w'; world_simpl.
    + intros q. by apply (fd_free_only w).
    + split; [done|]. right. rewrite Hfd. world_simpl. rewrite Hk.
      destruct Hidx as [E|E]; rewrite E; [left|right]; done.
    + intros q Hq. split; [congruence|]. by destruct Hidx as [-> | ->].
    + intros e q. rewrite Hk, Hmp. case_decide; [|done]. by intros [= _ <-].
  - split_and!; subst w'; world_simpl; [|done|done]. intros q Hq. by rewrite lookup_insert_ne.
  - intros d. subst w'; world_simpl. rewrite lookup_insert_eq. intros [= <-]. right.
    by rewrite Hfd.
Qed.

Lemma ep_update_spec w op p c k' :
  w_channels w !! p = Some c ->
  epoll_ctl (w_epoll w) op (ch_fd c) (ch_events c, p) = (k', 0) ->
  wp (ep_update op p) (fun _ w' => w' = set_epoll k' w) w.
Proof.
  intros Hp Hctl. unfold ep_update, channel_at. wp_simpl. rewrite Hp. wp_simpl. rewrite Hctl.
  wp_simpl. done.
Qed.

(** [updateChannel] of a channel whose new mask has been stored. *)
Definition next_index (index m : Z) : Z :=
  if decide (index = kAdded /\ m = 0) then kDeleted else kAdded.

Lemma next_index_cases i m : next_index i m = kAdded \/ next_index i m = kDeleted.
Proof. unfold next_index. destruct (decide _); auto. Qed.

Lemma updateChannel_spec w p c m :
  let w0 := set_channels (<[p := setEvents m c]>) w in
  agree w -> w_channels w !! p = Some c -> fd_free w p -> mask_ok m ->
  wp (updateChannel p)
     (fun _ w' =>
        let c1 := setIndex (next_index (ch_index c) m) (setEvents m c) in
        exists mp k', w' = mkWorld (<[p := c1]> (w_channels w)) mp k' (m_events_size w) /\
        mp !! ch_fd c = Some p /\
        (forall fd, fd <> ch_fd c -> mp !! fd = m_channels w !! fd) /\
        (forall fd, fd <> ch_fd c -> ep_interest k' fd = ep_interest (w_epoll w) fd) /\
        ep_interest k' (ch_fd c) =
          (if decide (ch_index c1 = kAdded) then Some (m, p) else None)) w0.
Proof.
  intros w0 Ha Hp Hfree Hm. unfold next_index.
  assert (Hp0 : w_channels w0 !! p = Some (setEvents m c)) by (subst w0; apply lookup_insert_eq).
  unfold updateChannel, channel_at, store_channel. wp_simpl. rewrite Hp0. wp_simpl. subst w0. world_simpl.
  destruct (agree_channel _ Ha _ _ Hp) as (_ & Hst). case_decide as Hidx.
  - rewrite (decide_False (P := ch_index c = kAdded /\ _)) by (destruct Hidx as [->| ->]; naive_solver).
    assert (Hnone : ep_interest (w_epoll w) (ch_fd c) = None).
    { destruct Hidx as [E|E]; [by eapply new_is_unknown|]. rewrite E in Hst. naive_solver. }
    destruct (ctl_add (w_epoll w) (ch_fd c) (m, p) Hnone) as (k' & Hctl & Hk').
    case_bool_decide as Hnew; wp_simpl.
    all: eapply wp_mono; [eapply ep_update_spec; [apply lookup_insert_eq|exact Hctl]|].
    all: intros [] w' ->; eexists _, k'; split_and!; [by world_simpl; rewrite insert_insert_eq|..|
      by rewrite Hk', !decide_True].
    all: try (by intros fd Hne; rewrite Hk', decide_False).
    + by rewrite lookup_insert_eq.
    + intros fd Hne. by rewrite lookup_insert_ne.
    + destruct Hst as [?|[(?&?&?)|(?&?&?)]]; done.
    + done.
  - assert (Hadd : ch_index c = kAdded /\ m_channels w !! ch_fd c = Some p /\
                   ep_interest (w_epoll w) (ch_fd c) = Some (ch_events c, p)) by naive_solver.
    destruct Hadd as (Hadd & Hmp & Hint). unfold isNoneEvent. world_simpl.
    unfold kNoneEvent. case_bool_decide as Hm0; wp_simpl.
    + rewrite (decide_True (P := ch_index c = kAdded /\ _)) by done.
      destruct (ctl_del (w_epoll w) (ch_fd c) (m, p) _ Hint) as (k' & Hctl & Hk').
      eapply wp_mono; [by eapply ep_update_spec|]. intros [] w' ->. wp_simpl.
      eexists _, k'. split_and!; [by world_simpl; rewrite insert_insert_eq|done|done|..].
      * intros fd Hne. by rewrite Hk', decide_False.
      * by rewrite Hk', decide_True.
    + rewrite (decide_False (P := ch_index c = kAdded /\ _)) by naive_solver.
      destruct (ctl_mod (w_epoll w) (ch_fd c) (m, p) _ Hint) as (k' & Hctl & Hk').
      eapply wp_mono; [by eapply ep_update_spec|]. intros [] w' ->. 
      eexists _, k'. split_and!; [|done|done|..].
      * world_simpl. do 2 f_equal.
        unfold setIndex, setEvents. by rewrite <- Hadd.
      * intros fd Hne. by rewrite Hk', decide_False.
      * by rewrite Hk', !decide_True.
Qed.

Lemma change_mask_spec w p c o :
  agree w -> w_channels w !! p = Some c -> fd_free w p ->
  let m := mask_of o (ch_events c) in
  let c1 := setIndex (next_index (ch_index c) m) (setEvents m c) in
  wp (change_mask o p)
     (fun _ w' => agree w' /\ frame w w' p (ch_fd c) /\ fd_free w' p /\
        w_channels w' !! p = Some c1 /\
        ep_interest (w_epoll w') (ch_fd c) =
          (if decide (ch_index c1 = kAdded) then Some (m, p) else None)) w.
Proof.
  intros Ha Hp Hfree m c1. unfold change_mask, channel_at, store_channel. wp_simpl.
  rewrite Hp. wp_simpl. fold m.
  assert (Hm : mask_ok m) by (apply mask_of_ok, (agree_channel _ Ha _ _ Hp)).
  eapply wp_mono; [by apply updateChannel_spec|].
  intros [] w' (mp & k' & -> & Hmp & Hmo & Hko & Hk). fold c1 in Hk |- *.
  destruct (install w p c c1 mp k' (m_events_size w)) as (H1 & H2 & H3); try done.
  { change (ch_index c1) with (next_index (ch_index c) m). apply next_index_cases. }
  split_and!; [done..| |done]. world_simpl. by rewrite lookup_insert_eq.
Qed.

Lemma removeChannel_spec w p c :
  agree w -> w_channels w !! p = Some c -> fd_free w p ->
  wp (removeChannel p)
     (fun _ w' => agree w' /\ frame w w' p (ch_fd c) /\ fd_free w' p /\
        w_channels w' !! p = Some (setIndex kNew c) /\
        ep_interest (w_epoll w') (ch_fd c) = None) w.
Proof.
  intros Ha Hp Hfree. unfold removeChannel, channel_at, store_channel. wp_simpl. rewrite Hp.
  wp_simpl. pose proof (agree_channel _ Ha _ _ Hp) as (Hmask & Hst).
  assert (Hk : exists k', (ep_interest k' (ch_fd c) = None) /\
    (forall fd, fd <> ch_fd c -> ep_interest k' fd = ep_interest (w_epoll w) fd) /\
    wp (whenM (bool_decide (ch_index c = kAdded)) (ep_update EPOLL_CTL_DEL p))
      (fun _ w' => w' = mkWorld (w_channels w) (base.delete (ch_fd c) (m_channels w)) k' (m_events_size w))
      (set_map (base.delete (ch_fd c)) w)).
  { case_bool_decide as Hi.
    - destruct (added_is_known _ _ _ Ha Hp Hi) as (_ & Hint).
      destruct (ctl_del (w_epoll w) (ch_fd c) (ch_events c, p) _ Hint) as (k' & Hctl & Hk').
      exists k'. split_and!; [by rewrite Hk', decide_True| |].
      + intros fd Hne. by rewrite Hk', decide_False.
      + cbn [whenM]. eapply wp_mono; [by eapply ep_update_spec|]. by intros [] w' ->.
    - exists (w_epoll w). split_and!; [|done|done].
      destruct Hst as [E|[(?&?&?)|(?&?&?)]]; [by eapply new_is_unknown|done|done]. }
  destruct Hk as (k' & Hk & Hko & Hwp). apply (wp_whenM (bool_decide (ch_index c = kAdded))).
  eapply wp_mono; [exact Hwp|]. intros [] w' ->. wp_simpl.
  set (w' := set_channels _ _). split_and!.
  - eapply (agree_update w w' p c (setIndex kNew c)); try done; subst w'; world_simpl.
    + intros q. by apply (fd_free_only w).
    + intros fd Hne. by rewrite lookup_delete_ne.
    + split; [done|by left].
    + intros q. by rewrite lookup_delete_eq.
    + intros e q. by rewrite Hk.
  - split_and!; subst w'; world_simpl; [|done|].
    + intros q Hq. by rewrite lookup_insert_ne.
    + intros fd Hne. by rewrite lookup_delete_ne.
  - intros d. subst w'; world_simpl. rewrite lookup_insert_eq. intros [= <-]. left.
    apply lookup_delete_eq.
  - subst w'; world_simpl. apply lookup_insert_eq.
  - done.
Qed.

(** ** Runs of channel operations *)

Inductive chan_op : Type := CMask (o : mask_op) (p : Z) | CRemove (p : Z).

Definition op_channel (o : chan_op) : Z := match o with CMask _ p | CRemove p => p end.
Definition run_op (o : chan_op) : M (World K) unit :=
  match o with CMask m p => change_mask m p | CRemove p => removeChannel p end.

(** The mask a channel should have after some operations. *)
Definition mask_after (p : Z) (ops : list chan_op) (e : Z) : Z :=
  foldl (fun e o => match o with
                    | CMask m q => if decide (q = p) then mask_of m e else e
                    | CRemove _ => e
                    end) e ops.

(** No two channel objects share a descriptor. *)
Definition fds_distinct w : Prop :=
  forall p q c d, w_channels w !! p = Some c -> w_channels w !! q = Some d ->
    ch_fd c = ch_fd d -> p = q.

Lemma distinct_free w p : agree w -> fds_distinct w -> fd_free w p.
Proof.
  intros Ha Hd c Hc. destruct (m_channels w !! ch_fd c) as [q|] eqn:E; [right|by left].
  destruct (agree_map _ Ha _ _ E) as (d & Hq & Hfd & _). f_equal. by eapply Hd.
Qed.

Lemma run_op_spec w o c :
  agree w -> fds_distinct w -> w_channels w !! op_channel o = Some c ->
  wp (run_op o)
     (fun _ w' => agree w' /\
        (forall p d, w_channels w !! p = Some d -> exists d', w_channels w' !! p = Some d' /\
           ch_fd d' = ch_fd d /\ ch_events d' = mask_after p [o] (ch_events d)) /\
        (forall p d', w_channels w' !! p = Some d' -> is_Some (w_channels w !! p))) w.
Proof.
  intros Ha Hd Hc. pose proof (distinct_free w (op_channel o) Ha Hd) as Hf.
  destruct o as [m p|p]; simpl in *.
  - eapply wp_mono; [by eapply change_mask_spec|].
    intros [] w' (Ha' & (Hch & _) & _ & Hp & _). split_and!; [done|..].
    + intros q d Hq. destruct (decide (p = q)) as [->|Hne].
      * rewrite Hq in Hc. injection Hc as ->. by eexists.
      * exists d. by rewrite Hch.
    + intros q d' Hq. destruct (decide (p = q)) as [->|Hne]; [by eexists|].
      rewrite Hch in Hq by done. by eexists.
  - eapply wp_mono; [by eapply removeChannel_spec|].
    intros [] w' (Ha' & (Hch & _) & _ & Hp & _). split_and!; [done|..].
    + intros q d Hq. destruct (decide (p = q)) as [->|Hne].
      * rewrite Hq in Hc. injection Hc as ->. by eexists.
      * exists d. by rewrite Hch.
    + intros q d' Hq. destruct (decide (p = q)) as [->|Hne]; [by eexists|].
      rewrite Hch in Hq by done. by eexists.
Qed.

(** C7. The poller and the kernel agree: for channels with distinct
    descriptors, any sequence of [enable*]/[disable*]/[disableAll]/[remove]
    runs without a fatal [epoll_ctl] error, gives every channel the mask its
    operations ask for, and at the end the kernel watches exactly the
    channels in state [kAdded], each with its current mask and its own
    address. *)
Theorem poller_agrees w ops :
  agree w -> fds_distinct w -> Forall (fun o => is_Some (w_channels w !! op_channel o)) ops ->
  wp (forM ops run_op)
     (fun _ w' => agree w' /\
        (forall p c, w_channels w !! p = Some c -> exists c', w_channels w' !! p = Some c' /\
           ch_fd c' = ch_fd c /\ ch_events c' = mask_after p ops (ch_events c) /\
           (ep_interest (w_epoll w') (ch_fd c) =
              if decide (ch_index c' = kAdded) then Some (ch_events c', p) else None)) /\
        (forall fd e p, ep_interest (w_epoll w') fd = Some (e, p) ->
           exists c', w_channels w' !! p = Some c' /\ ch_fd c' = fd /\ ch_index c' = kAdded)) w.
Proof.
  intros Ha Hd Hops.
  eapply (wp_mono _ (fun _ w' => agree w' /\ fds_distinct w' /\
    forall p c, w_channels w !! p = Some c -> exists c', w_channels w' !! p = Some c' /\
      ch_fd c' = ch_fd c /\ ch_events c' = mask_after p ops (ch_events c))).
  - revert w Ha Hd Hops. induction ops as [|o ops IH]; intros w Ha Hd Hops; simpl.
    + wp_simpl. split_and!; [done|done|]. intros p c Hc. by exists c.
    + apply Forall_cons in Hops as [[c Hc] Hops]. wp_simpl.
      eapply wp_mono; [by eapply run_op_spec|]. intros [] w1 (Ha1 & Hk1 & Hb1).
      eapply wp_mono; [apply IH; [done|..]|].
      * intros p q c1 d1 Hp Hq E. destruct (Hb1 _ _ Hp) as [c0 Hp0], (Hb1 _ _ Hq) as [d0 Hq0].
        destruct (Hk1 _ _ Hp0) as (? & ? & ? & _), (Hk1 _ _ Hq0) as (? & ? & ? & _).
        eapply Hd; [done|done|congruence].
      * eapply Forall_impl; [exact Hops|]. intros o' [d Hd']. destruct (Hk1 _ _ Hd') as (? & ? & _).
        by eexists.
      * intros [] w2 (Ha2 & Hd2 & Hk2). split_and!; [done|done|]. intros p d Hp.
        destruct (Hk1 _ _ Hp) as (d1 & Hp1 & Hf1 & He1). destruct (Hk2 _ _ Hp1) as (d2 & Hp2 & Hf2 & He2).
        exists d2. split_and!; [done|congruence|]. by rewrite He2, He1.
  - intros [] w' (Ha' & Hd' & Hk). split_and!; [done|..].
    + intros p c Hc. destruct (Hk _ _ Hc) as (c' & Hc' & Hf & He). exists c'. split_and!; [done..|].
      rewrite <- Hf. case_decide as Hi; [by apply added_is_known|].
      destruct (agree_channel _ Ha' _ _ Hc') as (_ & [Hn|[(?&_)|(_&_&?)]]); [|done|done].
      apply (new_is_unknown w' p c'); [done..|by apply distinct_free|done].
    + intros fd e p He. pose proof (agree_kernel _ Ha' _ _ _ He) as Hm.
      destruct (agree_map _ Ha' _ _ Hm) as (c' & Hc' & Hf & Hn). exists c'. split_and!; [done..|].
      destruct (agree_channel _ Ha' _ _ Hc') as (_ & [?|[(?&_)|(_&_&Hnone)]]); [done|done|].
      rewrite Hf, He in Hnone. done.
Qed.

(** ** Polling *)

Definition same_registration w w' : Prop :=
  m_channels w' = m_channels w /\ w_epoll w' = w_epoll w /\
  forall p c', w_channels w' !! p = Some c' -> exists c, w_channels w !! p = Some c /\
    ch_fd c' = ch_fd c /\ ch_events c' = ch_events c /\ ch_index c' = ch_index c.

Lemma fillActiveChannels_spec w evs :
  Forall (fun ev => is_Some (w_channels w !! ev.2)) evs ->
  wp (fillActiveChannels evs)
     (fun l w' => l = evs.*2 /\ same_registration w w' /\
        m_events_size w' = m_events_size w /\
        (forall p c, w_channels w !! p = Some c -> exists c', w_channels w' !! p = Some c') /\
        (NoDup evs.*2 -> forall r p, (r, p) ∈ evs ->
           exists c', w_channels w' !! p = Some c' /\ ch_revents c' = r) /\
        (forall p, p ∉ evs.*2 -> w_channels w' !! p = w_channels w !! p)) w.
Proof.
  revert w. induction evs as [|[r p] evs IH]; intros w Hall; simpl.
  - wp_simpl. split_and!; [done| |done|by eauto|by intros _ ? ? ?%not_elem_of_nil|done].
    split_and!; [done|done|]. intros p c' Hc. by exists c'.
  - apply Forall_cons in Hall as [[c Hc] Hall]. simpl in Hc. unfold channel_at, store_channel.
    wp_simpl. rewrite Hc. wp_simpl.
    eapply wp_mono; [apply IH|].
    + eapply Forall_impl; [exact Hall|]. intros [r' q] [d Hd]. simpl in *.
      destruct (decide (q = p)) as [->|]; [rewrite lookup_insert_eq|rewrite lookup_insert_ne by done]; by eexists.
    + intros l w' (-> & (Hm & Hk & Hreg) & Hsz & Hkeep & Hrev & Hoth). wp_simpl. split_and!; [done|..].
      * split_and!; [done|done|]. intros q d Hq. destruct (Hreg _ _ Hq) as (d0 & Hd0 & ?).
        cbn in Hd0. rewrite lookup_insert_Some in Hd0. destruct Hd0 as [[<- <-]|[_ Hd0]]; eauto.
      * done.
      * intros q d Hq. destruct (decide (q = p)) as [->|].
        -- eapply Hkeep. by apply lookup_insert_eq.
        -- eapply Hkeep. cbn. by rewrite lookup_insert_ne.
      * rewrite NoDup_cons. intros [Hn Hnd] r' q. intros [[= -> ->]|Hin]%elem_of_cons; [|by apply Hrev].
        exists (setRevents r c). rewrite Hoth by done. cbn. by rewrite lookup_insert_eq.
      * intros q [Hq1 Hq2]%not_elem_of_cons. rewrite Hoth by done. cbn. by rewrite lookup_insert_ne.
Qed.

Lemma same_registration_agree w w' : same_registration w w' -> 
  (forall p c, w_channels w !! p = Some c -> exists c', w_channels w' !! p = Some c') ->
  agree w -> agree w'.
Proof.
  intros (Hm & Hk & Hreg) Hkeep Ha. split.
  - intros p c' Hc'. destruct (Hreg _ _ Hc') as (c & Hc & Hf & He & Hi).
    unfold channel_agrees. rewrite Hf, He, Hi, Hm, Hk. by apply (agree_channel _ Ha).
  - intros fd p. rewrite Hm. intros Hp. destruct (agree_map _ Ha _ _ Hp) as (c & Hc & Hf & Hi).
    destruct (Hkeep _ _ Hc) as [c' Hc']. exists c'. destruct (Hreg _ _ Hc') as (c0 & Hc0 & ? & ? & ?).
    rewrite Hc in Hc0. injection Hc0 as <-. split_and!; [done|congruence|congruence].
  - intros fd e p. rewrite Hk, Hm. by apply agree_kernel.
Qed.

(** [poll] delivers exactly the channels the kernel reports, in its order,
    with the reported events, never dereferences a dangling pointer as long as
    the kernel reports what it was given, keeps the agreement, and doubles the
    event array when it was full; a failing [epoll_wait] returns no channel
    and, [numEvents] being unsigned, logs nothing whatever the error. *)
Theorem poll_reports w rep :
  agree w -> 0 < m_events_size w < 2 ^ 31 ->
  match rep with
  | WaitFail _ => True
  | WaitEvents evs => len evs <= m_events_size w /\ NoDup evs.*2 /\
      Forall (fun ev => exists fd e, ep_interest (w_epoll w) fd = Some (e, ev.2)) evs
  end ->
  wp (poll rep)
     (fun r w' => agree w' /\
        match rep with
        | WaitFail _ => r = ([], []) /\ w' = w
        | WaitEvents evs =>
            r = (evs.*2, if decide (evs = []) then [PollTimeout] else []) /\
            (forall e p, (e, p) ∈ evs ->
               exists c', w_channels w' !! p = Some c' /\ ch_revents c' = e) /\
            m_events_size w' = (if decide (len evs = m_events_size w)
                                then m_events_size w * 2 else m_events_size w)
        end) w.
Proof.
  intros Ha Hsz Hrep. unfold poll. wp_simpl. destruct rep as [e|evs].
  - change (u64 (-1)) with (2 ^ 64 - 1). rewrite decide_True by lia.
    change (s32 (2 ^ 64 - 1)) with (-1). simpl fillActiveChannels. wp_simpl.
    rewrite bool_decide_eq_false_2 by lia. done.
  - destruct Hrep as (Hlen & Hnd & Hall). rewrite u64_small by lia.
    case_decide as Hpos.
    + rewrite s32_small, Nat2Z.id, take_ge by lia. wp_simpl.
      eapply wp_mono; [apply fillActiveChannels_spec|].
      { eapply Forall_impl; [exact Hall|]. intros [r p] (fd & e & He). simpl in *.
        destruct (agree_map _ Ha _ _ (agree_kernel _ Ha _ _ _ He)) as (c & ? & _). by eexists. }
      intros l w' (-> & Hreg & Hs & Hkeep & Hrev & _).
      pose proof (same_registration_agree _ _ Hreg Hkeep Ha) as Ha'.
      rewrite (decide_False (P := evs = [])) by (intros ->; simpl in Hpos; lia).
      wp_simpl. case_bool_decide as Hfull; wp_simpl.
      * rewrite decide_True by done. split_and!; [|done|by apply Hrev|done].
        destruct Ha' as [H1 H2 H3]. split; done.
      * rewrite decide_False by done. split_and!; [done|done|by apply Hrev|done].
    + assert (evs = []) as -> by (destruct evs; [done|simpl in Hpos; lia]).
      rewrite (decide_True (P := len [] = 0)) by done. wp_simpl. cbn [length].
      rewrite (decide_True (P := [] = [])), (decide_False (P := _ = m_events_size w)) by (done || lia).
      split_and!; [done|done| |done]. intros e p He. by apply not_elem_of_nil in He.
Qed.

(** A channel whose interest is dropped twice is watched again: the second
    [disableAll] of a registered channel finds it in state [kDeleted] and
    registers it with an empty mask, under which the kernel still reports
    errors and hang-ups. *)
Theorem disableAll_twice_registers w p c :
  agree w -> fds_distinct w -> w_channels w !! p = Some c -> ch_index c = kAdded ->
  wp (change_mask disableAll p)
     (fun _ w1 => ep_interest (w_epoll w1) (ch_fd c) = None /\
        wp (change_mask disableAll p)
           (fun _ w2 => ep_interest (w_epoll w2) (ch_fd c) = Some (0, p)) w1) w.
Proof.
  intros Ha Hd Hp Hi. assert (Hz : forall e, mask_of disableAll e = 0) by (intros e; apply Z.land_0_r).
  eapply wp_mono; [apply change_mask_spec; [done|done|by apply distinct_free]|].
  intros [] w1 (Ha1 & _ & Hf1 & Hp1 & Hk1). rewrite Hz, Hi in *. split; [done|].
  eapply wp_mono; [by eapply change_mask_spec|].
  intros [] w2 (_ & _ & _ & _ & Hk2). rewrite Hz in Hk2. exact Hk2.
Qed.
End agreement.

(** ** A concrete poller with one registered and one new channel *)

Definition demo_channel : Channel :=
  mkChannel 7 3 0 kAdded false (mkCallbacks true false false false).
Definition demo_world : World (gmap Z (Z * Z)) :=
  mkWorld {[100 := demo_channel; 200 := Channel_new 8]} {[7 := 100]} {[7 := (3, 100)]}
    kInitEventListSize.

Lemma demo_lookup p c :
  w_channels demo_world !! p = Some c ->
  (p = 100 /\ c = demo_channel) \/ (p = 200 /\ c = Channel_new 8).
Proof.
  cbn. rewrite lookup_insert_Some. intros [[<- <-]|[_ Hp]]; [by left|right].
  apply lookup_singleton_Some in Hp. naive_solver.
Qed.

Lemma demo_agree : agree demo_world.
Proof.
  split.
  - intros p c [[-> ->]|[-> ->]]%demo_lookup; (split; [unfold mask_ok; cbn; tauto|]).
    + right. left. split_and!; reflexivity.
    + by left.
  - intros fd p Hp. cbn in Hp. apply lookup_singleton_Some in Hp as [<- <-].
    exists demo_channel. split_and!; [reflexivity|done|discriminate].
  - intros fd e p Hp. cbn in Hp. apply lookup_singleton_Some in Hp as [<- [= <- <-]]. reflexivity.
Qed.

Lemma demo_distinct : fds_distinct demo_world.
Proof.
  intros p q c d [[-> ->]|[-> ->]]%demo_lookup [[-> ->]|[-> ->]]%demo_lookup E; done.
Qed.

Definition demo_ops : list chan_op :=
  [CMask enableRead 200; CMask enableWrite 100; CMask disableAll 200; CMask disableRead 100;
   CRemove 200].

Lemma poller_agrees_witness :
  wp (forM demo_ops run_op)
     (fun _ w' => agree w' /\
        exists c', w_channels w' !! 100 = Some c' /\ ch_events c' = 4) demo_world /\
  match forM demo_ops run_op demo_world with
  | Ok (_, w') => map_to_list (w_epoll w') = [(7, (4, 100))]
  | _ => False
  end.
Proof.
  split; [|vm_compute; reflexivity].
  eapply wp_mono; [apply (poller_agrees demo_world demo_ops demo_agree demo_distinct)|].
  - repeat constructor; by eexists.
  - intros [] w' (Ha & Hk & _). split; [exact Ha|].
    destruct (Hk 100 demo_channel) as (c1 & Hc1 & _ & He1 & _); [reflexivity|].
    exists c1. split; [exact Hc1|exact He1].
Defined.

Lemma poll_reports_witness :
  wp (poll (WaitEvents [(16, 100)]))
     (fun r w' => agree w' /\ r = ([100], [])) demo_world.
Proof.
  eapply wp_mono; [apply (poll_reports demo_world (WaitEvents [(16, 100)]) demo_agree)|].
  - vm_compute. split; reflexivity.
  - split_and!; [vm_compute; discriminate|apply (bool_decide_unpack _); vm_compute; exact I|].
    constructor; [|constructor]. exists 7, 3. reflexivity.
  - intros r w' (Ha & Hr & _). split; [exact Ha|exact Hr].
Defined.

Lemma disableAll_twice_registers_witness :
  wp (change_mask disableAll 100)
     (fun _ w1 => ep_interest (w_epoll w1) 7 = None /\
        wp (change_mask disableAll 100)
           (fun _ w2 => ep_interest (w_epoll w2) 7 = Some (0, 100)) w1) demo_world.
Proof.
  apply (disableAll_twice_registers demo_world 100 demo_channel demo_agree demo_distinct);
    reflexivity.
Defined.

(** ** The interface the connections use

    A channel of a poller as its owner sees it: the mask it asked for, the
    mask the kernel watches, and operations that keep the two together. *)

Class ChannelIface (W : Type) : Type := {
  ci_ok : W -> Z -> Prop;
  ci_mask : W -> Z -> Z;
  ci_watched : W -> Z -> option Z;
  ci_change : mask_op -> Z -> M W unit;
  ci_remove : Z -> M W unit;
  ci_tie : Z -> M W unit;
}.

Class ChannelLaws (W : Type) `{ChannelIface W} : Prop := {
  ci_mask_ok w p : ci_ok w p -> mask_ok (ci_mask w p);
  ci_change_spec w p o : ci_ok w p ->
    wp (ci_change o p)
       (fun _ w' => ci_ok w' p /\ ci_mask w' p = mask_of o (ci_mask w p) /\
          (mask_of o (ci_mask w p) <> 0 ->
             ci_watched w' p = Some (mask_of o (ci_mask w p))) /\
          (ci_watched w p = Some (ci_mask w p) -> mask_of o (ci_mask w p) = 0 ->
             ci_watched w' p = None)) w;
  ci_remove_spec w p : ci_ok w p ->
    wp (ci_remove p)
       (fun _ w' => ci_ok w' p /\ ci_mask w' p = ci_mask w p /\ ci_watched w' p = None) w;
  ci_tie_spec w p : ci_ok w p ->
    wp (ci_tie p)
       (fun _ w' => ci_ok w' p /\ ci_mask w' p = ci_mask w p /\ ci_watched w' p = ci_watched w p) w;
}.

Section poller_interface.
Context {K : Type} `{EpollLaws K}.

#[export] Instance poller_channel : ChannelIface (World K) := {
  ci_ok w p := agree w /\ fd_free w p /\ is_Some (w_channels w !! p);
  ci_mask w p := match w_channels w !! p with Some c => ch_events c | None => 0 end;
  ci_watched w p :=
    match w_channels w !! p with
    | Some c => match ep_interest (w_epoll w) (ch_fd c) with
                | Some (e, q) => if decide (q = p) then Some e else None
                | None => None
                end
    | None => None
    end;
  ci_change := change_mask;
  ci_remove := removeChannel;
  ci_tie := tie_channel;
}.

#[export] Instance poller_channel_laws : ChannelLaws (World K).
Proof.
  split; simpl.
  - intros w p (Ha & _ & [c Hc]). rewrite Hc. exact (proj1 (agree_channel _ Ha _ _ Hc)).
  - intros w p o (Ha & Hf & [c Hc]). rewrite Hc.
    eapply wp_mono; [by eapply change_mask_spec|].
    intros [] w' (Ha' & _ & Hf' & Hc' & Hk'). rewrite Hc'.
    change (ch_fd (setIndex _ _)) with (ch_fd c). rewrite Hk'.
    split_and!; [done|done|by eexists|done|..].
    + intros Hm. rewrite decide_True; [by rewrite decide_True|].
      unfold setIndex, next_index. cbn. by rewrite decide_False by naive_solver.
    + intros Hw Hm. assert (Hi : ch_index c = kAdded).
      { revert Hw; destruct (ep_interest (w_epoll w) (ch_fd c)) as [[e q]|] eqn:E; [intros Hw|done].
        destruct (agree_channel _ Ha _ _ Hc) as (_ & [Hn|[(?&_)|(_&_&?)]]); [|done|congruence].
        destruct (new_is_unknown _ _ _ Ha Hc Hf Hn). congruence. }
      rewrite decide_False; [done|]. unfold setIndex, next_index. cbn.
      by rewrite decide_True.
  - intros w p (Ha & Hf & [c Hc]). rewrite Hc.
    eapply wp_mono; [by eapply removeChannel_spec|].
    intros [] w' (Ha' & _ & Hf' & Hc' & Hk'). rewrite Hc'.
    change (ch_fd (setIndex _ _)) with (ch_fd c). rewrite Hk'. split_and!; [done|done|by eexists|done|done].
  - intros w p (Ha & Hf & [c Hc]). unfold tie_channel, channel_at, store_channel. wp_simpl.
    rewrite Hc. wp_simpl. cbn. rewrite lookup_insert_eq. split_and!; [..|done|done].
    + eapply same_registration_agree; [|..|exact Ha].
      * split_and!; [done|done|]. intros q d. cbn. rewrite lookup_insert_Some.
        intros [[<- <-]|[_ Hq]]; eauto.
      * intros q d Hq. cbn. destruct (decide (q = p)) as [->|];
          [rewrite lookup_insert_eq|rewrite lookup_insert_ne by done]; by eexists.
    + intros d. cbn. rewrite lookup_insert_eq. intros [= <-]. exact (Hf c Hc).
    + by eexists.
Qed.
End poller_interface.
