(* ===== verification/TcpConnection.v ===== *)
(** * Connections ([myserver/include/tcp_connection.h], [myserver/net/tcp_connection.cpp])

    The world of one connection: the object itself, the poller its channel is
    registered with (through [ChannelIface]), its socket, the functors queued
    for it in its loop, and the memory of the strings callers pass by
    reference.  User callbacks act on the connection from the loop's thread; what
    they do is an argument ([list uact]).  Replies of the kernel are arguments. *)

From S2P Require Import Prelude CppInt Sys Buffer Channel EpollPoller.

Inductive StateE : Type := kDisconnected | kConnecting | kConnected | kDisconnecting.

#[export] Instance StateE_eq_dec : EqDecision StateE.
Proof. solve_decision. Defined.

Record Conn := mkConn {
  c_state : StateE;
  c_reading : bool;
  c_writeComplete : bool;      (* whether the callback is set *)
  c_highWater : bool;
  c_highWaterMark : Z;
  c_input : Buffer;
  c_output : Buffer;
}.

(** The kernel's end: the bytes it accepted from us, and whether we sent FIN. *)
Record Socket := mkSocket {
  s_wire : bytes;
  s_eof : bool;
}.

(** Functors of this connection in the loop's queue.  [FSendRef p n] holds the
    pointer and the length that [send(const std::string&)] binds. *)
Inductive functor : Type :=
  | FSendRef (p : Z) (n : Z)
  | FSend (data : bytes)
  | FShutdown
  | FWriteComplete
  | FHighWater (n : Z)
  | FDestroyed.

Inductive tevent : Type :=
  | EvConnection (up : bool)
  | EvMessage (receiveTime : Z)
  | EvClose
  | EvWriteComplete
  | EvHighWater (n : Z)
  | EvError (what : string).

Section tcp_connection.
Context {P : Type} `{ChannelIface P}.
(** The address of the connection's channel. *)
Context (ch : Z).

Record TW := mkTW {
  t_conn : Conn;
  t_poll : P;
  t_sock : Socket;
  t_pending : list functor;
  t_mem : gmap Z bytes;
  t_trace : list tevent;
}.

Definition on_conn (f : Conn -> Conn) (w : TW) : TW :=
  mkTW (f (t_conn w)) (t_poll w) (t_sock w) (t_pending w) (t_mem w) (t_trace w).
Definition on_poll (p : P) (w : TW) : TW :=
  mkTW (t_conn w) p (t_sock w) (t_pending w) (t_mem w) (t_trace w).
Definition on_sock (f : Socket -> Socket) (w : TW) : TW :=
  mkTW (t_conn w) (t_poll w) (f (t_sock w)) (t_pending w) (t_mem w) (t_trace w).
Definition on_pending (f : list functor -> list functor) (w : TW) : TW :=
  mkTW (t_conn w) (t_poll w) (t_sock w) (f (t_pending w)) (t_mem w) (t_trace w).
Definition on_mem (f : gmap Z bytes -> gmap Z bytes) (w : TW) : TW :=
  mkTW (t_conn w) (t_poll w) (t_sock w) (t_pending w) (f (t_mem w)) (t_trace w).
Definition on_trace (f : list tevent -> list tevent) (w : TW) : TW :=
  mkTW (t_conn w) (t_poll w) (t_sock w) (t_pending w) (t_mem w) (f (t_trace w)).

Definition c_setState (s : StateE) (c : Conn) : Conn :=
  mkConn s (c_reading c) (c_writeComplete c) (c_highWater c) (c_highWaterMark c)
    (c_input c) (c_output c).
Definition c_setInput (b : Buffer) (c : Conn) : Conn :=
  mkConn (c_state c) (c_reading c) (c_writeComplete c) (c_highWater c) (c_highWaterMark c)
    b (c_output c).
Definition c_setOutput (b : Buffer) (c : Conn) : Conn :=
  mkConn (c_state c) (c_reading c) (c_writeComplete c) (c_highWater c) (c_highWaterMark c)
    (c_input c) b.

Abbreviation M := (M TW).

Definition setState (s : StateE) : M unit := modify (on_conn (c_setState s)).
Definition poll_op {A} (m : Prelude.M P A) : M A := zoom t_poll on_poll m.
Definition with_input {A} (m : Prelude.M Buffer A) : M A :=
  zoom (fun w => c_input (t_conn w)) (fun b => on_conn (c_setInput b)) m.
Definition with_output {A} (m : Prelude.M Buffer A) : M A :=
  zoom (fun w => c_output (t_conn w)) (fun b => on_conn (c_setOutput b)) m.
Definition emit (e : tevent) : M unit := modify (on_trace (fun l => l ++ [e])).
Definition queueInLoop (f : functor) : M unit := modify (on_pending (fun l => l ++ [f])).
Definition channel_isWrite (w : TW) : bool := has_bits (ci_mask (t_poll w) ch) kWriteEvent.

(** The constructor: a fresh connection in state [kConnecting]. *)
Definition TcpConnection_new (writeComplete highWater : bool) (poll : P) (mem : gmap Z bytes) :
    outcome TW :=
  i ← Buffer_new kInitialSize; o ← Buffer_new kInitialSize;
  Ok (mkTW (mkConn kConnecting true writeComplete highWater (64 * 1024 * 1024) i o)
        poll (mkSocket [] false) [] mem []).

(** ** The socket: after FIN a write fails with [EPIPE]. *)
Definition sock_reply (rep : wreply) (s : Socket) : wreply :=
  if s_eof s then WFail EPIPE else rep.
Definition wire_add (d : bytes) (s : Socket) : Socket := mkSocket (s_wire s ++ d) (s_eof s).
Definition shutdownWrite : M unit := modify (on_sock (fun s => mkSocket (s_wire s) true)).

Definition sock_write (rep : wreply) (data : bytes) : M (Z * option Z) :=
  w ← getS;
  let '(n, e, sent) := kwrite (sock_reply rep (t_sock w)) data in
  modify (on_sock (wire_add sent)) ;;
  mret (n, e).

(** ** Sending *)

Definition fault_errno (e : Z) : bool :=
  bool_decide (e <> EWOULDBLOCK) && bool_decide (e = EPIPE \/ e = ECONNRESET).

(** The direct write: bytes written, bytes remaining, [faultError]. *)
Definition try_write (rep : wreply) (data : bytes) : M (Z * Z * bool) :=
  w ← getS;
  if negb (channel_isWrite w) && bool_decide (readableBytes (c_output (t_conn w)) = 0)
  then
    '(nwrote, err) ← sock_write rep data;
    if decide (nwrote >= 0)
    then
      let remaining := u64 (len data - nwrote) in
      whenM (bool_decide (remaining = 0) && c_writeComplete (t_conn w)) (queueInLoop FWriteComplete) ;;
      mret (nwrote, remaining, false)
    else
      let e := default 0 err in
      whenM (bool_decide (e <> EWOULDBLOCK)) (emit (EvError "TcpConnection::sendInLoop")) ;;
      mret (0, len data, fault_errno e)
  else mret (0, len data, false).

Definition sendInLoop (data : bytes) (rep : wreply) : M unit :=
  w ← getS;
  if decide (c_state (t_conn w) = kDisconnected)
  then emit (EvError "disconnected, give up write")
  else
    '(nwrote, remaining, faultError) ← try_write rep data;
    if negb faultError && bool_decide (remaining > 0)
    then
      w ← getS;
      let oldLen := readableBytes (c_output (t_conn w)) in
      let hwm := c_highWaterMark (t_conn w) in
      whenM (bool_decide (u64 (oldLen + remaining) >= hwm) && bool_decide (oldLen < hwm) &&
             c_highWater (t_conn w))
        (queueInLoop (FHighWater (u64 (oldLen + remaining)))) ;;
      with_output (append (take (Z.to_nat remaining) (drop (Z.to_nat nwrote) data))) ;;
      w ← getS;
      whenM (negb (channel_isWrite w)) (poll_op (ci_change enableWrite ch))
    else mret tt.

(** The bytes of a string passed by reference. *)
Definition load (p n : Z) : M bytes :=
  w ← getS;
  match t_mem w !! p with
  | Some d => if decide (n <= len d) then mret (take (Z.to_nat n) d) else undefined
  | None => undefined
  end.

(** [if (m_state == kConnected)], which [send] and [shutdown] begin with.  In another
    thread the loop may run between this check and what follows it, so that the two
    parts are definitions of their own. *)
Definition connected : M bool := w ← getS; mret (bool_decide (c_state (t_conn w) = kConnected)).

(** [send(const std::string&)]: another thread queues the pointer. *)
Definition send_string_act (inLoopThread : bool) (p : Z) (rep : wreply) : M unit :=
  w ← getS;
  match t_mem w !! p with
  | Some d =>
      if inLoopThread then d' ← load p (len d); sendInLoop d' rep
      else queueInLoop (FSendRef p (len d))
  | None => undefined
  end.
Definition send_string (inLoopThread : bool) (p : Z) (rep : wreply) : M unit :=
  b ← connected; whenM b (send_string_act inLoopThread p rep).

(** [send] of a [Buffer] pointer: the buffer is the caller's and is returned. *)
Definition send_buffer_act (inLoopThread : bool) (b : Buffer) (rep : wreply) : M Buffer :=
  if inLoopThread
  then
    d ← liftO (vec_read (m_buffer b) (peek b) (readableBytes b));
    sendInLoop d rep ;;
    '(_, b') ← liftO (retrieveAll b);
    mret b'
  else
    '(s, b') ← liftO (retrieveAllAsString b);
    queueInLoop (FSend s) ;;
    mret b'.
Definition send_buffer (inLoopThread : bool) (b : Buffer) (rep : wreply) : M Buffer :=
  c ← connected; if c : bool then send_buffer_act inLoopThread b rep else mret b.

(** ** Shutting down *)

Definition shutdownInLoop : M unit :=
  w ← getS; whenM (negb (channel_isWrite w)) shutdownWrite.

(** After the check: the assignment of [m_state], and [runInLoop]. *)
Definition shutdown_set : M unit := setState kDisconnecting.
Definition shutdown_act (inLoopThread : bool) : M unit :=
  if inLoopThread then shutdownInLoop else queueInLoop FShutdown.
Definition shutdown (inLoopThread : bool) : M unit :=
  b ← connected; whenM b (shutdown_set ;; shutdown_act inLoopThread).

(** ** User callbacks *)

(** What another thread does after a check that has succeeded at some time before. *)
Inductive oact : Type :=
  | XSend (p : Z) (d : bytes)     (* the string [d] at address [p] *)
  | XSendBuffer (b : Buffer)
  | XShutdownSet
  | XShutdownAct.

(** The two parts of [shutdown] come after the check and after each other, so the
    first finds the connection connected or later, and the second finds it
    disconnecting or later.  An assignment that finds it closed is the race of
    [shutdown_race_revives] below and is not part of these runs. *)
Definition run_oact (o : oact) : M unit :=
  match o with
  | XSend p _ => send_string_act false p (WAccept 0)
  | XSendBuffer b => send_buffer_act false b (WAccept 0) ;; mret tt
  | XShutdownSet =>
      w ← getS;
      whenM (bool_decide (c_state (t_conn w) = kConnected \/ c_state (t_conn w) = kDisconnecting)) shutdown_set
  | XShutdownAct =>
      w ← getS;
      whenM (bool_decide (c_state (t_conn w) = kDisconnecting \/ c_state (t_conn w) = kDisconnected)) (shutdown_act false)
  end.

(** [UOther]: another thread comes between two calls of the callback. *)
Inductive uact : Type :=
  | USend (data : bytes) (rep : wreply)
  | UShutdown
  | UConsume (n : Z)
  | UOther (o : oact).

Definition run_uact (a : uact) : M unit :=
  match a with
  | USend d rep =>
      w ← getS;
      if decide (c_state (t_conn w) = kConnected) then sendInLoop d rep else mret tt
  | UShutdown => shutdown true
  | UConsume n => with_input (retrieve n)
  | UOther o => run_oact o
  end.

Definition run_user (acts : list uact) : M unit := forM acts run_uact.

(** ** Life cycle *)

Definition connectEstablished (acts : list uact) : M unit :=
  setState kConnected ;;
  poll_op (ci_tie ch) ;;
  poll_op (ci_change enableRead ch) ;;
  emit (EvConnection true) ;;
  run_user acts.

Definition connectDestroyed (acts : list uact) : M unit :=
  w ← getS;
  whenM (bool_decide (c_state (t_conn w) = kConnected))
    (setState kDisconnected ;;
     poll_op (ci_change disableAll ch) ;;
     emit (EvConnection false) ;;
     run_user acts) ;;
  poll_op (ci_remove ch).

(** ** Events *)

Definition handleClose (acts : list uact) : M unit :=
  setState kDisconnected ;;
  poll_op (ci_change disableAll ch) ;;
  emit (EvConnection false) ;;
  run_user acts ;;
  emit EvClose.

Definition handleError : M unit := emit (EvError "Tcpconnection::handleError").

Definition handleRead (receiveTime : Z) (rep : rreply) (acts : list uact) : M unit :=
  '(n, _) ← with_input (readFd rep);
  if decide (n > 0) then emit (EvMessage receiveTime) ;; run_user acts
  else if decide (n = 0) then handleClose acts
  else emit (EvError "TcpConnection::handleRead failed") ;; handleError.

Definition handleWrite (rep : wreply) : M unit :=
  w ← getS;
  if channel_isWrite w
  then
    '(n, _, sent) ← with_output (writeFd (sock_reply rep (t_sock w)));
    modify (on_sock (wire_add sent)) ;;
    if decide (n > 0)
    then
      with_output (retrieve n) ;;
      w ← getS;
      if decide (readableBytes (c_output (t_conn w)) = 0)
      then
        poll_op (ci_change disableWrite ch) ;;
        whenM (c_writeComplete (t_conn w)) (queueInLoop FWriteComplete) ;;
        whenM (bool_decide (c_state (t_conn w) = kDisconnecting)) shutdownInLoop
      else mret tt
    else emit (EvError "TcpConnection:;handleWrite fail")
  else emit (EvError "TcpConnection is down, no more write").

(** What the channel's dispatch calls. *)
Definition run_callback (rrep : rreply) (wrep : wreply) (acts : list uact) (c : callback) : M unit :=
  match c with
  | CloseCb => handleClose acts
  | ErrorCb => handleError
  | ReadCb t => handleRead t rrep acts
  | WriteCb => handleWrite wrep
  end.

(** The loop runs the first functor of the queue. *)
Definition run_functor (rep : wreply) (acts : list uact) : M unit :=
  w ← getS;
  match t_pending w with
  | [] => mret tt
  | f :: _ =>
      modify (on_pending tail) ;;
      match f with
      | FSendRef p n => d ← load p n; sendInLoop d rep
      | FSend d => sendInLoop d rep
      | FShutdown => shutdownInLoop
      | FWriteComplete => emit EvWriteComplete ;; run_user acts
      | FHighWater n => emit (EvHighWater n) ;; run_user acts
      | FDestroyed => connectDestroyed acts
      end
  end.
End tcp_connection.
Arguments TW : clear implicits.
Arguments mkTW {P}.

(** ** The invariant of a connection *)

Lemma take_length_take {A} k (l : list A) : take k l = take (length (take k l)) l.
Proof.
  rewrite length_take. destruct (le_lt_dec k (length l)); [by rewrite Nat.min_l by lia|].
  by rewrite Nat.min_r, !take_ge by lia.
Qed.

Lemma drop_min {A} k (l : list A) : drop (k `min` length l) l = drop k l.
Proof.
  destruct (le_lt_dec k (length l)); [by rewrite Nat.min_l by lia|].
  rewrite Nat.min_r by lia. rewrite (drop_ge l k), (drop_ge l (length l)) by lia. done.
Qed.

Section connection_invariant.
Context {P : Type} `{ChannelLaws P} (ch : Z).
Implicit Types w : TW P.

Definition functor_cost (f : functor) : Z :=
  match f with FSendRef _ n => n | FSend d => len d | _ => 0 end.
Definition pending_cost (l : list functor) : Z := foldr (fun f n => functor_cost f + n) 0 l.

Local Arguments pending_cost : simpl never.

Definition functor_ok (mem : gmap Z bytes) (f : functor) : Prop :=
  match f with
  | FSendRef p n => exists d, mem !! p = Some d /\ n = len d /\ len d < 2 ^ 31
  | FSend d => len d < 2 ^ 31
  | _ => True
  end.

Definition out w : bytes := content (c_output (t_conn w)).
Definition state w : StateE := c_state (t_conn w).
Definition eof w : bool := s_eof (t_sock w).
(** Everything the connection took responsibility for: what the kernel has
    and what is still buffered. *)
Definition stream w : bytes := s_wire (t_sock w) ++ out w.

(** [B] bounds the bytes that are still to be handed to the connection. *)
Record conn_inv (B : Z) w : Prop := {
  inv_in : wf (c_input (t_conn w));
  inv_out : wf (c_output (t_conn w));
  inv_ch : ci_ok (t_poll w) ch;
  inv_write : state w <> kDisconnected -> channel_isWrite ch w = bool_decide (out w <> []);
  inv_down : state w = kDisconnected -> ci_mask (t_poll w) ch = 0;
  inv_eof : eof w = true -> state w <> kDisconnected -> out w = [];
  inv_half : eof w = true \/ FShutdown ∈ t_pending w ->
    state w = kDisconnecting \/ state w = kDisconnected;
  inv_pending : Forall (functor_ok (t_mem w)) (t_pending w);
  inv_room : 0 <= B /\ len (m_buffer (c_input (t_conn w))) + len (m_buffer (c_output (t_conn w))) +
             extrabuf_size + pending_cost (t_pending w) + B <= vector_max_size;
}.

Lemma pending_cost_cons f l : pending_cost (f :: l) = functor_cost f + pending_cost l.
Proof. done. Qed.

Lemma pending_cost_app l1 l2 : pending_cost (l1 ++ l2) = pending_cost l1 + pending_cost l2.
Proof.
  induction l1 as [|f l1 IH]; [done|]. cbn [app]. rewrite !pending_cost_cons, IH. lia.
Qed.

Lemma functor_cost_nonneg mem f : functor_ok mem f -> 0 <= functor_cost f.
Proof. destruct f; simpl; try lia. intros (?&?&?&?). lia. Qed.

Lemma pending_cost_nonneg mem l : Forall (functor_ok mem) l -> 0 <= pending_cost l.
Proof.
  induction 1 as [|f l Hf _ IH]; [done|]. apply functor_cost_nonneg in Hf.
  rewrite pending_cost_cons. lia.
Qed.

Lemma conn_inv_weaken B B' w : conn_inv B w -> 0 <= B' <= B -> conn_inv B' w.
Proof. intros [H1 H2 H3 H4 H5 H6 H7 H8 H9] HB. split; try done. lia. Qed.

(** Notifications and log entries, which cost nothing. *)
Definition notice (f : functor) : Prop :=
  match f with FWriteComplete | FHighWater _ | FDestroyed => True | _ => False end.

(** A step that only adds notices to the queue, bytes to the wire and entries to the trace. *)
Definition quiet w w' : Prop :=
  t_conn w' = t_conn w /\ t_poll w' = t_poll w /\ eof w' = eof w /\ t_mem w' = t_mem w /\
  exists l, t_pending w' = t_pending w ++ l /\ Forall notice l.

Lemma quiet_refl w : quiet w w.
Proof. split_and!; try done. exists []. by rewrite app_nil_r. Qed.

Lemma quiet_trans w1 w2 w3 : quiet w1 w2 -> quiet w2 w3 -> quiet w1 w3.
Proof.
  intros (?&?&?&?&l1&E1&?) (?&?&?&?&l2&E2&?). split_and!; try congruence.
  exists (l1 ++ l2). rewrite E2, E1, app_assoc. split; [done|]. by apply Forall_app.
Qed.

Lemma quiet_trace f w : quiet w (on_trace f w).
Proof. split_and!; try done. exists []. by rewrite app_nil_r. Qed.
Lemma quiet_notice n w : notice n -> quiet w (on_pending (fun l => l ++ [n]) w).
Proof. intros. split_and!; try done. exists [n]. split; [done|]. by constructor. Qed.
Lemma quiet_wire d w : quiet w (on_sock (wire_add d) w).
Proof. split_and!; try done. exists []. by rewrite app_nil_r. Qed.

Lemma quiet_inv B w w' : quiet w w' -> conn_inv B w -> conn_inv B w'.
Proof.
  intros (Hc & Hp & He & Hm & l & Hl & Hn) [H1 H2 H3 H4 H5 H6 H7 H8 H9].
  unfold state, out, channel_isWrite in *.
  split; unfold state, out, channel_isWrite; rewrite ?Hc, ?Hp, ?He, ?Hm, ?Hl; try done.
  - intros [E|E]; [auto|]. apply elem_of_app in E as [E|E]; [auto|].
    rewrite Forall_forall in Hn. by apply Hn in E.
  - apply Forall_app. split; [done|]. eapply Forall_impl; [exact Hn|]. by intros [].
  - rewrite pending_cost_app. replace (pending_cost l) with 0; [lia|].
    clear -Hn. induction Hn as [|f l Hf _ IH]; [done|]. rewrite pending_cost_cons, <- IH.
    by destruct f.
Qed.

Lemma out_readable w : wf (c_output (t_conn w)) -> readableBytes (c_output (t_conn w)) = len (out w).
Proof. apply readable_content. Qed.

(** *** Sending *)

Definition fatal (e : Z) : Prop := e = EPIPE \/ e = ECONNRESET.

(** The bytes are lost: a direct write failed with a fatal error. *)
Definition dropped w (rep : wreply) : Prop :=
  out w = [] /\ exists e, sock_reply rep (t_sock w) = WFail e /\ fatal e.

Lemma fault_errno_spec e : fault_errno e = true <-> fatal e.
Proof.
  unfold fault_errno, fatal. rewrite andb_true_iff, !bool_decide_eq_true.
  unfold EPIPE, ECONNRESET, EWOULDBLOCK. lia.
Qed.

Lemma try_write_spec B w data rep :
  conn_inv B w -> state w <> kDisconnected -> len data < 2 ^ 31 ->
  wp (try_write ch rep data)
     (fun r w' => let '(nwrote, remaining, fault) := r in
        quiet w w' /\ 0 <= nwrote <= len data /\ remaining = len data - nwrote /\
        s_wire (t_sock w') = s_wire (t_sock w) ++ take (Z.to_nat nwrote) data /\
        (nwrote <> 0 -> out w = []) /\
        (fault = true -> dropped w rep /\ nwrote = 0) /\
        (eof w = true -> fault = true)) w.
Proof.
  intros Hi Hst Hlt. unfold try_write. wp_simpl. rewrite (inv_write _ _ Hi Hst).
  rewrite out_readable by apply Hi.
  assert (Hcond : negb (bool_decide (out w <> [])) && bool_decide (len (out w) = 0) =
                  bool_decide (out w = [])).
  { destruct (out w); [done|]. by rewrite (bool_decide_eq_true_2 (_ <> _)). }
  rewrite Hcond. destruct (bool_decide_reflect (out w = [])) as [Ho|Ho]; wp_simpl.
  2: { split_and!; [apply quiet_refl|lia|lia|lia|by rewrite app_nil_r|done|done|].
       intros He. destruct Ho. by apply (inv_eof _ _ Hi). }
  unfold sock_write. wp_simpl.
  destruct (sock_reply rep (t_sock w)) as [err|k] eqn:Hrep; cbn [kwrite]; wp_simpl.
  - assert (Hf : fault_errno err = true -> dropped w rep /\ 0 = 0).
    { intros Hf. apply fault_errno_spec in Hf. split; [|done]. split; [done|]. eauto. }
    assert (He : eof w = true -> fault_errno err = true).
    { unfold sock_reply in Hrep. unfold eof. intros E. rewrite E in Hrep. by injection Hrep as <-. }
    rewrite decide_False by lia. unfold emit. wp_simpl.
    change (default 0 (Some err)) with err.
    pose proof (quiet_wire [] w) as Hq.
    destruct (bool_decide_reflect (err <> EWOULDBLOCK)); wp_simpl; (split_and!; [|lia|lia|lia|done|done|done|done]).
    + eapply quiet_trans; [exact Hq|apply quiet_trace].
    + exact Hq.
  - assert (Heof : eof w <> true).
    { unfold sock_reply in Hrep. unfold eof. by destruct (s_eof (t_sock w)). }
    assert (Htake : take k data = take (length (take k data)) data)
      by (by rewrite <- take_length_take).
    rewrite decide_True by lia. rewrite u64_small by (rewrite length_take; lia).
    pose proof (quiet_wire (take k data) w) as Hq. unfold queueInLoop.
    wp_simpl; wp_if;
      (split_and!; [|lia|rewrite length_take; lia|done| |done|done|done]);
      try (cbn; by rewrite Nat2Z.id, <- Htake).
    + eapply quiet_trans; [exact Hq|]. by apply quiet_notice.
    + exact Hq.
Qed.

(** *** Appending what was not written *)

Lemma poll_op_spec (m : Prelude.M P unit) (Q : unit -> TW P -> Prop) w :
  wp m (fun a p => Q a (on_poll p w)) (t_poll w) -> wp (poll_op m) Q w.
Proof. intros Hm. unfold poll_op. by apply wp_zoom. Qed.

(** What an operation on the buffers and the channel leaves alone. *)
Definition same_rest w w' : Prop :=
  state w' = state w /\ t_sock w' = t_sock w /\ t_pending w' = t_pending w /\
  t_mem w' = t_mem w /\ t_trace w' = t_trace w /\
  c_input (t_conn w') = c_input (t_conn w).

Lemma append_out_spec B d w :
  0 <= B -> conn_inv (len d + B) w -> state w <> kDisconnected -> eof w = false -> d <> [] ->
  len d < 2 ^ 31 ->
  wp (with_output (append d) ;;
      w ← getS; whenM (negb (channel_isWrite ch w)) (poll_op (ci_change enableWrite ch)))
     (fun _ w' => conn_inv B w' /\ out w' = out w ++ d /\ same_rest w w') w.
Proof.
  intros HB Hi Hst Heof Hd Hlt. pose proof Hi as [H1 H2 H3 H4 H5 H6 H7 H8 H9].
  pose proof (pending_cost_nonneg _ _ H8) as Hpc. unfold with_output. wp_simpl.
  assert (Hw : m_writerIndex (c_output (t_conn w)) + len d <= vector_max_size).
  { destruct H2 as (_ & ?). unfold extrabuf_size in *. lia. }
  eapply wp_mono; [by apply append_spec|]. intros [] b (Hb & Hcb & Hsz).
  wp_simpl. set (w1 := on_conn _ w).
  assert (Hnil : content (c_output (t_conn w)) ++ d <> []) by (intros [_ ?]%app_nil; done).
  assert (Hroom : 0 <= B /\ len (m_buffer (c_input (t_conn w))) + len (m_buffer b) + extrabuf_size +
                  pending_cost (t_pending w) + B <= vector_max_size).
  { destruct H2 as (_ & ?). unfold extrabuf_size in *. lia. }
  change (channel_isWrite ch w1) with (channel_isWrite ch w). rewrite H4 by done.
  destruct (bool_decide_reflect (out w <> [])) as [Ho|Ho]; cbn [negb whenM].
  - wp_simpl. split_and!; [|done|done].
    split; unfold state, out, eof; cbn; try done.
    + intros _. rewrite Hcb, bool_decide_eq_true_2 by done. by apply H4.
    + unfold eof in Heof. congruence.
  - apply poll_op_spec. eapply wp_mono; [by apply ci_change_spec|].
    intros [] p (Hp & Hm & _). split_and!; [|done|done].
    split; unfold state, out, eof; cbn; try done.
    + intros _. unfold channel_isWrite. cbn. rewrite Hm, Hcb, (bool_decide_eq_true_2 (_ <> _)) by done.
      apply write_mask_bits. by apply ci_mask_ok.
    + unfold eof in Heof. congruence.
Qed.

(** The outcome of handing [data] to the connection. *)
Definition taken (data : bytes) (rep : wreply) w w' : Prop :=
  if decide (state w = kDisconnected) then stream w' = stream w
  else (stream w' = stream w ++ data /\ eof w = false) \/ (dropped w rep /\ stream w' = stream w).

(** What all operations of the loop keep: memory, FIN once sent, and the bytes
    on the wire, which only grow. *)
Definition grows w w' : Prop :=
  t_mem w' = t_mem w /\ (eof w = true -> eof w' = true) /\
  exists d, s_wire (t_sock w') = s_wire (t_sock w) ++ d.

Lemma grows_refl w : grows w w.
Proof. split_and!; try done. exists []. by rewrite app_nil_r. Qed.
Lemma grows_same w w' : t_mem w' = t_mem w -> t_sock w' = t_sock w -> grows w w'.
Proof.
  intros E1 E2. unfold grows, eof. rewrite E1, E2. split_and!; try done.
  exists []. by rewrite app_nil_r.
Qed.
Lemma grows_trans w1 w2 w3 : grows w1 w2 -> grows w2 w3 -> grows w1 w3.
Proof.
  intros (?&?&d1&E1) (?&?&d2&E2). split_and!; [congruence|auto|].
  exists (d1 ++ d2). by rewrite E2, E1, app_assoc.
Qed.

Lemma sendInLoop_spec B data rep w :
  0 <= B -> conn_inv (len data + B) w -> len data < 2 ^ 31 ->
  wp (sendInLoop ch data rep)
     (fun _ w' => conn_inv B w' /\ state w' = state w /\ eof w' = eof w /\ grows w w' /\
        (exists l, t_pending w' = t_pending w ++ l /\ Forall notice l) /\
        taken data rep w w') w.
Proof.
  intros HB Hi Hlt. unfold sendInLoop, taken. wp_simpl. fold (state w).
  assert (Hw : conn_inv B w) by (eapply conn_inv_weaken; [done|lia]).
  case_decide as Hst.
  { unfold emit. wp_simpl.
    split_and!; [by eapply quiet_inv; [apply quiet_trace|]|done|done|by apply grows_same| |done].
    exists []. by rewrite app_nil_r. }
  wp_simpl. eapply wp_mono; [by eapply try_write_spec|].
  intros [[nwrote remaining] fault] w1 (Hq1 & Hn & Hrem & Hwire & Hout & Hfault & Heof).
  pose proof Hq1 as (Hc1 & Hp1 & He1 & Hm1 & l1 & Hl1 & Hn1).
  assert (Hst1 : state w1 = state w) by (unfold state; by rewrite Hc1).
  assert (Ho1 : out w1 = out w) by (unfold out; by rewrite Hc1).
  assert (Hg1 : grows w w1) by (split_and!; [done|congruence|by eexists]).
  assert (Hwn : s_wire (t_sock w1) ++ out w ++ drop (Z.to_nat nwrote) data = stream w ++ data).
  { unfold stream. rewrite Hwire. destruct (decide (nwrote = 0)) as [->|Hnz].
    - by rewrite take_0, drop_0, app_nil_r, app_assoc.
    - rewrite Hout by done. simpl. rewrite app_nil_r, <- app_assoc. by rewrite take_drop. }
  destruct fault; cbn [negb andb].
  { wp_simpl. destruct Hfault as [Hd ->]; [done|].
    split_and!; [by eapply quiet_inv|done|done|done|by exists l1|].
    right. split; [done|]. unfold stream. rewrite Hwire, Ho1. by rewrite take_0, app_nil_r. }
  assert (Hef : eof w = false) by (destruct (eof w); [by specialize (Heof eq_refl)|done]).
  destruct (bool_decide_reflect (remaining > 0)) as [Hr|Hr].
  2: { wp_simpl. split_and!; [by eapply quiet_inv|done|done|done|by exists l1|].
       left. split; [|done]. rewrite drop_ge, app_nil_r in Hwn by lia.
       unfold stream at 1. by rewrite Ho1. }
  cbn [andb]. rewrite wp_bind, wp_getS, wp_bind.
  eapply (wp_mono _ (fun _ w2 => quiet w1 w2 /\ t_sock w2 = t_sock w1)).
  { unfold queueInLoop. wp_simpl. wp_if; wp_simpl; [|by split; [apply quiet_refl|]].
    split; [by apply quiet_notice|done]. }
  intros [] w2 (Hq2 & Hs2).
  pose proof (quiet_trans _ _ _ Hq1 Hq2) as Hq.
  pose proof Hq as (Hc2 & Hp2 & He2 & Hm2 & l2 & Hl2 & Hn2).
  set (d := drop (Z.to_nat nwrote) data) in *.
  assert (Hdl : len d = remaining) by (subst d; rewrite length_drop; lia).
  rewrite take_ge by lia.
  eapply wp_mono; [eapply (append_out_spec B); [done|..]|].
  - eapply quiet_inv; [done|]. eapply conn_inv_weaken; [exact Hi|]. lia.
  - unfold state. by rewrite Hc2.
  - congruence.
  - intros E. rewrite E in Hdl. simpl in Hdl. lia.
  - lia.
  - intros [] w3 (Hi3 & Ho3 & Hst3 & Hs3 & Hl3 & Hm3 & _).
    assert (Ho2 : out w2 = out w) by (unfold out; by rewrite Hc2).
    assert (Hef3 : eof w3 = eof w) by (rewrite <- He2; unfold eof; by rewrite Hs3).
    split_and!; [done|rewrite Hst3; unfold state; by rewrite Hc2|done|..].
    + split_and!; [congruence|congruence|].
      rewrite Hs3, Hs2. by eexists.
    + exists l2. by rewrite Hl3.
    + left. split; [|done]. unfold stream at 1. by rewrite Ho3, Ho2, Hs3, Hs2.
Qed.

(** ** The abstract connection

    What a user is promised: a byte stream that is accepted in order until the
    connection is shut down or closed, data queued by other threads being
    delivered in order (or discarded once the connection is gone), and an end
    of stream behind everything accepted. *)

Record AState := mkA {
  a_state : StateE;
  a_stream : bytes;
  a_eof : bool;
  a_queue : list bytes;
}.

Inductive label : Type :=
  | LSend (d : bytes) | LDrop (d : bytes)
  | LQueue (d : bytes) | LDeliver (d : bytes) | LDiscard (d : bytes)
  | LShutdown | LEof | LClose.

Inductive a_step : AState -> label -> AState -> Prop :=
  | a_send st s q d : st <> kDisconnected ->
      a_step (mkA st s false q) (LSend d) (mkA st (s ++ d) false q)
  | a_drop st s e q d : a_step (mkA st s e q) (LDrop d) (mkA st s e q)
  | a_enqueue st s e q d : a_step (mkA st s e q) (LQueue d) (mkA st s e (q ++ [d]))
  | a_deliver st s q d : st <> kDisconnected ->
      a_step (mkA st s false (d :: q)) (LDeliver d) (mkA st (s ++ d) false q)
  | a_discard st s e q d : a_step (mkA st s e (d :: q)) (LDiscard d) (mkA st s e q)
  | a_shutdown s e q : a_step (mkA kConnected s e q) LShutdown (mkA kDisconnecting s e q)
  | a_finish st s e q : st = kDisconnecting \/ st = kDisconnected ->
      a_step (mkA st s e q) LEof (mkA st s true q)
  | a_close st s e q : a_step (mkA st s e q) LClose (mkA kDisconnected s e q).

Definition functor_data (mem : gmap Z bytes) (f : functor) : option bytes :=
  match f with
  | FSendRef p n => take (Z.to_nat n) <$> mem !! p
  | FSend d => Some d
  | _ => None
  end.
Definition queue_of w : list bytes := omap (functor_data (t_mem w)) (t_pending w).
Definition abs w : AState := mkA (state w) (stream w) (eof w) (queue_of w).

(** Labels that carry new data carry one of [ds]. *)
Definition label_ok (ds : list bytes) (l : label) : Prop :=
  match l with LSend d | LDrop d | LQueue d => d ∈ ds | _ => True end.

Definition refines (ds : list bytes) w w' : Prop :=
  exists ls, lsteps a_step (abs w) ls (abs w') /\ Forall (label_ok ds) ls.

Lemma refines_same ds w w' : abs w' = abs w -> refines ds w w'.
Proof. intros E. exists []. rewrite E. repeat constructor. Qed.
Lemma refines_one ds w l w' : a_step (abs w) l (abs w') -> label_ok ds l -> refines ds w w'.
Proof. intros H1 H2. exists [l]. split; [by repeat econstructor|by repeat constructor]. Qed.
Lemma refines_trans ds w1 w2 w3 : refines ds w1 w2 -> refines ds w2 w3 -> refines ds w1 w3.
Proof.
  intros (l1&?&?) (l2&?&?). exists (l1 ++ l2). split; [by eapply lsteps_app|].
  by apply Forall_app.
Qed.
Lemma refines_mono ds ds' w w' : ds ⊆ ds' -> refines ds w w' -> refines ds' w w'.
Proof.
  intros Hs (ls&?&Hl). exists ls. split; [done|]. eapply Forall_impl; [exact Hl|].
  intros []; simpl; auto.
Qed.

(** [m], started in [w] with room for [c] bytes, keeps the invariant and refines the
    abstract connection with the data [ds]. *)
Definition step_at (c : Z) (ds : list bytes) (m : M (TW P) unit) w : Prop :=
  forall B, 0 <= B -> conn_inv (c + B) w ->
  wp m (fun _ w' => conn_inv B w' /\ refines ds w w' /\ grows w w') w.
Definition step_ok (mem : gmap Z bytes) (c : Z) (ds : list bytes) (m : M (TW P) unit) : Prop :=
  0 <= c /\ forall w, t_mem w = mem -> step_at c ds m w.

Lemma step_ret ds w : step_at 0 ds (mret tt) w.
Proof. intros B HB Hi. wp_simpl. split_and!; [done|by apply refines_same|by apply grows_same]. Qed.

Lemma step_getS c ds (f : TW P -> M (TW P) unit) w :
  step_at c ds (f w) w -> step_at c ds (w ← getS; f w) w.
Proof. intros Hs B HB Hi. wp_simpl. by apply Hs. Qed.

Lemma step_seq c1 c2 ds m1 m2 w :
  step_at c1 ds m1 w -> step_ok (t_mem w) c2 ds m2 -> step_at (c1 + c2) ds (m1 ;; m2) w.
Proof.
  intros H1 (Hc & H2) B HB Hi. wp_simpl.
  eapply wp_mono; [apply (H1 (c2 + B)); [lia|by rewrite Z.add_assoc]|].
  intros [] w1 (Hi1 & Hr1 & Hg1). eapply wp_mono; [apply H2; [apply Hg1|done|done]|].
  intros [] w2 (Hi2 & Hr2 & Hg2).
  split_and!; [done|by eapply refines_trans|by eapply grows_trans].
Qed.

Lemma step_weaken c c' ds ds' m w :
  step_at c ds m w -> 0 <= c <= c' -> ds ⊆ ds' -> step_at c' ds' m w.
Proof.
  intros Hm Hc Hs B HB Hi. eapply wp_mono; [apply (Hm B); [done|]|].
  - eapply conn_inv_weaken; [exact Hi|lia].
  - intros [] w' (?&?&?). split_and!; [done|by eapply refines_mono|done].
Qed.

Lemma quiet_abs w w' : quiet w w' -> t_sock w' = t_sock w -> abs w' = abs w.
Proof.
  intros (Hc & Hp & He & Hm & l & Hl & Hn) Hs. unfold abs, state, stream, out, queue_of.
  rewrite Hc, Hs, He, Hm, Hl, omap_app.
  replace (omap _ l) with (@nil bytes); [by rewrite app_nil_r|].
  clear -Hn. induction Hn as [|f l Hf _ IH]; [done|]. by destruct f.
Qed.

Lemma step_quiet (f : TW P -> TW P) ds w :
  quiet w (f w) -> t_sock (f w) = t_sock w -> step_at 0 ds (modify f) w.
Proof.
  intros Hq Hs B HB Hi. wp_simpl. split_and!.
  - by eapply quiet_inv.
  - apply refines_same. by apply quiet_abs.
  - apply grows_same; [apply Hq|done].
Qed.

Lemma step_emit e ds w : step_at 0 ds (emit e) w.
Proof. by apply step_quiet; [apply quiet_trace|]. Qed.

Lemma queue_of_app w w' l :
  t_mem w' = t_mem w -> t_pending w' = t_pending w ++ l ->
  queue_of w' = queue_of w ++ omap (functor_data (t_mem w)) l.
Proof. intros E1 E2. unfold queue_of. by rewrite E1, E2, omap_app. Qed.

Lemma notices_no_data mem l : Forall notice l -> omap (functor_data mem) l = [].
Proof. induction 1 as [|f l Hf _ IH]; [done|]. by destruct f. Qed.

Lemma sendInLoop_abs B data rep w :
  0 <= B -> conn_inv (len data + B) w -> len data < 2 ^ 31 ->
  wp (sendInLoop ch data rep)
     (fun _ w' => conn_inv B w' /\ grows w w' /\
        (exists l, t_pending w' = t_pending w ++ l /\ Forall notice l) /\
        (abs w' = abs w \/
         (state w <> kDisconnected /\ eof w = false /\
          abs w' = mkA (state w) (stream w ++ data) false (queue_of w)))) w.
Proof.
  intros HB Hi Hlt. eapply wp_mono; [by eapply sendInLoop_spec|].
  intros [] w' (Hi' & Hst & He & Hg & (l & Hl & Hn) & Ht). split_and!; [done|done|by eexists|].
  assert (Hq : queue_of w' = queue_of w).
  { rewrite (queue_of_app w w' l) by (done || apply Hg). by rewrite notices_no_data, app_nil_r. }
  unfold abs. rewrite Hst, He, Hq. unfold taken in Ht. case_decide as Hd.
  - left. by rewrite Ht.
  - destruct Ht as [[Hs Hf]|[_ Hs]]; rewrite Hs; [right|by left]. by rewrite Hf.
Qed.

Lemma step_send data rep w : len data < 2 ^ 31 -> step_at (len data) [data] (sendInLoop ch data rep) w.
Proof.
  intros Hlt B HB Hi. eapply wp_mono; [by eapply sendInLoop_abs|].
  intros [] w' (Hi' & Hg & _ & Ha). split_and!; [done| |done].
  destruct Ha as [Ha|(Hst & He & Ha)]; [by apply refines_same|].
  eapply (refines_one _ _ (LSend data)); [|by left].
  rewrite Ha. unfold abs. rewrite He. by constructor.
Qed.

(** *** Shutting down and closing *)

Lemma shutdownInLoop_spec B w ds :
  conn_inv B w -> state w = kDisconnecting \/ state w = kDisconnected ->
  wp (shutdownInLoop ch)
     (fun _ w' => conn_inv B w' /\ refines ds w w' /\ grows w w' /\
        (state w = kDisconnecting -> out w = [] -> eof w' = true)) w.
Proof.
  intros Hi Hst. pose proof Hi as [H1 H2 H3 H4 H5 H6 H7 H8 H9].
  unfold shutdownInLoop, shutdownWrite. wp_simpl. wp_if; wp_simpl.
  - split_and!; [|eapply (refines_one _ _ LEof); [|done]|split_and!; [done..|]|done].
    + split; unfold state, out, eof; cbn; try done.
      intros _ Hs. rewrite H4 in * by done. destruct (bool_decide_reflect (out w <> [])) as [|Ho]; [done|].
      by apply dec_stable.
    + by apply a_finish.
    + exists []. cbn. by rewrite app_nil_r.
  - split_and!; [done|by apply refines_same|by apply grows_same|].
    intros Hs Ho. rewrite H4 in Heqb by congruence. rewrite bool_decide_eq_false_2 in Heqb by naive_solver.
    done.
Qed.

(** Dropping all interest and entering [kDisconnected]. *)
Lemma disconnect_spec B w ds :
  conn_inv B w ->
  wp (setState kDisconnected ;; poll_op (ci_change disableAll ch))
     (fun _ w' => conn_inv B w' /\ refines ds w w' /\ grows w w' /\ state w' = kDisconnected) w.
Proof.
  intros [H1 H2 H3 H4 H5 H6 H7 H8 H9]. unfold setState. wp_simpl. apply poll_op_spec.
  eapply wp_mono; [by apply ci_change_spec|]. intros [] p (Hp & Hm & _).
  split_and!; [|eapply (refines_one _ _ LClose); [constructor|done]|by apply grows_same|done].
  split; unfold state, out, eof; cbn; try done.
  - intros _. rewrite Hm. apply Z.land_0_r.
  - by right.
Qed.

Lemma start_shutdown_inv B w :
  conn_inv B w -> state w = kConnected -> conn_inv B (on_conn (c_setState kDisconnecting) w).
Proof.
  intros [H1 H2 H3 H4 H5 H6 H7 H8 H9] Hst. split; unfold state, out, eof in *; cbn in *; try done.
  - intros _. apply H4. congruence.
  - intros E _. apply H6; [done|congruence].
  - by left.
Qed.

Lemma start_shutdown_refines w ds :
  state w = kConnected -> refines ds w (on_conn (c_setState kDisconnecting) w).
Proof.
  intros Hst. eapply (refines_one _ _ LShutdown); [|done]. unfold abs at 1. rewrite Hst.
  constructor.
Qed.

Lemma step_connected c ds (f : bool -> M (TW P) unit) w :
  step_at c ds (f (bool_decide (state w = kConnected))) w -> step_at c ds (b ← connected; f b) w.
Proof. intros Hs B HB Hi. unfold connected. wp_simpl. by apply Hs. Qed.

Lemma step_shutdown_set ds w :
  state w = kConnected \/ state w = kDisconnecting -> step_at 0 ds shutdown_set w.
Proof.
  intros Hst B HB Hi. rewrite Z.add_0_l in Hi. unfold shutdown_set, setState. wp_simpl.
  destruct Hst as [Hst|Hst].
  - split_and!; [by apply start_shutdown_inv|by apply start_shutdown_refines|by apply grows_same].
  - assert (E : on_conn (c_setState kDisconnecting) w = w).
    { destruct w as [[] ? ? ? ? ?]. unfold state in Hst. simpl in Hst. by subst. }
    rewrite E. split_and!; [done|by apply refines_same|apply grows_refl].
Qed.

Lemma step_shutdown_act b ds w :
  state w = kDisconnecting \/ state w = kDisconnected -> step_at 0 ds (shutdown_act ch b) w.
Proof.
  intros Hst B HB Hi. rewrite Z.add_0_l in Hi. unfold shutdown_act. destruct b.
  - eapply wp_mono; [by apply (shutdownInLoop_spec B w ds)|]. intros [] w2 (? & ? & ? & _). done.
  - unfold queueInLoop. wp_simpl. split_and!; [| |by apply grows_same].
    + destruct Hi as [H1 H2 H3 H4 H5 H6 H7 H8 H9]. split; unfold state, out, eof in *; cbn in *; try done.
      * apply Forall_app. split; [done|]. by constructor.
      * rewrite pending_cost_app. change (pending_cost [FShutdown]) with 0. lia.
    + apply refines_same. unfold abs. f_equal. rewrite (queue_of_app w _ [FShutdown]) by done. by rewrite app_nil_r.
Qed.

Lemma step_shutdown b ds w : step_at 0 ds (shutdown ch b) w.
Proof.
  unfold shutdown. apply step_connected. destruct (bool_decide_reflect (state w = kConnected)) as [Hst|]; [|apply step_ret].
  cbn [whenM]. intros B HB Hi. rewrite Z.add_0_l in Hi. unfold shutdown_set, setState. rewrite wp_bind, wp_modify.
  pose proof (start_shutdown_refines w ds Hst) as Hr1. pose proof (start_shutdown_inv _ _ Hi Hst) as Hi1.
  set (w1 := on_conn _ w) in *. assert (Hg1 : grows w w1) by (by apply grows_same).
  eapply wp_mono; [by apply (step_shutdown_act b ds w1 (or_introl eq_refl) B HB)|].
  intros [] w2 (Hi2 & Hr2 & Hg2).
  split_and!; [done|exact (refines_trans _ _ _ _ Hr1 Hr2)|exact (grows_trans _ _ _ Hg1 Hg2)].
Qed.
(** *** Sends *)

Lemma queue_data_inv B w f (d : bytes) :
  conn_inv (len d + B) w -> functor_ok (t_mem w) f -> functor_cost f = len d -> f <> FShutdown ->
  0 <= B -> conn_inv B (on_pending (fun l => l ++ [f]) w).
Proof.
  intros [H1 H2 H3 H4 H5 H6 H7 H8 H9] Hf Hc Hne HB.
  split; unfold state, out, eof in *; cbn; try done.
  - intros [E|E]; apply H7; [by left|right]. apply elem_of_app in E as [E|E]; [done|].
    apply list_elem_of_singleton in E. congruence.
  - apply Forall_app. split; [done|]. by constructor.
  - rewrite pending_cost_app, pending_cost_cons. change (pending_cost []) with 0. lia.
Qed.

Lemma step_queue w f (d : bytes) :
  functor_ok (t_mem w) f -> functor_data (t_mem w) f = Some d -> functor_cost f = len d ->
  f <> FShutdown -> step_at (len d) [d] (queueInLoop f) w.
Proof.
  intros Hf Hd Hc Hne B HB Hi. unfold queueInLoop. wp_simpl.
  split_and!; [by eapply queue_data_inv| |by apply grows_same].
  eapply (refines_one _ _ (LQueue d)); [|by left].
  unfold abs. rewrite (queue_of_app w (on_pending (fun l => l ++ [f]) w) [f]) by done. cbn [omap list_omap]. rewrite Hd.
  constructor.
Qed.

Lemma step_send_string_act b p d rep w :
  t_mem w !! p = Some d -> len d < 2 ^ 31 -> step_at (len d) [d] (send_string_act ch b p rep) w.
Proof.
  intros Hp Hlt. unfold send_string_act. apply step_getS. rewrite Hp. destruct b.
  - intros B HB Hi. unfold load. wp_simpl. rewrite Hp, decide_True by lia. wp_simpl.
    rewrite Nat2Z.id, take_ge by lia. by apply step_send.
  - apply step_queue; [by exists d|cbn; by rewrite Hp; cbn; rewrite Nat2Z.id, take_ge by lia|done..].
Qed.

Lemma step_send_string b p d rep w :
  t_mem w !! p = Some d -> len d < 2 ^ 31 -> step_at (len d) [d] (send_string ch b p rep) w.
Proof.
  intros Hp Hlt. unfold send_string. apply step_connected. destruct (bool_decide _); [by apply step_send_string_act|].
  eapply step_weaken; [apply step_ret|lia|done].
Qed.

Lemma step_send_buffer_act b buf rep w :
  wf buf -> len (content buf) < 2 ^ 31 ->
  step_at (len (content buf)) [content buf] (send_buffer_act ch b buf rep ;; mret tt) w.
Proof.
  intros Hb Hlt B HB Hi. unfold send_buffer_act. destruct b; wp_simpl.
  - assert (Hr : vec_read (m_buffer buf) (peek buf) (readableBytes buf) = Ok (content buf)).
    { rewrite readable_content, content_length by done. apply vec_read_ok; buf_arith; lia. }
    rewrite Hr. wp_simpl. eapply wp_mono; [by apply step_send|].
    intros [] w' Hw'. cbn. exact Hw'.
  - destruct (wp_inv _ _ _ (retrieveAllAsString_spec buf Hb)) as (r & b' & -> & _ & -> & _).
    wp_simpl. eapply wp_mono; [by apply (step_queue w (FSend (content buf)))|].
    intros [] w' Hw'. wp_simpl. exact Hw'.
Qed.

Lemma step_send_buffer b buf rep w :
  wf buf -> len (content buf) < 2 ^ 31 ->
  step_at (len (content buf)) [content buf] (send_buffer ch b buf rep ;; mret tt) w.
Proof.
  intros Hb Hlt B HB Hi. unfold send_buffer, connected. wp_simpl. case_bool_decide; cbn beta iota.
  - rewrite <- wp_bind. by apply step_send_buffer_act.
  - wp_simpl. split_and!; [eapply conn_inv_weaken; [exact Hi|lia]|by apply refines_same|by apply grows_same].
Qed.

(** *** Other threads *)

Definition oact_ok (mem : gmap Z bytes) (o : oact) : Prop :=
  match o with
  | XSend p d => mem !! p = Some d /\ len d < 2 ^ 31
  | XSendBuffer b => wf b /\ len (content b) < 2 ^ 31
  | _ => True
  end.
Definition oact_data (o : oact) : list bytes :=
  match o with XSend _ d => [d] | XSendBuffer b => [content b] | _ => [] end.
Definition data_cost (ds : list bytes) : Z := foldr (fun d n => len d + n) 0 ds.

Lemma step_oact o w : oact_ok (t_mem w) o -> step_at (data_cost (oact_data o)) (oact_data o) (run_oact ch o) w.
Proof.
  intros Ho. destruct o as [p d|b| |]; cbn [run_oact oact_data data_cost foldr oact_ok] in *; rewrite ?Z.add_0_r.
  - destruct Ho. by apply step_send_string_act.
  - destruct Ho. by apply step_send_buffer_act.
  - apply step_getS. fold (state w). case_bool_decide; [by apply step_shutdown_set|apply step_ret].
  - apply step_getS. fold (state w). case_bool_decide; [by apply step_shutdown_act|apply step_ret].
Qed.

(** *** User callbacks *)

Definition uact_ok (mem : gmap Z bytes) (a : uact) : Prop :=
  match a with
  | USend d _ => len d < 2 ^ 31
  | UShutdown => True
  | UConsume n => 0 <= n < 2 ^ 64
  | UOther o => oact_ok mem o
  end.
Definition uact_data (a : uact) : list bytes :=
  match a with USend d _ => [d] | UOther o => oact_data o | _ => [] end.
Definition acts_data (l : list uact) : list bytes := l ≫= uact_data.

Lemma data_cost_nonneg ds : 0 <= data_cost ds.
Proof. induction ds as [|d ds IH]; simpl; lia. Qed.
Lemma data_cost_app d1 d2 : data_cost (d1 ++ d2) = data_cost d1 + data_cost d2.
Proof. induction d1 as [|d ds IH]; simpl; lia. Qed.

Lemma set_input_inv B w b :
  conn_inv B w -> wf b -> len (m_buffer b) <= len (m_buffer (c_input (t_conn w))) ->
  conn_inv B (on_conn (c_setInput b) w).
Proof.
  intros [H1 H2 H3 H4 H5 H6 H7 H8 H9] Hb Hl. split; unfold state, out, eof in *; cbn in *; try done.
  lia.
Qed.

Lemma step_uact a w : uact_ok (t_mem w) a -> step_at (data_cost (uact_data a)) (uact_data a) (run_uact ch a) w.
Proof.
  intros Ha. destruct a as [d rep| |n|o]; cbn [run_uact uact_data data_cost foldr uact_ok] in *.
  - apply step_getS. rewrite Z.add_0_r. case_decide; [by apply step_send|].
    eapply step_weaken; [apply step_ret|lia|done].
  - apply step_shutdown.
  - intros B HB Hi. unfold with_input. wp_simpl.
    eapply wp_mono; [apply retrieve_spec; [apply Hi|done]|].
    intros [] b (Hb & _ & Hl). split_and!; [|by apply refines_same|by apply grows_same].
    apply set_input_inv; [done|done|by rewrite Hl].
  - by apply step_oact.
Qed.

Lemma step_user mem l : Forall (uact_ok mem) l -> step_ok mem (data_cost (acts_data l)) (acts_data l) (run_user ch l).
Proof.
  intros Hl. split; [apply data_cost_nonneg|]. unfold run_user.
  induction Hl as [|a l Ha Hl IH]; intros w Hw; cbn [forM]; [apply step_ret|].
  change (acts_data (a :: l)) with (uact_data a ++ acts_data l). rewrite data_cost_app.
  pose proof (data_cost_nonneg (acts_data l)). pose proof (data_cost_nonneg (uact_data a)).
  eapply step_seq.
  - eapply step_weaken; [apply step_uact; by rewrite Hw|lia|set_solver].
  - split; [done|]. intros w' Hw'. eapply step_weaken; [apply IH; congruence|lia|set_solver].
Qed.

(** *** Events *)

Lemma step_handleClose acts w :
  Forall (uact_ok (t_mem w)) acts -> step_at (data_cost (acts_data acts)) (acts_data acts) (handleClose ch acts) w.
Proof.
  intros Hu. pose proof (step_user _ acts Hu) as Hstep. set (c := data_cost (acts_data acts)) in *.
  assert (Htail : step_ok (t_mem w) c (acts_data acts)
            (emit (EvConnection false) ;; run_user ch acts ;; emit EvClose)).
  { split; [apply data_cost_nonneg|]. intros w1 Hw1. rewrite <- (Z.add_0_l c).
    apply step_seq; [apply step_emit|]. rewrite Hw1. split; [apply Hstep|]. intros w2 Hw2. rewrite <- (Z.add_0_r c).
    apply step_seq; [by apply Hstep|]. split; [done|]. intros w3 _. apply step_emit. }
  intros B HB Hi. unfold handleClose. rewrite wp_bind.
  pose proof (disconnect_spec (c + B) w (acts_data acts) Hi) as Hd. rewrite wp_bind in Hd.
  eapply wp_mono; [exact Hd|]. intros [] w1 Hd1. rewrite wp_bind.
  eapply wp_mono; [exact Hd1|]. intros [] w2 (Hi2 & Hr2 & Hg2 & _).
  eapply wp_mono; [apply Htail; [apply Hg2|apply HB|exact Hi2]|]. intros [] w3 (Hi3 & Hr3 & Hg3).
  split_and!; [done|by eapply refines_trans|by eapply grows_trans].
Qed.

Definition rrep_cost (rep : rreply) : Z := match rep with RData d => len d | _ => 0 end.

Lemma step_handleRead t rep acts w :
  Forall (uact_ok (t_mem w)) acts ->
  step_at (rrep_cost rep + data_cost (acts_data acts)) (acts_data acts) (handleRead ch t rep acts) w.
Proof.
  intros Hu B HB Hi. set (c := data_cost (acts_data acts)) in *.
  assert (Hc : 0 <= c) by apply data_cost_nonneg.
  pose proof Hi as [H1 H2 H3 H4 H5 H6 H7 H8 H9].
  pose proof (pending_cost_nonneg _ _ H8) as Hpc. unfold handleRead, with_input. wp_simpl.
  assert (Hrc : 0 <= rrep_cost rep) by (destruct rep; simpl; lia).
  assert (Hroom : m_writerIndex (c_input (t_conn w)) + read_room (c_input (t_conn w)) <= vector_max_size).
  { unfold read_room. pose proof H1 as Hwf. unfold extrabuf_size in *.
    case_decide; buf_arith; lia. }
  eapply wp_mono; [by apply readFd_spec|]. intros [n e] b (Hb & Hres).
  assert (Hi1 : conn_inv (c + B) (on_conn (c_setInput b) w)).
  { split; unfold state, out, eof in *; cbn in *; try done.
    destruct rep as [er|d]; [destruct Hres as [_ ->]; simpl in *; lia|].
    destruct Hres as (_ & _ & Hl). pose proof (kread_cost (read_room (c_input (t_conn w))) d).
    simpl in *. lia. }
  set (w1 := on_conn (c_setInput b) w) in *.
  assert (Hr1 : forall ds, refines ds w w1) by (intros; by apply refines_same).
  assert (Hg1 : grows w w1) by (by apply grows_same).
  assert (Hrest : step_at c (acts_data acts)
    (if decide (n > 0) then emit (EvMessage t) ;; run_user ch acts
     else if decide (n = 0) then handleClose ch acts
     else emit (EvError "TcpConnection::handleRead failed") ;; handleError) w1).
  { case_decide; [|case_decide].
    - rewrite <- (Z.add_0_l c). apply step_seq; [apply step_emit|by apply step_user].
    - by apply step_handleClose.
    - eapply (step_weaken (0 + 0) _ []); [|lia|apply list_subseteq_nil].
      apply step_seq; [apply step_emit|]. split; [done|]. intros w2 _. apply step_emit. }
  eapply wp_mono; [exact (Hrest B HB Hi1)|]. intros [] w2 (Hi2 & Hr2 & Hg2).
  split_and!; [done|exact (refines_trans _ _ _ _ (Hr1 _) Hr2)|exact (grows_trans _ _ _ Hg1 Hg2)].
Qed.

Lemma isWrite_active B w :
  conn_inv B w -> channel_isWrite ch w = true -> state w <> kDisconnected /\ out w <> [].
Proof.
  intros Hi Hw. assert (Hst : state w <> kDisconnected).
  { intros E. unfold channel_isWrite in Hw. by rewrite (inv_down _ _ Hi E) in Hw. }
  split; [done|]. rewrite (inv_write _ _ Hi Hst) in Hw. by apply bool_decide_eq_true in Hw.
Qed.

(** After a write of [sent] from the output buffer, which becomes [b]. *)
Definition after_write sent b w : TW P := on_conn (c_setOutput b) (on_sock (wire_add sent) w).

Lemma after_write_abs sent b w :
  sent ++ content b = out w -> abs (after_write sent b w) = abs w.
Proof.
  intros E. unfold abs, after_write, stream, out, state, eof, queue_of. cbn.
  f_equal. rewrite <- app_assoc. f_equal. exact E.
Qed.

Lemma after_write_grows sent b w : grows w (after_write sent b w).
Proof. split_and!; [done|done|by exists sent]. Qed.

(** The write event when bytes went out. *)
Definition drain_step : M (TW P) unit :=
  w ← getS;
  if decide (readableBytes (c_output (t_conn w)) = 0)
  then
    poll_op (ci_change disableWrite ch) ;;
    whenM (c_writeComplete (t_conn w)) (queueInLoop FWriteComplete) ;;
    whenM (bool_decide (c_state (t_conn w) = kDisconnecting)) (shutdownInLoop ch)
  else mret tt.

Lemma drain_step_spec B w sent b :
  conn_inv B w -> channel_isWrite ch w = true -> eof w = false ->
  wf b -> m_buffer b = m_buffer (c_output (t_conn w)) -> sent ++ content b = out w ->
  let w1 := after_write sent b w in
  wp drain_step
     (fun _ w' => conn_inv B w' /\ refines [] w w' /\ grows w w' /\ state w' = state w /\
        stream w' = stream w /\ out w' = content b /\
        (state w = kDisconnecting -> content b = [] -> eof w' = true)) w1.
Proof.
  intros Hi Hw Heof Hb Hbuf Hsent w1. destruct (isWrite_active _ _ Hi Hw) as [Hst Ho].
  pose proof (after_write_abs _ _ _ Hsent) as Habs. pose proof (after_write_grows sent b w) as Hg.
  fold w1 in Habs, Hg. pose proof Hi as [H1 H2 H3 H4 H5 H6 H7 H8 H9].
  assert (Hroom : 0 <= B /\ len (m_buffer (c_input (t_conn w))) + len (m_buffer b) + extrabuf_size +
    pending_cost (t_pending w) + B <= vector_max_size) by (by rewrite Hbuf).
  unfold drain_step. rewrite wp_bind, wp_getS.
  change (c_output (t_conn w1)) with b. rewrite readable_content by done.
  assert (Hstr : stream w1 = stream w) by (by injection Habs).
  case_decide as Hempty.
  2: { wp_simpl. split_and!; [|by apply refines_same|done|done|done|done|].
       - subst w1. unfold after_write. split; unfold state, out, eof in *; cbn; try done.
         + intros _. rewrite bool_decide_eq_true_2; [done|]. intros E. by rewrite E in Hempty.
         + congruence.
       - intros _ E. by rewrite E in Hempty. }
  assert (Hc : content b = []) by (by apply length_zero_iff_nil; lia).
  rewrite wp_bind. apply poll_op_spec. eapply wp_mono; [by apply ci_change_spec|].
  intros [] p (Hp & Hm & _). set (w2 := on_poll p w1).
  assert (Hi2 : conn_inv B w2).
  { subst w2 w1. unfold after_write. split; unfold state, out, eof in *; cbn; try done.
    intros _. rewrite Hc, (bool_decide_eq_false_2 (_ <> _)) by naive_solver.
    unfold channel_isWrite. cbn. rewrite Hm. apply write_mask_bits. by apply ci_mask_ok. }
  rewrite wp_bind.
  eapply (wp_mono _ (fun _ w3 => quiet w2 w3 /\ t_sock w3 = t_sock w2)).
  { unfold queueInLoop. wp_simpl. wp_if; wp_simpl; [|by split; [apply quiet_refl|]].
    split; [by apply quiet_notice|done]. }
  intros [] w3 (Hq3 & Hs3). pose proof (quiet_inv _ _ _ Hq3 Hi2) as Hi3.
  pose proof (quiet_abs _ _ Hq3 Hs3) as Habs3.
  assert (Habs2 : abs w3 = abs w) by (by rewrite Habs3, <- Habs).
  assert (Hg3 : grows w w3).
  { eapply grows_trans; [exact Hg|]. apply grows_same; [apply Hq3|by rewrite Hs3]. }
  assert (Ho3 : out w3 = content b) by (unfold out; rewrite (proj1 Hq3); done).
  assert (Hst3 : state w3 = state w) by (unfold state; rewrite (proj1 Hq3); done).
  apply wp_whenM. change (c_state (t_conn w1)) with (state w).
  destruct (bool_decide_reflect (state w = kDisconnecting)) as [Hd|Hd].
  - eapply (wp_mono _ (fun _ w4 => (conn_inv B w4 /\ refines [] w3 w4 /\ grows w3 w4 /\
      (state w3 = kDisconnecting -> out w3 = [] -> eof w4 = true)) /\
      state w4 = state w3 /\ out w4 = out w3 /\ stream w4 = stream w3)).
    { pose proof (shutdownInLoop_spec B w3 [] Hi3 ltac:(left; congruence)) as Hsd.
      unfold wp in *. destruct (shutdownInLoop ch w3) as [[[] w4]| |] eqn:E; [|done..].
      split; [exact Hsd|]. unfold shutdownInLoop, shutdownWrite, mbind, M_bind, getS, whenM, modify in E.
      destruct (negb _); injection E as <-; done. }
    intros [] w4 ((Hi4 & Hr4 & Hg4 & He4) & Hst4 & Ho4 & Hs4).
    assert (Hs : stream w3 = stream w) by (by injection Habs2).
    split_and!; [done| | |congruence|congruence|congruence|].
    + destruct Hr4 as (ls & Hls & Hok). exists ls. by rewrite <- Habs2.
    + by eapply grows_trans.
    + intros _ _. apply He4; congruence.
  - split_and!; [done|by apply refines_same|done|done|by injection Habs2|done|done].
Qed.

Lemma handleWrite_spec B w rep :
  conn_inv B w ->
  wp (handleWrite ch rep)
     (fun _ w' => conn_inv B w' /\ refines [] w w' /\ grows w w' /\ state w' = state w /\
        stream w' = stream w /\
        (channel_isWrite ch w = true ->
         match sock_reply rep (t_sock w) with
         | WFail _ => out w' = out w
         | WAccept k => out w' = drop k (out w) /\
             (state w = kDisconnecting -> out w' = [] -> eof w' = true)
         end)) w.
Proof.
  intros Hi. pose proof Hi as [H1 H2 H3 H4 H5 H6 H7 H8 H9].
  unfold handleWrite. rewrite wp_bind, wp_getS. destruct (channel_isWrite ch w) eqn:Hw.
  2: { unfold emit. wp_simpl. split_and!; [|by apply refines_same|by apply grows_same|done|done|done].
       by eapply quiet_inv; [apply quiet_trace|]. }
  destruct (isWrite_active _ _ Hi Hw) as [Hst Ho].
  assert (Heof : eof w = false).
  { destruct (eof w) eqn:E; [|done]. by specialize (H6 eq_refl Hst). }
  unfold with_output. rewrite wp_bind, wp_zoom.
  eapply wp_mono; [by apply writeFd_spec|]. intros [[n e] sent] b (-> & Hk). cbn beta iota.
  rewrite wp_bind, wp_modify. set (w0 := on_sock _ _).
  assert (Hout0 : content (c_output (t_conn w0)) = out w) by done.
  symmetry in Hk. pose proof (kwrite_prefix _ _ _ _ _ Hk) as (Hsent & Hres & Hlen).
  fold (out w) in Hk, Hsent, Hlen.
  case_decide as Hn.
  - destruct (sock_reply rep (t_sock w)) as [er|k]; [by destruct e; naive_solver lia|].
    cbn [kwrite] in Hk. injection Hk as <- <- <-.
    rewrite wp_bind, wp_zoom. eapply wp_mono; [apply retrieve_spec; [exact H2|]|].
    { assert (len (out w) < 2 ^ 64).
      { unfold out. rewrite content_length by done. destruct H2. unfold kCheapPrepend, vector_max_size in *. lia. }
      rewrite length_take. lia. }
    intros [] b (Hb & Hcb & Hbuf).
    assert (Hb' : content b = drop k (out w)).
    { etrans; [exact Hcb|]. rewrite Nat2Z.id, length_take. apply drop_min. }
    eapply wp_mono; [apply (drain_step_spec B w (take k (out w)) b); try done|].
    { by rewrite Hb', take_drop. }
    intros [] w' (Hi' & Hr & Hg & Hst' & Hs' & Ho' & He'). split_and!; [done..|].
    intros _. rewrite Ho'. split; [done|]. intros Hd Hnil. by apply He'.
  - assert (Hs0 : sent = []).
    { destruct e; [by destruct Hres|]. destruct sent; [done|simpl in *; lia]. }
    subst sent. unfold emit. wp_simpl.
    assert (Hq : quiet w (on_trace (fun l => l ++ [EvError "TcpConnection:;handleWrite fail"]) w0)).
    { eapply quiet_trans; [|apply quiet_trace]. subst w0. split_and!; try done.
      - by destruct w as [[] ? ? ? ? ?].
      - exists []. by rewrite app_nil_r. }
    set (w' := on_trace _ w0) in *.
    assert (Hwire : t_sock w' = t_sock w).
    { subst w' w0. cbn. unfold wire_add. rewrite app_nil_r. by destruct (t_sock w). }
    split_and!; [by eapply quiet_inv|apply refines_same; by apply quiet_abs|by apply grows_same; [apply Hq|]|done| |].
    { assert (Ha : abs w' = abs w) by (by apply quiet_abs). by injection Ha. }
    intros _. destruct (sock_reply rep (t_sock w)) as [er|k]; [done|].
    cbn [kwrite] in Hk. injection Hk as Hn0 _ Hs0.
    assert (drop k (out w) = out w) as ->.
    { destruct k; [done|]. destruct (out w); [done|]. done. }
    split; [done|]. intros _ Hnil. destruct Ho. exact Hnil.
Qed.

Lemma step_handleWrite rep w : step_at 0 [] (handleWrite ch rep) w.
Proof.
  intros B HB Hi. eapply wp_mono; [by apply handleWrite_spec|].
  intros [] w' (?&?&?&_). by split_and!.
Qed.

Lemma step_connectDestroyed acts w :
  Forall (uact_ok (t_mem w)) acts ->
  step_at (data_cost (acts_data acts)) (acts_data acts) (connectDestroyed ch acts) w.
Proof.
  intros Hu. pose proof (step_user _ acts Hu) as Hstep. set (c := data_cost (acts_data acts)) in *.
  assert (Hc : 0 <= c) by apply data_cost_nonneg.
  assert (Hrem : forall mem, step_ok mem 0 (acts_data acts) (poll_op (ci_remove ch))).
  { intros mem. split; [done|]. intros w1 _ B HB [H1 H2 H3 H4 H5 H6 H7 H8 H9]. apply poll_op_spec.
    eapply wp_mono; [by apply ci_remove_spec|]. intros [] p (Hp & Hm & _).
    split_and!; [|by apply refines_same|by apply grows_same].
    split; unfold state, out, eof, channel_isWrite in *; cbn; try done; by rewrite Hm. }
  unfold connectDestroyed. apply step_getS. rewrite <- (Z.add_0_r c). apply step_seq; [|apply Hrem].
  destruct (bool_decide_reflect (c_state (t_conn w) = kConnected)) as [Hst|Hst]; cbn [whenM].
  2: { eapply step_weaken; [apply step_ret|lia|done]. }
  intros B HB Hi. rewrite wp_bind.
  pose proof (disconnect_spec (c + B) w (acts_data acts) Hi) as Hd. rewrite wp_bind in Hd.
  eapply wp_mono; [exact Hd|]. intros [] w1 Hd1. rewrite wp_bind.
  eapply wp_mono; [exact Hd1|]. intros [] w2 (Hi2 & Hr2 & Hg2 & _).
  assert (Htail : step_at c (acts_data acts) (emit (EvConnection false) ;; run_user ch acts) w2).
  { rewrite <- (Z.add_0_l c). apply step_seq; [apply step_emit|]. by rewrite (proj1 Hg2). }
  eapply wp_mono; [exact (Htail B HB Hi2)|]. intros [] w3 (Hi3 & Hr3 & Hg3).
  split_and!; [done|exact (refines_trans _ _ _ _ Hr2 Hr3)|exact (grows_trans _ _ _ Hg2 Hg3)].
Qed.

(** *** The functors of the queue *)

Lemma pop_inv B w f l :
  conn_inv B w -> t_pending w = f :: l -> conn_inv (functor_cost f + B) (on_pending tail w).
Proof.
  intros [H1 H2 H3 H4 H5 H6 H7 H8 H9] Hl. rewrite Hl in H7, H8, H9.
  apply Forall_cons in H8 as [Hf H8]. apply functor_cost_nonneg in Hf.
  rewrite pending_cost_cons in H9.
  split; unfold state, out, eof in *; cbn; rewrite ?Hl; cbn; try done.
  - intros [E|E]; apply H7; [by left|right; by right].
  - lia.
Qed.

Lemma pop_queue w f l :
  t_pending w = f :: l ->
  queue_of w = match functor_data (t_mem w) f with Some d => [d] | None => [] end ++
               queue_of (on_pending tail w).
Proof. intros Hl. unfold queue_of. cbn. rewrite Hl. cbn. by destruct (functor_data _ f). Qed.

Lemma step_deliver w d rep l B f :
  0 <= B -> conn_inv B w -> t_pending w = f :: l -> functor_data (t_mem w) f = Some d ->
  functor_cost f = len d -> len d < 2 ^ 31 ->
  wp (sendInLoop ch d rep)
     (fun _ w' => conn_inv B w' /\ refines [] w w' /\ grows w w') (on_pending tail w).
Proof.
  intros HB Hi Hl Hd Hcost Hlt. pose proof (pop_inv _ _ _ _ Hi Hl) as Hi1. rewrite Hcost in Hi1.
  pose proof (pop_queue _ _ _ Hl) as Hq. rewrite Hd in Hq. cbn [app] in Hq.
  eapply wp_mono; [by apply sendInLoop_abs|].
  intros [] w' (Hi' & Hg & _ & Ha). split_and!; [done| |exact Hg].
  assert (Hs : abs (on_pending tail w) = mkA (state w) (stream w) (eof w) (queue_of (on_pending tail w)))
    by done.
  destruct Ha as [Ha|(Hst & He & Ha)].
  - eapply (refines_one _ _ (LDiscard d)); [|done]. rewrite Ha, Hs. unfold abs. rewrite Hq. constructor.
  - eapply (refines_one _ _ (LDeliver d)); [|done]. rewrite Ha. unfold abs. rewrite Hq.
    change (eof (on_pending tail w)) with (eof w) in He. rewrite He. by constructor.
Qed.

Lemma step_functor rep acts w :
  Forall (uact_ok (t_mem w)) acts ->
  step_at (data_cost (acts_data acts)) (acts_data acts) (run_functor ch rep acts) w.
Proof.
  intros Hu. pose proof (step_user _ acts Hu) as (Hc & Hstep). set (c := data_cost (acts_data acts)) in *.
  unfold run_functor. apply step_getS. destruct (t_pending w) as [|f l] eqn:Hl.
  { eapply step_weaken; [apply step_ret|lia|done]. }
  intros B HB Hi. rewrite wp_bind, wp_modify.
  pose proof (pop_inv _ _ _ _ Hi Hl) as Hi1. pose proof (inv_pending _ _ Hi) as Hok.
  rewrite Hl in Hok. apply Forall_cons in Hok as [Hf _].
  assert (Hw : conn_inv B w) by (eapply conn_inv_weaken; [exact Hi|lia]).
  assert (Hnone : functor_data (t_mem w) f = None -> forall ds, refines ds w (on_pending tail w)).
  { intros E ds. apply refines_same. unfold abs. f_equal. rewrite (pop_queue _ _ _ Hl), E. done. }
  assert (Hg1 : grows w (on_pending tail w)) by (by apply grows_same).
  assert (Hnotice : forall m, functor_data (t_mem w) f = None -> functor_cost f = 0 ->
    step_at c (acts_data acts) m (on_pending tail w) ->
    wp m (fun _ w' => conn_inv B w' /\ refines (acts_data acts) w w' /\ grows w w') (on_pending tail w)).
  { intros m Hn Hc0 Hm. rewrite Hc0, Z.add_0_l in Hi1. eapply wp_mono; [exact (Hm B HB Hi1)|].
    intros [] w2 (Hi2 & Hr2 & Hg2).
    split_and!; [done|exact (refines_trans _ _ _ _ (Hnone Hn _) Hr2)|exact (grows_trans _ _ _ Hg1 Hg2)]. }
  assert (Hdata : forall d, functor_data (t_mem w) f = Some d -> functor_cost f = len d ->
    len d < 2 ^ 31 ->
    wp (sendInLoop ch d rep)
      (fun _ w' => conn_inv B w' /\ refines (acts_data acts) w w' /\ grows w w') (on_pending tail w)).
  { intros d Hd Hc0 Hlt. eapply wp_mono; [by eapply step_deliver|].
    intros [] w2 (Hi2 & Hr2 & Hg2).
    split_and!; [done|eapply refines_mono; [apply list_subseteq_nil|done]|done]. }
  destruct f as [p n|d| | |n|]; cbn [functor_ok functor_data functor_cost] in *.
  - destruct Hf as (d & Hp & -> & Hlt). unfold load. wp_simpl. change (t_mem (on_pending tail w)) with (t_mem w).
    rewrite Hp, decide_True by lia. wp_simpl. rewrite Nat2Z.id, take_ge by lia.
    apply Hdata; [|done|done]. rewrite Hp. cbn. by rewrite Nat2Z.id, take_ge by lia.
  - by apply Hdata.
  - rewrite Z.add_0_l in Hi1.
    assert (Hst : state w = kDisconnecting \/ state w = kDisconnected).
    { apply (inv_half _ _ Hi). right. rewrite Hl. left. }
    eapply wp_mono; [apply (shutdownInLoop_spec (c + B) _ (acts_data acts)); [exact Hi1|exact Hst]|].
    intros [] w2 (Hi2 & Hr2 & Hg2 & _).
    split_and!; [eapply conn_inv_weaken; [exact Hi2|lia]|exact (refines_trans _ _ _ _ (Hnone eq_refl _) Hr2)|
      exact (grows_trans _ _ _ Hg1 Hg2)].
  - apply Hnotice; [done|done|]. rewrite <- (Z.add_0_l c). apply step_seq; [apply step_emit|]. by split.
  - apply Hnotice; [done|done|]. rewrite <- (Z.add_0_l c). apply step_seq; [apply step_emit|]. by split.
  - apply Hnotice; [done|done|]. by apply step_connectDestroyed.
Qed.

(** ** Runs of operations *)

Inductive cop : Type :=
  | OSend (p : Z) (d : bytes) (rep : wreply)     (* in the loop's thread; [d] at address [p] *)
  | OSendBuffer (b : Buffer) (rep : wreply)
  | OShutdown
  | OOther (o : oact)                            (* in another thread *)
  | OEvent (c : callback) (rrep : rreply) (wrep : wreply) (acts : list uact)
  | OFunctor (rep : wreply) (acts : list uact)
  | ODestroyLater.

Definition run_cop (o : cop) : M (TW P) unit :=
  match o with
  | OSend p _ rep => send_string ch true p rep
  | OSendBuffer buf rep => send_buffer ch true buf rep ;; mret tt
  | OShutdown => shutdown ch true
  | OOther o => run_oact ch o
  | OEvent c rrep wrep acts => run_callback ch rrep wrep acts c
  | OFunctor rep acts => run_functor ch rep acts
  | ODestroyLater => queueInLoop FDestroyed
  end.

Definition cop_data (o : cop) : list bytes :=
  match o with
  | OSend _ d _ => [d]
  | OSendBuffer b _ => [content b]
  | OOther o => oact_data o
  | OEvent _ _ _ acts | OFunctor _ acts => acts_data acts
  | _ => []
  end.

Definition cop_cost (o : cop) : Z :=
  data_cost (cop_data o) + match o with OEvent (ReadCb _) r _ _ => rrep_cost r | _ => 0 end.

Definition cop_ok (mem : gmap Z bytes) (o : cop) : Prop :=
  match o with
  | OSend p d _ => mem !! p = Some d /\ len d < 2 ^ 31
  | OSendBuffer b _ => wf b /\ len (content b) < 2 ^ 31
  | OOther o => oact_ok mem o
  | OEvent _ _ _ acts | OFunctor _ acts => Forall (uact_ok mem) acts
  | _ => True
  end.

Lemma cop_cost_nonneg o : 0 <= cop_cost o.
Proof.
  unfold cop_cost. pose proof (data_cost_nonneg (cop_data o)).
  destruct o as [| | | |[] []| |]; simpl in *; lia.
Qed.

Lemma step_cop o w : cop_ok (t_mem w) o -> step_at (cop_cost o) (cop_data o) (run_cop o) w.
Proof.
  intros Ho. pose proof (cop_cost_nonneg o) as Hn. pose proof (data_cost_nonneg (cop_data o)) as Hd.
  unfold cop_cost in *. destruct o as [p d rep|buf rep| |o|c rrep wrep acts|rep acts|];
    cbn [run_cop cop_data cop_ok data_cost foldr] in *; rewrite ?Z.add_0_r in *.
  - destruct Ho. by apply step_send_string.
  - destruct Ho. by apply step_send_buffer.
  - apply step_shutdown.
  - by apply step_oact.
  - destruct c; cbn [run_callback]; rewrite ?Z.add_0_r in *.
    + by apply step_handleClose.
    + eapply step_weaken; [apply step_emit|lia|done].
    + rewrite Z.add_comm. by apply step_handleRead.
    + eapply step_weaken; [apply step_handleWrite|lia|apply list_subseteq_nil].
  - by apply step_functor.
  - apply step_quiet; [by apply quiet_notice|done].
Qed.

Definition cops_cost (os : list cop) : Z := foldr (fun o n => cop_cost o + n) 0 os.
Definition cops_data (os : list cop) : list bytes := os ≫= cop_data.

Lemma step_cops os w :
  Forall (cop_ok (t_mem w)) os -> step_at (cops_cost os) (cops_data os) (forM os run_cop) w.
Proof.
  revert w. induction os as [|o os IH]; intros w Hos; [apply step_ret|].
  apply Forall_cons in Hos as [Ho Hos]. intros B HB Hi. cbn [forM cops_cost foldr] in *.
  change (cops_data (o :: os)) with (cop_data o ++ cops_data os).
  rewrite wp_bind. fold (cops_cost os) in Hi.
  assert (Hn : 0 <= cops_cost os).
  { clear. induction os as [|o os IH]; [done|]. cbn [cops_cost foldr]. fold (cops_cost os).
    pose proof (cop_cost_nonneg o). lia. }
  rewrite <- Z.add_assoc in Hi.
  eapply wp_mono; [apply (step_cop o w Ho (cops_cost os + B)); [lia|exact Hi]|].
  intros [] w1 (Hi1 & Hr1 & Hg1). rewrite <- (proj1 Hg1) in Hos.
  eapply wp_mono; [exact (IH w1 Hos B HB Hi1)|]. intros [] w2 (Hi2 & Hr2 & Hg2). split_and!; [done| |].
  - eapply refines_trans; [eapply refines_mono; [|exact Hr1]|eapply refines_mono; [|exact Hr2]]; set_solver.
  - exact (grows_trans _ _ _ Hg1 Hg2).
Qed.


(** [send] in the loop's thread on a connected connection takes the whole
    message, unless a direct write fails with [EPIPE] or [ECONNRESET], in which
    case it takes none of it. *)
Theorem send_accepts_whole w p d rep :
  conn_inv (len d) w -> state w = kConnected -> t_mem w !! p = Some d -> len d < 2 ^ 31 ->
  wp (send_string ch true p rep)
     (fun _ w' => state w' = kConnected /\
        ((stream w' = stream w ++ d) \/ (dropped w rep /\ stream w' = stream w)) /\
        channel_isWrite ch w' = bool_decide (out w' <> [])) w.
Proof.
  intros Hi Hst Hp Hlt. unfold send_string, send_string_act, connected, load. wp_simpl. fold (state w).
  rewrite bool_decide_eq_true_2 by done. cbn [whenM]. wp_simpl. rewrite Hp. wp_simpl. rewrite Hp, decide_True by lia. wp_simpl.
  rewrite Nat2Z.id, take_ge by lia.
  eapply wp_mono; [apply (sendInLoop_spec 0); [lia|by rewrite Z.add_0_r|done]|].
  intros [] w' (Hi' & Hst' & _ & _ & _ & Ht). unfold taken in Ht.
  rewrite decide_False in Ht by congruence. split_and!; [congruence| |].
  - destruct Ht as [[? _]|?]; auto.
  - apply (inv_write _ _ Hi'). congruence.
Qed.

(** Write events for as many bytes as are buffered empty the output. *)
Lemma drain_spec B ks w :
  conn_inv B w -> state w = kDisconnecting -> (out w = [] -> eof w = true) -> Forall (fun k => 0 < k)%nat ks ->
  (length (out w) <= sum_list ks)%nat ->
  wp (forM ks (fun k => handleWrite ch (WAccept k)))
     (fun _ w' => eof w' = true /\ state w' = kDisconnecting /\ out w' = [] /\
        s_wire (t_sock w') = stream w) w.
Proof.
  intros Hi Hst He Hks Hsum.
  assert (Hgen : forall s, stream w = s -> (out w = [] -> eof w = true) ->
    wp (forM ks (fun k => handleWrite ch (WAccept k)))
     (fun _ w' => conn_inv B w' /\ state w' = kDisconnecting /\ out w' = [] /\ eof w' = true /\
        stream w' = s) w).
  2: { eapply wp_mono; [apply (Hgen (stream w)); done|]. intros [] w' (_ & Hs & Ho' & He' & Hw).
       split_and!; [done|done|done|]. rewrite <- Hw. unfold stream. by rewrite Ho', app_nil_r. }
  clear He. revert w Hi Hst Hsum. induction Hks as [|k ks Hk Hks IH]; intros w Hi Hst Hsum s Hs He.
  - wp_simpl. simpl in Hsum. assert (out w = []) as Ho by (apply length_zero_iff_nil; lia).
    split_and!; auto.
  - cbn [forM]. rewrite wp_bind. eapply wp_mono; [by eapply handleWrite_spec|].
    intros [] w1 (Hi1 & _ & Hg1 & Hst1 & Hs1 & Hev).
    pose proof (inv_write _ _ Hi ltac:(congruence)) as Hw.
    destruct (bool_decide_reflect (out w <> [])) as [Ho|Ho].
    + assert (Heof : eof w = false).
      { destruct (eof w) eqn:E; [|done]. destruct Ho. apply (inv_eof _ _ Hi); [done|congruence]. }
      specialize (Hev Hw). unfold sock_reply in Hev. fold (eof w) in Hev. rewrite Heof in Hev.
      destruct Hev as [Ho1 He1]. simpl in Hsum.
      apply IH; [done|congruence|rewrite Ho1, length_drop; lia|congruence|auto].
    + apply dec_stable in Ho. 
      assert (Ho1 : out w1 = []).
      { pose proof (inv_eof _ _ Hi1) as Hnil. apply Hnil; [|congruence]. apply Hg1. auto. }
      apply IH; [done|congruence|rewrite Ho1; simpl; lia|congruence|].
      intros _. apply Hg1. auto.
Qed.

(** C15. After [shutdown] the output is drained and then FIN is sent: if the kernel
    takes at least one byte per write event, events for as many bytes as are
    buffered deliver the complete stream followed by FIN. *)
Theorem shutdown_drains B ks w :
  conn_inv B w -> state w = kDisconnecting -> out w <> [] -> Forall (fun k => 0 < k)%nat ks ->
  (length (out w) <= sum_list ks)%nat ->
  wp (forM ks (fun k => handleWrite ch (WAccept k)))
     (fun _ w' => eof w' = true /\ state w' = kDisconnecting /\ out w' = [] /\
        s_wire (t_sock w') = stream w) w.
Proof. intros Hi Hst Ho. by apply (drain_spec B). Qed.

(** [send(const std::string&)] from another thread binds a pointer to the
    caller's string: if the string is gone when the loop runs the functor, the
    loop reads freed memory. *)
Theorem cross_thread_send_dangles w p d rep acts :
  state w = kConnected -> t_pending w = [] -> t_mem w !! p = Some d ->
  (send_string ch false p rep ;; modify (on_mem (base.delete p)) ;; run_functor ch rep acts) w = UB.
Proof.
  intros Hst Hl Hp. unfold send_string, send_string_act, connected, run_functor, load, queueInLoop, mbind, M_bind, getS, modify.
  fold (state w). cbn. rewrite bool_decide_eq_true_2 by done. cbn. unfold getS. rewrite Hp. cbn. rewrite Hl. cbn.
  by rewrite lookup_delete_eq.
Qed.

(** The race in [shutdown]: another thread finds the connection connected, the loop
    closes it, and then the other thread assigns [kDisconnecting]: the connection is no
    longer disconnected although its channel is not watched any more, and its unsent
    output is followed by FIN. *)
Theorem shutdown_race_revives B w :
  conn_inv B w -> state w = kConnected -> t_pending w = [] ->
  wp (b ← connected; handleClose ch [] ;; whenM b (shutdown_set ;; shutdown_act ch false) ;; run_functor ch (WAccept 0) [])
     (fun _ w' => state w' = kDisconnecting /\ channel_isWrite ch w' = false /\ eof w' = true /\ out w' = out w) w.
Proof.
  intros Hi Hst Hl. unfold connected, handleClose, setState, emit, run_user. wp_simpl. fold (state w).
  rewrite bool_decide_eq_true_2 by done. wp_simpl. apply poll_op_spec.
  eapply wp_mono; [apply ci_change_spec, Hi|]. intros [] p (Hp & Hm & _). cbn [forM]. wp_simpl.
  unfold shutdown_set, shutdown_act, setState, queueInLoop, run_functor. wp_simpl.
  cbn [t_pending on_pending on_conn on_trace on_poll]. rewrite Hl. cbn [app]. wp_simpl.
  unfold shutdownInLoop, shutdownWrite, channel_isWrite. wp_simpl. cbn. rewrite Hm.
  replace (has_bits (mask_of disableAll (ci_mask (t_poll w) ch)) kWriteEvent) with false.
  - wp_simpl. done.
  - unfold has_bits. simpl. by rewrite Z.land_0_r.
Qed.

(** ** Life cycle *)

(** A connection as [TcpServer::newConnection] builds it. *)
Definition fresh_conn (wc hw : bool) (poll : P) (mem : gmap Z bytes) : TW P :=
  mkTW (mkConn kConnecting true wc hw (64 * 1024 * 1024) fresh_buffer fresh_buffer)
    poll (mkSocket [] false) [] mem [].

Lemma TcpConnection_new_fresh wc hw poll mem :
  TcpConnection_new wc hw poll mem = Ok (fresh_conn wc hw poll mem).
Proof. unfold TcpConnection_new. by rewrite Buffer_new_fresh. Qed.

Lemma fresh_inv B wc hw poll mem :
  0 <= B <= 2 ^ 62 -> ci_ok poll ch -> ci_mask poll ch = 0 -> conn_inv B (fresh_conn wc hw poll mem).
Proof.
  intros HB Hok Hm. split; [apply fresh_wf|apply fresh_wf|done| |done|done| |by constructor|].
  - intros _. unfold channel_isWrite. cbn. by rewrite Hm.
  - intros [E|E]; [done|]. by apply not_elem_of_nil in E.
  - cbn [fresh_conn t_conn c_input c_output m_buffer fresh_buffer t_pending].
    rewrite length_replicate. change (pending_cost []) with 0.
    unfold extrabuf_size, vector_max_size. lia.
Qed.

Lemma connectEstablished_spec B w :
  conn_inv B w -> eof w = false -> FShutdown ∉ t_pending w -> state w <> kDisconnected ->
  wp (connectEstablished ch [])
     (fun _ w' => conn_inv B w' /\ state w' = kConnected /\ stream w' = stream w /\
        t_trace w' = t_trace w ++ [EvConnection true] /\
        ci_mask (t_poll w') ch = mask_of enableRead (ci_mask (t_poll w) ch) /\
        ci_watched (t_poll w') ch = Some (ci_mask (t_poll w') ch)) w.
Proof.
  intros [H1 H2 H3 H4 H5 H6 H7 H8 H9] Heof Hns Hst. unfold connectEstablished, setState.
  wp_simpl. apply poll_op_spec. eapply wp_mono; [by apply ci_tie_spec|].
  intros [] p1 (Hp1 & Hm1 & _). wp_simpl. apply poll_op_spec.
  eapply wp_mono; [by apply ci_change_spec|]. intros [] p2 (Hp2 & Hm2 & Hw2 & _).
  cbn in Hm1, Hm2, Hw2. unfold emit, run_user. cbn [forM]. wp_simpl.
  assert (Hmask : mask_ok (ci_mask (t_poll w) ch)) by (by apply ci_mask_ok).
  rewrite Hm1 in Hm2, Hw2.
  split_and!; [|done|done|done|done|].
  - split; unfold state, out, eof in *; cbn; try done.
    + intros _. rewrite <- H4 by done. unfold channel_isWrite. cbn. rewrite Hm2.
      destruct Hmask as [-> | [-> | [-> | ->]]]; reflexivity.
    + congruence.
    + intros [E|E]; [congruence|done].
  - cbn. rewrite Hm2. apply Hw2. destruct Hmask as [-> | [-> | [-> | ->]]]; discriminate.
Qed.

(** The life of a connection: established, it is connected and its channel
    watched for reading; on a hang-up it is disconnected, nothing is watched
    any more and the close callback runs; destroyed, its channel is removed.
    The connection callback runs exactly once for each direction. *)
Theorem connection_lifecycle wc hw poll mem :
  ci_ok poll ch -> ci_mask poll ch = 0 ->
  wp (connectEstablished ch [])
     (fun _ w1 => state w1 = kConnected /\ ci_watched (t_poll w1) ch = Some kReadEvent /\
        wp (handleClose ch [] ;; connectDestroyed ch [])
           (fun _ w2 => state w2 = kDisconnected /\ ci_watched (t_poll w2) ch = None /\
              t_trace w2 = [EvConnection true; EvConnection false; EvClose]) w1)
     (fresh_conn wc hw poll mem).
Proof.
  intros Hok Hm. eapply wp_mono.
  { apply (connectEstablished_spec 0); [by apply fresh_inv|done|apply not_elem_of_nil|done]. }
  intros [] w1 (Hi1 & Hst1 & _ & Ht1 & Hm1 & Hw1). cbn in Hm1, Ht1. rewrite Hm in Hm1.
  split_and!; [done|by rewrite Hw1, Hm1|].
  unfold handleClose, setState, emit, run_user. cbn [forM]. wp_simpl. apply poll_op_spec.
  eapply wp_mono; [apply ci_change_spec, Hi1|]. intros [] p2 (Hp2 & Hm2 & _ & Hw2).
  unfold connectDestroyed. wp_simpl. cbn [on_trace on_poll on_conn t_conn c_setState c_state].
  rewrite bool_decide_eq_false_2 by done. apply poll_op_spec.
  eapply wp_mono; [by apply ci_remove_spec|]. intros [] p3 (_ & _ & Hw3).
  split_and!; [done|exact Hw3|]. cbn. by rewrite Ht1.
Qed.
End connection_invariant.

(** ** A concrete connection on the map-based epoll *)

Definition demo_poll : World (gmap Z (Z * Z)) :=
  mkWorld {[300 := Channel_new 9]} ∅ ∅ kInitEventListSize.

Lemma demo_poll_ok : ci_ok demo_poll 300.
Proof.
  split_and!; [|..|by eexists].
  - split.
    + intros p c Hp. cbn in Hp. apply lookup_singleton_Some in Hp as [_ <-].
      split; [by left|by left].
    + intros fd p Hp. cbn in Hp. by rewrite lookup_empty in Hp.
    + intros fd e p Hp. cbn in Hp. by rewrite lookup_empty in Hp.
  - intros c _. left. apply lookup_empty.
Qed.

Definition demo_mem : gmap Z bytes := {[64 := str "hello"]}.
Definition demo_conn : TW (World (gmap Z (Z * Z))) :=
  match connectEstablished 300 [] (fresh_conn true true demo_poll demo_mem) with
  | Ok (_, w) => w
  | _ => fresh_conn true true demo_poll demo_mem
  end.

Lemma demo_conn_inv : conn_inv 300 3000 demo_conn.
Proof.
  assert (H : wp (connectEstablished 300 []) (fun _ w => conn_inv 300 3000 w)
                (fresh_conn true true demo_poll demo_mem)).
  { eapply wp_mono; [apply (connectEstablished_spec 300 3000)|].
    - apply fresh_inv; [lia|exact demo_poll_ok|reflexivity].
    - reflexivity.
    - apply not_elem_of_nil.
    - discriminate.
    - naive_solver. }
  unfold wp in H. unfold demo_conn.
  destruct (connectEstablished 300 [] _) as [[[] w]| |]; [exact H|destruct H..].
Qed.




Lemma send_accepts_whole_witness :
  wp (send_string 300 true 64 (WAccept 2))
     (fun _ w' => state w' = kConnected /\
        ((stream w' = str "hello") \/
         (dropped demo_conn (WAccept 2) /\ stream w' = [])) /\
        channel_isWrite 300 w' = bool_decide (out w' <> [])) demo_conn.
Proof.
  apply (send_accepts_whole 300 demo_conn 64 (str "hello") (WAccept 2)).
  - eapply conn_inv_weaken; [exact demo_conn_inv|]. vm_compute. split; discriminate.
  - vm_compute. reflexivity.
  - vm_compute. reflexivity.
  - vm_compute. reflexivity.
Defined.

(** The connection with three buffered bytes, shutting down. *)
Definition demo_draining : TW (World (gmap Z (Z * Z))) :=
  match forM [OSend 64 (str "hello") (WAccept 2); OShutdown] (run_cop 300) demo_conn with
  | Ok (_, w) => w
  | _ => demo_conn
  end.

Lemma demo_draining_inv : conn_inv 300 0 demo_draining.
Proof.
  assert (H : wp (forM [OSend 64 (str "hello") (WAccept 2); OShutdown] (run_cop 300))
                (fun _ w => conn_inv 300 0 w) demo_conn).
  { eapply wp_mono; [apply (step_cops 300 _ demo_conn) with (B := 0)|].
    - repeat constructor; vm_compute; reflexivity.
    - lia.
    - eapply conn_inv_weaken; [exact demo_conn_inv|]. vm_compute. split; discriminate.
    - naive_solver. }
  unfold wp in H. unfold demo_draining.
  destruct (forM _ _ demo_conn) as [[[] w]| |]; [exact H|destruct H..].
Qed.

Lemma shutdown_drains_witness :
  wp (forM [1; 5]%nat (fun k => handleWrite 300 (WAccept k)))
     (fun _ w' => eof w' = true /\ state w' = kDisconnecting /\ out w' = [] /\
        s_wire (t_sock w') = str "hello") demo_draining.
Proof.
  apply (shutdown_drains 300 0 [1; 5]%nat demo_draining).
  - exact demo_draining_inv.
  - vm_compute. reflexivity.
  - vm_compute. discriminate.
  - repeat constructor.
  - apply Nat.leb_le. vm_compute. reflexivity.
Defined.

Lemma cross_thread_send_dangles_witness :
  (send_string 300 false 64 (WAccept 9) ;; modify (on_mem (base.delete 64)) ;;
   run_functor 300 (WAccept 9) []) demo_conn = UB.
Proof.
  apply (cross_thread_send_dangles 300 demo_conn 64 (str "hello")); vm_compute; reflexivity.
Defined.

Lemma connection_lifecycle_witness :
  wp (connectEstablished 300 [])
     (fun _ w1 => state w1 = kConnected /\ ci_watched (t_poll w1) 300 = Some kReadEvent /\
        wp (handleClose 300 [] ;; connectDestroyed 300 [])
           (fun _ w2 => state w2 = kDisconnected /\ ci_watched (t_poll w2) 300 = None /\
              t_trace w2 = [EvConnection true; EvConnection false; EvClose]) w1)
     (fresh_conn true false demo_poll ∅).
Proof. apply connection_lifecycle; [exact demo_poll_ok|reflexivity]. Defined.
