(* ===== verification/EventLoop.v ===== *)
(** * The event loop ([myserver/include/event_loop.h], [myserver/common/event_loop.cpp])

    One thread runs [loop()]; other threads hand it functors with
    [queueInLoop] and may call [quit].  The state has the members the threads
    share, the counter of the eventfd, and the position of the loop's thread.
    A functor is its name and the calls its body makes on the loop.  Each
    labelled step is one action between which other threads may run: a
    critical section, a write of the eventfd, an assignment of a flag. *)

From S2P Require Import Prelude.

Inductive functor : Type := Fn (name : nat) (body : list fact)
with fact : Type :=
  | AQueue (f : functor)      (* queueInLoop *)
  | ARun (f : functor)        (* runInLoop, in the loop's thread *)
  | AQuit                     (* quit, in the loop's thread *)
  | AWake.                    (* wakeup, the second half of a call above *)

Definition fn_name (f : functor) : nat := let '(Fn n _) := f in n.
Definition fn_body (f : functor) : list fact := let '(Fn _ b) := f in b.

(** Where the loop's thread is. *)
Inductive lpc : Type :=
  | PIdle                                            (* before [loop()] *)
  | PCheck                                           (* [while (!m_quit)] *)
  | PPoll                                            (* in [m_poller->poll] *)
  | PEvents (todo : list fact)                       (* the channels' callbacks *)
  | PFlag                                            (* [m_callPendingFunctors = true] *)
  | PSwap                                            (* the critical section of [doPendingFunctors] *)
  | PRun (todo : list fact) (batch : list functor)   (* the swapped functors *)
  | PUnflag                                          (* [m_callPendingFunctors = false] *)
  | PDone.                                           (* [loop()] returned *)

Record EventLoop := mkLoop {
  l_pc : lpc;
  m_loop : bool;
  m_quit : bool;
  m_callPendingFunctors : bool;
  m_pendingFunctors : list functor;
  l_eventfd : nat;                (* the counter of [m_wakeupFd] *)
  l_testing : nat;                (* other threads between push and the test *)
  l_between : nat;                (* other threads between the test and wakeup *)
  l_pushed : list nat;            (* names queued so far, in order *)
  l_started : list nat;           (* queued functors begun so far, in order *)
}.

Definition EventLoop_new : EventLoop := mkLoop PIdle false false false [] 0 0 0 [] [].

Definition set_pc p s := mkLoop p (m_loop s) (m_quit s) (m_callPendingFunctors s)
  (m_pendingFunctors s) (l_eventfd s) (l_testing s) (l_between s) (l_pushed s) (l_started s).
Definition set_looping b s := mkLoop (l_pc s) b (m_quit s) (m_callPendingFunctors s)
  (m_pendingFunctors s) (l_eventfd s) (l_testing s) (l_between s) (l_pushed s) (l_started s).
Definition set_quit b s := mkLoop (l_pc s) (m_loop s) b (m_callPendingFunctors s)
  (m_pendingFunctors s) (l_eventfd s) (l_testing s) (l_between s) (l_pushed s) (l_started s).
Definition set_calling b s := mkLoop (l_pc s) (m_loop s) (m_quit s) b
  (m_pendingFunctors s) (l_eventfd s) (l_testing s) (l_between s) (l_pushed s) (l_started s).
Definition set_pending l s := mkLoop (l_pc s) (m_loop s) (m_quit s) (m_callPendingFunctors s)
  l (l_eventfd s) (l_testing s) (l_between s) (l_pushed s) (l_started s).
Definition set_eventfd n s := mkLoop (l_pc s) (m_loop s) (m_quit s) (m_callPendingFunctors s)
  (m_pendingFunctors s) n (l_testing s) (l_between s) (l_pushed s) (l_started s).
Definition set_between n s := mkLoop (l_pc s) (m_loop s) (m_quit s) (m_callPendingFunctors s)
  (m_pendingFunctors s) (l_eventfd s) (l_testing s) n (l_pushed s) (l_started s).
Definition set_testing n s := mkLoop (l_pc s) (m_loop s) (m_quit s) (m_callPendingFunctors s)
  (m_pendingFunctors s) (l_eventfd s) n (l_between s) (l_pushed s) (l_started s).
Definition set_pushed l s := mkLoop (l_pc s) (m_loop s) (m_quit s) (m_callPendingFunctors s)
  (m_pendingFunctors s) (l_eventfd s) (l_testing s) (l_between s) l (l_started s).
Definition set_started l s := mkLoop (l_pc s) (m_loop s) (m_quit s) (m_callPendingFunctors s)
  (m_pendingFunctors s) (l_eventfd s) (l_testing s) (l_between s) (l_pushed s) l.

(** ** The members *)

(** The critical section of [queueInLoop]. *)
Definition push (f : functor) (s : EventLoop) : EventLoop :=
  set_pushed (l_pushed s ++ [fn_name f]) (set_pending (m_pendingFunctors s ++ [f]) s).

(** [wakeup] adds one to the eventfd; [handleRead] reads it back to zero. *)
Definition wakeup (s : EventLoop) : EventLoop := set_eventfd (S (l_eventfd s)) s.
Definition handleRead (s : EventLoop) : EventLoop := set_eventfd 0 s.

(** [if (!isInLoopThread() || m_callPendingFunctors) wakeup();] *)
Definition queue_wakes (inLoopThread : bool) (s : EventLoop) : bool :=
  negb inLoopThread || m_callPendingFunctors s.

(** [if (isInLoopThread()) wakeup();] *)
Definition quit_wakes (inLoopThread : bool) : bool := inLoopThread.

(** One call of a body, in the loop's thread: the new state and the calls that
    have to be made before the rest of the body. *)
Definition run_fact (a : fact) (s : EventLoop) : EventLoop * list fact :=
  match a with
  | AQueue f => (push f s, if queue_wakes true s then [AWake] else [])
  | ARun f => (s, fn_body f)
  | AQuit => (set_quit true s, if quit_wakes true then [AWake] else [])
  | AWake => (wakeup s, [])
  end.

(** What [poll] returns with. *)
Inductive poll_result : Type :=
  | Woken (io : list fact)     (* the eventfd is readable; [io]: what other channels do *)
  | Ready (io : list fact)     (* other channels only *)
  | Timeout.                   (* after [kPollTimsMS] *)

Definition kPollTimsMS : Z := 10000.

(** A step of the loop's thread; [poll] may return [r]. *)
Definition loop_step (r : poll_result) (s : EventLoop) : option EventLoop :=
  match l_pc s with
  | PIdle => Some (set_pc PCheck (set_quit false (set_looping true s)))
  | PCheck => if m_quit s then Some (set_pc PDone (set_looping false s)) else Some (set_pc PPoll s)
  | PPoll =>
      match r with
      | Woken io => if (0 <? l_eventfd s)%nat then Some (set_pc (PEvents io) (handleRead s)) else None
      | Ready io => Some (set_pc (PEvents io) s)
      | Timeout => Some (set_pc (PEvents []) s)
      end
  | PEvents [] => Some (set_pc PFlag s)
  | PEvents (a :: todo) =>
      let '(s', more) := run_fact a s in Some (set_pc (PEvents (more ++ todo)) s')
  | PFlag => Some (set_pc PSwap (set_calling true s))
  | PSwap => Some (set_pc (PRun [] (m_pendingFunctors s)) (set_pending [] s))
  | PRun [] [] => Some (set_pc PUnflag s)
  | PRun [] (f :: batch) =>
      Some (set_pc (PRun (fn_body f) batch) (set_started (l_started s ++ [fn_name f]) s))
  | PRun (a :: todo) batch =>
      let '(s', more) := run_fact a s in Some (set_pc (PRun (more ++ todo) batch) s')
  | PUnflag => Some (set_pc PCheck (set_calling false s))
  | PDone => None
  end.

(** ** All threads *)

Inductive llabel : Type :=
  | LLoop (r : poll_result)     (* the loop's thread *)
  | XPush (f : functor)         (* another thread: the critical section of [queueInLoop] *)
  | XTest                       (* ... then the test whether to call [wakeup] *)
  | XWake                       (* ... and then its [wakeup] *)
  | XQuit.                      (* another thread calls [quit] *)

Inductive lstep : EventLoop -> llabel -> EventLoop -> Prop :=
  | step_loop r s s' : loop_step r s = Some s' -> lstep s (LLoop r) s'
  | step_push f s : lstep s (XPush f) (set_testing (S (l_testing s)) (push f s))
  | step_test s n : l_testing s = S n ->
      lstep s XTest (let s := set_testing n s in
                     if queue_wakes false s then set_between (S (l_between s)) s else s)
  | step_wake s n : l_between s = S n -> lstep s XWake (wakeup (set_between n s))
  | step_quit s :
      lstep s XQuit (let s := set_quit true s in if quit_wakes false then wakeup s else s).

Definition lreach (s : EventLoop) : Prop :=
  reachable (fun s => s = EventLoop_new) (fun s s' => exists l, lstep s l s') s.

(** ** Invariants *)

(** The batch being run, empty elsewhere. *)
Definition batch_of (p : lpc) : list functor := match p with PRun _ b => b | _ => [] end.

(** The loop's thread reaches the swap before it polls again. *)
Definition before_swap (p : lpc) : bool :=
  match p with PEvents _ | PFlag | PSwap => true | _ => false end.

Definition will_wake (p : lpc) : Prop :=
  match p with PEvents todo | PRun todo _ => AWake ∈ todo | _ => False end.

(** The calling flag is up exactly while the swapped functors run. *)
Definition flag_of (p : lpc) : bool :=
  match p with PSwap | PRun _ _ | PUnflag => true | _ => false end.

(** A queued functor has somebody who will get the loop to it.  Before [loop()] runs
    nobody polls; after it returned nobody will. *)
Definition covered (s : EventLoop) : Prop :=
  m_pendingFunctors s = [] \/ (0 < l_eventfd s)%nat \/ (0 < l_testing s + l_between s)%nat \/
  before_swap (l_pc s) = true \/ will_wake (l_pc s).

Record loop_inv (s : EventLoop) : Prop := {
  li_flag : m_callPendingFunctors s = flag_of (l_pc s);
  li_covered : covered s;
  li_fifo : l_pushed s = l_started s ++ (fn_name <$> batch_of (l_pc s)) ++
                         (fn_name <$> m_pendingFunctors s);
}.

Lemma run_fact_inv a s s' more :
  run_fact a s = (s', more) ->
  l_pc s' = l_pc s /\ m_callPendingFunctors s' = m_callPendingFunctors s /\
  l_testing s' = l_testing s /\ l_between s' = l_between s /\ l_started s' = l_started s /\
  (exists fs, m_pendingFunctors s' = m_pendingFunctors s ++ fs /\
     l_pushed s' = l_pushed s ++ (fn_name <$> fs) /\
     (fs <> [] -> m_callPendingFunctors s = true -> AWake ∈ more)) /\
  (l_eventfd s <= l_eventfd s')%nat /\ (a = AWake -> (0 < l_eventfd s')%nat).
Proof.
  destruct a as [f|f| |]; cbn [run_fact queue_wakes quit_wakes negb orb]; intros [= <- <-]; cbn.
  - split_and!; try done. exists [f]. split_and!; [done|done|]. intros _ ->. by left.
  - split_and!; try done. exists []. rewrite ?app_nil_r. done.
  - split_and!; try done. exists []. rewrite ?app_nil_r. done.
  - split_and!; try done; [|lia|lia]. exists []. by rewrite !app_nil_r.
Qed.

(** A call of a body, in either phase. *)
Lemma body_step_inv s s' a todo more p p' :
  loop_inv s -> run_fact a s = (s', more) -> l_pc s = p ->
  (p = PEvents (a :: todo) /\ p' = PEvents (more ++ todo)) \/
  (exists b, p = PRun (a :: todo) b /\ p' = PRun (more ++ todo) b) ->
  loop_inv (set_pc p' s').
Proof.
  intros [Hf Hc Hq] Hrun Hp Hpp.
  destruct (run_fact_inv _ _ _ _ Hrun) as (_ & Hcall & Hte & Hbet & Hst & (fs & Hpend & Hpush & Hw) & Hev & Haw).
  assert (Hbatch : batch_of p' = batch_of p /\ flag_of p' = flag_of p)
    by (destruct Hpp as [[-> ->]|(b & -> & ->)]; done).
  destruct Hbatch as [Hb Hfl]. split; cbn.
  - rewrite Hcall, Hf, Hp. done.
  - destruct Hpp as [[-> ->]|(b & -> & ->)].
    { unfold covered. cbn. auto. }
    unfold covered in *. cbn. rewrite Hpend, Hte, Hbet, Hp in *. cbn in Hc.
    destruct fs as [|f fs].
    + rewrite app_nil_r. destruct Hc as [Hc|[Hc|[Hc|[Hc|Hc]]]]; [auto|right; left; lia|auto|done|].
      apply elem_of_cons in Hc as [<-|Hc]; [right; left; auto|].
      do 4 right. apply elem_of_app. by right.
    + do 4 right. apply elem_of_app. left. apply Hw; [done|]. by rewrite Hf.
  - rewrite Hpush, Hpend, Hst, Hq, Hp, Hb, fmap_app, !app_assoc. done.
Qed.

Lemma loop_inv_step s l s' : loop_inv s -> lstep s l s' -> loop_inv s'.
Proof.
  intros Hi Hstep. pose proof Hi as [Hf Hc Hq]. destruct Hstep as [r s s' Hs|f s|s n Hb|s n Hb|s].
  - unfold loop_step in Hs. unfold covered in Hc.
    destruct (l_pc s) as [| | |todo| | |todo batch| |] eqn:Hp; cbn in Hf, Hc, Hq.
    + injection Hs as <-. split; unfold covered; cbn; auto.
    + destruct (m_quit s); injection Hs as <-; split; unfold covered; cbn; auto.
    + destruct r; [destruct (0 <? l_eventfd s)%nat; [|done]| |]; injection Hs as <-;
        split; unfold covered; cbn; auto.
    + destruct todo as [|a todo].
      * injection Hs as <-. split; unfold covered; cbn; auto.
      * destruct (run_fact a s) as [s1 more] eqn:Hr. injection Hs as <-.
        eapply body_step_inv; [exact Hi|exact Hr|exact Hp|]. by left.
    + injection Hs as <-. split; unfold covered; cbn; auto.
    + injection Hs as <-. split; unfold covered; cbn; auto.
      by rewrite app_nil_r.
    + destruct todo as [|a todo].
      * assert (Hc' : m_pendingFunctors s = [] \/ (0 < l_eventfd s)%nat \/ (0 < l_testing s + l_between s)%nat).
        { destruct Hc as [?|[?|[?|[?|Hc]]]]; auto; [done|]. by apply not_elem_of_nil in Hc. }
        destruct batch as [|f batch]; injection Hs as <-; split; unfold covered; cbn; try done; try tauto.
        by rewrite Hq, <- app_assoc.
      * destruct (run_fact a s) as [s1 more] eqn:Hr. injection Hs as <-.
        eapply body_step_inv; [exact Hi|exact Hr|exact Hp|]. right. by exists batch.
    + injection Hs as <-. split; unfold covered; cbn; auto.
    + done.
  - split; cbn.
    + done.
    + right. right. left. cbn. lia.
    + by rewrite Hq, fmap_app, !app_assoc.
  - split; cbn; [done| |done]. right. right. left. cbn. lia.
  - split; cbn; [done|right; left; cbn; lia|done].
  - split; cbn; [done| |done]. destruct Hc as [?|[?|[?|[?|?]]]]; unfold covered; cbn; auto.
Qed.

Lemma loop_inv_reach s : lreach s -> loop_inv s.
Proof.
  apply reachable_invariant.
  - intros ? ->. split; [done|by left|done].
  - intros s1 s2 _ Hi [l Hl]. by eapply loop_inv_step.
Qed.

(** C9. No wake-up is lost: in every interleaving of the loop with any number of
    threads that call [queueInLoop], and whatever the functors and callbacks
    queue themselves, if the loop's thread is in [poll] and a functor is
    queued, then [poll] can return at once because the eventfd is readable, or
    a thread that has queued is about to make it so: by its [wakeup], or by its test
    of whether to call [wakeup] and then the call. *)
Theorem no_lost_wakeup s :
  lreach s -> l_pc s = PPoll -> m_pendingFunctors s <> [] ->
  (exists s', loop_step (Woken []) s = Some s' /\ l_eventfd s' = 0%nat) \/
  (exists s', (lstep s XWake s' \/ exists s1, lstep s XTest s1 /\ lstep s1 XWake s') /\
     exists s'', loop_step (Woken []) s' = Some s'').
Proof.
  intros Hr Hp Hne. destruct (li_covered _ (loop_inv_reach _ Hr)) as [Hc|[Hc|[Hc|[Hc|Hc]]]];
    rewrite ?Hp in Hc; try done.
  - left. unfold loop_step. rewrite Hp. rewrite (proj2 (Nat.ltb_lt _ _)) by lia. by eexists.
  - right. destruct (l_between s) as [|n] eqn:Hb.
    + destruct (l_testing s) as [|n] eqn:Ht; [lia|]. eexists. split.
      * right. eexists. split; [by apply step_test|]. apply step_wake. cbn. by rewrite Hb.
      * unfold loop_step. cbn. rewrite Hp. by eexists.
    + eexists. split; [left; by apply step_wake|]. unfold loop_step. cbn. rewrite Hp. by eexists.
Qed.

(** C14. Functors run exactly once and in the order they were queued: at any time the
    queued names are those begun, then those of the batch being run, then those
    still pending. *)
Theorem functors_fifo s :
  lreach s ->
  l_pushed s = l_started s ++ (fn_name <$> batch_of (l_pc s)) ++ (fn_name <$> m_pendingFunctors s).
Proof. intros Hr. apply (li_fifo _ (loop_inv_reach _ Hr)). Qed.

(** ** One iteration of the loop's thread alone *)

Fixpoint loop_steps (fuel : nat) (stop : EventLoop -> bool) (s : EventLoop) : option EventLoop :=
  if stop s then Some s
  else match fuel with
       | O => None
       | S fuel => match loop_step Timeout s with Some s' => loop_steps fuel stop s' | None => None end
       end.

Definition at_check (s : EventLoop) : bool := match l_pc s with PCheck => true | _ => false end.

Lemma loop_steps_stop k stop s : stop s = true -> loop_steps k stop s = Some s.
Proof. intros H. destruct k; cbn; by rewrite H. Qed.

(** The number of calls a functor makes, counting those of the functors it runs
    directly and the wake-ups. *)
Fixpoint functor_size (f : functor) : nat :=
  match f with
  | Fn _ body =>
      S (S ((fix go (l : list fact) : nat :=
            match l with [] => 0%nat | a :: l' => (fact_size a + go l')%nat end) body))
  end
with fact_size (a : fact) : nat :=
  match a with
  | AQueue _ => 2%nat
  | ARun f => functor_size f
  | AQuit => 2%nat
  | AWake => 1%nat
  end.

Definition facts_size (l : list fact) : nat := sum_list (fact_size <$> l).
Definition batch_size (l : list functor) : nat := sum_list (functor_size <$> l).

Lemma functor_size_eq f : functor_size f = (2 + facts_size (fn_body f))%nat.
Proof.
  destruct f as [n body]. simpl. do 2 f_equal. unfold facts_size.
  induction body as [|a l IH]; simpl; [done|]. by rewrite IH.
Qed.

Lemma run_fact_size a s s' more :
  run_fact a s = (s', more) -> (facts_size more < fact_size a)%nat.
Proof.
  destruct a as [f|f| |]; cbn; intros [= <- <-]; unfold facts_size; cbn.
  - destruct (m_callPendingFunctors s); cbn; lia.
  - rewrite functor_size_eq. unfold facts_size. lia.
  - lia.
  - lia.
Qed.

Lemma facts_size_app l1 l2 : facts_size (l1 ++ l2) = (facts_size l1 + facts_size l2)%nat.
Proof. unfold facts_size. rewrite fmap_app. induction (fact_size <$> l1); cbn; lia. Qed.

Lemma run_batch_terminates k todo batch s :
  l_pc s = PRun todo batch -> (facts_size todo + batch_size batch + 2 <= k)%nat ->
  exists s', loop_steps k at_check s = Some s' /\ l_pc s' = PCheck /\
    l_started s' = l_started s ++ (fn_name <$> batch).
Proof.
  revert todo batch s. induction k as [|k IH]; intros todo batch s Hp Hk; [lia|].
  cbn [loop_steps]. unfold at_check at 1. rewrite Hp. unfold loop_step. rewrite Hp.
  destruct todo as [|a todo]; [destruct batch as [|f batch]|].
  - destruct k as [|k]; [cbn in Hk; lia|]. cbn. rewrite loop_steps_stop by done.
    eexists. split; [done|]. cbn. by rewrite app_nil_r.
  - destruct (IH (fn_body f) batch (set_pc (PRun (fn_body f) batch)
        (set_started (l_started s ++ [fn_name f]) s))) as (s' & H1 & H2 & H3); [done| |].
    + unfold batch_size in *. cbn in Hk. rewrite functor_size_eq in Hk. lia.
    + exists s'. split_and!; [done|done|]. rewrite H3. cbn. by rewrite <- app_assoc.
  - destruct (run_fact a s) as [s1 more] eqn:Hr.
    pose proof (run_fact_size _ _ _ _ Hr) as Hlt.
    destruct (run_fact_inv _ _ _ _ Hr) as (_ & _ & _ & _ & Hst & _).
    destruct (IH (more ++ todo) batch (set_pc (PRun (more ++ todo) batch) s1))
      as (s' & H1 & H2 & H3); [done| |].
    + rewrite facts_size_app. unfold facts_size in *. cbn in Hk. lia.
    + exists s'. split_and!; [done|done|]. rewrite H3. cbn. by rewrite Hst.
Qed.

(** [doPendingFunctors] terminates and runs exactly the functors that were queued
    when it started: undisturbed by other threads, the loop's thread reaches the
    next test of [m_quit] in a bounded number of steps, having begun each of
    them once and in order; functors they queue wait for the next iteration. *)
Theorem doPendingFunctors_terminates s :
  l_pc s = PFlag ->
  exists s', loop_steps (batch_size (m_pendingFunctors s) + 4) at_check s = Some s' /\
    l_pc s' = PCheck /\ l_started s' = l_started s ++ (fn_name <$> m_pendingFunctors s).
Proof.
  intros Hp. set (fs := m_pendingFunctors s).
  replace (batch_size fs + 4)%nat with (S (S (batch_size fs + 2))) by lia.
  cbn [loop_steps]. unfold at_check at 1, loop_step at 1. rewrite Hp.
  cbn [loop_steps]. unfold at_check at 1, loop_step at 1. cbn [set_pc l_pc].
  destruct (run_batch_terminates (batch_size fs + 2) [] fs
    (set_pc (PRun [] fs) (set_pending [] (set_pc PSwap (set_calling true s))))) as (s' & H1 & H2 & H3);
    [done|unfold facts_size; cbn; lia|].
  exists s'. split_and!; [exact H1|done|done].
Qed.

(** ** [quit] *)

(** [quit] from another thread does not wake the loop (the test in [quit] is
    inverted): if the loop is blocked in [poll], after the call it still is;
    only an unrelated event or the time-out lets it see the flag. *)
Theorem quit_does_not_wake s :
  l_pc s = PPoll -> l_eventfd s = 0%nat ->
  exists s', lstep s XQuit s' /\ m_quit s' = true /\ l_pc s' = PPoll /\
    (forall io, loop_step (Woken io) s' = None).
Proof.
  intros Hp He. eexists. split; [by apply step_quit|]. split_and!; [done|done|].
  intros io. unfold loop_step. cbn. by rewrite Hp, He.
Qed.

(** [quit] before [loop()] is lost: [loop()] starts by clearing the flag. *)
Theorem quit_before_loop_lost s :
  l_pc s = PIdle -> forall r, exists s' s'', lstep s XQuit s' /\ lstep s' (LLoop r) s'' /\
    l_pc s'' = PCheck /\ m_quit s'' = false /\ exists s3, lstep s'' (LLoop r) s3 /\ l_pc s3 = PPoll.
Proof.
  intros Hp r. eexists _, _. split; [by apply step_quit|]. split.
  - apply step_loop. unfold loop_step. cbn. by rewrite Hp.
  - split_and!; [done|done|]. eexists. split; [by apply step_loop|done].
Qed.

(** ** Witnesses: a loop in [poll], with one functor queued by another thread *)

Definition demo_fn : functor := Fn 1 [AQueue (Fn 2 []); ARun (Fn 3 [AQuit])].

Definition demo_polling : EventLoop :=
  default EventLoop_new (s ← loop_step Timeout EventLoop_new; loop_step Timeout s).

Definition demo_queued : EventLoop := set_testing 1 (push demo_fn demo_polling).

Lemma demo_polling_reach : lreach demo_polling.
Proof.
  eapply reach_step; [eapply reach_step; [by apply reach_init|]|].
  - exists (LLoop Timeout). apply step_loop. reflexivity.
  - exists (LLoop Timeout). apply step_loop. reflexivity.
Qed.

Lemma demo_queued_reach : lreach demo_queued.
Proof.
  eapply reach_step; [exact demo_polling_reach|]. exists (XPush demo_fn).
  apply (step_push demo_fn demo_polling).
Qed.

Lemma no_lost_wakeup_witness :
  (exists s', loop_step (Woken []) demo_queued = Some s' /\ l_eventfd s' = 0%nat) \/
  (exists s', (lstep demo_queued XWake s' \/ exists s1, lstep demo_queued XTest s1 /\ lstep s1 XWake s') /\
     exists s'', loop_step (Woken []) s' = Some s'').
Proof. apply (no_lost_wakeup demo_queued demo_queued_reach); [reflexivity|discriminate]. Defined.

Lemma functors_fifo_witness :
  l_pushed demo_queued = [1%nat] /\
  l_pushed demo_queued = l_started demo_queued ++ (fn_name <$> batch_of (l_pc demo_queued)) ++
                         (fn_name <$> m_pendingFunctors demo_queued).
Proof. split; [reflexivity|exact (functors_fifo demo_queued demo_queued_reach)]. Defined.

Lemma doPendingFunctors_terminates_witness :
  exists s', loop_steps 12 at_check (set_pc PFlag demo_queued) = Some s' /\
    l_pc s' = PCheck /\ l_started s' = [1%nat].
Proof. apply (doPendingFunctors_terminates (set_pc PFlag demo_queued)). reflexivity. Defined.

Lemma quit_does_not_wake_witness :
  exists s', lstep demo_polling XQuit s' /\ m_quit s' = true /\ l_pc s' = PPoll /\
    (forall io, loop_step (Woken io) s' = None).
Proof. apply (quit_does_not_wake demo_polling); reflexivity. Defined.

Lemma quit_before_loop_lost_witness :
  exists s' s'', lstep EventLoop_new XQuit s' /\ lstep s' (LLoop Timeout) s'' /\
    l_pc s'' = PCheck /\ m_quit s'' = false /\
    exists s3, lstep s'' (LLoop Timeout) s3 /\ l_pc s3 = PPoll.
Proof. apply (quit_before_loop_lost EventLoop_new). reflexivity. Defined.
