(* ===== verification/ThreadPool.v ===== *)
(** * Threads ([myserver/include/mythread.h], [thread/mythread.cpp],
      [include/current_thread.h], [thread/current_thread.cpp],
      [include/event_loop_thread.h], [thread/event_loop_thread.cpp],
      [include/event_loop_threadpool.h], [common/event_loop_threadpool.cpp])

    [EventLoopThread] is a small concurrent program of two threads, modelled as
    a step relation; the pool's scheduling is sequential. *)

From S2P Require Import Prelude CppInt CText.

(** ** [CurrentThread::tid]: the cached thread id of a thread *)

Section current_thread.
Context (gettid : Z).

Definition cacheTid (t_cachedTid : Z) : Z :=
  if decide (t_cachedTid = 0) then s32 gettid else t_cachedTid.
Definition tid (t_cachedTid : Z) : Z * Z :=
  let t := if decide (t_cachedTid = 0) then cacheTid t_cachedTid else t_cachedTid in (t, t).
End current_thread.

(** ** [MyThread] *)

Record MyThread := mkThread {
  m_startd : bool;
  m_joined : bool;
  m_tid : Z;
  m_name : bytes;
}.

(** The name and the new value of [s_numCreated] ([++] of an atomic wraps). *)
Definition setDefaultName (s_numCreated : Z) (name : bytes) : bytes * Z :=
  let num := s32 (s_numCreated + 1) in
  (if decide (name = []) then str "Thread-" ++ number_text num else name, num).

Definition MyThread_new (s_numCreated : Z) (name : bytes) : MyThread * Z :=
  let '(n, num) := setDefaultName s_numCreated name in (mkThread false false 0 n, num).

(** [start] waits until the new thread has stored its id. *)
Definition MyThread_start (child_tid : Z) (t : MyThread) : MyThread :=
  mkThread true (m_joined t) child_tid (m_name t).
(** [join] dereferences the [std::thread], which exists only after [start]. *)
Definition MyThread_join (t : MyThread) : outcome MyThread :=
  if m_startd t then Ok (mkThread (m_startd t) true (m_tid t) (m_name t)) else UB.
(** The destructor detaches a running thread that was not joined. *)
Definition MyThread_detaches (t : MyThread) : bool := m_startd t && negb (m_joined t).

(** ** [EventLoopThreadPool]

    The loops are their addresses; [started] counts the threads made. *)

Record Pool := mkPool {
  p_loop : Z;                     (* the base loop *)
  p_name : bytes;
  p_started : bool;
  p_numThreads : Z;
  p_next : Z;
  p_loops : list Z;
  p_threads : list bytes;         (* the names of the threads made *)
}.

Definition Pool_new (loop : Z) (name : bytes) : Pool := mkPool loop name false 0 0 [] [].
Definition setThreadNum (n : Z) (p : Pool) : Pool :=
  mkPool (p_loop p) (p_name p) (p_started p) n (p_next p) (p_loops p) (p_threads p).

(** ["%s_%d"] into an array of [m_name.size() + 32] characters; [c_str] stops at a NUL. *)
Definition thread_name (name : bytes) (i : Z) : bytes :=
  take (length name + 31) (match find_char "000"%char name with
                           | Some k => take k name | None => name end ++ str "_" ++ number_text i).

(** [start]: [startLoop i] is the address of the loop the [i]-th thread delivers.
    The result says whether the callback ran on the base loop. *)
Definition Pool_start (startLoop : Z -> Z) (cb : bool) (p : Pool) : Pool * bool :=
  let idx := seqZ 0 (p_numThreads p) in
  (mkPool (p_loop p) (p_name p) true (p_numThreads p) (p_next p)
     (p_loops p ++ (startLoop <$> idx)) (p_threads p ++ (thread_name (p_name p) <$> idx)),
   bool_decide (p_numThreads p = 0) && cb).

Definition getNextLoop (p : Pool) : outcome (Z * Pool) :=
  match p_loops p with
  | [] => Ok (p_loop p, p)
  | _ =>
      match (if decide (0 <= p_next p) then p_loops p !! Z.to_nat (p_next p) else None) with
      | Some loop =>
          let next := u64 (p_next p + 1) in
          let next := if decide (next >= len (p_loops p)) then 0 else next in
          Ok (loop, mkPool (p_loop p) (p_name p) (p_started p) (p_numThreads p) next
                      (p_loops p) (p_threads p))
      | None => UB
      end
  end.

Definition getAllLoops (p : Pool) : list Z :=
  match p_loops p with [] => [p_loop p] | l => l end.

(** The loops handed out by a number of calls. *)
Fixpoint next_loops (n : nat) (p : Pool) : outcome (list Z * Pool) :=
  match n with
  | O => Ok ([], p)
  | S n => '(l, p') ← getNextLoop p; '(ls, p'') ← next_loops n p'; Ok (l :: ls, p'')
  end.

Definition pool_ok (p : Pool) : Prop :=
  len (p_loops p) < 2 ^ 63 /\ (p_loops p = [] \/ 0 <= p_next p < len (p_loops p)).

Lemma getNextLoop_spec p :
  pool_ok p ->
  exists l p', getNextLoop p = Ok (l, p') /\ pool_ok p' /\ p_loops p' = p_loops p /\
    p_loop p' = p_loop p /\
    (p_loops p <> [] ->
     p_loops p !! Z.to_nat (p_next p) = Some l /\
     p_next p' = (p_next p + 1) mod len (p_loops p)) /\
    (p_loops p = [] -> l = p_loop p).
Proof.
  intros Hok. pose proof Hok as [Hlen Hnext]. unfold getNextLoop.
  destruct (p_loops p) as [|l0 ls] eqn:El.
  { exists (p_loop p), p. split; [done|]. split; [exact Hok|]. by split_and!. }
  destruct Hnext as [|Hnext]; [done|]. rewrite decide_True by lia.
  destruct (lookup_lt_is_Some_2 (l0 :: ls) (Z.to_nat (p_next p))) as [l Hl]; [lia|].
  rewrite Hl. eexists _, _. split; [done|]. unfold pool_ok. cbn [p_loops p_next p_loop]. rewrite u64_small by lia.
  assert (Hmod : (if decide (p_next p + 1 >= len (l0 :: ls)) then 0 else p_next p + 1) =
                 (p_next p + 1) mod len (l0 :: ls)).
  { case_decide.
    - replace (p_next p + 1) with (len (l0 :: ls)) by lia. rewrite Z.mod_same; lia.
    - rewrite Z.mod_small; lia. }
  rewrite Hmod. pose proof (Z.mod_pos_bound (p_next p + 1) (len (l0 :: ls)) ltac:(simpl; lia)).
  split_and!; [done|by right|done|done|done|done].
Qed.

(** [getNextLoop] is a round robin: with threads, the [k]-th call from the start
    returns loop [k mod n], so any [n] consecutive calls hand out every loop once; without threads
    every call returns the base loop. *)
Theorem getNextLoop_round_robin p k :
  pool_ok p ->
  exists ls p', next_loops k p = Ok (ls, p') /\ length ls = k /\
    forall i, (i < k)%nat ->
      ls !! i = if decide (p_loops p = []) then Some (p_loop p)
                else p_loops p !! Z.to_nat ((p_next p + Z.of_nat i) mod len (p_loops p)).
Proof.
  revert p. induction k as [|k IH]; intros p Hp.
  { eexists _, _. split_and!; [done|done|lia]. }
  destruct (getNextLoop_spec p Hp) as (l & p1 & Hg & Hp1 & Hl1 & Hb1 & Hne & He).
  destruct (IH p1 Hp1) as (ls & p2 & Hn & Hlen & Hls).
  exists (l :: ls), p2. cbn [next_loops]. rewrite Hg. cbn [mbind outcome_bind]. rewrite Hn.
  split_and!; [done|by rewrite <- Hlen|]. intros [|i] Hi; cbn [lookup list_lookup].
  - destruct Hp as [_ Hpn]. clear Hls. case_decide as Hd; [by rewrite (He Hd)|]. destruct Hpn as [|Hpn]; [done|].
    rewrite Z.add_0_r, Z.mod_small by lia. symmetry. by apply Hne.
  - rewrite Hls, Hl1, Hb1 by lia. clear Hls. case_decide as Hd; [done|]. destruct (Hne Hd) as [_ ->].
    f_equal. f_equal. rewrite Zplus_mod_idemp_l. f_equal. lia.
Qed.

Definition demo_pool : Pool := (Pool_start (fun i => 1000 + i) true (setThreadNum 3 (Pool_new 7 (str "io")))).1.

Lemma getNextLoop_round_robin_witness :
  exists ls p', next_loops 5 demo_pool = Ok (ls, p') /\ length ls = 5%nat /\
    forall i, (i < 5)%nat ->
      ls !! i = if decide (p_loops demo_pool = []) then Some (p_loop demo_pool)
                else p_loops demo_pool !! Z.to_nat ((p_next demo_pool + Z.of_nat i) mod len (p_loops demo_pool)).
Proof.
  apply (getNextLoop_round_robin demo_pool 5).
  split; [vm_compute; reflexivity|right; vm_compute; split; [discriminate|reflexivity]].
Defined.

(** ** [EventLoopThread]

    The child's thread function and the two members its owner calls.  The
    flag [m_quit] is the loop's; [loop()] clears it before its first test. *)

Inductive child_pc : Type :=
  | CNone            (* not started *)
  | CInit            (* [EventLoop loop; m_initCallback] *)
  | CPublished       (* [m_loop = &loop; notify_one()] done, before [loop.loop()] *)
  | CLooping         (* in [loop()], which has cleared [m_quit] *)
  | CLeft            (* [loop()] returned *)
  | CDone.           (* [m_loop = nullptr], thread function returned *)

Inductive owner_pc : Type :=
  | ONew
  | OWaiting         (* [startLoop], in the wait loop *)
  | OReturned (loop : bool)    (* [startLoop] returned; whether the pointer is not null *)
  | OJoining         (* the destructor has called [quit] and waits for the thread *)
  | OGone.           (* the destructor returned *)

Record ELT := mkELT {
  e_child : child_pc;
  e_owner : owner_pc;
  e_loop : bool;               (* [m_loop != nullptr] *)
  e_quit : bool;               (* the loop's [m_quit] *)
}.

Definition ELT_new : ELT := mkELT CNone ONew false false.

Inductive elt_step : ELT -> ELT -> Prop :=
  (* the owner: startLoop *)
  | elt_start l q : elt_step (mkELT CNone ONew l q) (mkELT CInit OWaiting l q)
  | elt_wait_done c q : elt_step (mkELT c OWaiting true q) (mkELT c (OReturned true) true q)
  (* the owner: the destructor *)
  | elt_dtor_quit c b q : elt_step (mkELT c (OReturned b) true q) (mkELT c OJoining true true)
  | elt_dtor_skip c b q : elt_step (mkELT c (OReturned b) false q) (mkELT c OGone false q)
  | elt_join l q : elt_step (mkELT CDone OJoining l q) (mkELT CDone OGone l q)
  (* the child *)
  | elt_publish o l q : elt_step (mkELT CInit o l q) (mkELT CPublished o true q)
  | elt_enter o l q : elt_step (mkELT CPublished o l q) (mkELT CLooping o l false)
  | elt_leave o l : elt_step (mkELT CLooping o l true) (mkELT CLeft o l true)
  | elt_done o l q : elt_step (mkELT CLeft o l q) (mkELT CDone o false q).

Definition elt_reach : ELT -> Prop := reachable (fun s => s = ELT_new) elt_step.

Definition elt_inv (s : ELT) : Prop :=
  match e_child s with
  | CNone => e_owner s = ONew /\ e_loop s = false
  | CInit => e_owner s = OWaiting /\ e_loop s = false
  | CPublished | CLooping | CLeft => e_owner s <> ONew /\ e_owner s <> OGone /\ e_loop s = true
  | CDone => e_owner s <> ONew
  end /\
  (forall b, e_owner s = OReturned b -> b = true).

Lemma elt_inv_step s s' : elt_inv s -> elt_step s s' -> elt_inv s'.
Proof.
  unfold elt_inv. destruct 2; cbn in *;
    repeat match goal with |- context [match ?c with CNone => _ | _ => _ end] => destruct c end;
    naive_solver.
Qed.

(** [startLoop] returns only a loop that exists: whenever it has returned, the
    pointer it returned is not null and the child has published its loop; while
    it waits the child has not finished publishing or the pointer is already set,
    so the owner is never left waiting for a loop that exists; the destructor
    does not return while the child's loop is alive. *)
Theorem startLoop_returns_loop s :
  elt_reach s ->
  (forall b, e_owner s = OReturned b -> b = true /\ e_child s <> CNone /\ e_child s <> CInit) /\
  (e_owner s = OWaiting -> e_child s = CInit \/ e_loop s = true \/ e_child s = CDone) /\
  (e_owner s = OGone -> e_child s = CDone).
Proof.
  intros Hr. assert (Hi : elt_inv s).
  { revert s Hr. apply reachable_invariant; [intros ? ->; done|].
    intros s1 s2 _ Hi Hs. by eapply elt_inv_step. }
  destruct s as [c o l q]. unfold elt_inv in Hi. cbn in *. destruct Hi as [Hc Ho].
  destruct c, o; naive_solver.
Qed.

(** Destroying an [EventLoopThread] right after [startLoop] can hang forever: the
    child may still be before [loop()], whose first assignment undoes the
    [quit]; then the owner waits in [join] and no step is possible any more. *)
Theorem destructor_can_hang :
  exists s, elt_reach s /\ e_owner s = OJoining /\ e_child s = CLooping /\
    forall s', ~ elt_step s s'.
Proof.
  exists (mkELT CLooping OJoining true false). split_and!; [|done|done|].
  - eapply reach_step; [eapply reach_step; [eapply reach_step; [eapply reach_step;
      [eapply reach_step; [by apply reach_init|]|]|]|]|].
    + apply elt_start.
    + apply elt_publish.
    + apply elt_wait_done.
    + apply elt_dtor_quit.
    + apply elt_enter.
  - intros s' Hs. inversion Hs.
Qed.

Lemma startLoop_returns_loop_witness :
  let s := mkELT CPublished (OReturned true) true false in
  elt_reach s /\
  (forall b, e_owner s = OReturned b -> b = true /\ e_child s <> CNone /\ e_child s <> CInit) /\
  (e_owner s = OWaiting -> e_child s = CInit \/ e_loop s = true \/ e_child s = CDone) /\
  (e_owner s = OGone -> e_child s = CDone).
Proof.
  assert (Hr : elt_reach (mkELT CPublished (OReturned true) true false)).
  { eapply reach_step; [eapply reach_step; [eapply reach_step; [by apply reach_init|]|]|].
    - apply elt_start.
    - apply elt_publish.
    - apply elt_wait_done. }
  split; [exact Hr|]. exact (startLoop_returns_loop _ Hr).
Defined.
