(* ===== verification/HttpRequest.v ===== *)
(** * HTTP requests and their parser ([myserver/include/http_request.h],
      [myserver/include/http_context.h], [myserver/http/http_context.cpp])

    The parser works on the input [Buffer] of a connection.  Ranges of
    characters between two pointers are byte lists.  The [while] loop of
    [parseRequest] has no bound, so the loop takes fuel and [None] says that
    it is still running. *)

From S2P Require Import Prelude CppInt CText Sys Buffer.

Inductive Method : Type := Invalid | GET | POST | HEAD | PUT | DELETE.
Inductive Version : Type := Unknown | Http10 | Http11.

#[export] Instance Method_eq_dec : EqDecision Method.
Proof. solve_decision. Defined.
#[export] Instance Version_eq_dec : EqDecision Version.
Proof. solve_decision. Defined.

Record HttpRequest := mkRequest {
  m_method : Method;
  m_version : Version;
  m_path : bytes;
  m_query : bytes;
  m_receiveTime : Z;
  m_headers : gmap bytes bytes;
}.

Definition HttpRequest_new : HttpRequest := mkRequest Invalid Unknown [] [] 0 ∅.

Definition setVersion (v : Version) (r : HttpRequest) : HttpRequest :=
  mkRequest (m_method r) v (m_path r) (m_query r) (m_receiveTime r) (m_headers r).
Definition setPath (p : bytes) (r : HttpRequest) : HttpRequest :=
  mkRequest (m_method r) (m_version r) p (m_query r) (m_receiveTime r) (m_headers r).
Definition setQuery (q : bytes) (r : HttpRequest) : HttpRequest :=
  mkRequest (m_method r) (m_version r) (m_path r) q (m_receiveTime r) (m_headers r).
Definition setReceiveTime (t : Z) (r : HttpRequest) : HttpRequest :=
  mkRequest (m_method r) (m_version r) (m_path r) (m_query r) t (m_headers r).

Definition setMethod (m : bytes) (r : HttpRequest) : HttpRequest * bool :=
  let method :=
    if decide (m = str "GET") then GET
    else if decide (m = str "POST") then POST
    else if decide (m = str "HEAD") then HEAD
    else if decide (m = str "PUT") then PUT
    else if decide (m = str "DELETE") then DELETE
    else Invalid in
  (mkRequest method (m_version r) (m_path r) (m_query r) (m_receiveTime r) (m_headers r),
   bool_decide (method <> Invalid)).

Definition methodString (r : HttpRequest) : bytes :=
  match m_method r with
  | GET => str "GET" | POST => str "POST" | HEAD => str "HEAD" | PUT => str "PUT"
  | DELETE => str "DELETE" | Invalid => str "UNKNOWN"
  end.

(** [isspace] in the "C" locale. *)
Definition isspace (c : Ascii.ascii) : bool :=
  let n := nat_of_ascii c in ((9 <=? n) && (n <=? 13) || (n =? 32))%nat.

Fixpoint skip_spaces (l : bytes) : bytes :=
  match l with
  | [] => []
  | c :: l' => if isspace c then skip_spaces l' else l
  end.

(** [pop_back] while the last character is a space. *)
Definition trim_right (l : bytes) : bytes := reverse (skip_spaces (reverse l)).

(** [addHeader(start, colon, end)]: [line] is the range, [colon] the offset of the colon. *)
Definition addHeader (line : bytes) (colon : nat) (r : HttpRequest) : HttpRequest :=
  let field := take colon line in
  let value := trim_right (skip_spaces (drop (S colon) line)) in
  mkRequest (m_method r) (m_version r) (m_path r) (m_query r) (m_receiveTime r)
    (<[field := value]> (m_headers r)).

Definition getHeader (field : bytes) (r : HttpRequest) : bytes :=
  default [] (m_headers r !! field).

Definition request_swap (a b : HttpRequest) : HttpRequest * HttpRequest := (b, a).

(** ** [HttpContext] *)

Inductive ParseState : Type := kExpectRequestLine | kExpectHeaders | kExpectBody | kGotAll.

#[export] Instance ParseState_eq_dec : EqDecision ParseState.
Proof. solve_decision. Defined.

Record HttpContext := mkContext {
  m_state : ParseState;
  m_request : HttpRequest;
}.

Definition HttpContext_new : HttpContext := mkContext kExpectRequestLine HttpRequest_new.
Definition isGotAll (c : HttpContext) : bool := bool_decide (m_state c = kGotAll).
Definition context_reset (c : HttpContext) : HttpContext :=
  mkContext kExpectRequestLine (request_swap (m_request c) HttpRequest_new).1.

Definition processRequestLine (line : bytes) (r : HttpRequest) : HttpRequest * bool :=
  match find_char " "%char line with
  | None => (r, false)
  | Some space =>
      let '(r, known) := setMethod (take space line) r in
      if known then
        let rest := drop (S space) line in
        match find_char " "%char rest with
        | None => (r, false)
        | Some space =>
            let target := take space rest in
            let r := match find_char "?"%char target with
                     | Some question => setQuery (drop question target) (setPath (take question target) r)
                     | None => setPath target r
                     end in
            let version := drop (S space) rest in
            if decide (length version = 8%nat /\ take 7 version = str "HTTP/1.")
            then if decide (drop 7 version = str "1") then (setVersion Http11 r, true)
                 else if decide (drop 7 version = str "0") then (setVersion Http10 r, true)
                 else (r, false)
            else (r, false)
        end
      else (r, false)
  end.

(** The parser's variables: the buffer, the context and [ok]. *)
Record Parser := mkParser {
  ps_buf : Buffer;
  ps_ctx : HttpContext;
  ps_ok : bool;
}.

(** One iteration of the loop: the new variables and [hasMore]. *)
Definition parse_iter (receiveTime : Z) (p : Parser) : outcome (Parser * bool) :=
  let buf := ps_buf p in
  let ctx := ps_ctx p in
  match m_state ctx with
  | kExpectRequestLine =>
      crlf ← findCRLF buf;
      match crlf with
      | Some crlf =>
          line ← vec_read (m_buffer buf) (peek buf) (crlf - peek buf);
          let '(r, ok) := processRequestLine line (m_request ctx) in
          if (ok : bool)
          then
            '(_, buf') ← retrieveUntil (crlf + 2) buf;
            Ok (mkParser buf' (mkContext kExpectHeaders (setReceiveTime receiveTime r)) true, true)
          else Ok (mkParser buf (mkContext kExpectRequestLine r) false, true)
      | None => Ok (p, false)
      end
  | kExpectHeaders =>
      crlf ← findCRLF buf;
      match crlf with
      | Some crlf =>
          line ← vec_read (m_buffer buf) (peek buf) (crlf - peek buf);
          let '(ctx', more) :=
            match find_char ":"%char line with
            | Some colon => (mkContext kExpectHeaders (addHeader line colon (m_request ctx)), true)
            | None => (mkContext kGotAll (m_request ctx), false)
            end in
          '(_, buf') ← retrieveUntil (crlf + 2) buf;
          Ok (mkParser buf' ctx' (ps_ok p), more)
      | None => Ok (p, false)
      end
  | kExpectBody => Ok (p, true)
  | kGotAll => Ok (p, true)
  end.

Fixpoint parse_loop (fuel : nat) (receiveTime : Z) (p : Parser) : outcome (option Parser) :=
  match fuel with
  | O => Ok None
  | S fuel =>
      '(p', hasMore) ← parse_iter receiveTime p;
      if (hasMore : bool) then parse_loop fuel receiveTime p' else Ok (Some p')
  end.

Definition parseRequest (fuel : nat) (receiveTime : Z) (ctx : HttpContext) (buf : Buffer) :
    outcome (option Parser) :=
  parse_loop fuel receiveTime (mkParser buf ctx false).

(** ** The parser on byte strings

    The same iteration on the readable bytes alone. *)

Definition split_line (l : bytes) : option (bytes * bytes) :=
  if decide (search kCRLF l = length l) then None
  else Some (take (search kCRLF l) l, drop (search kCRLF l + 2) l).

Definition iter_bytes (t : Z) (l : bytes) (ctx : HttpContext) (ok : bool) :
    bytes * HttpContext * bool * bool :=
  match m_state ctx with
  | kExpectRequestLine =>
      match split_line l with
      | Some (line, rest) =>
          let '(r, good) := processRequestLine line (m_request ctx) in
          if good then (rest, mkContext kExpectHeaders (setReceiveTime t r), true, true)
          else (l, mkContext kExpectRequestLine r, false, true)
      | None => (l, ctx, ok, false)
      end
  | kExpectHeaders =>
      match split_line l with
      | Some (line, rest) =>
          match find_char ":"%char line with
          | Some colon => (rest, mkContext kExpectHeaders (addHeader line colon (m_request ctx)), ok, true)
          | None => (rest, mkContext kGotAll (m_request ctx), ok, false)
          end
      | None => (l, ctx, ok, false)
      end
  | kExpectBody | kGotAll => (l, ctx, ok, true)
  end.

Fixpoint parse_bytes (fuel : nat) (t : Z) (l : bytes) (ctx : HttpContext) (ok : bool) :
    option (bytes * HttpContext * bool) :=
  match fuel with
  | O => None
  | S fuel =>
      let '(l', ctx', ok', more) := iter_bytes t l ctx ok in
      if more then parse_bytes fuel t l' ctx' ok' else Some (l', ctx', ok')
  end.

(** *** Finding a line in the buffer *)

Lemma split_line_buffer b :
  wf b ->
  match split_line (content b) with
  | None => findCRLF b = Ok None
  | Some (line, rest) =>
      exists crlf, findCRLF b = Ok (Some crlf) /\
        vec_read (m_buffer b) (peek b) (crlf - peek b) = Ok line /\
        exists b', retrieveUntil (crlf + 2) b = Ok (tt, b') /\ wf b' /\ content b' = rest /\
          m_buffer b' = m_buffer b
  end.
Proof.
  intros Hb. unfold split_line, findCRLF. pose proof (content_length b Hb) as Hl.
  assert (Hr : vec_read (m_buffer b) (peek b) (beginWrite b - peek b) = Ok (content b))
    by (apply vec_read_ok; buf_arith; lia).
  rewrite Hr. cbn [mbind outcome_bind].
  destruct (search_spec kCRLF (content b)) as [[E _]|(q & E & _)]; [done|..].
  - rewrite decide_True by done. rewrite E. rewrite decide_True; [done|]. buf_arith. lia.
  - set (k := search kCRLF (content b)) in *.
    assert (Hk : (k + 2 <= length (content b))%nat).
    { apply (f_equal length) in E. rewrite !length_app, length_take in E. simpl in E. lia. }
    rewrite decide_False by lia. exists (peek b + Z.of_nat k).
    split; [rewrite decide_False; [done|buf_arith; lia]|]. split.
    + replace (peek b + Z.of_nat k - peek b) with (m_readerIndex b + Z.of_nat k - m_readerIndex b)
        by (unfold peek; lia).
      unfold peek. rewrite vec_read_ok by (buf_arith; lia). f_equal. unfold content.
      rewrite (slice_take _ _ (m_writerIndex b)) by lia. f_equal. lia.
    + assert (Hret : wp (retrieveUntil (peek b + Z.of_nat k + 2))
         (fun _ b' => wf b' /\ content b' = drop (k + 2) (content b) /\ m_buffer b' = m_buffer b) b).
      { unfold retrieveUntil. wp_simpl.
        replace (u64 (peek b + Z.of_nat k + 2 - peek b)) with (Z.of_nat k + 2) by (buf_arith; lia).
        eapply wp_mono; [apply retrieve_spec; [done|buf_arith; lia]|].
        intros [] b' (?&->&?). split_and!; [done| |done]. f_equal. lia. }
      destruct (wp_inv _ _ _ Hret) as ([] & b' & ? & ?). by exists b'.
Qed.

Lemma parse_iter_bytes t p :
  wf (ps_buf p) ->
  exists p' more, parse_iter t p = Ok (p', more) /\ wf (ps_buf p') /\
    m_buffer (ps_buf p') = m_buffer (ps_buf p) /\
    iter_bytes t (content (ps_buf p)) (ps_ctx p) (ps_ok p) =
      (content (ps_buf p'), ps_ctx p', ps_ok p', more).
Proof.
  intros Hb. destruct p as [b ctx ok]. cbn [ps_buf ps_ctx ps_ok] in *.
  pose proof (split_line_buffer b Hb) as Hs. unfold parse_iter, iter_bytes. cbn [ps_buf ps_ctx ps_ok].
  destruct (m_state ctx) eqn:Hst.
  - destruct (split_line (content b)) as [[line rest]|].
    + destruct Hs as (crlf & -> & Hr & b' & Hret & Hb' & Hc' & Hv). cbn [mbind outcome_bind].
      rewrite Hr. cbn [mbind outcome_bind].
      destruct (processRequestLine line (m_request ctx)) as [r []].
      * rewrite Hret. cbn. eexists _, _. split_and!; [done|done|exact Hv|by rewrite <- Hc'].
      * eexists _, _. by split_and!.
    + rewrite Hs. cbn. eexists _, _. by split_and!.
  - destruct (split_line (content b)) as [[line rest]|].
    + destruct Hs as (crlf & -> & Hr & b' & Hret & Hb' & Hc' & Hv). cbn [mbind outcome_bind].
      rewrite Hr. cbn [mbind outcome_bind].
      destruct (find_char ":"%char line) as [colon|]; rewrite Hret; cbn;
        eexists _, _; (split_and!; [done|done|exact Hv|by rewrite <- Hc']).
    + rewrite Hs. cbn. eexists _, _. by split_and!.
  - eexists _, _. by split_and!.
  - eexists _, _. by split_and!.
Qed.

(** The loop on the buffer is the loop on the readable bytes. *)
Lemma parse_loop_bytes fuel t p :
  wf (ps_buf p) ->
  match parse_bytes fuel t (content (ps_buf p)) (ps_ctx p) (ps_ok p) with
  | None => parse_loop fuel t p = Ok None
  | Some (l, ctx, ok) =>
      exists b', parse_loop fuel t p = Ok (Some (mkParser b' ctx ok)) /\ wf b' /\ content b' = l /\
        m_buffer b' = m_buffer (ps_buf p)
  end.
Proof.
  revert p. induction fuel as [|fuel IH]; intros p Hb; [done|].
  destruct (parse_iter_bytes t p Hb) as (p' & more & Hp & Hb' & Hv & Hi).
  cbn [parse_bytes parse_loop]. rewrite Hp, Hi. cbn [mbind outcome_bind].
  destruct more; [rewrite <- Hv; by apply IH|]. exists (ps_buf p'). split_and!; [by destruct p'|done|done|done].
Qed.

(** ** The grammar of the requests a client sends *)

Definition CR : Ascii.ascii := "013"%char.

Record RequestText := mkText {
  t_method : Method;
  t_path : bytes;
  t_query : bytes;
  t_version : Version;
  t_headers : list (bytes * bytes);
}.

Definition method_text (m : Method) : bytes :=
  methodString (mkRequest m Unknown [] [] 0 ∅).

Definition version_text (v : Version) : bytes :=
  match v with Http10 => str "HTTP/1.0" | Http11 => str "HTTP/1.1" | Unknown => [] end.

Definition header_line (h : bytes * bytes) : bytes := h.1 ++ str ": " ++ h.2.

Definition request_line (t : RequestText) : bytes :=
  method_text (t_method t) ++ str " " ++ t_path t ++ t_query t ++ str " " ++ version_text (t_version t).

Definition headers_text (hs : list (bytes * bytes)) : bytes :=
  concat ((fun h => header_line h ++ kCRLF) <$> hs).

Definition print_request (t : RequestText) : bytes :=
  request_line t ++ kCRLF ++ headers_text (t_headers t) ++ kCRLF.

Definition trim (v : bytes) : bytes := trim_right (skip_spaces v).

(** A known method and version, no blank in the target, no carriage return
    inside a line, no colon in a field name and no blank around a value. *)
Definition header_ok (h : bytes * bytes) : Prop :=
  CR ∉ h.1 /\ ":"%char ∉ h.1 /\ CR ∉ h.2 /\ trim h.2 = h.2.

Definition text_ok (t : RequestText) : Prop :=
  t_method t <> Invalid /\ t_version t <> Unknown /\
  " "%char ∉ t_path t /\ "?"%char ∉ t_path t /\ CR ∉ t_path t /\
  " "%char ∉ t_query t /\ CR ∉ t_query t /\
  (t_query t = [] \/ head (t_query t) = Some "?"%char) /\
  Forall header_ok (t_headers t).

#[export] Instance text_ok_dec t : Decision (text_ok t).
Proof. unfold text_ok, header_ok. apply _. Defined.

Definition headers_map (hs : list (bytes * bytes)) (m : gmap bytes bytes) : gmap bytes bytes :=
  foldl (fun m h => <[h.1 := h.2]> m) m hs.

(** The request object the parser is to build. *)
Definition request_of (t : RequestText) (receiveTime : Z) : HttpRequest :=
  mkRequest (t_method t) (t_version t) (t_path t) (t_query t) receiveTime
    (headers_map (t_headers t) ∅).

(** *** Lines *)

Lemma search_line l rest : CR ∉ l -> search kCRLF (l ++ kCRLF ++ rest) = length l.
Proof.
  induction l as [|c l IH]; intros Hl.
  - change ([] ++ kCRLF ++ rest) with (CR :: "010"%char :: rest).
    cbn [search length]. rewrite decide_True; [done|]. by exists rest.
  - rewrite not_elem_of_cons in Hl. cbn [app search length].
    rewrite decide_False.
    + f_equal. apply IH. naive_solver.
    + intros [k Hk]. unfold kCRLF, CR in *. cbn [app] in Hk. naive_solver.
Qed.

Lemma split_line_found l rest : CR ∉ l -> split_line (l ++ kCRLF ++ rest) = Some (l, rest).
Proof.
  intros Hl. unfold split_line. rewrite search_line by done.
  rewrite decide_False by (rewrite !length_app; simpl; lia).
  rewrite take_app_length. f_equal. f_equal.
  rewrite app_assoc, drop_app_ge by (rewrite length_app; simpl; lia).
  rewrite length_app. simpl. replace (_ + 2 - _)%nat with 0%nat by lia. done.
Qed.

Lemma split_line_shorter l line rest :
  split_line l = Some (line, rest) -> (length rest + 2 <= length l)%nat.
Proof.
  unfold split_line. case_decide as Hd; intros [= <- <-].
  destruct (search_spec kCRLF l) as [[E _]|(q & E & _)]; [done|lia|].
  apply (f_equal length) in E. rewrite !length_app, length_take in E. simpl in E.
  rewrite length_drop. lia.
Qed.

Lemma setMethod_text m r :
  m <> Invalid ->
  setMethod (method_text m) r =
    (mkRequest m (m_version r) (m_path r) (m_query r) (m_receiveTime r) (m_headers r), true).
Proof. by destruct m. Qed.

Lemma method_text_ok m : m <> Invalid -> " "%char ∉ method_text m /\ CR ∉ method_text m.
Proof.
  intros Hm. split; intros Hin; apply list_elem_of_In in Hin;
    destruct m; try done; cbn in Hin; unfold CR in Hin; naive_solver.
Qed.

Lemma processRequestLine_text t r :
  text_ok t ->
  processRequestLine (request_line t) r =
    (mkRequest (t_method t) (t_version t) (t_path t)
       (if decide (t_query t = []) then m_query r else t_query t)
       (m_receiveTime r) (m_headers r), true).
Proof.
  intros (Hm & Hv & Hps & Hpq & _ & Hqs & _ & Hq & _).
  unfold processRequestLine, request_line.
  destruct (method_text_ok _ Hm) as [Hms _].
  change (str " ") with [" "%char]. cbn [app].
  rewrite find_char_app by done. rewrite take_app_length, setMethod_text by done.
  rewrite drop_past. rewrite (app_assoc (t_path t)), find_char_app by set_solver.
  rewrite take_app_length, drop_past.
  assert (Htgt : forall r', match find_char "?"%char (t_path t ++ t_query t) with
      | Some question => setQuery (drop question (t_path t ++ t_query t))
                           (setPath (take question (t_path t ++ t_query t)) r')
      | None => setPath (t_path t ++ t_query t) r' end =
      mkRequest (m_method r') (m_version r') (t_path t)
        (if decide (t_query t = []) then m_query r' else t_query t)
        (m_receiveTime r') (m_headers r')).
  { intros r'. destruct (t_query t) as [|c q]; destruct Hq as [Hq|Hq]; try done.
    - rewrite app_nil_r. rewrite (proj2 (find_char_None _ _)) by done. done.
    - simpl in Hq. injection Hq as ->. rewrite find_char_app by done.
      rewrite take_app_length, drop_app_length. done. }
  rewrite Htgt. destruct (t_version t); [done|..]; reflexivity.
Qed.

Lemma request_line_CR t : text_ok t -> CR ∉ request_line t.
Proof.
  intros (Hm & Hv & _ & _ & Hp & _ & Hq & _). unfold request_line.
  destruct (method_text_ok _ Hm) as [_ Hmc].
  rewrite !not_elem_of_app. split_and!; try done.
  - intros Hin%list_elem_of_In. cbn in Hin. unfold CR in *. naive_solver.
  - intros Hin%list_elem_of_In. cbn in Hin. unfold CR in *. naive_solver.
  - intros Hin%list_elem_of_In. unfold CR in *. destruct (t_version t); cbn in Hin; naive_solver.
Qed.

Lemma header_line_ok h r :
  header_ok h ->
  CR ∉ header_line h /\ find_char ":"%char (header_line h) = Some (length h.1) /\
  addHeader (header_line h) (length h.1) r =
    mkRequest (m_method r) (m_version r) (m_path r) (m_query r) (m_receiveTime r)
      (<[h.1 := h.2]> (m_headers r)).
Proof.
  intros (H1 & H2 & H3 & H4). unfold header_line. split_and!.
  - rewrite !not_elem_of_app. split_and!; [done| |done].
    intros Hin%list_elem_of_In. cbn in Hin. unfold CR in *. naive_solver.
  - change (str ": ") with [":"%char; " "%char]. cbn [app]. by apply find_char_app.
  - unfold addHeader. rewrite take_app_length. f_equal. f_equal.
    change (str ": ") with [":"%char; " "%char]. cbn [app]. rewrite drop_past. exact H4.
Qed.

(** The header loop: one iteration per header, one for the empty line. *)
Lemma parse_headers_text t hs rest r ok fuel :
  Forall header_ok hs ->
  parse_bytes (S (length hs) + fuel) t (headers_text hs ++ kCRLF ++ rest)
      (mkContext kExpectHeaders r) ok =
    Some (rest, mkContext kGotAll
            (mkRequest (m_method r) (m_version r) (m_path r) (m_query r) (m_receiveTime r)
               (headers_map hs (m_headers r))), ok).
Proof.
  revert r. induction hs as [|h hs IH]; intros r Hok.
  - change (S (length (@nil (bytes * bytes))) + fuel)%nat with (S fuel).
    change (headers_text [] ++ kCRLF ++ rest) with ([] ++ kCRLF ++ rest).
    cbn [parse_bytes]. unfold iter_bytes. cbn [m_state].
    rewrite split_line_found by set_solver. by destruct r.
  - apply Forall_cons in Hok as [Hh Hhs].
    change (S (length (h :: hs)) + fuel)%nat with (S (S (length hs) + fuel)).
    change (headers_text (h :: hs)) with ((header_line h ++ kCRLF) ++ headers_text hs).
    rewrite <- !app_assoc.
    destruct (header_line_ok h r Hh) as (Hcr & Hfind & Hadd).
    cbn [parse_bytes]. unfold iter_bytes at 1. cbn [m_state m_request].
    rewrite split_line_found by done. rewrite Hfind, Hadd. rewrite IH by done. done.
Qed.

(** A printed request on the byte level. *)
Lemma parse_bytes_request t rest receiveTime :
  text_ok t ->
  parse_bytes (length (t_headers t) + 2) receiveTime (print_request t ++ rest) HttpContext_new false =
    Some (rest, mkContext kGotAll (request_of t receiveTime), true).
Proof.
  intros Ht. unfold print_request. rewrite <- !app_assoc, Nat.add_comm.
  cbn [Nat.add parse_bytes]. unfold iter_bytes at 1. cbn [m_state HttpContext_new m_request].
  rewrite split_line_found by (by apply request_line_CR).
  rewrite processRequestLine_text by done.
  pose proof Ht as (_&_&_&_&_&_&_&_&Hh).
  rewrite <- (Nat.add_0_r (length (t_headers t))).
  etransitivity; [exact (parse_headers_text receiveTime _ rest _ true 0 Hh)|].
  unfold request_of. cbn. by destruct (decide (t_query t = [])) as [->|].
Qed.

(** *** Termination of the loop *)

(** Whether the request line is accepted does not depend on the request. *)
Lemma processRequestLine_indep line r r' :
  (processRequestLine line r).2 = (processRequestLine line r').2.
Proof.
  unfold processRequestLine. destruct (find_char " "%char line) as [sp|]; [|done].
  unfold setMethod. cbv zeta. set (m := if decide (_ = str "GET") then _ else _).
  destruct (bool_decide (m <> Invalid)); [|done]. clearbody m.
  destruct (find_char " "%char (drop (S sp) line)); [|done].
  repeat case_decide; done.
Qed.

(** The parser can go on from [l]: no whole line yet, or an acceptable one. *)
Definition line_acceptable (l : bytes) (st : ParseState) : bool :=
  match st with
  | kExpectRequestLine =>
      match split_line l with
      | Some (line, _) => (processRequestLine line HttpRequest_new).2
      | None => true
      end
  | kExpectHeaders => true
  | kExpectBody | kGotAll => false
  end.

Lemma parse_headers_returns fuel t l ctx ok :
  m_state ctx = kExpectHeaders -> (length l < 2 * fuel)%nat ->
  exists res, parse_bytes fuel t l ctx ok = Some res.
Proof.
  revert l ctx. induction fuel as [|fuel IH]; intros l ctx Hst Hl; [lia|].
  cbn [parse_bytes]. unfold iter_bytes. rewrite Hst.
  destruct (split_line l) as [[line rest]|] eqn:Hs; [|by eexists].
  pose proof (split_line_shorter _ _ _ Hs).
  destruct (find_char ":"%char line) as [colon|]; [|by eexists].
  apply IH; [done|lia].
Qed.

Lemma parse_bytes_returns fuel t l ctx ok :
  line_acceptable l (m_state ctx) = true -> (length l < 2 * fuel)%nat ->
  exists res, parse_bytes fuel t l ctx ok = Some res.
Proof.
  intros Hl Hf. destruct (m_state ctx) eqn:Hst; try done.
  - destruct fuel as [|fuel]; [lia|]. cbn [parse_bytes]. unfold iter_bytes. rewrite Hst.
    simpl in Hl. destruct (split_line l) as [[line rest]|] eqn:Hs; [|by eexists].
    pose proof (split_line_shorter _ _ _ Hs).
    rewrite (processRequestLine_indep _ _ (m_request ctx)) in Hl.
    destruct (processRequestLine line (m_request ctx)) as [r good]. simpl in Hl. subst good.
    apply parse_headers_returns; [done|lia].
  - apply parse_headers_returns; [done|lia].
Qed.

Lemma parse_bytes_stuck fuel t l ctx ok :
  line_acceptable l (m_state ctx) = false -> parse_bytes fuel t l ctx ok = None.
Proof.
  revert ctx ok. induction fuel as [|fuel IH]; intros ctx ok Hl; [done|].
  cbn [parse_bytes]. unfold iter_bytes. destruct (m_state ctx) eqn:Hst; try done.
  - pose proof Hl as Hl0. simpl in Hl. destruct (split_line l) as [[line rest]|] eqn:Hs; [|done].
    rewrite (processRequestLine_indep _ _ (m_request ctx)) in Hl.
    destruct (processRequestLine line (m_request ctx)) as [r good]. simpl in Hl. subst good.
    by apply IH.
  - apply IH. by rewrite Hst.
  - apply IH. by rewrite Hst.
Qed.

(** A parser that has returned keeps its answer with more fuel. *)
Lemma parse_bytes_more fuel fuel' t l ctx ok res :
  parse_bytes fuel t l ctx ok = Some res -> (fuel <= fuel')%nat ->
  parse_bytes fuel' t l ctx ok = Some res.
Proof.
  revert fuel' l ctx ok. induction fuel as [|fuel IH]; intros fuel' l ctx ok H Hle; [done|].
  destruct fuel' as [|fuel']; [lia|]. cbn [parse_bytes] in *.
  destruct (iter_bytes t l ctx ok) as [[[l' ctx'] ok'] []]; [|done]. apply IH; [done|lia].
Qed.

(** The call of [parseRequest] on a well-formed buffer, by its bytes. *)
Lemma parseRequest_bytes fuel t b ctx :
  wf b ->
  match parse_bytes fuel t (content b) ctx false with
  | None => parseRequest fuel t ctx b = Ok None
  | Some (l, ctx', ok) =>
      exists b', parseRequest fuel t ctx b = Ok (Some (mkParser b' ctx' ok)) /\ wf b' /\
        content b' = l /\ m_buffer b' = m_buffer b
  end.
Proof. intros Hb. exact (parse_loop_bytes fuel t (mkParser b ctx false) Hb). Qed.

(** ** Properties *)

(** C5. Parsing inverts printing: when the readable bytes of a well-formed
    buffer are the text of a request that respects the grammar, followed by
    anything, a fresh context accepts it with one iteration per line: the
    method, version, path and query are those printed, the header map holds
    the printed values (the last one for a repeated field), the receive time
    is recorded, and exactly the request's bytes leave the buffer. *)
Theorem parse_print_roundtrip t rest b receiveTime fuel :
  wf b -> text_ok t -> content b = print_request t ++ rest ->
  (length (t_headers t) + 2 <= fuel)%nat ->
  exists b', parseRequest fuel receiveTime HttpContext_new b =
      Ok (Some (mkParser b' (mkContext kGotAll (request_of t receiveTime)) true)) /\
    wf b' /\ content b' = rest.
Proof.
  intros Hb Ht Hc Hf. pose proof (parseRequest_bytes fuel receiveTime b HttpContext_new Hb) as Hloop.
  pose proof (parse_bytes_request t rest receiveTime Ht) as E. rewrite <- Hc in E.
  apply (parse_bytes_more _ fuel) in E; [|exact Hf]. rewrite E in Hloop.
  destruct Hloop as (b' & ? & ? & ? & _). by eexists.
Qed.

(** C10. When the parser returns: from a well-formed buffer the loop of
    [parseRequest] ends, within one iteration more than one per two bytes of the
    buffer, exactly if the state is [kExpectHeaders], or [kExpectRequestLine] and the first complete
    line, if there is one, is an acceptable request line.  Otherwise no fuel
    is enough: the loop of the code spins for ever on a bad request line, and
    also when it is called again after [kGotAll] without [reset]. *)
Theorem parseRequest_returns_iff receiveTime ctx b :
  wf b ->
  (line_acceptable (content b) (m_state ctx) = true /\
   forall fuel, (length (content b) < 2 * fuel)%nat ->
     exists p, parseRequest fuel receiveTime ctx b = Ok (Some p) /\ wf (ps_buf p)) \/
  (line_acceptable (content b) (m_state ctx) = false /\
   forall fuel, parseRequest fuel receiveTime ctx b = Ok None).
Proof.
  intros Hb.
  assert (Hloop := fun fuel => parseRequest_bytes fuel receiveTime b ctx Hb).
  destruct (line_acceptable (content b) (m_state ctx)) eqn:Hl; [left|right]; (split; [done|]).
  - intros fuel Hf. specialize (Hloop fuel).
    destruct (parse_bytes_returns fuel receiveTime _ ctx false Hl Hf) as [[[l ctx'] ok] E].
    rewrite E in Hloop. destruct Hloop as (b' & ? & ? & ? & _). by eexists.
  - intros fuel. specialize (Hloop fuel). by rewrite parse_bytes_stuck in Hloop.
Qed.

(** A request line that has not arrived completely is refused: without
    a whole line in the buffer the parser returns [false] at once, consumes
    nothing and keeps the context, even if the bytes are the beginning of a
    valid request. *)
Theorem partial_request_line_refused receiveTime ctx b fuel :
  wf b -> m_state ctx = kExpectRequestLine -> split_line (content b) = None ->
  parseRequest (S fuel) receiveTime ctx b = Ok (Some (mkParser b ctx false)).
Proof.
  intros Hb Hst Hs. unfold parseRequest. cbn [parse_loop].
  unfold parse_iter. cbn [ps_buf ps_ctx ps_ok]. rewrite Hst.
  pose proof (split_line_buffer b Hb) as Hf. rewrite Hs in Hf. by rewrite Hf.
Qed.

(** *** Witnesses *)

Definition demo_text : RequestText :=
  mkText GET (str "/hello") (str "?a=1") Http11
    [(str "Host", str "localhost:8080"); (str "Accept", str "*/*")].

Definition buffer_of (l : bytes) : Buffer :=
  mkBuffer (replicate 8 NUL ++ l) 8 (8 + len l).

Lemma buffer_of_wf l : len l < 2 ^ 62 -> wf (buffer_of l) /\ content (buffer_of l) = l.
Proof.
  intros Hl. unfold buffer_of, wf, content, slice, kCheapPrepend, vector_max_size.
  cbn [m_buffer m_readerIndex m_writerIndex]. split; [list_lia|].
  change (Z.to_nat 8) with 8%nat. rewrite drop_app_ge by done. apply take_ge. lia.
Qed.

Lemma parse_print_roundtrip_witness :
  exists b b', content b = print_request demo_text ++ str "xyz" /\
    parseRequest 5 7 HttpContext_new b =
      Ok (Some (mkParser b' (mkContext kGotAll (request_of demo_text 7)) true)) /\
    content b' = str "xyz".
Proof.
  pose proof (buffer_of_wf (print_request demo_text ++ str "xyz") ltac:(vm_compute; reflexivity)) as [Hb Hc].
  destruct (parse_print_roundtrip demo_text (str "xyz") _ 7 5 Hb
              ltac:(apply (bool_decide_unpack _); vm_compute; exact I) Hc
              ltac:(simpl; lia)) as (b' & Hp & _ & Hc').
  exists (buffer_of (print_request demo_text ++ str "xyz")), b'.
  exact (conj Hc (conj Hp Hc')).
Defined.

Lemma parseRequest_returns_iff_witness :
  exists b, content b = str "get / HTTP/1.1" ++ kCRLF ++ kCRLF /\
    forall fuel, parseRequest fuel 7 HttpContext_new b = Ok None.
Proof.
  destruct (buffer_of_wf (str "get / HTTP/1.1" ++ kCRLF ++ kCRLF) ltac:(vm_compute; reflexivity)) as [Hb Hc].
  eexists. split; [exact Hc|].
  destruct (parseRequest_returns_iff 7 HttpContext_new _ Hb) as [[H _]|[_ H]]; [|exact H].
  exfalso. rewrite Hc in H. vm_compute in H. done.
Defined.

Lemma partial_request_line_refused_witness :
  exists b, content b = str "GET / HT" /\
    parseRequest 1 7 HttpContext_new b = Ok (Some (mkParser b HttpContext_new false)).
Proof.
  destruct (buffer_of_wf (str "GET / HT") ltac:(vm_compute; reflexivity)) as [Hb Hc].
  exists (buffer_of (str "GET / HT")). split; [exact Hc|].
  apply (partial_request_line_refused 7 HttpContext_new _ 0 Hb); [done|].
  rewrite Hc. vm_compute. done.
Defined.
