(* ===== verification/HttpResponse.v ===== *)
(** * HTTP responses ([myserver/include/http_response.h], [myserver/http/http_response.cpp])

    The header map is an [unordered_map]: the order in which the range-for
    loop visits it is not specified, so it is a parameter of the printing code;
    the properties hold for every order that is a permutation of the map. *)

From S2P Require Import Prelude CppInt CText Sys Buffer Timestamp.

Inductive HttpStatusCode : Type :=
  | kUnknown | k200_ok | k301_movedPermanently | k400_badRequest | k404_notFound.

Definition status_code (s : HttpStatusCode) : Z :=
  match s with
  | kUnknown => 0 | k200_ok => 200 | k301_movedPermanently => 301
  | k400_badRequest => 400 | k404_notFound => 404
  end.

Record HttpResponse := mkResponse {
  r_headers : gmap bytes bytes;
  r_statusCode : HttpStatusCode;
  r_statusMsg : bytes;
  r_closeConnection : bool;
  r_body : bytes;
}.

Definition HttpResponse_new (close : bool) : HttpResponse := mkResponse ∅ kUnknown [] close [].

Definition setStatusCode (c : HttpStatusCode) (r : HttpResponse) : HttpResponse :=
  mkResponse (r_headers r) c (r_statusMsg r) (r_closeConnection r) (r_body r).
Definition setStatusMsg (m : bytes) (r : HttpResponse) : HttpResponse :=
  mkResponse (r_headers r) (r_statusCode r) m (r_closeConnection r) (r_body r).
Definition setCloseConnection (on : bool) (r : HttpResponse) : HttpResponse :=
  mkResponse (r_headers r) (r_statusCode r) (r_statusMsg r) on (r_body r).
Definition addHeader (k v : bytes) (r : HttpResponse) : HttpResponse :=
  mkResponse (<[k := v]> (r_headers r)) (r_statusCode r) (r_statusMsg r) (r_closeConnection r)
    (r_body r).
Definition setBody (b : bytes) (r : HttpResponse) : HttpResponse :=
  mkResponse (r_headers r) (r_statusCode r) (r_statusMsg r) (r_closeConnection r) b.
Definition setContentType (t : bytes) (r : HttpResponse) : HttpResponse :=
  addHeader (str "Content-Type") t r.

Section printing.
(** The order in which the map is visited. *)
Context (order : gmap bytes bytes -> list (bytes * bytes)).

Definition append_header (h : bytes * bytes) : M Buffer unit :=
  append h.1 ;; append (str ": ") ;; append h.2 ;; append kCRLF.

Definition appendToBuffer (r : HttpResponse) : M Buffer unit :=
  append (snprintf_cut 32 (str "HTTP/1.1 " ++ number_text (status_code (r_statusCode r)) ++ str " ")) ;;
  append (r_statusMsg r) ;;
  append kCRLF ;;
  (if r_closeConnection r
   then append (str "Connection: close" ++ kCRLF)
   else
     append (snprintf_cut 32 (str "Content-Length: " ++ number_text (len (r_body r)) ++ kCRLF)) ;;
     append (str "Connection: Keep-Alive" ++ kCRLF)) ;;
  forM (order (r_headers r)) append_header ;;
  append kCRLF ;;
  append (r_body r).
End printing.

(** ** The text of a response *)

Definition header_text (h : bytes * bytes) : bytes := h.1 ++ str ": " ++ h.2 ++ kCRLF.

(** The text with the headers in the order [hs]. *)
Definition response_text (r : HttpResponse) (hs : list (bytes * bytes)) : bytes :=
  str "HTTP/1.1 " ++ number_text (status_code (r_statusCode r)) ++ str " " ++ r_statusMsg r ++ kCRLF ++
  (if r_closeConnection r then str "Connection: close" ++ kCRLF
   else str "Content-Length: " ++ number_text (len (r_body r)) ++ kCRLF ++
        str "Connection: Keep-Alive" ++ kCRLF) ++
  concat (header_text <$> hs) ++ kCRLF ++ r_body r.

(** [appends d m]: [m] adds the bytes [d] behind the content of any buffer
    that has room for them. *)
Definition appends (d : bytes) (m : M Buffer unit) : Prop :=
  forall b, wf b -> len (m_buffer b) + len d <= vector_max_size ->
    wp m (fun _ b' => wf b' /\ content b' = content b ++ d /\
                      len (m_buffer b') <= len (m_buffer b) + len d) b.

Lemma appends_append d : len d < 2 ^ 31 -> appends d (append d).
Proof.
  intros Hd b Hb Hmax. pose proof Hb as [? ?].
  eapply wp_mono; [apply append_spec; [done|done|lia]|].
  intros [] b' (?&?&?). split_and!; [done|done|lia].
Qed.

#[local] Opaque append.

Lemma appends_seq d1 d2 m1 m2 : appends d1 m1 -> appends d2 m2 -> appends (d1 ++ d2) (m1 ;; m2).
Proof.
  intros H1 H2 b Hb Hmax. rewrite length_app in *. wp_simpl.
  eapply wp_mono; [apply H1; [done|lia]|]. intros [] b1 (Hb1 & Hc1 & Hl1).
  eapply wp_mono; [apply H2; [done|lia]|]. intros [] b2 (Hb2 & Hc2 & Hl2).
  split_and!; [done|by rewrite Hc2, Hc1, app_assoc|lia].
Qed.

Lemma appends_forM {A} (l : list A) (text : A -> bytes) body :
  (forall x, x ∈ l -> appends (text x) (body x)) -> appends (concat (text <$> l)) (forM l body).
Proof.
  induction l as [|x l IH]; intros Hl.
  - intros b Hb _. wp_simpl. rewrite app_nil_r. split_and!; [done|done|simpl; lia].
  - cbn [fmap list_fmap concat forM]. apply appends_seq; [apply Hl; left|].
    apply IH. intros y Hy. apply Hl. by right.
Qed.

Lemma appends_eq d d' m : appends d m -> d = d' -> appends d' m.
Proof. by intros ? <-. Qed.

(** No field of the response, and no header, exceeds what one [append] can take. *)
Definition response_ok (r : HttpResponse) : Prop :=
  len (r_statusMsg r) < 2 ^ 31 /\ len (r_body r) < 2 ^ 31 /\
  map_Forall (fun k v => len k < 2 ^ 31 /\ len v < 2 ^ 31) (r_headers r).

#[export] Instance response_ok_dec r : Decision (response_ok r).
Proof. unfold response_ok. apply _. Defined.

Lemma digits_short n : 0 <= n < 2 ^ 31 -> (length (number_text n) <= 10)%nat.
Proof.
  intros Hn. pose proof (number_text_digits 10 n ltac:(lia) ltac:(simpl; lia)) as E.
  apply (f_equal length) in E. rewrite length_app, dec_digits_length in E. lia.
Qed.

Lemma status_line_fits s :
  snprintf_cut 32 (str "HTTP/1.1 " ++ number_text (status_code s) ++ str " ") =
    str "HTTP/1.1 " ++ number_text (status_code s) ++ str " ".
Proof. by destruct s. Qed.

Lemma content_length_fits n :
  0 <= n < 2 ^ 31 ->
  snprintf_cut 32 (str "Content-Length: " ++ number_text n ++ kCRLF) =
    str "Content-Length: " ++ number_text n ++ kCRLF.
Proof.
  intros Hn. apply take_ge. pose proof (digits_short n Hn). rewrite !length_app. simpl. lia.
Qed.

Lemma appendToBuffer_appends order r :
  (forall m, order m ≡ₚ map_to_list m) -> response_ok r ->
  appends (response_text r (order (r_headers r))) (appendToBuffer order r).
Proof.
  intros Hord (Hmsg & Hbody & Hh). unfold appendToBuffer, response_text.
  rewrite status_line_fits, content_length_fits by lia.
  pose proof (digits_short (len (r_body r)) ltac:(lia)) as Hlen.
  assert (Hstat : (length (number_text (status_code (r_statusCode r))) <= 10)%nat)
    by (apply digits_short; destruct (r_statusCode r); simpl; lia).
  assert (Hconn : appends
    (if r_closeConnection r then str "Connection: close" ++ kCRLF
     else (str "Content-Length: " ++ number_text (len (r_body r)) ++ kCRLF) ++
          str "Connection: Keep-Alive" ++ kCRLF)
    (if r_closeConnection r then append (str "Connection: close" ++ kCRLF)
     else append (str "Content-Length: " ++ number_text (len (r_body r)) ++ kCRLF) ;;
          append (str "Connection: Keep-Alive" ++ kCRLF))).
  { destruct (r_closeConnection r); [apply appends_append; simpl; lia|].
    apply appends_seq; apply appends_append; rewrite ?length_app; simpl length; lia. }
  assert (Hheaders : appends (concat (header_text <$> order (r_headers r)))
                       (forM (order (r_headers r)) append_header)).
  { apply appends_forM. intros [k v] Hin. rewrite Hord in Hin.
    apply elem_of_map_to_list in Hin. apply Hh in Hin as [Hk Hv].
    unfold header_text, append_header. cbn [fst snd].
    repeat apply appends_seq; apply appends_append; simpl; lia. }
  eapply appends_eq.
  { repeat (apply appends_seq); try exact Hconn; try exact Hheaders;
      apply appends_append; rewrite ?length_app; simpl length; lia. }
  rewrite <- !app_assoc. by destruct (r_closeConnection r); rewrite <- ?app_assoc.
Qed.

(** The output [Buffer] of [onRequest]: a fresh one. *)
Lemma appendToBuffer_fresh order r :
  (forall m, order m ≡ₚ map_to_list m) -> response_ok r ->
  len (response_text r (order (r_headers r))) < 2 ^ 31 ->
  exists b, appendToBuffer order r fresh_buffer = Ok (tt, b) /\ wf b /\
    content b = response_text r (order (r_headers r)).
Proof.
  intros Hord Hr Hlen.
  pose proof (appendToBuffer_appends order r Hord Hr fresh_buffer fresh_wf) as Hw.
  destruct (wp_inv _ _ _ (Hw ltac:(unfold fresh_buffer, vector_max_size; cbn [m_buffer];
     rewrite length_replicate; lia))) as ([] & b & E & Hb & Hc & _).
  exists b. split_and!; [done|done|by rewrite Hc, fresh_content].
Qed.
