(* ===== verification/HttpServer.v ===== *)
(** * The HTTP server on a connection
      ([myserver/include/http_server.h], [myserver/http/http_server.cpp])

    The handlers act on the world of one connection ([TcpConnection.TW]): they
    run in the connection's loop, so their sends are direct.  The user's
    [HttpCallback] fills in the response; it is a parameter, as is the order
    in which an [unordered_map] is visited.  [parseRequest] may not return:
    [onMessage] then has the result [None] for every fuel. *)

From S2P Require Import Prelude CppInt CText Sys Buffer Channel EpollPoller.
From S2P Require Import TcpConnection HttpRequest HttpResponse.

Definition HttpCallback : Type := HttpRequest -> HttpResponse -> HttpResponse.

Definition defaultHttpCallback : HttpCallback := fun _ resp =>
  setCloseConnection true (setStatusMsg (str "Not Found") (setStatusCode k404_notFound resp)).

(** The callbacks the constructor registers with the [TcpServer], and its settings. *)
Record HttpServer := mkServer {
  m_httpCallback : HttpCallback;
  m_threadNum : Z;
}.

Definition HttpServer_new : HttpServer := mkServer defaultHttpCallback 4.
Definition setHttpCallback (cb : HttpCallback) (s : HttpServer) : HttpServer :=
  mkServer cb (m_threadNum s).

Definition bad_request : bytes := str "HTTP/1.1 400 Bad Request" ++ kCRLF ++ kCRLF.

Section http_server.
Context {P : Type} `{ChannelIface P} (ch : Z).
Context (order : gmap bytes bytes -> list (bytes * bytes)).
Context (server : HttpServer).

Abbreviation M := (M (TW P)).

(** [onConnection] only writes to the log. *)
Definition onConnection : M bytes :=
  w ← getS;
  mret (if decide (c_state (t_conn w) = kConnected)
        then str "new Connection arrived" else str "Connection closed").

(** The value computed for [close], which the next line of the code overwrites. *)
Definition wants_close (req : HttpRequest) : bool :=
  bool_decide (getHeader (str "Connection") req = str "close") ||
  (bool_decide (m_version req = Http10) &&
   bool_decide (getHeader (str "Connection") req <> str "Keep-Alive")).

Definition onRequest (req : HttpRequest) (rep : wreply) : M unit :=
  let close := wants_close req in
  let close := true in
  let response := m_httpCallback server req (HttpResponse_new close) in
  buf ← liftO (Buffer_new kInitialSize);
  '(_, buf) ← liftO (appendToBuffer order response buf);
  _ ← send_buffer ch true buf rep;
  if r_closeConnection response then shutdown ch true else mret tt.

(** The result is the local context when the handler returns. *)
Definition onMessage (fuel : nat) (receiveTime : Z) (rep : wreply) : M (option HttpContext) :=
  w ← getS;
  o ← liftO (parseRequest fuel receiveTime HttpContext_new (c_input (t_conn w)));
  match o with
  | None => mret None
  | Some p =>
      modify (on_conn (c_setInput (ps_buf p))) ;;
      whenM (negb (ps_ok p))
        (run_uact ch (USend bad_request rep) ;; shutdown ch true) ;;
      let context := ps_ctx p in
      if isGotAll context
      then onRequest (m_request context) rep ;; mret (Some (context_reset context))
      else mret (Some context)
  end.

(** [TcpConnection::handleRead] with the callbacks of this server: [readFd] into the
    input buffer, then the message callback, the end of the connection, or the
    error.  The connection callback of [handleClose] is [onConnection], which only
    writes to the log.  [None]: the handler does not return; [Some None]: there was no
    message. *)
Definition read_message (fuel : nat) (receiveTime : Z) (rrep : rreply) (rep : wreply) :
    M (option (option HttpContext)) :=
  '(n, _) ← with_input (readFd rrep);
  if decide (n > 0) then r ← onMessage fuel receiveTime rep; mret (Some <$> r)
  else if decide (n = 0) then handleClose ch [] ;; mret (Some None)
  else emit (EvError "TcpConnection::handleRead failed") ;; handleError ;; mret (Some None).
End http_server.

(** ** Facts *)

Section http_server_facts.
Context {P : Type} `{ChannelLaws P} (ch : Z).
Context (order : gmap bytes bytes -> list (bytes * bytes)).
Context (order_visits : forall m, order m ≡ₚ map_to_list m).
Context (server : HttpServer).
Implicit Types w : TW P.

(** A direct write to the connection does not meet a fatal error. *)
Definition healthy (rep : wreply) : Prop := match rep with WFail e => ~ fatal e | WAccept _ => True end.

Definition input w : bytes := content (c_input (t_conn w)).

(** *** What leaves the input buffer alone *)

Definition keeps {A} (m : M (TW P) A) : Prop :=
  forall w a w', m w = Ok (a, w') -> c_input (t_conn w') = c_input (t_conn w).

Lemma keeps_ret {A} (a : A) : keeps (mret a).
Proof. by intros w b w' [= _ <-]. Qed.
Lemma keeps_bind {A B} (m : M (TW P) A) (f : A -> M (TW P) B) :
  keeps m -> (forall a, keeps (f a)) -> keeps (m ≫= f).
Proof.
  intros Hm Hf w b w' Hw. unfold mbind, M_bind in Hw.
  destruct (m w) as [[a w1]| |] eqn:E; [|done..].
  rewrite (Hf a _ _ _ Hw). exact (Hm _ _ _ E).
Qed.
Lemma keeps_getS : keeps getS.
Proof. by intros w b w' [= _ <-]. Qed.
Lemma keeps_modify (f : TW P -> TW P) :
  (forall w, c_input (t_conn (f w)) = c_input (t_conn w)) -> keeps (modify f).
Proof. intros Hf w b w' [= _ <-]. apply Hf. Qed.
Lemma keeps_whenM b (m : M (TW P) unit) : keeps m -> keeps (whenM b m).
Proof. intros. destruct b; [done|apply keeps_ret]. Qed.
Lemma keeps_poll {A} (m : Prelude.M P A) : keeps (poll_op m).
Proof. intros w a w'. unfold poll_op, zoom. destruct (m (t_poll w)) as [[b p]| |]; by intros [= _ <-]. Qed.
Lemma keeps_output {A} (m : Prelude.M Buffer A) : keeps (with_output m).
Proof.
  intros w a w'. unfold with_output, zoom.
  destruct (m (c_output (t_conn w))) as [[b p]| |]; by intros [= _ <-].
Qed.

Ltac keeps_tac :=
  repeat first
    [ apply keeps_ret | apply keeps_getS | apply keeps_poll | apply keeps_output
    | apply keeps_whenM | apply keeps_modify; done
    | apply keeps_bind; [|intros ?]
    | match goal with |- keeps (match ?x with _ => _ end) => destruct x end ].

Lemma keeps_sendInLoop d rep : keeps (sendInLoop ch d rep).
Proof. unfold sendInLoop, try_write, sock_write, queueInLoop, emit. keeps_tac. Qed.

Lemma keeps_shutdown : keeps (shutdown ch true).
Proof. unfold shutdown, connected, shutdown_set, shutdown_act, shutdownInLoop, shutdownWrite, setState. keeps_tac. Qed.

Lemma wp_keeps {A} (m : M (TW P) A) Q w :
  keeps m -> wp m Q w -> wp m (fun a w' => Q a w' /\ c_input (t_conn w') = c_input (t_conn w)) w.
Proof.
  intros Hk Hw. destruct (wp_inv _ _ _ Hw) as (a & w' & E & HQ). unfold wp. rewrite E.
  split; [done|exact (Hk _ _ _ E)].
Qed.

(** *** Sending on an established connection, then closing it *)

Lemma connected_not_eof B w : conn_inv ch B w -> state w = kConnected -> eof w = false.
Proof.
  intros Hi Hst. destruct (eof w) eqn:E; [|done].
  destruct (inv_half _ _ _ Hi (or_introl E)) as [E'|E']; by rewrite Hst in E'.
Qed.

Lemma healthy_not_dropped rep w : healthy rep -> eof w = false -> ~ dropped w rep.
Proof.
  intros Hrep He (_ & e & Hr & Hf). unfold sock_reply in Hr. unfold eof in He. rewrite He in Hr.
  destruct rep; simplify_eq/=. done.
Qed.

(** [conn->send(d)] and [conn->shutdown()] in the loop's thread. *)
Lemma send_shutdown_spec B d rep w :
  0 <= B -> conn_inv ch (len d + B) w -> state w = kConnected -> healthy rep -> len d < 2 ^ 31 ->
  wp (sendInLoop ch d rep ;; shutdown ch true)
     (fun _ w' => conn_inv ch B w' /\ state w' = kDisconnecting /\ stream w' = stream w ++ d /\
        eof w' = bool_decide (out w' = []) /\ input w' = input w) w.
Proof.
  intros HB Hi Hst Hrep Hd. pose proof (connected_not_eof _ _ Hi Hst) as Heof. wp_simpl.
  eapply wp_mono; [apply wp_keeps; [apply keeps_sendInLoop|by apply (sendInLoop_spec ch B)]|].
  intros [] w1 ((Hi1 & Hst1 & He1 & _ & _ & Ht) & Hin1).
  unfold taken in Ht. rewrite decide_False in Ht by congruence.
  assert (Hs1 : stream w1 = stream w ++ d).
  { destruct Ht as [[? _]|[Hd' _]]; [done|]. by destruct (healthy_not_dropped rep w). }
  rewrite Hst in Hst1. rewrite Heof in He1.
  eapply wp_mono.
  { apply wp_keeps; [apply keeps_shutdown|].
    unfold shutdown, connected, shutdown_set, shutdown_act, shutdownInLoop, shutdownWrite, setState. wp_simpl.
    fold (state w1). rewrite bool_decide_eq_true_2 by done. cbn [whenM]. wp_simpl.
    change (channel_isWrite ch (on_conn (c_setState kDisconnecting) w1)) with (channel_isWrite ch w1).
    rewrite (inv_write _ _ _ Hi1) by congruence.
    pose proof (start_shutdown_inv _ _ _ Hi1 Hst1) as Hi2.
    instantiate (1 := fun _ w' => conn_inv ch B w' /\ state w' = kDisconnecting /\
      stream w' = stream w1 /\ eof w' = bool_decide (out w' = [])).
    destruct (bool_decide_reflect (out w1 <> [])) as [Ho|Ho]; cbn [negb]; wp_simpl.
    - split_and!; [done..|]. rewrite bool_decide_eq_false_2 by done. exact He1.
    - apply dec_stable in Ho. split_and!; [|done|done|by rewrite bool_decide_eq_true_2 by done].
      destruct Hi2 as [H1 H2 H3 H4 H5 H6 H7 H8 H9]. split; try done. by left. }
  cbn beta. intros [] w2 ((Hi2 & Hst2 & Hs2 & He2) & Hin2).
  split_and!; [done|done|congruence|done|]. unfold input. congruence.
Qed.

(** *** Reading into the input buffer, and the parser on it *)

Lemma read_input_spec B d w :
  0 <= B -> conn_inv ch (len d + B) w -> len d <= extrabuf_size ->
  wp (with_input (readFd (RData d)))
     (fun r w' => r = (len d, None) /\ conn_inv ch B w' /\ input w' = input w ++ d /\
        state w' = state w /\ stream w' = stream w) w.
Proof.
  intros HB Hi Hd. pose proof Hi as [H1 H2 H3 H4 H5 H6 H7 H8 H9].
  pose proof (pending_cost_nonneg _ _ H8) as Hpc. unfold with_input. wp_simpl.
  assert (Hroom : m_writerIndex (c_input (t_conn w)) + read_room (c_input (t_conn w)) <= vector_max_size).
  { unfold read_room. pose proof H1 as Hwf. clear Hd. unfold extrabuf_size in *.
    case_decide; buf_arith; lia. }
  eapply wp_mono; [by apply readFd_spec|]. intros r b (Hb & -> & Hc & Hl).
  pose proof (read_room_ge (c_input (t_conn w))). pose proof (kread_cost (read_room (c_input (t_conn w))) d).
  assert (Hk : kread (read_room (c_input (t_conn w))) d = d) by (apply take_ge; lia).
  rewrite Hk in *. split_and!; [done| |exact Hc|done|done].
  split; unfold state, out, eof in *; cbn [t_conn on_conn c_setInput c_input c_output t_pending] in *;
    try done. lia.
Qed.

Lemma parsed_input_inv B w b :
  conn_inv ch B w -> wf b -> m_buffer b = m_buffer (c_input (t_conn w)) ->
  conn_inv ch B (on_conn (c_setInput b) w).
Proof. intros Hi Hb E. apply set_input_inv; [done|done|by rewrite E]. Qed.

(** [onMessage] by the bytes of the input buffer. *)
Lemma onMessage_bytes B fuel receiveTime rep w Q :
  conn_inv ch B w ->
  match parse_bytes fuel receiveTime (input w) HttpContext_new false with
  | None => Q None w
  | Some (l, context, ok) =>
      forall b, wf b -> content b = l -> conn_inv ch B (on_conn (c_setInput b) w) ->
        wp (whenM (negb ok) (run_uact ch (USend bad_request rep) ;; shutdown ch true) ;;
            if isGotAll context
            then onRequest ch order server (m_request context) rep ;; mret (Some (context_reset context))
            else mret (Some context)) Q (on_conn (c_setInput b) w)
  end ->
  wp (onMessage ch order server fuel receiveTime rep) Q w.
Proof.
  intros Hi HQ. unfold onMessage. rewrite wp_bind, wp_getS, wp_bind, wp_liftO.
  pose proof (parseRequest_bytes fuel receiveTime (c_input (t_conn w)) HttpContext_new (inv_in _ _ _ Hi)) as Hp.
  fold (input w) in Hp. destruct (parse_bytes _ _ _ _ _) as [[[l context] ok]|].
  - destruct Hp as (b & -> & Hb & Hc & Hv). rewrite wp_bind, wp_modify. cbn [ps_buf ps_ctx ps_ok].
    apply HQ; [done|done|by apply parsed_input_inv].
  - rewrite Hp. by apply wp_ret.
Qed.

(** [onRequest] on an established connection. *)
Lemma onRequest_spec B req rep w :
  let resp := m_httpCallback server req (HttpResponse_new true) in
  let text := response_text resp (order (r_headers resp)) in
  0 <= B -> conn_inv ch (len text + B) w -> state w = kConnected -> healthy rep ->
  response_ok resp -> len text < 2 ^ 31 ->
  wp (onRequest ch order server req rep)
     (fun _ w' => conn_inv ch B w' /\ stream w' = stream w ++ text /\ input w' = input w /\
        if r_closeConnection resp
        then state w' = kDisconnecting /\ eof w' = bool_decide (out w' = [])
        else state w' = kConnected) w.
Proof.
  intros resp text HB Hi Hst Hrep Hok Hlen. unfold onRequest. fold resp.
  rewrite Buffer_new_fresh.
  destruct (appendToBuffer_fresh order resp order_visits Hok Hlen) as (b & Hbuf & Hb & Hc).
  fold text in Hc. wp_simpl. rewrite Hbuf. wp_simpl. unfold send_buffer, connected, send_buffer_act. wp_simpl.
  fold (state w). rewrite bool_decide_eq_true_2 by done. wp_simpl.
  assert (Hr : vec_read (m_buffer b) (peek b) (readableBytes b) = Ok text).
  { rewrite readable_content, content_length by done. rewrite <- Hc.
    apply vec_read_ok; buf_arith; lia. }
  rewrite Hr. wp_simpl. destruct (r_closeConnection resp).
  - pose proof (send_shutdown_spec B text rep w HB Hi Hst Hrep Hlen) as Hs.
    rewrite wp_bind in Hs. eapply wp_mono; [exact Hs|]. intros [] w1 Hw1. wp_simpl. unfold retrieveAll, modify. wp_simpl.
    eapply wp_mono; [exact Hw1|]. intros [] w2 (?&?&?&?&?). split_and!; done.
  - eapply wp_mono; [apply wp_keeps; [apply keeps_sendInLoop|by apply (sendInLoop_spec ch B)]|].
    intros [] w1 ((Hi1 & Hst1 & He1 & _ & _ & Ht) & Hin1). wp_simpl.
    unfold retrieveAll, modify. wp_simpl.
    unfold taken in Ht. rewrite decide_False in Ht by congruence.
    split_and!; [done| |unfold input; congruence|congruence].
    destruct Ht as [[? _]|[Hd' _]]; [done|].
    destruct (healthy_not_dropped rep w); [done|by eapply connected_not_eof|done].
Qed.

(** The first part of a request: the request line and some of the headers. *)
Definition request_head (t : RequestText) (hs : list (bytes * bytes)) : bytes :=
  request_line t ++ kCRLF ++ headers_text hs.

Lemma parse_head t hs receiveTime fuel :
  text_ok t -> Forall header_ok hs -> (length hs + 2 <= fuel)%nat ->
  exists req, parse_bytes fuel receiveTime (request_head t hs) HttpContext_new false =
    Some ([], mkContext kExpectHeaders req, true).
Proof.
  intros Ht Hhs Hf. unfold request_head. destruct fuel as [|fuel]; [lia|].
  cbn [parse_bytes]. unfold iter_bytes at 1. cbn [m_state HttpContext_new m_request].
  rewrite split_line_found by (by apply request_line_CR).
  rewrite processRequestLine_text by done.
  match goal with |- context [mkContext kExpectHeaders ?r] => generalize r end.
  revert fuel Hf. induction Hhs as [|h hs Hh Hhs IH]; intros fuel Hf req; (destruct fuel as [|fuel]; [simpl in Hf; lia|]).
  - exists req. by vm_compute.
  - change (headers_text (h :: hs)) with ((header_line h ++ kCRLF) ++ headers_text hs).
    rewrite <- app_assoc. destruct (header_line_ok h req Hh) as (Hcr & Hfind & Hadd).
    cbn [parse_bytes]. unfold iter_bytes at 1. cbn [m_state m_request].
    rewrite split_line_found by done. rewrite Hfind. apply IH. simpl in Hf. lia.
Qed.

(** A header line, and the empty line, are no request lines. *)
Lemma header_line_rejected h r :
  header_ok h -> " "%char ∉ h.1 -> (processRequestLine (header_line h) r).2 = false.
Proof.
  intros (_ & Hcol & _) Hsp. unfold processRequestLine, header_line.
  change (str ": ") with [":"%char; " "%char]. cbn [app].
  replace (h.1 ++ ":"%char :: " "%char :: h.2) with ((h.1 ++ [":"%char]) ++ " "%char :: h.2)
    by (by rewrite <- app_assoc).
  rewrite find_char_app by (apply not_elem_of_app; split; [done|set_solver]).
  rewrite take_app_length.
  assert (Hm : forall s, ":"%char ∉ s -> h.1 ++ [":"%char] <> s).
  { intros s Hs <-. apply Hs. apply elem_of_app. right. left. }
  unfold setMethod. rewrite !decide_False by (apply Hm, (bool_decide_unpack _); vm_compute; exact I).
  by rewrite bool_decide_eq_false_2 by naive_solver.
Qed.

Lemma rest_of_headers_stuck hs rest t fuel ok :
  Forall header_ok hs -> Forall (fun h => " "%char ∉ h.1) hs ->
  parse_bytes fuel t (headers_text hs ++ kCRLF ++ rest) HttpContext_new ok = None.
Proof.
  intros Hhs Hsp. apply parse_bytes_stuck. cbn [m_state HttpContext_new line_acceptable].
  destruct hs as [|h hs].
  - change (headers_text [] ++ kCRLF ++ rest) with ([] ++ kCRLF ++ rest).
    rewrite split_line_found by set_solver. done.
  - apply Forall_cons in Hhs as [Hh _]. apply Forall_cons in Hsp as [Hs _].
    change (headers_text (h :: hs)) with ((header_line h ++ kCRLF) ++ headers_text hs).
    rewrite <- !app_assoc. rewrite split_line_found by exact (proj1 (header_line_ok h HttpRequest_new Hh)).
    by apply header_line_rejected.
Qed.

(** A read that brings bytes is a message. *)
Lemma read_message_data B d receiveTime fuel rep w Q :
  0 <= B -> conn_inv ch (len d + B) w -> d <> [] -> len d <= extrabuf_size ->
  (forall w1, conn_inv ch B w1 -> input w1 = input w ++ d -> state w1 = state w ->
     stream w1 = stream w ->
     wp (onMessage ch order server fuel receiveTime rep) (fun r => Q (Some <$> r)) w1) ->
  wp (read_message ch order server fuel receiveTime (RData d) rep) Q w.
Proof.
  intros HB Hi Hne Hd HQ. unfold read_message. rewrite wp_bind.
  eapply wp_mono; [by apply (read_input_spec B)|]. intros r w1 (-> & Hi1 & Hin & Hst & Hs).
  rewrite decide_True by (destruct d; [done|simpl; lia]). rewrite wp_bind.
  eapply wp_mono; [by apply HQ|]. intros a w2 HQ2. by apply wp_ret.
Qed.

(** ** Properties *)

(** A request that arrives whole. *)
Lemma read_message_request B t rest d receiveTime fuel rep w :
  let resp := m_httpCallback server (request_of t receiveTime) (HttpResponse_new true) in
  let text := response_text resp (order (r_headers resp)) in
  0 <= B -> conn_inv ch (len d + (len text + B)) w -> state w = kConnected -> healthy rep ->
  d <> [] -> len d <= extrabuf_size -> text_ok t -> input w ++ d = print_request t ++ rest ->
  (length (t_headers t) + 2 <= fuel)%nat -> response_ok resp -> len text < 2 ^ 31 ->
  wp (read_message ch order server fuel receiveTime (RData d) rep)
     (fun r w' => r = Some (Some HttpContext_new) /\ conn_inv ch B w' /\ input w' = rest /\
        stream w' = stream w ++ text /\
        if r_closeConnection resp
        then state w' = kDisconnecting /\ eof w' = bool_decide (out w' = [])
        else state w' = kConnected) w.
Proof.
  intros resp text HB Hi Hst Hrep Hne Hd Ht Hin Hf Hok Hlen.
  apply (read_message_data (len text + B)); [lia|done..|]. intros w1 Hi1 Hin1 Hst1 Hs1.
  eapply onMessage_bytes; [done|]. rewrite Hin1, Hin.
  rewrite (parse_bytes_more _ fuel _ _ _ _ _ (parse_bytes_request t rest receiveTime Ht) Hf).
  intros b Hb Hc Hi2. cbn [negb whenM m_request]. rewrite wp_bind, wp_ret.
  change (isGotAll _) with true. cbv iota. rewrite wp_bind.
  eapply wp_mono; [apply (onRequest_spec B); [done|done|exact (eq_trans Hst1 Hst)|done|done|done]|].
  fold resp text. intros [] w2 (Hi3 & Hs3 & Hin3 & Hrest). apply wp_ret.
  split_and!; [done|done|by rewrite Hin3|by rewrite Hs3, <- Hs1|done].
Qed.

(** C4. A request that arrives whole is served: when [handleRead] reads at least one
    and at most 65536 bytes and they complete the text of a well-formed request in
    the input buffer of an established connection (the request is at the front of
    the buffer, the read may bring bytes after it), the callback is called with
    exactly the printed request, the text of its response is accepted by the
    connection behind everything sent before, the request leaves the input buffer
    and, if the response says so, the connection is shut down (FIN is sent at
    once exactly when nothing is left to write).  Supposed: the direct write of the
    answer may take any part of it or none but is not refused with EPIPE or
    ECONNRESET (after which the code throws the answer away); each part of the
    response fits one [append] and its text is below 2^31 bytes; and the two buffers
    have room for the bytes read and the answer. *)
Theorem request_is_served B t rest d receiveTime fuel rep w :
  let resp := m_httpCallback server (request_of t receiveTime) (HttpResponse_new true) in
  let text := response_text resp (order (r_headers resp)) in
  0 <= B -> conn_inv ch (len d + (len text + B)) w -> state w = kConnected -> healthy rep ->
  d <> [] -> len d <= extrabuf_size -> text_ok t -> input w ++ d = print_request t ++ rest ->
  (length (t_headers t) + 2 <= fuel)%nat -> response_ok resp -> len text < 2 ^ 31 ->
  wp (read_message ch order server fuel receiveTime (RData d) rep)
     (fun r w' => r = Some (Some HttpContext_new) /\ conn_inv ch B w' /\ input w' = rest /\
        stream w' = stream w ++ text /\
        if r_closeConnection resp
        then state w' = kDisconnecting /\ eof w' = bool_decide (out w' = [])
        else state w' = kConnected) w.
Proof. apply read_message_request. Qed.

(** A request line split over two reads is refused: as long as no line is
    complete, the first read is answered with [400 Bad Request] and the
    connection is shut down, although the bytes may be the beginning of a
    valid request; they stay in the buffer. *)
Theorem split_request_line_refused B d receiveTime fuel rep w :
  0 <= B -> conn_inv ch (len d + (len bad_request + B)) w -> state w = kConnected ->
  healthy rep -> d <> [] -> len d <= extrabuf_size -> split_line (input w ++ d) = None ->
  wp (read_message ch order server (S fuel) receiveTime (RData d) rep)
     (fun r w' => r = Some (Some HttpContext_new) /\ conn_inv ch B w' /\ input w' = input w ++ d /\
        stream w' = stream w ++ bad_request /\ state w' = kDisconnecting) w.
Proof.
  intros HB Hi Hst Hrep Hne Hd Hline.
  apply (read_message_data (len bad_request + B)); [lia|done..|]. intros w1 Hi1 Hin1 Hst1 Hs1.
  eapply onMessage_bytes; [done|]. rewrite Hin1. cbn [parse_bytes]. unfold iter_bytes.
  cbn [m_state HttpContext_new]. rewrite Hline. intros b Hb Hc Hi2.
  cbn [negb whenM]. rewrite wp_bind.
  assert (Hst2 : state (on_conn (c_setInput b) w1) = kConnected) by (exact (eq_trans Hst1 Hst)).
  pose proof (send_shutdown_spec B bad_request rep _ HB Hi2 Hst2 Hrep ltac:(by vm_compute)) as Hs.
  rewrite wp_bind in Hs |- *. unfold run_uact. rewrite wp_bind, wp_getS.
  fold (state (on_conn (c_setInput b) w1)). rewrite decide_True by done.
  eapply wp_mono; [exact Hs|]. cbn beta. intros [] w2 Hw2.
  eapply wp_mono; [exact Hw2|]. intros [] w3 (Hi3 & Hst3 & Hs3 & _ & Hin3).
  apply wp_ret. split_and!; [done|done|by rewrite Hin3|by rewrite Hs3, <- Hs1|done].
Qed.

(** Headers split over two reads hang the loop: the first read of a well-formed
    request that ends between two header lines is consumed without an answer
    and its context is thrown away; when the rest of the headers arrives,
    the fresh context takes the first remaining line for a request line and
    the handler never returns, whatever the fuel. *)
Theorem split_headers_hang B t h1 h2 rest t1 t2 fuel fuel2 rep1 rep2 w :
  let d1 := request_head t h1 in
  let d2 := headers_text h2 ++ kCRLF ++ rest in
  0 <= B -> conn_inv ch (len d1 + (len d2 + B)) w -> input w = [] ->
  len d1 <= extrabuf_size -> len d2 <= extrabuf_size ->
  text_ok t -> t_headers t = h1 ++ h2 -> Forall (fun h => " "%char ∉ h.1) h2 ->
  (length h1 + 2 <= fuel)%nat ->
  wp (r1 ← read_message ch order server fuel t1 (RData d1) rep1;
      r2 ← read_message ch order server fuel2 t2 (RData d2) rep2; mret (r1, r2))
     (fun r w' => (exists req, r = (Some (Some (mkContext kExpectHeaders req)), None)) /\
        stream w' = stream w /\ state w' = state w) w.
Proof.
  intros d1 d2 HB Hi Hin Hl1 Hl2 Ht Hh Hsp Hf.
  pose proof Ht as (_&_&_&_&_&_&_&_&Hok). rewrite Hh in Hok. apply Forall_app in Hok as [Hok1 Hok2].
  rewrite wp_bind. apply (read_message_data (len d2 + B)); [lia|done| |done|].
  { unfold d1, request_head. by intros [_ [? _]%app_eq_nil]%app_eq_nil. }
  intros w1 Hi1 Hin1 Hst1 Hs1. rewrite Hin in Hin1.
  eapply onMessage_bytes; [done|]. rewrite Hin1. cbn [app].
  destruct (parse_head t h1 t1 fuel Ht Hok1 Hf) as [req Hp]. fold d1 in Hp. rewrite Hp.
  intros b Hb Hc Hi2. cbn [negb whenM]. rewrite wp_bind, wp_ret.
  change (isGotAll _) with false. cbv iota. rewrite wp_ret, wp_bind.
  apply (read_message_data B); [lia|done| |done|].
  { unfold d2. by intros [_ [? _]%app_eq_nil]%app_eq_nil. }
  intros w2 Hi3 Hin3 Hst3 Hs3.
  eapply onMessage_bytes; [done|]. rewrite Hin3.
  change (input (on_conn (c_setInput b) w1)) with (content b). rewrite Hc. cbn [app].
  subst d2. rewrite rest_of_headers_stuck by done. apply wp_ret.
  split_and!; [by eexists|by rewrite Hs3, <- Hs1|by rewrite Hst3, <- Hst1].
Qed.

(** Persistent connections are not implemented: an HTTP/1.1 request with
    [Connection: Keep-Alive] on an established connection, for which the
    code computes that it need not close, is answered by a response that
    announces [Connection: close], with no [Content-Length], and the
    connection is shut down, whenever the callback leaves the close flag alone. *)
Theorem keep_alive_is_closed B req rep w :
  let resp := m_httpCallback server req (HttpResponse_new true) in
  let text := response_text resp (order (r_headers resp)) in
  wants_close req = false ->
  (forall r, r_closeConnection (m_httpCallback server req r) = r_closeConnection r) ->
  0 <= B -> conn_inv ch (len text + B) w -> state w = kConnected -> healthy rep ->
  response_ok resp -> len text < 2 ^ 31 ->
  wp (onRequest ch order server req rep)
     (fun _ w' => state w' = kDisconnecting /\
        stream w' = stream w ++ str "HTTP/1.1 " ++ number_text (status_code (r_statusCode resp)) ++
          str " " ++ r_statusMsg resp ++ kCRLF ++ str "Connection: close" ++ kCRLF ++
          concat (header_text <$> order (r_headers resp)) ++ kCRLF ++ r_body resp) w.
Proof.
  intros resp text _ Hcb HB Hi Hst Hrep Hok Hlen.
  pose proof (onRequest_spec B req rep w HB Hi Hst Hrep Hok Hlen) as Hs.
  fold resp text in Hs. rewrite (Hcb (HttpResponse_new true) : r_closeConnection resp = true) in Hs.
  eapply wp_mono; [exact Hs|]. intros [] w' (_ & Hs' & _ & Hst' & _).
  split; [done|]. rewrite Hs'. subst text. unfold response_text.
  rewrite (Hcb (HttpResponse_new true) : r_closeConnection resp = true).
  cbn [HttpResponse_new r_closeConnection]. by rewrite <- !app_assoc.
Qed.
End http_server_facts.
