(* ===== verification/MainServer.v ===== *)
(** * The program of [myserver/main/main.cpp]

    [onRequest] routes a request by its path; [main] builds the server on port
    8080.  What the callback prints on the console is part of its result.
    [now] is the text of [Timestamp::now().format()]. *)

From S2P Require Import Prelude CppInt CText Sys Buffer Timestamp Channel EpollPoller.
From S2P Require Import TcpConnection HttpRequest HttpResponse HttpServer.

(** The icon: 555 initialised characters, the array has 555. *)
Definition favicon_data : list N :=
  (
  [     137; 80; 78; 71; 13; 10; 26; 10; 0; 0; 0; 13; 73; 72; 68; 82;
     0; 0; 0; 16; 0; 0; 0; 16; 8; 6; 0; 0; 0; 31; 243; 255;
     97; 0; 0; 0; 25; 116; 69; 88; 116; 83; 111; 102; 116; 119; 97; 114;
     101; 0; 65; 100; 111; 98; 101; 32; 73; 109; 97; 103; 101; 82; 101; 97;
     100; 121; 113; 201; 101; 60; 0; 0; 1; 205; 73; 68; 65; 84; 120; 218;
     148; 147; 57; 72; 3; 65; 20; 134; 255; 93; 98; 167; 4; 82; 196; 109;
     34; 30; 160; 70; 36; 8; 22; 22; 118; 10; 54; 186; 74; 154; 128; 8;
     65; 180; 113; 133; 88; 137; 71; 176; 73; 169; 81; 36; 205; 166; 8; 164;
     72; 99; 145; 66; 11; 175; 86; 193; 70; 180; 21; 207; 34; 88; 152; 11;
     84; 72; 138; 100; 147; 141; 251; 70; 103; 201; 26; 20; 125; 240; 102; 118;
     102; 223; 124; 239; 231; 103; 70; 168; 213; 106; 72; 36; 18; 42; 0; 5;
     191; 71; 212; 239; 247; 47; 54; 236; 18; 32; 30; 143; 215; 170; 213; 234;
     175; 73; 53; 70; 170; 84; 95; 159; 34; 65; 42; 149; 10; 131; 229; 114;
     57; 100; 179; 89; 150; 153; 76; 6; 233; 116; 154; 37; 133; 44; 203; 84;
     167; 196; 98; 49; 181; 94; 0; 3; 104; 154; 198; 22; 130; 32; 88; 82;
     20; 69; 54; 83; 148; 203; 101; 120; 189; 94; 170; 85; 84; 35; 76; 192;
     224; 226; 193; 143; 0; 158; 188; 9; 65; 124; 62; 31; 131; 68; 34; 17;
     213; 84; 64; 63; 56; 128; 119; 229; 51; 7; 184; 92; 46; 72; 146; 4;
     135; 195; 129; 64; 32; 64; 103; 152; 233; 54; 26; 166; 103; 21; 4; 227;
     215; 200; 189; 21; 225; 105; 183; 67; 171; 234; 120; 47; 106; 88; 146; 187;
     24; 32; 159; 207; 51; 195; 184; 233; 78; 167; 211; 108; 74; 0; 105; 54;
     124; 142; 225; 254; 86; 132; 231; 60; 159; 114; 43; 58; 66; 123; 55; 102;
     119; 174; 142; 14; 243; 189; 82; 169; 100; 2; 66; 175; 133; 50; 102; 70;
     186; 12; 217; 159; 29; 154; 108; 34; 230; 199; 58; 44; 128; 239; 193; 21;
     144; 7; 147; 162; 40; 160; 83; 106; 177; 184; 223; 41; 53; 67; 14; 63;
     88; 252; 152; 218; 121; 106; 80; 64; 0; 135; 174; 27; 23; 66; 180; 58;
     63; 190; 121; 199; 10; 38; 182; 238; 217; 154; 96; 20; 147; 219; 143; 13;
     10; 46; 233; 35; 149; 41; 88; 0; 39; 235; 110; 86; 112; 188; 214; 203;
     214; 71; 171; 61; 108; 125; 184; 210; 221; 160; 96; 131; 186; 239; 95; 164;
     234; 204; 2; 78; 174; 94; 112; 26; 236; 179; 64; 57; 172; 254; 242; 145;
     137; 103; 145; 133; 33; 168; 135; 183; 88; 126; 126; 133; 187; 205; 78; 78;
     98; 116; 64; 250; 147; 137; 236; 30; 236; 134; 2; 72; 38; 147; 208; 117;
     29; 127; 9; 50; 149; 191; 31; 219; 215; 99; 138; 26; 247; 92; 193; 255;
     34; 74; 195; 135; 0; 3; 0; 75; 187; 248; 214; 42; 118; 152; 73; 0;
     0; 0; 0; 73; 69; 78; 68; 174; 66; 96; 130]
  )%N.

Definition favicon_size : nat := 555.
Definition favicon : bytes :=
  let data := ascii_of_N <$> favicon_data in data ++ replicate (favicon_size - length data) NUL.

Definition benchmark : bool := false.

(** The colon printed between field and value is the full-width one. *)
Definition console_header (h : bytes * bytes) : bytes :=
  h.1 ++ [" "; "239"; "188"; "154"]%char ++ h.2 ++ ["010"%char].

Definition onRequest_console (order : gmap bytes bytes -> list (bytes * bytes)) (req : HttpRequest) : bytes :=
  str "headers " ++ methodString req ++ str ", " ++ m_path req ++ ["010"%char] ++
  (if benchmark then [] else concat (console_header <$> order (m_headers req))).

Definition root_page (now : bytes) : bytes :=
  str "<html><head><title>This is title</title></head>" ++
  str "<body><h1>Hello</h1>Now is " ++ now ++ str "</body></html>".

Definition main_onRequest (now : bytes) (req : HttpRequest) (resp : HttpResponse) : HttpResponse :=
  if decide (m_path req = str "/")
  then setBody (root_page now)
         (HttpResponse.addHeader (str "Server") (str "Muduo_zzz")
            (setContentType (str "text/html") (setStatusMsg (str "OK") (setStatusCode k200_ok resp))))
  else if decide (m_path req = str "/favicon.ico")
  then setBody favicon
         (setContentType (str "image/png") (setStatusMsg (str "OK") (setStatusCode k200_ok resp)))
  else if decide (m_path req = str "/hello")
  then setBody (str "hello world")
         (HttpResponse.addHeader (str "Server") (str "Muduo_zzz")
            (setContentType (str "text/plain") (setStatusMsg (str "OK") (setStatusCode k200_ok resp))))
  else setCloseConnection true (setStatusMsg (str "Not Found") (setStatusCode k404_notFound resp)).

Definition main_server (now : bytes) : HttpServer := setHttpCallback (main_onRequest now) HttpServer_new.

(** ** Facts *)

Lemma concat_length_perm {A B} (f : A -> list B) l l' :
  l ≡ₚ l' -> length (concat (f <$> l)) = length (concat (f <$> l')).
Proof.
  induction 1 as [|x l l' _ IH|x y l|l1 l2 l3 _ IH1 _ IH2]; csimpl; rewrite ?length_app; lia.
Qed.

Lemma favicon_length : length favicon = 555%nat.
Proof. vm_compute. reflexivity. Qed.

(** The four responses, by the path. *)
Lemma main_cases now req (Q : HttpResponse -> Prop) resp :
  (m_path req = str "/" ->
     Q (mkResponse (<[str "Server" := str "Muduo_zzz"]> (<[str "Content-Type" := str "text/html"]>
          (r_headers resp))) k200_ok (str "OK") (r_closeConnection resp) (root_page now))) ->
  (m_path req = str "/favicon.ico" ->
     Q (mkResponse (<[str "Content-Type" := str "image/png"]> (r_headers resp)) k200_ok (str "OK")
          (r_closeConnection resp) favicon)) ->
  (m_path req = str "/hello" ->
     Q (mkResponse (<[str "Server" := str "Muduo_zzz"]> (<[str "Content-Type" := str "text/plain"]>
          (r_headers resp))) k200_ok (str "OK") (r_closeConnection resp) (str "hello world"))) ->
  (m_path req ∉ [str "/"; str "/favicon.ico"; str "/hello"] ->
     Q (mkResponse (r_headers resp) k404_notFound (str "Not Found") true (r_body resp))) ->
  Q (main_onRequest now req resp).
Proof.
  intros H1 H2 H3 H4. unfold main_onRequest.
  case_decide; [auto|]. case_decide; [auto|]. case_decide; [auto|].
  apply H4. rewrite !not_elem_of_cons. split_and!; try done. apply not_elem_of_nil.
Qed.

(** The routes: for every request the program answers [200 OK] exactly for
    the three paths it knows, with the content type and the body of that
    route, and otherwise [404 Not Found] without a body; it never switches the
    close flag off; and with a time stamp of at most 63 characters (the size
    [format] cuts to) every response fits one [append] per field and a text of
    1000 bytes, in every order of its headers. *)
Theorem main_routes order now req :
  (forall m, order m ≡ₚ map_to_list m) -> (length now <= 63)%nat ->
  let r := main_onRequest now req (HttpResponse_new true) in
  (r_statusCode r = k200_ok <-> m_path req ∈ [str "/"; str "/favicon.ico"; str "/hello"]) /\
  match r_statusCode r with
  | k200_ok =>
      r_statusMsg r = str "OK" /\
      (m_path req = str "/" -> r_body r = root_page now /\
         r_headers r !! str "Content-Type" = Some (str "text/html")) /\
      (m_path req = str "/favicon.ico" -> length (r_body r) = 555%nat /\
         take 8 (r_body r) = ascii_of_N <$> [137; 80; 78; 71; 13; 10; 26; 10]%N /\
         r_headers r !! str "Content-Type" = Some (str "image/png")) /\
      (m_path req = str "/hello" -> r_body r = str "hello world" /\
         r_headers r !! str "Content-Type" = Some (str "text/plain"))
  | s => s = k404_notFound /\ r_statusMsg r = str "Not Found" /\ r_body r = []
  end /\
  r_closeConnection r = true /\ response_ok r /\
  len (response_text r (order (r_headers r))) <= 1000.
Proof.
  intros Hord Hnow r. subst r.
  assert (Hlen : forall h s m b, (length m <= 10)%nat -> (length b <= 555)%nat ->
    (length (concat (header_text <$> map_to_list h)) <= 60)%nat ->
    len (response_text (mkResponse h s m true b) (order h)) <= 1000).
  { intros h s m b Hm Hb Hh. unfold response_text. cbn [r_statusCode r_statusMsg r_closeConnection r_body].
    assert (length (number_text (status_code s)) <= 10)%nat
      by (apply digits_short; destruct s; simpl; lia).
    rewrite !length_app, (concat_length_perm _ _ _ (Hord h)). simpl length. lia. }
  assert (Hroot : (length (root_page now) <= 160)%nat) by (unfold root_page; rewrite !length_app; simpl; lia).
  pose proof favicon_length as Hfav.
  apply main_cases; cbn [HttpResponse_new r_headers r_body r_closeConnection r_statusCode r_statusMsg];
    intros Hp; (split; [|split; [|split; [done|split]]]).
  - rewrite Hp. split; [intros _; left|done].
  - rewrite Hp. split_and!; try done; intros _; split_and!; solve [done|by vm_compute].
  - split_and!; [by vm_compute|cbn [r_body]; change (len (str "hello world")) with 11; lia|].
    apply (bool_decide_unpack _). by vm_compute.
  - apply Hlen; [simpl; lia|lia|apply Nat.leb_le; by vm_compute].
  - rewrite Hp. split; [intros _; right; left|done].
  - rewrite Hp. split_and!; try done; intros _; split_and!; solve [done|by vm_compute].
  - split_and!; [by vm_compute|cbn [r_body]; change (len (str "hello world")) with 11; lia|].
    apply (bool_decide_unpack _). by vm_compute.
  - apply Hlen; [simpl; lia|lia|apply Nat.leb_le; by vm_compute].
  - rewrite Hp. split; [intros _; right; right; left|done].
  - rewrite Hp. split_and!; try done; intros _; split_and!; solve [done|by vm_compute].
  - split_and!; [by vm_compute|cbn [r_body]; change (len (str "hello world")) with 11; lia|].
    apply (bool_decide_unpack _). by vm_compute.
  - apply Hlen; [simpl; lia|simpl; lia|apply Nat.leb_le; by vm_compute].
  - split; [done|by intros].
  - done.
  - split_and!; [by vm_compute|by vm_compute|apply map_Forall_empty].
  - apply Hlen; [simpl; lia|simpl; lia|apply Nat.leb_le; by vm_compute].
Qed.

Section main_server.
Context {P : Type} `{ChannelLaws P} (ch : Z).
Context (order : gmap bytes bytes -> list (bytes * bytes)).
Context (order_visits : forall m, order m ≡ₚ map_to_list m).
Implicit Types w : TW P.

(** C3. The program answers a client: when a well-formed request arrives whole on a
    new connection, then after write events for a thousand bytes, however the
    kernel cuts them, the client has got exactly the text of the response of the
    request's route followed by the end of the stream; the status is 200 for the
    three paths the program knows and 404 otherwise. *)
Theorem main_serves_client now t receiveTime fuel rep ks w :
  let resp := main_onRequest now (request_of t receiveTime) (HttpResponse_new true) in
  (length now <= 63)%nat -> text_ok t -> len (print_request t) <= extrabuf_size ->
  (length (t_headers t) + 2 <= fuel)%nat -> healthy rep ->
  conn_inv ch (len (print_request t) + 1000) w -> state w = kConnected -> input w = [] -> stream w = [] ->
  Forall (fun k => 0 < k)%nat ks -> (1000 <= sum_list ks)%nat ->
  wp (read_message ch order (main_server now) fuel receiveTime (RData (print_request t)) rep ;;
      forM ks (fun k => handleWrite ch (WAccept k)))
     (fun _ w' => state w' = kDisconnecting /\ eof w' = true /\ out w' = [] /\
        s_wire (t_sock w') = response_text resp (order (r_headers resp)) /\
        r_statusCode resp = (if decide (t_path t ∈ [str "/"; str "/favicon.ico"; str "/hello"])
                             then k200_ok else k404_notFound)) w.
Proof.
  intros resp Hnow Ht Hlen Hf Hrep Hi Hst Hin Hout Hks Hsum.
  destruct (main_routes order now (request_of t receiveTime) order_visits Hnow) as (Hr & Hm & Hc & Hok & Hl).
  fold resp in Hr, Hm, Hc, Hok, Hl. rewrite wp_bind. eapply wp_mono.
  { apply (read_message_request ch order order_visits (main_server now) 0 t []); try done.
    - eapply conn_inv_weaken; [exact Hi|]. change (m_httpCallback _) with (main_onRequest now). fold resp. lia.
    - unfold print_request. by intros [_ [? _]%app_eq_nil]%app_eq_nil.
    - by rewrite Hin, app_nil_r.
    - change (m_httpCallback _) with (main_onRequest now). fold resp. lia. }
  change (m_httpCallback _) with (main_onRequest now). fold resp. rewrite Hc.
  intros ? w1 (_ & Hi1 & _ & Hs1 & Hst1 & He1).
  rewrite Hout in Hs1. cbn [app] in Hs1.
  eapply wp_mono; [apply (drain_spec ch 0); [done|done| |done|]|].
  - intros Ho. by rewrite He1, Ho.
  - apply (f_equal length) in Hs1. unfold stream in Hs1. rewrite length_app in Hs1. lia.
  - intros [] w2 (He2 & Hst2 & Ho2 & Hw2). split_and!; [done|done|done|congruence|].
    destruct (decide (t_path t ∈ _)) as [Hp|Hp]; [by apply Hr|].
    destruct (r_statusCode resp); try by destruct Hm. destruct Hp. by apply Hr.
Qed.
End main_server.

(** ** Witnesses on the connection of [TcpConnection] *)

Definition demo_server : HttpServer := main_server (str "2024/01/01 00:00:00").

Lemma main_routes_witness :
  let req := mkRequest GET Http11 (str "/hello") [] 0 ∅ in
  r_body (main_onRequest [] req (HttpResponse_new true)) = str "hello world".
Proof.
  destruct (main_routes map_to_list [] (mkRequest GET Http11 (str "/hello") [] 0 ∅)
              (fun m => reflexivity _) ltac:(simpl; lia)) as (_ & (_ & _ & _ & H) & _).
  exact (proj1 (H eq_refl)).
Defined.

Definition demo_request : RequestText :=
  mkText GET (str "/hello") [] Http11 [(str "Host", str "a:8080"); (str "Accept", str "*/*")].

Lemma demo_map_order : forall m : gmap bytes bytes, map_to_list m ≡ₚ map_to_list m.
Proof. reflexivity. Qed.

Lemma request_is_served_witness :
  wp (read_message 300 map_to_list demo_server 9 5 (RData (print_request demo_request ++ str "x")) (WAccept 20))
     (fun r w' => r = Some (Some HttpContext_new) /\ conn_inv 300 0 w' /\ input w' = str "x" /\
        stream w' = response_text (main_onRequest (str "2024/01/01 00:00:00")
                                     (request_of demo_request 5) (HttpResponse_new true))
                      [(str "Server", str "Muduo_zzz"); (str "Content-Type", str "text/plain")] /\
        state w' = kDisconnecting) demo_conn.
Proof.
  assert (Hi : conn_inv 300 (len (print_request demo_request ++ str "x") +
    (len (response_text (main_onRequest (str "2024/01/01 00:00:00") (request_of demo_request 5)
       (HttpResponse_new true)) [(str "Server", str "Muduo_zzz"); (str "Content-Type", str "text/plain")]) + 0))
    demo_conn).
  { eapply conn_inv_weaken; [exact demo_conn_inv|]. vm_compute. split; discriminate. }
  eapply wp_mono.
  - apply (request_is_served 300 map_to_list demo_map_order demo_server 0 demo_request (str "x")).
    + lia.
    + exact Hi.
    + reflexivity.
    + exact I.
    + discriminate.
    + vm_compute. discriminate.
    + apply (bool_decide_unpack _). vm_compute. exact I.
    + reflexivity.
    + simpl. lia.
    + apply (bool_decide_unpack _). vm_compute. exact I.
    + vm_compute. reflexivity.
  - intros r w' (Hr & Hi' & Hin & Hs & Hst & _).
    split; [exact Hr|]. split; [exact Hi'|]. split; [exact Hin|]. split; [|exact Hst].
    rewrite Hs. vm_compute. reflexivity.
Defined.

Lemma main_serves_client_witness :
  wp (read_message 300 map_to_list demo_server 9 5 (RData (print_request demo_request)) (WAccept 20) ;;
      forM [600; 600]%nat (fun k => handleWrite 300 (WAccept k)))
     (fun _ w' => eof w' = true /\
        s_wire (t_sock w') = response_text (main_onRequest (str "2024/01/01 00:00:00")
                                     (request_of demo_request 5) (HttpResponse_new true))
                      [(str "Server", str "Muduo_zzz"); (str "Content-Type", str "text/plain")]) demo_conn.
Proof.
  eapply wp_mono.
  - apply (main_serves_client 300 map_to_list demo_map_order (str "2024/01/01 00:00:00") demo_request).
    + simpl. lia.
    + apply (bool_decide_unpack _). vm_compute. exact I.
    + vm_compute. discriminate.
    + simpl. lia.
    + exact I.
    + eapply conn_inv_weaken; [exact demo_conn_inv|]. vm_compute. split; discriminate.
    + reflexivity.
    + reflexivity.
    + reflexivity.
    + repeat constructor.
    + simpl. lia.
  - intros r w' (_ & He & _ & Hw & _). split; [exact He|]. rewrite Hw. vm_compute. reflexivity.
Defined.

Lemma split_request_line_refused_witness :
  wp (read_message 300 map_to_list demo_server 1 5 (RData (str "GET /hel")) (WAccept 20))
     (fun r w' => stream w' = bad_request /\ input w' = str "GET /hel") demo_conn.
Proof.
  eapply wp_mono.
  - apply (split_request_line_refused 300 map_to_list demo_server 0 (str "GET /hel")).
    + lia.
    + eapply conn_inv_weaken; [exact demo_conn_inv|]. vm_compute. split; discriminate.
    + reflexivity.
    + exact I.
    + discriminate.
    + vm_compute. discriminate.
    + vm_compute. reflexivity.
  - intros r w' (_ & _ & Hin & Hs & _).
    split; [rewrite Hs; vm_compute; reflexivity|rewrite Hin; vm_compute; reflexivity].
Defined.

Lemma split_headers_hang_witness :
  t_headers demo_request = [(str "Host", str "a:8080"); (str "Accept", str "*/*")] /\
  forall fuel,
  wp (r1 ← read_message 300 map_to_list demo_server 3 5
             (RData (request_head demo_request [(str "Host", str "a:8080")])) (WAccept 0);
      r2 ← read_message 300 map_to_list demo_server fuel 6
             (RData (headers_text [(str "Accept", str "*/*")] ++ kCRLF ++ [])) (WAccept 0);
      mret (r1, r2))
     (fun r w' => r.2 = None /\ stream w' = []) demo_conn.
Proof.
  split; [reflexivity|]. intros fuel. eapply wp_mono.
  - apply (split_headers_hang 300 map_to_list demo_map_order demo_server 0 demo_request
             [(str "Host", str "a:8080")] [(str "Accept", str "*/*")] []).
    + lia.
    + eapply conn_inv_weaken; [exact demo_conn_inv|]. vm_compute. split; discriminate.
    + reflexivity.
    + vm_compute. discriminate.
    + vm_compute. discriminate.
    + apply (bool_decide_unpack _). vm_compute. exact I.
    + reflexivity.
    + apply (bool_decide_unpack _). vm_compute. exact I.
    + simpl. lia.
  - intros [r1 r2] w' ((req & [= _ Hr2]) & Hs & _). split; [exact Hr2|].
    rewrite Hs. vm_compute. reflexivity.
Defined.

Definition demo_keep_alive : HttpRequest :=
  mkRequest GET Http11 (str "/hello") [] 0 {[str "Connection" := str "Keep-Alive"]}.

Lemma demo_default_keeps r :
  r_closeConnection (m_httpCallback (setHttpCallback (fun _ r => setStatusCode k200_ok r) HttpServer_new)
    demo_keep_alive r) = r_closeConnection r.
Proof. reflexivity. Qed.

Lemma keep_alive_is_closed_witness :
  wp (onRequest 300 map_to_list (setHttpCallback (fun _ r => setStatusCode k200_ok r) HttpServer_new)
        demo_keep_alive (WAccept 20))
     (fun _ w' => state w' = kDisconnecting) demo_conn.
Proof.
  eapply wp_mono.
  - apply (keep_alive_is_closed 300 map_to_list demo_map_order
             (setHttpCallback (fun _ r => setStatusCode k200_ok r) HttpServer_new) 0 demo_keep_alive).
    + vm_compute. reflexivity.
    + exact demo_default_keeps.
    + lia.
    + eapply conn_inv_weaken; [exact demo_conn_inv|]. vm_compute. split; discriminate.
    + reflexivity.
    + exact I.
    + apply (bool_decide_unpack _). vm_compute. exact I.
    + vm_compute. reflexivity.
  - intros r w' (Hst & _). exact Hst.
Defined.
