(* ===== verification/TcpServer.v ===== *)
(** * Accepting connections ([myserver/net/inet_address.cpp], [mysocket.cpp],
      [acceptor.cpp], [tcp_server.cpp] and their headers)

    [TcpServer] runs in the base loop; each connection lives in the loop the
    pool hands out.  A functor posted to a loop is a [task]; the tasks not yet
    run are one list in the order of posting, of which every loop runs its own
    entries first to last ([EventLoop] shows that a loop is such a queue).
    Objects are named by their addresses. *)

From S2P Require Import Prelude CppInt CText Sys Buffer Timestamp Channel.
From S2P Require Import EpollPoller TcpConnection ThreadPool.

(** ** [InetAddress] *)

Definition AF_INET : Z := 2.
Definition INADDR_ANY : Z := 0.

Record InetAddress := mkInet {
  sin_family : Z;
  sin_port : Z;   (* network byte order *)
  s_addr : Z;     (* network byte order *)
}.

Definition htons (x : Z) : Z := Z.lor (Z.shiftl (Z.land x 255) 8) (Z.shiftr x 8).
Definition ntohs : Z -> Z := htons.
Definition htonl (x : Z) : Z :=
  Z.lor (Z.shiftl (htons (Z.land x 65535)) 16) (htons (Z.shiftr x 16)).

Definition octet (a : Z) (i : Z) : Z := Z.land (Z.shiftr a (8 * i)) 255.

(** [inet_ntop] for IPv4: the four bytes as they lie in memory, in decimal. *)
Definition inet_ntop (a : Z) : bytes :=
  number_text (octet a 0) ++ str "." ++ number_text (octet a 1) ++ str "." ++
  number_text (octet a 2) ++ str "." ++ number_text (octet a 3).

Definition InetAddress_new (port : Z) (ip : bytes) : InetAddress :=
  mkInet AF_INET (htons port) (htonl INADDR_ANY).

Definition toIp (a : InetAddress) : bytes := inet_ntop (s_addr a).
Definition toIpPort (a : InetAddress) : bytes :=
  inet_ntop (s_addr a) ++ str ":" ++ number_text (ntohs (sin_port a)).
Definition toPort (a : InetAddress) : Z := ntohs (sin_port a).

(** ** [MySocket]: the options and the state the kernel keeps for a descriptor *)

Record KSocket := mkKSocket {
  k_nodelay : bool;
  k_reuseaddr : bool;
  k_reuseport : bool;
  k_keepalive : bool;
  k_bound : option InetAddress;
  k_listening : bool;
}.

Definition KSocket_new : KSocket := mkKSocket false false false false None false.

Definition setTcpNoDelay (on : bool) (k : KSocket) : KSocket :=
  mkKSocket on (k_reuseaddr k) (k_reuseport k) (k_keepalive k) (k_bound k) (k_listening k).
Definition setReuseAddr (on : bool) (k : KSocket) : KSocket :=
  mkKSocket (k_nodelay k) on (k_reuseport k) (k_keepalive k) (k_bound k) (k_listening k).
Definition setReusePort (on : bool) (k : KSocket) : KSocket :=
  mkKSocket (k_nodelay k) (k_reuseaddr k) on (k_keepalive k) (k_bound k) (k_listening k).
Definition setKeepAlive (on : bool) (k : KSocket) : KSocket :=
  mkKSocket (k_nodelay k) (k_reuseaddr k) (k_reuseport k) on (k_bound k) (k_listening k).

(** [LOG_FATAL] ends the process. *)
Definition log_fatal {A} (what : string) : outcome A := Throw (ExnNamed what).

(** [ok]: whether the system call succeeds. *)
Definition bindAddress (ok : bool) (a : InetAddress) (k : KSocket) : outcome KSocket :=
  if ok then Ok (mkKSocket (k_nodelay k) (k_reuseaddr k) (k_reuseport k) (k_keepalive k) (Some a)
                   (k_listening k))
  else log_fatal "bind sockfd failed.".
Definition socket_listen (ok : bool) (k : KSocket) : outcome KSocket :=
  if ok then Ok (mkKSocket (k_nodelay k) (k_reuseaddr k) (k_reuseport k) (k_keepalive k) (k_bound k) true)
  else log_fatal "listen sockfd failed.".

(** Reply of [accept4]. *)
Inductive areply : Type :=
  | AFail (errno : Z)
  | AConn (connfd : Z) (peer : InetAddress).

(** The value returned, and the address left in [*peerAddr]. *)
Definition socket_accept (rep : areply) (peerAddr : InetAddress) : Z * InetAddress :=
  match rep with
  | AFail _ => (-1, peerAddr)
  | AConn connfd addr => (connfd, addr)
  end.

(** ** [Acceptor] *)

Record Acceptor := mkAcceptor {
  a_socket : KSocket;
  a_channel : Channel;
  a_newConnection : bool;
  a_listenning : bool;
}.

(** [fd]: reply of [socket]. *)
Definition createNonBlock (fd : Z) : outcome Z :=
  if decide (fd < 0) then log_fatal "listen socket create failed: " else Ok fd.

Definition Acceptor_new (fd : Z) (bind_ok : bool) (listenAddr : InetAddress) (reusePort : bool) :
    outcome Acceptor :=
  fd ← createNonBlock fd;
  let k := setReusePort true (setReuseAddr reusePort KSocket_new) in
  k ← bindAddress bind_ok listenAddr k;
  Ok (mkAcceptor k (setReadCallback (Channel_new fd)) false false).

Definition setNewConnectionCallback (a : Acceptor) : Acceptor :=
  mkAcceptor (a_socket a) (a_channel a) true (a_listenning a).

(** The channel's [update] is [EpollPoller]'s; here the mask it asks for. *)
Definition Acceptor_listen (listen_ok : bool) (a : Acceptor) : outcome Acceptor :=
  k ← socket_listen listen_ok (a_socket a);
  Ok (mkAcceptor k (setEvents (mask_of enableRead (ch_events (a_channel a))) (a_channel a))
        (a_newConnection a) true).

Inductive accept_effect : Type :=
  | CallNewConnection (connfd : Z) (peer : InetAddress)
  | CloseFd (connfd : Z)
  | LogAcceptFailed (limit : bool).

Definition Acceptor_handleRead (rep : areply) (a : Acceptor) : accept_effect :=
  let '(connfd, peerAddr) := socket_accept rep (InetAddress_new 0 (str "127.0.0.1")) in
  if decide (connfd >= 0)
  then if a_newConnection a then CallNewConnection connfd peerAddr else CloseFd connfd
  else LogAcceptFailed (match rep with AFail e => bool_decide (e = EMFILE) | _ => false end).

Definition Acceptor_destroy (a : Acceptor) : Acceptor :=
  mkAcceptor (a_socket a) (setEvents (mask_of disableAll (ch_events (a_channel a))) (a_channel a))
    (a_newConnection a) (a_listenning a).

(** ** [TcpServer] *)

Inductive Option_ : Type := kNoReusePort | kReusePort.

Inductive task : Type :=
  | TListen
  | TEstablished (conn : Z)
  | TRemove (conn : Z)
  | TDestroyed (conn : Z).

#[export] Instance task_eq_dec : EqDecision task.
Proof. solve_decision. Defined.

(** A connection object as the server sees it. *)
Record ConnObj := mkConnObj {
  o_loop : Z;
  o_name : bytes;
  o_fd : Z;
  o_local : InetAddress;
  o_peer : InetAddress;
  o_callback : bool;   (* whether its connection callback holds a function *)
  o_state : StateE;
}.

Record TcpServer := mkTcpServer {
  m_loop : Z;
  m_ipPort : bytes;
  m_name : bytes;
  m_acceptor : Acceptor;
  m_threadPool : Pool;
  m_connectionCallback : bool;   (* whether it holds a function *)
  m_started : Z;
  m_nextConnId : Z;
  m_connections : gmap bytes Z;
}.

(** The server, the connection objects, the tasks posted and the tasks run. *)
Record Srv := mkSrv {
  s_srv : TcpServer;
  s_heap : gmap Z ConnObj;
  s_pending : list (Z * task);
  s_trace : list (Z * task);
}.

Definition on_srv (f : TcpServer -> TcpServer) (s : Srv) : Srv :=
  mkSrv (f (s_srv s)) (s_heap s) (s_pending s) (s_trace s).
Definition on_heap (f : gmap Z ConnObj -> gmap Z ConnObj) (s : Srv) : Srv :=
  mkSrv (s_srv s) (f (s_heap s)) (s_pending s) (s_trace s).
Definition on_tasks (f : list (Z * task) -> list (Z * task)) (s : Srv) : Srv :=
  mkSrv (s_srv s) (s_heap s) (f (s_pending s)) (s_trace s).
Definition on_ran (f : list (Z * task) -> list (Z * task)) (s : Srv) : Srv :=
  mkSrv (s_srv s) (s_heap s) (s_pending s) (f (s_trace s)).

Definition set_pool (p : Pool) (s : TcpServer) : TcpServer :=
  mkTcpServer (m_loop s) (m_ipPort s) (m_name s) (m_acceptor s) p (m_connectionCallback s) (m_started s) (m_nextConnId s)
    (m_connections s).
Definition set_acceptor (a : Acceptor) (s : TcpServer) : TcpServer :=
  mkTcpServer (m_loop s) (m_ipPort s) (m_name s) a (m_threadPool s) (m_connectionCallback s) (m_started s) (m_nextConnId s)
    (m_connections s).
Definition set_started (n : Z) (s : TcpServer) : TcpServer :=
  mkTcpServer (m_loop s) (m_ipPort s) (m_name s) (m_acceptor s) (m_threadPool s) (m_connectionCallback s) n (m_nextConnId s)
    (m_connections s).
Definition set_nextConnId (n : Z) (s : TcpServer) : TcpServer :=
  mkTcpServer (m_loop s) (m_ipPort s) (m_name s) (m_acceptor s) (m_threadPool s) (m_connectionCallback s) (m_started s) n
    (m_connections s).
Definition set_connections (f : gmap bytes Z -> gmap bytes Z) (s : TcpServer) : TcpServer :=
  mkTcpServer (m_loop s) (m_ipPort s) (m_name s) (m_acceptor s) (m_threadPool s) (m_connectionCallback s) (m_started s)
    (m_nextConnId s) (f (m_connections s)).
Definition set_conn_state (st : StateE) (o : ConnObj) : ConnObj :=
  mkConnObj (o_loop o) (o_name o) (o_fd o) (o_local o) (o_peer o) (o_callback o) st.
Definition setConnectionCallback (cb : bool) (s : TcpServer) : TcpServer :=
  mkTcpServer (m_loop s) (m_ipPort s) (m_name s) (m_acceptor s) (m_threadPool s) cb (m_started s)
    (m_nextConnId s) (m_connections s).

Definition checkLoopNotNull (loop : Z) : outcome Z :=
  if decide (loop = 0) then log_fatal "mainloop is null" else Ok loop.

Definition TcpServer_new (fd : Z) (bind_ok : bool) (loop : Z) (listenAddr : InetAddress) (name : bytes)
    (option : Option_) : outcome TcpServer :=
  loop ← checkLoopNotNull loop;
  a ← Acceptor_new fd bind_ok listenAddr (match option with kReusePort => true | kNoReusePort => false end);
  Ok (mkTcpServer loop (toIpPort listenAddr) name (setNewConnectionCallback a)
        (Pool_new loop name) false 0 1 ∅).

Definition server_setThreadNum (n : Z) (s : TcpServer) : TcpServer :=
  set_pool (setThreadNum n (m_threadPool s)) s.

(** *** Tasks *)

Definition queueInLoop (loop : Z) (t : task) : M Srv unit := modify (on_tasks (fun l => l ++ [(loop, t)])).

Definition conn_of (c : Z) : M Srv ConnObj :=
  s ← getS; match s_heap s !! c with Some o => mret o | None => undefined end.

Definition setConnState (c : Z) (st : StateE) : M Srv unit :=
  o ← conn_of c; modify (on_heap <[c := set_conn_state st o]>).

(** The call of the connection callback: an empty [std::function] throws.  What the user's
    function does is not the server's. *)
Definition call_connectionCallback (o : ConnObj) : M Srv unit :=
  if o_callback o then mret tt else liftO (Throw ExnBadFunctionCall).

Definition removeConnectionInLoop (c : Z) : M Srv unit :=
  o ← conn_of c;
  modify (on_srv (set_connections (delete (o_name o)))) ;;
  queueInLoop (o_loop o) (TDestroyed c).

(** [connectDestroyed] leaves a connection that was closed before as it is. *)
Definition run_task (listen_ok : bool) (loop : Z) (t : task) : M Srv unit :=
  modify (on_ran (fun l => l ++ [(loop, t)])) ;;
  match t with
  | TListen =>
      s ← getS;
      a ← liftO (Acceptor_listen listen_ok (m_acceptor (s_srv s)));
      modify (on_srv (set_acceptor a))
  | TEstablished c =>
      o ← conn_of c;
      setConnState c kConnected ;; call_connectionCallback o
  | TRemove c => removeConnectionInLoop c
  | TDestroyed c =>
      o ← conn_of c;
      if decide (o_state o = kConnected)
      then setConnState c kDisconnected ;; call_connectionCallback o
      else mret tt
  end.

(** [runInLoop] called from the thread of [cur]. *)
Definition runInLoop (listen_ok : bool) (cur loop : Z) (t : task) : M Srv unit :=
  if decide (cur = loop) then run_task listen_ok loop t else queueInLoop loop t.

(** *** The operations *)

(** [cur]: the loop of the calling thread. *)
Definition start (listen_ok : bool) (cur : Z) (startLoop : Z -> Z) (cb : bool) : M Srv unit :=
  s ← getS;
  let started := m_started (s_srv s) in
  modify (on_srv (set_started (s32 (started + 1)))) ;;
  if decide (started = 0)
  then
    modify (on_srv (set_pool (Pool_start startLoop cb (m_threadPool (s_srv s))).1)) ;;
    runInLoop listen_ok cur (m_loop (s_srv s)) TListen
  else mret tt.

(** ["-%s#%d"] into an array of 64 characters. *)
Definition conn_suffix (ipPort : bytes) (id : Z) : bytes :=
  snprintf_cut 64 (str "-" ++ ipPort ++ str "#" ++ number_text id).

(** [p] is the address [new TcpConnection] returns, [local] the reply of
    [getsockname] (a failure is only logged, the address is then all zero). *)
Definition newConnection (cur : Z) (p sockfd : Z) (local : option InetAddress) (peerAddr : InetAddress) :
    M Srv unit :=
  s ← getS;
  '(ioLoop, pool) ← liftO (getNextLoop (m_threadPool (s_srv s)));
  modify (on_srv (set_pool pool)) ;;
  let buf := conn_suffix (m_ipPort (s_srv s)) (m_nextConnId (s_srv s)) in
  id ← liftO (int_add (m_nextConnId (s_srv s)) 1);
  modify (on_srv (set_nextConnId id)) ;;
  let connName := m_name (s_srv s) ++ buf in
  let localAddr := default (mkInet 0 0 0) local in
  modify (on_heap <[p := mkConnObj ioLoop connName sockfd localAddr peerAddr
                          (m_connectionCallback (s_srv s)) kConnecting]>) ;;
  modify (on_srv (set_connections <[connName := p]>)) ;;
  runInLoop true cur ioLoop (TEstablished p).

(** The close callback of a connection, called from its loop. *)
Definition removeConnection (cur c : Z) : M Srv unit :=
  s ← getS; runInLoop true cur (m_loop (s_srv s)) (TRemove c).

(** [handleClose] of a connection, as far as the server is concerned. *)
Definition conn_handleClose (c : Z) : M Srv unit :=
  o ← conn_of c;
  setConnState c kDisconnected ;;
  call_connectionCallback o ;;
  removeConnection (o_loop o) c.

Definition TcpServer_destroy (cur : Z) : M Srv unit :=
  s ← getS;
  forM (map_to_list (m_connections (s_srv s))) (fun kc =>
    o ← conn_of kc.2; runInLoop true cur (o_loop o) (TDestroyed kc.2)).

(** The next task of a loop, and the others. *)
Fixpoint pop_task (loop : Z) (l : list (Z * task)) : option (task * list (Z * task)) :=
  match l with
  | [] => None
  | (k, t) :: l' =>
      if decide (k = loop) then Some (t, l')
      else match pop_task loop l' with Some (u, r) => Some (u, (k, t) :: r) | None => None end
  end.

Definition run_next (loop : Z) : M Srv unit :=
  s ← getS;
  match pop_task loop (s_pending s) with
  | Some (t, l) => modify (on_tasks (fun _ => l)) ;; run_task true loop t
  | None => mret tt
  end.

(** ** The server as a step system *)

Inductive srv_step : Srv -> Srv -> Prop :=
  | step_accept p sockfd local peer s s' :
      s_heap s !! p = None ->
      newConnection (m_loop (s_srv s)) p sockfd local peer s = Ok (tt, s') -> srv_step s s'
  | step_close c o s s' :
      s_heap s !! c = Some o -> o_state o = kConnected ->
      conn_handleClose c s = Ok (tt, s') -> srv_step s s'
  | step_run loop s s' : run_next loop s = Ok (tt, s') -> srv_step s s'.

(** A server built by the constructor, configured (with or without a connection
    callback, [cc]) and started from its own loop. *)
Inductive srv_init : Srv -> Prop :=
  | init_server fd loop addr name option n startLoop cb cc srv s :
      0 <= n < 2 ^ 31 -> 0 <= sin_port addr < 2 ^ 16 ->
      TcpServer_new fd true loop addr name option = Ok srv ->
      start true loop startLoop cb (mkSrv (setConnectionCallback cc (server_setThreadNum n srv)) ∅ [] []) =
        Ok (tt, s) ->
      srv_init s.

Definition srv_reach : Srv -> Prop := reachable srv_init srv_step.

Definition task_conn (t : task) : option Z :=
  match t with TListen => None | TEstablished c | TRemove c | TDestroyed c => Some c end.

(** The entries about one connection. *)
Definition about (c : Z) (l : list (Z * task)) : list (Z * task) :=
  filter (fun x => task_conn x.2 = Some c) l.

(** The tasks of a connection, in order. *)
Definition life (base loop c : Z) : list (Z * task) :=
  [(loop, TEstablished c); (base, TRemove c); (loop, TDestroyed c)].

(** Tasks run, tasks waiting, entry of the server's map, state. *)
Inductive phase (base l c : Z) : list (Z * task) -> list (Z * task) -> option Z -> StateE -> Prop :=
  | ph_new : phase base l c [] [(l, TEstablished c)] (Some c) kConnecting
  | ph_up : phase base l c [(l, TEstablished c)] [] (Some c) kConnected
  | ph_closing : phase base l c [(l, TEstablished c)] [(base, TRemove c)] (Some c) kDisconnected
  | ph_removed : phase base l c [(l, TEstablished c); (base, TRemove c)] [(l, TDestroyed c)]
      None kDisconnected
  | ph_gone : phase base l c (life base l c) [] None kDisconnected.

Definition conn_name (s : TcpServer) (id : Z) : bytes := m_name s ++ conn_suffix (m_ipPort s) id.

Record srv_inv (s : Srv) : Prop := {
  si_pool : pool_ok (m_threadPool (s_srv s));
  si_id : 1 <= m_nextConnId (s_srv s) < 2 ^ 31;
  si_ip : (length (m_ipPort (s_srv s)) <= 21)%nat;
  si_names : forall c o, s_heap s !! c = Some o ->
    exists id, 1 <= id < m_nextConnId (s_srv s) /\ o_name o = conn_name (s_srv s) id;
  si_distinct : forall c c' o o', s_heap s !! c = Some o -> s_heap s !! c' = Some o' ->
    o_name o = o_name o' -> c = c';
  si_phase : forall c o, s_heap s !! c = Some o ->
    phase (m_loop (s_srv s)) (o_loop o) c (about c (s_trace s)) (about c (s_pending s))
      (m_connections (s_srv s) !! o_name o) (o_state o);
  si_callback : forall c o, s_heap s !! c = Some o -> o_callback o = m_connectionCallback (s_srv s);
  si_none : forall c, s_heap s !! c = None -> about c (s_trace s) = [] /\ about c (s_pending s) = [];
}.

(** *** Texts *)

Lemma octet_range a i : 0 <= octet a i < 256.
Proof.
  unfold octet. change 255 with (Z.ones 8). rewrite Z.land_ones by lia.
  apply Z.mod_pos_bound. lia.
Qed.

Lemma number_text_width (w : nat) n :
  (0 < w)%nat -> 0 <= n < 10 ^ Z.of_nat w -> (length (number_text n) <= w)%nat.
Proof.
  intros Hw Hn. pose proof (number_text_digits w n Hw Hn) as E.
  apply (f_equal length) in E. rewrite length_app, dec_digits_length in E. lia.
Qed.

Lemma htons_bytes x :
  0 <= x < 2 ^ 16 -> htons x = (x mod 256) * 256 + x / 256.
Proof.
  intros Hx. unfold htons. change 255 with (Z.ones 8). rewrite Z.land_ones by lia.
  rewrite Z.shiftl_mul_pow2, Z.shiftr_div_pow2 by lia. change (2 ^ 8) with 256.
  rewrite <- Z.add_lor_land.
  assert (E : Z.land (x mod 256 * 256) (x / 256) = 0).
  { apply Z.bits_inj'. intros i Hi. rewrite Z.land_spec, Z.bits_0.
    change 256 with (2 ^ 8) at 2. destruct (decide (i < 8)).
    - rewrite Z.mul_pow2_bits_low by lia. done.
    - rewrite (Z.bits_above_log2 (x / 256)); [by rewrite andb_false_r| |].
      + apply Z.div_pos; lia.
      + destruct (decide (x / 256 = 0)) as [->|Hnz]; [simpl; lia|].
        assert (0 < x / 256 < 2 ^ 8).
        { split; [pose proof (Z.div_pos x 256); lia|]. apply Z.div_lt_upper_bound; lia. }
        assert (Z.log2 (x / 256) < 8) by (apply Z.log2_lt_pow2; lia). lia. }
  rewrite E. lia.
Qed.

Lemma htons_range x : 0 <= x < 2 ^ 16 -> 0 <= htons x < 2 ^ 16.
Proof.
  intros Hx. rewrite htons_bytes by done.
  pose proof (Z.mod_pos_bound x 256). pose proof (Z.div_pos x 256).
  assert (x / 256 < 256) by (apply Z.div_lt_upper_bound; lia). lia.
Qed.

(** Swapping twice gives the port back. *)
Lemma ntohs_htons x : 0 <= x < 2 ^ 16 -> ntohs (htons x) = x.
Proof.
  intros Hx. unfold ntohs. rewrite (htons_bytes (htons x)) by (by apply htons_range).
  rewrite htons_bytes by done.
  assert (x / 256 < 256) by (apply Z.div_lt_upper_bound; lia).
  pose proof (Z.div_pos x 256). pose proof (Z.mod_pos_bound x 256).
  rewrite Z.div_add_l, (Z.div_small (x / 256)) by lia.
  rewrite (Z.add_comm (x mod 256 * 256)), Z.mod_add, (Z.mod_small (x / 256)) by lia.
  pose proof (Z.div_mod x 256). lia.
Qed.

Lemma toIpPort_length a : 0 <= sin_port a < 2 ^ 16 -> (length (toIpPort a) <= 21)%nat.
Proof.
  intros Hp. unfold toIpPort, inet_ntop. rewrite !length_app.
  pose proof (htons_range _ Hp).
  pose proof (fun i => number_text_width 3 (octet (s_addr a) i) ltac:(lia)
                ltac:(pose proof (octet_range (s_addr a) i); simpl; lia)) as Ho.
  pose proof (number_text_width 5 (ntohs (sin_port a)) ltac:(lia) ltac:(unfold ntohs; simpl; lia)).
  pose proof (Ho 0). pose proof (Ho 1). pose proof (Ho 2). pose proof (Ho 3). change (length (str ".")) with 1%nat. change (length (str ":")) with 1%nat. lia.
Qed.

Lemma conn_name_inj s i j :
  (length (m_ipPort s) <= 21)%nat -> 0 <= i < 2 ^ 31 -> 0 <= j < 2 ^ 31 ->
  conn_name s i = conn_name s j -> i = j.
Proof.
  intros Hip Hi Hj H. apply app_inv_head in H. unfold conn_suffix, snprintf_cut in H.
  pose proof (number_text_width 10 i ltac:(lia) ltac:(simpl; lia)).
  pose proof (number_text_width 10 j ltac:(lia) ltac:(simpl; lia)).
  rewrite !take_ge in H by (rewrite !length_app; change (length (str "-")) with 1%nat; change (length (str "#")) with 1%nat; lia).
  apply app_inv_head in H. apply app_inv_head in H. apply app_inv_head in H.
  by apply number_text_inj.
Qed.

(** *** Lists of tasks *)

#[local] Arguments about : simpl never.

Lemma about_app c l l' : about c (l ++ l') = about c l ++ about c l'.
Proof. apply filter_app. Qed.

Lemma about_one c l t : about c [(l, t)] = if decide (task_conn t = Some c) then [(l, t)] else [].
Proof. unfold about. rewrite filter_cons, filter_nil. done. Qed.

Lemma pop_task_split loop l t r :
  pop_task loop l = Some (t, r) -> exists pre post, l = pre ++ (loop, t) :: post /\ r = pre ++ post.
Proof.
  revert r. induction l as [|[k u] l IH]; intros r; simpl; [done|]. case_decide as Hk.
  - intros [= -> ->]. exists [], r. by subst.
  - destruct (pop_task loop l) as [[v r']|]; [|done]. intros [= -> <-].
    destruct (IH r' eq_refl) as (pre & post & -> & ->). by exists ((k, u) :: pre), post.
Qed.

(** What is left for a connection when a loop takes its next task. *)
Lemma pop_task_about loop l t r c :
  pop_task loop l = Some (t, r) -> (length (about c l) <= 1)%nat ->
  if decide (task_conn t = Some c) then about c l = [(loop, t)] /\ about c r = []
  else about c r = about c l.
Proof.
  intros (pre & post & -> & ->)%pop_task_split.
  change ((loop, t) :: post) with ([(loop, t)] ++ post). rewrite !about_app, about_one.
  case_decide; [|done]. rewrite !length_app. simpl. intros Hlen.
  destruct (about c pre) as [|], (about c post) as [|]; simpl in *; try lia. done.
Qed.

Lemma phase_short base l c tr pe m st : phase base l c tr pe m st -> (length pe <= 1)%nat.
Proof. destruct 1; simpl; lia. Qed.

(** *** What a step changes *)

(** Everything about the connections other than [c] is as before. *)
Definition others_same (c : Z) (s s' : Srv) : Prop :=
  m_loop (s_srv s') = m_loop (s_srv s) /\
  (forall c', c' <> c -> s_heap s' !! c' = s_heap s !! c' /\
     about c' (s_trace s') = about c' (s_trace s) /\ about c' (s_pending s') = about c' (s_pending s)).

Lemma others_phase c s s' :
  others_same c s s' ->
  (forall c' o', c' <> c -> s_heap s !! c' = Some o' ->
     m_connections (s_srv s') !! o_name o' = m_connections (s_srv s) !! o_name o') ->
  srv_inv s ->
  (forall o, s_heap s' !! c = Some o ->
     phase (m_loop (s_srv s)) (o_loop o) c (about c (s_trace s')) (about c (s_pending s'))
       (m_connections (s_srv s') !! o_name o) (o_state o)) ->
  (s_heap s' !! c = None -> about c (s_trace s') = [] /\ about c (s_pending s') = []) ->
  (forall c' o, s_heap s' !! c' = Some o ->
     phase (m_loop (s_srv s')) (o_loop o) c' (about c' (s_trace s')) (about c' (s_pending s'))
       (m_connections (s_srv s') !! o_name o) (o_state o)) /\
  (forall c', s_heap s' !! c' = None -> about c' (s_trace s') = [] /\ about c' (s_pending s') = []).
Proof.
  intros [Hl Ho] Hmap Hinv Hc Hn. rewrite Hl. split; intros c'.
  - intros o Hco. destruct (decide (c' = c)) as [->|Hne]; [by apply Hc|].
    destruct (Ho c' Hne) as (Hh & Ht & Hp). rewrite Hh in Hco. rewrite Ht, Hp, (Hmap _ _ Hne Hco).
    by apply (si_phase _ Hinv).
  - destruct (decide (c' = c)) as [->|Hne]; [exact Hn|]. intros Hco.
    destruct (Ho c' Hne) as (Hh & Ht & Hp). rewrite Hh in Hco. rewrite Ht, Hp. by apply (si_none _ Hinv).
Qed.

(** A step that keeps the server's numbers and changes one object's state only. *)
Definition same_numbers (s s' : Srv) : Prop :=
  m_threadPool (s_srv s') = m_threadPool (s_srv s) /\ m_nextConnId (s_srv s') = m_nextConnId (s_srv s) /\
  m_ipPort (s_srv s') = m_ipPort (s_srv s) /\ m_name (s_srv s') = m_name (s_srv s) /\
  m_connectionCallback (s_srv s') = m_connectionCallback (s_srv s) /\
  (forall c o', s_heap s' !! c = Some o' ->
     exists o, s_heap s !! c = Some o /\ o_name o' = o_name o /\ o_callback o' = o_callback o).

Lemma same_numbers_inv s s' :
  same_numbers s s' -> srv_inv s ->
  (forall c o, s_heap s' !! c = Some o ->
     phase (m_loop (s_srv s')) (o_loop o) c (about c (s_trace s')) (about c (s_pending s'))
       (m_connections (s_srv s') !! o_name o) (o_state o)) /\
  (forall c, s_heap s' !! c = None -> about c (s_trace s') = [] /\ about c (s_pending s') = []) ->
  srv_inv s'.
Proof.
  intros (Hp & Hi & Hip & Hnm & Hcb & Hh) [H1 H2 H3 H4 H5 _ H8 _] [H6 H7].
  split; [| | | | |exact H6| |exact H7].
  - by rewrite Hp.
  - by rewrite Hi.
  - by rewrite Hip.
  - intros c o Hc. destruct (Hh c o Hc) as (o0 & Hc0 & -> & _). destruct (H4 _ _ Hc0) as (id & ? & ->).
    rewrite Hi. exists id. split; [done|]. unfold conn_name. by rewrite Hip, Hnm.
  - intros c c' o o' Hc Hc' E. destruct (Hh _ _ Hc) as (o0 & Hc0 & E0 & _), (Hh _ _ Hc') as (o1 & Hc1 & E1 & _).
    apply (H5 c c' o0 o1); congruence.
  - intros c o Hc. destruct (Hh c o Hc) as (o0 & Hc0 & _ & ->). rewrite Hcb. by apply (H8 c).
Qed.

(** *** The operations, on states of the invariant *)

Lemma conn_of_ok c o s : s_heap s !! c = Some o -> conn_of c s = Ok (o, s).
Proof. intros H. unfold conn_of. unfold mbind, M_bind, getS. by rewrite H. Qed.

Lemma setConnState_ok c o st s :
  s_heap s !! c = Some o ->
  setConnState c st s = Ok (tt, on_heap <[c := set_conn_state st o]> s).
Proof. intros H. unfold setConnState. unfold mbind at 1, M_bind at 1. by rewrite (conn_of_ok _ _ _ H). Qed.

Lemma removeConnectionInLoop_ok c o s :
  s_heap s !! c = Some o ->
  removeConnectionInLoop c s =
    Ok (tt, on_tasks (fun l => l ++ [(o_loop o, TDestroyed c)])
              (on_srv (set_connections (delete (o_name o))) s)).
Proof.
  intros H. unfold removeConnectionInLoop. unfold mbind at 1, M_bind at 1. by rewrite (conn_of_ok _ _ _ H).
Qed.

(** A task that calls the connection callback of an object that has none. *)
Definition task_throws (t : task) (s : Srv) : bool :=
  match t with
  | TEstablished c => match s_heap s !! c with Some o => negb (o_callback o) | None => false end
  | TDestroyed c =>
      match s_heap s !! c with
      | Some o => bool_decide (o_state o = kConnected) && negb (o_callback o)
      | None => false
      end
  | _ => false
  end.

(** The effect of one task, when its connection exists. *)
Definition task_effect (loop : Z) (t : task) (s : Srv) : Srv :=
  let s := on_ran (fun l => l ++ [(loop, t)]) s in
  match t with
  | TListen =>
      match Acceptor_listen true (m_acceptor (s_srv s)) with
      | Ok a => on_srv (set_acceptor a) s | _ => s end
  | TEstablished c =>
      match s_heap s !! c with Some o => on_heap <[c := set_conn_state kConnected o]> s | None => s end
  | TRemove c =>
      match s_heap s !! c with
      | Some o => on_tasks (fun l => l ++ [(o_loop o, TDestroyed c)])
                    (on_srv (set_connections (delete (o_name o))) s)
      | None => s end
  | TDestroyed c =>
      match s_heap s !! c with
      | Some o => if decide (o_state o = kConnected)
                  then on_heap <[c := set_conn_state kDisconnected o]> s else s
      | None => s end
  end.

Lemma set_and_call c o st s :
  s_heap s !! c = Some o ->
  (setConnState c st ;; call_connectionCallback o) s =
    if o_callback o then Ok (tt, on_heap <[c := set_conn_state st o]> s) else Throw ExnBadFunctionCall.
Proof.
  intros Ho. unfold mbind, M_bind. rewrite (setConnState_ok _ _ _ _ Ho).
  unfold call_connectionCallback. by destruct (o_callback o).
Qed.

Lemma run_task_ok loop t s :
  (forall c, task_conn t = Some c -> is_Some (s_heap s !! c)) ->
  run_task true loop t s =
    if task_throws t s then Throw ExnBadFunctionCall else Ok (tt, task_effect loop t s).
Proof.
  intros Hc. unfold run_task, task_effect. cbv zeta.
  set (s1 := on_ran (fun l => l ++ [(loop, t)]) s).
  assert (Hb : forall f : M Srv unit, (modify (on_ran (fun l => l ++ [(loop, t)])) ;; f) s = f s1) by done.
  rewrite Hb. destruct t as [|c|c|c]; unfold task_throws.
  - done.
  - destruct (Hc c eq_refl) as [o Ho]. change (s_heap s1) with (s_heap s). rewrite Ho.
    unfold mbind at 1, M_bind at 1. rewrite (conn_of_ok c o s1 Ho), (set_and_call c o _ s1 Ho).
    by destruct (o_callback o).
  - destruct (Hc c eq_refl) as [o Ho]. change (s_heap s1) with (s_heap s). rewrite Ho.
    by apply (removeConnectionInLoop_ok c o s1).
  - destruct (Hc c eq_refl) as [o Ho]. change (s_heap s1) with (s_heap s). rewrite Ho.
    unfold mbind at 1, M_bind at 1. rewrite (conn_of_ok c o s1 Ho). case_decide as Hd.
    + rewrite bool_decide_eq_true_2, (set_and_call c o _ s1 Ho) by done. by destruct (o_callback o).
    + by rewrite bool_decide_eq_false_2 by done.
Qed.

(** Only [t], posted to [loop], has left the queue. *)
Definition taken_out (loop : Z) (t : task) (s : Srv) (r : list (Z * task)) : Prop :=
  forall c, if decide (task_conn t = Some c)
            then about c (s_pending s) = [(loop, t)] /\ about c r = []
            else about c r = about c (s_pending s).

Lemma taken_conn loop t s r c :
  srv_inv s -> taken_out loop t s r -> task_conn t = Some c ->
  exists o, s_heap s !! c = Some o /\ about c r = [] /\
    phase (m_loop (s_srv s)) (o_loop o) c (about c (s_trace s)) [(loop, t)]
      (m_connections (s_srv s) !! o_name o) (o_state o).
Proof.
  intros Hinv Ht Hc. specialize (Ht c). rewrite decide_True in Ht by done. destruct Ht as [Hp Hr].
  destruct (s_heap s !! c) as [o|] eqn:Ho.
  - exists o. split_and!; [done|done|]. rewrite <- Hp. by apply (si_phase _ Hinv).
  - destruct (si_none _ Hinv c Ho) as [_ E]. by rewrite Hp in E.
Qed.

Lemma taken_other loop t s r c' :
  taken_out loop t s r -> task_conn t <> Some c' ->
  about c' r = about c' (s_pending s) /\ forall l, about c' (l ++ [(loop, t)]) = about c' l.
Proof.
  intros Ht Hc. specialize (Ht c'). rewrite decide_False in Ht by done. split; [done|].
  intros l. by rewrite about_app, about_one, decide_False, app_nil_r.
Qed.

Lemma heap_names (h : gmap Z ConnObj) c o st c' o' :
  h !! c = Some o -> <[c := set_conn_state st o]> h !! c' = Some o' ->
  exists o0, h !! c' = Some o0 /\ o_name o' = o_name o0 /\ o_callback o' = o_callback o0.
Proof.
  intros Hc H. destruct (decide (c' = c)) as [->|Hne].
  - rewrite lookup_insert_eq in H. injection H as <-. by exists o.
  - rewrite lookup_insert_ne in H by done. by exists o'.
Qed.

Lemma deliver_inv loop t s r :
  srv_inv s -> taken_out loop t s r -> srv_inv (task_effect loop t (on_tasks (fun _ => r) s)).
Proof.
  intros Hinv Ht. destruct t as [|c|c|c].
  - apply (same_numbers_inv s); [|done|].
    + split_and!; try done. intros c o Hc. by exists o.
    + assert (Hs : forall c, about c (s_trace s ++ [(loop, TListen)]) = about c (s_trace s) /\
                             about c r = about c (s_pending s)).
      { intros c. by destruct (taken_other loop TListen s r c Ht ltac:(done)). }
      set (s' := task_effect _ _ _).
      assert (E : s_trace s' = s_trace s ++ [(loop, TListen)] /\ s_pending s' = r) by done.
      destruct E as [-> ->]. split; intros c; destruct (Hs c) as [-> ->].
      * apply (si_phase _ Hinv).
      * apply (si_none _ Hinv).
  - destruct (taken_conn loop _ s r c Hinv Ht eq_refl) as (o & Ho & Hr & Hph).
    inversion Hph as [Htr Hl Hm Hst| | | |]; subst. cbn [task_effect]. change (s_heap (on_ran _ _)) with (s_heap s). rewrite Ho.
    apply (same_numbers_inv s); [|done|].
    + split_and!; try done. intros c' o' Hc'. destruct (heap_names _ _ _ _ _ _ Ho Hc') as (?&?&?&?); eauto.
    + apply (others_phase c s); [|done|done|..].
      * split; [done|]. intros c' Hne. cbn. rewrite lookup_insert_ne by done. split; [done|].
        destruct (taken_other _ _ s r c' Ht ltac:(simpl; congruence)) as [E1 E2]. by rewrite E2.
      * cbn. rewrite lookup_insert_eq. intros o' [= <-]. rewrite about_app, about_one, <- Htr, Hr.
        cbn [task_conn]. rewrite decide_True by done. cbn [o_name set_conn_state o_loop o_state app].
        rewrite <- Hm. constructor.
      * cbn. by rewrite lookup_insert_eq.
  - destruct (taken_conn loop _ s r c Hinv Ht eq_refl) as (o & Ho & Hr & Hph).
    inversion Hph as [| |Htr Hl Hm Hst| |]; subst. cbn [task_effect]. change (s_heap (on_ran _ _)) with (s_heap s). rewrite Ho.
    apply (same_numbers_inv s); [|done|].
    + split_and!; try done. intros c' o' Hc'. by exists o'.
    + apply (others_phase c s); [|..].
      * split; [done|]. intros c' Hne. cbn. split; [done|].
        destruct (taken_other _ _ s r c' Ht ltac:(simpl; congruence)) as [E1 E2]. rewrite E2. split; [done|].
        rewrite about_app, about_one. cbn [task_conn]. rewrite decide_False by congruence. by rewrite app_nil_r.
      * intros c' o' Hne Hc'. cbn. rewrite lookup_delete_ne; [done|]. intros E. apply Hne.
        symmetry. by apply (si_distinct _ Hinv c c' o o').
      * done.
      * cbn. rewrite Ho. intros o' [= <-]. rewrite !about_app, !about_one, <- Htr, Hr, lookup_delete_eq.
        cbn [task_conn]. rewrite !decide_True by done. rewrite <- Hst. constructor.
      * cbn. by rewrite Ho.
  - destruct (taken_conn loop _ s r c Hinv Ht eq_refl) as (o & Ho & Hr & Hph).
    inversion Hph as [| | |Htr Hl Hm Hst|]; subst. cbn [task_effect]. change (s_heap (on_ran _ _)) with (s_heap s). rewrite Ho.
    rewrite decide_False by congruence.
    apply (same_numbers_inv s); [|done|].
    + split_and!; try done. intros c' o' Hc'. by exists o'.
    + apply (others_phase c s); [|done|done|..].
      * split; [done|]. intros c' Hne. cbn. split; [done|].
        destruct (taken_other _ _ s r c' Ht ltac:(simpl; congruence)) as [E1 E2]. by rewrite E2.
      * cbn. rewrite Ho. intros o' [= <-]. rewrite !about_app, !about_one, <- Htr, Hr, <- Hm.
        cbn [task_conn]. rewrite !decide_True by done. rewrite <- Hst. constructor.
      * cbn. by rewrite Ho.
Qed.

(** *** Accepting *)

Definition accepted (l : Z) (pool : Pool) (p sockfd : Z) (local : option InetAddress) (peer : InetAddress)
    (s : Srv) : Srv :=
  let name := conn_name (s_srv s) (m_nextConnId (s_srv s)) in
  mkSrv (set_connections <[name := p]>
           (set_nextConnId (m_nextConnId (s_srv s) + 1) (set_pool pool (s_srv s))))
    (<[p := mkConnObj l name sockfd (default (mkInet 0 0 0) local) peer
             (m_connectionCallback (s_srv s)) kConnecting]> (s_heap s))
    (s_pending s ++ [(l, TEstablished p)]) (s_trace s).

(** Running at once is posting and taking the task out again. *)
Definition run_or_post (cur loop : Z) (t : task) (before posted : Srv) : Srv :=
  if decide (cur = loop) then task_effect loop t (on_tasks (fun _ => s_pending before) posted)
  else posted.

Lemma newConnection_ok cur p sockfd local peer s :
  pool_ok (m_threadPool (s_srv s)) -> 0 <= m_nextConnId (s_srv s) -> m_nextConnId (s_srv s) + 1 < 2 ^ 31 ->
  exists l pool, getNextLoop (m_threadPool (s_srv s)) = Ok (l, pool) /\ pool_ok pool /\
    newConnection cur p sockfd local peer s =
      if decide (cur = l /\ m_connectionCallback (s_srv s) = false) then Throw ExnBadFunctionCall
      else Ok (tt, run_or_post cur l (TEstablished p) s (accepted l pool p sockfd local peer s)).
Proof.
  intros Hpool H0 Hid. destruct (getNextLoop_spec _ Hpool) as (l & pool & Hg & Hp' & _).
  exists l, pool. split_and!; [done..|]. unfold newConnection.
  unfold mbind at 1, M_bind at 1. unfold getS.
  unfold mbind at 1, M_bind at 1. unfold liftO at 1. rewrite Hg.
  unfold mbind at 1, M_bind at 1. unfold modify at 1.
  unfold mbind at 1, M_bind at 1. unfold liftO at 1, int_add. rewrite schk_ok by (unfold in_s; lia).
  unfold mbind, M_bind, modify at 1 2 3. unfold runInLoop, run_or_post.
  case_decide as Hc; [|by rewrite decide_False by (by intros [? _])].
  rewrite run_task_ok; [|intros c [= <-]; cbn; rewrite lookup_insert_eq; by eexists].
  unfold task_throws. cbn [s_heap on_srv on_heap]. rewrite lookup_insert_eq. cbn [o_callback].
  unfold accepted. destruct (m_connectionCallback (s_srv s)).
  - by rewrite decide_False by (by intros [_ ?]).
  - by rewrite decide_True by done.
Qed.

Lemma accepted_inv l pool p sockfd local peer s :
  srv_inv s -> s_heap s !! p = None -> pool_ok pool -> m_nextConnId (s_srv s) + 1 < 2 ^ 31 ->
  srv_inv (accepted l pool p sockfd local peer s) /\
  taken_out l (TEstablished p) (accepted l pool p sockfd local peer s) (s_pending s).
Proof.
  intros Hinv Hp Hpool Hid. pose proof Hinv as [H1 H2 H3 H4 H5 H6 H8 H7].
  destruct (H7 p Hp) as [Htr Hpe].
  assert (Hfresh : forall c o, s_heap s !! c = Some o ->
    o_name o <> conn_name (s_srv s) (m_nextConnId (s_srv s))).
  { intros c o Hc E. destruct (H4 _ _ Hc) as (id & Hlt & E'). rewrite E' in E.
    apply conn_name_inj in E; [lia|done|lia|lia]. }
  split.
  - assert (Hph := others_phase p s (accepted l pool p sockfd local peer s)).
    destruct Hph as [Hph Hnone]; [| |done|..].
    + split; [done|]. intros c Hne. cbn. rewrite lookup_insert_ne by done. split_and!; [done|done|].
      rewrite about_app, about_one. cbn [task_conn]. rewrite decide_False by congruence.
      by rewrite app_nil_r.
    + intros c o Hne Hc. cbn. rewrite lookup_insert_ne; [done|]. intros E. by destruct (Hfresh c o Hc).
    + cbn. rewrite lookup_insert_eq. intros o [= <-]. cbn. rewrite Htr, about_app, Hpe, about_one.
      cbn [task_conn]. rewrite decide_True by done. rewrite lookup_insert_eq. constructor.
    + cbn. by rewrite lookup_insert_eq.
    + split; [done|cbn; lia|done| | |exact Hph| |exact Hnone].
      * intros c o. cbn. destruct (decide (c = p)) as [->|Hne].
        -- rewrite lookup_insert_eq. intros [= <-]. exists (m_nextConnId (s_srv s)). cbn. split; [lia|done].
        -- rewrite lookup_insert_ne by done. intros Hc. destruct (H4 _ _ Hc) as (id & ? & ->).
           exists id. split; [lia|done].
      * intros c c' o o'. cbn. destruct (decide (c = p)) as [->|Hne], (decide (c' = p)) as [->|Hne'];
          rewrite ?lookup_insert_eq, ?lookup_insert_ne by done.
        -- done.
        -- intros [= <-] Hc' E. cbn in E. by destruct (Hfresh _ _ Hc').
        -- intros Hc [= <-] E. cbn in E. by destruct (Hfresh _ _ Hc).
        -- apply H5.
      * intros c o. cbn. destruct (decide (c = p)) as [->|Hne].
        -- rewrite lookup_insert_eq. by intros [= <-].
        -- rewrite lookup_insert_ne by done. apply H8.
  - intros c. cbn. rewrite about_app, about_one. cbn [task_conn]. case_decide as E.
    + injection E as ->. by rewrite Hpe.
    + by rewrite app_nil_r.
Qed.

Lemma run_or_post_inv cur loop t s posted :
  srv_inv posted -> taken_out loop t posted (s_pending s) -> srv_inv (run_or_post cur loop t s posted).
Proof. intros. unfold run_or_post. case_decide; [by apply deliver_inv|done]. Qed.

(** *** Closing *)

Definition closed (c : Z) (o : ConnObj) (s : Srv) : Srv :=
  mkSrv (s_srv s) (<[c := set_conn_state kDisconnected o]> (s_heap s))
    (s_pending s ++ [(m_loop (s_srv s), TRemove c)]) (s_trace s).

Lemma conn_handleClose_ok c o s :
  s_heap s !! c = Some o ->
  conn_handleClose c s =
    if o_callback o then
    Ok (tt, run_or_post (o_loop o) (m_loop (s_srv s)) (TRemove c) s (closed c o s)) else Throw ExnBadFunctionCall.
Proof.
  intros Ho. unfold conn_handleClose. unfold mbind at 1, M_bind at 1. rewrite (conn_of_ok _ _ _ Ho).
  unfold mbind at 1, M_bind at 1. rewrite (setConnState_ok _ _ _ _ Ho).
  unfold mbind at 1, M_bind at 1, call_connectionCallback at 1. destruct (o_callback o); [|done].
  unfold mret, M_ret, removeConnection, mbind, M_bind, getS. unfold runInLoop, run_or_post. cbn [s_srv on_heap].
  case_decide; [|done]. rewrite run_task_ok; [done|]. intros ? [= <-]. cbn. rewrite lookup_insert_eq. by eexists.
Qed.

Lemma closed_inv c o s :
  srv_inv s -> s_heap s !! c = Some o -> o_state o = kConnected ->
  srv_inv (closed c o s) /\ taken_out (m_loop (s_srv s)) (TRemove c) (closed c o s) (s_pending s).
Proof.
  intros Hinv Ho Hst. pose proof (si_phase _ Hinv _ _ Ho) as Hph.
  inversion Hph as [|Htr Hpe Hm Hs| | |]; try congruence. split.
  - apply (same_numbers_inv s); [|done|].
    + split_and!; try done. intros c' o' Hc'. destruct (heap_names _ _ _ _ _ _ Ho Hc') as (?&?&?&?); eauto.
    + apply (others_phase c s); [|done|done|..].
      * split; [done|]. intros c' Hne. cbn. rewrite lookup_insert_ne by done. split_and!; [done|done|].
        rewrite about_app, about_one. cbn [task_conn]. rewrite decide_False by congruence. by rewrite app_nil_r.
      * cbn. rewrite lookup_insert_eq. intros o' [= <-]. cbn. rewrite <- Htr, about_app, <- Hpe, about_one.
        cbn [task_conn]. rewrite decide_True by done. rewrite <- Hm. constructor.
      * cbn. by rewrite lookup_insert_eq.
  - intros c'. cbn. rewrite about_app, about_one. cbn [task_conn]. case_decide as E.
    + injection E as <-. by rewrite <- Hpe.
    + by rewrite app_nil_r.
Qed.

(** *** Running a task *)

Lemma run_next_ok loop s :
  srv_inv s ->
  match pop_task loop (s_pending s) with
  | Some (t, r) => taken_out loop t s r /\
      run_next loop s = if task_throws t s then Throw ExnBadFunctionCall
                        else Ok (tt, task_effect loop t (on_tasks (fun _ => r) s))
  | None => run_next loop s = Ok (tt, s)
  end.
Proof.
  intros Hinv. unfold run_next. unfold mbind at 1, M_bind at 1, getS.
  destruct (pop_task loop (s_pending s)) as [[t r]|] eqn:Hpop;
    [|unfold mbind, M_bind; by rewrite Hpop].
  assert (Ht : taken_out loop t s r).
  { intros c. apply (pop_task_about _ _ _ _ c Hpop).
    destruct (s_heap s !! c) as [o|] eqn:Ho.
    - by eapply phase_short, (si_phase _ Hinv).
    - destruct (si_none _ Hinv c Ho) as [_ ->]. simpl. lia. }
  split; [done|]. unfold mbind, M_bind, modify.
  change (task_throws t s) with (task_throws t (on_tasks (fun _ => r) s)). apply run_task_ok. intros c Hc.
  destruct (taken_conn loop t s r c Hinv Ht Hc) as (o & Ho & _). by exists o.
Qed.

Lemma srv_step_inv s s' : srv_inv s -> srv_step s s' -> srv_inv s'.
Proof.
  intros Hinv. destruct 1 as [p fd local peer s s' Hp Hn|c o s s' Ho Hst Hc|loop s s' Hr].
  - destruct (decide (m_nextConnId (s_srv s) + 1 < 2 ^ 31)) as [Hid|Hid].
    + destruct (newConnection_ok (m_loop (s_srv s)) p fd local peer s) as (l & pool & _ & Hpool & E);
        [apply Hinv|pose proof (si_id _ Hinv); lia|done|].
      rewrite E in Hn. case_decide; [done|]. injection Hn as <-.
      destruct (accepted_inv l pool p fd local peer s Hinv Hp Hpool Hid). by apply run_or_post_inv.
    + exfalso. unfold newConnection in Hn. unfold mbind at 1, M_bind at 1, getS in Hn.
      unfold mbind at 1, M_bind at 1, liftO at 1 in Hn.
      destruct (getNextLoop _) as [[l pool]| |]; [|done..].
      unfold mbind at 1, M_bind at 1, modify at 1 in Hn. unfold mbind at 1, M_bind at 1, liftO at 1 in Hn.
      unfold int_add, schk in Hn. rewrite decide_False in Hn by (unfold in_s; lia). done.
  - rewrite (conn_handleClose_ok _ _ _ Ho) in Hc. destruct (o_callback o); [|done]. injection Hc as <-.
    destruct (closed_inv _ _ _ Hinv Ho Hst). by apply run_or_post_inv.
  - pose proof (run_next_ok loop s Hinv) as Hn. rewrite Hr in Hn.
    destruct (pop_task loop (s_pending s)) as [[t r]|].
    + destruct Hn as [Ht Hn]. destruct (task_throws t s); [done|]. injection Hn as ->. by apply deliver_inv.
    + by injection Hn as ->.
Qed.

(** With a callback no task throws. *)
Lemma callback_no_throw t s :
  srv_inv s -> m_connectionCallback (s_srv s) = true -> task_throws t s = false.
Proof.
  intros Hinv Hcb. destruct t as [|c|c|c]; simpl; try done; destruct (s_heap s !! c) as [o|] eqn:Ho; try done;
    rewrite (si_callback _ Hinv _ _ Ho), Hcb; [done|by rewrite andb_false_r].
Qed.

Lemma srv_init_inv s : srv_init s -> srv_inv s.
Proof.
  destruct 1 as [fd loop addr name option n startLoop cb cc srv s Hn Hport Hnew Hstart].
  assert (Hs : m_threadPool (s_srv s) = (Pool_start startLoop cb (setThreadNum n (Pool_new loop name))).1 /\
    m_nextConnId (s_srv s) = 1 /\ m_ipPort (s_srv s) = toIpPort addr /\ s_heap s = ∅ /\
    (forall c, about c (s_trace s) = []) /\ (forall c, about c (s_pending s) = [])).
  { unfold TcpServer_new, checkLoopNotNull in Hnew. case_decide; [done|]. simpl in Hnew.
    unfold Acceptor_new, createNonBlock in Hnew. case_decide; [done|]. simpl in Hnew. injection Hnew as <-.
    unfold start, runInLoop in Hstart. cbv [mbind M_bind getS modify] in Hstart. simpl in Hstart.
    rewrite decide_True in Hstart by done. simpl in Hstart. by injection Hstart as <-. }
  destruct Hs as (Hp & Hi & Hip & Hh & Ht & Hpe).
  assert (Hlen : length (startLoop <$> seqZ 0 n) = Z.to_nat n) by (by rewrite length_fmap, length_seqZ).
  split; rewrite ?Hp, ?Hi, ?Hip, ?Hh.
  - split; cbn; rewrite Hlen; [lia|].
    destruct (decide (n = 0)) as [->|]; [by left|right; lia].
  - lia.
  - by apply toIpPort_length.
  - intros c o. by rewrite lookup_empty.
  - intros c c' o o'. by rewrite lookup_empty.
  - intros c o. by rewrite lookup_empty.
  - intros c o. by rewrite lookup_empty.
  - done.
Qed.

Lemma srv_reach_inv s : srv_reach s -> srv_inv s.
Proof.
  apply reachable_invariant; [exact srv_init_inv|]. intros s1 s2 _. apply srv_step_inv.
Qed.

(** ** Properties *)

(** C2. The life of a connection: in every state the server can reach by
    accepting, closing and running posted tasks in any interleaving of its
    loops, the tasks run for a connection are a prefix of [connectEstablished] in
    its loop, [removeConnectionInLoop] in the base loop, [connectDestroyed] in
    its loop; each at most once and in this order; the server's map holds it
    exactly until the removal has run; names are unique; and a closed
    connection has been destroyed as soon as no task is waiting. *)
Theorem connection_tasks_in_order s c o :
  srv_reach s -> s_heap s !! c = Some o ->
  let base := m_loop (s_srv s) in
  about c (s_trace s) `prefix_of` life base (o_loop o) c /\
  (m_connections (s_srv s) !! o_name o = Some c <-> (base, TRemove c) ∉ s_trace s) /\
  (m_connections (s_srv s) !! o_name o = Some c \/ m_connections (s_srv s) !! o_name o = None) /\
  (forall c' o', s_heap s !! c' = Some o' -> o_name o' = o_name o -> c' = c) /\
  (o_state o = kDisconnected -> s_pending s = [] -> about c (s_trace s) = life base (o_loop o) c).
Proof.
  intros Hr Ho base. pose proof (srv_reach_inv s Hr) as Hinv.
  pose proof (si_phase _ Hinv _ _ Ho) as Hph. fold base in Hph.
  assert (Hin : (base, TRemove c) ∈ s_trace s <-> (base, TRemove c) ∈ about c (s_trace s)).
  { unfold about. rewrite list_elem_of_filter. naive_solver. }
  rewrite Hin. split_and!.
  - inversion Hph; unfold life; [by eexists..|reflexivity].
  - inversion Hph; split; intros E; try done; try (rewrite !not_elem_of_cons; split_and!; (done || apply not_elem_of_nil)).
    + apply not_elem_of_nil.
    + destruct E. right. left.
    + destruct E. right. left.
  - inversion Hph; auto.
  - intros c' o' Hc' E. by apply (si_distinct _ Hinv c' c o' o).
  - intros Hst Hp. rewrite Hp in Hph. change (about c []) with (@nil (Z * task)) in Hph.
    inversion Hph; congruence.
Qed.

(** C11. The server's handlers and their exceptions.  In every reachable state of a server
    whose connection callback holds a function, no handler runs into undefined
    behaviour or an exception of its own: each loop can run its next task, every
    connection can close, and a connection can be accepted at any fresh address as
    long as the [int] counter does not overflow; the overflow of [m_nextConnId] at
    the 2147483647th connection is undefined.  If no connection callback was set,
    which is how the constructor leaves it, the first [connectEstablished] a loop
    runs throws [std::bad_function_call], which nothing catches, and with no
    threads accepting does so at once.  (What the user's function itself does is
    outside the model.) *)
Theorem server_never_undefined s :
  srv_reach s ->
  (if m_connectionCallback (s_srv s) then
     (forall loop, exists s', run_next loop s = Ok (tt, s')) /\
     (forall c o, s_heap s !! c = Some o -> exists s', conn_handleClose c s = Ok (tt, s'))
   else
     forall loop c r, pop_task loop (s_pending s) = Some (TEstablished c, r) ->
        run_next loop s = Throw ExnBadFunctionCall) /\
  (forall cur p fd local peer,
     if decide (m_nextConnId (s_srv s) = 2 ^ 31 - 1)
     then newConnection cur p fd local peer s = UB
     else exists l pool, getNextLoop (m_threadPool (s_srv s)) = Ok (l, pool) /\
       if decide (cur = l /\ m_connectionCallback (s_srv s) = false)
       then newConnection cur p fd local peer s = Throw ExnBadFunctionCall
       else exists s', newConnection cur p fd local peer s = Ok (tt, s')).
Proof.
  intros Hr. pose proof (srv_reach_inv s Hr) as Hinv. split.
  - destruct (m_connectionCallback (s_srv s)) eqn:Hcb; [split|].
    + intros loop. pose proof (run_next_ok loop s Hinv) as Hn.
      destruct (pop_task loop (s_pending s)) as [[t r]|]; [|rewrite Hn; by eexists].
      destruct Hn as [_ ->]. rewrite (callback_no_throw t s Hinv Hcb). by eexists.
    + intros c o Ho. rewrite (conn_handleClose_ok _ _ _ Ho), (si_callback _ Hinv _ _ Ho), Hcb. by eexists.
    + intros loop c r Hp. pose proof (run_next_ok loop s Hinv) as Hn. rewrite Hp in Hn.
      destruct Hn as [Ht ->]. destruct (taken_conn loop _ s r c Hinv Ht eq_refl) as (o & Ho & _).
      unfold task_throws. by rewrite Ho, (si_callback _ Hinv _ _ Ho), Hcb.
  - intros cur p fd local peer. pose proof (si_id _ Hinv) as Hid. case_decide as Hd.
    + destruct (getNextLoop_spec _ (si_pool _ Hinv)) as (l & pool & Hg & _).
      unfold newConnection. unfold mbind at 1, M_bind at 1, getS.
      unfold mbind at 1, M_bind at 1, liftO at 1. rewrite Hg.
      unfold mbind at 1, M_bind at 1, modify at 1. unfold mbind at 1, M_bind at 1, liftO at 1.
      rewrite Hd. done.
    + destruct (newConnection_ok cur p fd local peer s) as (l & pool & Hg & _ & E); [apply Hinv|lia|lia|].
      exists l, pool. split; [done|]. rewrite E. case_decide; [done|]. by eexists.
Qed.

(** The listening socket does not get the options the caller asked for:
    whatever [TcpServer::Option] says, [SO_REUSEPORT] is set, and the option
    decides about [SO_REUSEADDR] instead; and the address it is bound to has
    the port asked for but is the wildcard address, whatever [ip] was given. *)
Theorem listen_socket_options fd loop port ip name option :
  0 <= fd -> loop <> 0 -> 0 <= port < 2 ^ 16 ->
  exists srv a, TcpServer_new fd true loop (InetAddress_new port ip) name option = Ok srv /\
    k_reuseport (a_socket (m_acceptor srv)) = true /\
    k_reuseaddr (a_socket (m_acceptor srv)) = match option with kReusePort => true | kNoReusePort => false end /\
    k_bound (a_socket (m_acceptor srv)) = Some a /\ toPort a = port /\ toIp a = str "0.0.0.0" /\
    a_newConnection (m_acceptor srv) = true /\ a_listenning (m_acceptor srv) = false /\
    m_ipPort srv = str "0.0.0.0:" ++ number_text port.
Proof.
  intros Hfd Hloop Hport. unfold TcpServer_new, checkLoopNotNull. rewrite decide_False by done.
  cbn [mbind outcome_bind]. unfold Acceptor_new, createNonBlock. rewrite decide_False by lia.
  cbn [mbind outcome_bind bindAddress]. eexists _, _. split; [done|].
  cbn. split_and!; try done.
  - by apply ntohs_htons.
  - unfold toIpPort. cbn. by rewrite ntohs_htons.
Qed.

(** *** A run of a server with one thread *)

Definition demo_srv (s : outcome (unit * Srv)) : Srv :=
  match s with
  | Ok (_, s) => s
  | _ => mkSrv (mkTcpServer 0 [] [] (mkAcceptor KSocket_new (Channel_new 0) false false)
                  (Pool_new 0 []) false 0 0 ∅) ∅ [] []
  end.

Definition demo_new : outcome TcpServer :=
  TcpServer_new 3 true 1 (InetAddress_new 8080 (str "127.0.0.1")) (str "http_server") kNoReusePort.

Definition demo_started : Srv :=
  demo_srv (s ← demo_new;
            start true 1 (fun i => 100 + i) false (mkSrv (setConnectionCallback true (server_setThreadNum 1 s)) ∅ [] [])).

Definition demo_accept (p : Z) (s : Srv) : Srv :=
  demo_srv (newConnection 1 p 9 None (InetAddress_new 4000 []) s).

Definition demo_closed : Srv :=
  demo_srv (conn_handleClose 500 (demo_srv (run_next 100 (demo_accept 500 demo_started)))).

Lemma demo_started_reach : srv_reach demo_started.
Proof.
  apply reach_init. eapply (init_server 3 1 _ (str "http_server") kNoReusePort 1 (fun i => 100 + i) false true).
  - lia.
  - instantiate (1 := InetAddress_new 8080 (str "127.0.0.1")). vm_compute. split; [discriminate|reflexivity].
  - reflexivity.
  - reflexivity.
Qed.

Lemma demo_closed_reach : srv_reach demo_closed.
Proof.
  assert (H1 : srv_reach (demo_accept 500 demo_started)).
  { apply (reach_step _ _ demo_started); [exact demo_started_reach|].
    apply (step_accept 500 9 None (InetAddress_new 4000 [])); vm_compute; reflexivity. }
  assert (H2 : srv_reach (demo_srv (run_next 100 (demo_accept 500 demo_started)))).
  { apply (reach_step _ _ (demo_accept 500 demo_started)); [exact H1|].
    apply (step_run 100). vm_compute. reflexivity. }
  apply (reach_step _ _ (demo_srv (run_next 100 (demo_accept 500 demo_started)))); [exact H2|].
  eapply (step_close 500); vm_compute; reflexivity.
Qed.

Lemma connection_tasks_in_order_witness :
  exists o, s_heap demo_closed !! 500 = Some o /\
    about 500 (s_trace demo_closed) = [(100, TEstablished 500)] /\
    about 500 (s_trace demo_closed) `prefix_of` life 1 (o_loop o) 500.
Proof.
  destruct (s_heap demo_closed !! 500) as [o|] eqn:Ho; [|vm_compute in Ho; discriminate].
  exists o. split; [reflexivity|]. split; [vm_compute; reflexivity|].
  exact (proj1 (connection_tasks_in_order demo_closed 500 o demo_closed_reach Ho)).
Defined.

Lemma server_never_undefined_witness :
  exists s', newConnection 1 501 10 None (InetAddress_new 4001 []) demo_closed = Ok (tt, s').
Proof.
  pose proof (server_never_undefined demo_closed demo_closed_reach) as (_ & H).
  specialize (H 1 501 10 None (InetAddress_new 4001 [])).
  rewrite decide_False in H; [|vm_compute; discriminate].
  destruct H as (l & pool & _ & H). rewrite decide_False in H; [exact H|].
  intros [_ E]. vm_compute in E. discriminate.
Defined.

Lemma listen_socket_options_witness :
  exists srv a, TcpServer_new 3 true 1 (InetAddress_new 8080 (str "127.0.0.1")) (str "http_server")
      kNoReusePort = Ok srv /\
    k_reuseport (a_socket (m_acceptor srv)) = true /\ k_bound (a_socket (m_acceptor srv)) = Some a /\
    toIp a = str "0.0.0.0".
Proof.
  destruct (listen_socket_options 3 1 8080 (str "127.0.0.1") (str "http_server") kNoReusePort)
    as (srv & a & H1 & H2 & _ & H3 & _ & H4 & _); [lia|lia|lia|].
  exists srv, a. exact (conj H1 (conj H2 (conj H3 H4))).
Defined.
