(* ===== verification/Kmp.v ===== *)
(** * Prefix functions and string search ([any/kmp.cpp])

    The [int]s of the code are never negative after the conversion of the size, so
    they are natural numbers, and [int_succ] is the increment that overflows behind
    2147483647.  [operator[]] may read the terminating NUL
    of a string but nothing behind it.  The [while] loops take fuel; [None]
    says that the loop is still running. *)

From S2P Require Import Prelude CppInt CText.

Definition char_at (s : bytes) (i : nat) : outcome Ascii.ascii :=
  match s !! i with
  | Some c => Ok c
  | None => if decide (i = length s) then Ok "000"%char else UB
  end.

(** [++] of an [int] that is not negative. *)
Definition int_succ (i : nat) : outcome nat :=
  if decide (Z.of_nat (S i) < 2 ^ 31) then Ok (S i) else UB.

(** [int sz1 = str.size(); vector<int> nxt(sz1)]: a negative number is a huge size. *)
Definition int_vector (size : nat) : outcome (list nat) :=
  let sz1 := s32 (Z.of_nat size) in
  if decide (sz1 < 0) then Throw ExnLengthError else Ok (replicate (Z.to_nat sz1) 0%nat).

Definition int_at (v : list nat) (i : nat) : outcome nat :=
  match v !! i with Some x => Ok x | None => UB end.

Definition int_set (v : list nat) (i x : nat) : outcome (list nat) :=
  if decide (i < length v)%nat then Ok (<[i := x]> v) else UB.

(** [while (s[i] != s[j] && i > 0) i = nxt[i - off];] *)
Fixpoint fall_back (off fuel : nat) (s : bytes) (nxt : list nat) (j i : nat) : outcome (option nat) :=
  match fuel with
  | O => Ok None
  | S fuel =>
      a ← char_at s i; b ← char_at s j;
      if decide (a <> b /\ (0 < i)%nat)
      then i' ← int_at nxt (i - off); fall_back off fuel s nxt j i'
      else Ok (Some i)
  end.

(** ** [checkPrefixSuffix] *)

Definition cps_step (fuel : nat) (str : bytes) (j : nat) (nxt : list nat) (i : nat) :
    outcome (option (list nat * nat)) :=
  r ← fall_back 1 fuel str nxt j i;
  match r with
  | None => Ok None
  | Some i =>
      a ← char_at str i; b ← char_at str j;
      if decide (a = b)
      then i ← int_succ i; nxt ← int_set nxt j i; Ok (Some (nxt, i))
      else nxt ← int_set nxt j 0; Ok (Some (nxt, i))
  end.

(** [count] more values of [j], from [j] on. *)
Fixpoint cps_loop (fuel count : nat) (str : bytes) (j : nat) (nxt : list nat) (i : nat) :
    outcome (option (list nat)) :=
  match count with
  | O => Ok (Some nxt)
  | S count =>
      r ← cps_step fuel str j nxt i;
      match r with
      | Some (nxt, i) => j ← int_succ j; cps_loop fuel count str j nxt i
      | None => Ok None
      end
  end.

Definition checkPrefixSuffix (fuel : nat) (str : bytes) : outcome (option (list nat)) :=
  nxt ← int_vector (length str);
  cps_loop fuel (length str - 1) str 1 nxt 0.

(** ** The class [KMP] *)

Definition kmp_step (fuel : nat) (p : bytes) (j : nat) (nxt : list nat) (i : nat) :
    outcome (option (list nat * nat)) :=
  r ← fall_back 0 fuel p nxt j i;
  match r with
  | None => Ok None
  | Some i =>
      a ← char_at p i; b ← char_at p j;
      if decide (a = b)
      then i ← int_succ i; nxt ← int_set nxt j i; Ok (Some (nxt, i))
      else Ok (Some (nxt, i))
  end.

Fixpoint kmp_loop (fuel count : nat) (p : bytes) (j : nat) (nxt : list nat) (i : nat) :
    outcome (option (list nat)) :=
  match count with
  | O => Ok (Some nxt)
  | S count =>
      r ← kmp_step fuel p j nxt i;
      match r with
      | Some (nxt, i) => j ← int_succ j; kmp_loop fuel count p j nxt i
      | None => Ok None
      end
  end.

(** The constructor: the table of [p], and the line it prints. *)
Definition initNext (fuel : nat) (p : bytes) : outcome (option (list nat)) :=
  let sz1 := s32 (len p) in
  kmp_loop fuel (Z.to_nat (sz1 - 1)) p 1 (replicate (length p) 0%nat) 0.

Definition next_line (nxt : list nat) : bytes :=
  str "next is: " ++ concat ((fun i => number_text (Z.of_nat i) ++ str ", ") <$> nxt) ++ ["010"%char].

Record KMP := mkKMP { k_s : bytes; k_p : bytes; k_nxt : list nat }.

Definition KMP_new (fuel : nat) (s p : bytes) : outcome (option KMP) :=
  nxt ← initNext fuel p;
  Ok (match nxt with Some nxt => Some (mkKMP s p nxt) | None => None end).

(** The loop of [find] from index [i] with [count] characters left; -1 when nothing is found. *)
Fixpoint find_loop (k : KMP) (count i j : nat) : outcome Z :=
  match count with
  | O => Ok (-1)
  | S count =>
      a ← char_at (k_s k) i; b ← char_at (k_p k) j;
      if decide (a = b)
      then
        j ← int_succ j;
        if decide (j = length (k_p k))
        then Ok (s32 (Z.of_nat i - len (k_p k) + 1))
        else i ← int_succ i; find_loop k count i j
      else j ← int_at (k_nxt k) j; i ← int_succ i; find_loop k count i j
  end.

Definition find (k : KMP) (ist : nat) : outcome Z :=
  find_loop k (length (k_s k) - ist) ist 0.

(** The search loop of [main]: the indices it prints. *)
Fixpoint find_all (fuel : nat) (k : KMP) (idx : nat) : outcome (option (list Z)) :=
  match fuel with
  | O => Ok None
  | S fuel =>
      r ← find k idx;
      if decide (r = -1) then Ok (Some [])
      else 
        idx ← schk 32 (r + 1);
        rs ← find_all fuel k (Z.to_nat idx);
        Ok (match rs with Some rs => Some (r :: rs) | None => None end)
  end.

(** ** Borders *)

(** The first [k] of the first [n] characters are also the last [k] of them. *)
Definition border (s : bytes) (n k : nat) : Prop :=
  (k < n)%nat /\ forall i, (i < k)%nat -> s !! i = s !! (n - k + i)%nat.

Definition longest_border (s : bytes) (n k : nat) : Prop :=
  border s n k /\ forall m, border s n m -> (m <= k)%nat.

Lemma border_zero s n : (0 < n)%nat -> border s n 0.
Proof. intros. split; [done|lia]. Qed.

Lemma border_trans s n k m : border s n k -> border s k m -> border s n m.
Proof.
  intros [Hk H1] [Hm H2]. split; [lia|]. intros i Hi. rewrite H2 by done.
  rewrite (H1 (k - m + i)%nat) by lia. f_equal; lia.
Qed.

Lemma border_chain s n k m : border s n k -> border s n m -> (m < k)%nat -> border s k m.
Proof.
  intros [Hk H1] [Hm H2] Hlt. split; [done|]. intros i Hi. rewrite H2 by done.
  rewrite (H1 (k - m + i)%nat) by lia. f_equal; lia.
Qed.

Lemma border_succ s n k :
  border s (S n) (S k) <-> ((k < n)%nat /\ (forall i, (i < k)%nat -> s !! i = s !! (n - k + i)%nat) /\
                            s !! k = s !! n).
Proof.
  unfold border. split.
  - intros [Hk H]. split_and!; [lia| |].
    + intros i Hi. rewrite (H i) by lia. f_equal; lia.
    + rewrite (H k) by lia. f_equal; lia.
  - intros (Hk & H & E). split; [lia|]. intros i Hi. destruct (decide (i = k)) as [->|].
    + rewrite E. f_equal; lia.
    + rewrite (H i) by lia. f_equal; lia.
Qed.

Lemma longest_border_one s : longest_border s 1 0.
Proof. split; [apply border_zero; lia|]. intros m [Hm _]. lia. Qed.

Lemma int_succ_ok i : Z.of_nat (S i) < 2 ^ 31 -> int_succ i = Ok (S i).
Proof. intros. unfold int_succ. by rewrite decide_True. Qed.

Lemma char_at_lookup s i c : s !! i = Some c -> char_at s i = Ok c.
Proof. unfold char_at. by intros ->. Qed.

(** The table is right up to [j]. *)
Definition table (s : bytes) (nxt : list nat) (j : nat) : Prop :=
  length nxt = length s /\ forall t, (t < j)%nat -> exists k, nxt !! t = Some k /\ longest_border s (S t) k.

(** The inner loop finds the longest border that [s[j]] extends, or 0. *)
Lemma fall_back_spec fuel s nxt j i b :
  table s nxt j -> (0 < j)%nat -> s !! j = Some b -> border s j i -> (i < fuel)%nat ->
  (forall m, border s j m -> s !! m = Some b -> (m <= i)%nat) ->
  exists i', fall_back 1 fuel s nxt j i = Ok (Some i') /\ border s j i' /\
    (s !! i' = Some b \/ i' = 0%nat) /\ (forall m, border s j m -> s !! m = Some b -> (m <= i')%nat).
Proof.
  intros [Hlen Ht] Hj Hb. revert i. induction fuel as [|fuel IH]; intros i Hi Hf Hmax; [lia|].
  assert (Hlt : (i < length s)%nat).
  { apply lookup_lt_Some in Hb. destruct Hi. lia. }
  destruct (lookup_lt_is_Some_2 s i Hlt) as [a Ha].
  cbn [fall_back]. rewrite (char_at_lookup _ _ _ Ha), (char_at_lookup _ _ _ Hb). cbn [mbind outcome_bind].
  case_decide as Hd.
  - destruct Hd as [Hab Hpos]. destruct (Ht (i - 1)%nat) as (k & Hk & Hbk & Hmaxk); [destruct Hi; lia|].
    unfold int_at. rewrite Hk. cbn [mbind outcome_bind].
    replace (S (i - 1)) with i in * by lia.
    apply IH.
    + by eapply border_trans.
    + destruct Hbk. lia.
    + intros m Hm Hmb. apply Hmaxk. apply (border_chain s j i m); [done|done|].
      pose proof (Hmax m Hm Hmb). destruct (decide (m = i)) as [->|]; [congruence|lia].
  - exists i. split; [done|]. split; [done|]. split; [|done].
    destruct (decide (a = b)) as [->|]; [by left|]. right. destruct (decide (0 < i)%nat); [tauto|lia].
Qed.

Lemma cps_step_spec fuel s nxt j i :
  table s nxt j -> (0 < j)%nat -> (j < length s)%nat -> longest_border s j i -> (length s <= fuel)%nat ->
  len s < 2 ^ 31 ->
  exists nxt' i', cps_step fuel s j nxt i = Ok (Some (nxt', i')) /\
    table s nxt' (S j) /\ longest_border s (S j) i'.
Proof.
  intros Htab Hj Hlt [Hb Hmax] Hf Hw. destruct (lookup_lt_is_Some_2 s j Hlt) as [b Hsb].
  destruct (fall_back_spec fuel s nxt j i b) as (i' & Hfb & Hb' & Hend & Hmax'); try done.
  { destruct Hb. lia. }
  { intros m Hm _. by apply Hmax. }
  destruct (lookup_lt_is_Some_2 s i') as [a Ha]; [destruct Hb'; lia|].
  assert (Hset : forall k, longest_border s (S j) k ->
    exists nxt', int_set nxt j k = Ok nxt' /\ table s nxt' (S j)).
  { intros k Hk. destruct Htab as [Hl Ht]. unfold int_set. rewrite decide_True by lia.
    eexists. split; [done|]. split; [by rewrite length_insert|]. intros t Ht'.
    destruct (decide (t = j)) as [->|].
    - exists k. by rewrite list_lookup_insert_eq by lia.
    - rewrite list_lookup_insert_ne by done. apply Ht. lia. }
  assert (Hext : forall m, border s (S j) (S m) -> (m <= i')%nat).
  { intros m (Hmj & Hm & E)%border_succ. apply Hmax'; [by split|congruence]. }
  unfold cps_step. rewrite Hfb. cbn [mbind outcome_bind].
  rewrite (char_at_lookup _ _ _ Ha), (char_at_lookup _ _ _ Hsb). cbn [mbind outcome_bind].
  destruct (decide (a = b)) as [->|Hne].
  - assert (Hl : longest_border s (S j) (S i')).
    { split; [apply border_succ; destruct Hb'; split_and!; [done|done|congruence]|].
      intros [|m] Hm; [lia|]. apply Hext in Hm. lia. }
    rewrite int_succ_ok by (destruct Hb'; lia). cbn [mbind outcome_bind].
    destruct (Hset _ Hl) as (nxt' & -> & Ht'). by exists nxt', (S i').
  - assert (i' = 0%nat) as -> by (destruct Hend; [congruence|done]).
    assert (Hl : longest_border s (S j) 0).
    { split; [apply border_zero; lia|]. intros [|m] Hm; [lia|]. exfalso.
      pose proof (Hext m Hm). assert (m = 0)%nat as -> by lia.
      apply border_succ in Hm as (_ & _ & E). congruence. }
    destruct (Hset _ Hl) as (nxt' & -> & Ht'). by exists nxt', 0%nat.
Qed.

Lemma cps_loop_spec fuel count s nxt j i :
  table s nxt j -> (0 < j)%nat -> (j + count = length s)%nat -> longest_border s j i ->
  (length s <= fuel)%nat -> len s < 2 ^ 31 ->
  exists nxt', cps_loop fuel count s j nxt i = Ok (Some nxt') /\ table s nxt' (length s).
Proof.
  revert nxt j i. induction count as [|count IH]; intros nxt j i Ht Hj Hc Hl Hf Hw; simpl.
  - exists nxt. split; [done|]. by replace (length s) with j by lia.
  - destruct (cps_step_spec fuel s nxt j i) as (nxt' & i' & -> & Ht' & Hl'); [done|done|lia|done..|].
    simpl. rewrite int_succ_ok by lia. apply (IH nxt' (S j) i'); [done|lia|lia|done..].
Qed.

Lemma int_vector_ok n : Z.of_nat n < 2 ^ 31 -> int_vector n = Ok (replicate n 0%nat).
Proof.
  intros Hn. unfold int_vector. rewrite s32_small by lia. rewrite decide_False by lia.
  by rewrite Nat2Z.id.
Qed.

(** C13. [checkPrefixSuffix] computes the prefix function: for every string shorter
    than 2^31 the loops end (the inner one within as many rounds as the string has
    characters), no access is out of range and no [int] overflows, and entry [j] of
    the result is the length of the longest proper prefix of [str[0..j]] that is
    also its suffix.  A string of 2^31 up to 2^32 - 1 characters, whose size is a
    negative [int], ends in [std::length_error] from the constructor of the vector. *)
Theorem checkPrefixSuffix_borders s :
  (len s < 2 ^ 31 ->
   exists nxt, checkPrefixSuffix (length s) s = Ok (Some nxt) /\ length nxt = length s /\
     forall j, (j < length s)%nat -> exists k, nxt !! j = Some k /\
       border s (S j) k /\ forall m, border s (S j) m -> (m <= k)%nat) /\
  (2 ^ 31 <= len s < 2 ^ 32 -> forall fuel, checkPrefixSuffix fuel s = Throw ExnLengthError).
Proof.
  unfold checkPrefixSuffix. split.
  - intros Hw. rewrite int_vector_ok by done. cbn [mbind outcome_bind]. destruct s as [|c s].
    { exists []. split_and!; [done|done|]. intros j Hj. simpl in Hj. lia. }
    destruct (cps_loop_spec (length (c :: s)) (length (c :: s) - 1) (c :: s)
                (replicate (length (c :: s)) 0%nat) 1 0) as (nxt & E & Hlen & Ht).
    + split; [by rewrite length_replicate|]. intros t Ht. exists 0%nat.
      assert (t = 0)%nat as -> by lia. split; [done|]. apply longest_border_one.
    + lia.
    + simpl. lia.
    + apply longest_border_one.
    + lia.
    + done.
    + exists nxt. split_and!; [done|done|]. intros j Hj. destruct (Ht j Hj) as (k & ? & ? & ?). by exists k.
  - intros Hw fuel. unfold int_vector. rewrite decide_True; [done|].
    unfold s32, wraps. rewrite Z.mod_small by lia. rewrite decide_False by lia. lia.
Qed.

Lemma checkPrefixSuffix_borders_witness :
  exists nxt, checkPrefixSuffix 6 (str "abcabd") = Ok (Some nxt) /\ nxt !! 4%nat = Some 2%nat.
Proof.
  destruct (checkPrefixSuffix_borders (str "abcabd")) as [H _].
  destruct (H ltac:(vm_compute; reflexivity)) as (nxt & E & _). exists nxt. split; [exact E|].
  vm_compute in E. injection E as <-. reflexivity.
Defined.

(** A string with a repeated first character and then another one. *)
Lemma kmp_stuck fuel c d rest nxt :
  c <> d -> nxt !! 1%nat = Some 1%nat ->
  fall_back 0 fuel (c :: c :: d :: rest) nxt 2 1 = Ok None.
Proof.
  intros Hcd Hn. induction fuel as [|fuel IH]; [done|]. cbn [fall_back].
  change (char_at (c :: c :: d :: rest) 1) with (Ok c).
  change (char_at (c :: c :: d :: rest) 2) with (Ok d). cbn [mbind outcome_bind].
  rewrite decide_True by (split; [done|lia]). unfold int_at. cbn [Nat.sub].
  rewrite Hn. exact IH.
Qed.

(** The first round, on a doubled character. *)
Lemma kmp_first fuel c l :
  kmp_step (S fuel) (c :: c :: l) 1 (replicate (S (S (length l))) 0%nat) 0 =
    Ok (Some (0%nat :: 1%nat :: replicate (length l) 0%nat, 1%nat)).
Proof.
  unfold kmp_step. cbn [fall_back].
  change (char_at (c :: c :: l) 0) with (Ok c). change (char_at (c :: c :: l) 1) with (Ok c).
  cbn [mbind outcome_bind]. destruct (decide (c <> c /\ (0 < 0)%nat)) as [[? _]|_]; [done|].
  cbn [mbind outcome_bind]. change (char_at (c :: c :: l) 0) with (Ok c). cbn [mbind outcome_bind].
  rewrite (decide_True (P := c = c)) by done. rewrite int_succ_ok by lia. cbn [mbind outcome_bind].
  unfold int_set. rewrite length_replicate.
  rewrite decide_True by lia. done.
Qed.

(** The class [KMP] falls back to [nxt[i]] where [checkPrefixSuffix] falls back
    to [nxt[i - 1]]: for every pattern that starts with a doubled character and then
    a different one the constructor never returns; and where it returns,
    [find] is neither sound nor complete: it reports a match of "aa" in "aba"
    that is none, and misses the one of "ab" in "aab". *)
Theorem kmp_class_broken c d rest fuel :
  c <> d -> len rest < 2 ^ 31 - 3 ->
  initNext fuel (c :: c :: d :: rest) = Ok None /\
  (exists k, KMP_new 3 (str "aba") (str "aa") = Ok (Some k) /\ find k 0 = Ok 1 /\
     take 2 (drop 1 (str "aba")) <> str "aa") /\
  (exists k, KMP_new 3 (str "aab") (str "ab") = Ok (Some k) /\ find k 0 = Ok (-1) /\
     take 2 (drop 1 (str "aab")) = str "ab").
Proof.
  intros Hcd Hw. split_and!.
  - unfold initNext. rewrite s32_small by (simpl length; lia).
    replace (Z.to_nat (len (c :: c :: d :: rest) - 1)) with (S (S (length rest))) by (simpl length; lia).
    change (length (c :: c :: d :: rest)) with (S (S (length (d :: rest)))).
    destruct fuel as [|fuel]; [done|]. cbn [kmp_loop]. rewrite kmp_first. cbn [mbind outcome_bind].
    rewrite int_succ_ok by lia. cbn [mbind outcome_bind]. unfold kmp_step. by rewrite kmp_stuck.
  - eexists. split; [vm_compute; reflexivity|]. split; [vm_compute; reflexivity|]. vm_compute. discriminate.
  - eexists. split; [vm_compute; reflexivity|]. split; vm_compute; reflexivity.
Qed.

Lemma kmp_class_broken_witness :
  "a"%char <> "b"%char /\ forall fuel, initNext fuel (str "aab") = Ok None.
Proof.
  split; [discriminate|]. intros fuel. exact (proj1 (kmp_class_broken "a"%char "b"%char [] fuel ltac:(discriminate) ltac:(reflexivity))).
Defined.
