(* ===== verification/Tomato.v ===== *)
(** * The tomato clock of the status bar ([waybar_tomato_clock/])

    [common.h] is the FIFO between the clicker and the clock.  The world of the
    clock is its three variables, what the FIFO holds at each of the coming
    non-blocking reads ([w_arrivals]; nothing when the list is used up), what
    the coming blocking reads deliver, and the lines printed. *)

From S2P Require Import Prelude CppInt CText.

(** ** [common.h] *)

Definition LEFT_CLICK : Ascii.ascii := "L"%char.
Definition RIGHT_CLICK : Ascii.ascii := "R"%char.
Definition MIDDLE_CLICK : Ascii.ascii := "M"%char.
Definition NON_CLICK : Ascii.ascii := "_"%char.

Inductive fifo_call : Type :=
  | Remove
  | Mkfifo (mode : Z)
  | OpenReadNonBlock
  | OpenReadWrite
  | OpenWriteNonBlock
  | WriteChar (c : Ascii.ascii)
  | CloseFd.

(** The flag [fifo_created] and the calls made. *)
Definition create_fifo (created : bool) : bool * list fifo_call :=
  if created then (true, []) else (true, [Remove; Mkfifo 438]).

Definition open_fifo_read_non_block (created : bool) : bool * list fifo_call :=
  let '(created, calls) := create_fifo created in (created, calls ++ [OpenReadNonBlock]).
Definition open_fifo_read_block (created : bool) : bool * list fifo_call :=
  let '(created, calls) := create_fifo created in (created, calls ++ [OpenReadWrite]).
Definition open_fifo_write_non_block : list fifo_call := [OpenWriteNonBlock].

Definition write_left_click : list fifo_call := [WriteChar LEFT_CLICK].
Definition write_right_click : list fifo_call := [WriteChar RIGHT_CLICK].
Definition write_middle_click : list fifo_call := [WriteChar MIDDLE_CLICK].

(** [tmp >= ' '] on a signed [char]. *)
Definition printable (c : Ascii.ascii) : bool :=
  let n := Z.of_nat (nat_of_ascii c) in bool_decide (32 <= wraps 8 n).

(** The loop of [read_action_non_block] on what the FIFO holds; the read that
    finds it empty leaves [tmp] as it was. *)
Fixpoint read_loop (fifo : bytes) (tmp ch : Ascii.ascii) : Ascii.ascii :=
  match fifo with
  | [] => if printable tmp then tmp else ch
  | c :: fifo => read_loop fifo c (if printable c then c else ch)
  end.

Definition read_action_non_block (fifo : bytes) : Ascii.ascii := read_loop fifo NON_CLICK NON_CLICK.

(** [None]: the read failed. *)
Definition read_action_block (reply : option Ascii.ascii) : Ascii.ascii := default NON_CLICK reply.

Definition is_left_click (c : Ascii.ascii) : bool := bool_decide (c = LEFT_CLICK).
Definition is_right_click (c : Ascii.ascii) : bool := bool_decide (c = RIGHT_CLICK).
Definition is_middle_click (c : Ascii.ascii) : bool := bool_decide (c = MIDDLE_CLICK).
Definition is_non_click (c : Ascii.ascii) : bool := bool_decide (c = NON_CLICK).

(** ** The clicker: exit status and calls, for the arguments behind the program name *)

Definition clicker_main (args : list bytes) : Z * list fifo_call :=
  match args with
  | [] => (1, [])
  | arg :: _ =>
      let c := default "000"%char (head arg) in
      let fd := open_fifo_write_non_block in
      if is_left_click c then (0, fd ++ write_left_click ++ [CloseFd])
      else if is_right_click c then (0, fd ++ write_right_click ++ [CloseFd])
      else if is_middle_click c then (0, fd ++ write_middle_click ++ [CloseFd])
      else (1, fd)
  end.

(** ** The clock *)

Definition WORK_MIN : Z := 25.
Definition REST_MIN : Z := 5.
Definition COUNT_PER_MIN : Z := 60.
Definition SLEEP_SEC : Z := 10.
Definition WORK_DOWN_COUNT : Z := cdiv (WORK_MIN * COUNT_PER_MIN) SLEEP_SEC.
Definition REST_DOWN_COUNT : Z := cdiv (REST_MIN * COUNT_PER_MIN) SLEEP_SEC.

Record Clock := mkClock {
  is_work : bool;
  worked_cnt : Z;
  rested_cnt : Z;
}.

Definition Clock_start : Clock := mkClock true WORK_DOWN_COUNT REST_DOWN_COUNT.

Record World := mkWorld {
  w_clock : Clock;
  w_arrivals : list bytes;
  w_blocked : list (option Ascii.ascii);
  w_screen : list bytes;
}.

Definition DQ : bytes := ["034"%char].
Definition quoted (s : bytes) : bytes := DQ ++ s ++ DQ.

(** The JSON object the bar reads. *)
Definition bar_line (text class : bytes) : bytes :=
  str "{" ++ quoted (str "text") ++ str ":" ++ quoted text ++ str "," ++
  quoted (str "class") ++ str ":" ++ quoted class ++ str "}" ++ ["010"%char].

Definition work_line (work : Z) : bytes :=
  bar_line (str "Wk:" ++ fmt_d 2 (cdiv (work * SLEEP_SEC) COUNT_PER_MIN)) (str "work").
Definition rest_line (rest : Z) : bytes :=
  bar_line (str "Rt:" ++ fmt_d 2 (cdiv (rest * SLEEP_SEC) COUNT_PER_MIN)) (str "rest").
Definition manual_line : bytes := bar_line (str "Click") (str "manual").

Definition set_clock (c : Clock) : M World unit :=
  modify (fun w => mkWorld c (w_arrivals w) (w_blocked w) (w_screen w)).
Definition print (l : bytes) : M World unit :=
  modify (fun w => mkWorld (w_clock w) (w_arrivals w) (w_blocked w) (w_screen w ++ [l])).
Definition print_work (work : Z) : M World unit := print (work_line work).
Definition print_rest (rest : Z) : M World unit := print (rest_line rest).
Definition print_manual : M World unit := print manual_line.

Definition poll_action : M World Ascii.ascii :=
  w ← getS;
  modify (fun w => mkWorld (w_clock w) (tail (w_arrivals w)) (w_blocked w) (w_screen w)) ;;
  mret (read_action_non_block (default [] (head (w_arrivals w)))).

Definition wait_action : M World Ascii.ascii :=
  w ← getS;
  modify (fun w => mkWorld (w_clock w) (w_arrivals w) (tail (w_blocked w)) (w_screen w)) ;;
  mret (read_action_block (default None (head (w_blocked w)))).

(** [while (!is_non_click(read_action_non_block(fifo_fd)));] *)
Fixpoint drain (arrivals : list bytes) : list bytes :=
  match arrivals with
  | [] => []
  | b :: r => if is_non_click (read_action_non_block b) then r else drain r
  end.
Definition clean_fifo : M World unit :=
  modify (fun w => mkWorld (w_clock w) (drain (w_arrivals w)) (w_blocked w) (w_screen w)).

(** What a click does to the variables. *)
Definition apply_action (action : Ascii.ascii) (c : Clock) : Clock :=
  if is_left_click action then mkClock true (WORK_DOWN_COUNT + 1) (rested_cnt c)
  else if is_right_click action then mkClock false (worked_cnt c) (REST_DOWN_COUNT + 1)
  else c.

(** The line printed at the end of an iteration. *)
Definition clock_line (c : Clock) : bytes :=
  if is_work c then work_line (worked_cnt c) else rest_line (rested_cnt c).
Definition show_clock : M World unit :=
  w ← getS;
  if is_work (w_clock w) then print_work (worked_cnt (w_clock w)) else print_rest (rested_cnt (w_clock w)).

(** One iteration of the loop of [main] up to the sleep. *)
Definition tick : M World unit :=
  action ← poll_action;
  w ← getS;
  let c := apply_action action (w_clock w) in
  (if is_work c
   then
     worked ← liftO (int_sub (worked_cnt c) 1);
     if decide (worked <= 0)
     then set_clock (mkClock false worked REST_DOWN_COUNT)
     else set_clock (mkClock true worked (rested_cnt c))
   else
     rested ← liftO (int_sub (rested_cnt c) 1);
     if decide (rested <= 0)
     then
       clean_fifo ;;
       print_manual ;;
       a ← wait_action;
       (if is_left_click a
        then set_clock (mkClock true WORK_DOWN_COUNT rested)
        else set_clock (mkClock false (worked_cnt c) REST_DOWN_COUNT)) ;;
       clean_fifo
     else set_clock (mkClock false (worked_cnt c) rested)) ;;
  show_clock.

Fixpoint ticks (n : nat) : M World unit :=
  match n with O => mret tt | S n => tick ;; ticks n end.

(** ** Facts *)

Definition clock_ok (c : Clock) : Prop :=
  if is_work c then 1 <= worked_cnt c <= WORK_DOWN_COUNT else 1 <= rested_cnt c <= REST_DOWN_COUNT.

(** A line the clock may show. *)
Definition shown (l : bytes) : Prop :=
  l = manual_line \/ (exists m, 0 <= m <= 25 /\ l = bar_line (str "Wk:" ++ fmt_d 2 m) (str "work")) \/
  (exists m, 0 <= m <= 5 /\ l = bar_line (str "Rt:" ++ fmt_d 2 m) (str "rest")).

Ltac counts_in := change WORK_DOWN_COUNT with 150 in *; change REST_DOWN_COUNT with 30 in *.

Lemma shown_work n : 1 <= n <= 150 -> shown (work_line n).
Proof.
  intros Hn. right; left. exists (cdiv (n * SLEEP_SEC) COUNT_PER_MIN). split; [|done].
  unfold cdiv, SLEEP_SEC, COUNT_PER_MIN. rewrite Z.quot_div_nonneg by lia.
  split; [apply Z.div_pos; lia|]. apply Z.div_le_upper_bound; lia.
Qed.

Lemma shown_rest n : 1 <= n <= 30 -> shown (rest_line n).
Proof.
  intros Hn. right; right. exists (cdiv (n * SLEEP_SEC) COUNT_PER_MIN). split; [|done].
  unfold cdiv, SLEEP_SEC, COUNT_PER_MIN. rewrite Z.quot_div_nonneg by lia.
  split; [apply Z.div_pos; lia|]. apply Z.div_le_upper_bound; lia.
Qed.

Lemma show_clock_spec w Q :
  Q tt (mkWorld (w_clock w) (w_arrivals w) (w_blocked w) (w_screen w ++ [clock_line (w_clock w)])) ->
  wp show_clock Q w.
Proof. unfold show_clock, clock_line, print_work, print_rest, print. wp_simpl. by destruct (is_work _). Qed.

Lemma shown_clock c : clock_ok c -> shown (clock_line c).
Proof.
  unfold clock_ok, clock_line. counts_in. destruct (is_work c); intros; [by apply shown_work|by apply shown_rest].
Qed.

Lemma show_ok w :
  clock_ok (w_clock w) -> Forall shown (w_screen w) ->
  wp show_clock (fun _ w' => clock_ok (w_clock w') /\ Forall shown (w_screen w')) w.
Proof.
  intros Hc Hs. apply show_clock_spec. split; [done|]. cbn [w_screen].
  apply Forall_app. split; [done|]. constructor; [by apply shown_clock|done].
Qed.

Lemma action_range a c :
  clock_ok c ->
  let c' := apply_action a c in
  if is_work c' then 1 <= worked_cnt c' <= 151 else 1 <= rested_cnt c' <= 31.
Proof.
  unfold clock_ok, apply_action. counts_in. intros Hc. cbv zeta.
  destruct (is_left_click a); [simpl; lia|]. destruct (is_right_click a); [simpl; lia|].
  destruct (is_work c); lia.
Qed.

Lemma tick_ok w :
  clock_ok (w_clock w) -> Forall shown (w_screen w) ->
  wp tick (fun _ w' => clock_ok (w_clock w') /\ Forall shown (w_screen w')) w.
Proof.
  intros Hc Hs. unfold tick, poll_action. wp_simpl.
  set (action := read_action_non_block _). pose proof (action_range action _ Hc) as Hok.
  cbn [w_clock]. cbv zeta in Hok. set (c := apply_action action (w_clock w)) in *. clearbody c action.
  unfold int_sub, set_clock, clean_fifo, print_manual, wait_action, print.
  destruct (is_work c); wp_simpl; rewrite schk_ok by (unfold in_s; lia); wp_simpl.
  - case_decide; wp_simpl; apply show_ok; unfold clock_ok; cbn [w_clock w_screen is_work worked_cnt rested_cnt];
      counts_in; (done || lia).
  - case_decide; wp_simpl.
    + match goal with |- context [is_left_click ?r] => generalize (is_left_click r) end. intros b.
      assert (Hl : Forall shown (w_screen w ++ [manual_line])).
      { apply Forall_app. split; [done|]. constructor; [by left|done]. }
      destruct b; apply show_ok; try exact Hl; unfold clock_ok;
        cbn [w_clock is_work worked_cnt rested_cnt]; counts_in; lia.
    + apply show_ok; unfold clock_ok; cbn [w_clock w_screen is_work worked_cnt rested_cnt]; counts_in; (done || lia).
Qed.

(** No click on the way: every poll finds a FIFO without a left or right click. *)
Definition idle (w : World) : Prop :=
  Forall (fun b => is_left_click (read_action_non_block b) = false /\
                   is_right_click (read_action_non_block b) = false) (w_arrivals w).

Lemma idle_poll w :
  idle w ->
  let a := read_action_non_block (default [] (head (w_arrivals w))) in
  (forall c, apply_action a c = c) /\
  idle (mkWorld (w_clock w) (tail (w_arrivals w)) (w_blocked w) (w_screen w)).
Proof.
  unfold idle, apply_action. intros H. cbn zeta. destruct (w_arrivals w) as [|b r]; cbn [head default tail w_arrivals].
  - split; [done|constructor].
  - apply Forall_cons in H as [[H1 H2] Hr]. simpl. by rewrite H1, H2.
Qed.

(** The clock one tick later when nobody clicks and the rest is not over. *)
Definition next_clock (c : Clock) : Clock :=
  if is_work c
  then if decide (worked_cnt c = 1) then mkClock false 0 REST_DOWN_COUNT
       else mkClock true (worked_cnt c - 1) (rested_cnt c)
  else mkClock false (worked_cnt c) (rested_cnt c - 1).

Lemma tick_quiet w Q :
  idle w -> clock_ok (w_clock w) -> (is_work (w_clock w) = false -> 1 < rested_cnt (w_clock w)) ->
  (forall w', idle w' -> w_clock w' = next_clock (w_clock w) -> w_blocked w' = w_blocked w ->
     w_screen w' = w_screen w ++ [clock_line (next_clock (w_clock w))] -> Q tt w') ->
  wp tick Q w.
Proof.
  intros Hi Hok Hrest HQ. destruct (idle_poll w Hi) as [Ha Hi'].
  unfold tick, poll_action. wp_simpl. rewrite Ha. cbn [w_clock].
  unfold clock_ok in Hok. unfold int_sub, set_clock, next_clock in *. counts_in. set (c := w_clock w) in *.
  destruct (is_work c) eqn:Hw; wp_simpl; rewrite schk_ok by (unfold in_s; lia); wp_simpl.
  - destruct (decide (worked_cnt c = 1)) as [E|E].
    + rewrite E. cbn [Z.sub]. rewrite decide_True by lia. wp_simpl. apply show_clock_spec. by apply HQ.
    + rewrite decide_False by lia. wp_simpl. apply show_clock_spec. by apply HQ.
  - specialize (Hrest eq_refl). rewrite decide_False by lia. wp_simpl. apply show_clock_spec. by apply HQ.
Qed.

(** The clock [k] ticks after a fresh start. *)
Definition schedule (k : Z) : Clock :=
  if decide (k < 150) then mkClock true (150 - k) 30 else mkClock false 0 (180 - k).

Lemma schedule_next k :
  0 <= k < 179 ->
  clock_ok (schedule k) /\ (is_work (schedule k) = false -> 1 < rested_cnt (schedule k)) /\
  next_clock (schedule k) = schedule (k + 1).
Proof.
  intros Hk. unfold schedule, clock_ok, next_clock. counts_in.
  destruct (decide (k < 150)); cbn [is_work worked_cnt rested_cnt].
  - split; [lia|]. split; [done|]. destruct (decide (150 - k = 1)).
    + rewrite decide_False by lia. f_equal; lia.
    + rewrite decide_True by lia. f_equal; lia.
  - split; [lia|]. split; [lia|]. rewrite decide_False by lia. f_equal; lia.
Qed.

Lemma ticks_schedule n k w :
  idle w -> w_clock w = schedule k -> 0 <= k -> k + Z.of_nat n < 180 ->
  wp (ticks n) (fun _ w' => idle w' /\ w_clock w' = schedule (k + Z.of_nat n) /\
     w_blocked w' = w_blocked w /\
     w_screen w' = w_screen w ++ ((fun i => clock_line (schedule (k + 1 + i))) <$> seqZ 0 (Z.of_nat n))) w.
Proof.
  revert k w. induction n as [|n IH]; intros k w Hi Hc Hk Hlt; cbn [ticks].
  - wp_simpl. rewrite Z.add_0_r, app_nil_r. done.
  - wp_simpl. destruct (schedule_next k ltac:(lia)) as (Hok & Hr & Hn).
    apply tick_quiet; rewrite ?Hc; [done..|]. intros w1 Hi1 Hc1 Hb1 Hs1. rewrite Hn in *.
    eapply wp_mono; [apply (IH (k + 1)); [done|done|lia|lia]|].
    intros [] w2 (Hi2 & Hc2 & Hb2 & Hs2). split_and!; [done| |congruence|].
    + rewrite Hc2. f_equal. lia.
    + rewrite Hs2, Hs1, <- app_assoc. f_equal. rewrite (seqZ_cons 0 (Z.of_nat (S n))) by lia. csimpl.
      rewrite Z.add_0_r. f_equal. replace (Z.pred (Z.of_nat (S n))) with (Z.of_nat n) by lia.
      change (Z.succ 0) with (1 + 0). rewrite <- (fmap_add_seqZ 1 0), <- list_fmap_compose.
      apply list_fmap_ext. intros i x _. simpl. f_equal. f_equal. lia.
Qed.

Lemma clock_of_start : w_clock (mkWorld Clock_start [] [] []) = schedule 0.
Proof. done. Qed.

(** The tick that ends the rest: prompt, wait for a click, start the next period. *)
Definition next_period (reply : option Ascii.ascii) : Clock :=
  if is_left_click (read_action_block reply) then mkClock true 150 0 else mkClock false 0 30.

Lemma tick_prompt w :
  idle w -> w_clock w = schedule 179 ->
  wp tick (fun _ w' => w_clock w' = next_period (default None (head (w_blocked w))) /\
     w_screen w' = w_screen w ++ [manual_line; clock_line (w_clock w')]) w.
Proof.
  intros Hi Hc. destruct (idle_poll w Hi) as [Ha _]. unfold tick, poll_action. wp_simpl. rewrite Ha.
  cbn [w_clock]. rewrite Hc. change (schedule 179) with (mkClock false 0 1).
  cbn [is_work rested_cnt worked_cnt]. unfold int_sub. wp_simpl. change (schk 32 (1 - 1)) with (@Ok Z 0).
  wp_simpl. rewrite decide_True by lia. unfold clean_fifo, print_manual, print, wait_action, set_clock, next_period.
  wp_simpl. cbn [w_blocked].
  match goal with |- context [is_left_click ?r] => generalize (is_left_click r) end. intros b.
  destruct b; apply show_clock_spec; cbn [w_clock w_screen]; by rewrite <- app_assoc.
Qed.

(** The pomodoro cycle: from the start, as long as nobody clicks, the first 149
    ticks count the work period down, tick 150 starts the rest and the following 29
    count it down; nothing else is printed; the 180th tick prompts for a
    click, waits for it, and starts a work period after a left click and
    another rest after anything else. *)
Theorem pomodoro_cycle arrivals reply replies :
  let w := mkWorld Clock_start arrivals (reply :: replies) [] in
  idle w ->
  wp (ticks 179)
     (fun _ w' => w_clock w' = mkClock false 0 1 /\
        w_screen w' = (fun i => clock_line (schedule (i + 1))) <$> seqZ 0 179 /\
        wp tick (fun _ w'' => w_clock w'' = next_period reply /\
           w_screen w'' = w_screen w' ++ [manual_line; clock_line (next_period reply)]) w') w.
Proof.
  intros w Hi. eapply wp_mono; [apply (ticks_schedule 179 0); [done|done|lia|lia]|].
  intros [] w' (Hi' & Hc & Hb & Hs). split; [done|]. split.
  - rewrite Hs. cbn [w w_screen app]. apply list_fmap_ext. intros i x _. f_equal. f_equal. lia.
  - eapply wp_mono; [by apply tick_prompt|]. rewrite Hb. intros [] w'' [Hc' Hs']. by rewrite Hs', Hc'.
Qed.

(** Whatever is clicked, at any time, the clock shows only its prompt, between 0
    and 25 minutes of work or between 0 and 5 minutes of rest, its counters
    stay within one period, and no tick fails. *)
Theorem clock_display_bounded n w :
  clock_ok (w_clock w) -> Forall shown (w_screen w) ->
  wp (ticks n) (fun _ w' => clock_ok (w_clock w') /\ Forall shown (w_screen w')) w.
Proof.
  revert w. induction n as [|n IH]; intros w Hc Hs; cbn [ticks]; wp_simpl; [done|].
  eapply wp_mono; [by apply tick_ok|]. intros [] w' [Hc' Hs']. by apply IH.
Qed.

(** The clicker and the clock agree: what the clicker writes is the click the clock reads. *)
Lemma click_delivered arg args c :
  clicker_main (arg :: args) = (0, open_fifo_write_non_block ++ [WriteChar c] ++ [CloseFd]) ->
  head arg = Some c /\ read_action_non_block [c] = c /\
  (is_left_click c || is_right_click c || is_middle_click c) = true.
Proof.
  unfold clicker_main. destruct arg as [|a arg]; [done|]. cbn [head default]. unfold id.
  unfold is_left_click, is_right_click, is_middle_click.
  destruct (bool_decide_reflect (a = LEFT_CLICK)) as [->|]; [intros [= <-]; split_and!; vm_compute; reflexivity|].
  destruct (bool_decide_reflect (a = RIGHT_CLICK)) as [->|]; [intros [= <-]; split_and!; vm_compute; reflexivity|].
  destruct (bool_decide_reflect (a = MIDDLE_CLICK)) as [->|]; [intros [= <-]; split_and!; vm_compute; reflexivity|]. by intros [=].
Qed.

Definition demo_world : World := mkWorld Clock_start [str "M"] [Some "L"%char] [].

Lemma pomodoro_cycle_witness :
  wp (ticks 179) (fun _ w' => w_clock w' = mkClock false 0 1) demo_world.
Proof.
  eapply wp_mono; [apply (pomodoro_cycle [str "M"] (Some "L"%char) [])|].
  - constructor; [|constructor]. vm_compute. split; reflexivity.
  - intros [] w' (Hc & _). exact Hc.
Defined.

Lemma clock_display_bounded_witness :
  wp (ticks 3) (fun _ w' => Forall shown (w_screen w')) (mkWorld Clock_start [str "R"] [] []).
Proof.
  eapply wp_mono; [apply (clock_display_bounded 3)|].
  - unfold clock_ok. cbn. vm_compute. split; discriminate.
  - constructor.
  - intros [] w' (_ & Hs). exact Hs.
Defined.
