(* ===== verification/RssTime.v ===== *)
(** * Time and scheduling of the RSS reader ([rss_b/src/main.cpp])

    The decoder of a raw [DATETIME] column, the conversions of points in time,
    the rounding of [<chrono>], and the arithmetic of [RssSource::update_2_db]
    and [sleep_to_next_hour].  A [system_clock::time_point] is its number of
    nanoseconds since the epoch.  [localtime] and [mktime] are the C library's
    and are parameters. *)

From S2P Require Import Prelude CppInt CText Timestamp.

(** ** [mysqlx_raw_as_u64_vector] *)

Definition carry_flag : Z := 128.
Definition value_mask : Z := 127.

(** The inner loop: the number, and what is left between [ptr] and [end]. *)
Fixpoint read_number (ptr : list Z) (v shift : Z) : Z * list Z :=
  match ptr with
  | [] => (v, [])
  | byte :: ptr =>
      let is_carry := bool_decide (Z.land byte carry_flag = carry_flag) in
      let v := Z.lor v (u64 (Z.shiftl (Z.land byte value_mask) shift)) in
      let shift := u64 (shift + 7) in
      if is_carry && bool_decide (ptr <> []) && bool_decide (shift <= 63)
      then read_number ptr v shift
      else (v, ptr)
  end.

(** The outer loop; [None]: out of fuel. *)
Fixpoint raw_loop (fuel : nat) (ptr : list Z) : option (list Z) :=
  match ptr with
  | [] => Some []
  | _ =>
      match fuel with
      | O => None
      | S fuel => let '(v, ptr) := read_number ptr 0 0 in (v ::.) <$> raw_loop fuel ptr
      end
  end.

(** Every number takes at least one byte. *)
Definition mysqlx_raw_as_u64_vector (raw : list Z) : option (list Z) := raw_loop (length raw) raw.

(** ** [mysqlx_column_2_time_point] *)

Definition u64_at (v : list Z) (i : nat) : outcome Z :=
  match v !! i with Some x => Ok x | None => UB end.

(** The fields stored in the global [tm2], in the order of the code. *)
Definition column_fields (vu64 : list Z) : outcome tm :=
  y ← u64_at vu64 0; mo ← u64_at vu64 1; d ← u64_at vu64 2;
  h ← u64_at vu64 3; mi ← u64_at vu64 4; s ← u64_at vu64 5;
  Ok (mkTm (s32 (u64 (y - 1900))) (s32 (u64 (mo - 1))) (s32 d) (s32 h) (s32 mi) (s32 s)).

Definition NS : Z := 1000000000.
Definition HOUR : Z := 3600 * NS.

(** [system_clock::from_time_t] and [to_time_t]. *)
Definition from_time_t (t : Z) : Z := t * NS.
Definition to_time_t (tp : Z) : Z := cdiv tp NS.

(** [mktime] sees the fields and the rest of the global structure (the time
    zone flag its previous call left there), and returns the time and the rest. *)
Definition mysqlx_column_2_time_point {R : Type} (mktime : tm -> R -> Z * R) (raw : list Z) : M R Z :=
  match mysqlx_raw_as_u64_vector raw with
  | None => undefined
  | Some vu64 =>
      t ← liftO (column_fields vu64);
      rest ← getS;
      let '(secs, rest) := mktime t rest in
      modify (fun _ => rest) ;;
      mret (from_time_t secs)
  end.

(** ** [time_point_2_string] *)

(** ["%Y-%m-%d %H:%M:%S"]. *)
Definition strftime_text (t : tm) : bytes :=
  number_text (tm_year t + 1900) ++ str "-" ++ fmt_0d 2 (tm_mon t + 1) ++ str "-" ++
  fmt_0d 2 (tm_mday t) ++ str " " ++ fmt_0d 2 (tm_hour t) ++ str ":" ++
  fmt_0d 2 (tm_min t) ++ str ":" ++ fmt_0d 2 (tm_sec t).

Definition buffer_size : nat := 20.

(** When the text and its NUL do not fit, the array's contents are unspecified. *)
Definition time_point_2_string (localtime : Z -> tm) (tp : Z) : outcome bytes :=
  let text := strftime_text (localtime (to_time_t tp)) in
  if decide (length text < buffer_size)%nat then Ok text else UB.

(** ** [std::chrono::round<hours>]: to the nearest hour, ties to the even one *)

Definition round_hours (t : Z) : Z :=
  let t0 := t `div` HOUR in
  let t1 := t0 + 1 in
  let diff0 := t - t0 * HOUR in
  let diff1 := t1 * HOUR - t in
  if decide (diff0 = diff1) then (if Z.odd t0 then t1 else t0)
  else if decide (diff0 < diff1) then t0 else t1.

(** ** [sleep_to_next_hour]: the seconds slept *)

Definition next_wake (now : Z) : Z := round_hours (now + HOUR) * HOUR + 5 * NS.
Definition sleep_seconds (now : Z) : Z := cdiv (next_wake now - now) NS.

(** ** The status and the gap in [RssSource::update_2_db] *)

Definition MAX_GAP : Z := 7 * 24.

Definition next_status (success new_data : bool) (status : Z) : outcome Z :=
  if success
  then if new_data then int_add (Z.max 0 status) 1 else Ok 0
  else if decide (status >= 0) then Ok (-1) else int_sub status 1.

Definition adapt (success new_data : bool) (status gap : Z) : outcome (Z * Z) :=
  status ← next_status success new_data status;
  if decide (status < -3)
  then gap2 ← int_mul gap 2; Ok (0, Z.min gap2 MAX_GAP)
  else if decide (status > 3) then Ok (0, Z.max 1 (Z.shiftr gap 1))
  else Ok (status, gap).

Definition next_execution (now gap : Z) : outcome Z :=
  t ← i64_add now (gap * HOUR); Ok (round_hours t * HOUR).

(** [n] updates with the same outcome. *)
Fixpoint adapts (n : nat) (success new_data : bool) (sg : Z * Z) : outcome (Z * Z) :=
  match n with
  | O => Ok sg
  | S n => sg ← adapts n success new_data sg; adapt success new_data sg.1 sg.2
  end.

(** ** The encoding of the columns

    A number is written seven bits a byte, the low ones first, with the top
    bit set on all bytes but the last. *)

Fixpoint leb128 (fuel : nat) (v : Z) : list Z :=
  match fuel with
  | O => []
  | S fuel => if decide (v < 128) then [v] else (v mod 128 + 128) :: leb128 fuel (v / 128)
  end.

Definition encode_column (vs : list Z) : list Z := concat (map (leb128 10) vs).

Definition byte_ok (b : Z) : Prop := 0 <= b < 256.

Lemma byte_split b :
  0 <= b < 128 ->
  Z.land b carry_flag = 0 /\ Z.land b value_mask = b /\
  Z.land (b + 128) carry_flag = carry_flag /\ Z.land (b + 128) value_mask = b.
Proof.
  intros Hb. change value_mask with (Z.ones 7). rewrite !Z.land_ones by lia.
  assert (Hl : Z.land b carry_flag = 0).
  { change carry_flag with (2 ^ 7). apply Z.bits_inj'. intros i Hi.
    rewrite Z.land_spec, Z.bits_0, Z.pow2_bits_eqb by lia.
    destruct (Z.eqb_spec 7 i) as [<-|]; [|by rewrite andb_false_r].
    rewrite andb_true_r. rewrite Z.testbit_eqb by lia. rewrite Z.div_small by lia. done. }
  rewrite !Z.mod_small with (a := b) by lia.
  split_and!; [done|done| |].
  - rewrite Z.add_comm. change (128 + b) with (carry_flag + b).
    assert (E : carry_flag + b = Z.lor carry_flag b).
    { rewrite <- Z.lxor_lor by (by rewrite Z.land_comm). apply Z.add_nocarry_lxor. by rewrite Z.land_comm. }
    rewrite E, Z.land_lor_distr_l, Hl, Z.lor_0_r. done.
  - change (2 ^ 7) with 128. rewrite <- (Z.mod_unique (b + 128) 128 1 b); lia.
Qed.

(** Or-ing bits above what is there adds them. *)
Lemma lor_shift acc b s : 0 <= s -> 0 <= acc < 2 ^ s -> 0 <= b -> Z.lor acc (b * 2 ^ s) = acc + b * 2 ^ s.
Proof.
  intros Hs Ha Hb. rewrite <- Z.shiftl_mul_pow2 by done.
  assert (Hd : Z.land acc (Z.shiftl b s) = 0).
  { apply Z.bits_inj'. intros i Hi. rewrite Z.land_spec, Z.bits_0, Z.shiftl_spec by done.
    destruct (decide (i < s)); [by rewrite (Z.testbit_neg_r b), andb_false_r by lia|].
    rewrite Z.testbit_eqb by done. rewrite Z.div_small; [done|].
    split; [lia|]. eapply Z.lt_le_trans; [apply Ha|]. apply Z.pow_le_mono_r; lia. }
  rewrite <- Z.lxor_lor by done. symmetry. by apply Z.add_nocarry_lxor.
Qed.

Lemma leb128_nonempty n v : (0 < n)%nat -> leb128 n v <> [].
Proof. destruct n; simpl; [lia|]. intros _. by case_decide. Qed.

(** The decoder reads back one number in front of anything. *)
Lemma read_leb128 n v acc k rest :
  (0 < n)%nat -> 0 <= v < 128 ^ Z.of_nat n -> 0 <= k -> v * 2 ^ (7 * k) < 2 ^ 64 ->
  0 <= acc < 2 ^ (7 * k) ->
  read_number (leb128 n v ++ rest) acc (7 * k) = (acc + v * 2 ^ (7 * k), rest).
Proof.
  revert v acc k. induction n as [|n IH]; intros v acc k Hn Hv Hk Hlt Ha; [lia|].
  assert (Hp : 0 < 2 ^ (7 * k)) by lia. cbn [leb128]. case_decide as Hs.
  - cbn [app read_number]. destruct (byte_split v ltac:(lia)) as (Hc & Hm & _).
    assert (0 <= v * 2 ^ (7 * k)) by (apply Z.mul_nonneg_nonneg; lia).
    rewrite Hc, Hm, Z.shiftl_mul_pow2, (u64_small (v * _)), lor_shift by lia.
    by rewrite (bool_decide_false (0 = carry_flag)) by (vm_compute; discriminate).
  - rewrite Nat2Z.inj_succ, Z.pow_succ_r in Hv by lia.
    assert (Hn' : (0 < n)%nat) by (destruct n; [simpl in Hv; lia|lia]).
    assert (Hb : 0 <= v mod 128 < 128) by (apply Z.mod_pos_bound; lia).
    pose proof (Z.div_mod v 128 ltac:(lia)) as Hdm.
    assert (Hd : 1 <= v / 128) by (apply Z.div_le_lower_bound; lia).
    assert (H7 : 7 * k + 7 < 64).
    { apply (Z.pow_lt_mono_r_iff 2); [lia|lia|]. rewrite Z.pow_add_r by lia. change (2 ^ 7) with 128. nia. }
    cbn [app read_number]. destruct (byte_split _ Hb) as (_ & _ & Hc & Hm).
    assert (Hbs : 0 <= v mod 128 * 2 ^ (7 * k) < 2 ^ 64) by nia.
    rewrite Hc, Hm, Z.shiftl_mul_pow2, (u64_small (v mod 128 * _)), lor_shift by lia.
    rewrite (u64_small (7 * k + 7)) by lia.
    rewrite !bool_decide_true; [|lia| |done].
    2:{ intros [E _]%app_eq_nil. by apply (leb128_nonempty n (v / 128)). }
    cbn [andb]. replace (7 * k + 7) with (7 * (k + 1)) by lia.
    assert (E2 : 2 ^ (7 * (k + 1)) = 128 * 2 ^ (7 * k)).
    { replace (7 * (k + 1)) with (7 + 7 * k) by lia. rewrite Z.pow_add_r by lia. done. }
    rewrite IH; [|done| |lia| |]; rewrite ?E2; [f_equal; nia| |nia|nia].
    split; [lia|]. apply Z.div_lt_upper_bound; lia.
Qed.

Lemma leb128_u64 v rest : in_u64 v -> read_number (leb128 10 v ++ rest) 0 0 = (v, rest).
Proof.
  intros [Hv0 Hv1]. change 0 with (7 * 0) at 2. rewrite read_leb128; rewrite ?Z.mul_0_r, ?Z.pow_0_r, ?Z.mul_1_r; done || lia.
Qed.

Lemma encode_cons v vs : encode_column (v :: vs) = leb128 10 v ++ encode_column vs.
Proof. reflexivity. Qed.

Lemma raw_loop_encode fuel vs :
  Forall in_u64 vs -> (length vs <= fuel)%nat -> raw_loop fuel (encode_column vs) = Some vs.
Proof.
  intros Hvs. revert fuel. induction Hvs as [|v vs Hv _ IH]; intros fuel Hf; [by destruct fuel|].
  destruct fuel as [|fuel]; [simpl in Hf; lia|].
  rewrite encode_cons. cbn [raw_loop].
  destruct (leb128 10 v ++ encode_column vs) as [|b l] eqn:E.
  - apply app_eq_nil in E as [E _]. exfalso. revert E. apply leb128_nonempty. lia.
  - rewrite <- E, leb128_u64 by done. simpl in Hf. by rewrite IH by lia.
Qed.

Lemma encode_column_length vs : (length vs <= length (encode_column vs))%nat.
Proof.
  induction vs as [|v vs IH]; [done|]. rewrite encode_cons, length_app. pose proof (leb128_nonempty 10 v ltac:(lia)).
  destruct (leb128 10 v); [done|]. simpl length. lia.
Qed.

Lemma decode_encode vs : Forall in_u64 vs -> mysqlx_raw_as_u64_vector (encode_column vs) = Some vs.
Proof. intros. apply raw_loop_encode; [done|]. apply encode_column_length. Qed.

(** The decoder ends on every input, consuming at least a byte for a number. *)
Lemma read_number_shrinks ptr v shift : (length (read_number ptr v shift).2 <= length ptr)%nat.
Proof.
  revert v shift. induction ptr as [|b ptr IH]; intros v shift; [done|]. cbn [read_number].
  repeat match goal with |- context [if ?c then _ else _] => destruct c end.
  - etrans; [apply IH|]. simpl. lia.
  - simpl. lia.
Qed.

Lemma read_number_cons b ptr v shift : (length (read_number (b :: ptr) v shift).2 <= length ptr)%nat.
Proof.
  cbn [read_number]. repeat match goal with |- context [if ?c then _ else _] => destruct c end.
  - apply read_number_shrinks.
  - simpl. lia.
Qed.

Lemma lor_u64 a b : in_u64 a -> in_u64 b -> in_u64 (Z.lor a b).
Proof.
  unfold in_u. intros Ha Hb. split; [apply Z.lor_nonneg; lia|].
  destruct (decide (Z.lor a b = 0)) as [->|Hn]; [lia|].
  assert (0 < Z.lor a b) by (pose proof (proj2 (Z.lor_nonneg a b)); lia).
  assert (Hlog : forall x, 0 <= x < 2 ^ 64 -> Z.log2 x < 64).
  { intros x Hx. destruct (decide (x = 0)) as [->|]; [reflexivity|]. apply Z.log2_lt_pow2; lia. }
  apply Z.log2_lt_pow2; [done|]. rewrite Z.log2_lor by lia. apply Z.max_lub_lt; by apply Hlog.
Qed.

Lemma read_number_u64 ptr v shift : in_u64 v -> in_u64 (read_number ptr v shift).1.
Proof.
  revert v shift. induction ptr as [|b ptr IH]; intros v shift Hv; [done|]. cbn [read_number].
  assert (Hl : in_u64 (Z.lor v (u64 (Z.shiftl (Z.land b value_mask) shift)))).
  { apply lor_u64; [done|apply u64_range]. }
  revert Hl. generalize (Z.lor v (u64 (Z.shiftl (Z.land b value_mask) shift))). intros x Hx.
  match goal with |- context [if ?c then _ else _] => destruct c end; [by apply IH|done].
Qed.

Lemma raw_loop_total fuel ptr :
  (length ptr <= fuel)%nat -> exists vs, raw_loop fuel ptr = Some vs /\ Forall in_u64 vs /\ (length vs <= length ptr)%nat.
Proof.
  revert ptr. induction fuel as [|fuel IH]; intros [|b ptr] Hf; [by exists []|simpl in Hf; lia|by exists []|].
  cbn [raw_loop]. pose proof (read_number_cons b ptr 0 0) as Hl.
  pose proof (read_number_u64 (b :: ptr) 0 0 ltac:(done)) as Hu.
  destruct (read_number (b :: ptr) 0 0) as [v ptr']. simpl in Hl, Hu, Hf |- *.
  destruct (IH ptr' ltac:(lia)) as (vs & E & Hvs & Hlen). rewrite E.
  exists (v :: vs). split_and!; [done|by constructor|simpl; lia].
Qed.

(** An [int] survives the detour over [uint64_t]. *)
Lemma s32_u64 x : - 2 ^ 31 <= x < 2 ^ 31 -> s32 (u64 x) = x.
Proof.
  intros Hx. rewrite <- (s32_small x) at 2 by done. unfold s32, wraps, u64, wrapu.
  by rewrite <- Znumtheory.Zmod_div_mod by (try lia; exists (2 ^ 32); reflexivity).
Qed.

(** The fields of a date and time, as the column holds them. *)
Definition column_of (t : tm) (more : list Z) : list Z :=
  [tm_year t + 1900; tm_mon t + 1; tm_mday t; tm_hour t; tm_min t; tm_sec t] ++ more.

(** A [DATETIME] column is read back: decoding inverts the column's
    encoding for every list of 64-bit numbers and ends on every input, with at
    most one 64-bit number per byte; a column that holds at least the six
    numbers of a date and time makes [mktime] see exactly that date and time.
    A column with fewer numbers (the trailing zeros left out) is read past the
    end of the vector. *)
Theorem datetime_column_roundtrip {R} (mktime : tm -> R -> Z * R) (rest : R) :
  (forall vs, Forall in_u64 vs -> mysqlx_raw_as_u64_vector (encode_column vs) = Some vs) /\
  (forall raw, exists vs, mysqlx_raw_as_u64_vector raw = Some vs /\
     Forall in_u64 vs /\ (length vs <= length raw)%nat) /\
  (forall t more, tm_ok t -> Forall in_u64 more ->
     mysqlx_column_2_time_point mktime (encode_column (column_of t more)) rest =
     Ok ((mktime t rest).1 * NS, (mktime t rest).2)) /\
  (forall vs, Forall in_u64 vs -> (length vs < 6)%nat ->
     mysqlx_column_2_time_point mktime (encode_column vs) rest = UB).
Proof.
  split_and!.
  - apply decode_encode.
  - intros raw. by apply raw_loop_total.
  - intros t more (?&?&?&?&?&?) Hm. unfold mysqlx_column_2_time_point.
    assert (Hb : forall x, 0 <= x < 10000 -> in_u64 x) by (unfold in_u; lia).
    rewrite decode_encode.
    2:{ unfold column_of. repeat (constructor; [apply Hb; lia|]). done. }
    unfold column_fields, column_of. cbn. rewrite !s32_u64, !s32_small by lia.
    replace (tm_year t + 1900 - 1900) with (tm_year t) by lia.
    replace (tm_mon t + 1 - 1) with (tm_mon t) by lia.
    unfold mbind, M_bind, liftO, getS, modify. destruct t; simpl. by destruct (mktime _ rest).
  - intros vs Hvs Hl. unfold mysqlx_column_2_time_point. rewrite decode_encode by done.
    do 6 (destruct vs as [|? vs]; [reflexivity|]). simpl in Hl. lia.
Qed.

(** ** Adapting the gap *)

Definition sched_ok (sg : Z * Z) : Prop := -3 <= sg.1 <= 3 /\ 1 <= sg.2 <= MAX_GAP.

Lemma adapt_fail st g :
  sched_ok (st, g) ->
  adapt false false st g =
  Ok (if decide (0 <= st) then (-1, g) else if decide (st = -3) then (0, Z.min (g * 2) MAX_GAP) else (st - 1, g)).
Proof.
  intros [Hs Hg]; simpl in Hs, Hg. change MAX_GAP with 168 in *. unfold adapt, next_status, int_sub, int_mul.
  rewrite !schk_ok by (unfold in_s; lia). change MAX_GAP with 168.
  repeat case_decide; simpl; repeat case_decide; try lia; reflexivity.
Qed.

Lemma adapt_new st g :
  sched_ok (st, g) ->
  adapt true true st g =
  Ok (if decide (st = 3) then (0, Z.max 1 (g / 2)) else (Z.max 0 st + 1, g)).
Proof.
  intros [Hs Hg]; simpl in Hs, Hg. unfold adapt, next_status, int_add.
  rewrite schk_ok by (unfold in_s; lia). cbn [mbind outcome_bind].
  rewrite Z.shiftr_div_pow2 by lia. change (2 ^ 1) with 2.
  rewrite decide_False by lia. repeat case_decide; try lia; reflexivity.
Qed.

Lemma adapt_same st g : adapt true false st g = Ok (0, g).
Proof. reflexivity. Qed.

Lemma adapt_ok success new_data st g :
  sched_ok (st, g) -> exists sg, adapt success new_data st g = Ok sg /\ sched_ok sg.
Proof.
  intros H. assert (E : exists sg, adapt success new_data st g = Ok sg).
  { destruct success, new_data; [rewrite adapt_new by done|rewrite adapt_same| |];
      [by eexists..|exact (ex_intro _ _ (adapt_fail _ _ H))|exact (ex_intro _ _ (adapt_fail _ _ H))]. }
  destruct E as [sg E]. exists sg. split; [done|]. revert E.
  destruct success, new_data; [rewrite adapt_new by done|rewrite adapt_same|
    change (adapt false true) with (adapt false false); rewrite adapt_fail by done|
    rewrite adapt_fail by done];
    intros [= <-]; destruct H as [Hs Hg]; unfold sched_ok in *; change MAX_GAP with 168 in *; simpl in *;
    repeat case_decide; simpl; Z.div_mod_to_equations; lia.
Qed.

(** What [n] failures, or [n] updates with new data, make of the gap. *)
Definition doubled (g : Z) (n : nat) : Z := Z.min (g * 2 ^ (Z.of_nat n / 4)) MAX_GAP.
Definition halved (g : Z) (n : nat) : Z := Z.max 1 (g / 2 ^ (Z.of_nat n / 4)).

Lemma quarter_step (n : nat) :
  Z.of_nat (S n) / 4 = (if decide (Z.of_nat n mod 4 = 3) then Z.of_nat n / 4 + 1 else Z.of_nat n / 4) /\
  Z.of_nat (S n) mod 4 = (if decide (Z.of_nat n mod 4 = 3) then 0 else Z.of_nat n mod 4 + 1).
Proof. rewrite Nat2Z.inj_succ. case_decide; Z.div_mod_to_equations; lia. Qed.

Lemma pow2_quarter (n : nat) : 0 < 2 ^ (Z.of_nat n / 4).
Proof. apply Z.pow_pos_nonneg; [lia|]. apply Z.div_pos; lia. Qed.

Lemma doubled_step g n :
  1 <= g <= MAX_GAP ->
  1 <= doubled g n <= MAX_GAP /\
  doubled g (S n) = (if decide (Z.of_nat n mod 4 = 3) then Z.min (doubled g n * 2) MAX_GAP else doubled g n).
Proof.
  intros Hg. pose proof (pow2_quarter n) as Hp. unfold doubled.
  destruct (quarter_step n) as [-> _]. change MAX_GAP with 168 in *. split; [nia|].
  case_decide; [|done]. rewrite Z.pow_add_r by (try apply Z.div_pos; lia). lia.
Qed.

Lemma halved_step g n :
  1 <= g <= MAX_GAP ->
  1 <= halved g n <= MAX_GAP /\
  halved g (S n) = (if decide (Z.of_nat n mod 4 = 3) then Z.max 1 (halved g n / 2) else halved g n).
Proof.
  intros Hg. pose proof (pow2_quarter n) as Hp. unfold halved.
  destruct (quarter_step n) as [-> _]. change MAX_GAP with 168 in *.
  assert (Hd : 0 <= g / 2 ^ (Z.of_nat n / 4) <= g).
  { split; [apply Z.div_pos; lia|]. apply Z.div_le_upper_bound; nia. }
  split; [lia|]. case_decide; [|done].
  rewrite Z.pow_add_r by (try apply Z.div_pos; lia). rewrite <- Z.div_div by lia.
  change (2 ^ 1) with 2. revert Hd. generalize (g / 2 ^ (Z.of_nat n / 4)). intros x Hx.
  destruct (Z.max_spec 1 x) as [[_ ->]|[? ->]]; [done|]. Z.div_mod_to_equations. lia.
Qed.

(** The gap adapts exponentially: from any legal status that is not a
    failure, [n] failed updates double the gap [n / 4] times, up to a week;
    from any legal status without new data, [n] updates with new data halve it
    [n / 4] times, down to an hour; an update without new data only resets the
    status.  Whatever happens, the status stays between -3 and 3, the gap
    between an hour and a week, and no step overflows. *)
Theorem gap_backoff st g n :
  sched_ok (st, g) ->
  (0 <= st -> exists st', adapts n false false (st, g) = Ok (st', doubled g n) /\
     (n <> 0%nat -> st' = - (Z.of_nat n mod 4))) /\
  (st <= 0 -> exists st', adapts n true true (st, g) = Ok (st', halved g n) /\
     (n <> 0%nat -> st' = Z.of_nat n mod 4)) /\
  adapt true false st g = Ok (0, g) /\
  (forall success new_data, exists sg, adapt success new_data st g = Ok sg /\ sched_ok sg).
Proof.
  intros H. pose proof H as [Hs Hg]; simpl in Hs, Hg.
  split_and!; [| |apply adapt_same|intros; by apply adapt_ok].
  - intros Hst. induction n as [|n (st' & E & Hst')].
    + exists st. split; [|done]. unfold doubled. simpl. rewrite Z.mul_1_r.
      change MAX_GAP with 168 in *. by rewrite Z.min_l by lia.
    + destruct (doubled_step g n Hg) as [Hr ->]. destruct (quarter_step n) as [_ Hq].
      pose proof (Z.mod_pos_bound (Z.of_nat n) 4 ltac:(lia)) as Hm.
      assert (Hst2 : st' = - (Z.of_nat n mod 4) \/ (n = 0%nat /\ 0 <= st' <= 3)).
      { destruct n; [right|left; by apply Hst']. split; [done|]. injection E as <- _. lia. }
      cbn [adapts]. rewrite E. cbn [mbind outcome_bind fst snd].
      rewrite adapt_fail by (split; simpl; destruct Hst2 as [|[]]; lia). rewrite Hq.
      destruct Hst2 as [->|[-> Hr0]].
      * repeat case_decide; try lia; eexists; (split; [reflexivity|]); intros _; lia.
      * rewrite decide_True by lia. eexists. split; [reflexivity|]. reflexivity.
  - intros Hst. induction n as [|n (st' & E & Hst')].
    + exists st. split; [|done]. unfold halved. simpl. rewrite Z.div_1_r. by rewrite Z.max_r by lia.
    + destruct (halved_step g n Hg) as [Hr ->]. destruct (quarter_step n) as [_ Hq].
      pose proof (Z.mod_pos_bound (Z.of_nat n) 4 ltac:(lia)) as Hm.
      assert (Hst2 : st' = Z.of_nat n mod 4 \/ (n = 0%nat /\ -3 <= st' <= 0)).
      { destruct n; [right|left; by apply Hst']. split; [done|]. injection E as <- _. lia. }
      cbn [adapts]. rewrite E. cbn [mbind outcome_bind fst snd].
      rewrite adapt_new by (split; simpl; destruct Hst2 as [|[]]; lia). rewrite Hq.
      destruct Hst2 as [->|[-> Hr0]].
      * repeat case_decide; try lia; eexists; (split; [reflexivity|]); intros _; lia.
      * rewrite decide_False by lia. eexists. split; [reflexivity|]. intros _. by rewrite Z.max_l by lia.
Qed.

(** ** When the next run is *)

Lemma round_hours_near t :
  0 <= t ->
  2 * Z.abs (round_hours t * HOUR - t) <= HOUR /\
  (2 * (t mod HOUR) < HOUR -> round_hours t = t / HOUR) /\
  (HOUR < 2 * (t mod HOUR) -> round_hours t = t / HOUR + 1).
Proof.
  intros Ht. assert (Hh : 0 < HOUR) by reflexivity.
  pose proof (Z.div_mod t HOUR ltac:(lia)) as Hd. pose proof (Z.mod_pos_bound t HOUR Hh) as Hm.
  unfold round_hours. revert Hd Hm. generalize (t / HOUR), (t mod HOUR). generalize dependent HOUR.
  intros h Hh q r -> Hr. replace (h * q + r - q * h) with r by lia.
  replace ((q + 1) * h - (h * q + r)) with (h - r) by lia.
  repeat case_decide; try (destruct (Z.odd q)); split_and!; try lia.
Qed.

(** When things run: the next execution is a full hour at most half an
    hour away from [gap] hours ahead, so it lies in the future, but it is later
    than that, not earlier, whenever more than half of the current hour is over
    (the code rounds, where its comment cuts).  [sleep_to_next_hour] sleeps
    between 1805 and 5405 seconds and wakes up within the fifth second of a full
    hour; that is the next one in the first half of an hour, and the one after
    it in the second half. *)
Theorem next_run_times now gap :
  0 <= now < 2 ^ 62 -> 1 <= gap <= MAX_GAP ->
  (exists next, next_execution now gap = Ok next /\ next mod HOUR = 0 /\
     2 * Z.abs (next - (now + gap * HOUR)) <= HOUR /\ now < next /\
     (HOUR < 2 * (now mod HOUR) -> next = (now / HOUR + gap + 1) * HOUR)) /\
  1805 <= sleep_seconds now <= 5405 /\
  4 * NS < (now + sleep_seconds now * NS) mod HOUR <= 5 * NS /\
  (2 * (now mod HOUR) < HOUR -> (now + sleep_seconds now * NS) / HOUR = now / HOUR + 1) /\
  (HOUR < 2 * (now mod HOUR) -> (now + sleep_seconds now * NS) / HOUR = now / HOUR + 2).
Proof.
  intros Hn Hg. change MAX_GAP with 168 in *. assert (Hh : HOUR = 3600 * NS) by done. split.
  - destruct (round_hours_near (now + gap * HOUR)) as (Hr & _ & Hu); [unfold HOUR, NS; lia|].
    exists (round_hours (now + gap * HOUR) * HOUR). unfold next_execution, i64_add.
    rewrite schk_ok by (unfold in_s, HOUR, NS; lia). split_and!; [done|by apply Z.mod_mul|done|unfold HOUR, NS in *; lia|].
    intros Hlate. rewrite Z.mod_add, Z.div_add in Hu by done. by rewrite Hu.
  - destruct (round_hours_near (now + 1 * HOUR)) as (Hr & Hdn & Hu); [unfold HOUR, NS; lia|].
    rewrite !Z.mod_add, !Z.div_add in * by done. rewrite Z.mul_1_l in *.
    unfold sleep_seconds, next_wake. set (r := round_hours (now + HOUR)) in *.
    set (d := r * HOUR + 5 * NS - now).
    assert (Hd : 1805 * NS <= d <= 5405 * NS) by (unfold d; lia).
    unfold cdiv. rewrite Z.quot_div_nonneg by (unfold NS in *; lia).
    pose proof (Z.div_mod d NS ltac:(done)) as Hq. pose proof (Z.mod_pos_bound d NS ltac:(done)) as Hm.
    assert (Hw : now + d / NS * NS = r * HOUR + (5 * NS - d mod NS)) by (unfold d in *; lia).
    assert (Hsec : 4 * NS < 5 * NS - d mod NS <= 5 * NS) by lia.
    rewrite Hw. rewrite (Z.add_comm (r * HOUR)), Z.mod_add, Z.div_add by done.
    rewrite (Z.mod_small (_ - _)), (Z.div_small (_ - _)) by (unfold HOUR, NS in *; lia).
    split_and!; [apply Z.div_le_lower_bound; unfold NS in *; lia|apply Z.div_le_upper_bound; unfold NS in *; lia|lia..].
Qed.

(** A date of a four-digit year fits the array of 20 bytes. *)
Lemma time_text_fits localtime tp :
  tm_ok (localtime (to_time_t tp)) ->
  exists text, time_point_2_string localtime tp = Ok text /\ (length text <= 19)%nat.
Proof.
  unfold time_point_2_string. generalize (localtime (to_time_t tp)). intros t (Hy&?&?&?&?&?).
  assert (Hl : (length (strftime_text t) <= 19)%nat).
  { unfold strftime_text. rewrite !fmt_0d_digits by (simpl; lia). rewrite !length_app, !dec_digits_length.
    change (length (str "-")) with 1%nat. change (length (str " ")) with 1%nat. change (length (str ":")) with 1%nat.
    assert (H4 := f_equal length (fmt_d_digits4 _ Hy)). unfold fmt_d in H4.
    rewrite length_app, dec_digits_length in H4. lia. }
  unfold buffer_size. rewrite decide_True by lia. by eexists.
Qed.

(** ** Witnesses *)

Lemma datetime_column_roundtrip_witness :
  mysqlx_column_2_time_point (fun t (r : Z) => (tm_sec t, r)) (encode_column [2024; 2; 29; 10; 0; 7; 300]) 1
    = Ok (7 * NS, 1) /\
  mysqlx_column_2_time_point (fun t (r : Z) => (tm_sec t, r)) (encode_column [2024; 2; 29; 10]) 1 = UB.
Proof.
  destruct (datetime_column_roundtrip (fun t (r : Z) => (tm_sec t, r)) 1) as (_ & _ & H & H').
  split.
  - refine (H (mkTm 124 1 29 10 0 7) [300] _ _); [|repeat constructor; vm_compute; done].
    apply (bool_decide_unpack _). vm_compute. exact I.
  - apply H'; [repeat constructor; vm_compute; done|simpl; lia].
Defined.

Lemma gap_backoff_witness : exists st, adapts 9 false false (2, 24) = Ok (st, 96).
Proof.
  destruct (gap_backoff 2 24 9) as (H & _); [split; vm_compute; split; discriminate|].
  destruct (H ltac:(lia)) as (st & E & _). exists st. exact E.
Defined.

(** At 10:45 on the first of January 1970 the reader sleeps until five seconds past 12. *)
Lemma next_run_times_witness : (10 * HOUR + 2700 * NS + sleep_seconds (10 * HOUR + 2700 * NS) * NS) / HOUR = 12.
Proof.
  destruct (next_run_times (10 * HOUR + 2700 * NS) 1) as (_ & _ & _ & _ & H).
  - vm_compute. split; [discriminate|reflexivity].
  - vm_compute. split; discriminate.
  - apply H. vm_compute. reflexivity.
Defined.
