(* ===== verification/Rss.v ===== *)
(** * The RSS reader ([rss_b/src/main.cpp])

    The libraries the program calls are parameters: pugixml is the class
    [PugiXml], with the finiteness of its sibling chains as its law, the columns of
    a result row are the class [MysqlRow], the MySQL
    and MongoDB servers, the HTTP client and the clock answer the [k]-th call of
    the run as functions of [k] and of what they are asked.  What the program
    does is the trace of its calls and of the lines it logs. *)

From S2P Require Import Prelude CppInt CText Timestamp RssTime.

(** ** Parameters *)

Class PugiXml (node : Type) := {
  load_string : bytes -> option node;
  parse_error : bytes -> bytes;
  is_null : node -> bool;
  child : node -> bytes -> node;
  next_sibling : node -> bytes -> node;
  attribute_value : node -> bytes -> bytes;
  child_value : node -> bytes;
  print_node : node -> bytes;
}.

(** A node and its following siblings of a name are a finite list. *)
Class PugiXmlLaws (node : Type) `{PugiXml node} := {
  siblings : bytes -> node -> list node;
  siblings_eq name n :
    siblings name n = if is_null n then [] else n :: siblings name (next_sibling n name);
}.

(** The columns of a row of a result; [None]: the access throws [mysqlx::Error]. *)
Class MysqlRow (row : Type) := {
  get_int : row -> nat -> option Z;
  get_string : row -> nat -> option bytes;
  get_raw : row -> nat -> option (list Z);
}.

Inductive http_reply : Type := HttpResult (status : Z) (body : bytes) | HttpFailed.
Inductive mongo_reply : Type := MongoInserted | MongoNothing | MongoException.

Inductive event : Type :=
  | EvLog (line : bytes)
  | EvHttp (server path : bytes)
  | EvSql (statement : bytes)
  | EvMongo (itemid : Z) (title link description : bytes)
  | EvSleep (seconds : Z).

Record World := mkWorld {
  w_calls : nat;
  w_trace : list event;
  w_isdst : Z;
}.

(** ** Data *)

Record RssSource := mkSource {
  rs_id : Z;
  rs_name : bytes;
  rs_path : bytes;
  rs_status : Z;
  rs_last : Z;
  rs_next : Z;
  rs_gap : Z;
}.

(** [i_id] is not initialised by the constructor. *)
Record RssItem := mkItem {
  i_id : option Z;
  i_sourceid : Z;
  i_title : bytes;
  i_link : bytes;
  i_pubdate : bytes;
}.

Definition RssItem_new (sourceid : Z) (title link pubdate : bytes) : RssItem :=
  mkItem None sourceid title link pubdate.

Record RssMongo := mkMongo {
  mg_itemid : Z;
  mg_title : bytes;
  mg_link : bytes;
  mg_description : bytes;
}.

Record RssEntry := mkEntry {
  e_title : bytes;
  e_link : bytes;
  e_description : bytes;
  e_pubdate : bytes;
}.

Definition get_title (e : RssEntry) : bytes :=
  if decide (e_title e = []) then str "no title" else e_title e.
Definition get_link (e : RssEntry) : bytes := e_link e.
Definition get_description (e : RssEntry) : bytes := e_description e.
Definition get_pubdate (e : RssEntry) : bytes := e_pubdate e.

(** ** The statements *)

Definition update_sql (status gap : Z) (last_exe_s next_exe_s : bytes) (id : Z) : bytes :=
  str "update rss.rss_source" ++ str " set status=" ++ number_text status ++
  str ",gap=" ++ number_text gap ++
  str ",last_execute='" ++ last_exe_s ++ str "',next_execute='" ++ next_exe_s ++ str "'" ++
  str " where id=" ++ number_text id.

Definition sources_sql (tp_s : bytes) : bytes :=
  str "select * from rss.rss_source where active=1 and next_execute<='" ++ tp_s ++ str "'".

Definition latest_sql (sourceid count : Z) : bytes :=
  str "select link from rss.rss_item where sourceid=" ++ number_text sourceid ++
  str " order by id desc limit " ++ number_text count.

Definition insert_sql (i : RssItem) : bytes :=
  str "insert into rss.rss_item (sourceid,title,link,pubdate) values (" ++
  number_text (i_sourceid i) ++ str ",'" ++ i_title i ++ str "','" ++ i_link i ++ str "','" ++
  i_pubdate i ++ str "');".

Definition max_id_sql (i : RssItem) : bytes :=
  str "select max(id) from rss.rss_item where link='" ++ i_link i ++ str "'".

Definition endl : bytes := ["010"%char].

(** ** [rss_xml::convert] *)

(** [xmlstr.c_str()] ends at the first NUL. *)
Definition c_str (s : bytes) : bytes :=
  match find_char "000"%char s with Some i => take i s | None => s end.

Section convert.
Context {node : Type} `{PugiXml node}.

Definition atom_entry (n : node) (content : bytes) : RssEntry :=
  mkEntry (child_value (child n (str "title"))) (attribute_value (child n (str "link")) (str "href"))
    content (child_value (child n (str "published"))).

Definition rss_entry (n : node) : RssEntry :=
  mkEntry (child_value (child n (str "title"))) (child_value (child n (str "link")))
    (child_value (child n (str "description"))) (child_value (child n (str "pubDate"))).

(** The loop over the entries of a feed, with the string stream [ss]; [None]:
    out of fuel.  The result holds the entries and the lines logged. *)
Fixpoint atom_loop (fuel : nat) (n : node) (ss : bytes) : option (list RssEntry * list bytes) :=
  if is_null n then Some ([], [])
  else
    match fuel with
    | O => None
    | S fuel =>
        let line := attribute_value (child n (str "link")) (str "href") ++ endl in
        let ss := ss ++ print_node (child n (str "content")) in
        '(es, ls) ← atom_loop fuel (next_sibling n (str "entry")) [];
        Some (atom_entry n ss :: es, line :: ls)
    end.

Fixpoint rss_loop (fuel : nat) (n : node) : option (list RssEntry * list bytes) :=
  if is_null n then Some ([], [])
  else
    match fuel with
    | O => None
    | S fuel =>
        let line := child_value (child n (str "link")) ++ endl in
        '(es, ls) ← rss_loop fuel (next_sibling n (str "item"));
        Some (rss_entry n :: es, line :: ls)
    end.

Definition convert (fuel : nat) (xmlstr : bytes) : option (list RssEntry * list bytes) :=
  match load_string (c_str xmlstr) with
  | None => Some ([], [str "Error " ++ parse_error (c_str xmlstr) ++ endl])
  | Some doc =>
      if negb (is_null (child doc (str "feed")))
      then atom_loop fuel (child (child doc (str "feed")) (str "entry")) []
      else rss_loop fuel (child (child (child doc (str "rss")) (str "channel")) (str "item"))
  end.
End convert.

(** ** The program *)

Definition emit (e : event) : M World unit :=
  modify (fun w => mkWorld (w_calls w) (w_trace w ++ [e]) (w_isdst w)).
Definition log (l : bytes) : M World unit := emit (EvLog l).

(** The number of a call of a library. *)
Definition call : M World nat :=
  w ← getS;
  modify (fun w => mkWorld (S (w_calls w)) (w_trace w) (w_isdst w)) ;;
  mret (w_calls w).

(** An access that may throw. *)
Definition or_throw {A} (o : option A) : M World A :=
  match o with Some a => mret a | None => throwM (ExnNamed "mysqlx::Error") end.

Section program.
Context {node : Type} `{PugiXml node} {row : Type} `{MysqlRow row}.
Context (clock : nat -> Z) (localtime : Z -> tm) (mktime : tm -> Z -> Z * Z) (pid : Z).
Context (http : nat -> bytes -> bytes -> http_reply) (error_text : nat -> bytes).
Context (sql : nat -> bytes -> option (list row)).
Context (mongo : nat -> RssMongo -> mongo_reply).

Definition now : M World Z := k ← call; mret (clock k).

(** A session, a statement, its execution; [None]: [mysqlx::Error]. *)
Definition execute (statement : bytes) : M World (option (list row)) :=
  k ← call;
  emit (EvSql statement) ;;
  mret (sql k statement).

Definition getRSS (server url_path : bytes) : M World (option bytes) :=
  log (str "start to request " ++ server ++ str ", " ++ url_path ++ endl) ;;
  k ← call;
  emit (EvHttp server url_path) ;;
  optstr ← (match http k server url_path with
            | HttpResult status body =>
                if decide (status = 200) then mret (Some body)
                else
                  log (number_text status ++ str " ERROR bad http response: " ++ error_text k ++ endl) ;;
                  mret None
            | HttpFailed => log (str "ERROR http failed: " ++ error_text k ++ endl) ;; mret None
            end);
  log (str "end of request rss" ++ endl) ;;
  mret optstr.

Definition sleep_to_next_hour : M World unit :=
  now2 ← now;
  text ← liftO (time_point_2_string localtime now2);
  log (number_text pid ++ str " now is: " ++ text ++ str " ") ;;
  log (str "will sleep seconds: " ++ number_text (sleep_seconds now2) ++ endl) ;;
  emit (EvSleep (sleep_seconds now2)).

Definition update_2_db (success new_data : bool) (s : RssSource) : M World RssSource :=
  '(status, gap) ← liftO (adapt success new_data (rs_status s) (rs_gap s));
  last_execute ← now;
  next_execute ← liftO (next_execution last_execute gap);
  last_exe_s ← liftO (time_point_2_string localtime last_execute);
  next_exe_s ← liftO (time_point_2_string localtime next_execute);
  r ← execute (update_sql status gap last_exe_s next_exe_s (rs_id s));
  or_throw r ;;
  mret (mkSource (rs_id s) (rs_name s) (rs_path s) status last_execute next_execute gap).

Definition set_isdst (d : Z) (w : World) : World := mkWorld (w_calls w) (w_trace w) d.

(** A row as the loop of [getRssSources] reads it. *)
Definition source_of_row (r : row) : M World RssSource :=
  rsid ← or_throw (get_int r 0);
  rsname ← or_throw (get_string r 1);
  rspath ← or_throw (get_string r 2);
  rsstatus ← or_throw (get_int r 3);
  raw4 ← or_throw (get_raw r 4);
  rslast ← zoom w_isdst set_isdst (mysqlx_column_2_time_point mktime raw4);
  raw5 ← or_throw (get_raw r 5);
  rsnext ← zoom w_isdst set_isdst (mysqlx_column_2_time_point mktime raw5);
  rsgap ← or_throw (get_int r 6);
  mret (mkSource rsid rsname rspath rsstatus rslast rsnext rsgap).

Fixpoint sources_of_rows (rows : list row) : M World (list RssSource) :=
  match rows with
  | [] => mret []
  | r :: rows => s ← source_of_row r; ss ← sources_of_rows rows; mret (s :: ss)
  end.

Definition getRssSources : M World (list RssSource) :=
  tp ← now;
  tp_s ← liftO (time_point_2_string localtime tp);
  log (sources_sql tp_s ++ endl) ;;
  result ← execute (sources_sql tp_s);
  rows ← or_throw result;
  sources_of_rows rows.

Definition get_latest_links (sourceid count : Z) : M World (gset bytes) :=
  result ← execute (latest_sql sourceid count);
  rows ← or_throw result;
  links ← or_throw (mapM (fun row => get_string row 0) rows);
  mret (list_to_set links).

(** The identifier of the last row, [-1] without rows. *)
Fixpoint last_id (dbid : Z) (rows : list row) : option Z :=
  match rows with
  | [] => Some dbid
  | r :: rows => dbid ← get_int r 0; last_id dbid rows
  end.

(** [None]: the call threw [mysqlx::Error]. *)
Definition insert_2_db (i : RssItem) : M World (option Z) :=
  log (insert_sql i ++ endl) ;;
  inserted ← execute (insert_sql i);
  match inserted with
  | None => mret None
  | Some _ =>
      result ← execute (max_id_sql i);
      match result with
      | None => mret None
      | Some rows => mret (last_id (-1) rows)
      end
  end.

Definition insert_2_mongo (m : RssMongo) : M World unit :=
  k ← call;
  emit (EvMongo (mg_itemid m) (mg_title m) (mg_link m) (mg_description m)) ;;
  match mongo k m with
  | MongoInserted => mret tt
  | MongoNothing => throwM (ExnNamed "assert")
  | MongoException => throwM (ExnNamed "mongocxx::exception")
  end.

(** The body of the loop over the entries; whether the article is stored. *)
Definition deal (s : RssSource) (latest : gset bytes) (vre : list RssEntry) (j : nat) : M World bool :=
  match vre !! j with
  | None => undefined
  | Some e =>
      if decide (get_link e ∈ latest) then mret false
      else
        log (str "start to deal " ++ number_text (Z.of_nat j) ++ endl) ;;
        let item := RssItem_new (rs_id s) (get_title e) (get_link e) (get_pubdate e) in
        r ← insert_2_db item;
        match r with
        | Some itemid =>
            insert_2_mongo (mkMongo itemid (get_title e) (get_link e) (get_description e)) ;;
            mret true
        | None =>
            k ← call;
            log (str "ERROR insert into db. " ++ error_text k ++ endl) ;;
            mret false
        end
  end.

(** [for (; j >= 0; --j)] from [n - 1]. *)
Fixpoint deal_loop (s : RssSource) (latest : gset bytes) (vre : list RssEntry) (n : nat)
    (hasNew : bool) : M World bool :=
  match n with
  | O => mret hasNew
  | S j => stored ← deal s latest vre j; deal_loop s latest vre j (hasNew || stored)
  end.

(** The body of the loop over the sources; [None]: [convert] ran out of fuel. *)
Definition process_source (fuel : nat) (s : RssSource) : M World (option unit) :=
  log (str "start to process " ++ number_text (rs_id s) ++ endl) ;;
  rssXml ← getRSS (rs_name s) (rs_path s);
  match rssXml with
  | None =>
      log (str "get rss failed" ++ endl) ;;
      _ ← update_2_db false false s;
      mret (Some tt)
  | Some xml =>
      match convert fuel xml with
      | None => mret None
      | Some (vre, lines) =>
          forM lines log ;;
          latest ← get_latest_links (rs_id s) (len vre);
          log (str "vre size " ++ number_text (len vre) ++ str ", j: " ++ number_text (len vre - 1) ++ endl) ;;
          hasNew ← deal_loop s latest vre (length vre) false;
          _ ← update_2_db true hasNew s;
          mret (Some tt)
      end
  end.

Fixpoint process_sources (fuel : nat) (vrs : list RssSource) : M World (option unit) :=
  match vrs with
  | [] => mret (Some tt)
  | s :: vrs =>
      r ← process_source fuel s;
      match r with None => mret None | Some _ => process_sources fuel vrs end
  end.

(** One iteration of the loop of [main]. *)
Definition main_round (fuel : nat) : M World (option unit) :=
  vrs ← getRssSources;
  log (str "source size: " ++ number_text (len vrs) ++ endl) ;;
  r ← process_sources fuel vrs;
  match r with None => mret None | Some _ => sleep_to_next_hour ;; mret (Some tt) end.
End program.

(** ** What a run does *)

Definition sqls (tr : list event) : list bytes :=
  omap (fun e => match e with EvSql s => Some s | _ => None end) tr.
Definition is_insert (s : bytes) : Prop := take 6 s = str "insert".
Definition is_update (s : bytes) : Prop := take 6 s = str "update".
Definition inserts (tr : list event) : list bytes := filter is_insert (sqls tr).
Definition updates (tr : list event) : list bytes := filter is_update (sqls tr).

(** The articles handed to MongoDB: identifier, title, link and description. *)
Definition articles (tr : list event) : list (Z * (bytes * bytes * bytes)) :=
  omap (fun e => match e with EvMongo i t l d => Some (i, (t, l, d)) | _ => None end) tr.

Definition article_of (e : RssEntry) : bytes * bytes * bytes :=
  (get_title e, get_link e, get_description e).
Definition item_of (s : RssSource) (e : RssEntry) : RssItem :=
  RssItem_new (rs_id s) (get_title e) (get_link e) (get_pubdate e).

(** What MySQL answered for each entry, the identifier it gave or none, decides what is
    handed over: the entries it took, with these identifiers. *)
Definition handed (es : list RssEntry) (ids : list (option Z)) : list (Z * (bytes * bytes * bytes)) :=
  omap (fun x => (fun id => (id, article_of x.1)) <$> x.2) (zip es ids).

Lemma handed_app es1 es2 ids1 ids2 :
  length es1 = length ids1 -> handed (es1 ++ es2) (ids1 ++ ids2) = handed es1 ids1 ++ handed es2 ids2.
Proof. intros. unfold handed. by rewrite zip_with_app, omap_app. Qed.

(** The entries whose link is not known, in the order they are handled. *)
Definition fresh (latest : gset bytes) (vre : list RssEntry) : list RssEntry :=
  filter (fun e => get_link e ∉ latest) (reverse vre).

Definition links_of {row} `{MysqlRow row} (rows : list row) : gset bytes :=
  list_to_set (omap (fun row => get_string row 0) rows).

Lemma inserts_app a b : inserts (a ++ b) = inserts a ++ inserts b.
Proof. unfold inserts, sqls. by rewrite omap_app, filter_app. Qed.
Lemma updates_app a b : updates (a ++ b) = updates a ++ updates b.
Proof. unfold updates, sqls. by rewrite omap_app, filter_app. Qed.
Lemma articles_app a b : articles (a ++ b) = articles a ++ articles b.
Proof. unfold articles. by rewrite omap_app. Qed.

(** [adds m P]: from every world [m] returns normally, and its result and the
    events it adds to the trace are in [P]. *)
Definition adds {A} (m : M World A) (P : A -> list event -> Prop) : Prop :=
  forall w, wp m (fun r w' => exists new, w_trace w' = w_trace w ++ new /\ P r new) w.

Lemma adds_ret {A} (a : A) (P : A -> list event -> Prop) : P a [] -> adds (mret a) P.
Proof. intros H w. exists []. by rewrite app_nil_r. Qed.

Lemma adds_bind {A B} (m : M World A) (f : A -> M World B) P Q :
  adds m P -> (forall a n1, P a n1 -> adds (f a) (fun r n2 => Q r (n1 ++ n2))) -> adds (m ≫= f) Q.
Proof.
  intros Hm Hf w. apply wp_bind. eapply wp_mono; [apply Hm|].
  intros a w1 (n1 & E1 & H1). eapply wp_mono; [apply (Hf a n1 H1)|].
  intros r w2 (n2 & E2 & H2). exists (n1 ++ n2). by rewrite E2, E1, app_assoc.
Qed.

Lemma adds_mono {A} (m : M World A) (P Q : A -> list event -> Prop) :
  adds m P -> (forall r new, P r new -> Q r new) -> adds m Q.
Proof. intros Hm H w. eapply wp_mono; [apply Hm|]. intros r w' (new & E & HP). eauto. Qed.

Lemma adds_emit e : adds (emit e) (fun _ new => new = [e]).
Proof. intros w. by exists [e]. Qed.

Lemma adds_call : adds call (fun _ new => new = []).
Proof. intros w. exists []. by rewrite app_nil_r. Qed.

Lemma adds_liftO {A} (o : outcome A) a : o = Ok a -> adds (liftO o) (fun r new => r = a /\ new = []).
Proof. intros -> w. exists []. by rewrite app_nil_r. Qed.

(** Logging is invisible to the three observations. *)
Lemma adds_forM_log lines :
  adds (forM lines log) (fun _ new => inserts new = [] /\ updates new = [] /\ articles new = []).
Proof.
  induction lines as [|l lines IH]; [by apply adds_ret|].
  eapply adds_bind; [apply adds_emit|]. intros _ ? ->. eapply adds_mono; [apply IH|].
  intros _ new (E1 & E2 & E3). by rewrite inserts_app, updates_app, articles_app, E1, E2, E3.
Qed.

Section convert_facts.
Context {node : Type} `{PugiXmlLaws node}.

Lemma siblings_nil name n : siblings name n = [] -> is_null n = true.
Proof. rewrite siblings_eq. by destruct (is_null n). Qed.

Lemma atom_loop_spec fuel n :
  (length (siblings (str "entry") n) <= fuel)%nat ->
  atom_loop fuel n [] =
  Some (map (fun n => atom_entry n (print_node (child n (str "content")))) (siblings (str "entry") n),
        map (fun n => attribute_value (child n (str "link")) (str "href") ++ endl) (siblings (str "entry") n)).
Proof.
  revert n. induction fuel as [|fuel IH]; intros n; rewrite siblings_eq; destruct (is_null n) eqn:Hn;
    cbn [length map atom_loop]; rewrite Hn; intros Hl; [done|lia|done|].
  by rewrite IH by lia.
Qed.

Lemma rss_loop_spec fuel n :
  (length (siblings (str "item") n) <= fuel)%nat ->
  rss_loop fuel n =
  Some (map rss_entry (siblings (str "item") n),
        map (fun n => child_value (child n (str "link")) ++ endl) (siblings (str "item") n)).
Proof.
  revert n. induction fuel as [|fuel IH]; intros n; rewrite siblings_eq; destruct (is_null n) eqn:Hn;
    cbn [length map rss_loop]; rewrite Hn; intros Hl; [done|lia|done|].
  by rewrite IH by lia.
Qed.

(** The nodes [convert] walks through. *)
Definition feed_nodes (doc : node) : list node :=
  if is_null (child doc (str "feed"))
  then siblings (str "item") (child (child (child doc (str "rss")) (str "channel")) (str "item"))
  else siblings (str "entry") (child (child doc (str "feed")) (str "entry")).

Definition entry_of (doc n : node) : RssEntry :=
  if is_null (child doc (str "feed")) then rss_entry n
  else atom_entry n (print_node (child n (str "content"))).

(** [convert] delivers one entry per item of the feed, in document order,
    each with the title, link, description and date of its own node (the
    string stream is emptied between Atom entries), and ends as soon as the
    fuel covers the number of items; a document pugixml rejects has no entries. *)
Theorem convert_entries fuel xml :
  match load_string (c_str xml) with
  | None => exists lines, convert fuel xml = Some ([], lines)
  | Some doc =>
      (length (feed_nodes doc) <= fuel)%nat ->
      exists lines, convert fuel xml = Some (map (entry_of doc) (feed_nodes doc), lines)
  end.
Proof.
  unfold convert. destruct (load_string (c_str xml)) as [doc|]; [|by eexists].
  unfold feed_nodes, entry_of. destruct (is_null (child doc (str "feed"))); cbn [negb]; intros Hl.
  - rewrite rss_loop_spec by done. by eexists.
  - rewrite atom_loop_spec by done. by eexists.
Qed.
End convert_facts.

(** Compute an observation of a trace whose statements are spelled out. *)
Ltac observe := rewrite ?inserts_app, ?updates_app, ?articles_app; reflexivity.

Lemma fresh_snoc latest vre e :
  fresh latest (vre ++ [e]) = filter (fun e => get_link e ∉ latest) [e] ++ fresh latest vre.
Proof. unfold fresh. by rewrite reverse_app, filter_app. Qed.

Section program_facts.
Context {node : Type} `{PugiXml node} {row : Type} `{MysqlRow row}.
Context (clock : nat -> Z) (localtime : Z -> tm) (pid : Z).
Context (http : nat -> bytes -> bytes -> http_reply) (error_text : nat -> bytes).
Context (sql : nat -> bytes -> option (list row)).
Context (mongo : nat -> RssMongo -> mongo_reply).
(** Documented behaviour the reader relies on: the clock is past 1970 and before
    2116, the calendar delivers dates, the queries and updates are answered, and
    MongoDB accepts what it is given.  Insertions may fail. *)
Context (Hclock : forall k, 0 <= clock k < 2 ^ 62).
Context (Hlocal : forall t, 0 <= t < 2 ^ 34 -> tm_ok (localtime t)).
Context (Hlatest : forall k id count, exists rows, sql k (latest_sql id count) = Some rows /\
           Forall (fun row => exists s, get_string row 0 = Some s) rows).
Context (Hupdate : forall k status gap last next id, sql k (update_sql status gap last next id) <> None).
Context (Hmongo : forall k m, mongo k m = MongoInserted).

Lemma now_adds : adds (now clock) (fun t new => new = [] /\ 0 <= t < 2 ^ 62).
Proof. eapply adds_bind; [apply adds_call|]. intros k ? ->. by apply adds_ret. Qed.

Lemma execute_spec st : adds (execute sql st) (fun r new => new = [EvSql st] /\ exists k, r = sql k st).
Proof.
  eapply adds_bind; [apply adds_call|]. intros k ? ->.
  eapply adds_bind; [apply adds_emit|]. intros _ ? ->. apply adds_ret. eauto.
Qed.

Lemma or_throw_spec {A} (o : option A) a : o = Some a -> adds (or_throw o) (fun r new => r = a /\ new = []).
Proof. intros ->. by apply adds_ret. Qed.

Lemma time_text_spec t :
  0 <= t < 2 ^ 63 -> exists text, time_point_2_string localtime t = Ok text.
Proof.
  intros Ht. destruct (time_text_fits localtime t) as (text & E & _); [|by exists text].
  apply Hlocal. unfold to_time_t, cdiv, NS. rewrite Z.quot_div_nonneg by lia.
  split; [apply Z.div_pos; lia|]. apply Z.div_lt_upper_bound; lia.
Qed.

Lemma update_2_db_spec success new_data s :
  sched_ok (rs_status s, rs_gap s) ->
  adds (update_2_db clock localtime sql success new_data s)
    (fun s' new =>
       adapt success new_data (rs_status s) (rs_gap s) = Ok (rs_status s', rs_gap s') /\
       exists last next, new = [EvSql (update_sql (rs_status s') (rs_gap s') last next (rs_id s))]).
Proof.
  intros Hs. destruct (adapt_ok success new_data _ _ Hs) as ([st g] & E & _ & Hg). simpl in Hg.
  unfold update_2_db. rewrite E.
  eapply adds_bind; [by apply adds_liftO|]. intros ? ? [-> ->].
  eapply adds_bind; [apply now_adds|]. intros t ? [-> Ht].
  destruct (next_run_times t g Ht Hg) as [(nx & En & _ & Hnear & Hfut & _) _].
  eapply adds_bind; [by apply adds_liftO|]. intros ? ? [-> ->].
  destruct (time_text_spec t) as [l El]; [lia|].
  eapply adds_bind; [by apply adds_liftO|]. intros ? ? [-> ->].
  destruct (time_text_spec nx) as [x Ex].
  { change MAX_GAP with 168 in Hg. unfold HOUR, NS in Hnear. lia. }
  eapply adds_bind; [by apply adds_liftO|]. intros ? ? [-> ->].
  eapply adds_bind; [apply execute_spec|]. intros r ? [-> [k Hr]].
  destruct r as [rows|]; [|by destruct (Hupdate k st g l x (rs_id s))].
  eapply adds_bind; [by apply or_throw_spec|]. intros ? ? [-> ->].
  apply adds_ret. simpl. split; [done|]. by exists l, x.
Qed.

(** MySQL's answer for an entry: the insertion, and behind it the query for the
    identifier; no identifier if one of them throws. *)
Definition mysql_took (i : RssItem) (id : option Z) : Prop :=
  exists k, match sql k (insert_sql i) with
            | None => id = None
            | Some _ => exists k', id = match sql k' (max_id_sql i) with
                                        | Some rows => last_id (-1) rows
                                        | None => None
                                        end
            end.

Lemma insert_2_db_spec i :
  adds (insert_2_db sql i)
    (fun r new => inserts new = [insert_sql i] /\ updates new = [] /\ articles new = [] /\ mysql_took i r).
Proof.
  eapply adds_bind; [apply adds_emit|]. intros _ ? ->.
  eapply adds_bind; [apply execute_spec|]. intros r ? [-> [k Hk]]. destruct r as [rows|].
  - eapply adds_bind; [apply execute_spec|]. intros r ? [-> [k' Hk']].
    destruct r; apply adds_ret; (split_and!; [observe..|]); exists k; rewrite <- Hk; exists k'; by rewrite <- Hk'.
  - apply adds_ret. split_and!; [observe..|]. exists k. by rewrite <- Hk.
Qed.

Lemma insert_2_mongo_spec m :
  adds (insert_2_mongo mongo m)
    (fun _ new => new = [EvMongo (mg_itemid m) (mg_title m) (mg_link m) (mg_description m)]).
Proof.
  eapply adds_bind; [apply adds_call|]. intros k ? ->.
  eapply adds_bind; [apply adds_emit|]. intros _ ? ->. rewrite Hmongo. by apply adds_ret.
Qed.

Lemma deal_spec s latest vre j e :
  vre !! j = Some e ->
  adds (deal error_text sql mongo s latest vre j)
    (fun stored new =>
       inserts new = map (fun e => insert_sql (item_of s e)) (filter (fun e => get_link e ∉ latest) [e]) /\
       updates new = [] /\
       (exists ids, Forall2 (fun e => mysql_took (item_of s e)) (filter (fun e => get_link e ∉ latest) [e]) ids /\
          articles new = handed (filter (fun e => get_link e ∉ latest) [e]) ids) /\
       stored = bool_decide (articles new <> [])).
Proof.
  intros E. unfold deal. rewrite E. rewrite filter_cons, filter_nil. destruct (decide (get_link e ∈ latest)) as [Hin|Hin].
  - apply adds_ret. rewrite decide_False by tauto. split_and!; [done|done|by exists []|done].
  - rewrite (decide_True (P := get_link e ∉ latest)) by done.
    eapply adds_bind; [apply adds_emit|]. intros _ ? ->.
    eapply adds_bind; [apply insert_2_db_spec|]. intros r n1 (E1 & E2 & E3 & Hr). destruct r as [itemid|].
    + eapply adds_bind; [apply insert_2_mongo_spec|]. intros _ ? ->. apply adds_ret.
      rewrite !inserts_app, !updates_app, !articles_app, E1, E2, E3.
      split_and!; [done|done| |done]. exists [Some itemid]. split; [by repeat constructor|done].
    + eapply adds_bind; [apply adds_call|]. intros k ? ->.
      eapply adds_bind; [apply adds_emit|]. intros _ ? ->. apply adds_ret.
      rewrite !inserts_app, !updates_app, !articles_app, E1, E2, E3.
      split_and!; [done|done| |done]. exists [None]. split; [by repeat constructor|done].
Qed.

Lemma deal_loop_spec s latest vre n hasNew :
  (n <= length vre)%nat ->
  adds (deal_loop error_text sql mongo s latest vre n hasNew)
    (fun r new =>
       inserts new = map (fun e => insert_sql (item_of s e)) (fresh latest (take n vre)) /\
       updates new = [] /\
       (exists ids, Forall2 (fun e => mysql_took (item_of s e)) (fresh latest (take n vre)) ids /\
          articles new = handed (fresh latest (take n vre)) ids) /\
       r = hasNew || bool_decide (articles new <> [])).
Proof.
  revert hasNew. induction n as [|n IH]; intros hasNew Hn; cbn [deal_loop].
  { apply adds_ret. split_and!; [done|done|by exists []|by rewrite bool_decide_false, orb_false_r by tauto]. }
  destruct (lookup_lt_is_Some_2 vre n) as [e He]; [lia|].
  eapply adds_bind; [by eapply deal_spec|]. intros stored n1 (E1 & E2 & (ids1 & E3 & E4) & ->).
  eapply adds_mono; [apply IH; lia|]. intros r n2 (F1 & F2 & (ids2 & F3 & F4) & ->).
  rewrite (take_S_r _ _ _ He), fresh_snoc, !map_app, inserts_app, updates_app, articles_app, E1, E2, F1, F2.
  split_and!; [done|done| |].
  - exists (ids1 ++ ids2). split; [by apply Forall2_app|].
    rewrite handed_app by (by eapply Forall2_length). by rewrite E4, F4.
  - rewrite <- orb_assoc. f_equal. destruct (articles n1), (articles n2); reflexivity.
Qed.

Lemma links_of_spec rows :
  Forall (fun row => exists s, get_string row 0 = Some s) rows ->
  mapM (fun row => get_string row 0) rows =
  Some (omap (fun row => get_string row 0) rows).
Proof.
  induction 1 as [|r0 rows (s & Hs) _ E]; [done|]. cbn [mapM].
  change (omap ?f (r0 :: rows)) with (match f r0 with Some y => y :: omap f rows | None => omap f rows end).
  cbn beta. rewrite Hs. cbn. by rewrite E.
Qed.

Lemma get_latest_links_spec id count :
  adds (get_latest_links sql id count)
    (fun latest new => new = [EvSql (latest_sql id count)] /\
       exists k rows, sql k (latest_sql id count) = Some rows /\ latest = links_of rows).
Proof.
  eapply adds_bind; [apply execute_spec|]. intros r ? [-> [k ->]].
  destruct (Hlatest k id count) as (rows & E & Hrows). rewrite E.
  eapply adds_bind; [by apply or_throw_spec|]. intros ? ? [-> ->].
  eapply adds_bind; [by apply or_throw_spec, links_of_spec|]. intros ? ? [-> ->].
  apply adds_ret. split; [done|]. by exists k, rows.
Qed.

Lemma getRSS_spec server path :
  adds (getRSS http error_text server path)
    (fun r new => inserts new = [] /\ updates new = [] /\ articles new = [] /\
       exists k, r = match http k server path with
                     | HttpResult status body => if decide (status = 200) then Some body else None
                     | HttpFailed => None
                     end).
Proof.
  eapply adds_bind; [apply adds_emit|]. intros _ ? ->.
  eapply adds_bind; [apply adds_call|]. intros k ? ->.
  eapply adds_bind; [apply adds_emit|]. intros _ ? ->.
  eapply (adds_bind _ _ (fun r new => inserts new = [] /\ updates new = [] /\ articles new = [] /\
     r = match http k server path with
         | HttpResult status body => if decide (status = 200) then Some body else None
         | HttpFailed => None
         end)).
  - destruct (http k server path) as [status body|]; [destruct (decide (status = 200))|].
    + by apply adds_ret.
    + eapply adds_bind; [apply adds_emit|]. intros _ ? ->. by apply adds_ret.
    + eapply adds_bind; [apply adds_emit|]. intros _ ? ->. by apply adds_ret.
  - intros r n1 (E1 & E2 & E3 & Er).
    eapply adds_bind; [apply adds_emit|]. intros _ ? ->. apply adds_ret.
    rewrite !inserts_app, !updates_app, !articles_app, E1, E2, E3. split_and!; try done. by exists k.
Qed.

(** What handling a source does, as a function of the replies. *)
Definition source_effect (fuel : nat) (s : RssSource) (new : list event) : Prop :=
  exists k success hasNew status gap last next,
    adapt success hasNew (rs_status s) (rs_gap s) = Ok (status, gap) /\
    updates new = [update_sql status gap last next (rs_id s)] /\
    match http k (rs_name s) (rs_path s) with
    | HttpResult 200 body =>
        exists vre lines k' rows, success = true /\ convert fuel body = Some (vre, lines) /\
          sql k' (latest_sql (rs_id s) (len vre)) = Some rows /\
          inserts new = map (fun e => insert_sql (item_of s e)) (fresh (links_of rows) vre) /\
          (exists ids, Forall2 (fun e => mysql_took (item_of s e)) (fresh (links_of rows) vre) ids /\
             articles new = handed (fresh (links_of rows) vre) ids) /\
          hasNew = bool_decide (articles new <> [])
    | _ => success = false /\ hasNew = false /\ inserts new = [] /\ articles new = []
    end.

Lemma process_source_spec fuel s :
  sched_ok (rs_status s, rs_gap s) ->
  (forall k body, http k (rs_name s) (rs_path s) = HttpResult 200 body -> convert fuel body <> None) ->
  adds (process_source clock localtime http error_text sql mongo fuel s)
    (fun r new => r = Some tt /\ source_effect fuel s new).
Proof.
  intros Hs Hc. eapply adds_bind; [apply adds_emit|]. intros _ ? ->.
  eapply adds_bind; [apply getRSS_spec|]. intros r n1 (E1 & E2 & E3 & k & Er).
  assert (Hcases : (exists body, r = Some body /\ http k (rs_name s) (rs_path s) = HttpResult 200 body) \/
    (r = None /\ forall body, http k (rs_name s) (rs_path s) <> HttpResult 200 body)).
  { destruct (http k (rs_name s) (rs_path s)) as [st body|]; [case_decide; subst|]; naive_solver. }
  destruct Hcases as [(body & -> & Hh)|(-> & Hh)].
  - destruct (convert fuel body) as [[vre lines]|] eqn:Ec; [|by destruct (Hc k body Hh)].
    eapply adds_bind; [apply adds_forM_log|]. intros _ n2 (F1 & F2 & F3).
    eapply adds_bind; [apply get_latest_links_spec|]. intros latest ? (-> & k' & rows & Hk' & ->).
    eapply adds_bind; [apply adds_emit|]. intros _ ? ->.
    eapply adds_bind; [by apply deal_loop_spec|]. rewrite firstn_all. intros hasNew n3 (G1 & G2 & G3 & G4).
    eapply adds_bind; [by apply update_2_db_spec|]. intros s' ? (Ha & last & next & ->).
    apply adds_ret. split; [done|]. exists k, true, hasNew, (rs_status s'), (rs_gap s'), last, next.
    rewrite !inserts_app, !updates_app, !articles_app, E1, E2, E3, F1, F2, F3, G1, G2, Hh. split_and!; [done|done|].
    exists vre, lines, k', rows. split_and!; try done; simpl; by rewrite ?app_nil_r.
  - eapply adds_bind; [apply adds_emit|]. intros _ ? ->.
    eapply adds_bind; [by apply update_2_db_spec|]. intros s' ? (Ha & last & next & ->).
    apply adds_ret. split; [done|]. exists k, false, false, (rs_status s'), (rs_gap s'), last, next.
    rewrite !inserts_app, !updates_app, !articles_app, E1, E2, E3. split_and!; [done|done|].
    destruct (http k (rs_name s) (rs_path s)) as [[|p|p] body|]; try done.
    do 8 (try (destruct p as [p|p|]; try done)).
Qed.

(** C17. A round handles every source, in order: whatever the feeds and the insertions
    answer, each source is requested, its articles with an unknown link are inserted
    from the last to the first and no others, exactly those for which MySQL answered
    the insertion and the query for the identifier behind it are handed to
    MongoDB, with that identifier, and the source's row is updated exactly
    once, with the status and gap of its outcome: a failure if the request failed, a
    success otherwise, with new data exactly if an article was handed over.
    Supposed, because [main] does not catch what these throw and would end:
    MySQL answers the query for the latest links and the update of the row,
    MongoDB accepts what it is given, the clock is past 1970 and before 2116, and
    the status and gap of every source are in the range the program itself keeps. *)
Theorem sources_handled fuel vrs w :
  Forall (fun s => sched_ok (rs_status s, rs_gap s)) vrs ->
  (forall k server path body, http k server path = HttpResult 200 body -> convert fuel body <> None) ->
  wp (process_sources clock localtime http error_text sql mongo fuel vrs)
    (fun r w' => r = Some tt /\
       exists news, w_trace w' = w_trace w ++ concat news /\ Forall2 (source_effect fuel) vrs news) w.
Proof.
  intros Hvrs Hc.
  assert (H' : adds (process_sources clock localtime http error_text sql mongo fuel vrs)
    (fun r new => r = Some tt /\ exists news, new = concat news /\ Forall2 (source_effect fuel) vrs news)).
  { induction Hvrs as [|s vrs Hs _ IH]; cbn [process_sources].
    - apply adds_ret. split; [done|]. by exists [].
    - eapply adds_bind; [by apply process_source_spec; eauto|]. intros ? n1 [-> H1].
      eapply adds_mono; [apply IH|]. intros r n2 [-> (news & -> & H2)]. split; [done|].
      exists (n1 :: news). split; [done|by constructor]. }
  eapply wp_mono; [apply H'|]. intros r w' (new & E & -> & news & -> & HF). eauto.
Qed.
End program_facts.

(** ** The text of the insertion *)

Definition quote : Ascii.ascii := "'"%char.
Definition plain (s : bytes) : Prop := quote ∉ s.

Lemma split_quote a b x y :
  plain a -> plain b -> a ++ quote :: x = b ++ quote :: y -> a = b /\ x = y.
Proof.
  intros Ha Hb E. assert (Hl : length a = length b).
  { pose proof (find_char_app quote a x Ha) as H1. rewrite E, find_char_app in H1 by done. congruence. }
  apply app_inj_1 in E as [-> [= ->]]; done.
Qed.

Lemma plain_digits w n : plain (dec_digits w n).
Proof.
  revert n. induction w as [|w IH]; intros n; [by apply not_elem_of_nil|]. simpl.
  intros [H|H%list_elem_of_singleton]%elem_of_app; [by apply (IH (n / 10))|].
  pose proof (Z.mod_pos_bound n 10 ltac:(lia)) as Hm. revert H Hm. generalize (n mod 10). intros d H Hd.
  revert H. digit_cases d; discriminate.
Qed.

Lemma plain_number n : plain (number_text n).
Proof.
  assert (Hpos : forall n, 0 <= n -> plain (number_text n)).
  { clear n. intros n Hn. pose proof (plain_digits (S (Z.to_nat n)) n) as H.
    rewrite <- number_text_digits in H; [|lia|].
    - intros Hin. apply H. apply elem_of_app. by right.
    - split; [done|]. rewrite Nat2Z.inj_succ, Z2Nat.id by done.
      etrans; [apply Z.lt_succ_diag_r|]. apply Z.pow_gt_lin_r; lia. }
  destruct (decide (0 <= n)) as [Hn|Hn]; [by apply Hpos|].
  destruct n as [|p|p]; [lia|lia|].
  change (number_text (Z.neg p)) with ("-"%char :: number_text (Z.pos p)).
  intros [H|H]%elem_of_cons; [discriminate|]. by apply (Hpos (Z.pos p)).
Qed.

Definition item_plain (i : RssItem) : Prop := plain (i_title i) /\ plain (i_link i) /\ plain (i_pubdate i).

(** The insertion says what it should only for plain texts: without single
    quotes in title, link and date the statement determines the source and the
    three texts; the texts are not escaped, so with quotes two different
    articles give the same statement. *)
Theorem insert_sql_quotes :
  (forall i j, item_plain i -> item_plain j -> insert_sql i = insert_sql j ->
     i_sourceid i = i_sourceid j /\ i_title i = i_title j /\ i_link i = i_link j /\
     i_pubdate i = i_pubdate j) /\
  (exists i j, insert_sql i = insert_sql j /\ i_title i <> i_title j).
Proof.
  split.
  - intros i j (Ht & Hl & Hp) (Ht' & Hl' & Hp') E. unfold insert_sql in E. apply app_inv_head in E.
    assert (Hc : forall n, plain (number_text n ++ str ",")).
    { intros n [H|H]%elem_of_app; [by apply plain_number in H|].
      apply list_elem_of_singleton in H. discriminate. }
    change (str ",'") with (str "," ++ [quote]) in E.
    change (str "','") with (quote :: str "," ++ [quote]) in E.
    change (str "');") with (quote :: str ");") in E.
    rewrite <- !app_assoc, !(app_assoc _ (str ",")) in E. simpl app in E at 1.
    repeat rewrite <- app_comm_cons in E. cbn [app] in E.
    apply split_quote in E as [E1 E]; [|apply Hc..].
    apply split_quote in E as [E2 E]; [|done..].
    apply (app_inv_head (str ",")) in E. injection E as E.
    apply split_quote in E as [E3 E]; [|done..].
    apply (app_inv_head (str ",")) in E. injection E as E.
    apply split_quote in E as [E4 _]; [|done..].
    apply app_inv_tail, number_text_inj in E1. done.
  - exists (RssItem_new 1 (str "a','b") (str "c") (str "d")), (RssItem_new 1 (str "a") (str "b','c") (str "d")).
    split; [reflexivity|discriminate].
Qed.

(** ** A concrete document model and the witnesses *)

Inductive tree : Type := Elem (name href text : bytes) (kids : list tree).

Definition named (name : bytes) (t : tree) : bool := let 'Elem n _ _ _ := t in bool_decide (n = name).

(** A node is a tree with its following siblings; the null node has none. *)
Fixpoint find_named (name : bytes) (l : list tree) : list tree :=
  match l with [] => [] | t :: r => if named name t then t :: r else find_named name r end.
Fixpoint named_suffixes (name : bytes) (l : list tree) : list (list tree) :=
  match l with
  | [] => []
  | t :: r => if named name t then (t :: r) :: named_suffixes name r else named_suffixes name r
  end.

Definition demo_doc : list tree :=
  [Elem [] [] [] [Elem (str "rss") [] [] [Elem (str "channel") [] []
    [Elem (str "item") [] [] [Elem (str "title") [] (str "new") []; Elem (str "link") [] (str "/2") []];
     Elem (str "ttl") [] [] [];
     Elem (str "item") [] [] [Elem (str "link") [] (str "/1") []]]]]].

#[export] Instance tree_xml : PugiXml (list tree) := {
  load_string s := if decide (s = str "<") then None else Some demo_doc;
  parse_error _ := str "no document";
  is_null n := bool_decide (n = []);
  child n name := match n with Elem _ _ _ kids :: _ => find_named name kids | [] => [] end;
  next_sibling n name := find_named name (tail n);
  attribute_value n _ := match n with Elem _ href _ _ :: _ => href | [] => [] end;
  child_value n := match n with Elem _ _ text _ :: _ => text | [] => [] end;
  print_node n := match n with Elem _ _ text _ :: _ => text | [] => [] end;
}.

Lemma named_suffixes_find name l :
  named_suffixes name l =
  match find_named name l with [] => [] | t :: r => (t :: r) :: named_suffixes name r end.
Proof. induction l as [|t r IH]; [done|]. simpl. destruct (named name t); [done|exact IH]. Qed.

#[export] Instance tree_laws : PugiXmlLaws (list tree).
Proof.
  refine {| siblings := fun name n =>
              match n with [] => [] | t :: r => (t :: r) :: named_suffixes name r end |}.
  intros name [|t r]; [done|]. simpl. by rewrite named_suffixes_find.
Defined.

Lemma convert_entries_witness :
  exists lines, convert 2 (str "<rss>") =
    Some ([mkEntry (str "new") (str "/2") [] []; mkEntry [] (str "/1") [] []], lines).
Proof.
  assert (H := convert_entries 2 (str "<rss>")). vm_compute in H. vm_compute. apply H. lia.
Defined.

Inductive sqlvalue : Type := VInt (n : Z) | VText (s : bytes) | VRaw (raw : list Z).

#[export] Instance list_row : MysqlRow (list sqlvalue) := {
  get_int r i := match r !! i with Some (VInt n) => Some n | _ => None end;
  get_string r i := match r !! i with Some (VText s) => Some s | _ => None end;
  get_raw r i := match r !! i with Some (VRaw raw) => Some raw | _ => None end;
}.

(** Servers for the witness: the first insertion fails, every other call is answered. *)
Definition demo_http (k : nat) (server path : bytes) : http_reply :=
  if decide (server = str "down") then HttpFailed else HttpResult 200 (str "<rss>").
Definition demo_sql (k : nat) (statement : bytes) : option (list (list sqlvalue)) :=
  if decide (take 11 statement = str "select link") then Some [[VText (str "/0")]]
  else if decide (take 6 statement = str "insert" /\ k = 2%nat) then None
  else Some [[VInt 7]].
Definition demo_source (id : Z) (server : bytes) : RssSource :=
  mkSource id server (str "/feed") 0 0 0 24.

Lemma demo_convert body : convert (node := list tree) 2 body <> None.
Proof.
  assert (H := convert_entries 2 body). revert H. cbn [load_string tree_xml].
  destruct (decide (c_str body = str "<")).
  - intros (lines & ->). discriminate.
  - intros H. destruct (H ltac:(vm_compute; lia)) as (lines & ->). discriminate.
Qed.

Lemma sources_handled_witness :
  wp (process_sources (fun _ => 0) (fun _ => mkTm 124 0 1 0 0 0) demo_http (fun _ => [])
        demo_sql (fun _ _ => MongoInserted) 2 [demo_source 1 (str "up"); demo_source 2 (str "down")])
     (fun r w' => r = Some tt /\ length (updates (w_trace w')) = 2%nat) (mkWorld 0 [] 0).
Proof.
  eapply wp_mono.
  - apply sources_handled.
    + intros k. lia.
    + intros t _. apply (bool_decide_unpack _). vm_compute. exact I.
    + intros k id count. exists [[VText (str "/0")]]. split; [reflexivity|].
      constructor; [by exists (str "/0")|constructor].
    + intros k status gap last next id. unfold demo_sql.
      change (take 11 (update_sql status gap last next id)) with (str "update rss.").
      change (take 6 (update_sql status gap last next id)) with (str "update").
      rewrite decide_False by discriminate.
      rewrite decide_False by (intros [H _]; discriminate). discriminate.
    + reflexivity.
    + repeat constructor; vm_compute; discriminate.
    + intros k server path body _. apply demo_convert.
  - intros r w' (-> & news & E & HF). split; [reflexivity|]. rewrite E.
    inversion HF as [|? n1 ? ? H1 HF']; subst. inversion HF' as [|? n2 ? ? H2 HF'']; subst.
    inversion HF''; subst. destruct H1 as (?&?&?&?&?&?&?&_&U1&_), H2 as (?&?&?&?&?&?&?&_&U2&_).
    simpl. rewrite !updates_app, U1, U2. reflexivity.
Defined.
