(* ===== verification/Turns.v ===== *)
(** * Taking turns: runs of threads, and the semaphore version of FooBar
      ([any/concurrency/LT_1115_foobar.cpp])

    A thread is a program counter; a step of a thread is one access to shared
    data.  [step l s] is [Ok None] when the thread of label [l] is blocked (or
    spins without any effect).  This file holds the runs of such systems, the
    sequence of calls FooBar has to make, and its versions with semaphores and
    with an atomic counter. *)

From S2P Require Import Prelude CppInt.

(** ** Runs *)

Section runs.
Context {St L : Type} (step : L -> St -> outcome (option St)).

Definition runs : St -> list L -> St -> Prop := lsteps (fun s l s' => step l s = Ok (Some s')).

(** Running a schedule. *)
Fixpoint execute (ls : list L) (s : St) : option St :=
  match ls with
  | [] => Some s
  | l :: ls => match step l s with Ok (Some s) => execute ls s | _ => None end
  end.

Lemma execute_runs ls s s' : execute ls s = Some s' -> runs s ls s'.
Proof.
  revert s. induction ls as [|l ls IH]; intros s; simpl; [intros [= <-]; constructor|].
  destruct (step l s) as [[s1|]| |] eqn:E; try done. intros H. econstructor; [exact E|by apply IH].
Qed.

Lemma runs_invariant (I : St -> Prop) s ls s' :
  (forall l s s', I s -> step l s = Ok (Some s') -> I s') -> I s -> runs s ls s' -> I s'.
Proof. intros Hs Hi. induction 1; eauto. Qed.

(** A measure every step decreases, but for what [extra] allows its label,
    bounds the length of the runs. *)
Lemma runs_bounded (I : St -> Prop) (m : St -> Z) (extra : L -> Z) s ls s' :
  (forall l s s', I s -> step l s = Ok (Some s') -> I s' /\ m s' + 1 <= m s + extra l) ->
  (forall s, I s -> 0 <= m s) ->
  I s -> runs s ls s' -> len ls <= m s + foldr (fun l n => extra l + n) 0 ls.
Proof.
  intros Hs Hm Hi. induction 1 as [s|s l s1 ls s' H1 _ IH]; [simpl; specialize (Hm s Hi); lia|].
  destruct (Hs l s s1 Hi H1) as [Hi1 Hle]. specialize (IH Hi1). simpl in *. lia.
Qed.

Lemma runs_bounded0 (I : St -> Prop) (m : St -> Z) s ls s' :
  (forall l s s', I s -> step l s = Ok (Some s') -> I s' /\ m s' + 1 <= m s) ->
  (forall s, I s -> 0 <= m s) ->
  I s -> runs s ls s' -> I s' /\ len ls <= m s.
Proof.
  intros Hs Hm Hi Hr. split.
  - eapply runs_invariant; [|exact Hi|exact Hr]. intros l s1 s2 H1 H2. by eapply Hs.
  - pose proof (runs_bounded I m (fun _ => 0) s ls s') as Hb.
    assert (Hz : foldr (fun (_ : L) n => 0 + n) 0 ls = 0) by (clear; induction ls; simpl; lia).
    cbn beta in Hb. rewrite Hz, Z.add_0_r in Hb. apply Hb; [|done|done|done].
    intros l s1 s2 H1 H2. destruct (Hs l s1 s2 H1 H2). split; [done|lia].
Qed.
End runs.

(** A number for every thread, added up. *)
Section sum_over.
Context {A : Type} (f : A -> Z).

Fixpoint sum_over (l : list A) : Z :=
  match l with [] => 0 | x :: l => f x + sum_over l end.

Lemma sum_over_insert l t x y : l !! t = Some x -> sum_over (<[t := y]> l) = sum_over l - f x + f y.
Proof.
  revert t. induction l as [|z l IH]; intros [|t] H; try discriminate; simpl in *.
  - injection H as ->. lia.
  - rewrite (IH t H). lia.
Qed.

Lemma sum_over_nonneg l : (forall x, 0 <= f x) -> 0 <= sum_over l.
Proof. intros H. induction l as [|x l IH]; simpl; [lia|]. specialize (H x). lia. Qed.

Lemma sum_over_forall l : Forall (fun x => 0 <= f x) l -> 0 <= sum_over l.
Proof. induction 1; simpl; lia. Qed.

Lemma sum_over_ge l t x : Forall (fun y => 0 <= f y) l -> l !! t = Some x -> f x <= sum_over l.
Proof.
  intros Hf. revert t. induction Hf as [|y l Hy Hl IH]; intros [|t] Ht; try done; simpl in *.
  - injection Ht as ->. pose proof (sum_over_forall l Hl). lia.
  - specialize (IH t Ht). lia.
Qed.

Lemma sum_over_at l t x : (forall y, 0 <= f y) -> l !! t = Some x -> f x <= sum_over l.
Proof. intros Hf. apply sum_over_ge, Forall_forall. intros y _. apply Hf. Qed.

(** If the numbers add up to at most 1, no two of them are positive. *)
Lemma sum_over_one l t u x y :
  (forall x, 0 <= f x) -> sum_over l <= 1 ->
  l !! t = Some x -> l !! u = Some y -> 1 <= f x -> 1 <= f y -> t = u.
Proof.
  intros Hf. revert t u. induction l as [|z l IH]; intros [|t] [|u] Hs Ht Hu Hx Hy; simpl in *; try done.
  - injection Ht as ->. pose proof (sum_over_at l u y Hf Hu). lia.
  - injection Hu as ->. pose proof (sum_over_at l t x Hf Ht). lia.
  - f_equal. apply IH; try done. specialize (Hf z). lia.
Qed.

Lemma sum_over_zero l : Forall (fun x => f x = 0) l -> sum_over l = 0.
Proof. induction 1 as [|x l E _ IH]; simpl; lia. Qed.
End sum_over.

(** ** FooBar: the threads, and what is called when *)

Inductive thread : Type := foo | bar.

#[export] Instance thread_eq_dec : EqDecision thread.
Proof. solve_decision. Defined.

(** What each of the two threads has. *)
Record per (A : Type) := Per { of_foo : A; of_bar : A }.
Arguments Per {A}.
Arguments of_foo {A}.
Arguments of_bar {A}.

Definition get {A} (p : per A) (t : thread) : A := match t with foo => of_foo p | bar => of_bar p end.
Coercion get : per >-> Funclass.
Definition upd {A} (p : per A) (t : thread) (a : A) : per A :=
  match t with foo => Per a (of_bar p) | bar => Per (of_foo p) a end.
#[global] Arguments get : simpl never.
#[global] Arguments upd : simpl never.

Lemma upd_same {A} (p : per A) t a : upd p t a t = a.
Proof. by destruct t. Qed.
Lemma upd_other {A} (p : per A) t a q : q <> t -> upd p t a q = p q.
Proof. by destruct t, q. Qed.

Definition other (t : thread) : thread := match t with foo => bar | bar => foo end.

(** The specification: the [k]-th call is [printFoo] for even [k]. *)
Definition turn_of (k : Z) : thread := if Z.even k then foo else bar.
Definition alternation (k : Z) : list thread := map turn_of (seqZ 0 k).

Lemma alternation_snoc k : 0 <= k -> alternation (k + 1) = alternation k ++ [turn_of k].
Proof. intros. unfold alternation. rewrite seqZ_app by lia. by rewrite map_app. Qed.

(** A call made in its turn. *)
Lemma call_foo k c : k = 2 * c -> 0 <= c -> alternation k ++ [foo] = alternation (k + 1).
Proof.
  intros -> Hc. rewrite alternation_snoc by lia. unfold turn_of. by rewrite Z.even_even.
Qed.

Lemma call_bar k c : k = 2 * c + 1 -> 0 <= c -> alternation k ++ [bar] = alternation (k + 1).
Proof.
  intros -> Hc. rewrite (alternation_snoc (2 * c + 1)) by lia. unfold turn_of. by rewrite Z.even_odd.
Qed.

Lemma turn_of_cases k : (turn_of k = foo /\ k mod 2 = 0) \/ (turn_of k = bar /\ k mod 2 = 1).
Proof.
  unfold turn_of. rewrite Zmod_even. destruct (Z.even k); [left|right]; done.
Qed.

(** ** [FooBar]: two semaphores *)

Module Semaphores.
Inductive pc : Type := Acquire | Print | Release | Done.

Record FooBar := mkFooBar {
  n : Z;
  semf : Z;
  semb : Z;
  i : per Z;
  at_ : per pc;
  out : list thread;
}.

(** The head of the [for] loop with counter [i]. *)
Definition head_pc (n i : Z) : pc := if decide (i < n) then Acquire else Done.

Definition FooBar_new (n : Z) : FooBar :=
  mkFooBar n 1 0 (Per 0 0) (Per (head_pc n 0) (head_pc n 0)) [].

(** [acquire] blocks at zero; [release] beyond the maximum [1] is undefined. *)
Definition acquire (c : Z) : option Z := if decide (0 < c) then Some (c - 1) else None.
Definition release (c : Z) : outcome Z := if decide (c < 1) then Ok (c + 1) else UB.

(** [FooBar::foo] *)
Definition step_foo (s : FooBar) : outcome (option FooBar) :=
  match at_ s foo with
  | Acquire =>
      match acquire (semf s) with
      | Some f => Ok (Some (mkFooBar (n s) f (semb s) (i s) (upd (at_ s) foo Print) (out s)))
      | None => Ok None
      end
  | Print => Ok (Some (mkFooBar (n s) (semf s) (semb s) (i s) (upd (at_ s) foo Release) (out s ++ [foo])))
  | Release =>
      b ← release (semb s);
      let i' := i s foo + 1 in
      Ok (Some (mkFooBar (n s) (semf s) b (upd (i s) foo i') (upd (at_ s) foo (head_pc (n s) i')) (out s)))
  | Done => Ok None
  end.

(** [FooBar::bar] *)
Definition step_bar (s : FooBar) : outcome (option FooBar) :=
  match at_ s bar with
  | Acquire =>
      match acquire (semb s) with
      | Some b => Ok (Some (mkFooBar (n s) (semf s) b (i s) (upd (at_ s) bar Print) (out s)))
      | None => Ok None
      end
  | Print => Ok (Some (mkFooBar (n s) (semf s) (semb s) (i s) (upd (at_ s) bar Release) (out s ++ [bar])))
  | Release =>
      f ← release (semf s);
      let i' := i s bar + 1 in
      Ok (Some (mkFooBar (n s) f (semb s) (upd (i s) bar i') (upd (at_ s) bar (head_pc (n s) i')) (out s)))
  | Done => Ok None
  end.

Definition step (t : thread) : FooBar -> outcome (option FooBar) :=
  match t with foo => step_foo | bar => step_bar end.

(** Whether a thread has taken its semaphore, and made its call, in this round. *)
Definition taken (p : pc) : Z := match p with Print | Release => 1 | _ => 0 end.
Definition given (p : pc) : Z := match p with Release => 1 | _ => 0 end.

(** The counter of a [for] loop at a program point. *)
Definition round_ok (n0 : Z) (p : pc) (c : Z) : Prop :=
  match p with Done => c = n0 | _ => 0 <= c < n0 end.

(** Each semaphore counts the rounds the one thread has finished ahead of those
    the other has begun. *)
Definition inv (n0 : Z) (s : FooBar) : Prop :=
  n s = n0 /\ 0 <= n0 /\
  semf s = 1 + i s bar - i s foo - taken (at_ s foo) /\ 0 <= semf s /\
  semb s = i s foo - i s bar - taken (at_ s bar) /\ 0 <= semb s /\
  out s = alternation (i s foo + i s bar + given (at_ s foo) + given (at_ s bar)) /\
  round_ok n0 (at_ s foo) (i s foo) /\ round_ok n0 (at_ s bar) (i s bar).

Definition weight (p : pc) : Z := match p with Acquire => 3 | Print => 2 | Release => 1 | Done => 0 end.
Definition measure (s : FooBar) : Z :=
  3 * (n s - i s foo) + 3 * (n s - i s bar) + weight (at_ s foo) + weight (at_ s bar).

Lemma sem_taken_range p : 0 <= given p <= taken p /\ taken p <= 1.
Proof. destruct p; simpl; lia. Qed.

Lemma sem_round_range n0 p c : 0 <= n0 -> round_ok n0 p c -> 0 <= c <= n0.
Proof. destruct p; simpl; lia. Qed.

Lemma sem_head_pc_facts n0 c :
  0 <= c <= n0 ->
  taken (head_pc n0 c) = 0 /\ given (head_pc n0 c) = 0 /\ 0 <= weight (head_pc n0 c) <= 3 /\
  round_ok n0 (head_pc n0 c) c.
Proof. intros. unfold head_pc. case_decide; simpl; lia. Qed.

Lemma sem_step_inv n0 t s s' :
  inv n0 s -> step t s = Ok (Some s') -> inv n0 s' /\ measure s' + 1 <= measure s.
Proof.
  destruct s as [n1 sf sb c p o]. unfold inv, measure. simpl.
  intros (-> & Hn & Hf & Hf0 & Hb & Hb0 & Ho & Hrf & Hrb) Hs.
  pose proof (sem_taken_range (p foo)). pose proof (sem_taken_range (p bar)).
  pose proof (sem_round_range _ _ _ Hn Hrf). pose proof (sem_round_range _ _ _ Hn Hrb).
  pose proof (sem_head_pc_facts n0 (c foo + 1)). pose proof (sem_head_pc_facts n0 (c bar + 1)).
  unfold step, step_foo, step_bar, acquire, release in Hs.
  destruct t; simpl in Hs; [destruct (p foo) eqn:E|destruct (p bar) eqn:E]; simpl in *; try discriminate Hs;
    repeat match type of Hs with context [if decide ?P then _ else _] => destruct (decide P) end;
    simpl in Hs; try discriminate Hs; injection Hs as <-; simpl;
    rewrite ?upd_same, ?upd_other, ?E by done; simpl; split_and!; try done; try lia.
  - rewrite Ho, (call_foo _ (c foo)) by lia. f_equal. lia.
  - rewrite Ho. f_equal. lia.
  - apply H3. lia.
  - rewrite Ho, (call_bar _ (c bar)) by lia. f_equal. lia.
  - rewrite Ho. f_equal. lia.
  - apply H4. lia.
Qed.

Lemma sem_inv_new n0 : 0 <= n0 -> inv n0 (FooBar_new n0).
Proof.
  intros Hn. unfold inv, get. simpl. destruct (sem_head_pc_facts n0 0) as (-> & -> & _ & Hr); [lia|].
  split_and!; try done; lia.
Qed.

Lemma sem_step_defined n0 t s : inv n0 s -> exists r, step t s = Ok r.
Proof.
  intros (Hn & Hn0 & Hf & Hf0 & Hb & Hb0 & _ & Hrf & Hrb).
  pose proof (sem_taken_range (at_ s foo)). pose proof (sem_taken_range (at_ s bar)).
  unfold step, step_foo, step_bar, release. destruct t; [destruct (at_ s foo)|destruct (at_ s bar)]; simpl in *;
    try (eexists; reflexivity).
  - destruct (acquire (semf s)); by eexists.
  - rewrite decide_True by lia. by eexists.
  - destruct (acquire (semb s)); by eexists.
  - rewrite decide_True by lia. by eexists.
Qed.

(** When no thread can move, both are done. *)
Lemma sem_stuck_done n0 s :
  inv n0 s -> (forall t, step t s = Ok None) -> i s foo = n0 /\ i s bar = n0 /\
    at_ s foo = Done /\ at_ s bar = Done.
Proof.
  intros (Hn & Hn0 & Hf & Hf0 & Hb & Hb0 & _ & Hrf & Hrb) Hs.
  pose proof (Hs foo) as H1. pose proof (Hs bar) as H2. simpl in H1, H2.
  unfold step_foo, step_bar, acquire, release in *.
  destruct (at_ s foo) eqn:Ef; destruct (at_ s bar) eqn:Eb; simpl in *;
    repeat match goal with H : context [if decide ?P then _ else _] |- _ => destruct (decide P) end;
    simpl in *; try discriminate; try lia; done.
Qed.

Lemma sem_measure_nonneg n0 s : inv n0 s -> 0 <= measure s.
Proof.
  intros (Hn & Hn0 & _ & _ & _ & _ & _ & Hrf & Hrb). unfold measure. rewrite Hn.
  pose proof (sem_round_range _ _ _ Hn0 Hrf). pose proof (sem_round_range _ _ _ Hn0 Hrb).
  destruct (at_ s foo), (at_ s bar); simpl in *; lia.
Qed.

Lemma sem_calls_made n0 s :
  inv n0 s ->
  let k := i s foo + i s bar + given (at_ s foo) + given (at_ s bar) in
  0 <= k <= 2 * n0 /\ out s = alternation k.
Proof.
  intros (_ & Hn0 & _ & ? & _ & ? & Ho & Hrf & Hrb). split; [|exact Ho].
  destruct (at_ s foo), (at_ s bar); simpl in *; lia.
Qed.
End Semaphores.

(** [FooBar] with two semaphores: in every interleaving the calls alternate,
    starting with [printFoo]; no [release] exceeds the maximum of a semaphore;
    every run ends, after at most [6 n + 6] steps; and it ends only when both
    threads have returned, after [n] calls each. *)
Theorem foobar_semaphores n ls s :
  0 <= n -> runs Semaphores.step (Semaphores.FooBar_new n) ls s ->
  (forall t, exists r, Semaphores.step t s = Ok r) /\
  (exists k, 0 <= k <= 2 * n /\ Semaphores.out s = alternation k) /\
  len ls <= 6 * n + 6 /\
  ((forall t, Semaphores.step t s = Ok None) ->
     Semaphores.out s = alternation (2 * n) /\ forall t, Semaphores.at_ s t = Semaphores.Done).
Proof.
  intros Hn Hr. pose proof (Semaphores.sem_inv_new n Hn) as Hi.
  destruct (runs_bounded0 _ _ Semaphores.measure _ _ _ (Semaphores.sem_step_inv n)
              (Semaphores.sem_measure_nonneg n) Hi Hr) as [Hs Hl].
  split_and!.
  - intros t. by eapply Semaphores.sem_step_defined.
  - destruct (Semaphores.sem_calls_made n s Hs) as [Hk Ho]. by eexists.
  - etrans; [exact Hl|]. unfold Semaphores.measure, get. simpl.
    destruct (Semaphores.sem_head_pc_facts n 0); lia.
  - intros Hst. destruct (Semaphores.sem_stuck_done n s Hs Hst) as (E1 & E2 & E3 & E4).
    destruct (Semaphores.sem_calls_made n s Hs) as [_ Ho]. rewrite E1, E2, E3, E4 in Ho. simpl in Ho.
    split; [rewrite Ho; f_equal; lia|by intros []].
Qed.

(** ** [FooBar_1]: an atomic counter, waiting by spinning *)

Module Atomics.
Inductive pc : Type := Spin | Print | Add | Done.

Record FooBar_1 := mkFooBar_1 {
  n : Z;
  ati : Z;
  i : per Z;
  at_ : per pc;
  out : list thread;
}.

Definition head_pc (n i : Z) : pc := if decide (i < n) then Spin else Done.

Definition FooBar_1_new (n : Z) : FooBar_1 := mkFooBar_1 n 0 (Per 0 0) (Per (head_pc n 0) (head_pc n 0)) [].

(** The condition under which a thread goes on spinning. *)
Definition spins (t : thread) (ati : Z) : bool :=
  match t with foo => bool_decide (cmod ati 2 = 1) | bar => bool_decide (cmod ati 2 = 0) end.

(** [FooBar_1::foo] and [FooBar_1::bar]; the addition wraps. *)
Definition step (t : thread) (s : FooBar_1) : outcome (option FooBar_1) :=
  match at_ s t with
  | Spin =>
      if spins t (ati s) then Ok None
      else Ok (Some (mkFooBar_1 (n s) (ati s) (i s) (upd (at_ s) t Print) (out s)))
  | Print => Ok (Some (mkFooBar_1 (n s) (ati s) (i s) (upd (at_ s) t Add) (out s ++ [t])))
  | Add =>
      let i' := i s t + 1 in
      Ok (Some (mkFooBar_1 (n s) (s32 (ati s + 1)) (upd (i s) t i') (upd (at_ s) t (head_pc (n s) i')) (out s)))
  | Done => Ok None
  end.

Definition taken (p : pc) : Z := match p with Print | Add => 1 | _ => 0 end.
Definition given (p : pc) : Z := match p with Add => 1 | _ => 0 end.
Definition round_ok (n0 : Z) (p : pc) (c : Z) : Prop :=
  match p with Done => c = n0 | _ => 0 <= c < n0 end.

(** The counter is the number of finished rounds; who has passed the loop is in turn. *)
Definition inv (n0 : Z) (s : FooBar_1) : Prop :=
  n s = n0 /\ 0 <= n0 /\ 2 * n0 < 2 ^ 31 /\
  ati s = i s foo + i s bar /\ 0 <= i s foo - i s bar <= 1 /\
  (taken (at_ s foo) = 1 -> i s foo = i s bar) /\
  (taken (at_ s bar) = 1 -> i s foo = i s bar + 1) /\
  out s = alternation (ati s + given (at_ s foo) + given (at_ s bar)) /\
  round_ok n0 (at_ s foo) (i s foo) /\ round_ok n0 (at_ s bar) (i s bar).

Definition weight (p : pc) : Z := match p with Spin => 3 | Print => 2 | Add => 1 | Done => 0 end.
Definition measure (s : FooBar_1) : Z :=
  3 * (n s - i s foo) + 3 * (n s - i s bar) + weight (at_ s foo) + weight (at_ s bar).

Lemma atomic_taken_range p : 0 <= given p <= taken p /\ taken p <= 1.
Proof. destruct p; simpl; lia. Qed.

Lemma atomic_round_range n0 p c : 0 <= n0 -> round_ok n0 p c -> 0 <= c <= n0.
Proof. destruct p; simpl; lia. Qed.

Lemma atomic_head_pc_facts n0 c :
  0 <= c <= n0 ->
  taken (head_pc n0 c) = 0 /\ given (head_pc n0 c) = 0 /\ 0 <= weight (head_pc n0 c) <= 3 /\
  round_ok n0 (head_pc n0 c) c.
Proof. intros. unfold head_pc. case_decide; simpl; lia. Qed.

Lemma spins_turn t a b :
  0 <= b -> 0 <= a - b <= 1 -> spins t (a + b) = false <-> match t with foo => a = b | bar => a = b + 1 end.
Proof.
  intros Hb Hab. unfold spins, cmod. rewrite Z.rem_mod_nonneg by lia.
  destruct t; rewrite bool_decide_eq_false; Z.div_mod_to_equations; lia.
Qed.

Lemma atomic_step_inv n0 t s s' :
  inv n0 s -> step t s = Ok (Some s') -> inv n0 s' /\ measure s' + 1 <= measure s.
Proof.
  destruct s as [n1 a c p o]. unfold inv, measure. simpl.
  intros (-> & Hn & Hmax & -> & Hab & Hf & Hb & Ho & Hrf & Hrb) Hs.
  pose proof (atomic_taken_range (p foo)). pose proof (atomic_taken_range (p bar)).
  pose proof (atomic_round_range _ _ _ Hn Hrf). pose proof (atomic_round_range _ _ _ Hn Hrb).
  pose proof (atomic_head_pc_facts n0 (c foo + 1)). pose proof (atomic_head_pc_facts n0 (c bar + 1)).
  pose proof (spins_turn t (c foo) (c bar) ltac:(lia) Hab) as Hturn.
  unfold step in Hs. simpl in Hs. rewrite s32_small in Hs by lia.
  destruct (spins t (c foo + c bar)); destruct t; simpl in Hs;
    [destruct (p foo) eqn:E|destruct (p bar) eqn:E|destruct (p foo) eqn:E|destruct (p bar) eqn:E];
    simpl in *; try discriminate Hs; injection Hs as <-; simpl;
    rewrite ?upd_same, ?upd_other, ?E by done; simpl; split_and!; try done; try lia.
  all: try (apply H3; lia). all: try (apply H4; lia).
  all: try (rewrite Ho; f_equal; lia).
  all: try (rewrite Ho, (call_foo _ (c foo)) by lia; f_equal; lia).
  all: try (rewrite Ho, (call_bar _ (c bar)) by lia; f_equal; lia).
Qed.

Lemma atomic_inv_new n0 : 0 <= n0 -> 2 * n0 < 2 ^ 31 -> inv n0 (FooBar_1_new n0).
Proof.
  intros Hn Hm. unfold inv, get. simpl. destruct (atomic_head_pc_facts n0 0) as (-> & -> & _ & Hr); [lia|].
  split_and!; try done; lia.
Qed.

Lemma atomic_measure_nonneg n0 s : inv n0 s -> 0 <= measure s.
Proof.
  intros (Hn & Hn0 & _ & _ & _ & _ & _ & _ & Hrf & Hrb). unfold measure. rewrite Hn.
  destruct (at_ s foo), (at_ s bar); simpl in *; lia.
Qed.

Lemma atomic_calls_made n0 s :
  inv n0 s ->
  let k := i s foo + i s bar + given (at_ s foo) + given (at_ s bar) in
  0 <= k <= 2 * n0 /\ out s = alternation k.
Proof.
  intros (_ & Hn0 & _ & Ha & _ & _ & _ & Ho & Hrf & Hrb). rewrite Ha in Ho. split; [|exact Ho].
  destruct (at_ s foo), (at_ s bar); simpl in *; lia.
Qed.

Lemma atomic_stuck_done n0 s :
  inv n0 s -> (forall t, step t s = Ok None) -> i s foo = n0 /\ i s bar = n0 /\
    at_ s foo = Done /\ at_ s bar = Done.
Proof.
  intros (Hn & Hn0 & Hmax & Ha & Hab & _ & _ & _ & Hrf & Hrb) Hs.
  pose proof (Hs foo) as H1. pose proof (Hs bar) as H2. unfold step in H1, H2.
  pose proof (atomic_round_range _ _ _ Hn0 Hrb) as Hr.
  pose proof (spins_turn foo (i s foo) (i s bar) ltac:(lia) Hab) as Tf.
  pose proof (spins_turn bar (i s foo) (i s bar) ltac:(lia) Hab) as Tb. rewrite Ha in *.
  destruct (spins foo _), (spins bar _), (at_ s foo) eqn:Ef, (at_ s bar) eqn:Eb; simpl in *;
    try discriminate; try done; exfalso; naive_solver lia.
Qed.
End Atomics.

(** [FooBar_1] with an atomic counter: as long as [2 n] is an [int], the
    calls alternate in every interleaving, starting with [printFoo]; at most
    [6 n + 6] steps are made besides spinning, and when both threads only spin
    or have returned, both have returned, after [n] calls each. *)
Theorem foobar_atomic n ls s :
  0 <= n -> 2 * n < 2 ^ 31 -> runs Atomics.step (Atomics.FooBar_1_new n) ls s ->
  (exists k, 0 <= k <= 2 * n /\ Atomics.out s = alternation k) /\
  len ls <= 6 * n + 6 /\
  ((forall t, Atomics.step t s = Ok None) ->
     Atomics.out s = alternation (2 * n) /\ forall t, Atomics.at_ s t = Atomics.Done).
Proof.
  intros Hn Hm Hr. pose proof (Atomics.atomic_inv_new n Hn Hm) as Hi.
  destruct (runs_bounded0 _ _ Atomics.measure _ _ _ (Atomics.atomic_step_inv n)
              (Atomics.atomic_measure_nonneg n) Hi Hr) as [Hs Hl].
  split_and!.
  - destruct (Atomics.atomic_calls_made n s Hs) as [Hk Ho]. by eexists.
  - etrans; [exact Hl|]. unfold Atomics.measure, get. simpl.
    destruct (Atomics.atomic_head_pc_facts n 0); lia.
  - intros Hst. destruct (Atomics.atomic_stuck_done n s Hs Hst) as (E1 & E2 & E3 & E4).
    destruct (Atomics.atomic_calls_made n s Hs) as [_ Ho]. rewrite E1, E2, E3, E4 in Ho. simpl in Ho.
    split; [rewrite Ho; f_equal; lia|by intros []].
Qed.

(** ** [FooBar_2]: a mutex and a condition variable *)

Module Monitor.
(** [Want]: to lock the mutex, at the start of a round or after waking up;
    [Test]: the condition of [wait]; [Asleep]: in [wait], without the mutex;
    [Unlock]: the end of the scope of [lck]. *)
Inductive pc : Type := Want | Test | Asleep | Print | Incr | Notify | Unlock | Done.

Record FooBar_2 := mkFooBar_2 {
  n : Z;
  cnt : Z;
  mtx : option thread;
  i : per Z;
  at_ : per pc;
  out : list thread;
}.

Definition head_pc (n i : Z) : pc := if decide (i < n) then Want else Done.

Definition FooBar_2_new (n : Z) : FooBar_2 :=
  mkFooBar_2 n 0 None (Per 0 0) (Per (head_pc n 0) (head_pc n 0)) [].

(** The condition passed to [wait]. *)
Definition ready (t : thread) (cnt : Z) : bool :=
  match t with foo => bool_decide (cmod cnt 2 = 0) | bar => bool_decide (cmod cnt 2 = 1) end.

Definition go (t : thread) (p : pc) (s : FooBar_2) : FooBar_2 :=
  mkFooBar_2 (n s) (cnt s) (mtx s) (i s) (upd (at_ s) t p) (out s).
Definition set_mtx (o : option thread) (s : FooBar_2) : FooBar_2 :=
  mkFooBar_2 (n s) (cnt s) o (i s) (at_ s) (out s).

(** [cv.notify_one()]: with two threads only the other one can be waiting. *)
Definition notify_one (t : thread) (s : FooBar_2) : FooBar_2 :=
  match at_ s (other t) with Asleep => go (other t) Want s | _ => s end.

Inductive label : Type := Run (t : thread) | Spurious (t : thread).

(** [FooBar_2::foo] and [FooBar_2::bar], and a spurious wake-up. *)
Definition step (l : label) (s : FooBar_2) : outcome (option FooBar_2) :=
  match l with
  | Spurious t =>
      match at_ s t with Asleep => Ok (Some (go t Want s)) | _ => Ok None end
  | Run t =>
      match at_ s t with
      | Want => match mtx s with None => Ok (Some (go t Test (set_mtx (Some t) s))) | Some _ => Ok None end
      | Test =>
          if ready t (cnt s) then Ok (Some (go t Print s)) else Ok (Some (go t Asleep (set_mtx None s)))
      | Asleep => Ok None
      | Print =>
          Ok (Some (mkFooBar_2 (n s) (cnt s) (mtx s) (i s) (upd (at_ s) t Incr) (out s ++ [t])))
      | Incr =>
          c ← int_add (cnt s) 1;
          Ok (Some (mkFooBar_2 (n s) c (mtx s) (i s) (upd (at_ s) t Notify) (out s)))
      | Notify => Ok (Some (go t Unlock (notify_one t s)))
      | Unlock =>
          let i' := i s t + 1 in
          Ok (Some (mkFooBar_2 (n s) (cnt s) None (upd (i s) t i') (upd (at_ s) t (head_pc (n s) i')) (out s)))
      | Done => Ok None
      end
  end.

Definition holds (p : pc) : Z := match p with Test | Print | Incr | Notify | Unlock => 1 | _ => 0 end.
Definition inturn (p : pc) : Z := match p with Print | Incr => 1 | _ => 0 end.
Definition called (p : pc) : Z := match p with Incr => 1 | _ => 0 end.
Definition counted (p : pc) : Z := match p with Notify | Unlock => 1 | _ => 0 end.
Definition asleep (p : pc) : Z := match p with Asleep => 1 | _ => 0 end.
Definition notifies (p : pc) : Z := match p with Notify => 1 | _ => 0 end.
Definition round_ok (n0 : Z) (p : pc) (c : Z) : Prop :=
  match p with Done => c = n0 | _ => 0 <= c < n0 end.

(** The rounds a thread has counted. *)
Definition rounds (s : FooBar_2) (t : thread) : Z := i s t + counted (at_ s t).

(** The mutex is held by the thread inside; a thread asleep is not in turn, or
    about to be notified. *)
Definition inv (n0 : Z) (s : FooBar_2) : Prop :=
  let a := rounds s foo in let b := rounds s bar in
  (n s = n0 /\ 0 <= n0 /\ 2 * n0 < 2 ^ 31) /\
  cnt s = a + b /\ 0 <= a - b <= 1 /\
  (inturn (at_ s foo) = 1 -> a = b) /\ (inturn (at_ s bar) = 1 -> a = b + 1) /\
  out s = alternation (cnt s + called (at_ s foo) + called (at_ s bar)) /\
  (holds (at_ s foo) + holds (at_ s bar) <= 1 /\
   match mtx s with
   | None => holds (at_ s foo) + holds (at_ s bar) = 0
   | Some foo => holds (at_ s foo) = 1
   | Some bar => holds (at_ s bar) = 1
   end) /\
  (asleep (at_ s foo) = 1 -> a = b + 1 \/ notifies (at_ s bar) = 1) /\
  (asleep (at_ s bar) = 1 -> a = b \/ notifies (at_ s foo) = 1) /\
  round_ok n0 (at_ s foo) (i s foo) /\ round_ok n0 (at_ s bar) (i s bar).

Definition weight (p : pc) : Z :=
  match p with
  | Want => 5 | Test => 4 | Asleep => 3 | Print => 2 | Incr => 1 | Notify => 9 | Unlock => 6 | Done => 0
  end.
Definition measure (s : FooBar_2) : Z :=
  9 * (2 * n s - cnt s) + weight (at_ s foo) + weight (at_ s bar).
Definition extra (l : label) : Z := match l with Spurious _ => 3 | Run _ => 0 end.

Lemma pc_ranges p :
  0 <= called p <= inturn p /\ 0 <= inturn p <= holds p /\ holds p <= 1 /\ 0 <= notifies p <= counted p /\
  0 <= counted p <= holds p /\ 0 <= asleep p /\ asleep p + holds p <= 1 /\ inturn p + counted p <= 1.
Proof. destruct p; simpl; lia. Qed.

Lemma monitor_head_pc_facts n0 c :
  0 <= c <= n0 ->
  holds (head_pc n0 c) = 0 /\ inturn (head_pc n0 c) = 0 /\ called (head_pc n0 c) = 0 /\
  counted (head_pc n0 c) = 0 /\ asleep (head_pc n0 c) = 0 /\ notifies (head_pc n0 c) = 0 /\
  0 <= weight (head_pc n0 c) <= 5 /\ round_ok n0 (head_pc n0 c) c.
Proof. intros. unfold head_pc. case_decide; simpl; lia. Qed.

Lemma rounds_range n0 p c : 0 <= n0 -> round_ok n0 p c -> 0 <= c <= n0 /\ c + counted p <= n0.
Proof. destruct p; simpl; lia. Qed.

Lemma ready_turn t a b :
  0 <= b -> 0 <= a - b <= 1 ->
  if ready t (a + b) then (match t with foo => a = b | bar => a = b + 1 end)
  else (match t with foo => a = b + 1 | bar => a = b end).
Proof.
  intros Hb Hab. unfold ready, cmod. rewrite Z.rem_mod_nonneg by lia.
  destruct t; case_bool_decide; Z.div_mod_to_equations; lia.
Qed.

#[local] Arguments ready : simpl never.

Lemma monitor_step_inv n0 l s s' :
  inv n0 s -> step l s = Ok (Some s') -> inv n0 s' /\ measure s' + 1 <= measure s + extra l.
Proof.
  destruct s as [n1 k m c p o]. unfold inv, measure, rounds. simpl.
  intros ((-> & Hn & Hmax) & -> & Hab & Hf & Hb & Ho & (Hh & Hm) & Haf & Hab' & Hrf & Hrb) Hs.
  pose proof (pc_ranges (p foo)). pose proof (pc_ranges (p bar)).
  pose proof (rounds_range _ _ _ Hn Hrf). pose proof (rounds_range _ _ _ Hn Hrb).
  pose proof (monitor_head_pc_facts n0 (c foo + 1)) as Hcf. pose proof (monitor_head_pc_facts n0 (c bar + 1)) as Hcb.
  destruct l as [t|t].
  - pose proof (ready_turn t (c foo + counted (p foo)) (c bar + counted (p bar)) ltac:(lia) Hab) as Hturn.
    unfold step, int_add in Hs. simpl in Hs.
    destruct t; [destruct (p foo) eqn:E; destruct (p bar) eqn:E'|destruct (p bar) eqn:E; destruct (p foo) eqn:E'];
      simpl in *; try discriminate Hs; try (exfalso; lia);
      try (destruct m as [[|]|]; simpl in *; try discriminate Hs; try (exfalso; lia));
      try (rewrite schk_ok in Hs by (unfold in_s; lia)); simpl in Hs;
      try match type of Hs with context [ready ?t ?k] => destruct (ready t k) end; simpl in Hs; try discriminate Hs; injection Hs as <-;
      unfold notify_one; simpl; rewrite ?E, ?E'; simpl;
      rewrite ?upd_same, ?upd_other, ?E, ?E' by done; simpl.
    all: split_and!; try done; try lia; try (apply Hcf; lia); try (apply Hcb; lia).
    all: try (rewrite Ho; f_equal; lia).
    all: try (rewrite Ho, (call_foo _ (c foo)) by lia; f_equal; lia).
    all: try (rewrite Ho, (call_bar _ (c bar)) by lia; f_equal; lia).
  - unfold step in Hs. simpl in Hs.
    destruct t; [destruct (p foo) eqn:E|destruct (p bar) eqn:E]; try discriminate Hs;
      injection Hs as <-; simpl; rewrite ?upd_same, ?upd_other, ?E by done; simpl in *;
      split_and!; try done; try lia; try (rewrite Ho; f_equal; lia).
    all: destruct m as [[|]|]; lia.
Qed.

Lemma monitor_inv_new n0 : 0 <= n0 -> 2 * n0 < 2 ^ 31 -> inv n0 (FooBar_2_new n0).
Proof.
  intros Hn Hm. unfold inv, rounds, get. simpl.
  destruct (monitor_head_pc_facts n0 0) as (-> & -> & -> & -> & -> & -> & _ & Hr); [lia|].
  split_and!; try done; lia.
Qed.

Lemma monitor_calls_made n0 s :
  inv n0 s ->
  let k := cnt s + called (at_ s foo) + called (at_ s bar) in
  0 <= k <= 2 * n0 /\ out s = alternation k /\ 0 <= cnt s <= 2 * n0.
Proof.
  intros ((_ & Hn0 & _) & Ha & _ & _ & _ & Ho & [Hh _] & _ & _ & Hrf & Hrb). unfold rounds in *.
  split_and!; [..|exact Ho| |]; destruct (at_ s foo), (at_ s bar); simpl in *; lia.
Qed.

Lemma monitor_measure_nonneg n0 s : inv n0 s -> 0 <= measure s.
Proof.
  intros H. destruct (monitor_calls_made n0 s H) as (_ & _ & Hc). destruct H as ((Hn & _) & _). unfold measure. rewrite Hn.
  destruct (at_ s foo), (at_ s bar); simpl; lia.
Qed.

Lemma monitor_step_defined n0 l s : inv n0 s -> exists r, step l s = Ok r.
Proof.
  intros H. destruct (monitor_calls_made n0 s H) as (_ & _ & Hc). destruct H as ((_ & _ & Hmax) & _ & _ & Hf & Hb & _).
  destruct l as [t|t]; unfold step.
  - destruct (at_ s t) eqn:E; try (by eexists).
    + destruct (mtx s); by eexists.
    + destruct (ready t (cnt s)); by eexists.
    + unfold int_add. rewrite schk_ok by (unfold in_s; lia). by eexists.
  - destruct (at_ s t); by eexists.
Qed.

(** When no thread can run, not even after waking up spuriously, both are done:
    nobody sleeps for ever. *)
Lemma monitor_stuck_done n0 s :
  inv n0 s -> (forall t, step (Run t) s = Ok None) ->
  i s foo = n0 /\ i s bar = n0 /\ at_ s foo = Done /\ at_ s bar = Done.
Proof.
  intros H Hs. destruct (monitor_calls_made n0 s H) as (_ & _ & Hc).
  destruct H as ((_ & Hn0 & Hmax) & _ & Hab & _ & _ & _ & [Hh Hm] & Haf & Hb & Hrf & Hrb).
  assert (Hadd : int_add (cnt s) 1 = Ok (cnt s + 1) \/ cnt s + 1 = 2 ^ 31).
  { destruct (decide (cnt s + 1 = 2 ^ 31)); [by right|left]. apply schk_ok. unfold in_s. lia. }
  pose proof (Hs foo) as H1. pose proof (Hs bar) as H2. unfold step in H1, H2.
  destruct Hadd as [Hadd|]; [rewrite Hadd in *|lia]. unfold rounds in *.
  destruct (at_ s foo) eqn:Ef, (at_ s bar) eqn:Eb; simpl in *; try discriminate; try lia; try done;
    try (destruct (ready _ _); discriminate);
    destruct (mtx s) as [[|]|]; simpl in *; try discriminate; lia.
Qed.
End Monitor.

(** [FooBar_2] with a mutex and a condition variable: as long as [2 n] is an
    [int], in every interleaving, spurious wake-ups included, the calls
    alternate, starting with [printFoo]; no step is undefined; a run makes at
    most [18 n + 10] steps, and three more for every spurious wake-up; and it stops
    only when both threads have returned, after [n] calls each: no notification
    is lost. *)
Theorem foobar_monitor n ls s :
  0 <= n -> 2 * n < 2 ^ 31 -> runs Monitor.step (Monitor.FooBar_2_new n) ls s ->
  (forall l, exists r, Monitor.step l s = Ok r) /\
  (exists k, 0 <= k <= 2 * n /\ Monitor.out s = alternation k) /\
  len ls <= 18 * n + 10 + foldr (fun l m => Monitor.extra l + m) 0 ls /\
  ((forall t, Monitor.step (Monitor.Run t) s = Ok None) ->
     Monitor.out s = alternation (2 * n) /\ forall t, Monitor.at_ s t = Monitor.Done).
Proof.
  intros Hn Hm Hr. pose proof (Monitor.monitor_inv_new n Hn Hm) as Hi.
  assert (Hs : Monitor.inv n s).
  { eapply runs_invariant; [|exact Hi|exact Hr]. intros l s1 s2 H1 H2. by eapply Monitor.monitor_step_inv. }
  split_and!.
  - intros l. by eapply Monitor.monitor_step_defined.
  - destruct (Monitor.monitor_calls_made n s Hs) as (Hk & Ho & _). by eexists.
  - etrans; [eapply runs_bounded; [apply (Monitor.monitor_step_inv n)|apply (Monitor.monitor_measure_nonneg n)|exact Hi|exact Hr]|].
    unfold Monitor.measure, get. simpl. destruct (Monitor.monitor_head_pc_facts n 0); lia.
  - intros Hst. destruct (Monitor.monitor_stuck_done n s Hs Hst) as (E1 & E2 & E3 & E4).
    destruct (Monitor.monitor_calls_made n s Hs) as (_ & Ho & _).
    destruct Hs as (_ & Hc & _). unfold Monitor.rounds in Hc. rewrite E1, E2, E3, E4 in Hc.
    rewrite E3, E4, Hc in Ho. simpl in Ho. split; [rewrite Ho; f_equal; lia|by intros []].
Qed.

(** ** [main]: ten rounds of [FooBar_2] *)

Definition main_fb : Monitor.FooBar_2 := Monitor.FooBar_2_new 10.
Definition print_call (t : thread) : bytes := match t with foo => str "foo," | bar => str "bar," end.
Definition main_output (s : Monitor.FooBar_2) : bytes := concat (map print_call (Monitor.out s)).

(** ** Witnesses *)

(** A schedule that runs to the end. *)
Definition ends {St L} (step : L -> St -> outcome (option St)) (run : thread -> L) (ls : list L) (s0 : St) : Prop :=
  exists s, execute step ls s0 = Some s /\ forall t, step (run t) s = Ok None.

Definition demo_turns : list thread := [foo; foo; foo; bar; bar; bar].

Lemma foobar_semaphores_witness :
  exists s, runs Semaphores.step (Semaphores.FooBar_new 1) demo_turns s /\ Semaphores.out s = [foo; bar].
Proof.
  assert (E : ends Semaphores.step id demo_turns (Semaphores.FooBar_new 1)).
  { eexists. split; [vm_compute; reflexivity|]. intros []; reflexivity. }
  destruct E as (s & E & Hst). apply execute_runs in E. exists s. split; [exact E|].
  exact (proj1 (proj2 (proj2 (proj2 (foobar_semaphores 1 _ s ltac:(lia) E))) Hst)).
Defined.

Lemma foobar_atomic_witness :
  exists s, runs Atomics.step (Atomics.FooBar_1_new 1) demo_turns s /\ Atomics.out s = [foo; bar].
Proof.
  assert (E : ends Atomics.step id demo_turns (Atomics.FooBar_1_new 1)).
  { eexists. split; [vm_compute; reflexivity|]. intros []; reflexivity. }
  destruct E as (s & E & Hst). apply execute_runs in E. exists s. split; [exact E|].
  exact (proj1 (proj2 (proj2 (foobar_atomic 1 _ s ltac:(lia) ltac:(lia) E)) Hst)).
Defined.

(** [bar] comes first and falls asleep. *)
Definition demo_schedule : list Monitor.label :=
  map Monitor.Run ([bar; bar] ++ replicate 6 foo ++ replicate 6 bar).

Lemma foobar_monitor_witness :
  exists s, runs Monitor.step (Monitor.FooBar_2_new 1) demo_schedule s /\ main_output s = str "foo,bar,".
Proof.
  assert (E : ends Monitor.step Monitor.Run demo_schedule (Monitor.FooBar_2_new 1)).
  { eexists. split; [vm_compute; reflexivity|]. intros []; reflexivity. }
  destruct E as (s & E & Hst). apply execute_runs in E. exists s. split; [exact E|].
  unfold main_output.
  rewrite (proj1 (proj2 (proj2 (proj2 (foobar_monitor 1 _ s ltac:(lia) ltac:(lia) E))) Hst)). reflexivity.
Defined.
