(* ===== verification/FizzBuzz.v ===== *)
(** * FizzBuzz with four threads ([any/concurrency/LT_1195_fizzbuzz.cpp])

    [FizzBuzz] with a mutex and a condition variable, [FizzBuzz_] with an atomic
    counter.  The four members run as threads; a step is one access to shared
    data, as in [Turns]. *)

From S2P Require Import Prelude CppInt CText Turns.

Inductive role : Type := fizz | buzz | fizzbuzz | number.

#[export] Instance role_eq_dec : EqDecision role.
Proof. solve_decision. Defined.

Record per4 (A : Type) := Per4 { of_fizz : A; of_buzz : A; of_fizzbuzz : A; of_number : A }.
Arguments Per4 {A}.
Arguments of_fizz {A}.
Arguments of_buzz {A}.
Arguments of_fizzbuzz {A}.
Arguments of_number {A}.

Definition get4 {A} (p : per4 A) (r : role) : A :=
  match r with fizz => of_fizz p | buzz => of_buzz p | fizzbuzz => of_fizzbuzz p | number => of_number p end.
Coercion get4 : per4 >-> Funclass.
Definition upd4 {A} (p : per4 A) (r : role) (a : A) : per4 A :=
  let 'Per4 f b fb nu := p in
  match r with
  | fizz => Per4 a b fb nu
  | buzz => Per4 f a fb nu
  | fizzbuzz => Per4 f b a nu
  | number => Per4 f b fb a
  end.
Definition map4 {A B} (f : A -> B) (p : per4 A) : per4 B :=
  Per4 (f (p fizz)) (f (p buzz)) (f (p fizzbuzz)) (f (p number)).
Definition const4 {A} (a : A) : per4 A := Per4 a a a a.
#[global] Arguments get4 : simpl never.
#[global] Arguments upd4 : simpl never.

Lemma upd4_same {A} (p : per4 A) r a : upd4 p r a r = a.
Proof. by destruct p, r. Qed.
Lemma upd4_other {A} (p : per4 A) r a q : q <> r -> upd4 p r a q = p q.
Proof. by destruct p, r, q. Qed.
Lemma map4_get {A B} (f : A -> B) p r : map4 f p r = f (p r).
Proof. by destruct p, r. Qed.

(** Case analysis on a thread: the one that moved, or another. *)
Ltac role_cases r :=
  let q := fresh "q" in
  intros q; destruct (decide (q = r)) as [->|?];
  [rewrite ?upd4_same|rewrite ?upd4_other by done]; simpl.

(** ** The specification *)

Inductive call : Type := PrintFizz | PrintBuzz | PrintFizzBuzz | PrintNumber (x : Z).

Definition call_of (i : Z) : call :=
  if decide (i mod 15 = 0) then PrintFizzBuzz
  else if decide (i mod 3 = 0) then PrintFizz
  else if decide (i mod 5 = 0) then PrintBuzz
  else PrintNumber i.

Definition calls_upto (k : Z) : list call := map call_of (seqZ 1 k).

Lemma calls_snoc k : 0 <= k -> calls_upto (k + 1) = calls_upto k ++ [call_of (k + 1)].
Proof. intros. unfold calls_upto. rewrite seqZ_app, map_app by lia. by rewrite Z.add_comm. Qed.

(** The call a thread makes, and when it is in turn. *)
Definition call_by (r : role) (x : Z) : call :=
  match r with
  | fizz => PrintFizz | buzz => PrintBuzz | fizzbuzz => PrintFizzBuzz | number => PrintNumber x
  end.

(** The conditions of [FizzBuzz]. *)
Definition turn (r : role) (idx : Z) : bool :=
  match r with
  | fizz => bool_decide (cmod idx 3 = 0) && bool_decide (cmod idx 5 <> 0)
  | buzz => bool_decide (cmod idx 3 <> 0) && bool_decide (cmod idx 5 = 0)
  | fizzbuzz => bool_decide (cmod idx 3 = 0) && bool_decide (cmod idx 5 = 0)
  | number => bool_decide (cmod idx 3 <> 0) && bool_decide (cmod idx 5 <> 0)
  end.

Lemma turn_call r i : 0 <= i -> turn r i = true -> call_by r i = call_of i.
Proof.
  intros Hi. unfold turn, call_of, cmod. rewrite !Z.rem_mod_nonneg by lia.
  destruct r; rewrite andb_true_iff, !bool_decide_eq_true; intros [H1 H2];
    repeat case_decide; try done; exfalso; Z.div_mod_to_equations; lia.
Qed.

Lemma turn_exists i : 0 <= i -> exists r, turn r i = true.
Proof.
  intros Hi. unfold turn, cmod. rewrite !Z.rem_mod_nonneg by lia.
  destruct (decide (i mod 3 = 0)); destruct (decide (i mod 5 = 0));
    [exists fizzbuzz|exists fizz|exists buzz|exists number]; rewrite andb_true_iff, !bool_decide_eq_true; done.
Qed.

Lemma turn_unique r q i : turn r i = true -> turn q i = true -> r = q.
Proof. unfold turn. destruct r, q; rewrite !andb_true_iff, !bool_decide_eq_true; tauto. Qed.

(** ** [FizzBuzz]: a mutex and a condition variable *)

Module Monitor4.
(** [Want]: to lock the mutex; [Test]: the condition of [wait]; [Asleep]: in
    [wait], without the mutex; [Leave]: [notify_one] before [return]; [Exit]
    and [Unlock]: the ends of the scope of [lck]. *)
Inductive pc : Type := Want | Test | Asleep | Print | Incr | NotifyAll | Unlock | Leave | Exit | Done.

#[export] Instance pc_eq_dec : EqDecision pc.
Proof. solve_decision. Defined.

Record FizzBuzz := mkFizzBuzz {
  n : Z;
  mtx : option role;
  idx : Z;
  at_ : per4 pc;
  out : list call;
}.

Definition FizzBuzz_new (n : Z) : FizzBuzz := mkFizzBuzz n None 1 (const4 Want) [].

(** The condition passed to [wait]. *)
Definition ready (r : role) (s : FizzBuzz) : bool := bool_decide (idx s > n s) || turn r (idx s).

Definition go (r : role) (p : pc) (s : FizzBuzz) : FizzBuzz :=
  mkFizzBuzz (n s) (mtx s) (idx s) (upd4 (at_ s) r p) (out s).
Definition set_mtx (o : option role) (s : FizzBuzz) : FizzBuzz :=
  mkFizzBuzz (n s) o (idx s) (at_ s) (out s).

Definition wake (p : pc) : pc := match p with Asleep => Want | p => p end.
(** [cv.notify_all()] *)
Definition notify_all (s : FizzBuzz) : FizzBuzz :=
  mkFizzBuzz (n s) (mtx s) (idx s) (map4 wake (at_ s)) (out s).
(** [cv.notify_one()] wakes one of the waiting threads [q], if there is one. *)
Definition may_wake (q : role) (s : FizzBuzz) : Prop :=
  at_ s q = Asleep \/
  (at_ s fizz <> Asleep /\ at_ s buzz <> Asleep /\ at_ s fizzbuzz <> Asleep /\ at_ s number <> Asleep).
#[export] Instance may_wake_dec q s : Decision (may_wake q s).
Proof. unfold may_wake. apply _. Defined.
Definition notify_one (q : role) (s : FizzBuzz) : FizzBuzz := go q (wake (at_ s q)) s.

(** [Run r q]: thread [r] runs, and wakes [q] if it calls [notify_one]. *)
Inductive label : Type := Run (r q : role) | Spurious (r : role).

(** [fizz], [buzz], [fizzbuzz] and [number], and a spurious wake-up. *)
Definition step (l : label) (s : FizzBuzz) : outcome (option FizzBuzz) :=
  match l with
  | Spurious r => match at_ s r with Asleep => Ok (Some (go r Want s)) | _ => Ok None end
  | Run r q =>
      match at_ s r with
      | Want => match mtx s with None => Ok (Some (go r Test (set_mtx (Some r) s))) | Some _ => Ok None end
      | Test =>
          if ready r s
          then Ok (Some (go r (if decide (idx s > n s) then Leave else Print) s))
          else Ok (Some (go r Asleep (set_mtx None s)))
      | Asleep => Ok None
      | Print =>
          Ok (Some (mkFizzBuzz (n s) (mtx s) (idx s) (upd4 (at_ s) r Incr) (out s ++ [call_by r (idx s)])))
      | Incr =>
          i ← int_add (idx s) 1;
          Ok (Some (mkFizzBuzz (n s) (mtx s) i (upd4 (at_ s) r NotifyAll) (out s)))
      | NotifyAll => Ok (Some (go r Unlock (notify_all s)))
      | Unlock => Ok (Some (go r Want (set_mtx None s)))
      | Leave => if decide (may_wake q s) then Ok (Some (go r Exit (notify_one q s))) else Ok None
      | Exit => Ok (Some (go r Done (set_mtx None s)))
      | Done => Ok None
      end
  end.

Definition holds (p : pc) : bool :=
  match p with Test | Print | Incr | NotifyAll | Unlock | Leave | Exit => true | _ => false end.
Definition inturn (p : pc) : bool := match p with Print | Incr => true | _ => false end.
Definition finishing (p : pc) : bool := match p with Leave | Exit | Done => true | _ => false end.

(** Whether the thread inside has made its call and not counted it yet. *)
Definition called (s : FizzBuzz) : Z :=
  match mtx s with
  | Some r => match at_ s r with Incr => 1 | _ => 0 end
  | None => 0
  end.

(** The mutex is held by the thread inside; a thread asleep has nothing to do, or
    everybody is about to be notified. *)
Definition base (n0 : Z) (s : FizzBuzz) : Prop :=
  (n s = n0 /\ 0 <= n0 /\ n0 + 1 < 2 ^ 31 /\ 1 <= idx s <= n0 + 1) /\
  (forall r, holds (at_ s r) = true <-> mtx s = Some r) /\
  (forall r, inturn (at_ s r) = true -> idx s <= n0 /\ turn r (idx s) = true) /\
  (forall r, finishing (at_ s r) = true -> n0 < idx s) /\
  (forall r, at_ s r = Asleep ->
     (idx s <= n0 /\ turn r (idx s) = false) \/ exists q, at_ s q = NotifyAll).
Definition inv (n0 : Z) (s : FizzBuzz) : Prop :=
  base n0 s /\ out s = calls_upto (idx s - 1 + called s).

Definition weight (p : pc) : Z :=
  match p with
  | Want => 5 | Test => 4 | Asleep => 3 | Print => 2 | Incr => 1 | NotifyAll => 13 | Unlock => 6
  | Leave => 2 | Exit => 1 | Done => 0
  end.
Definition total (p : per4 pc) : Z :=
  weight (p fizz) + weight (p buzz) + weight (p fizzbuzz) + weight (p number).
Definition measure (s : FizzBuzz) : Z := 13 * (n s + 1 - idx s) + total (at_ s).
Definition extra (l : label) : Z := match l with Spurious _ => 3 | _ => 0 end.

Lemma total_upd p r a : total (upd4 p r a) = total p - weight (p r) + weight a.
Proof. destruct p, r; unfold total, upd4, get4; simpl; lia. Qed.

Lemma weight_range p : 0 <= weight p /\ weight (wake p) <= weight p + 2.
Proof. destruct p; simpl; lia. Qed.

Lemma total_wake (p : per4 pc) r : p r = NotifyAll -> total (map4 wake p) <= total p + 6.
Proof.
  intros H. unfold total. rewrite !map4_get. pose proof (weight_range (p fizz)). pose proof (weight_range (p buzz)).
  pose proof (weight_range (p fizzbuzz)). pose proof (weight_range (p number)).
  destruct r; rewrite H in *; simpl in *; lia.
Qed.

Lemma total_nonneg p : 0 <= total p.
Proof.
  unfold total. pose proof (weight_range (p fizz)). pose proof (weight_range (p buzz)).
  pose proof (weight_range (p fizzbuzz)). pose proof (weight_range (p number)). lia.
Qed.

(** A thread moves, perhaps in or out of the mutex. *)
Lemma base_go n0 s r p o :
  base n0 s ->
  (mtx s = None /\ o = Some r /\ holds p = true \/
   mtx s = Some r /\ o = Some r /\ holds p = true \/
   mtx s = Some r /\ o = None /\ holds p = false) ->
  (inturn p = true -> idx s <= n0 /\ turn r (idx s) = true) ->
  (finishing p = true -> n0 < idx s) ->
  (p = Asleep -> idx s <= n0 /\ turn r (idx s) = false) ->
  at_ s r <> NotifyAll ->
  base n0 (go r p (set_mtx o s)).
Proof.
  intros (Hn & Hm & Ht & Hf & Ha) Hcase Hp Hfin Hs Hna. unfold base. simpl.
  split; [exact Hn|]. split_and!.
  - role_cases r.
    + destruct Hcase as [(_&->&->)|[(_&->&->)|(_&->&->)]]; done.
    + rewrite Hm. destruct Hcase as [(->&->&_)|[(->&->&_)|(->&->&_)]]; split; congruence.
  - role_cases r; [exact Hp|apply Ht].
  - role_cases r; [done|apply Hf].
  - role_cases r; [auto|]. intros H. destruct (Ha q H) as [|[q' Hq']]; [by left|right]. exists q'.
    rewrite upd4_other; [done|]. intros ->. by rewrite Hq' in Hna.
Qed.

Lemma set_same s r : mtx s = Some r -> set_mtx (Some r) s = s.
Proof. destruct s; simpl. by intros ->. Qed.

Lemma ready_true n0 r s :
  base n0 s -> ready r s = true ->
  n0 < idx s \/ (idx s <= n0 /\ turn r (idx s) = true).
Proof.
  intros ((Hn & _) & _) H. unfold ready in H. rewrite Hn in H. apply orb_true_iff in H as [H|H].
  - left. apply bool_decide_eq_true in H. lia.
  - destruct (decide (n0 < idx s)); [by left|right; split; [lia|done]].
Qed.

Lemma ready_false n0 r s : base n0 s -> ready r s = false -> idx s <= n0 /\ turn r (idx s) = false.
Proof.
  intros ((Hn & _) & _) H. unfold ready in H. rewrite Hn in H. apply orb_false_iff in H as [H1 H2].
  apply bool_decide_eq_false in H1. split; [lia|done].
Qed.

(** The calls are counted as long as the thread inside is not between the two. *)
Lemma called_other s r p : mtx s = Some r -> at_ s r = p -> p <> Incr -> called s = 0.
Proof. unfold called. intros -> -> ?. by destruct p. Qed.

(** The thread whose turn it is counts its call. *)
Lemma base_incr n0 s r :
  base n0 s -> at_ s r = Incr ->
  base n0 (mkFizzBuzz (n s) (mtx s) (idx s + 1) (upd4 (at_ s) r NotifyAll) (out s)).
Proof.
  intros (Hn & Hm & Ht & Hf & Ha) Hr.
  assert (Hmr : mtx s = Some r) by (apply Hm; by rewrite Hr).
  destruct (Ht r) as [Hle _]; [by rewrite Hr|]. unfold base. simpl. split; [lia|]. split_and!.
  - role_cases r; [done|apply Hm].
  - role_cases r; [done|]. intros H. assert (mtx s = Some q) by (apply Hm; by destruct (at_ s q)). congruence.
  - role_cases r; [done|]. intros H. specialize (Hf q H). lia.
  - role_cases r; [done|]. intros _. right. exists r. by rewrite upd4_same.
Qed.

Lemma base_notify_all n0 s r :
  base n0 s -> at_ s r = NotifyAll -> base n0 (go r Unlock (notify_all s)).
Proof.
  intros (Hn & Hm & Ht & Hf & Ha) Hr. unfold base. simpl. split; [exact Hn|]. split_and!.
  - role_cases r; [rewrite <- Hm, Hr; done|]. rewrite map4_get, <- Hm. by destruct (at_ s q).
  - role_cases r; [done|]. rewrite map4_get. intros H. apply Ht. by destruct (at_ s q).
  - role_cases r; [done|]. rewrite map4_get. intros H. apply (Hf q). by destruct (at_ s q).
  - role_cases r; [done|]. rewrite map4_get. by destruct (at_ s q).
Qed.

(** Nobody sleeps any more when a thread leaves. *)
Lemma leave_nobody_asleep n0 s r q : base n0 s -> at_ s r = Leave -> at_ s q <> Asleep.
Proof.
  intros (Hn & Hm & Ht & Hf & Ha) Hr Hq. assert (n0 < idx s) by (apply (Hf r); by rewrite Hr).
  destruct (Ha q Hq) as [[? _]|[q' Hq']]; [lia|].
  assert (mtx s = Some r) by (apply Hm; by rewrite Hr).
  assert (mtx s = Some q') by (apply Hm; by rewrite Hq'). congruence.
Qed.

Lemma notify_one_idle q s : at_ s q <> Asleep -> notify_one q s = s.
Proof.
  destruct s as [n1 m i p o]. unfold notify_one, go. simpl. intros H.
  assert (E : wake (p q) = p q) by (by destruct (p q)). rewrite E. f_equal. by destruct p, q.
Qed.

Lemma base_spurious n0 s r : base n0 s -> at_ s r = Asleep -> base n0 (go r Want s).
Proof.
  intros (Hn & Hm & Ht & Hf & Ha) Hr. unfold base. simpl. split; [exact Hn|]. split_and!.
  - role_cases r; [rewrite <- Hm, Hr; done|apply Hm].
  - role_cases r; [done|apply Ht].
  - role_cases r; [done|apply Hf].
  - role_cases r; [done|]. intros H. destruct (Ha q H) as [|[q' Hq']]; [by left|right]. exists q'.
    rewrite upd4_other; [done|congruence].
Qed.

Lemma monitor4_step_inv n0 l s s' :
  inv n0 s -> step l s = Ok (Some s') -> inv n0 s' /\ measure s' + 1 <= measure s + extra l.
Proof.
  intros [Hb Ho] Hs. pose proof Hb as ((Hn & Hn0 & Hmax & Hi) & Hm & Ht & Hf & Ha).
  assert (Hhold : forall r, holds (at_ s r) = true -> mtx s = Some r) by (intros r; apply Hm).
  unfold inv, measure. destruct l as [r q|r]; simpl in Hs; destruct (at_ s r) eqn:Er; try discriminate Hs.
  all: try (assert (Hmr : mtx s = Some r) by (apply Hhold; by rewrite Er)).
  all: try (assert (Hc0 : called s = 0) by (by eapply called_other)).
  - destruct (mtx s) eqn:Em; [discriminate|]. injection Hs as <-. split; [split|].
    + apply base_go; try done; [by left|by rewrite Er].
    + simpl. rewrite Ho. unfold called. simpl. by rewrite Em, upd4_same.
    + simpl. rewrite total_upd, Er. simpl. lia.
  - destruct (ready r s) eqn:Erd; injection Hs as <-.
    + destruct (ready_true n0 r s Hb Erd) as [Hgt|[Hle Htr]].
      * rewrite decide_True by lia. split; [split|].
        -- rewrite <- (set_same s r Hmr). apply base_go; try done; [right; left; done|by rewrite Er].
        -- simpl. rewrite Ho, Hc0. unfold called. simpl. by rewrite Hmr, upd4_same.
        -- simpl. rewrite total_upd, Er. simpl. lia.
      * rewrite decide_False by lia. split; [split|].
        -- rewrite <- (set_same s r Hmr). apply base_go; try done; [right; left; done|by rewrite Er].
        -- simpl. rewrite Ho, Hc0. unfold called. simpl. by rewrite Hmr, upd4_same.
        -- simpl. rewrite total_upd, Er. simpl. lia.
    + split; [split|].
      * apply base_go; try done; [right; right; done|by intros; apply ready_false|by rewrite Er].
      * simpl. rewrite Ho, Hc0. reflexivity.
      * simpl. rewrite total_upd, Er. simpl. lia.
  - destruct (Ht r) as [Hle Htr]; [by rewrite Er|]. injection Hs as <-. split; [split|].
    + change (base n0 (go r Incr s)). rewrite <- (set_same s r Hmr).
      apply base_go; try done; [right; left; done|by rewrite Er].
    + simpl. rewrite Ho, Hc0, Z.add_0_r. unfold called. simpl. rewrite Hmr, upd4_same.
      rewrite calls_snoc by lia. rewrite turn_call by (done || lia). by replace (idx s - 1 + 1) with (idx s) by lia.
    + simpl. rewrite total_upd, Er. simpl. lia.
  - destruct (Ht r) as [Hle Htr]; [by rewrite Er|].
    unfold int_add in Hs. rewrite schk_ok in Hs by (unfold in_s; lia). injection Hs as <-. split; [split|].
    + by apply base_incr.
    + simpl. rewrite Ho. unfold called. simpl. rewrite Hmr, upd4_same, Er. f_equal. lia.
    + simpl. rewrite total_upd, Er. simpl. lia.
  - injection Hs as <-. split; [split|].
    + by apply base_notify_all.
    + simpl. rewrite Ho, Hc0. unfold called. simpl. by rewrite Hmr, upd4_same.
    + simpl. rewrite total_upd, map4_get, Er. simpl. pose proof (total_wake (at_ s) r Er). lia.
  - injection Hs as <-. split; [split|].
    + apply base_go; try done; [right; right; done|by rewrite Er].
    + simpl. by rewrite Ho, Hc0.
    + simpl. rewrite total_upd, Er. simpl. lia.
  - case_decide; [|discriminate]. injection Hs as <-.
    rewrite notify_one_idle by (by eapply leave_nobody_asleep).
    assert (Hgt : n0 < idx s) by (apply (Hf r); by rewrite Er). split; [split|].
    + rewrite <- (set_same s r Hmr). apply base_go; try done; [right; left; done|by rewrite Er].
    + simpl. rewrite Ho, Hc0. unfold called. simpl. by rewrite Hmr, upd4_same.
    + simpl. rewrite total_upd, Er. simpl. lia.
  - injection Hs as <-. assert (Hgt : n0 < idx s) by (apply (Hf r); by rewrite Er). split; [split|].
    + apply base_go; try done; [right; right; done|by rewrite Er].
    + simpl. by rewrite Ho, Hc0.
    + simpl. rewrite total_upd, Er. simpl. lia.
  - injection Hs as <-. split; [split|].
    + by apply base_spurious.
    + simpl. rewrite Ho. f_equal. f_equal. unfold called. simpl. destruct (mtx s) as [q|] eqn:Em; [|done].
      rewrite upd4_other; [done|]. intros ->. pose proof (proj2 (Hm r) eq_refl) as H. by rewrite Er in H.
    + simpl. rewrite total_upd, Er. simpl. lia.
Qed.

Lemma monitor4_inv_new n0 : 0 <= n0 -> n0 + 1 < 2 ^ 31 -> inv n0 (FizzBuzz_new n0).
Proof.
  intros Hn Hm. split; [|reflexivity]. split; [simpl; lia|]. split_and!; intros []; done.
Qed.

Lemma monitor4_measure_nonneg n0 s : inv n0 s -> 0 <= measure s.
Proof.
  intros [((Hn & _ & _ & Hi) & _) _]. unfold measure. rewrite Hn. pose proof (total_nonneg (at_ s)). lia.
Qed.

Lemma monitor4_calls_made n0 s : inv n0 s -> exists k, 0 <= k <= n0 /\ out s = calls_upto k.
Proof.
  intros [((Hn & Hn0 & _ & Hi) & Hm & Ht & _) Ho]. eexists. split; [|exact Ho]. unfold called.
  destruct (mtx s) as [r|]; [|lia]. destruct (at_ s r) eqn:E; try lia.
  destruct (Ht r); [by rewrite E|lia].
Qed.

Lemma monitor4_step_defined n0 l s : inv n0 s -> exists r, step l s = Ok r.
Proof.
  intros [((_ & _ & Hmax & Hi) & _ & Ht & _) _]. destruct l as [r q|r]; simpl; destruct (at_ s r) eqn:E;
    try (by eexists).
  - destruct (mtx s); by eexists.
  - destruct (ready r s); by eexists.
  - destruct (Ht r); [by rewrite E|]. unfold int_add. rewrite schk_ok by (unfold in_s; lia). by eexists.
  - case_decide; by eexists.
Qed.

(** When no thread can run, all have returned. *)
Lemma monitor4_stuck_done n0 s :
  inv n0 s -> (forall r q, step (Run r q) s = Ok None) ->
  n0 < idx s /\ mtx s = None /\ forall r, at_ s r = Done.
Proof.
  intros Hinv Hs. pose proof Hinv as [Hb _]. pose proof Hb as ((Hn & Hn0 & Hmax & Hi) & Hm & Ht & Hf & Ha).
  assert (Hnone : mtx s = None).
  { destruct (mtx s) as [r|] eqn:Em; [exfalso|done]. pose proof (proj2 (Hm r) eq_refl) as Hh.
    pose proof (Hs r r) as H. simpl in H. destruct (at_ s r) eqn:E; try discriminate.
    - destruct (ready r s); discriminate.
    - destruct (monitor4_step_defined n0 (Run r r) s Hinv) as [x Hx]. simpl in Hx. rewrite E in Hx.
      destruct (int_add (idx s) 1); discriminate.
    - rewrite decide_True in H; [discriminate|]. right.
      split_and!; by eapply leave_nobody_asleep. }
  assert (Hcases : forall r, at_ s r = Asleep \/ at_ s r = Done).
  { intros r. pose proof (Hs r r) as H. simpl in H.
    assert (Hh : holds (at_ s r) = false) by (apply not_true_is_false; rewrite Hm, Hnone; done).
    rewrite Hnone in H. destruct (at_ s r) eqn:E; try done; [by left|by right]. }
  assert (Hidx : n0 < idx s).
  { destruct (turn_exists (idx s) ltac:(lia)) as [r Hr]. destruct (Hcases r) as [E|E].
    - destruct (Ha r E) as [[_ H]|[q H]]; [congruence|]. destruct (Hcases q); congruence.
    - apply (Hf r). by rewrite E. }
  split; [done|]. split; [done|]. intros r. destruct (Hcases r) as [E|E]; [exfalso|done].
  destruct (Ha r E) as [[? _]|[q H]]; [lia|]. destruct (Hcases q); congruence.
Qed.
End Monitor4.

(** [FizzBuzz]: for [n] below [INT_MAX], in every interleaving of the four
    threads, spurious wake-ups included, the calls made are those of the numbers
    from 1 on, in order; no step is undefined; a run makes at most
    [13 n + 20] steps, and three more for every spurious wake-up; and it stops only
    when all four threads have returned, after the calls for 1 to [n]. *)
Theorem fizzbuzz_monitor n ls s :
  0 <= n -> n + 1 < 2 ^ 31 -> runs Monitor4.step (Monitor4.FizzBuzz_new n) ls s ->
  (forall l, exists r, Monitor4.step l s = Ok r) /\
  (exists k, 0 <= k <= n /\ Monitor4.out s = calls_upto k) /\
  len ls <= 13 * n + 20 + foldr (fun l m => Monitor4.extra l + m) 0 ls /\
  ((forall r q, Monitor4.step (Monitor4.Run r q) s = Ok None) ->
     Monitor4.out s = calls_upto n /\ forall r, Monitor4.at_ s r = Monitor4.Done).
Proof.
  intros Hn Hm Hr. pose proof (Monitor4.monitor4_inv_new n Hn Hm) as Hi.
  assert (Hs : Monitor4.inv n s).
  { eapply runs_invariant; [|exact Hi|exact Hr]. intros l s1 s2 H1 H2. by eapply Monitor4.monitor4_step_inv. }
  split_and!.
  - intros l. by eapply Monitor4.monitor4_step_defined.
  - by apply Monitor4.monitor4_calls_made.
  - etrans; [eapply runs_bounded; [apply (Monitor4.monitor4_step_inv n)|apply (Monitor4.monitor4_measure_nonneg n)|exact Hi|exact Hr]|].
    unfold Monitor4.measure, Monitor4.total. simpl. lia.
  - intros Hst. destruct (Monitor4.monitor4_stuck_done n s Hs Hst) as (H1 & H2 & H3). split; [|exact H3].
    destruct Hs as [((_ & _ & _ & Hidx) & _) Ho]. rewrite Ho. unfold Monitor4.called. rewrite H2. f_equal. lia.
Qed.

(** ** [FizzBuzz_]: an atomic counter *)

Module Atomic4.
(** [Head]: the load and the tests of the local [t2]. *)
Inductive pc : Type := Head | Print (t2 : Z) | Add | Done.

Record FizzBuzz_ := mkFizzBuzz_ {
  n : Z;
  ati : Z;
  at_ : per4 pc;
  out : list call;
}.

Definition FizzBuzz__new (n : Z) : FizzBuzz_ := mkFizzBuzz_ n 1 (const4 Head) [].

(** The tests of the four members. *)
Definition turn_ (r : role) (t2 : Z) : bool :=
  match r with fizzbuzz => bool_decide (cmod t2 15 = 0) | _ => turn r t2 end.

Definition go (r : role) (p : pc) (s : FizzBuzz_) : FizzBuzz_ :=
  mkFizzBuzz_ (n s) (ati s) (upd4 (at_ s) r p) (out s).

(** [fizz], [buzz], [fizzbuzz] and [number]; a round of the loop that finds
    nothing to do has no effect; the addition wraps. *)
Definition step (r : role) (s : FizzBuzz_) : outcome (option FizzBuzz_) :=
  match at_ s r with
  | Head =>
      let t2 := ati s in
      if decide (t2 > n s) then Ok (Some (go r Done s))
      else if turn_ r t2 then Ok (Some (go r (Print t2) s))
      else Ok None
  | Print t2 => Ok (Some (mkFizzBuzz_ (n s) (ati s) (upd4 (at_ s) r Add) (out s ++ [call_by r t2])))
  | Add => Ok (Some (mkFizzBuzz_ (n s) (s32 (ati s + 1)) (upd4 (at_ s) r Head) (out s)))
  | Done => Ok None
  end.

Lemma turn__turn r i : 0 <= i -> turn_ r i = turn r i.
Proof.
  intros Hi. destruct r; try done. unfold turn_, turn, cmod. rewrite !Z.rem_mod_nonneg by lia.
  apply eq_true_iff_eq. rewrite andb_true_iff, !bool_decide_eq_true.
  split; intros; Z.div_mod_to_equations; lia.
Qed.

Definition sum4 (w : pc -> Z) (p : per4 pc) : Z := w (p fizz) + w (p buzz) + w (p fizzbuzz) + w (p number).
Definition weight (p : pc) : Z := match p with Head => 3 | Print _ => 2 | Add => 1 | Done => 0 end.
Definition adding (p : pc) : Z := match p with Add => 1 | _ => 0 end.
Definition measure (s : FizzBuzz_) : Z := 3 * (n s + 1 - ati s) + sum4 weight (at_ s).

Lemma sum4_upd w p r a : sum4 w (upd4 p r a) = sum4 w p - w (p r) + w a.
Proof. destruct p, r; unfold sum4, upd4, get4; simpl; lia. Qed.

Lemma sum4_nonneg (p : per4 pc) : 0 <= sum4 weight p.
Proof.
  assert (H : forall q, 0 <= weight q) by (intros []; simpl; lia). unfold sum4.
  pose proof (H (p fizz)). pose proof (H (p buzz)). pose proof (H (p fizzbuzz)). pose proof (H (p number)). lia.
Qed.

(** Only the thread in turn is past its tests. *)
Definition busy (p : pc) : bool := match p with Print _ | Add => true | _ => false end.
Definition inv (n0 : Z) (s : FizzBuzz_) : Prop :=
  (n s = n0 /\ 0 <= n0 /\ n0 + 1 < 2 ^ 31 /\ 1 <= ati s <= n0 + 1) /\
  out s = calls_upto (ati s - 1 + sum4 adding (at_ s)) /\
  (forall r, busy (at_ s r) = true -> ati s <= n0 /\ turn r (ati s) = true) /\
  (forall r t2, at_ s r = Print t2 -> t2 = ati s) /\
  (forall r, at_ s r = Done -> n0 < ati s).

Lemma alone n0 s r q : inv n0 s -> busy (at_ s r) = true -> busy (at_ s q) = true -> q = r.
Proof.
  intros (_ & _ & Hb & _) Hr Hq. destruct (Hb r Hr), (Hb q Hq). by eapply turn_unique.
Qed.

Lemma adding_alone n0 s r : inv n0 s -> busy (at_ s r) = true -> sum4 adding (at_ s) = adding (at_ s r).
Proof.
  intros Hi Hr. assert (H : forall q, q <> r -> adding (at_ s q) = 0).
  { intros q Hq. destruct (at_ s q) eqn:E; try done. exfalso. apply Hq.
    eapply alone; [done|done|by rewrite E]. }
  unfold sum4. destruct r; rewrite ?(H fizz), ?(H buzz), ?(H fizzbuzz), ?(H number) by done; lia.
Qed.

Lemma atomic4_step_inv n0 r s s' :
  inv n0 s -> step r s = Ok (Some s') -> inv n0 s' /\ measure s' + 1 <= measure s.
Proof.
  intros Hinv Hs. pose proof Hinv as ((Hn & Hn0 & Hmax & Hi) & Ho & Hb & Hp & Hd).
  pose proof (adding_alone n0 s r Hinv) as Hal. pose proof (alone n0 s r) as Hone.
  unfold step in Hs. unfold inv, measure. destruct (at_ s r) as [|t2| |] eqn:Er; try discriminate Hs.
  - case_decide as Hgt; [|destruct (turn_ r (ati s)) eqn:Et; [|discriminate]]; injection Hs as <-; simpl;
      rewrite !sum4_upd, Er; simpl; (split; [|lia]); (split; [lia|]);
      (split; [rewrite Ho; f_equal; lia|]).
    + split_and!; role_cases r; [done|apply Hb|done|apply Hp|intros; lia|apply Hd].
    + rewrite turn__turn in Et by lia. split_and!; role_cases r; [intros; split; [lia|done]|apply Hb| |apply Hp|done|apply Hd].
      by intros t2 [= ->].
  - pose proof (Hp r t2 Er) as ->. destruct (Hb r) as [Hle Ht]; [by rewrite Er|].
    rewrite Hal in Ho by done. injection Hs as <-. simpl. rewrite !sum4_upd, Hal, Er by done.
    simpl. split; [|lia]. split; [lia|]. split.
    + rewrite Ho. simpl. rewrite Z.add_0_r, turn_call by (done || lia).
      replace (ati s - 1 + (0 - 0 + 1)) with (ati s - 1 + 1) by lia. rewrite calls_snoc by lia.
      by replace (ati s - 1 + 1) with (ati s) by lia.
    + split_and!; role_cases r; [done|apply Hb|done|apply Hp|done|apply Hd].
  - destruct (Hb r) as [Hle Ht]; [by rewrite Er|]. rewrite s32_small in Hs by lia.
    specialize (Hal eq_refl) as Hsum. injection Hs as <-. simpl. rewrite !sum4_upd, Er. simpl.
    split; [|lia]. split; [lia|]. split; [rewrite Ho, Hsum; simpl; f_equal; lia|].
    split_and!; role_cases r; [done| |done| |done|].
    + intros Hq. exfalso. eauto.
    + intros t2 Hq. exfalso. assert (q = r); [|done]. apply Hone; [done|done|by rewrite Hq].
    + intros Hq. specialize (Hd q Hq). lia.
Qed.

Lemma atomic4_inv_new n0 : 0 <= n0 -> n0 + 1 < 2 ^ 31 -> inv n0 (FizzBuzz__new n0).
Proof.
  intros Hn Hm. split; [simpl; lia|]. split; [reflexivity|]. split_and!; intros []; done.
Qed.

Lemma atomic4_measure_nonneg n0 s : inv n0 s -> 0 <= measure s.
Proof.
  intros ((Hn & _ & _ & Hi) & _). unfold measure. rewrite Hn. pose proof (sum4_nonneg (at_ s)). lia.
Qed.

Lemma idle_sum s : (forall r, busy (at_ s r) = false) -> sum4 adding (at_ s) = 0.
Proof.
  intros H. assert (Ha : forall r, adding (at_ s r) = 0).
  { intros r. specialize (H r). by destruct (at_ s r). }
  unfold sum4. by rewrite !Ha.
Qed.

Lemma busy_cases s : (exists r, busy (at_ s r) = true) \/ (forall r, busy (at_ s r) = false).
Proof.
  destruct (busy (at_ s fizz)) eqn:E1, (busy (at_ s buzz)) eqn:E2, (busy (at_ s fizzbuzz)) eqn:E3,
    (busy (at_ s number)) eqn:E4; try (left; by eexists). right. by intros [].
Qed.

Lemma atomic4_calls_made n0 s : inv n0 s -> exists k, 0 <= k <= n0 /\ out s = calls_upto k.
Proof.
  intros Hinv. pose proof Hinv as ((Hn & Hn0 & _ & Hi) & Ho & Hb & _). eexists. split; [|exact Ho].
  destruct (busy_cases s) as [[r Hr]|Hno].
  - rewrite (adding_alone n0 s r Hinv Hr). destruct (Hb r Hr). destruct (at_ s r); simpl; lia.
  - rewrite idle_sum; [lia|done].
Qed.

(** When every thread only goes round its loop or has returned, all have returned. *)
Lemma atomic4_stuck_done n0 s :
  inv n0 s -> (forall r, step r s = Ok None) -> n0 < ati s /\ forall r, at_ s r = Done.
Proof.
  intros ((Hn & Hn0 & Hmax & Hi) & _ & Hb & _ & Hd) Hs.
  assert (Hcases : forall r, (at_ s r = Head /\ ati s <= n0 /\ turn r (ati s) = false) \/ at_ s r = Done).
  { intros r. pose proof (Hs r) as H. unfold step in H. destruct (at_ s r) eqn:E; try done; [left|by right].
    case_decide; [discriminate|]. rewrite turn__turn in H by lia.
    destruct (turn r (ati s)) eqn:Et; [discriminate|]. split_and!; [done|lia|done]. }
  assert (Hgt : n0 < ati s).
  { destruct (turn_exists (ati s) ltac:(lia)) as [r Hr]. destruct (Hcases r) as [(_ & _ & H)|E]; [congruence|].
    by apply (Hd r). }
  split; [done|]. intros r. destruct (Hcases r) as [(_ & H & _)|E]; [lia|done].
Qed.
End Atomic4.

(** [FizzBuzz_]: for [n] below [INT_MAX], in every interleaving the calls made
    are those of the numbers from 1 on, in order; at most [3 n + 12] steps are
    made besides rounds of the loops that find nothing to do; and when no
    thread finds anything to do any more, all four have returned, after the
    calls for 1 to [n]. *)
Theorem fizzbuzz_atomic n ls s :
  0 <= n -> n + 1 < 2 ^ 31 -> runs Atomic4.step (Atomic4.FizzBuzz__new n) ls s ->
  (exists k, 0 <= k <= n /\ Atomic4.out s = calls_upto k) /\
  len ls <= 3 * n + 12 /\
  ((forall r, Atomic4.step r s = Ok None) ->
     Atomic4.out s = calls_upto n /\ forall r, Atomic4.at_ s r = Atomic4.Done).
Proof.
  intros Hn Hm Hr. pose proof (Atomic4.atomic4_inv_new n Hn Hm) as Hi.
  destruct (runs_bounded0 _ _ Atomic4.measure _ _ _ (Atomic4.atomic4_step_inv n)
              (Atomic4.atomic4_measure_nonneg n) Hi Hr) as [Hs Hl].
  split_and!.
  - by apply Atomic4.atomic4_calls_made.
  - etrans; [exact Hl|]. unfold Atomic4.measure, Atomic4.sum4. simpl. lia.
  - intros Hst. destruct (Atomic4.atomic4_stuck_done n s Hs Hst) as [H1 H2]. split; [|exact H2].
    destruct Hs as ((_ & _ & _ & Hidx) & Ho & _). rewrite Ho, Atomic4.idle_sum by (intros r; by rewrite H2).
    f_equal. lia.
Qed.

(** ** Witnesses: three numbers *)

(** The rounds of [number], [number] and [fizz], while [buzz] and [fizzbuzz] sleep. *)
Definition demo_rounds : list Monitor4.label :=
  let run r k := replicate k (Monitor4.Run r r) in
  run buzz 2%nat ++ run number 6%nat ++ run number 6%nat ++ run fizz 6%nat ++
  run fizz 4%nat ++ run buzz 4%nat ++ run fizzbuzz 4%nat ++ run number 4%nat.

Lemma fizzbuzz_monitor_witness :
  exists s, runs Monitor4.step (Monitor4.FizzBuzz_new 3) demo_rounds s /\
    Monitor4.out s = [PrintNumber 1; PrintNumber 2; PrintFizz].
Proof.
  assert (E : exists s, execute Monitor4.step demo_rounds (Monitor4.FizzBuzz_new 3) = Some s /\
                forall r q, Monitor4.step (Monitor4.Run r q) s = Ok None).
  { eexists. split; [vm_compute; reflexivity|]. intros [] q; reflexivity. }
  destruct E as (s & E & Hst). apply execute_runs in E. exists s. split; [exact E|].
  rewrite (proj1 (proj2 (proj2 (proj2 (fizzbuzz_monitor 3 _ s ltac:(lia) ltac:(lia) E))) Hst)). reflexivity.
Defined.

Definition demo_spins : list role :=
  [number; number; number; number; number; number; fizz; fizz; fizz; fizz; buzz; fizzbuzz; number].

Lemma fizzbuzz_atomic_witness :
  exists s, runs Atomic4.step (Atomic4.FizzBuzz__new 3) demo_spins s /\
    Atomic4.out s = [PrintNumber 1; PrintNumber 2; PrintFizz].
Proof.
  assert (E : exists s, execute Atomic4.step demo_spins (Atomic4.FizzBuzz__new 3) = Some s /\
                forall r, Atomic4.step r s = Ok None).
  { eexists. split; [vm_compute; reflexivity|]. intros []; reflexivity. }
  destruct E as (s & E & Hst). apply execute_runs in E. exists s. split; [exact E|].
  rewrite (proj1 (proj2 (proj2 (fizzbuzz_atomic 3 _ s ltac:(lia) ltac:(lia) E)) Hst)). reflexivity.
Defined.
