(* ===== verification/TsQueue.v ===== *)
(** * Containers behind a mutex ([cpp_concurrency_2nd/thread_safe_stack_queue.cpp])

    [ts_stack] is a stack whose operations are critical sections, so an
    operation is one step on its contents.  [ts_queue] adds a condition variable
    for the consumers; its threads run the operations of a list each. *)

From S2P Require Import Prelude Turns.

(** ** [ts_stack] *)

Module Stack.
Section stack.
Context {T : Type}.

(** The top is the head of the list. *)
Definition push (val : T) : M (list T) unit := modify (cons val).

Definition pop : M (list T) T :=
  stk ← getS;
  match stk with
  | [] => throwM (ExnNamed "empty_stack")
  | top :: rest => modify (fun _ => rest) ;; mret top
  end.

(** [pop(T& val)]: the new value of the argument. *)
Definition pop_ref (val : T) : M (list T) T :=
  stk ← getS;
  match stk with
  | [] => throwM (ExnNamed "empty_stack")
  | top :: rest => modify (fun _ => rest) ;; mret top
  end.

Definition empty : M (list T) bool := gets (fun stk => match stk with [] => true | _ => false end).

(** The copy constructor copies the contents under the lock of [other]. *)
Definition copy (other : list T) : list T := other.
End stack.
End Stack.

(** ** [ts_queue] *)

Module Queue.
Section queue.
Context {T : Type}.

(** The operations; [QWait] stands for the two overloads of [wait_and_pop], [QTry]
    for those of [try_pop]. *)
Inductive qop : Type := QPush (val : T) | QWait | QTry | QEmpty.

(** [Want]: to lock the mutex; [Inside]: the body of the operation; [Asleep]: in
    [wait]; [Notify]: before [cv.notify_one()]; [Leave]: the end of the scope. *)
Inductive pc : Type := Want | Inside | Asleep | Notify | Leave.

#[export] Instance pc_eq_dec : EqDecision pc.
Proof. solve_decision. Defined.

Record thread := mkThread { at_ : pc; ops : list qop }.

(** What an operation returns; [None]: nothing popped. *)
Inductive result : Type := RPushed | RPopped (val : option T) | REmpty (b : bool).

Record ts_queue := mkQueue {
  que : list T;
  mtx : option nat;
  threads : list thread;
  (** what has been pushed, and what each operation returned, in the order of
      the critical sections *)
  pushed : list T;
  results : list (nat * result);
}.

Definition popped (s : ts_queue) : list T :=
  omap (fun r => match r.2 with RPopped v => v | _ => None end) (results s).

Definition ts_queue_new (programs : list (list qop)) : ts_queue :=
  mkQueue [] None (map (mkThread Want) programs) [] [].

Definition set_pc (t : nat) (p : pc) (s : ts_queue) : ts_queue :=
  mkQueue (que s) (mtx s) (alter (fun th => mkThread p (ops th)) t (threads s)) (pushed s) (results s).
Definition set_mtx (o : option nat) (s : ts_queue) : ts_queue :=
  mkQueue (que s) o (threads s) (pushed s) (results s).
Definition returns (t : nat) (r : result) (s : ts_queue) : ts_queue :=
  mkQueue (que s) (mtx s) (threads s) (pushed s) (results s ++ [(t, r)]).
Definition set_que (q : list T) (s : ts_queue) : ts_queue :=
  mkQueue q (mtx s) (threads s) (pushed s) (results s).

Definition push (t : nat) (val : T) (s : ts_queue) : ts_queue :=
  set_pc t Notify (returns t RPushed (mkQueue (que s ++ [val]) (mtx s) (threads s) (pushed s ++ [val]) (results s))).

(** Under the lock: wait until the queue is not empty, then pop. *)
Definition wait_and_pop (t : nat) (s : ts_queue) : ts_queue :=
  match que s with
  | [] => set_pc t Asleep (set_mtx None s)
  | val :: q => set_pc t Leave (returns t (RPopped (Some val)) (set_que q s))
  end.

Definition try_pop (t : nat) (s : ts_queue) : ts_queue :=
  match que s with
  | [] => set_pc t Leave (returns t (RPopped None) s)
  | val :: q => set_pc t Leave (returns t (RPopped (Some val)) (set_que q s))
  end.

Definition empty (t : nat) (s : ts_queue) : ts_queue :=
  set_pc t Leave (returns t (REmpty match que s with [] => true | _ => false end) s).

(** [cv.notify_one()] wakes the waiting thread [q]; no thread waits, if [None]. *)
Definition notify_one (t : nat) (q : option nat) (s : ts_queue) : option ts_queue :=
  match q with
  | Some q => if decide (at_ <$> threads s !! q = Some Asleep) then Some (set_pc t Leave (set_pc q Want s)) else None
  | None => if decide (Forall (fun th => at_ th <> Asleep) (threads s)) then Some (set_pc t Leave s) else None
  end.

Inductive label : Type := Run (t : nat) (q : option nat) | Spurious (t : nat).

Definition step (l : label) (s : ts_queue) : outcome (option ts_queue) :=
  match l with
  | Spurious t =>
      if decide (at_ <$> threads s !! t = Some Asleep) then Ok (Some (set_pc t Want s)) else Ok None
  | Run t q =>
      match threads s !! t with
      | None => Ok None
      | Some (mkThread p ops) =>
          match p, ops with
          | Asleep, _ | _, [] => Ok None
          | Want, _ =>
              match mtx s with None => Ok (Some (set_pc t Inside (set_mtx (Some t) s))) | Some _ => Ok None end
          | Inside, QPush val :: _ => Ok (Some (push t val s))
          | Inside, QWait :: _ => Ok (Some (wait_and_pop t s))
          | Inside, QTry :: _ => Ok (Some (try_pop t s))
          | Inside, QEmpty :: _ => Ok (Some (empty t s))
          | Notify, _ => Ok (notify_one t q s)
          | Leave, _ :: rest =>
              Ok (Some (mkQueue (que s) None (<[t := mkThread Want rest]> (threads s)) (pushed s) (results s)))
          end
      end
  end.

(** *** The invariant *)

Definition holds (p : pc) : bool := match p with Inside | Notify | Leave => true | _ => false end.

(** The threads that will look at the queue again, or are about to notify. *)
Definition active1 (th : thread) : Z :=
  match at_ th, ops th with
  | (Want | Inside), QWait :: _ => 1
  | Notify, _ => 1
  | _, _ => 0
  end.

Lemma active1_eq p os :
  active1 (mkThread p os) =
  match p, os with (Want | Inside), QWait :: _ => 1 | Notify, _ => 1 | _, _ => 0 end.
Proof. reflexivity. Qed.

Definition thread_ok (th : thread) : Prop :=
  (at_ th = Asleep -> exists rest, ops th = QWait :: rest) /\ (at_ th <> Want -> ops th <> []).

Definition somebody_asleep (s : ts_queue) : Prop :=
  exists t th, threads s !! t = Some th /\ at_ th = Asleep.

(** What was pushed is what was popped and what is left; the mutex is held by the
    thread inside; and as long as somebody sleeps, there are at most as many
    elements as threads that will look at the queue again. *)
Definition inv (k : Z) (s : ts_queue) : Prop :=
  pushed s = popped s ++ que s /\
  (forall t th, threads s !! t = Some th -> thread_ok th /\ (holds (at_ th) = true <-> mtx s = Some t)) /\
  (forall t, mtx s = Some t -> is_Some (threads s !! t)) /\
  (somebody_asleep s -> len (que s) + k <= sum_over active1 (threads s)).

Lemma threads_set_pc t p s th :
  threads s !! t = Some th -> threads (set_pc t p s) = <[t := mkThread p (ops th)]> (threads s).
Proof.
  unfold set_pc. simpl. generalize (threads s). intros l. revert t.
  induction l as [|x l IH]; intros [|t] H; try discriminate; simpl in *.
  - by injection H as ->.
  - f_equal. by apply IH.
Qed.

(** One thread changes. *)
Lemma inv_update j k s s' t th th' :
  inv j s -> threads s !! t = Some th -> threads s' = <[t := th']> (threads s) ->
  pushed s' = popped s' ++ que s' -> thread_ok th' ->
  ((mtx s = None \/ mtx s = Some t) /\ mtx s' = (if holds (at_ th') then Some t else None) \/
   mtx s' = mtx s /\ holds (at_ th) = false /\ holds (at_ th') = false) ->
  (somebody_asleep s -> len (que s') + k + active1 th <= sum_over active1 (threads s) + active1 th') \/
    len (que s') + k <= 0 ->
  (at_ th' = Asleep -> len (que s') + k <= 0) ->
  inv k s'.
Proof.
  intros (Hp & Hth & Hex & Ha) Ht Ht' Hp' Hok Hm Hc Hs. split; [exact Hp'|]. split_and!.
  - intros t2 th2 H2. rewrite Ht' in H2. destruct (decide (t2 = t)) as [->|Hne].
    + rewrite list_lookup_insert_eq in H2 by (by eapply lookup_lt_Some). injection H2 as <-. split; [done|].
      destruct Hm as [(_ & ->)|(-> & H1 & ->)].
      * destruct (holds (at_ th')); split; congruence.
      * destruct (Hth t th Ht) as [_ Hh]. rewrite H1 in Hh. done.
    + rewrite list_lookup_insert_ne in H2 by done. destruct (Hth t2 th2 H2) as [Hok2 Hh]. split; [done|].
      rewrite Hh. destruct Hm as [([->| ->] & ->)|(-> & _ & _)]; [| |done];
        destruct (holds (at_ th')); split; congruence.
  - intros t2 H2. rewrite Ht', lookup_lt_is_Some, length_insert, <- lookup_lt_is_Some.
    destruct Hm as [(_ & E)|(E & _ & _)]; rewrite E in H2; [|by apply Hex].
    destruct (holds (at_ th')); [|done]. injection H2 as <-. by rewrite Ht.
  - intros (t2 & th2 & H2 & Hasl). rewrite Ht' in *. rewrite (sum_over_insert _ _ _ _ _ Ht).
    assert (H0 : forall l, 0 <= sum_over active1 l).
    { intros l. apply sum_over_nonneg. intros [[] [|[] ?]]; unfold active1; simpl; lia. }
    pose proof (H0 (<[t := th']> (threads s))) as H0'. rewrite (sum_over_insert _ _ _ _ _ Ht) in H0'.
    destruct (decide (t2 = t)) as [->|Hne].
    + rewrite list_lookup_insert_eq in H2 by (by eapply lookup_lt_Some). injection H2 as <-.
      specialize (Hs Hasl). lia.
    + rewrite list_lookup_insert_ne in H2 by done. destruct Hc as [Hc|Hc]; [|lia].
      assert (somebody_asleep s) by (by exists t2, th2). specialize (Hc H). lia.
Qed.

Lemma popped_snoc s t r : 
  omap (fun r => match r.2 with RPopped v => v | _ => None end) (results s ++ [(t, r)]) =
  popped s ++ match r with RPopped (Some v) => [v] | _ => [] end.
Proof. unfold popped. rewrite omap_app. by destruct r as [|[|]|]. Qed.

(** A step that ends or interrupts an operation inside the mutex. *)
Lemma inv_inside s s' t th p :
  inv 0 s -> threads s !! t = Some th -> ops th <> [] -> mtx s = Some t ->
  threads s' = <[t := mkThread p (ops th)]> (threads s) -> pushed s' = popped s' ++ que s' ->
  mtx s' = (if holds p then Some t else None) ->
  len (que s') + active1 th <= len (que s) + active1 (mkThread p (ops th)) \/ len (que s') <= 0 ->
  (p = Asleep -> len (que s') <= 0 /\ exists rest, ops th = QWait :: rest) ->
  inv 0 s'.
Proof.
  intros Hi Ht Hops Hmt Ht' Hp' Hm Hc Hs. pose proof Hi as (_ & _ & _ & Ha).
  eapply (inv_update 0 0 s s' t th _ Hi Ht Ht' Hp'); simpl.
  - split; simpl; [intros H; by apply Hs|done].
  - left. split; [by right|done].
  - destruct Hc as [Hc|Hc]; [left|right; lia]. intros H. specialize (Ha H). lia.
  - intros H. destruct (Hs H). lia.
Qed.

Lemma queue_step_inv l s s' : inv 0 s -> step l s = Ok (Some s') -> inv 0 s'.
Proof.
  intros Hi Hs. pose proof Hi as (Hp & Hth & _ & Ha). destruct l as [t q|t]; simpl in Hs.
  - destruct (threads s !! t) as [[p os]|] eqn:Ht; [|discriminate].
    destruct (Hth t _ Ht) as [[Hok1 Hok2] Hh]. simpl in Hok1, Hok2, Hh.
    destruct p; destruct os as [|op os]; try discriminate.
    + destruct (mtx s) eqn:Hm; [discriminate|]. injection Hs as <-.
      eapply (inv_update 0 0 s _ t _ (mkThread Inside (op :: os)) Hi Ht); simpl.
      * apply (threads_set_pc t Inside (set_mtx (Some t) s) _ Ht).
      * exact Hp.
      * split; simpl; done.
      * left. auto.
      * left. intros H. specialize (Ha H). rewrite !active1_eq. destruct op; simpl; lia.
      * done.
    + assert (Hm : mtx s = Some t) by (by apply Hh).
      destruct op; injection Hs as <-.
      * eapply (inv_inside s _ t _ Notify Hi Ht); simpl; try done.
        -- apply (threads_set_pc t Notify _ _ Ht).
        -- unfold popped. simpl. rewrite popped_snoc, Hp, app_nil_r. by rewrite app_assoc.
        -- left. rewrite length_app. rewrite ?active1_eq. simpl. lia.
      * unfold wait_and_pop. destruct (que s) as [|v q'] eqn:Eq.
        -- eapply (inv_inside s _ t _ Asleep Hi Ht); simpl; try done.
           ++ apply (threads_set_pc t Asleep (set_mtx None s) _ Ht).
           ++ rewrite Eq. exact Hp.
           ++ right. rewrite Eq. simpl. lia.
           ++ intros _. rewrite Eq. split; [simpl; lia|by eexists].
        -- eapply (inv_inside s _ t _ Leave Hi Ht); simpl; try done.
           ++ apply (threads_set_pc t Leave _ _ Ht).
           ++ unfold popped. simpl. rewrite popped_snoc, Hp. by rewrite <- app_assoc.
           ++ left. rewrite Eq. rewrite ?active1_eq. simpl. lia.
      * unfold try_pop. destruct (que s) as [|v q'] eqn:Eq.
        -- eapply (inv_inside s _ t _ Leave Hi Ht); simpl; try done.
           ++ apply (threads_set_pc t Leave _ _ Ht).
           ++ unfold popped. simpl. by rewrite popped_snoc, Eq, Hp, !app_nil_r.
           ++ left. rewrite ?active1_eq. simpl. lia.
        -- eapply (inv_inside s _ t _ Leave Hi Ht); simpl; try done.
           ++ apply (threads_set_pc t Leave _ _ Ht).
           ++ unfold popped. simpl. rewrite popped_snoc, Hp. by rewrite <- app_assoc.
           ++ left. rewrite Eq. rewrite ?active1_eq. simpl. lia.
      * eapply (inv_inside s _ t _ Leave Hi Ht); simpl; try done.
        -- apply (threads_set_pc t Leave _ _ Ht).
        -- unfold popped. simpl. by rewrite popped_snoc, Hp, app_nil_r.
        -- left. rewrite ?active1_eq. simpl. lia.
    + assert (Hm : mtx s = Some t) by (by apply Hh). unfold notify_one in Hs.
      destruct q as [q|]; [destruct (decide (at_ <$> threads s !! q = Some Asleep)) as [Hq|]|
        destruct (decide (Forall (fun th => at_ th <> Asleep) (threads s))) as [Hno|]]; try discriminate;
        injection Hs as <-.
      * apply fmap_Some in Hq as ([pq oq] & Hq & Hpq). simpl in Hpq. subst pq.
        destruct (Hth q _ Hq) as [[Hokq _] _]. destruct (Hokq eq_refl) as [rest Hrest]. simpl in Hrest. subst oq.
        assert (Hne : t <> q) by (intros ->; congruence).
        assert (H1 : inv 1 (set_pc q Want s)).
        { eapply (inv_update 0 1 s _ q _ (mkThread Want (QWait :: rest)) Hi Hq); simpl.
          - apply (threads_set_pc q Want s _ Hq).
          - exact Hp.
          - split; simpl; done.
          - right. split_and!; done.
          - left. intros H. specialize (Ha H). rewrite !active1_eq. lia.
          - done. }
        assert (Ht1 : threads (set_pc q Want s) !! t = Some (mkThread Notify (op :: os))).
        { rewrite (threads_set_pc q Want s _ Hq), list_lookup_insert_ne by done. exact Ht. }
        pose proof H1 as (_ & _ & _ & Ha1).
        eapply (inv_update 1 0 _ _ t _ (mkThread Leave (op :: os)) H1 Ht1).
        -- apply (threads_set_pc t Leave _ _ Ht1).
        -- exact Hp.
        -- split; simpl; done.
        -- left. simpl. auto.
        -- left. intros H. specialize (Ha1 H). rewrite !active1_eq. simpl in Ha1 |- *. lia.
        -- done.
      * eapply (inv_update 0 0 s _ t _ (mkThread Leave (op :: os)) Hi Ht); simpl.
        -- apply (threads_set_pc t Leave _ _ Ht).
        -- exact Hp.
        -- split; simpl; done.
        -- left. auto.
        -- left. intros (t2 & th2 & H2 & Hasl). exfalso. rewrite Forall_lookup in Hno. by apply (Hno t2 th2).
        -- done.
    + assert (Hm : mtx s = Some t) by (by apply Hh). injection Hs as <-.
      eapply (inv_update 0 0 s _ t _ (mkThread Want os) Hi Ht); simpl; try done.
      * left. auto.
      * left. intros H. specialize (Ha H). rewrite !active1_eq. destruct os as [|[]]; lia.
  - destruct (decide (at_ <$> threads s !! t = Some Asleep)) as [Hq|]; [|discriminate]. injection Hs as <-.
    apply fmap_Some in Hq as ([pq oq] & Hq & Hpq). simpl in Hpq. subst pq.
    destruct (Hth t _ Hq) as [[Hokq _] _]. destruct (Hokq eq_refl) as [rest Hrest]. simpl in Hrest. subst oq.
    eapply (inv_update 0 0 s _ t _ (mkThread Want (QWait :: rest)) Hi Hq); simpl.
    + apply (threads_set_pc t Want s _ Hq).
    + exact Hp.
    + split; simpl; done.
    + right. split_and!; done.
    + left. intros H. specialize (Ha H). rewrite !active1_eq. lia.
    + done.
Qed.

(** *** Runs end *)

Definition weight (th : thread) : Z :=
  10 * len (ops th) + match at_ th with Want => 5 | Inside => 4 | Asleep => 3 | Notify => 3 | Leave => 0 end.
Definition measure (s : ts_queue) : Z := sum_over weight (threads s).
Definition extra (l : label) : Z := match l with Spurious _ => 3 | Run _ _ => 0 end.

Lemma measure_set_pc t p s th :
  threads s !! t = Some th -> measure (set_pc t p s) = measure s - weight th + weight (mkThread p (ops th)).
Proof. intros H. unfold measure. rewrite (threads_set_pc t p s th H). by apply sum_over_insert. Qed.

Lemma step_measure l s s' : step l s = Ok (Some s') -> measure s' + 1 <= measure s + extra l.
Proof.
  intros Hs. destruct l as [t q|t]; simpl in Hs.
  - destruct (threads s !! t) as [[p os]|] eqn:Ht; [|discriminate].
    destruct p; destruct os as [|op os]; try discriminate.
    + destruct (mtx s); [discriminate|]. injection Hs as <-.
      rewrite (measure_set_pc t _ (set_mtx _ s) _ Ht). unfold weight, measure. simpl. lia.
    + assert (E : exists s1 p, s' = set_pc t p s1 /\ threads s1 = threads s /\
        match p with Notify | Asleep | Leave => True | _ => False end).
      { destruct op; injection Hs as <-;
          [by do 2 eexists|unfold wait_and_pop; destruct (que s); by do 2 eexists|
           unfold try_pop; destruct (que s); by do 2 eexists|by do 2 eexists]. }
      destruct E as (s1 & p & -> & E1 & Hp). rewrite (measure_set_pc t p s1 (mkThread Inside (op :: os))) by congruence.
      unfold measure. rewrite E1. unfold weight. simpl. destruct p; done || lia.
    + unfold notify_one in Hs.
      destruct q as [q|]; [destruct (decide (at_ <$> threads s !! q = Some Asleep)) as [Hq|]|
        destruct (decide (Forall (fun th => at_ th <> Asleep) (threads s))) as [Hno|]]; try discriminate;
        injection Hs as <-.
      * apply fmap_Some in Hq as ([pq oq] & Hq & Hpq). simpl in Hpq. subst pq.
        assert (Hne : t <> q) by (intros ->; congruence).
        rewrite (measure_set_pc t _ (set_pc q Want s) (mkThread Notify (op :: os))), (measure_set_pc q _ s _ Hq).
        -- unfold weight. simpl. lia.
        -- rewrite (threads_set_pc q Want s _ Hq), list_lookup_insert_ne by done. exact Ht.
      * rewrite (measure_set_pc t _ s _ Ht). unfold weight. simpl. lia.
    + injection Hs as <-. unfold measure. simpl. rewrite (sum_over_insert _ _ _ _ _ Ht). unfold weight. simpl. lia.
  - destruct (decide (at_ <$> threads s !! t = Some Asleep)) as [Hq|]; [|discriminate]. injection Hs as <-.
    apply fmap_Some in Hq as ([pq oq] & Hq & Hpq). simpl in Hpq. subst pq.
    rewrite (measure_set_pc t _ s _ Hq). unfold weight. simpl. lia.
Qed.

Lemma queue_inv_new programs : inv 0 (ts_queue_new programs).
Proof.
  split; [done|]. split_and!; [|done|].
  - intros t th. unfold ts_queue_new. simpl. rewrite list_lookup_fmap.
    intros (p & _ & ->)%fmap_Some. split; [split; done|done].
  - intros (t & th & H & E). exfalso. unfold ts_queue_new in H. simpl in H. rewrite list_lookup_fmap in H.
    apply fmap_Some in H as (p & _ & ->). done.
Qed.

(** When nobody can run, everybody has finished or waits for an element that is
    not there. *)
Lemma stuck_waiting s :
  inv 0 s -> (forall t q, step (Run t q) s = Ok None) ->
  mtx s = None /\
  forall t th, threads s !! t = Some th -> ops th = [] \/ at_ th = Asleep /\ que s = [].
Proof.
  intros (Hp & Hth & Hex & Ha) Hs.
  assert (Hm : mtx s = None).
  { destruct (mtx s) as [t|] eqn:Em; [exfalso|done]. destruct (Hex t eq_refl) as [[p os] Ht].
    destruct (Hth t _ Ht) as [[_ Hops] Hh]. simpl in *. pose proof (proj2 Hh eq_refl) as Hp'.
    pose proof (fun q => Hs t q) as H. simpl in H. rewrite Ht in H.
    destruct os as [|op os]; [destruct p; try discriminate; by destruct Hops|].
    destruct p; try discriminate; [destruct op; by specialize (H None)| |by specialize (H None)].
    destruct (decide (Forall (fun th => at_ th <> Asleep) (threads s))) as [Hno|Hyes].
    - specialize (H None). simpl in H. by rewrite decide_True in H.
    - apply not_Forall_Exists in Hyes; [|apply _]. apply Exists_exists in Hyes as (th & Hin & Hasl).
      apply list_elem_of_lookup in Hin as [q Hq]. specialize (H (Some q)). simpl in H.
      rewrite decide_True in H; [done|]. rewrite Hq. simpl. f_equal. by destruct (decide (at_ th = Asleep)). }
  assert (Hcases : forall t th, threads s !! t = Some th -> ops th = [] \/ at_ th = Asleep).
  { intros t [p os] Ht. destruct (Hth t _ Ht) as [_ Hh]. simpl in Hh |- *. specialize (Hs t None). simpl in Hs.
    rewrite Ht, Hm in Hs. destruct os as [|op os]; [by left|right].
    destruct p; try done; exfalso; pose proof (proj1 Hh eq_refl); congruence. }
  split; [done|]. intros t th Ht. destruct (Hcases t th Ht) as [|Hasl]; [by left|right]. split; [done|].
  assert (Hz : sum_over active1 (threads s) = 0).
  { apply sum_over_zero, Forall_lookup. intros t2 [p2 o2] H2. rewrite active1_eq.
    destruct (Hth t2 _ H2) as [_ Hh2]. rewrite Hm in Hh2. simpl in Hh2.
    destruct (Hcases t2 _ H2) as [E|E]; simpl in E; subst; [|done].
    destruct p2; try done; exfalso; pose proof (proj1 Hh2 eq_refl); congruence. }
  rewrite Hz in Ha. specialize (Ha (ex_intro _ t (ex_intro _ th (conj Ht Hasl)))).
  destruct (que s); [done|]. simpl in Ha. lia.
Qed.
End queue.
Arguments qop : clear implicits.
Arguments ts_queue : clear implicits.
Arguments thread : clear implicits.
End Queue.

(** C25. [ts_queue] is a queue without lost wake-ups: in every interleaving of any
    number of threads running any operations, with spurious wake-ups, the
    values popped so far followed by the contents are the values pushed, in
    the order of the critical sections; a run makes at most ten steps per operation
    and five per thread, and three more for every spurious wake-up; and when no thread
    can run, the mutex is free and each thread has finished its operations or waits
    for an element while the queue is empty.  Copying and moving elements and
    allocating do not throw; a step that would wait, for the mutex or in [wait], is
    no step. *)
Theorem ts_queue_fifo {T} (programs : list (list (Queue.qop T))) ls s :
  runs Queue.step (Queue.ts_queue_new programs) ls s ->
  Queue.pushed s = Queue.popped s ++ Queue.que s /\
  len ls <= foldr (fun p n => 10 * len p + 5 + n) 0 programs + foldr (fun l m => Queue.extra l + m) 0 ls /\
  ((forall t q, Queue.step (Queue.Run t q) s = Ok None) ->
     Queue.mtx s = None /\
     forall t th, Queue.threads s !! t = Some th ->
       Queue.ops th = [] \/ Queue.at_ th = Queue.Asleep /\ Queue.que s = []).
Proof.
  intros Hr. pose proof (Queue.queue_inv_new programs) as Hi.
  assert (Hs : Queue.inv 0 s).
  { eapply runs_invariant; [|exact Hi|exact Hr]. intros l s1 s2. apply Queue.queue_step_inv. }
  split_and!; [apply Hs| |by apply Queue.stuck_waiting].
  etrans; [eapply (runs_bounded _ (Queue.inv 0) Queue.measure); [| |exact Hi|exact Hr]|].
  - intros l s1 s2 H1 H2. split; [by eapply Queue.queue_step_inv|by apply Queue.step_measure].
  - intros s1 _. apply sum_over_nonneg. intros [[] os]; unfold Queue.weight; simpl; lia.
  - apply Z.add_le_mono_r. unfold Queue.measure, Queue.ts_queue_new. simpl. clear.
    induction programs as [|p ps IH]; simpl; [lia|]. unfold Queue.weight at 1. simpl. lia.
Qed.

(** A consumer that comes first sleeps and is woken by the producer. *)
Definition demo_queue_run : list Queue.label :=
  [Queue.Run 0 None; Queue.Run 0 None; Queue.Run 1 None; Queue.Run 1 None; Queue.Run 1 (Some 0%nat);
   Queue.Run 1 None; Queue.Run 0 None; Queue.Run 0 None; Queue.Run 0 None].

Lemma ts_queue_fifo_witness :
  exists s, runs Queue.step (Queue.ts_queue_new [[Queue.QWait]; [Queue.QPush 7]]) demo_queue_run s /\
    Queue.pushed s = Queue.popped s ++ Queue.que s.
Proof.
  assert (E : exists s, execute Queue.step demo_queue_run
                          (Queue.ts_queue_new [[Queue.QWait]; [Queue.QPush 7]]) = Some s).
  { eexists. vm_compute. reflexivity. }
  destruct E as (s & E). apply execute_runs in E. exists s. split; [exact E|].
  exact (proj1 (ts_queue_fifo _ _ s E)).
Defined.

(** [ts_stack] behaves as a stack: what was pushed last comes out first, an empty
    stack throws, and [empty] says which. *)
Lemma ts_stack_lifo {T} (stk : list T) (x val : T) :
  (Stack.push x ;; Stack.pop) stk = Ok (x, stk) /\
  (Stack.push x ;; Stack.pop_ref val) stk = Ok (x, stk) /\
  Stack.pop (@nil T) = Throw (ExnNamed "empty_stack") /\
  Stack.pop_ref val (@nil T) = Throw (ExnNamed "empty_stack") /\
  (Stack.empty stk = Ok (true, stk) <-> exists e, Stack.pop stk = Throw e).
Proof.
  split_and!; try reflexivity. destruct stk as [|y stk]; split; try done.
  - intros _. by eexists.
  - by intros [e He].
Qed.
