(* ===== verification/LockFreeStack.v ===== *)
(** * Lock-free stacks ([cpp_concurrency_2nd/lock_free_stack.cpp])

    [lock_free_stack_7], whose nodes are shared pointers, with any number of
    threads: a node stays alive as long as somebody refers to it, so the heap of
    nodes only grows.  [head.load()] in its [push] is read as the atomic load.
    A weak compare-exchange may fail spuriously.  [pop] reads [old->next] with a plain
    access, while the [pop] that takes [old] out stores to it: the two are not
    ordered if both calls have [old] at that time, which is a data race, so that
    taking out a node another [pop] refers to is [UB].  The history [hist] holds the
    operations in the order in which they take effect; [rets] the values the
    calls of [pop] returned.  [lock_free_stack] is the first version, which drops
    the value it pops. *)

From S2P Require Import Prelude.
From S2P Require Import Turns.

(** ** Nodes *)

Record node (A : Type) := mkNode { data : A; next : option nat }.
Arguments mkNode {A}.
Arguments data {A}.
Arguments next {A}.

Abbreviation heap A := (gmap nat (node A)).

Definition set_next {A} (l : nat) (nx : option nat) (h : heap A) : heap A :=
  alter (fun n => mkNode (data n) nx) l h.

(** ** [lock_free_stack]: one thread *)

Module First.
Section first.
Context {A : Type}.

Definition push (h : heap A) (head : option nat) (l : nat) (d : A) : heap A * option nat :=
  (<[l := mkNode d head]> h, Some l).

(** The head is dereferenced before it is tested; the "result" is the pointer to
    the next node. *)
Definition pop (h : heap A) (head : option nat) : outcome (option nat * option nat) :=
  match head with
  | None => UB
  | Some old => match h !! old with None => UB | Some n => Ok (next n, next n) end
  end.
End first.
End First.

(** ** [lock_free_stack_7] *)

Section stack7.
Context {A : Type}.

Inductive pc : Type :=
  | Idle
  | PushLoad (nd : nat)
  | PushCas (nd : nat)
  | PopLoad
  | PopTest (old : option nat)
  | PopCas (old : nat) (nx : option nat)
  | PopStore (old : nat)
  | PopData (old : nat).

Inductive op : Type := Pushed (d : A) | Popped (v : option A).

Record stack := mkStack {
  nodes : heap A;
  head : option nat;
  threads : gmap nat pc;
  hist : list (nat * op);
  rets : list (nat * option A);
}.

Definition stack_new : stack := mkStack ∅ None ∅ [] [].

Definition at_ (s : stack) (t : nat) : pc := default Idle (threads s !! t).
Definition go (t : nat) (p : pc) (s : stack) : stack :=
  mkStack (nodes s) (head s) (<[t := p]> (threads s)) (hist s) (rets s).
Definition set_nodes (h : heap A) (s : stack) : stack := mkStack h (head s) (threads s) (hist s) (rets s).
Definition set_head (o : option nat) (s : stack) : stack := mkStack (nodes s) o (threads s) (hist s) (rets s).
Definition takes_effect (t : nat) (e : op) (s : stack) : stack :=
  mkStack (nodes s) (head s) (threads s) (hist s ++ [(t, e)]) (rets s).
Definition returns (t : nat) (v : option A) (s : stack) : stack :=
  mkStack (nodes s) (head s) (threads s) (hist s) (rets s ++ [(t, v)]).

(** [old] becomes the head; a pop that sees no head takes effect there. *)
Definition reload (t : nat) (s : stack) : stack :=
  go t (PopTest (head s)) (match head s with None => takes_effect t (Popped None) s | Some _ => s end).

(** A thread calls [push], with the address of the new node, or [pop]; runs; or
    runs and its weak compare-exchange fails for no reason. *)
Inductive label : Type :=
  | CallPush (t : nat) (d : A) (nd : nat)
  | CallPop (t : nat)
  | Run (t : nat)
  | Spurious (t : nat).

Definition next_of (s : stack) (l : nat) : outcome (option nat) :=
  match nodes s !! l with Some n => Ok (next n) | None => UB end.

(** [old] is the argument of the compare-exchange this thread prepares: it has read
    [old->next] or is about to. *)
Definition reads (old : nat) (p : pc) : bool :=
  match p with
  | PopTest (Some l) => bool_decide (l = old)
  | PopCas l _ => bool_decide (l = old)
  | _ => false
  end.

(** Another thread reads [old->next] without being ordered to the store of [t]. *)
Definition races (t old : nat) (s : stack) : Prop :=
  map_Exists (fun t' p => t' <> t /\ reads old p = true) (threads s).

#[export] Instance races_dec t old s : Decision (races t old s).
Proof. unfold races. apply _. Defined.

Definition step (l : label) (s : stack) : outcome (option stack) :=
  match l with
  | CallPush t d nd =>
      match at_ s t, nodes s !! nd with
      | Idle, None => Ok (Some (go t (PushLoad nd) (set_nodes (<[nd := mkNode d None]> (nodes s)) s)))
      | _, _ => Ok None
      end
  | CallPop t => match at_ s t with Idle => Ok (Some (go t PopLoad s)) | _ => Ok None end
  | Spurious t =>
      match at_ s t with
      | PushCas nd => Ok (Some (set_nodes (set_next nd (head s) (nodes s)) s))
      | PopCas _ _ => Ok (Some (reload t s))
      | _ => Ok None
      end
  | Run t =>
      match at_ s t with
      | Idle => Ok None
      | PushLoad nd => Ok (Some (go t (PushCas nd) (set_nodes (set_next nd (head s) (nodes s)) s)))
      | PushCas nd =>
          match nodes s !! nd with
          | None => UB
          | Some n =>
              if decide (head s = next n)
              then Ok (Some (go t Idle (takes_effect t (Pushed (data n)) (set_head (Some nd) s))))
              else Ok (Some (set_nodes (set_next nd (head s) (nodes s)) s))
          end
      | PopLoad => Ok (Some (reload t s))
      | PopTest None => Ok (Some (go t Idle (returns t None s)))
      | PopTest (Some old) => nx ← next_of s old; Ok (Some (go t (PopCas old nx) s))
      | PopCas old nx =>
          if decide (head s = Some old)
          then
            if decide (races t old s) then UB else
            match nodes s !! old with
            | None => UB
            | Some n => Ok (Some (go t (PopStore old) (takes_effect t (Popped (Some (data n))) (set_head nx s))))
            end
          else Ok (Some (reload t s))
      | PopStore old => Ok (Some (go t (PopData old) (set_nodes (set_next old None (nodes s)) s)))
      | PopData old =>
          match nodes s !! old with
          | None => UB
          | Some n => Ok (Some (go t Idle (returns t (Some (data n)) s)))
          end
      end
  end.

(** *** The specification: the histories of a stack *)

Inductive legal : list (nat * op) -> list A -> Prop :=
  | legal_nil : legal [] []
  | legal_push h t d stk : legal h stk -> legal (h ++ [(t, Pushed d)]) (d :: stk)
  | legal_pop h t d stk : legal h (d :: stk) -> legal (h ++ [(t, Popped (Some d))]) stk
  | legal_empty h t : legal h [] -> legal (h ++ [(t, Popped None)]) [].

(** What the pops of a thread find, and what they have returned. *)
Definition found (t : nat) (h : list (nat * op)) : list (option A) :=
  omap (fun e => match e.2 with Popped v => if decide (e.1 = t) then Some v else None | _ => None end) h.
Definition returned (t : nat) (r : list (nat * option A)) : list (option A) :=
  omap (fun e => if decide (e.1 = t) then Some e.2 else None) r.

(** *** The invariant *)

(** The nodes from [p] on. *)
Fixpoint chain (h : heap A) (p : option nat) (ns : list nat) : Prop :=
  match ns with
  | [] => p = None
  | l :: ns => p = Some l /\ exists n, h !! l = Some n /\ chain h (next n) ns
  end.

Definition contents (h : heap A) (ns : list nat) : list A := omap (fun l => data <$> h !! l) ns.

Definition owns (p : pc) : option nat := match p with PushLoad nd | PushCas nd => Some nd | _ => None end.

(** The nodes a [pop] refers to, and whether it has taken the node out. *)
Definition refers (p : pc) : option nat :=
  match p with PopTest o => o | PopCas old _ | PopStore old | PopData old => Some old | _ => None end.
Definition detached (p : pc) : bool := match p with PopStore _ | PopData _ => true | _ => false end.

(** The value a call has found and not returned yet. *)
Definition pending (h : heap A) (p : pc) : list (option A) :=
  match p with
  | PopTest None => [None]
  | PopStore old | PopData old => [data <$> h !! old]
  | _ => []
  end.

Definition thread_ok (s : stack) (ns : list nat) (t : nat) : Prop :=
  (forall l, owns (at_ s t) = Some l -> is_Some (nodes s !! l) /\ l ∉ ns) /\
  (forall l, refers (at_ s t) = Some l -> is_Some (nodes s !! l) /\ forall t', owns (at_ s t') <> Some l) /\
  (forall l, refers (at_ s t) = Some l -> detached (at_ s t) = true -> l ∉ ns) /\
  (forall old nx n, at_ s t = PopCas old nx -> old ∈ ns -> nodes s !! old = Some n -> next n = nx) /\
  found t (hist s) = returned t (rets s) ++ pending (nodes s) (at_ s t).

Definition inv_at (s : stack) (ns : list nat) : Prop :=
  chain (nodes s) (head s) ns /\ NoDup ns /\ legal (hist s) (contents (nodes s) ns) /\
  (forall t t' l, owns (at_ s t) = Some l -> owns (at_ s t') = Some l -> t = t') /\
  forall t, thread_ok s ns t.
Definition inv (s : stack) : Prop := exists ns, inv_at s ns.

Lemma chain_same h h' p ns : (forall l, l ∈ ns -> h' !! l = h !! l) -> chain h p ns -> chain h' p ns.
Proof.
  revert p. induction ns as [|l ns IH]; intros p Hs; [done|]. intros (-> & n & Hn & Hc). split; [done|].
  exists n. rewrite Hs by set_solver. split; [done|]. apply IH; [|done]. intros l' Hl'. apply Hs. set_solver.
Qed.

Lemma chain_lookup h p ns l : chain h p ns -> l ∈ ns -> is_Some (h !! l).
Proof.
  revert p. induction ns as [|l' ns IH]; intros p Hc Hl; [by apply not_elem_of_nil in Hl|].
  destruct Hc as (-> & n & Hn & Hc). apply elem_of_cons in Hl as [->|Hl]; [by rewrite Hn|by eapply IH].
Qed.

Lemma contents_cons h l ns : contents h (l :: ns) = option_list (data <$> h !! l) ++ contents h ns.
Proof. unfold contents. cbn. by destruct (h !! l). Qed.

#[local] Arguments contents : simpl never.

Lemma contents_same h h' ns :
  (forall l, l ∈ ns -> data <$> h' !! l = data <$> h !! l) -> contents h' ns = contents h ns.
Proof.
  induction ns as [|l ns IH]; intros H; [done|]. rewrite !contents_cons, H, IH by set_solver. done.
Qed.

Lemma at_go t p s t' : at_ (go t p s) t' = if decide (t' = t) then p else at_ s t'.
Proof.
  unfold at_, go. simpl. case_decide; [subst; by rewrite lookup_insert_eq|by rewrite lookup_insert_ne].
Qed.

Lemma set_next_lookup l nx (h : heap A) l' :
  set_next l nx h !! l' = if decide (l' = l) then (fun n => mkNode (data n) nx) <$> h !! l else h !! l'.
Proof. unfold set_next. case_decide; [subst; by rewrite lookup_alter_eq|by rewrite lookup_alter_ne]. Qed.

(** What a step of thread [t] leaves to the others. *)
Record keeps (t : nat) (s s' : stack) (ns ns' : list nat) : Prop := {
  k_at : forall t', t' <> t -> at_ s' t' = at_ s t';
  k_nodes : forall l n, nodes s !! l = Some n -> exists n', nodes s' !! l = Some n' /\ data n' = data n;
  k_chain : forall l, l ∈ ns' -> (l ∈ ns /\ nodes s' !! l = nodes s !! l) \/ owns (at_ s t) = Some l;
  k_owns : forall l, owns (at_ s' t) = Some l -> owns (at_ s t) = Some l \/ nodes s !! l = None;
  k_found : forall t', t' <> t -> found t' (hist s') = found t' (hist s);
  k_returned : forall t', t' <> t -> returned t' (rets s') = returned t' (rets s);
}.

Lemma keeps_others t s s' ns ns' t' :
  inv_at s ns -> keeps t s s' ns ns' -> t' <> t -> thread_ok s' ns' t'.
Proof.
  intros (_ & _ & _ & Hu & Hth) [Kat Kn Kc Ko Kf Kr] Hne.
  destruct (Hth t') as (Ho & Hr & Hd & Hc & Hf). unfold thread_ok. rewrite Kat by done.
  assert (Hsome : forall l, is_Some (nodes s !! l) -> is_Some (nodes s' !! l)).
  { intros l [n Hn]. destruct (Kn l n Hn) as (n' & -> & _). done. }
  split_and!.
  - intros l Hl. destruct (Ho l Hl) as [H1 H2]. split; [by apply Hsome|]. intros Hin.
    destruct (Kc l Hin) as [[? _]|Hl']; [done|]. apply Hne. by eapply Hu.
  - intros l Hl. destruct (Hr l Hl) as [H1 H2]. split; [by apply Hsome|]. intros t2 H3.
    destruct (decide (t2 = t)) as [->|Hne2]; [|rewrite Kat in H3 by done; by apply (H2 t2)].
    destruct (Ko l H3) as [H4|H4]; [by apply (H2 t)|]. rewrite H4 in H1. by destruct H1.
  - intros l Hl Hdet Hin. destruct (Kc l Hin) as [[Hin' _]|Hl']; [by apply (Hd l)|].
    destruct (Hr l Hl) as [_ H2]. by apply (H2 t).
  - intros old nx n Hpc Hin Hn. destruct (Kc old Hin) as [[Hin' E]|Hl'].
    + rewrite E in Hn. by eapply Hc.
    + destruct (Hr old) as [_ H2]; [by rewrite Hpc|]. by destruct (H2 t).
  - rewrite Kf, Kr, Hf by done. f_equal. destruct (at_ s t') as [| | | |[]|old nx|old|old] eqn:E; try done.
    all: destruct (Hr old eq_refl) as [[n Hn] _]; destruct (Kn old n Hn) as (n' & Hn' & Hdat); simpl;
      rewrite Hn, Hn'; simpl; by rewrite Hdat.
Qed.

Lemma keeps_inv t s s' ns ns' :
  inv_at s ns -> keeps t s s' ns ns' ->
  chain (nodes s') (head s') ns' -> NoDup ns' -> legal (hist s') (contents (nodes s') ns') ->
  thread_ok s' ns' t -> inv s'.
Proof.
  intros Hi Hk Hc Hnd Hl Ht. exists ns'. split; [done|]. split; [done|]. split; [done|]. split.
  - pose proof Hi as (_ & _ & _ & Hu & Hth). destruct Hk as [Kat Kn Kc Ko Kf Kr].
    assert (Hown : forall t1 l, t1 <> t -> owns (at_ s' t1) = Some l -> owns (at_ s' t) = Some l -> t1 = t).
    { intros t1 l Hne H1 H2. rewrite Kat in H1 by done. destruct (Ko l H2) as [H3|H3]; [by eapply Hu|].
      destruct (Hth t1) as (Ho & _). destruct (Ho l H1) as [[n Hn] _]. congruence. }
    intros t1 t2 l H1 H2. destruct (decide (t1 = t)) as [->|N1], (decide (t2 = t)) as [->|N2]; try done.
    + symmetry. by eapply Hown.
    + by eapply Hown.
    + rewrite Kat in H1, H2 by done. by eapply Hu.
  - intros t'. destruct (decide (t' = t)) as [->|Hne]; [done|by eapply keeps_others].
Qed.

Lemma found_snoc t h e : found t (h ++ [e]) = found t h ++ found t [e].
Proof. unfold found. by rewrite omap_app. Qed.
Lemma returned_snoc t r e : returned t (r ++ [e]) = returned t r ++ returned t [e].
Proof. unfold returned. by rewrite omap_app. Qed.
Lemma found_one t v : found t [(t, Popped v)] = [v].
Proof. unfold found. simpl. by rewrite decide_True. Qed.
Lemma found_other t t' v : t' <> t -> found t' [(t, Popped v)] = [].
Proof. intros. unfold found. simpl. by rewrite decide_False by congruence. Qed.
Lemma returned_one t v : returned t [(t, v)] = [v].
Proof. unfold returned. simpl. by rewrite decide_True. Qed.
Lemma returned_other t t' v : t' <> t -> returned t' [(t, v)] = [].
Proof. intros. unfold returned. simpl. by rewrite decide_False by congruence. Qed.

Ltac at_other := intros; rewrite ?at_go, ?decide_False by done; try reflexivity.

(** A step that leaves the chain alone. *)
Lemma stack7_quiet_inv t s s' ns :
  inv_at s ns -> head s' = head s -> hist s' = hist s ->
  (forall t', t' <> t -> at_ s' t' = at_ s t') ->
  (forall l n, nodes s !! l = Some n -> exists n', nodes s' !! l = Some n' /\ data n' = data n) ->
  (forall l, l ∈ ns -> nodes s' !! l = nodes s !! l) ->
  (forall l, owns (at_ s' t) = Some l -> owns (at_ s t) = Some l \/ nodes s !! l = None) ->
  (forall t', t' <> t -> returned t' (rets s') = returned t' (rets s)) ->
  thread_ok s' ns t -> inv s'.
Proof.
  intros Hi Hh Hhist Hat Hn Hsame Ho Hr Ht. pose proof Hi as (Hc & Hnd & Hl & _).
  eapply (keeps_inv t s s' ns ns Hi); [|rewrite Hh; by eapply chain_same|done| |done].
  - constructor; try done; [|by rewrite Hhist]. intros l Hin. left. auto.
  - rewrite Hhist, (contents_same (nodes s)); [done|]. intros l Hin. by rewrite Hsame.
Qed.

(** The owner of a new node sets its successor. *)
Lemma push_next_inv t nd s s' ns :
  inv_at s ns -> owns (at_ s t) = Some nd -> pending (nodes s) (at_ s t) = [] ->
  nodes s' = set_next nd (head s) (nodes s) -> head s' = head s -> hist s' = hist s -> rets s' = rets s ->
  (forall t', t' <> t -> at_ s' t' = at_ s t') -> at_ s' t = PushCas nd -> inv s'.
Proof.
  intros Hi Hown Hpend Hn Hh Hhist Hr Hat Ht. pose proof Hi as (Hc & Hnd & Hl & _ & Hth).
  destruct (Hth t) as (Ho & _ & _ & _ & Hf). destruct (Ho nd Hown) as [[n0 Hn0] Hout].
  eapply (stack7_quiet_inv t s s' ns Hi); rewrite ?Hn, ?Hh, ?Hhist, ?Hr; try done.
  - intros l n Hl'. rewrite set_next_lookup. case_decide; [subst|by eexists].
    rewrite Hl'. by eexists.
  - intros l Hin. rewrite set_next_lookup, decide_False; [done|]. by intros ->.
  - rewrite Ht. intros l [= <-]. by left.
  - unfold thread_ok. rewrite Ht, Hn, Hhist, Hr. split_and!; try done.
    + intros l [= <-]. split; [|done]. rewrite set_next_lookup, decide_True, Hn0 by done. done.
    + by rewrite Hf, Hpend.
Qed.

(** A pop looks at the head again. *)
Lemma reload_inv t s ns :
  inv_at s ns -> owns (at_ s t) = None -> pending (nodes s) (at_ s t) = [] -> inv (reload t s).
Proof.
  intros Hi Hown Hpend. pose proof Hi as (Hc & Hnd & Hl & _ & Hth). destruct (Hth t) as (_ & _ & _ & _ & Hf).
  rewrite Hpend, app_nil_r in Hf. unfold reload.
  assert (Hcase : (head s = None /\ ns = []) \/ exists l, head s = Some l /\ l ∈ ns).
  { destruct ns as [|l ns']; [by left|right]. destruct Hc as (-> & _). exists l. split; [done|left]. }
  destruct Hcase as [[E ->]|(l & E & Hin)]; rewrite E.
  - eapply (keeps_inv t s _ [] [] Hi); simpl; try done.
    + constructor; simpl; try done; [at_other; done|eauto|by left| |].
      * intros l. rewrite at_go, decide_True by done. done.
      * intros t' Hne. by rewrite found_snoc, found_other, app_nil_r.
    + by apply legal_empty.
    + unfold thread_ok. rewrite at_go, decide_True by done. simpl. split_and!; try done.
      by rewrite found_snoc, found_one, Hf.
  - eapply (stack7_quiet_inv t s _ ns Hi); simpl; try done; try (by eauto).
    + at_other.
    + rewrite at_go, decide_True by done. done.
    + unfold thread_ok. rewrite at_go, decide_True by done. simpl. split_and!; try done.
      * intros l' [= <-]. split; [by eapply chain_lookup|]. intros t' Ht'. rewrite at_go in Ht'.
        case_decide; [done|]. destruct (Hth t') as (Ho & _). by destruct (Ho l Ht').
      * by rewrite Hf, app_nil_r.
Qed.

(** Only the program counter of [t] changes; it refers to what it referred to. *)
Lemma go_inv t p s ns :
  inv_at s ns -> owns p = None -> detached p = false -> pending (nodes s) p = [] ->
  pending (nodes s) (at_ s t) = [] ->
  (forall l, refers p = Some l -> refers (at_ s t) = Some l) ->
  (forall old nx n, p = PopCas old nx -> old ∈ ns -> nodes s !! old = Some n -> next n = nx) ->
  inv (go t p s).
Proof.
  intros Hi Hown Hdet Hpend Hpend0 Href Hcas. pose proof Hi as (_ & _ & _ & _ & Hth).
  destruct (Hth t) as (_ & Hr & _ & _ & Hf).
  eapply (stack7_quiet_inv t s _ ns Hi); simpl; try done; try (by eauto).
  - at_other.
  - rewrite at_go, decide_True, Hown by done. done.
  - unfold thread_ok. rewrite at_go, decide_True, Hown, Hdet by done. simpl. split_and!; try done.
    + intros l Hl. destruct (Hr l (Href l Hl)) as [H1 H2]. split; [done|]. intros t' Ht'. rewrite at_go in Ht'.
      case_decide; [congruence|by apply (H2 t')].
    + by rewrite Hf, Hpend, Hpend0.
Qed.

(** A pop returns what it found. *)
Lemma return_inv t v s ns :
  inv_at s ns -> owns (at_ s t) = None -> pending (nodes s) (at_ s t) = [v] ->
  inv (go t Idle (returns t v s)).
Proof.
  intros Hi Hown Hpend. pose proof Hi as (_ & _ & _ & _ & Hth). destruct (Hth t) as (_ & _ & _ & _ & Hf).
  eapply (stack7_quiet_inv t s _ ns Hi); simpl; try done; try (by eauto).
  - at_other.
  - rewrite at_go, decide_True by done. done.
  - intros t' Hne. by rewrite returned_snoc, returned_other, app_nil_r.
  - unfold thread_ok. rewrite at_go, decide_True by done. simpl. split_and!; try done.
    by rewrite returned_snoc, returned_one, Hf, Hpend, app_nil_r.
Qed.

Lemma push_cas_inv t nd n s ns :
  inv_at s ns -> at_ s t = PushCas nd -> nodes s !! nd = Some n -> head s = next n ->
  inv (go t Idle (takes_effect t (Pushed (data n)) (set_head (Some nd) s))).
Proof.
  intros Hi Ht Hn Hh. pose proof Hi as (Hc & Hnd & Hl & _ & Hth). destruct (Hth t) as (Ho & _ & _ & _ & Hf).
  rewrite Ht in Ho, Hf. destruct (Ho nd eq_refl) as [_ Hout].
  eapply (keeps_inv t s _ ns (nd :: ns) Hi); simpl.
  - constructor; simpl; try done.
    + at_other.
    + eauto.
    + intros l [->|Hin]%elem_of_cons; [right; by rewrite Ht|by left].
    + intros l. rewrite at_go, decide_True by done. done.
    + intros t' _. rewrite found_snoc. unfold found at 2. simpl. by rewrite app_nil_r.
  - split; [done|]. exists n. rewrite <- Hh. done.
  - by constructor.
  - rewrite contents_cons, Hn. by apply legal_push.
  - unfold thread_ok. rewrite at_go, decide_True by done. simpl. split_and!; try done.
    rewrite found_snoc. unfold found at 2. simpl. rewrite app_nil_r. done.
Qed.

Lemma pop_cas_inv t old nx n s ns :
  inv_at s ns -> at_ s t = PopCas old nx -> nodes s !! old = Some n -> head s = Some old ->
  inv (go t (PopStore old) (takes_effect t (Popped (Some (data n))) (set_head nx s))).
Proof.
  intros Hi Ht Hn Hh. pose proof Hi as (Hc & Hnd & Hl & _ & Hth).
  destruct (Hth t) as (_ & Hr & _ & Hcas & Hf). rewrite Ht in Hr, Hf. simpl in Hf. rewrite app_nil_r in Hf.
  rewrite Hh in Hc. destruct ns as [|l ns]; [done|]. destruct Hc as ([= <-] & n' & Hn' & Hc).
  assert (n' = n) as -> by congruence.
  assert (Hnx : next n = nx) by (eapply Hcas; [done|left|done]). rewrite Hnx in Hc.
  apply NoDup_cons in Hnd as [Hout Hnd]. rewrite contents_cons, Hn in Hl.
  eapply (keeps_inv t s _ (old :: ns) ns Hi); simpl; try done.
  - constructor; simpl; try done.
    + at_other.
    + eauto.
    + intros l Hin. left. split; [by right|done].
    + intros l. rewrite at_go, decide_True by done. done.
    + intros t' Hne. by rewrite found_snoc, found_other, app_nil_r.
  - by apply legal_pop.
  - unfold thread_ok. rewrite at_go, decide_True by done. simpl. split_and!; try done.
    + intros l [= <-]. split; [by rewrite Hn|]. intros t' Ht'. rewrite at_go in Ht'. case_decide; [done|].
      destruct (Hr old eq_refl) as [_ H2]. by apply (H2 t').
    + intros l [= <-] _. done.
    + by rewrite found_snoc, found_one, Hf, Hn.
Qed.

Lemma pop_store_inv t old s ns :
  inv_at s ns -> at_ s t = PopStore old -> inv (go t (PopData old) (set_nodes (set_next old None (nodes s)) s)).
Proof.
  intros Hi Ht. pose proof Hi as (Hc & Hnd & Hl & _ & Hth).
  destruct (Hth t) as (_ & Hr & Hd & _ & Hf). rewrite Ht in Hr, Hd, Hf.
  destruct (Hr old eq_refl) as [[n Hn] Hno]. assert (Hout := Hd old eq_refl eq_refl).
  eapply (stack7_quiet_inv t s _ ns Hi); simpl; try done.
  - at_other.
  - intros l n' Hn'. rewrite set_next_lookup. case_decide; [subst; rewrite Hn'; by eexists|by eexists].
  - intros l Hin. rewrite set_next_lookup, decide_False; [done|]. by intros ->.
  - rewrite at_go, decide_True by done. done.
  - unfold thread_ok. rewrite at_go, decide_True by done. simpl. split_and!; try done.
    + intros l [= <-]. split; [by rewrite set_next_lookup, decide_True, Hn|]. intros t' Ht'. rewrite at_go in Ht'.
      case_decide; [done|by apply (Hno t')].
    + rewrite Hf. simpl. by rewrite set_next_lookup, decide_True, Hn.
Qed.

Lemma call_push_inv t d nd s ns :
  inv_at s ns -> at_ s t = Idle -> nodes s !! nd = None ->
  inv (go t (PushLoad nd) (set_nodes (<[nd := mkNode d None]> (nodes s)) s)).
Proof.
  intros Hi Ht Hnew. pose proof Hi as (Hc & Hnd & Hl & _ & Hth). destruct (Hth t) as (_ & _ & _ & _ & Hf).
  rewrite Ht in Hf. assert (Hout : nd ∉ ns).
  { intros Hin. destruct (chain_lookup _ _ _ _ Hc Hin) as [n Hn]. congruence. }
  eapply (stack7_quiet_inv t s _ ns Hi); simpl; try done.
  - at_other.
  - intros l n Hn. rewrite lookup_insert_ne by congruence. by eexists.
  - intros l Hin. rewrite lookup_insert_ne; [done|]. by intros ->.
  - rewrite at_go, decide_True by done. intros l [= <-]. by right.
  - unfold thread_ok. rewrite at_go, decide_True by done. simpl. split_and!; try done.
    intros l [= <-]. by rewrite lookup_insert_eq.
Qed.

Lemma stack7_step_inv l s s' : inv s -> step l s = Ok (Some s') -> inv s'.
Proof.
  intros [ns Hi] Hs. pose proof Hi as (Hc & Hnd & Hl & _ & Hth). destruct l as [t d nd|t|t|t]; simpl in Hs.
  - destruct (at_ s t) eqn:Ht; try discriminate. destruct (nodes s !! nd) eqn:Hn; [discriminate|].
    injection Hs as <-. by eapply call_push_inv.
  - destruct (at_ s t) eqn:Ht; try discriminate. injection Hs as <-. eapply go_inv; rewrite ?Ht; done.
  - destruct (at_ s t) as [|nd|nd| |[old|]|old nx|old|old] eqn:Ht; try discriminate.
    + injection Hs as <-. eapply (push_next_inv t nd s _ ns Hi); rewrite ?Ht; try done; [at_other|].
      by rewrite at_go, decide_True.
    + destruct (nodes s !! nd) as [n|] eqn:Hn; [|discriminate]. case_decide; injection Hs as <-.
      * by eapply push_cas_inv.
      * eapply (push_next_inv t nd s _ ns Hi); rewrite ?Ht; try done.
    + injection Hs as <-. eapply reload_inv; rewrite ?Ht; done.
    + unfold next_of in Hs. destruct (nodes s !! old) as [n|] eqn:Hn; [|discriminate]. injection Hs as <-.
      eapply go_inv; rewrite ?Ht; try done. intros old' nx n' [= <- <-] _ Hn'. congruence.
    + injection Hs as <-. eapply return_inv; rewrite ?Ht; done.
    + case_decide; [case_decide; [discriminate|]; destruct (nodes s !! old) as [n|] eqn:Hn; [|discriminate]|];
        injection Hs as <-.
      * by eapply pop_cas_inv.
      * eapply reload_inv; rewrite ?Ht; done.
    + injection Hs as <-. by eapply pop_store_inv.
    + destruct (nodes s !! old) as [n|] eqn:Hn; [|discriminate]. injection Hs as <-.
      eapply return_inv; rewrite ?Ht; try done. simpl. by rewrite Hn.
  - destruct (at_ s t) as [|nd|nd| |[old|]|old nx|old|old] eqn:Ht; try discriminate; injection Hs as <-.
    + eapply (push_next_inv t nd s _ ns Hi); rewrite ?Ht; try done.
    + eapply reload_inv; rewrite ?Ht; done.
Qed.

(** *** No step is undefined, and a thread that runs alone finishes its call *)

Lemma owned_exists s ns t l : inv_at s ns -> owns (at_ s t) = Some l -> exists n, nodes s !! l = Some n.
Proof. intros (_ & _ & _ & _ & Hth) Hl. destruct (Hth t) as (Ho & _). by destruct (Ho l Hl) as [[n Hn] _]; exists n. Qed.

Lemma referred_exists s ns t l : inv_at s ns -> refers (at_ s t) = Some l -> exists n, nodes s !! l = Some n.
Proof.
  intros (_ & _ & _ & _ & Hth) Hl. destruct (Hth t) as (_ & Hr & _). by destruct (Hr l Hl) as [[n Hn] _]; exists n.
Qed.

(** The only step that is undefined. *)
Definition race_step (l : label) (s : stack) : Prop :=
  exists t old nx, l = Run t /\ at_ s t = PopCas old nx /\ head s = Some old /\ races t old s.

Lemma stack7_step_defined l s : inv s -> (exists o, step l s = Ok o) \/ (race_step l s /\ step l s = UB).
Proof.
  intros [ns Hi].
  assert (Ho : forall t nd, owns (at_ s t) = Some nd -> exists n, nodes s !! nd = Some n) by (intros; by eapply owned_exists).
  assert (Hr : forall t nd, refers (at_ s t) = Some nd -> exists n, nodes s !! nd = Some n)
    by (intros; by eapply referred_exists).
  destruct l as [t d nd|t|t|t]; simpl.
  - left. destruct (at_ s t), (nodes s !! nd); by eexists.
  - left. destruct (at_ s t); by eexists.
  - specialize (Ho t). specialize (Hr t).
    destruct (at_ s t) as [|nd|nd| |[old|]|old nx|old|old] eqn:Ht; try (left; by eexists).
    + left. destruct (Ho nd eq_refl) as [n ->]. case_decide; by eexists.
    + left. unfold next_of. destruct (Hr old eq_refl) as [n ->]. by eexists.
    + destruct (Hr old eq_refl) as [n ->]. case_decide; [|left; by eexists].
      case_decide; [|left; by eexists]. right. split; [|done]. by exists t, old, nx.
    + left. destruct (Hr old eq_refl) as [n ->]. by eexists.
  - left. destruct (at_ s t); by eexists.
Qed.

(** No other call of [pop] is reading. *)
Definition alone (t : nat) (s : stack) : Prop :=
  forall t' old, t' <> t -> reads old (at_ s t') = false.

Lemma alone_no_race t old s : alone t s -> ~ races t old s.
Proof.
  intros Ha (t' & p & Hp & Hne & Hr). specialize (Ha t' old Hne). unfold at_ in Ha. rewrite Hp in Ha.
  simpl in Ha. congruence.
Qed.

Lemma alone_run t s s' : alone t s -> step (Run t) s = Ok (Some s') -> alone t s'.
Proof.
  intros Ha Hs t' old Hne. rewrite <- (Ha t' old Hne). f_equal. simpl in Hs.
  destruct (at_ s t) as [|nd|nd| |[o|]|o nx|o|o]; try discriminate; unfold reload in Hs;
    repeat (case_decide || case_match || (unfold next_of in Hs; simpl in Hs)); simplify_eq/=;
    rewrite ?at_go, ?decide_False by done; done.
Qed.

(** The steps thread [t] needs on its own to the end of its call. *)
Definition rank (t : nat) (s : stack) : nat :=
  match at_ s t with
  | Idle => 0
  | PushLoad _ => 2
  | PushCas nd => if decide (Some (head s) = next <$> nodes s !! nd) then 1 else 2
  | PopLoad => 5
  | PopTest None => 1
  | PopTest (Some old) => if decide (head s = Some old) then 4 else 6
  | PopCas old _ => if decide (head s = Some old) then 3 else 5
  | PopStore _ => 2
  | PopData _ => 1
  end.

Lemma rank_reload t s : (rank t (reload t s) <= 4)%nat.
Proof. unfold rank, reload. rewrite at_go, decide_True by done. destruct (head s) eqn:E; simpl; [case_decide|]; try lia. by rewrite E in *. Qed.

Lemma solo_step t s : inv s -> alone t s -> at_ s t <> Idle ->
  exists s', step (Run t) s = Ok (Some s') /\ (rank t s' < rank t s)%nat.
Proof.
  intros [ns Hi] Ha Hbusy. pose proof (rank_reload t s) as Hre. unfold rank at 2. simpl.
  pose proof (owned_exists s ns t) as Ho. pose proof (referred_exists s ns t) as Hr.
  destruct (at_ s t) as [|nd|nd| |[old|]|old nx|old|old] eqn:Ht; [done|..].
  - destruct (Ho nd Hi eq_refl) as [n Hn]. eexists. split; [done|]. unfold rank. rewrite at_go, decide_True by done.
    simpl. unfold set_next. rewrite lookup_alter_eq, Hn. simpl. rewrite decide_True by done. lia.
  - destruct (Ho nd Hi eq_refl) as [n Hn]. rewrite Hn. simpl. destruct (decide (head s = next n)) as [E|E].
    + eexists. split; [done|]. unfold rank. rewrite at_go, !decide_True by (done || by rewrite E). lia.
    + eexists. split; [done|]. rewrite decide_False by congruence. unfold rank.
      change (at_ (set_nodes _ s) t) with (at_ s t). rewrite Ht. simpl.
      unfold set_next. rewrite lookup_alter_eq, Hn. simpl. rewrite decide_True by done. lia.
  - eexists. split; [done|]. lia.
  - destruct (Hr old Hi eq_refl) as [n Hn]. unfold next_of. rewrite Hn. eexists. split; [done|].
    unfold rank. rewrite at_go, decide_True by done. simpl. destruct (decide (head s = Some old)); lia.
  - eexists. split; [done|]. unfold rank. rewrite at_go, decide_True by done. lia.
  - destruct (Hr old Hi eq_refl) as [n Hn]. destruct (decide (head s = Some old));
      [rewrite decide_False by (by apply alone_no_race); rewrite Hn|]; (eexists; split; [done|]).
    + unfold rank. rewrite at_go, decide_True by done. lia.
    + lia.
  - eexists. split; [done|]. unfold rank. rewrite at_go, decide_True by done. lia.
  - destruct (Hr old Hi eq_refl) as [n Hn]. rewrite Hn. eexists. split; [done|].
    unfold rank. rewrite at_go, decide_True by done. lia.
Qed.

Lemma solo t m s : inv s -> alone t s -> (rank t s <= m)%nat ->
  exists k s', (k <= m)%nat /\ runs step s (repeat (Run t) k) s' /\ at_ s' t = Idle.
Proof.
  revert s. induction m as [|m IH]; intros s Hi Ha Hm.
  - exists 0%nat, s. split; [done|]. split; [constructor|]. unfold rank in Hm.
    destruct (at_ s t) as [| | | |[]| | |]; try done; try lia; case_decide; lia.
  - destruct (at_ s t) eqn:Ht; [exists 0%nat, s; split; [lia|]; split; [constructor|done]|..].
    all: destruct (solo_step t s Hi) as (s1 & Hs & Hlt); [done|by rewrite Ht|].
    all: destruct (IH s1) as (k & s' & Hk & Hrun & Hend); [by eapply stack7_step_inv|by eapply alone_run|lia|].
    all: exists (S k), s'; split; [lia|]; split; [by econstructor|done].
Qed.

Lemma rank_bound t s : (rank t s <= 6)%nat.
Proof. unfold rank. destruct (at_ s t) as [| | | |[]| | |]; try case_decide; lia. Qed.

Lemma stack_new_inv : inv stack_new.
Proof.
  exists []. split; [done|]. split; [constructor|]. split; [constructor|]. split; [done|].
  intros t. unfold thread_ok, at_. simpl. done.
Qed.
End stack7.

(** C20. [lock_free_stack_7], any number of threads, in every run: the
    operations, in the order in which they take effect, are those of a stack, and
    the list from the head on is its contents; the values the pops of a thread
    returned are, in order, the ones they found there, but for the one of the call
    it is in; the only undefined step is a [pop] that takes out a node whose [next]
    another [pop] reads or has read without an order between them (the plain read of
    line 235 races with the store of line 238), so that pushes and one [pop]
    at a time are always defined; and a thread that runs alone, while no other
    is in such a read, ends its call in at most six steps. *)
Theorem lockfree_linearizable {A} ls (s : @stack A) :
  runs step stack_new ls s ->
  (exists ns, chain (nodes s) (head s) ns /\ NoDup ns /\ legal (hist s) (contents (nodes s) ns)) /\
  (forall t, found t (hist s) = returned t (rets s) ++ pending (nodes s) (at_ s t)) /\
  (forall l, (exists o, step l s = Ok o) \/ (race_step l s /\ step l s = UB)) /\
  (forall t, alone t s ->
     (exists o, step (Run t) s = Ok o) /\
     exists k s', (k <= 6)%nat /\ runs step s (repeat (Run t) k) s' /\ at_ s' t = Idle).
Proof.
  intros Hrun. assert (Hi : inv s).
  { eapply runs_invariant; [|exact stack_new_inv|exact Hrun]. intros l s1 s2. apply stack7_step_inv. }
  split; [|split; [|split]].
  - destruct Hi as (ns & Hc & Hnd & Hl & _). by exists ns.
  - destruct Hi as (ns & _ & _ & _ & _ & Hth). intros t. apply (Hth t).
  - intros l. by apply stack7_step_defined.
  - intros t Ha. split; [|by apply solo, rank_bound].
    destruct (stack7_step_defined (Run t) s Hi) as [Ho|[(t' & old & nx & [= <-] & _ & _ & Hr) _]]; [done|].
    by apply alone_no_race in Hr.
Qed.

(** Thread 1 pushes 7; thread 2 starts to pop; thread 1 pushes 8, so that the
    compare-exchange of thread 2 fails; it looks at the head again and takes 8. *)
Definition demo_stack_run : list (label (A := Z)) :=
  [CallPush 1 7 1; Run 1; Run 1; CallPop 2; Run 2; CallPush 1 8 2; Run 1; Run 2; Run 1; Run 2; Run 2; Run 2;
   Run 2; Run 2].

Lemma lockfree_linearizable_witness :
  exists s, runs step stack_new demo_stack_run s /\ rets s = [(2%nat, Some 8)] /\
    found 2 (hist s) = returned 2 (rets s) ++ pending (nodes s) (at_ s 2).
Proof.
  assert (E : exists s, execute step demo_stack_run stack_new = Some s /\ rets s = [(2%nat, Some 8)])
    by (eexists; split; [vm_compute; reflexivity|reflexivity]).
  destruct E as (s & E & Hr). apply execute_runs in E. exists s. split; [exact E|]. split; [exact Hr|].
  destruct (lockfree_linearizable _ _ E) as (_ & Hf & _ & _). exact (Hf 2%nat).
Defined.

(** Thread 2 has the head when thread 3 takes it out. *)
Definition demo_race : list (label (A := Z)) :=
  [CallPush 1 7 1; Run 1; Run 1; CallPop 2; Run 2; CallPop 3; Run 3; Run 3].

(** Two calls of [pop] that have the same head race. *)
Theorem pop_races :
  exists s, runs step stack_new
      demo_race s /\
    step (Run 3) s = UB.
Proof.
  assert (E : exists s, execute step
      demo_race stack_new = Some s /\
      step (Run 3) s = UB) by (eexists; split; vm_compute; reflexivity).
  destruct E as (s & E & H). exists s. split; [by apply execute_runs|exact H].
Qed.

(** [lock_free_stack::pop] on an empty stack dereferences a null pointer;
    otherwise its "result" is the pointer to the next node, not the data. *)
Lemma first_pop_empty {A} (h : heap A) : First.pop h None = UB.
Proof. done. Qed.

Lemma first_push_pop {A} (h : heap A) head l d :
  let '(h', head') := First.push h head l d in First.pop h' head' = Ok (head, head).
Proof. unfold First.push, First.pop. by rewrite lookup_insert_eq. Qed.
