(* ===== verification/Parallel.v ===== *)
(** * Parallel algorithms
      ([cpp_concurrency_2nd/parallel_find_accu_async_for_each.cpp])

    A range [fst, lst) of random-access iterators is the list of its elements;
    an iterator is its distance from [fst].  The blocks a function cuts the range
    into are computed; the threads that work on them take their steps in any
    order.  [std::thread::hardware_concurrency()] is an argument.  Threads and
    futures are created without an exception. *)

From S2P Require Import Prelude CppInt Turns.

#[local] Arguments Nat.div : simpl never.

(** ** Blocks *)

Definition min_per_thread : Z := 25.

(** The computation is the same in [parallel_accumulate], [parallel_accu],
    [parallel_for_each] and [parallel_find]. *)
Definition max_threads (length : Z) : Z := u64 (u64 (length + min_per_thread) - 1) / min_per_thread.
Definition num_threads (hardware length : Z) : Z :=
  Z.min (if decide (hardware = 0) then 2 else hardware) (max_threads length).
Definition block_size (hardware length : Z) : Z := length / num_threads hardware length.

(** [n] blocks of [size] elements, and the rest of the range for the caller. *)
Fixpoint cut (n : nat) (st size lst : nat) : list (nat * nat) :=
  match n with
  | O => [(st, lst)]
  | S n => let en := (st + size)%nat in (st, en) :: cut n en size lst
  end.

Definition blocks (hardware : Z) (length : nat) : list (nat * nat) :=
  let n := num_threads hardware (Z.of_nat length) in
  cut (Z.to_nat (n - 1)) 0 (Z.to_nat (block_size hardware (Z.of_nat length))) length.

(** The elements of [a, b). *)
Definition sub {A} (v : list A) (a b : nat) : list A := take (b - a) (drop a v).

Lemma num_threads_range hw n :
  0 <= hw -> 0 < n < 2 ^ 63 -> 1 <= num_threads hw n /\ num_threads hw n <= n.
Proof.
  intros Hh Hn. unfold num_threads, max_threads, min_per_thread.
  rewrite (u64_small (n + 25)), u64_small by lia.
  pose proof (Z.div_le_lower_bound (n + 25 - 1) 25 1). pose proof (Z.div_le_upper_bound (n + 25 - 1) 25 n).
  case_decide; lia.
Qed.

Lemma block_size_range hw n :
  0 <= hw -> 0 < n < 2 ^ 63 ->
  1 <= block_size hw n /\ (num_threads hw n - 1) * block_size hw n + block_size hw n <= n.
Proof.
  intros Hh Hn. destruct (num_threads_range hw n Hh Hn). unfold block_size.
  pose proof (Z.mul_div_le n (num_threads hw n)). pose proof (Z.div_le_lower_bound n (num_threads hw n) 1). lia.
Qed.

(** A list of blocks that covers [st, lst) from left to right. *)
Inductive covers (lst : nat) : nat -> list (nat * nat) -> Prop :=
  | covers_nil : covers lst lst []
  | covers_cons a b bs : (a <= b)%nat -> covers lst b bs -> covers lst a ((a, b) :: bs).

Lemma covers_le lst st bs : covers lst st bs -> (st <= lst)%nat.
Proof. induction 1; lia. Qed.

Lemma cut_covers n st size lst : (st + n * size <= lst)%nat -> covers lst st (cut n st size lst).
Proof.
  revert st. induction n as [|n IH]; intros st H; simpl.
  - repeat constructor. lia.
  - constructor; [lia|]. apply IH. lia.
Qed.

Lemma cut_length n st size lst : length (cut n st size lst) = S n.
Proof. revert st. induction n as [|n IH]; intros st; [done|]. simpl. by rewrite IH. Qed.

Lemma blocks_cover hw n : 0 <= hw -> (0 < n)%nat -> Z.of_nat n < 2 ^ 63 -> covers n 0 (blocks hw n).
Proof.
  intros Hh H1 H2. apply cut_covers. destruct (num_threads_range hw (Z.of_nat n) Hh) as [H3 _]; [lia|].
  destruct (block_size_range hw (Z.of_nat n) Hh) as [H4 H5]; [lia|]. nia.
Qed.

Lemma blocks_length hw n : 0 <= hw -> (0 < n)%nat -> Z.of_nat n < 2 ^ 63 ->
  Z.of_nat (length (blocks hw n)) = num_threads hw (Z.of_nat n).
Proof.
  intros Hh H1 H2. unfold blocks. rewrite cut_length. destruct (num_threads_range hw (Z.of_nat n) Hh); lia.
Qed.

Lemma covers_range lst st bs i a b :
  covers lst st bs -> bs !! i = Some (a, b) -> (st <= a /\ a <= b /\ b <= lst)%nat.
Proof.
  intros Hc. revert i. induction Hc as [|a' b' bs Hle Hc IH]; intros i Hi; [done|].
  apply covers_le in Hc. destruct i as [|i]; simpl in Hi; [injection Hi as <- <-; lia|].
  specialize (IH i Hi). lia.
Qed.

(** Blocks are disjoint. *)
Lemma covers_disjoint lst st bs i j a b a' b' :
  covers lst st bs -> bs !! i = Some (a, b) -> bs !! j = Some (a', b') -> (i < j)%nat -> (b <= a')%nat.
Proof.
  intros Hc. revert i j. induction Hc as [|a0 b0 bs Hle Hc IH]; intros i j Hi Hj Hlt; [done|].
  destruct j as [|j]; [lia|]. destruct i as [|i]; simpl in *.
  - injection Hi as <- <-. by eapply covers_range in Hj as (? & _ & _).
  - eapply (IH i j); [done|done|lia].
Qed.

(** ** Sub-ranges *)

Section sub_facts.
Context {A : Type}.
Implicit Types v : list A.

Lemma sub_nil v a : sub v a a = [].
Proof. unfold sub. by rewrite Nat.sub_diag. Qed.

Lemma sub_all v : sub v 0 (length v) = v.
Proof. unfold sub. rewrite Nat.sub_0_r, drop_0. by apply take_ge. Qed.

Lemma sub_app v a b c : (a <= b)%nat -> (b <= c)%nat -> sub v a b ++ sub v b c = sub v a c.
Proof.
  intros H1 H2. unfold sub. replace (c - a)%nat with ((b - a) + (c - b))%nat by lia.
  replace b with (a + (b - a))%nat at 3 by lia. rewrite <- drop_drop, take_take_drop. done.
Qed.

Lemma sub_one v a x : v !! a = Some x -> sub v a (S a) = [x].
Proof.
  intros H. unfold sub. replace (S a - a)%nat with 1%nat by lia. apply drop_S in H. by rewrite H.
Qed.

Lemma sub_cons v a b x : (a < b)%nat -> v !! a = Some x -> sub v a b = x :: sub v (S a) b.
Proof. intros H1 H2. rewrite <- (sub_app v a (S a) b) by lia. by rewrite (sub_one v a x). Qed.

Lemma sub_snoc v a b x : (a <= b)%nat -> v !! b = Some x -> sub v a (S b) = sub v a b ++ [x].
Proof. intros H1 H2. rewrite <- (sub_app v a b (S b)) by lia. by rewrite (sub_one v b x). Qed.

Lemma sub_insert_out v a b i x : (i < a \/ b <= i)%nat -> sub (<[i := x]> v) a b = sub v a b.
Proof.
  intros [H|H]; unfold sub.
  - by rewrite drop_insert_lt.
  - destruct (decide (a <= i)%nat) as [Ha|Ha].
    + rewrite drop_insert_ge by lia. by rewrite take_insert_ge by lia.
    + replace (b - a)%nat with 0%nat by lia. done.
Qed.


Lemma concat_covers v lst st bs : covers lst st bs -> concat (map (fun r => sub v r.1 r.2) bs) = sub v st lst.
Proof.
  induction 1 as [|a b bs Hle Hc IH]; simpl; [by rewrite sub_nil|].
  rewrite IH. apply sub_app; [done|by eapply covers_le].
Qed.
End sub_facts.

(** ** [parallel_accumulate] and [parallel_accu] *)

(** An exception that leaves a thread, or that destroys a joinable [std::thread]. *)
Definition terminate : exn := ExnNamed "std::terminate".

Section accumulate.
Context {T : Type} (plus : T -> T -> outcome T) (zero : T).

(** [std::accumulate] *)
Fixpoint accumulate (l : list T) (acc : T) : outcome T :=
  match l with
  | [] => Ok acc
  | x :: l => acc ← plus acc x; accumulate l acc
  end.

Definition accumulate_block (l : list T) (fst lst : nat) (result : T) : outcome T :=
  accumulate (sub l fst lst) result.

(** A block whose exception meets threads that are not joined yet. *)
Definition unjoined {A} (threads : nat) (o : outcome A) : outcome A :=
  match o with
  | Throw e => if decide (threads = 0%nat) then Throw e else Throw terminate
  | _ => o
  end.

(** The blocks write their results in the order in which they end. *)
Fixpoint run_blocks (l : list T) (bs : list (nat * nat)) (order : list nat) (results : list T) : outcome (list T) :=
  match order with
  | [] => Ok results
  | i :: order =>
      match bs !! i, results !! i with
      | Some (st, en), Some r =>
          r ← unjoined (length bs - 1) (accumulate_block l st en r);
          run_blocks l bs order (<[i := r]> results)
      | _, _ => UB
      end
  end.

Definition parallel_accumulate (hardware : Z) (order : list nat) (l : list T) (init : T) : outcome T :=
  if decide (length l = 0%nat) then Ok init
  else
    let bs := blocks hardware (length l) in
    results ← run_blocks l bs order (replicate (length bs) zero);
    accumulate results init.

Definition accu_block (l : list T) (fst lst : nat) : outcome T := accumulate (sub l fst lst) zero.

(** [futures[i].get()] gives the value of the task or throws what it threw. *)
Fixpoint add_futures (futures : list (outcome T)) (result : T) : outcome T :=
  match futures with
  | [] => Ok result
  | f :: futures => x ← f; result ← plus result x; add_futures futures result
  end.

Definition parallel_accu (hardware : Z) (l : list T) (init : T) : outcome T :=
  if decide (length l = 0%nat) then Ok init
  else
    let bs := blocks hardware (length l) in
    let futures := map (fun b => accu_block l b.1 b.2) (take (length bs - 1) bs) in
    match last bs with
    | None => UB
    | Some (st, lst) =>
        if existsb (fun f => match f with UB => true | _ => false end) futures then UB
        else
          lst_res ← unjoined (length futures) (accu_block l st lst);
          result ← add_futures futures init;
          plus result lst_res
    end.
End accumulate.

(** What the algorithms rely on: an associative operation with a neutral element
    that is defined as long as the weights of what is added stay below a bound. *)
Class Summable (T : Type) (plus : T -> T -> outcome T) (zero : T) := {
  mul : T -> T -> T;
  weight : T -> Z;
  bound : Z;
  plus_mul x y : weight x + weight y < bound -> plus x y = Ok (mul x y);
  mul_weight x y : weight (mul x y) <= weight x + weight y;
  weight_zero : weight zero = 0;
  weight_nonneg x : 0 <= weight x;
  mul_zero_l x : mul zero x = x;
  mul_zero_r x : mul x zero = x;
  mul_assoc x y z : mul x (mul y z) = mul (mul x y) z;
}.

#[export] Program Instance int_summable : Summable Z int_add 0 := {| mul := Z.add; weight := Z.abs; bound := 2 ^ 31 |}.
Next Obligation. intros x y H. unfold int_add. apply schk_ok. unfold in_s. lia. Qed.
Solve All Obligations with (intros; cbn beta; lia).

#[export] Program Instance append_summable {A} : Summable (list A) (fun x y => Ok (x ++ y)) [] :=
  {| mul := app; weight := fun _ => 0; bound := 1 |}.
Solve All Obligations with (intros; rewrite ?app_nil_r, ?app_assoc; (done || lia)).

Section sums.
Context {T : Type} {plus : T -> T -> outcome T} {zero : T} `{!Summable T plus zero}.

Definition total (l : list T) : Z := foldr (fun x n => weight x + n) 0 l.
Definition product (acc : T) (l : list T) : T := foldl mul acc l.

Lemma weights_nonneg l : 0 <= total l.
Proof. induction l as [|x l IH]; simpl; [lia|]. pose proof (weight_nonneg x). lia. Qed.

Lemma total_app l k : total (l ++ k) = total l + total k.
Proof. induction l as [|x l IH]; simpl; [lia|]. rewrite IH. lia. Qed.

Lemma product_acc acc l : product acc l = mul acc (product zero l).
Proof.
  unfold product. revert acc. induction l as [|x l IH]; intros acc; simpl; [by rewrite mul_zero_r|].
  rewrite IH, (IH (mul zero x)), mul_zero_l. by rewrite mul_assoc.
Qed.

Lemma product_app acc l k : product acc (l ++ k) = product (product acc l) k.
Proof. apply foldl_app. Qed.

Lemma product_weight acc l : weight (product acc l) <= weight acc + total l.
Proof.
  unfold product. revert acc. induction l as [|x l IH]; intros acc; simpl; [lia|].
  specialize (IH (mul acc x)). pose proof (mul_weight acc x). lia.
Qed.

Lemma accumulate_ok l acc : weight acc + total l < bound -> accumulate plus l acc = Ok (product acc l).
Proof.
  revert acc. induction l as [|x l IH]; intros acc H; [done|]. simpl in *.
  pose proof (weights_nonneg l). pose proof (mul_weight acc x).
  rewrite plus_mul by lia. simpl. apply IH. lia.
Qed.

Lemma total_sub l a b : total (sub l a b) <= total l.
Proof.
  pose proof (total_app (take a l) (drop a l)) as H1. rewrite take_drop in H1.
  pose proof (total_app (take (b - a) (drop a l)) (drop (b - a) (drop a l))) as H2. rewrite take_drop in H2.
  pose proof (weights_nonneg (take a l)). pose proof (weights_nonneg (drop (b - a) (drop a l))). unfold sub. lia.
Qed.

(** What the block [b] adds up to. *)
Definition block_sum (l : list T) (b : nat * nat) : T := product zero (sub l b.1 b.2).

Lemma accu_block_ok l b : total l < bound -> accu_block plus zero l b.1 b.2 = Ok (block_sum l b).
Proof. intros H. apply accumulate_ok. rewrite weight_zero. pose proof (total_sub l b.1 b.2). lia. Qed.

Lemma product_blocks l bs acc :
  product acc (map (block_sum l) bs) = product acc (concat (map (fun b => sub l b.1 b.2) bs)).
Proof.
  revert acc. induction bs as [|b bs IH]; intros acc; [done|].
  cbn [map concat]. rewrite product_app, <- IH, (product_acc acc (sub l b.1 b.2)). done.
Qed.

Lemma total_blocks l bs :
  total (map (block_sum l) bs) <= total (concat (map (fun b => sub l b.1 b.2) bs)).
Proof.
  induction bs as [|b bs IH]; [done|]. cbn [map concat]. rewrite total_app. simpl.
  pose proof (product_weight zero (sub l b.1 b.2)) as Hp. rewrite weight_zero in Hp. unfold block_sum at 1. lia.
Qed.

Lemma run_blocks_ok l bs order results :
  total l < bound -> NoDup order ->
  (forall i, i ∈ order -> results !! i = Some zero /\ is_Some (bs !! i)) ->
  exists rs, run_blocks plus l bs order results = Ok rs /\
    forall i, rs !! i = if decide (i ∈ order) then block_sum l <$> bs !! i else results !! i.
Proof.
  intros Hl. revert results. induction order as [|i order IH]; intros results Hnd Hr.
  - exists results. split; [done|]. intros i. by rewrite decide_False by apply not_elem_of_nil.
  - apply NoDup_cons in Hnd as [Hi Hnd]. destruct (Hr i ltac:(left)) as [Hz [[st en] Hb]]. simpl. rewrite Hb, Hz.
    change (accumulate_block plus l st en zero) with (accu_block plus zero l (st, en).1 (st, en).2).
    rewrite accu_block_ok by done. simpl.
    destruct (IH (<[i := block_sum l (st, en)]> results) Hnd) as (rs & E & Hrs).
    { intros j Hj. rewrite list_lookup_insert_ne by (by intros ->). apply Hr. by right. }
    exists rs. split; [done|]. intros j. rewrite Hrs. destruct (decide (j = i)) as [->|Hne].
    + rewrite decide_False, decide_True by (done || left). rewrite Hb.
      apply list_lookup_insert_eq. by eapply lookup_lt_Some.
    + rewrite list_lookup_insert_ne by done. destruct (decide (j ∈ order)) as [Hj|Hj].
      * by rewrite decide_True by (by right).
      * rewrite decide_False; [done|]. by intros [->|?]%elem_of_cons.
Qed.

Lemma run_all_blocks l bs order :
  total l < bound -> order ≡ₚ seq 0 (length bs) ->
  run_blocks plus l bs order (replicate (length bs) zero) = Ok (map (block_sum l) bs).
Proof.
  intros Hl Ho.
  assert (Hin : forall i, i ∈ order <-> (i < length bs)%nat).
  { intros i. rewrite Ho, elem_of_seq. lia. }
  destruct (run_blocks_ok l bs order (replicate (length bs) zero) Hl) as (rs & E & Hrs).
  - rewrite Ho. apply NoDup_seq.
  - intros i Hi%Hin. split; [by apply lookup_replicate_2|by apply lookup_lt_is_Some].
  - rewrite E. f_equal. apply list_eq. intros i. rewrite Hrs. change (map (block_sum l) bs) with (block_sum l <$> bs).
    rewrite list_lookup_fmap. destruct (decide (i ∈ order)) as [Hi|Hi]; [done|].
    rewrite Hin in Hi. rewrite !lookup_ge_None_2; rewrite ?length_replicate; (done || lia).
Qed.

Lemma add_futures_ok xs acc : add_futures plus (map Ok xs) acc = accumulate plus xs acc.
Proof. revert acc. induction xs as [|x xs IH]; intros acc; [done|]. simpl. destruct (plus acc x); [apply IH|done..]. Qed.

Lemma no_undefined (xs : list T) :
  existsb (fun f : outcome T => match f with UB => true | _ => false end) (map Ok xs) = false.
Proof. by induction xs. Qed.
End sums.

(** C26. [parallel_accumulate] and [parallel_accu] equal [std::accumulate], whatever
    the number of processors and the order in which the blocks are finished, for
    every associative operation with [T()] as its neutral element; the order of the
    elements is kept.  For [int] it is enough that the absolute values of all
    numbers add up to less than [2^31]: then nothing overflows. *)
Theorem parallel_accumulate_equiv {T} (plus : T -> T -> outcome T) (zero : T) `{!Summable T plus zero}
    hw order l init :
  0 <= hw -> len l < 2 ^ 63 -> order ≡ₚ seq 0 (length (blocks hw (length l))) ->
  weight init + total l < bound ->
  accumulate plus l init = Ok (product init l) /\
  parallel_accumulate plus zero hw order l init = Ok (product init l) /\
  parallel_accu plus zero hw l init = Ok (product init l).
Proof.
  intros Hh Hlen Ho Hb. pose proof (weight_nonneg init) as Hw. pose proof (weights_nonneg l) as Ht.
  split; [by apply accumulate_ok|]. unfold parallel_accumulate, parallel_accu.
  destruct (decide (length l = 0%nat)) as [E|E]; [by apply nil_length_inv in E as ->|].
  pose proof (blocks_cover hw (length l) Hh ltac:(lia) Hlen) as Hc.
  pose proof (concat_covers l _ _ _ Hc) as Hcat. rewrite sub_all in Hcat.
  set (bs := blocks hw (length l)) in *. pose proof (total_blocks l bs) as Htb. rewrite Hcat in Htb.
  pose proof (product_blocks l bs init) as Hp. rewrite Hcat in Hp. split.
  - rewrite run_all_blocks by (done || lia). simpl. rewrite accumulate_ok by lia. by rewrite Hp.
  - destruct (last bs) as [[st lst]|] eqn:Hlast; [|exfalso].
    + apply last_Some in Hlast as [bs' Hbs]. rewrite Hbs.
      replace (length (bs' ++ [(st, lst)]) - 1)%nat with (length bs') by list_lia. rewrite take_app_length.
      assert (Hf : map (fun b => accu_block plus zero l b.1 b.2) bs' = map Ok (map (block_sum l) bs')).
      { rewrite map_map. apply map_ext. intros b. apply accu_block_ok. lia. }
      rewrite Hf, no_undefined. rewrite Hbs, map_app in Hp, Htb. rewrite total_app in Htb. rewrite product_app in Hp.
      simpl in Htb, Hp. pose proof (weight_nonneg (block_sum l (st, lst))) as Hw2.
      pose proof (product_weight init (map (block_sum l) bs')) as Hpw.
      change (accu_block plus zero l st lst) with (accu_block plus zero l (st, lst).1 (st, lst).2).
      rewrite accu_block_ok by lia. cbn [unjoined mbind outcome_bind]. rewrite add_futures_ok, accumulate_ok by lia.
      simpl. rewrite plus_mul by lia. f_equal. exact Hp.
    + apply last_None in Hlast. inversion Hc as [Hz|]; [lia|congruence].
Qed.

Lemma parallel_accumulate_equiv_witness :
  [2; 0; 1]%nat ≡ₚ seq 0 (length (blocks 4 60)) /\
  parallel_accumulate int_add 0 4 [2; 0; 1]%nat (replicate 60 (-7)) 1000 = Ok 580 /\
  parallel_accumulate (fun x y => Ok (x ++ y)) [] 4 [2; 0; 1]%nat (replicate 60 [true]) [false] =
    Ok (false :: replicate 60 true).
Proof.
  assert (Ho : [2; 0; 1]%nat ≡ₚ seq 0 (length (blocks 4 60))).
  { exact (Permutation_app_comm [2%nat] [0%nat; 1%nat]). }
  split; [exact Ho|]. split.
  - destruct (parallel_accumulate_equiv int_add 0 4 [2; 0; 1]%nat (replicate 60 (-7)) 1000) as (_ & E & _);
      [lia|reflexivity|exact Ho|reflexivity|exact E].
  - destruct (parallel_accumulate_equiv (fun x y : list bool => Ok (x ++ y)) [] 4 [2; 0; 1]%nat
      (replicate 60 [true]) [false]) as (_ & E & _); [lia|reflexivity|exact Ho|reflexivity|exact E].
Defined.

(** The sums of the blocks may overflow where the sum from left to right does not. *)
Lemma parallel_accumulate_overflow :
  let l := [2 ^ 30; 2 ^ 30] ++ replicate 30 0 in
  accumulate int_add l (- 2 ^ 31) = Ok 0 /\
  parallel_accumulate int_add 0 4 [0; 1]%nat l (- 2 ^ 31) = UB.
Proof. split; vm_compute; reflexivity. Qed.

(** ** [parallel_for_each] *)

Module ForEach.
Section for_each.
Context {T : Type}.

(** What a call of [f] leaves in the element, and what it throws. *)
Context (f : T -> T * option exn).

(** [std::for_each] *)
Fixpoint for_each (l : list T) : list T * option exn :=
  match l with
  | [] => ([], None)
  | x :: l =>
      match f x with
      | (y, Some e) => (y :: l, Some e)
      | (y, None) => (y :: (for_each l).1, (for_each l).2)
      end
  end.

(** A thread in the loop of [std::for_each], and what its future will rethrow. *)
Record worker := mkWorker { at_ : nat; en : nat; fail : option exn }.
Record state := mkState { vec : list T; workers : list worker }.

(** The last worker is the caller. *)
Definition spawn (hardware : Z) (v : list T) : state :=
  if decide (length v = 0%nat) then mkState v []
  else mkState v (map (fun b => mkWorker b.1 b.2 None) (blocks hardware (length v))).

Definition step (i : nat) (s : state) : outcome (option state) :=
  match workers s !! i with
  | None => Ok None
  | Some w =>
      if decide (is_Some (fail w) \/ at_ w = en w) then Ok None
      else
        match vec s !! at_ w with
        | None => UB
        | Some x =>
            let r := f x in
            let st := match r.2 with None => S (at_ w) | Some _ => at_ w end in
            Ok (Some (mkState (<[at_ w := r.1]> (vec s)) (<[i := mkWorker st (en w) r.2]> (workers s))))
        end
  end.

Fixpoint first_failure (es : list (option exn)) : outcome unit :=
  match es with
  | [] => Ok tt
  | Some e :: _ => Throw e
  | None :: es => first_failure es
  end.

(** The exception of the caller's block propagates after the threads are joined;
    otherwise the futures are asked in order. *)
Definition rethrow (es : list (option exn)) : outcome unit :=
  match last es with
  | Some (Some e) => Throw e
  | _ => first_failure (take (length es - 1) es)
  end.

Definition parallel_for_each (s : state) : outcome unit := rethrow (map fail (workers s)).

(** [parallel_for_each_async]: a range of fewer than 50 elements is not divided.
    [std::async] may run the first half at once or, [deferred], when its future is
    asked; if the second half throws, the destructor of the future waits for a
    running task and drops a deferred one. *)
Fixpoint parallel_for_each_async (deferred : nat -> nat -> bool) (fuel st : nat) (l : list T) :
    option (list T * option exn) :=
  match fuel with
  | O => None
  | S fuel =>
      if decide (length l = 0%nat) then Some (l, None)
      else if decide (len l < 2 * min_per_thread) then Some (for_each l)
      else
        let md := (length l / 2)%nat in
        let run_first k :=
          match parallel_for_each_async deferred fuel st (take md l) with None => None | Some r => Some (k r) end in
        match parallel_for_each_async deferred fuel (st + md) (drop md l) with
        | None => None
        | Some (l2, Some e) =>
            if deferred st (st + md)%nat then Some (take md l ++ l2, Some e)
            else run_first (fun r => (r.1 ++ l2, Some e))
        | Some (l2, None) => run_first (fun r => (r.1 ++ l2, r.2))
        end
  end.

(** *** Every block comes out as [std::for_each] leaves it *)

(** The block [a, b) of the start vector [v0] and a worker on it: what is done, and
    what is still to be done. *)
Definition block_ok (v0 v : list T) (a b : nat) (w : worker) : Prop :=
  en w = b /\ (a <= at_ w <= b)%nat /\
  match fail w with
  | None =>
      let r := for_each (sub v (at_ w) b) in (sub v a (at_ w) ++ r.1, r.2) = for_each (sub v0 a b)
  | Some e => (sub v a b, Some e) = for_each (sub v0 a b)
  end.

Definition inv (v0 : list T) (bs : list (nat * nat)) (s : state) : Prop :=
  length (vec s) = length v0 /\ length (workers s) = length bs /\
  forall i a b w, bs !! i = Some (a, b) -> workers s !! i = Some w -> block_ok v0 (vec s) a b w.

Definition weight (w : worker) : Z := match fail w with None => Z.of_nat (en w - at_ w) | Some _ => 0 end.
Definition measure (s : state) : Z := sum_over weight (workers s).

Lemma block_ok_other v0 v a b w k y :
  (k < a \/ b <= k)%nat -> block_ok v0 v a b w -> block_ok v0 (<[k := y]> v) a b w.
Proof.
  intros Hk (He & Ha & Hf). split; [done|]. split; [done|].
  destruct (fail w); rewrite !sub_insert_out by lia; done.
Qed.

Lemma block_ok_step v0 v a b w x :
  block_ok v0 v a b w -> fail w = None -> at_ w <> b -> v !! at_ w = Some x ->
  block_ok v0 (<[at_ w := (f x).1]> v) a b
    (mkWorker (match (f x).2 with None => S (at_ w) | Some _ => at_ w end) b (f x).2).
Proof.
  intros (He & Ha & Hf) Hn Hb Hx. rewrite Hn in Hf. rewrite (sub_cons v (at_ w) b x) in Hf by (done || lia). simpl in Hf.
  assert (Hy : <[at_ w := (f x).1]> v !! at_ w = Some (f x).1).
  { apply list_lookup_insert_eq. by eapply lookup_lt_Some. }
  destruct (f x) as [y [e|]]; simpl in *; (split; [done|]); simpl; (split; [lia|]).
  - rewrite <- Hf. f_equal. rewrite <- (sub_app _ a (at_ w) b) by lia.
    rewrite (sub_cons _ (at_ w) b y) by (done || lia). by rewrite !sub_insert_out by lia.
  - rewrite <- Hf. rewrite (sub_snoc _ a (at_ w) y) by (done || lia). rewrite !sub_insert_out by lia.
    by rewrite <- app_assoc.
Qed.

Lemma for_each_step_inv v0 bs i s s' :
  covers (length v0) 0 bs -> inv v0 bs s -> step i s = Ok (Some s') -> inv v0 bs s' /\ measure s' + 1 <= measure s.
Proof.
  intros Hc (Hl & Hw & Hb) Hs. unfold step in Hs. destruct (workers s !! i) as [w|] eqn:Ew; [|discriminate].
  case_decide as Hd; [discriminate|]. destruct (vec s !! at_ w) as [x|] eqn:Ex; [|discriminate]. injection Hs as <-.
  apply Decidable.not_or in Hd as [Hf Hne]. destruct (fail w) eqn:Efail; [by destruct Hf|].
  destruct (bs !! i) as [[a b]|] eqn:Eb; [|apply lookup_ge_None_1 in Eb; apply lookup_lt_Some in Ew; lia].
  pose proof (Hb i a b w Eb Ew) as (Hen & Hat & _). split.
  - split; [by simpl; rewrite length_insert|]. split; [by simpl; rewrite length_insert|]. intros j a' b' w' Ej Ew'. simpl in *.
    destruct (decide (j = i)) as [->|Hji].
    + rewrite list_lookup_insert_eq in Ew' by exact (lookup_lt_Some _ _ _ Ew). injection Ew' as <-.
      rewrite Eb in Ej. injection Ej as <- <-. rewrite Hen. apply block_ok_step; [by eapply Hb|done|by rewrite <- Hen|done].
    + rewrite list_lookup_insert_ne in Ew' by done. apply block_ok_other; [|by eapply Hb].
      destruct (decide (i < j)%nat).
      * left. pose proof (covers_disjoint _ _ _ i j _ _ _ _ Hc Eb Ej). lia.
      * right. pose proof (covers_disjoint _ _ _ j i _ _ _ _ Hc Ej Eb). lia.
  - unfold measure. simpl. rewrite (sum_over_insert weight _ _ w) by done. unfold weight. simpl. rewrite Efail.
    destruct ((f x).2); lia.
Qed.

Lemma for_each_step_defined v0 bs i s :
  covers (length v0) 0 bs -> inv v0 bs s -> exists o, step i s = Ok o.
Proof.
  intros Hc (Hl & Hw & Hb). unfold step. destruct (workers s !! i) as [w|] eqn:Ew; [|by eexists].
  case_decide as Hd; [by eexists|]. apply Decidable.not_or in Hd as [_ Hne].
  destruct (bs !! i) as [[a b]|] eqn:Eb; [|apply lookup_ge_None_1 in Eb; apply lookup_lt_Some in Ew; lia].
  pose proof (Hb i a b w Eb Ew) as (Hen & Hat & _). pose proof (covers_range _ _ _ _ _ _ Hc Eb).
  destruct (vec s !! at_ w) eqn:Ex; [by eexists|]. apply lookup_ge_None_1 in Ex. lia.
Qed.

Definition ranges (hardware : Z) (v : list T) : list (nat * nat) :=
  if decide (length v = 0%nat) then [] else blocks hardware (length v).

Lemma ranges_cover hw v : 0 <= hw -> len v < 2 ^ 63 -> covers (length v) 0 (ranges hw v).
Proof.
  intros Hh Hl. unfold ranges. destruct (decide (length v = 0%nat)) as [->|H]; [constructor|].
  apply blocks_cover; [done|lia|done].
Qed.

Lemma each_spawn_ranges hw v : spawn hw v = mkState v (map (fun b => mkWorker b.1 b.2 None) (ranges hw v)).
Proof. unfold spawn, ranges. by case_decide. Qed.

Lemma each_spawn_inv hw v : 0 <= hw -> len v < 2 ^ 63 -> inv v (ranges hw v) (spawn hw v).
Proof.
  intros Hh Hl. pose proof (ranges_cover hw v Hh Hl) as Hc. rewrite each_spawn_ranges. split; [done|].
  split; [apply length_map|]. intros i a b w Hb Hw. simpl in Hw.
  change (map ?g ?l) with (g <$> l) in Hw. rewrite list_lookup_fmap, Hb in Hw. injection Hw as <-.
  pose proof (covers_range _ _ _ _ _ _ Hc Hb). split; [done|]. simpl. split; [lia|].
  rewrite sub_nil. simpl. by destruct (for_each (sub v a b)).
Qed.

Lemma each_spawn_measure lst st bs :
  covers lst st bs -> sum_over weight (map (fun b => mkWorker b.1 b.2 None) bs) = Z.of_nat (lst - st).
Proof.
  induction 1 as [|a b bs Hle Hc IH]; simpl; [lia|]. rewrite IH. apply covers_le in Hc. unfold weight. simpl. lia.
Qed.

(** A worker that cannot go on has done what [std::for_each] does to its block. *)
Lemma block_done v0 v a b w :
  block_ok v0 v a b w -> is_Some (fail w) \/ at_ w = en w ->
  (sub v a b, fail w) = for_each (sub v0 a b).
Proof.
  intros (He & Ha & Hf) Hd. destruct (fail w) as [e|]; [exact Hf|]. destruct Hd as [[? ?]|Hd]; [done|].
  rewrite Hd, He, sub_nil in Hf. simpl in Hf. by rewrite app_nil_r in Hf.
Qed.

Lemma stuck_blocks v0 bs s :
  inv v0 bs s -> (forall i, step i s = Ok None) -> covers (length v0) 0 bs ->
  map (fun b => for_each (sub v0 b.1 b.2)) bs = zip (map (fun b => sub (vec s) b.1 b.2) bs) (map fail (workers s)).
Proof.
  intros (Hl & Hw & Hb) Hstuck Hc. apply list_eq. intros i.
  change (map ?g ?l) with (g <$> l). rewrite lookup_zip_with, !list_lookup_fmap.
  destruct (bs !! i) as [[a b]|] eqn:Eb; [|done].
  destruct (workers s !! i) as [w|] eqn:Ew; [|apply lookup_ge_None_1 in Ew; apply lookup_lt_Some in Eb; lia].
  simpl. f_equal. symmetry. apply (block_done v0); [by eapply Hb|]. specialize (Hstuck i). unfold step in Hstuck.
  rewrite Ew in Hstuck. case_decide; [done|]. by destruct (vec s !! at_ w).
Qed.

Lemma for_each_total l :
  (forall x, x ∈ l -> (f x).2 = None) -> for_each l = (map (fun x => (f x).1) l, None).
Proof.
  induction l as [|x l IH]; intros H; [done|]. simpl. rewrite IH by (intros; apply H; by right).
  specialize (H x ltac:(left)). destruct (f x) as [y o]. simpl in *. by rewrite H.
Qed.

Lemma first_failure_none {A} (l : list A) n : first_failure (take n (map (fun _ => None) l)) = Ok tt.
Proof. revert n. induction l as [|x l IH]; intros [|n]; try done. apply (IH n). Qed.

Lemma rethrow_none {A} (l : list A) : rethrow (map (fun _ => None) l) = Ok tt.
Proof.
  unfold rethrow. rewrite first_failure_none.
  destruct (last (map (fun _ => None) l)) as [[e|]|] eqn:E; [exfalso|done..].
  apply last_Some_elem_of in E. apply list_elem_of_In, in_map_iff in E as (? & ? & _). done.
Qed.

Lemma elem_of_sub (v : list T) a b x : x ∈ sub v a b -> x ∈ v.
Proof. intros H. rewrite <- (take_drop a v), <- (take_drop (b - a) (drop a v)). unfold sub in H. set_solver. Qed.

Lemma async_total deferred fuel st l :
  (forall x, x ∈ l -> (f x).2 = None) -> (length l < fuel)%nat ->
  parallel_for_each_async deferred fuel st l = Some (map (fun x => (f x).1) l, None).
Proof.
  revert st l. induction fuel as [|fuel IH]; intros st l Hf Hl; [lia|]. simpl.
  destruct (decide (length l = 0%nat)) as [E|E]; [by apply nil_length_inv in E as ->|].
  case_decide as Hd; [by rewrite for_each_total|]. unfold min_per_thread in Hd.
  assert (Hmd : (0 < length l / 2 < length l)%nat).
  { split; [apply Nat.div_str_pos|apply Nat.div_lt]; lia. }
  rewrite <- (take_drop (length l / 2) l) in Hf.
  rewrite !IH; try (intros x Hx; apply Hf; set_solver); [|rewrite ?length_take, ?length_drop; lia..].
  simpl. rewrite <- map_app. by rewrite take_drop.
Qed.
End for_each.
End ForEach.

(** [parallel_for_each], whatever the number of processors and the order in
    which the threads run: no step is undefined, at most one call of [f] is made
    per element, and at the end every block is as [std::for_each] leaves it, up to
    and including the first element whose call throws; the exception of the
    caller's block is rethrown, or else that of the first block with one.  If no call
    throws, every element is replaced by its image, as with [std::for_each]; so it
    is by [parallel_for_each_async], which then ends on every range. *)
Theorem parallel_for_each_blocks {T} (f : T -> T * option exn) hw v ls s :
  0 <= hw -> len v < 2 ^ 63 -> runs (ForEach.step f) (ForEach.spawn hw v) ls s ->
  (forall i, exists o, ForEach.step f i s = Ok o) /\ len ls <= len v /\
  ((forall i, ForEach.step f i s = Ok None) ->
   let rs := map (fun b => ForEach.for_each f (sub v b.1 b.2)) (ForEach.ranges hw v) in
   ForEach.vec s = concat (map fst rs) /\ ForEach.parallel_for_each s = ForEach.rethrow (map snd rs)) /\
  ((forall x, x ∈ v -> (f x).2 = None) ->
   ((forall i, ForEach.step f i s = Ok None) ->
    ForEach.vec s = map (fun x => (f x).1) v /\ ForEach.parallel_for_each s = Ok tt) /\
   forall deferred, ForEach.parallel_for_each_async f deferred (S (length v)) 0 v =
     Some (map (fun x => (f x).1) v, None)).
Proof.
  intros Hh Hl Hrun. pose proof (ForEach.ranges_cover hw v Hh Hl) as Hc.
  destruct (runs_bounded0 (ForEach.step f) (ForEach.inv f v (ForEach.ranges hw v)) ForEach.measure
    (ForEach.spawn hw v) ls s) as [Hi Hb]; [| |by apply ForEach.each_spawn_inv|exact Hrun|].
  { intros i s1 s2 H. by apply ForEach.for_each_step_inv. }
  { intros s1 _. apply sum_over_nonneg. intros w. unfold ForEach.weight. destruct (ForEach.fail w); lia. }
  assert (Hend : (forall i, ForEach.step f i s = Ok None) ->
    let rs := map (fun b => ForEach.for_each f (sub v b.1 b.2)) (ForEach.ranges hw v) in
    ForEach.vec s = concat (map fst rs) /\ ForEach.parallel_for_each s = ForEach.rethrow (map snd rs)).
  { intros Hstuck. simpl. rewrite (ForEach.stuck_blocks f v _ s Hi Hstuck Hc). destruct Hi as (Hlen & Hw & _).
    rewrite fst_zip, snd_zip by (rewrite !length_map; lia). split; [|done].
    rewrite concat_covers with (1 := Hc), <- Hlen. symmetry. apply sub_all. }
  split; [intros i; by eapply ForEach.for_each_step_defined|]. split; [|split; [exact Hend|]].
  - unfold ForEach.measure in Hb. rewrite ForEach.each_spawn_ranges in Hb. simpl in Hb.
    rewrite (ForEach.each_spawn_measure _ _ _ Hc) in Hb. lia.
  - intros Hf. split; [|intros deferred; apply ForEach.async_total; [done|lia]]. intros Hstuck.
    destruct (Hend Hstuck) as [-> ->].
    assert (E : map (fun b => ForEach.for_each f (sub v b.1 b.2)) (ForEach.ranges hw v) =
      map (fun b => (map (fun x => (f x).1) (sub v b.1 b.2), None)) (ForEach.ranges hw v)).
    { apply map_ext. intros b. apply ForEach.for_each_total. intros x Hx. apply Hf. by eapply ForEach.elem_of_sub. }
    rewrite E, !map_map. simpl. split.
    + rewrite <- (map_map (fun b => sub v b.1 b.2) (map (fun x => (f x).1))), <- concat_map.
      by rewrite (concat_covers v _ _ _ Hc), sub_all.
    + apply ForEach.rethrow_none.
Qed.

(** Doubling 60 numbers with two workers; the call on 40 throws. *)
Definition demo_double (x : Z) : Z * option exn := (2 * x, if decide (x = 40) then Some ExnLengthError else None).
Definition demo_vector : list Z := seqZ 0 60.
Definition demo_for_each_run : list nat := concat (replicate 11 [0; 1]%nat) ++ replicate 19 0%nat.

Lemma parallel_for_each_blocks_witness :
  exists s, runs (ForEach.step demo_double) (ForEach.spawn 2 demo_vector) demo_for_each_run s /\
    ForEach.parallel_for_each s = Throw ExnLengthError /\
    len demo_for_each_run <= len demo_vector.
Proof.
  assert (E : exists s, execute (ForEach.step demo_double) demo_for_each_run (ForEach.spawn 2 demo_vector) = Some s /\
    ForEach.parallel_for_each s = Throw ExnLengthError).
  { eexists. split; [vm_compute; reflexivity|vm_compute; reflexivity]. }
  destruct E as (s & E & Hres). apply execute_runs in E. exists s. split; [exact E|]. split; [exact Hres|].
  destruct (parallel_for_each_blocks demo_double 2 demo_vector demo_for_each_run s) as (_ & Hlen & _ & _);
    [lia|reflexivity|exact E|exact Hlen].
Defined.

(** ** Searching *)

Section search.
Context {T : Type} (matches : T -> outcome bool).

(** What a search of [v] may answer: an iterator to an element that matches, the
    end of a range without one, or what a comparison threw. *)
Definition search_result (v : list T) (r : outcome nat) : Prop :=
  match r with
  | Ok i => (i = length v /\ forall x, x ∈ v -> matches x = Ok false) \/
            exists x, v !! i = Some x /\ matches x = Ok true
  | Throw e => exists x, x ∈ v /\ matches x = Throw e
  | UB => False
  end.

(** Nothing in [a, b) matches. *)
Definition searched (v : list T) (a b : nat) : Prop := forall x, x ∈ sub v a b -> matches x = Ok false.

Lemma searched_nil v a : searched v a a.
Proof. intros x. rewrite sub_nil. by intros ?%not_elem_of_nil. Qed.

Lemma searched_snoc v a b x :
  (a <= b)%nat -> v !! b = Some x -> matches x = Ok false -> searched v a b -> searched v a (S b).
Proof.
  intros Hab Hx Hm Hs y. rewrite (sub_snoc v a b x) by done.
  intros [Hy|Hy]%elem_of_app; [by apply Hs|]. by apply list_elem_of_singleton in Hy as ->.
Qed.

Lemma searched_all v bs :
  covers (length v) 0 bs -> (forall a b, (a, b) ∈ bs -> searched v a b) -> forall x, x ∈ v -> matches x = Ok false.
Proof.
  intros Hc Hs x Hx. pose proof (concat_covers v _ _ _ Hc) as E. rewrite sub_all in E. rewrite <- E in Hx.
  apply list_elem_of_In, in_concat in Hx as (l & Hl & Hx). apply in_map_iff in Hl as ([a b] & <- & Hin).
  apply (Hs a b); by apply list_elem_of_In.
Qed.
End search.

(** A worker's position is still in its block. *)
Ltac same_place := split; [done|]; split; [lia|]; split; [done|].

Module Find.
Section find.
Context {T : Type} (matches : T -> outcome bool).

(** The loop test with its load of [done]; the comparison; [set_value];
    [set_exception] in the handler; [done->store(true)] after one of them. *)
Inductive pc : Type := Test | Compare | SetValue | SetException (e : exn) | Store | Returned.

Record worker := mkWorker { st : nat; en : nat; at_ : pc }.

Record state := mkState {
  promise : option (outcome nat);
  done : bool;
  workers : list worker;
}.

(** [promise_already_satisfied] *)
Definition future_error : exn := ExnNamed "std::future_error".

Definition spawn (hardware : Z) (v : list T) : state :=
  mkState None false (map (fun b => mkWorker b.1 b.2 Test) (ForEach.ranges hardware v)).

(** What [find_ele] does next in a worker: its position and program point, and
    what becomes of the promise and of [done]. *)
Definition find_ele (v : list T) (s : state) (w : worker) : outcome (worker * option (outcome nat) * bool) :=
  let go p := mkWorker (st w) (en w) p in
  match at_ w with
  | Test => Ok (go (if decide (st w = en w) then Returned else if done s then Returned else Compare), promise s, done s)
  | Compare =>
      match v !! st w with
      | None => UB
      | Some x =>
          match matches x with
          | Ok true => Ok (go SetValue, promise s, done s)
          | Ok false => Ok (mkWorker (S (st w)) (en w) Test, promise s, done s)
          | Throw e => Ok (go (SetException e), promise s, done s)
          | UB => UB
          end
      end
  | SetValue =>
      match promise s with
      | None => Ok (go Store, Some (Ok (st w)), done s)
      | Some _ => Ok (go (SetException future_error), promise s, done s)
      end
  | SetException e =>
      match promise s with
      | None => Ok (go Store, Some (Throw e), done s)
      | Some _ => Ok (go Returned, promise s, done s)
      end
  | Store => Ok (go Returned, promise s, true)
  | Returned => Ok (w, promise s, done s)
  end.

Definition step (v : list T) (i : nat) (s : state) : outcome (option state) :=
  match workers s !! i with
  | None => Ok None
  | Some (mkWorker _ _ Returned) => Ok None
  | Some w =>
      '(w', p, d) ← find_ele v s w;
      Ok (Some (mkState p d (<[i := w']> (workers s))))
  end.

(** After all threads are joined; [None]: the future has no result to wait for. *)
Definition parallel_find (v : list T) (s : state) : option (outcome nat) :=
  if negb (done s) then Some (Ok (length v)) else promise s.

(** *** The invariant *)

Definition satisfied (s : state) : Prop := promise s <> None.

Definition worker_ok (v : list T) (s : state) (a b : nat) (w : worker) : Prop :=
  en w = b /\ (a <= st w <= b)%nat /\ searched matches v a (st w) /\
  match at_ w with
  | Test => True
  | Compare => (st w < b)%nat
  | SetValue => exists x, v !! st w = Some x /\ matches x = Ok true
  | SetException e => satisfied s \/ exists x, x ∈ v /\ matches x = Throw e
  | Store => satisfied s
  | Returned => satisfied s \/ st w = b
  end.

Definition inv (v : list T) (bs : list (nat * nat)) (s : state) : Prop :=
  length (workers s) = length bs /\
  (forall i a b w, bs !! i = Some (a, b) -> workers s !! i = Some w -> worker_ok v s a b w) /\
  (forall r, promise s = Some r -> search_result matches v r /\ r <> Ok (length v)) /\
  (done s = true -> satisfied s) /\
  (satisfied s -> done s = true \/ exists i w, workers s !! i = Some w /\ at_ w = Store).

Definition weight (w : worker) : Z :=
  match at_ w with
  | Test => 2 * Z.of_nat (en w - st w) + 4
  | Compare => 2 * Z.of_nat (en w - st w) + 3
  | SetValue => 3 | SetException _ => 2 | Store => 1 | Returned => 0
  end.
Definition measure (s : state) : Z := sum_over weight (workers s).

(** What one action of a worker does to the shared data. *)
Lemma find_ele_spec v s a b w w' p d :
  (forall x, x ∈ v -> matches x <> UB) -> (b <= length v)%nat -> (done s = true -> satisfied s) ->
  worker_ok v s a b w -> at_ w <> Returned -> find_ele v s w = Ok (w', p, d) ->
  (forall ws, worker_ok v (mkState p d ws) a b w') /\ weight w' + 1 <= weight w /\
  ((p = promise s /\ (d = done s /\ at_ w <> Store \/ d = true /\ at_ w = Store)) \/
   promise s = None /\ d = done s /\ at_ w' = Store /\
     exists r, p = Some r /\ search_result matches v r /\ r <> Ok (length v)).
Proof.
  intros Hdef Hb Hd (He & Ha & Hs & Hpc) Hr E. unfold find_ele in E. unfold weight, worker_ok.
  destruct w as [x0 e0 []]; simpl in *; subst e0; [..|done].
  - injection E as <- <- <-. simpl. split; [|split].
    + intros ws. case_decide as Hxb; [same_place; by right|].
      destruct (done s); (split; [done|]; split; [lia|]; split; [done|]); [left; by apply Hd|lia].
    + case_decide; [lia|]. destruct (done s); lia.
    + left. split; [done|]. by left.
  - destruct (v !! x0) as [x|] eqn:Ex; [|discriminate].
    assert (Hx : x ∈ v) by (by eapply list_elem_of_lookup_2).
    destruct (matches x) as [[|]|e|] eqn:Em; try discriminate; injection E as <- <- <-; simpl.
    + split; [intros ws; same_place; eauto|]. split; [lia|]. left. split; [done|]. by left.
    + split; [intros ws; split; [done|]; split; [lia|]; split; [apply (searched_snoc matches v a x0 x); (lia || done)|done]|].
      split; [lia|]. left. split; [done|]. by left.
    + split; [intros ws; same_place; eauto|]. split; [lia|]. left. split; [done|]. by left.
  - destruct (promise s) as [r|] eqn:Ep; injection E as <- <- <-; simpl.
    + split; [intros ws; same_place; left; unfold satisfied; simpl; congruence|]. split; [lia|]. left. split; [done|]. by left.
    + split; [intros ws; same_place; unfold satisfied; simpl; congruence|]. split; [lia|]. right. split; [done|]. split; [done|]. split; [done|].
      destruct Hpc as (x & Hx & Hm). eexists. split; [done|]. split; [right; by exists x|].
      apply lookup_lt_Some in Hx. intros [= ->]. lia.
  - destruct (promise s) as [r|] eqn:Ep; injection E as <- <- <-; simpl.
    + split; [intros ws; same_place; left; unfold satisfied; simpl; congruence|]. split; [lia|]. left. split; [done|]. by left.
    + split; [intros ws; same_place; unfold satisfied; simpl; congruence|]. split; [lia|]. right. split; [done|]. split; [done|]. split; [done|].
      destruct Hpc as [Hpc|Hpc]; [by destruct Hpc|]. eexists. split; [done|]. split; [exact Hpc|done].
  - injection E as <- <- <-. simpl. split; [intros ws; same_place; by left|]. split; [lia|]. left. split; [done|].
    by right.
Qed.

Lemma worker_ok_mono v s s' a b w :
  (satisfied s -> satisfied s') -> worker_ok v s a b w -> worker_ok v s' a b w.
Proof.
  intros Hs (He & Ha & Hd & Hpc). split; [done|]. split; [done|]. split; [done|].
  destruct (at_ w); auto; tauto.
Qed.

Lemma find_step_inv v bs i s s' :
  (forall x, x ∈ v -> matches x <> UB) -> covers (length v) 0 bs ->
  inv v bs s -> step v i s = Ok (Some s') -> inv v bs s' /\ measure s' + 1 <= measure s.
Proof.
  intros Hdef Hc (Hw & Hok & Hp & Hd & Hst) Hs. unfold step in Hs.
  destruct (workers s !! i) as [w|] eqn:Ew; [|discriminate].
  assert (Hr : at_ w <> Returned) by (intros E; destruct w as [? ? []]; try discriminate; done).
  assert (Hf : exists w' p d, find_ele v s w = Ok (w', p, d) /\ s' = mkState p d (<[i := w']> (workers s))).
  { destruct w as [x0 e0 []]; try done; destruct (find_ele v s _) as [[[w' p] d]| |]; try discriminate;
      injection Hs as <-; eauto. }
  destruct Hf as (w' & p & d & Hf & ->). clear Hs.
  destruct (bs !! i) as [[a b]|] eqn:Eb; [|apply lookup_ge_None_1 in Eb; apply lookup_lt_Some in Ew; lia].
  pose proof (covers_range _ _ _ _ _ _ Hc Eb) as Hab.
  destruct (find_ele_spec v s a b w w' p d Hdef) as (Hw' & Hlt & Hsh); [lia|done|by eapply Hok|done|done|].
  pose proof (lookup_lt_Some _ _ _ Ew) as Hi.
  assert (Hmono : satisfied s -> satisfied (mkState p d (<[i := w']> (workers s)))).
  { unfold satisfied. simpl. destruct Hsh as [[-> _]|(-> & _)]; done. }
  split; [|unfold measure; simpl; rewrite (sum_over_insert weight _ _ w) by done; lia].
  split; [by simpl; rewrite length_insert|]. split; [|split; [|split]].
  - intros j a' b' w0 Ej Ew0. simpl in Ew0. destruct (decide (j = i)) as [->|Hji].
    + rewrite list_lookup_insert_eq in Ew0 by done. injection Ew0 as <-. rewrite Eb in Ej. injection Ej as <- <-.
      apply Hw'.
    + rewrite list_lookup_insert_ne in Ew0 by done. eapply worker_ok_mono; [exact Hmono|by eapply Hok].
  - intros r Hr'. simpl in Hr'. destruct Hsh as [[-> _]|(_ & _ & _ & r' & -> & Hr1)]; [by apply Hp|].
    by injection Hr' as <-.
  - simpl. intros ->. apply Hmono. destruct Hsh as [[_ [[Hd' _]|[_ E]]]|(_ & Hd' & _)]; [by apply Hd| |by apply Hd].
    destruct (Hok i a b w Eb Ew) as (_ & _ & _ & Hpc). by rewrite E in Hpc.
  - intros Hsat. simpl. destruct Hsh as [[Hp' [[-> Hns]|[-> _]]]|(_ & _ & Hat & _)].
    + unfold satisfied in Hsat. simpl in Hsat. rewrite Hp' in Hsat. destruct (Hst Hsat) as [|(j & wj & Hj & Hatj)]; [by left|].
      right. exists j, wj. destruct (decide (j = i)) as [->|Hji]; [congruence|]. by rewrite list_lookup_insert_ne.
    + by left.
    + right. exists i, w'. by rewrite list_lookup_insert_eq.
Qed.

Lemma find_step_defined v bs i s :
  (forall x, x ∈ v -> matches x <> UB) -> covers (length v) 0 bs -> inv v bs s -> exists o, step v i s = Ok o.
Proof.
  intros Hdef Hc (Hw & Hok & _). unfold step. destruct (workers s !! i) as [w|] eqn:Ew; [|by eexists].
  destruct (bs !! i) as [[a b]|] eqn:Eb; [|apply lookup_ge_None_1 in Eb; apply lookup_lt_Some in Ew; lia].
  pose proof (covers_range _ _ _ _ _ _ Hc Eb) as Hab. destruct (Hok i a b w Eb Ew) as (_ & Ha & _ & Hpc).
  unfold find_ele. destruct w as [x0 e0 []]; simpl in *; try (by eexists); [|by destruct (promise s); eexists..].
  destruct (v !! x0) as [x|] eqn:Ex; [|apply lookup_ge_None_1 in Ex; lia].
  assert (Hx : x ∈ v) by (by eapply list_elem_of_lookup_2). specialize (Hdef x Hx).
  destruct (matches x) as [[]| |]; [by eexists..|done].
Qed.

Lemma find_spawn_inv hw v : 0 <= hw -> len v < 2 ^ 63 -> inv v (ForEach.ranges hw v) (spawn hw v).
Proof.
  intros Hh Hl. pose proof (ForEach.ranges_cover hw v Hh Hl) as Hc. split; [apply length_map|].
  split; [|split; [done|split; [done|intros H; by destruct H]]].
  intros i a b w Eb Ew. simpl in Ew. change (map ?g ?l) with (g <$> l) in Ew.
  rewrite list_lookup_fmap, Eb in Ew. injection Ew as <-. pose proof (covers_range _ _ _ _ _ _ Hc Eb).
  split; [done|]. simpl. split; [lia|]. split; [apply searched_nil|done].
Qed.

Lemma find_spawn_measure lst x bs :
  covers lst x bs ->
  sum_over weight (map (fun b => mkWorker b.1 b.2 Test) bs) = 2 * Z.of_nat (lst - x) + 4 * len bs.
Proof.
  induction 1 as [|a b bs Hle Hc IH]; simpl; [lia|]. rewrite IH. apply covers_le in Hc. unfold weight. simpl. lia.
Qed.

Lemma stuck_returned v bs s i w :
  (forall x, x ∈ v -> matches x <> UB) -> covers (length v) 0 bs -> inv v bs s ->
  step v i s = Ok None -> workers s !! i = Some w -> at_ w = Returned.
Proof.
  intros Hdef Hc Hi Hs Ew. unfold step in Hs. rewrite Ew in Hs.
  destruct w as [x0 e0 []]; try done; by destruct (find_ele v s _) as [[[]]| |].
Qed.

Lemma find_result v bs s :
  (forall x, x ∈ v -> matches x <> UB) -> covers (length v) 0 bs -> inv v bs s ->
  (forall i, step v i s = Ok None) ->
  exists r, parallel_find v s = Some r /\ search_result matches v r.
Proof.
  intros Hdef Hc Hi Hstuck. pose proof Hi as (Hw & Hok & Hp & Hd & Hst). unfold parallel_find.
  destruct (done s) eqn:Ed; simpl.
  - destruct (promise s) as [r|] eqn:Ep; [|by destruct (Hd eq_refl)]. exists r. split; [done|]. by apply Hp.
  - eexists. split; [done|]. left. split; [done|].
    assert (Hno : ~ satisfied s).
    { intros Hs. destruct (Hst Hs) as [|(i & w & Ew & Hat)]; [done|].
      pose proof (stuck_returned v bs s i w Hdef Hc Hi (Hstuck i) Ew). congruence. }
    apply (searched_all matches v bs Hc). intros a b Hin. apply list_elem_of_lookup in Hin as [i Eb].
    destruct (workers s !! i) as [w|] eqn:Ew; [|apply lookup_ge_None_1 in Ew; apply lookup_lt_Some in Eb; lia].
    destruct (Hok i a b w Eb Ew) as (_ & _ & Hs & Hpc).
    rewrite (stuck_returned v bs s i w Hdef Hc Hi (Hstuck i) Ew) in Hpc. destruct Hpc as [|<-]; done.
Qed.
End find.
End Find.

(** [parallel_find], whatever the number of processors and the order in which
    the threads run: no step is undefined, a run has at most two steps per element
    and four per thread, and at the end the function returns: the end of the range if
    nothing matches, else an iterator to an element that matches (not always the
    first), or it throws what a comparison threw. *)
Theorem parallel_find_finds {T} (matches : T -> outcome bool) hw v ls s :
  0 <= hw -> len v < 2 ^ 63 -> (forall x, x ∈ v -> matches x <> UB) ->
  runs (Find.step matches v) (Find.spawn hw v) ls s ->
  (forall i, exists o, Find.step matches v i s = Ok o) /\
  len ls <= 2 * len v + 4 * len (ForEach.ranges hw v) /\
  ((forall i, Find.step matches v i s = Ok None) ->
   exists r, Find.parallel_find v s = Some r /\ search_result matches v r).
Proof.
  intros Hh Hl Hdef Hrun. pose proof (ForEach.ranges_cover hw v Hh Hl) as Hc.
  destruct (runs_bounded0 (Find.step matches v) (Find.inv matches v (ForEach.ranges hw v)) Find.measure
    (Find.spawn hw v) ls s) as [Hi Hb]; [| |by apply Find.find_spawn_inv|exact Hrun|].
  { intros i s1 s2 H. by apply Find.find_step_inv. }
  { intros s1 _. apply sum_over_nonneg. intros w. unfold Find.weight. destruct (Find.at_ w); lia. }
  unfold Find.measure in Hb. simpl in Hb. rewrite (Find.find_spawn_measure _ _ _ Hc) in Hb.
  split; [intros i; by eapply Find.find_step_defined|]. split; [lia|]. intros Hstuck. by eapply Find.find_result.
Qed.

(** Two of 60 numbers match; the thread that finds the second one is faster. *)
Definition demo_matches (x : Z) : outcome bool := Ok (bool_decide (x = 3 \/ x = 31)).
Definition demo_find_run : list nat := [1; 1; 1; 1; 1; 1; 0]%nat.

Lemma parallel_find_finds_witness :
  exists s, runs (Find.step demo_matches demo_vector) (Find.spawn 2 demo_vector) demo_find_run s /\
    Find.parallel_find demo_vector s = Some (Ok 31%nat) /\
    exists r, Find.parallel_find demo_vector s = Some r /\ search_result demo_matches demo_vector r.
Proof.
  assert (E : exists s, execute (Find.step demo_matches demo_vector) demo_find_run (Find.spawn 2 demo_vector) = Some s /\
    Find.parallel_find demo_vector s = Some (Ok 31%nat) /\
    map Find.at_ (Find.workers s) = [Find.Returned; Find.Returned]).
  { eexists. split; [vm_compute; reflexivity|split; vm_compute; reflexivity]. }
  destruct E as (s & E & Hres & Hat). apply execute_runs in E. exists s. split; [exact E|]. split; [exact Hres|].
  destruct (parallel_find_finds demo_matches 2 demo_vector demo_find_run s) as (_ & _ & Hend);
    [lia|reflexivity|done|exact E|]. apply Hend.
  intros i. unfold Find.step. destruct (Find.workers s !! i) as [[x0 e0 p]|] eqn:Ew; [|done].
  assert (Hp : p = Find.Returned); [|by subst].
  apply list_elem_of_lookup_2, (list_elem_of_fmap_2 Find.at_) in Ew. change (Find.at_ <$> Find.workers s) with
    (map Find.at_ (Find.workers s)) in Ew. rewrite Hat in Ew. simpl in Ew. set_solver.
Defined.

(** ** [parallel_find_async] *)

Module FindAsync.
Section find.
Context {T : Type} (matches : T -> outcome bool).

(** The calls of [parallel_find_async_impl] that divide their range, and those that
    search it.  Deferred tasks are runs in which a leaf starts late or never. *)
Inductive calls : Type :=
  | Leaf (fst lst : nat)
  | Node (md : nat) (left right : calls).

Fixpoint divide (fuel fst lst : nat) : option calls :=
  match fuel with
  | O => None
  | S fuel =>
      let length := Z.of_nat (lst - fst) in
      if decide (length < 2 * min_per_thread) then Some (Leaf fst lst)
      else
        let md := (fst + (lst - fst) / 2)%nat in
        match divide fuel fst md, divide fuel md lst with
        | Some l, Some r => Some (Node md l r)
        | _, _ => None
        end
  end.

Fixpoint leaves (c : calls) : list (nat * nat) :=
  match c with Leaf a b => [(a, b)] | Node _ l r => leaves l ++ leaves r end.

(** The loop test with its load of [done]; the comparison; [done = true] before the
    return of an iterator and in the handler; the value or exception of the call. *)
Inductive pc : Type := Test | Compare | Found | Caught (e : exn) | Returned (r : outcome nat).

Record worker := mkWorker { st : nat; en : nat; at_ : pc }.
Record state := mkState { done : bool; workers : list worker }.

Definition spawn (c : calls) : state := mkState false (map (fun b => mkWorker b.1 b.2 Test) (leaves c)).

(** What a leaf does next, and what becomes of [done]. *)
Definition impl (v : list T) (s : state) (w : worker) : outcome (worker * bool) :=
  let go p := mkWorker (st w) (en w) p in
  match at_ w with
  | Test =>
      Ok (go (if decide (st w = en w) then Returned (Ok (en w))
              else if done s then Returned (Ok (en w)) else Compare), done s)
  | Compare =>
      match v !! st w with
      | None => UB
      | Some x =>
          match matches x with
          | Ok true => Ok (go Found, done s)
          | Ok false => Ok (mkWorker (S (st w)) (en w) Test, done s)
          | Throw e => Ok (go (Caught e), done s)
          | UB => UB
          end
      end
  | Found => Ok (go (Returned (Ok (st w))), true)
  | Caught e => Ok (go (Returned (Throw e)), true)
  | Returned _ => Ok (w, done s)
  end.

Definition step (v : list T) (i : nat) (s : state) : outcome (option state) :=
  match workers s !! i with
  | None => Ok None
  | Some (mkWorker _ _ (Returned _)) => Ok None
  | Some w => '(w', d) ← impl v s w; Ok (Some (mkState d (<[i := w']> (workers s))))
  end.

Definition returned (w : worker) : option (outcome nat) :=
  match at_ w with Returned r => Some r | _ => None end.

(** What a call returns once the leaves it needs have; [(res2 == md) ? res.get() : res2]. *)
Fixpoint value (c : calls) (rs : list (option (outcome nat))) : option (outcome nat) :=
  match c with
  | Leaf _ _ => match rs with r :: _ => r | [] => None end
  | Node md l r =>
      let n := length (leaves l) in
      match value l (take n rs) with
      | Some (Ok res2) => if decide (res2 = md) then value r (drop n rs) else Some (Ok res2)
      | o => o
      end
  end.

Definition parallel_find_async (c : calls) (s : state) : option (outcome nat) := value c (map returned (workers s)).

(** *** Properties *)

Definition hit (v : list T) (r : outcome nat) : Prop :=
  match r with
  | Ok i => exists x, v !! i = Some x /\ matches x = Ok true
  | Throw e => exists x, x ∈ v /\ matches x = Throw e
  | UB => False
  end.

Definition worker_ok (v : list T) (s : state) (a b : nat) (w : worker) : Prop :=
  en w = b /\ (a <= st w <= b)%nat /\ searched matches v a (st w) /\
  match at_ w with
  | Test => True
  | Compare => (st w < b)%nat
  | Found => (st w < b)%nat /\ hit v (Ok (st w))
  | Caught e => hit v (Throw e)
  | Returned r => (r = Ok b /\ (done s = true \/ st w = b)) \/ (hit v r /\ forall i, r = Ok i -> (a <= i < b)%nat)
  end.

(** A leaf has set [done] only if it returns something else than its end. *)
Definition inv (v : list T) (bs : list (nat * nat)) (s : state) : Prop :=
  length (workers s) = length bs /\
  (forall i a b w, bs !! i = Some (a, b) -> workers s !! i = Some w -> worker_ok v s a b w) /\
  (done s = true -> exists i w r, workers s !! i = Some w /\ at_ w = Returned r /\ r <> Ok (en w)).

Definition weight (w : worker) : Z :=
  match at_ w with
  | Test => 2 * Z.of_nat (en w - st w) + 4
  | Compare => 2 * Z.of_nat (en w - st w) + 3
  | Found | Caught _ => 1 | Returned _ => 0
  end.
Definition measure (s : state) : Z := sum_over weight (workers s).

Lemma impl_spec v s a b w w' d :
  (forall x, x ∈ v -> matches x <> UB) -> worker_ok v s a b w -> returned w = None -> impl v s w = Ok (w', d) ->
  (forall ws, worker_ok v (mkState d ws) a b w') /\ weight w' + 1 <= weight w /\
  (d = done s \/ d = true /\ exists r, at_ w' = Returned r /\ r <> Ok (en w')).
Proof.
  intros Hdef (He & Ha & Hs & Hpc) Hr E. unfold impl in E. unfold weight, worker_ok.
  destruct w as [x0 e0 []]; simpl in *; subst e0; [..|discriminate].
  - injection E as <- <-. simpl. split; [intros ws|split; [|by left]].
    + case_decide as Hxb; [by repeat split; auto; lia|].
      destruct (done s); (split; [reflexivity|]; split; [lia|]; split; [assumption|]); [left; auto|lia].
    + case_decide; [lia|]. destruct (done s); lia.
  - destruct (v !! x0) as [x|] eqn:Ex; [|discriminate].
    assert (Hx : x ∈ v) by (by eapply list_elem_of_lookup_2).
    destruct (matches x) as [[|]|e|] eqn:Em; try discriminate; injection E as <- <-; simpl.
    + split; [intros ws; same_place; split; [done|]; by exists x|]. split; [lia|by left].
    + split; [intros ws; split; [done|]; split; [lia|]; split; [apply (searched_snoc matches v a x0 x); (lia || done)|done]|].
      split; [lia|by left].
    + split; [intros ws; same_place; by exists x|]. split; [lia|by left].
  - destruct Hpc as [Hlt Hhit]. injection E as <- <-. simpl. split; [intros ws; same_place; right|].
    + split; [done|]. intros i [= <-]. lia.
    + split; [lia|]. right. split; [done|]. eexists. split; [done|]. intros [= ->]. lia.
  - injection E as <- <-. simpl. split; [intros ws; same_place; right|].
    + split; [done|]. intros i [=].
    + split; [lia|]. right. split; [done|]. eexists. by split.
Qed.

Lemma async_step_inv v bs i s s' :
  (forall x, x ∈ v -> matches x <> UB) -> covers (length v) 0 bs ->
  inv v bs s -> step v i s = Ok (Some s') -> inv v bs s' /\ measure s' + 1 <= measure s.
Proof.
  intros Hdef Hc (Hw & Hok & Hd) Hs. unfold step in Hs.
  destruct (workers s !! i) as [w|] eqn:Ew; [|discriminate].
  assert (Hf : exists w' d, returned w = None /\ impl v s w = Ok (w', d) /\ s' = mkState d (<[i := w']> (workers s))).
  { destruct w as [x0 e0 []]; try done; destruct (impl v s _) as [[w' d]| |]; try discriminate;
      injection Hs as <-; eauto. }
  destruct Hf as (w' & d & Hr & Hf & ->). clear Hs.
  destruct (bs !! i) as [[a b]|] eqn:Eb; [|apply lookup_ge_None_1 in Eb; apply lookup_lt_Some in Ew; lia].
  destruct (impl_spec v s a b w w' d Hdef) as (Hw' & Hlt & Hsh); [by eapply Hok|done|done|].
  pose proof (lookup_lt_Some _ _ _ Ew) as Hi.
  split; [|unfold measure; simpl; rewrite (sum_over_insert weight _ _ w) by done; lia].
  split; [by simpl; rewrite length_insert|]. split.
  - intros j a' b' w0 Ej Ew0. simpl in Ew0. destruct (decide (j = i)) as [->|Hji].
    + rewrite list_lookup_insert_eq in Ew0 by done. injection Ew0 as <-. rewrite Eb in Ej. injection Ej as <- <-.
      apply Hw'.
    + rewrite list_lookup_insert_ne in Ew0 by done.
      destruct (Hok j a' b' w0 Ej Ew0) as (H1 & H2 & H3 & H4). split; [done|]. split; [done|]. split; [done|].
      destruct (at_ w0); auto. destruct H4 as [[-> [H4|H4]]|H4]; auto. left. split; [done|]. left. simpl.
      destruct Hsh as [->|[-> _]]; done.
  - simpl. intros Hdone. destruct Hsh as [->|(_ & r & Hr' & Hne)].
    + destruct (Hd Hdone) as (j & wj & r & Hj & Hat & Hne). exists j, wj, r.
      destruct (decide (j = i)) as [->|Hji]; [|by rewrite list_lookup_insert_ne].
      rewrite Ew in Hj. injection Hj as ->. unfold returned in Hr. by rewrite Hat in Hr.
    + exists i, w', r. by rewrite list_lookup_insert_eq.
Qed.

Lemma async_step_defined v bs i s :
  (forall x, x ∈ v -> matches x <> UB) -> covers (length v) 0 bs -> inv v bs s -> exists o, step v i s = Ok o.
Proof.
  intros Hdef Hc (Hw & Hok & _). unfold step. destruct (workers s !! i) as [w|] eqn:Ew; [|by eexists].
  destruct (bs !! i) as [[a b]|] eqn:Eb; [|apply lookup_ge_None_1 in Eb; apply lookup_lt_Some in Ew; lia].
  pose proof (covers_range _ _ _ _ _ _ Hc Eb) as Hab. destruct (Hok i a b w Eb Ew) as (_ & Ha & _ & Hpc).
  unfold impl. destruct w as [x0 e0 []]; simpl in *; try (by eexists).
  destruct (v !! x0) as [x|] eqn:Ex; [|apply lookup_ge_None_1 in Ex; lia].
  assert (Hx : x ∈ v) by (by eapply list_elem_of_lookup_2). specialize (Hdef x Hx).
  destruct (matches x) as [[]| |]; [by eexists..|done].
Qed.

(** The calls of a range: their leaves cover it. *)
Fixpoint calls_of (c : calls) (a b : nat) : Prop :=
  match c with
  | Leaf st en => st = a /\ en = b /\ (a <= b)%nat
  | Node md l r => calls_of l a md /\ calls_of r md b
  end.

Lemma divide_calls fuel a b :
  (a <= b)%nat -> (b - a < fuel)%nat -> exists c, divide fuel a b = Some c /\ calls_of c a b.
Proof.
  revert a b. induction fuel as [|fuel IH]; intros a b Hab Hf; [lia|]. simpl. unfold min_per_thread.
  case_decide as Hd; [by eexists|].
  assert (Hmd : (0 < (b - a) / 2 < b - a)%nat).
  { split; [apply Nat.div_str_pos|apply Nat.div_lt]; lia. }
  destruct (IH a (a + (b - a) / 2)%nat) as (l & -> & Hl); [lia..|].
  destruct (IH (a + (b - a) / 2)%nat b) as (r & -> & Hr); [lia..|]. by eexists.
Qed.

Lemma leaves_cover c a b : calls_of c a b -> covers b a (leaves c).
Proof.
  revert a b. induction c as [x y|md l IHl r IHr]; intros a b; simpl.
  - intros (-> & -> & H). repeat constructor. done.
  - intros [Hl Hr]. specialize (IHl _ _ Hl). specialize (IHr _ _ Hr). clear -IHl IHr.
    induction IHl; [done|]. simpl. by constructor.
Qed.

Lemma leaves_nonempty c : leaves c <> [].
Proof. induction c as [|md l IHl r IHr]; simpl; [done|]. intros H. by apply app_eq_nil in H as [? _]. Qed.

Lemma calls_le c a b : calls_of c a b -> (a <= b)%nat.
Proof. intros H. by eapply covers_le, leaves_cover. Qed.

Definition leaf_ok (v : list T) (ab : nat * nat) (o : option (outcome nat)) : Prop :=
  forall r, o = Some r -> r = Ok ab.2 \/ (hit v r /\ forall i, r = Ok i -> (ab.1 <= i < ab.2)%nat).

Lemma value_spec v c a b rs r :
  calls_of c a b -> Forall2 (leaf_ok v) (leaves c) rs -> value c rs = Some r ->
  (r = Ok b /\ Forall2 (fun ab o => o = Some (Ok ab.2)) (leaves c) rs) \/
  (hit v r /\ forall i, r = Ok i -> (a <= i < b)%nat).
Proof.
  revert a b rs r. induction c as [x y|md l IHl rt IHr]; intros a b rs r; simpl.
  - intros (-> & -> & Hab) Hrs Hv. apply Forall2_cons_inv_l in Hrs as (o & os & Ho & Hnil & ->).
    apply Forall2_nil_inv_l in Hnil as ->. subst o. destruct (Ho r eq_refl) as [->|Hh]; [left|by right].
    split; [done|]. by repeat constructor.
  - intros [Hl Hr] Hrs Hv. pose proof (calls_le _ _ _ Hl). pose proof (calls_le _ _ _ Hr).
    apply Forall2_app_inv_l in Hrs as (rs1 & rs2 & Hrs1 & Hrs2 & ->).
    rewrite (Forall2_length _ _ _ Hrs1), take_app_length, drop_app_length in Hv.
    destruct (value l rs1) as [o|] eqn:E1; [|discriminate]. destruct (IHl a md rs1 o Hl Hrs1 E1) as [[-> Hall]|[Hh Hi]].
    + rewrite decide_True in Hv by done. destruct (IHr md b rs2 r Hr Hrs2 Hv) as [[-> Hall2]|[Hh Hi]].
      * left. split; [done|]. by apply Forall2_app.
      * right. split; [done|]. intros i Ei. specialize (Hi i Ei). lia.
    + right. destruct o as [i0|e|]; try (injection Hv as <-); try done.
      * specialize (Hi i0 eq_refl). rewrite decide_False in Hv by lia. injection Hv as <-. split; [done|].
        intros i [= <-]. lia.
Qed.

Lemma value_some c rs :
  length rs = length (leaves c) -> Forall is_Some rs -> is_Some (value c rs).
Proof.
  revert rs. induction c as [x y|md l IHl r IHr]; intros rs Hl Hf; simpl in *.
  - destruct rs as [|o rs]; [done|]. by apply Forall_cons in Hf as [? _].
  - rewrite length_app in Hl. destruct (IHl (take (length (leaves l)) rs)) as [o Ho];
      [rewrite length_take; lia|by apply Forall_take|]. rewrite Ho. destruct o as [i|e|]; [|done..].
    case_decide; [|done]. apply IHr; [rewrite length_drop; lia|by apply Forall_drop].
Qed.

Lemma async_spawn_inv v c : calls_of c 0 (length v) -> inv v (leaves c) (spawn c).
Proof.
  intros Hcs. pose proof (leaves_cover _ _ _ Hcs) as Hc. split; [apply length_map|]. split; [|done].
  intros i a b w Eb Ew. simpl in Ew. change (map ?g ?l) with (g <$> l) in Ew.
  rewrite list_lookup_fmap, Eb in Ew. injection Ew as <-. pose proof (covers_range _ _ _ _ _ _ Hc Eb).
  split; [done|]. simpl. split; [lia|]. split; [apply searched_nil|done].
Qed.

Lemma async_spawn_measure lst x bs :
  covers lst x bs ->
  sum_over weight (map (fun b => mkWorker b.1 b.2 Test) bs) = 2 * Z.of_nat (lst - x) + 4 * len bs.
Proof.
  induction 1 as [|a b bs Hle Hc IH]; simpl; [lia|]. rewrite IH. apply covers_le in Hc. unfold weight. simpl. lia.
Qed.

Lemma results_ok v bs s : inv v bs s -> Forall2 (leaf_ok v) bs (map returned (workers s)).
Proof.
  intros (Hw & Hok & _). change (map ?g ?l) with (g <$> l). rewrite Forall2_fmap_r. apply Forall2_same_length_lookup.
  split; [done|]. intros i [a b] w Eb Ew r Hr. unfold returned in Hr.
  destruct (Hok i a b w Eb Ew) as (_ & _ & _ & Hpc). destruct (at_ w); try discriminate. injection Hr as ->.
  destruct Hpc as [[-> _]|Hpc]; auto.
Qed.

Lemma async_value v c s r :
  calls_of c 0 (length v) -> inv v (leaves c) s -> parallel_find_async c s = Some r -> search_result matches v r.
Proof.
  intros Hcs Hi Hr. pose proof (leaves_cover _ _ _ Hcs) as Hc. pose proof (results_ok v _ s Hi) as Hrs.
  destruct (value_spec v c 0 (length v) _ r Hcs Hrs Hr) as [[-> Hall]|[Hh _]].
  - destruct Hi as (Hw & Hok & Hd). left. split; [done|]. change (map ?g ?l) with (g <$> l) in Hall.
    rewrite Forall2_fmap_r in Hall.
    assert (Hnd : done s = false).
    { destruct (done s); [|done]. destruct (Hd eq_refl) as (i & w & r & Ew & Hat & Hne). exfalso. apply Hne.
      destruct (leaves c !! i) as [[a b]|] eqn:Eb; [|apply lookup_ge_None_1 in Eb; apply lookup_lt_Some in Ew; lia].
      pose proof (Forall2_lookup_lr _ _ _ _ _ _ Hall Eb Ew) as E. simpl in E. unfold returned in E. rewrite Hat in E.
      injection E as ->. by destruct (Hok i a b w Eb Ew) as (-> & _). }
    apply (searched_all matches v (leaves c) Hc). intros a b Hin. apply list_elem_of_lookup in Hin as [i Eb].
    destruct (workers s !! i) as [w|] eqn:Ew; [|apply lookup_ge_None_1 in Ew; apply lookup_lt_Some in Eb; lia].
    destruct (Hok i a b w Eb Ew) as (_ & Hat & Hs & Hpc).
    pose proof (Forall2_lookup_lr _ _ _ _ _ _ Hall Eb Ew) as E. simpl in E. unfold returned in E.
    destruct (at_ w); try discriminate. injection E as ->. destruct Hpc as [[_ [H|<-]]|[_ H]]; [congruence|done|].
    specialize (H b eq_refl). lia.
  - destruct r as [i|e|]; [by right|done..].
Qed.

Lemma async_ends v c s :
  calls_of c 0 (length v) -> inv v (leaves c) s -> (forall i, step v i s = Ok None) ->
  (forall x, x ∈ v -> matches x <> UB) -> is_Some (parallel_find_async c s).
Proof.
  intros Hcs (Hw & Hok & _) Hstuck Hdef. apply value_some; [by rewrite length_map|].
  apply Forall_forall. intros o Ho. apply list_elem_of_In, in_map_iff in Ho as (w & <- & Hin).
  apply list_elem_of_In, list_elem_of_lookup in Hin as [i Ew]. specialize (Hstuck i). unfold step in Hstuck.
  rewrite Ew in Hstuck. destruct w as [x0 e0 []]; [..|by eexists].
  all: by destruct (impl v s _) as [[]| |].
Qed.
End find.
End FindAsync.

(** [parallel_find_async] divides every range into searches, and whatever the
    order in which they run: no step is undefined, a run has at most two steps per
    element and four per search, and when all have ended the function returns.
    As soon as it returns (it need not wait for searches it does not need), the
    answer is the end of the range if nothing matches, else an iterator to an
    element that matches, or what a comparison threw. *)
Theorem parallel_find_async_finds {T} (matches : T -> outcome bool) v :
  (forall x, x ∈ v -> matches x <> UB) ->
  exists c, FindAsync.divide (S (length v)) 0 (length v) = Some c /\
  forall ls s, runs (FindAsync.step matches v) (FindAsync.spawn c) ls s ->
    (forall i, exists o, FindAsync.step matches v i s = Ok o) /\
    len ls <= 2 * len v + 4 * len (FindAsync.leaves c) /\
    (forall r, FindAsync.parallel_find_async c s = Some r -> search_result matches v r) /\
    ((forall i, FindAsync.step matches v i s = Ok None) -> is_Some (FindAsync.parallel_find_async c s)).
Proof.
  intros Hdef. destruct (FindAsync.divide_calls (S (length v)) 0 (length v)) as (c & Hdiv & Hcs); [lia..|].
  exists c. split; [exact Hdiv|]. intros ls s Hrun. pose proof (FindAsync.leaves_cover _ _ _ Hcs) as Hc.
  destruct (runs_bounded0 (FindAsync.step matches v) (FindAsync.inv matches v (FindAsync.leaves c)) FindAsync.measure
    (FindAsync.spawn c) ls s) as [Hi Hb]; [| |by apply FindAsync.async_spawn_inv|exact Hrun|].
  { intros i s1 s2 H. by apply FindAsync.async_step_inv. }
  { intros s1 _. apply sum_over_nonneg. intros w. unfold FindAsync.weight. destruct (FindAsync.at_ w); lia. }
  unfold FindAsync.measure in Hb. simpl in Hb. rewrite (FindAsync.async_spawn_measure _ _ _ Hc) in Hb.
  split; [intros i; by eapply FindAsync.async_step_defined|]. split; [lia|]. split.
  - intros r. by apply FindAsync.async_value.
  - intros Hstuck. by eapply FindAsync.async_ends.
Qed.

Lemma parallel_find_async_finds_witness :
  (forall x, x ∈ demo_vector -> demo_matches x <> UB) /\
  exists c, FindAsync.divide 61 0 60 = Some c /\
  forall ls s, runs (FindAsync.step demo_matches demo_vector) (FindAsync.spawn c) ls s ->
    forall r, FindAsync.parallel_find_async c s = Some r -> search_result demo_matches demo_vector r.
Proof.
  split; [done|].
  destruct (parallel_find_async_finds demo_matches demo_vector) as (c & Hdiv & Hruns); [done|].
  exists c. split; [exact Hdiv|]. intros ls s Hrun. by apply (Hruns ls s Hrun).
Defined.
