(* ===== verification/QuickSort.v ===== *)
(** * Quick sort on lists
      ([cpp_concurrency_2nd/cv_promise_future_packaged_task_quick_sort.cpp])

    [std::list]s are lists; [splice] moves elements and keeps references valid, so
    [pivot] stays the element in [result].  The order in which [std::partition]
    leaves the two groups is not specified: it is a parameter, whose laws are those
    of the standard.  The recursion takes fuel. *)

From Stdlib Require Import Sorting.Sorted.
From S2P Require Import Prelude.

(** [std::partition] on a range: the new order and the distance of [divide]. *)
Class Partition (T : Type) := {
  partition : (T -> bool) -> list T -> list T * nat;
  partition_perm p l : (partition p l).1 ≡ₚ l;
  partition_low p l : Forall (fun x => p x = true) (take (partition p l).2 (partition p l).1);
  partition_high p l : Forall (fun x => p x = false) (drop (partition p l).2 (partition p l).1);
}.

(** [operator<] is a strict weak order. *)
Class WeakOrder {T : Type} (lt : T -> T -> bool) := {
  lt_asym x y : lt x y = true -> lt y x = false;
  lt_cotrans x y z : lt y x = false -> lt z y = false -> lt z x = false;
}.

Section sort.
Context {T : Type} (lt : T -> T -> bool) `{!Partition T}.

Fixpoint test_quick_sort_sequence (fuel : nat) (input : list T) : option (list T) :=
  match fuel with
  | O => None
  | S fuel =>
      match input with
      | [] => Some []
      | pivot :: input =>
          let '(input, divide) := partition (fun t => lt t pivot) input in
          let lower_part := take divide input in
          let input := drop divide input in
          match test_quick_sort_sequence fuel lower_part with
          | None => None
          | Some new_lower =>
              match test_quick_sort_sequence fuel input with
              | None => None
              | Some new_higher => Some (new_lower ++ [pivot] ++ new_higher)
              end
          end
      end
  end.

(** The lower part is sorted by another task, or when its future is asked. *)
Fixpoint quick_sort_parallel (fuel : nat) (input : list T) : option (list T) :=
  match fuel with
  | O => None
  | S fuel =>
      match input with
      | [] => Some []
      | pivot :: input =>
          let '(input, divide) := partition (fun t => lt t pivot) input in
          let lowp := take divide input in
          let new_lower := quick_sort_parallel fuel lowp in
          let input := drop divide input in
          match quick_sort_parallel fuel input with
          | None => None
          | Some new_higher =>
              let result := [pivot] ++ new_higher in
              match new_lower with None => None | Some new_lower => Some (new_lower ++ result) end
          end
      end
  end.

Definition not_above (x y : T) : Prop := lt y x = false.

Context `{!WeakOrder lt}.

Lemma sorted_app l x k :
  StronglySorted not_above l -> StronglySorted not_above k ->
  Forall (fun y => lt y x = true) l -> Forall (fun y => lt y x = false) k ->
  StronglySorted not_above (l ++ [x] ++ k).
Proof.
  intros Hl Hk Hlx Hkx. induction Hl as [|y l Hl IH Hy]; simpl.
  - by constructor.
  - apply Forall_cons in Hlx as [Hyx Hlx]. constructor; [by apply IH|].
    assert (Hy' : not_above y x) by (by apply lt_asym).
    apply Forall_app. split; [done|]. constructor; [done|]. eapply Forall_impl; [exact Hkx|].
    intros z Hz. by eapply lt_cotrans.
Qed.

Lemma sequence_sorts fuel l :
  (length l < fuel)%nat ->
  exists r, test_quick_sort_sequence fuel l = Some r /\ r ≡ₚ l /\ StronglySorted not_above r.
Proof.
  revert l. induction fuel as [|fuel IH]; intros l Hf; [lia|]. destruct l as [|x l]; simpl.
  - exists []. split; [done|]. split; [done|constructor].
  - pose proof (partition_perm (fun t => lt t x) l) as Hp. pose proof (partition_low (fun t => lt t x) l) as Hlow.
    pose proof (partition_high (fun t => lt t x) l) as Hhigh.
    destruct (partition (fun t => lt t x) l) as [k d]. simpl in *. pose proof (Permutation_length Hp) as Hlen.
    destruct (IH (take d k)) as (r1 & -> & Hr1 & Hs1); [rewrite length_take; lia|].
    destruct (IH (drop d k)) as (r2 & -> & Hr2 & Hs2); [rewrite length_drop; lia|].
    eexists. split; [done|]. split.
    + rewrite Hr1, Hr2, <- Hp. simpl. rewrite <- Permutation_middle. by rewrite take_drop.
    + apply sorted_app; [done|done| |]; [by rewrite Hr1|by rewrite Hr2].
Qed.

Lemma parallel_sequence fuel l : quick_sort_parallel fuel l = test_quick_sort_sequence fuel l.
Proof.
  revert l. induction fuel as [|fuel IH]; intros l; [done|]. destruct l as [|x l]; [done|]. simpl.
  destruct (partition (fun t => lt t x) l) as [k d]. rewrite !IH.
  destruct (test_quick_sort_sequence fuel (take d k)), (test_quick_sort_sequence fuel (drop d k)); done.
Qed.
End sort.

(** Both quick sorts end on every list, in a recursion no deeper than its
    length, and return the same list: a sorted permutation of the argument, for every
    strict weak order and however [std::partition] arranges the two groups. *)
Theorem quick_sort_sorts {T} (lt : T -> T -> bool) `{!Partition T, !WeakOrder lt} fuel l :
  (length l < fuel)%nat ->
  exists r, test_quick_sort_sequence lt fuel l = Some r /\ quick_sort_parallel lt fuel l = Some r /\
    r ≡ₚ l /\ StronglySorted (fun x y => lt y x = false) r.
Proof.
  intros Hf. destruct (sequence_sorts lt fuel l Hf) as (r & E & Hp & Hs).
  exists r. split; [exact E|]. split; [by rewrite parallel_sequence|]. by split.
Qed.

(** A [std::partition] that reverses the second group. *)
#[export] Program Instance demo_partition : Partition Z := {|
  partition p l := (List.filter p l ++ rev (List.filter (fun x => negb (p x)) l), length (List.filter p l));
|}.
Next Obligation.
  intros p l. simpl. rewrite <- Permutation_rev. induction l as [|x l IH]; [done|]. simpl. destruct (p x); simpl.
  - by rewrite IH.
  - by rewrite <- Permutation_middle, IH.
Qed.
Next Obligation.
  intros p l. simpl. rewrite take_app_length. apply Forall_forall. intros x Hx%list_elem_of_In%filter_In. apply Hx.
Qed.
Next Obligation.
  intros p l. simpl. rewrite drop_app_length. apply Forall_forall.
  intros x Hx%list_elem_of_In%in_rev%filter_In. destruct Hx as [_ Hx]. by apply negb_true_iff.
Qed.

#[export] Instance Z_order : WeakOrder Z.ltb.
Proof. split; intros; lia. Qed.

Lemma quick_sort_sorts_witness :
  (length [7; 6; 5; 4; 8; 9; 1; 2] < 9)%nat /\
  quick_sort_parallel Z.ltb 9 [7; 6; 5; 4; 8; 9; 1; 2] = Some [1; 2; 4; 5; 6; 7; 8; 9] /\
  StronglySorted (fun x y => Z.ltb y x = false) [1; 2; 4; 5; 6; 7; 8; 9].
Proof.
  split; [simpl; lia|].
  assert (E : quick_sort_parallel Z.ltb 9 [7; 6; 5; 4; 8; 9; 1; 2] = Some [1; 2; 4; 5; 6; 7; 8; 9])
    by (vm_compute; reflexivity).
  split; [exact E|]. destruct (quick_sort_sorts Z.ltb 9 [7; 6; 5; 4; 8; 9; 1; 2]) as (r & _ & E2 & _ & Hs).
  - simpl; lia.
  - rewrite E in E2. injection E2 as <-. exact Hs.
Defined.
