(* ===== verification/Spreadsheet.v ===== *)
(** * Spreadsheets
      ([professional_cpp/src/ch09/Spreadsheet.cc], [Spreadsheet.cpp])

    A class that owns its columns through pointers, with copies by copy-and-swap
    and moves by swap.  The heap has blocks for [new[]] and [delete[]]; deleting or
    using a block that is not there is undefined ([None]).  An allocation may
    fail, as the store's list [fails] says; an exception keeps the store.  The type
    of cells is a parameter: copying one does not throw.  A size is a natural
    number below [2^64]. *)

From S2P Require Import Prelude CppInt.

Definition bad_alloc : exn := ExnNamed "std::bad_alloc".

Section spreadsheet.
Context {cell : Type} (dflt : cell).

Inductive block : Type :=
  | Ptrs (l : list (option nat))   (* SpreadsheetCell*[]; None is indeterminate *)
  | Cells (l : list cell).         (* SpreadsheetCell[] *)

Record Spreadsheet := mkSpreadsheet {
  m_id : Z;
  m_width : nat;
  m_height : nat;
  m_cells : option nat;
}.

Record store := mkStore {
  heap : gmap nat block;
  objs : gmap nat Spreadsheet;
  ms_counter : Z;
  fails : list bool;
  out : list string;
}.

Definition with_heap (h : gmap nat block) (s : store) : store := mkStore h (objs s) (ms_counter s) (fails s) (out s).
Definition with_objs (os : gmap nat Spreadsheet) (s : store) : store :=
  mkStore (heap s) os (ms_counter s) (fails s) (out s).

(** ** Code that may throw and keeps the store *)

Definition R (A : Type) : Type := store -> option (store * (exn + A)).

#[export] Instance R_ret : MRet R := fun A a s => Some (s, inr a).
#[export] Instance R_bind : MBind R := fun A B f m s =>
  match m s with
  | Some (s', inr a) => f a s'
  | Some (s', inl e) => Some (s', inl e)
  | None => None
  end.

Definition throw {A} (e : exn) : R A := fun s => Some (s, inl e).
Definition print (line : string) : R unit := fun s =>
  Some (mkStore (heap s) (objs s) (ms_counter s) (fails s) (out s ++ [line]), inr tt).
Definition get_obj (o : nat) : R Spreadsheet := fun s =>
  match objs s !! o with Some x => Some (s, inr x) | None => None end.
Definition put_obj (o : nat) (x : Spreadsheet) : R unit := fun s => Some (with_objs (<[o := x]> (objs s)) s, inr tt).
Definition del_obj (o : nat) : R unit := fun s => Some (with_objs (delete o (objs s)) s, inr tt).
Definition new_name : R nat := fun s => Some (s, inr (fresh (dom (objs s)))).
Definition on_heap {A} (f : gmap nat block -> option (gmap nat block * A)) : R A := fun s =>
  match f (heap s) with Some (h, a) => Some (with_heap h s, inr a) | None => None end.

(** If the body of a constructor throws, the object does not come to life; its
    destructor is not called. *)
Definition constructing {A} (o : nat) (m : R A) : R A := fun s =>
  match m s with
  | Some (s', inl e) => Some (with_objs (delete o (objs s')) s', inl e)
  | r => r
  end.

(** ** Blocks *)

Definition new_block (b : block) : R nat := fun s =>
  match fails s with
  | true :: fs => Some (mkStore (heap s) (objs s) (ms_counter s) fs (out s), inl bad_alloc)
  | fs =>
      let a := fresh (dom (heap s)) in
      Some (mkStore (<[a := b]> (heap s)) (objs s) (ms_counter s) (tail fs) (out s), inr a)
  end.

Definition read_ptr (h : gmap nat block) (p : option nat) (i : nat) : option nat :=
  match p with
  | None => None
  | Some t => match h !! t with Some (Ptrs l) => mjoin (l !! i) | _ => None end
  end.
Definition write_ptr (h : gmap nat block) (t i c : nat) : option (gmap nat block * unit) :=
  match h !! t with
  | Some (Ptrs l) => if decide (i < length l)%nat then Some (<[t := Ptrs (<[i := Some c]> l)]> h, tt) else None
  | _ => None
  end.
Definition read_cell (h : gmap nat block) (c j : nat) : option cell :=
  match h !! c with Some (Cells l) => l !! j | _ => None end.
Definition write_cell (h : gmap nat block) (c j : nat) (v : cell) : option (gmap nat block) :=
  match h !! c with
  | Some (Cells l) => if decide (j < length l)%nat then Some (<[c := Cells (<[j := v]> l)]> h) else None
  | _ => None
  end.
Definition delete_cells (h : gmap nat block) (c : nat) : option (gmap nat block) :=
  match h !! c with Some (Cells _) => Some (delete c h) | _ => None end.

(** [delete[] m_cells]; deleting a null pointer does nothing. *)
Definition delete_ptrs (h : gmap nat block) (p : option nat) : option (gmap nat block) :=
  match p with
  | None => Some h
  | Some t => match h !! t with Some (Ptrs _) => Some (delete t h) | _ => None end
  end.

(** ** The members *)

(** The loop of the constructor, from column [i] on. *)
Definition new_column (t height i : nat) : R unit :=
  c ← new_block (Cells (replicate height dflt));
  on_heap (fun h => write_ptr h t i c).

Fixpoint new_columns (t height i n : nat) : R unit :=
  match n with
  | O => mret tt
  | S n => new_column t height i ;; new_columns t height (S i) n
  end.

Definition next_id : R Z := fun s =>
  let id := u64 (ms_counter s + 1) in
  Some (mkStore (heap s) (objs s) id (fails s) (out s), inr id).

Definition construct (this width height : nat) : R unit :=
  id ← next_id;
  constructing this
    (put_obj this (mkSpreadsheet id width height None) ;;
     print "constructor..." ;;
     t ← new_block (Ptrs (replicate width None));
     put_obj this (mkSpreadsheet id width height (Some t)) ;;
     new_columns t height 0 width).

(** The loop [delete[] m_cells[i]], from column [i] on. *)
Fixpoint delete_columns (h : gmap nat block) (p : option nat) (i n : nat) : option (gmap nat block) :=
  match n with
  | O => Some h
  | S n => c ← read_ptr h p i; h ← delete_cells h c; delete_columns h p (S i) n
  end.

Definition delete_all (x : Spreadsheet) (h : gmap nat block) : option (gmap nat block * unit) :=
  h ← delete_columns h (m_cells x) 0 (m_width x);
  h ← delete_ptrs h (m_cells x);
  Some (h, tt).

Definition destruct (this : nat) : R unit :=
  print "destructor..." ;;
  x ← get_obj this;
  on_heap (delete_all x) ;;
  del_obj this.

Definition cleanup (this : nat) : R unit :=
  x ← get_obj this;
  on_heap (delete_all x) ;;
  put_obj this (mkSpreadsheet (m_id x) 0 0 None).

Definition moveFrom (this src : nat) : R unit :=
  x ← get_obj src;
  put_obj src (mkSpreadsheet (m_id x) 0 0 None) ;;
  y ← get_obj this;
  put_obj this (mkSpreadsheet (m_id y) (m_width x) (m_height x) (m_cells x)).

(** [m_cells[i][j] = src.m_cells[i][j]] for [n] rows from [j] on. *)
Fixpoint copy_column (h : gmap nat block) (p q : option nat) (i j n : nat) : option (gmap nat block) :=
  match n with
  | O => Some h
  | S n =>
      c ← read_ptr h p i; d ← read_ptr h q i; v ← read_cell h d j;
      h ← write_cell h c j v; copy_column h p q i (S j) n
  end.

Fixpoint copy_columns (h : gmap nat block) (p q : option nat) (height i n : nat) : option (gmap nat block) :=
  match n with
  | O => Some h
  | S n => h ← copy_column h p q i 0 height; copy_columns h p q height (S i) n
  end.

Definition copy_construct (this src : nat) : R unit :=
  x ← get_obj src;
  construct this (m_width x) (m_height x) ;;
  print "copy constructor..." ;;
  y ← get_obj this;
  on_heap (fun h => h ← copy_columns h (m_cells y) (m_cells x) (m_height y) 0 (m_width y); Some (h, tt)).

Definition swap_members (this other : nat) : R unit :=
  x ← get_obj this;
  y ← get_obj other;
  put_obj this (mkSpreadsheet (m_id x) (m_width y) (m_height y) (m_cells y)) ;;
  put_obj other (mkSpreadsheet (m_id y) (m_width x) (m_height x) (m_cells x)).

Definition swap (first second : nat) : R unit := print "swap(a, b)" ;; swap_members first second.

Definition copy_assign (this rhs : nat) : R unit :=
  print "copy =..." ;;
  tmp ← new_name;
  copy_construct tmp rhs ;;
  swap_members this tmp ;;
  destruct tmp.

Definition move_construct (this src : nat) : R unit :=
  put_obj this (mkSpreadsheet 223344 0 0 None) ;;
  print "move constructor" ;;
  swap_members this src.

Definition move_assign (this rhs : nat) : R unit := print "move =" ;; swap_members this rhs.

Definition verify (this x y : nat) : R unit :=
  o ← get_obj this;
  if decide (m_width o <= x)%nat then throw (ExnOutOfRange "bad x")
  else if decide (m_height o <= y)%nat then throw (ExnOutOfRange "bad y")
  else mret tt.

Definition setCellAt (this x y : nat) (v : cell) : R unit :=
  verify this x y ;;
  o ← get_obj this;
  on_heap (fun h => c ← read_ptr h (m_cells o) x; h ← write_cell h c y v; Some (h, tt)).

Definition getCellAt (this x y : nat) : R cell :=
  verify this x y ;;
  o ← get_obj this;
  on_heap (fun h => c ← read_ptr h (m_cells o) x; v ← read_cell h c y; Some (h, v)).

(** ** Values, and who owns the blocks *)

(** The value of a spreadsheet: its height and its columns. *)
Definition value : Type := nat * list (list cell).

(** The owner of a block is an object, or nobody once an exception has lost it. *)
Abbreviation owners := (gmap nat (option nat)).

Definition repr (h : gmap nat block) (own : owners) (o : nat) (x : Spreadsheet) (v : value) : Prop :=
  m_height x = v.1 /\ m_width x = length v.2 /\
  match m_cells x with
  | None => v = (0%nat, []) /\ forall a, own !! a <> Some (Some o)
  | Some t =>
      exists cs, h !! t = Some (Ptrs (Some <$> cs)) /\ NoDup cs /\
        Forall2 (fun c col => h !! c = Some (Cells col) /\ length col = v.1) cs v.2 /\
        forall a, own !! a = Some (Some o) <-> a = t \/ a ∈ cs
  end.

Definition same_objs (h : gmap nat block) (own : owners) (os : gmap nat Spreadsheet) (G : gmap nat value) : Prop :=
  forall o, match os !! o, G !! o with
  | Some x, Some v => repr h own o x v
  | None, None => forall a, own !! a <> Some (Some o)
  | _, _ => False
  end.

(** With [leak] false, no block is lost and no allocation fails. *)
Definition wf_at (leak : bool) (own : owners) (s : store) (G : gmap nat value) : Prop :=
  (forall a, is_Some (heap s !! a) <-> is_Some (own !! a)) /\
  same_objs (heap s) own (objs s) G /\
  (leak = false -> fails s = [] /\ forall a, own !! a <> Some None).
Definition wf (leak : bool) (s : store) (G : gmap nat value) : Prop := exists own, wf_at leak own s G.

Lemma repr_frame h h' own own' o x v :
  repr h own o x v ->
  (forall a, own' !! a = Some (Some o) <-> own !! a = Some (Some o)) ->
  (forall a, own !! a = Some (Some o) -> h' !! a = h !! a) -> repr h' own' o x v.
Proof.
  intros (H1 & H2 & H3) Ho Hh. split; [done|]. split; [done|]. destruct (m_cells x) as [t|].
  - destruct H3 as (cs & Ht & Hnd & Hcs & Hown). exists cs.
    assert (Hsame : forall a, a = t \/ a ∈ cs -> h' !! a = h !! a) by (intros a Ha; by apply Hh, Hown).
    split; [by rewrite Hsame by auto|]. split; [done|]. split; [|intros a; by rewrite Ho, Hown].
    apply Forall2_same_length_lookup. split; [by eapply Forall2_length|]. intros i c col Hc Hcol.
    destruct (Forall2_lookup_lr _ _ _ _ _ _ Hcs Hc Hcol). rewrite Hsame; [done|right; by eapply list_elem_of_lookup_2].
  - destruct H3 as [Hv Hno]. split; [done|]. intros a. by rewrite Ho.
Qed.

Lemma same_objs_lookup h own os G o v :
  same_objs h own os G -> G !! o = Some v -> exists x, os !! o = Some x /\ repr h own o x v.
Proof. intros H Hv. specialize (H o). rewrite Hv in H. destruct (os !! o) as [x|]; [by exists x|done]. Qed.

Lemma same_objs_none h own os G o :
  same_objs h own os G -> G !! o = None -> os !! o = None /\ forall a, own !! a <> Some (Some o).
Proof. intros H Hv. specialize (H o). rewrite Hv in H. by destruct (os !! o). Qed.

(** The rest of the world does not see what an object does with its blocks. *)
Lemma same_objs_other h h' own own' os os' G G' o0 :
  same_objs h own os G ->
  (forall o, o <> o0 -> os' !! o = os !! o /\ G' !! o = G !! o) ->
  (forall o a, o <> o0 -> own' !! a = Some (Some o) <-> own !! a = Some (Some o)) ->
  (forall o a, o <> o0 -> own !! a = Some (Some o) -> h' !! a = h !! a) ->
  match os' !! o0, G' !! o0 with
  | Some x, Some v => repr h' own' o0 x v
  | None, None => forall a, own' !! a <> Some (Some o0)
  | _, _ => False
  end -> same_objs h' own' os' G'.
Proof.
  intros Hs Hos Hown Hh H0 o. destruct (decide (o = o0)) as [->|Hne]; [done|].
  destruct (Hos o Hne) as [-> ->]. specialize (Hs o). destruct (os !! o), (G !! o); try done.
  - eapply repr_frame; [exact Hs|intros a; by apply Hown|intros a; by apply Hh].
  - intros a Ha. apply (Hs a). by apply Hown.
Qed.

(** *** Maps that change at a list of addresses *)

Lemma list_elem_of_rev (a : nat) l : a ∈ rev l <-> a ∈ l.
Proof. by rewrite <- Permutation_rev. Qed.

Definition give {V} (l : list nat) (x : V) (m : gmap nat V) : gmap nat V := foldr (fun a m => <[a := x]> m) m l.
Definition remove {V} (l : list nat) (m : gmap nat V) : gmap nat V := foldr delete m l.

#[local] Arguments give {V} l x m : simpl never.
#[local] Arguments remove {V} l m : simpl never.

Lemma give_lookup {V} l (x : V) m a : give l x m !! a = if decide (a ∈ l) then Some x else m !! a.
Proof.
  induction l as [|b l IH]; [done|].
  change (give (b :: l) x m) with (<[b := x]> (give l x m)).
  destruct (decide (a = b)) as [->|Hne].
  - rewrite lookup_insert_eq, decide_True by left. done.
  - rewrite lookup_insert_ne by done. rewrite IH. destruct (decide (a ∈ l)) as [H|H].
    + by rewrite decide_True by (by right).
    + by rewrite decide_False by (rewrite elem_of_cons; tauto).
Qed.

Lemma remove_lookup {V} l (m : gmap nat V) a : remove l m !! a = if decide (a ∈ l) then None else m !! a.
Proof.
  induction l as [|b l IH]; [done|].
  change (remove (b :: l) m) with (delete b (remove l m)).
  destruct (decide (a = b)) as [->|Hne].
  - rewrite lookup_delete_eq, decide_True by left. done.
  - rewrite lookup_delete_ne by done. rewrite IH. destruct (decide (a ∈ l)) as [H|H].
    + by rewrite decide_True by (by right).
    + by rewrite decide_False by (rewrite elem_of_cons; tauto).
Qed.

(** ** The loops *)

Lemma delete_columns_spec h t cs i n :
  h !! t = Some (Ptrs (Some <$> cs)) -> length cs = (i + n)%nat -> NoDup cs ->
  (forall c, c ∈ drop i cs -> exists l, h !! c = Some (Cells l)) ->
  delete_columns h (Some t) i n = Some (remove (rev (drop i cs)) h).
Proof.
  revert h i. induction n as [|n IH]; intros h i Ht Hl Hnd Hc.
  - rewrite drop_ge by lia. done.
  - destruct (lookup_lt_is_Some_2 cs i) as [c Ec]; [lia|].
    assert (Ed : drop i cs = c :: drop (S i) cs) by (by apply drop_S). rewrite Ed in *.
    destruct (Hc c ltac:(left)) as [l Hcl].
    assert (Hct : c <> t) by (intros ->; congruence).
    simpl. rewrite Ht, list_lookup_fmap, Ec. simpl. unfold delete_cells. rewrite Hcl. simpl.
    assert (Hni : c ∉ drop (S i) cs).
    { rewrite <- (take_drop i cs), Ed in Hnd. apply NoDup_app in Hnd as (_ & _ & Hnd). by apply NoDup_cons in Hnd as [? _]. }
    rewrite IH; [|by rewrite lookup_delete_ne|lia|done|].
    + f_equal. apply map_eq. intros a. rewrite !remove_lookup. destruct (decide (a = c)) as [->|Hne].
      * rewrite decide_False, decide_True; [by rewrite lookup_delete_eq| |].
        -- apply elem_of_app. right. left.
        -- rewrite list_elem_of_rev. done.
      * rewrite lookup_delete_ne by done.
        destruct (decide (a ∈ rev (drop (S i) cs))) as [Ha|Ha]; [by rewrite decide_True by (apply elem_of_app; auto)|].
        rewrite decide_False; [done|]. intros [?|?%list_elem_of_singleton]%elem_of_app; done.
    + intros c' Hc'. destruct (Hc c' ltac:(by right)) as [l' Hl']. exists l'.
      rewrite lookup_delete_ne; [done|]. intros ->. done.
Qed.

Lemma delete_all_spec h own o x v :
  repr h own o x v -> exists h', delete_all x h = Some (h', tt) /\
    (forall a, own !! a = Some (Some o) -> h' !! a = None) /\
    (forall a, own !! a <> Some (Some o) -> h' !! a = h !! a).
Proof.
  intros (_ & Hw & Hp). unfold delete_all. destruct (m_cells x) as [t|].
  - destruct Hp as (cs & Ht & Hnd & Hcs & Hown).
    assert (Hcells : forall c, c ∈ cs -> exists l, h !! c = Some (Cells l)).
    { intros c Hc. apply list_elem_of_lookup in Hc as [k Hk]. destruct (Forall2_lookup_l _ _ _ _ _ Hcs Hk) as (l & _ & ? & _).
      by exists l. }
    assert (Hnt : t ∉ cs) by (intros Hin; destruct (Hcells t Hin); congruence).
    rewrite (delete_columns_spec h t cs 0 (m_width x)); [|done|rewrite Hw; by eapply Forall2_length|done|by rewrite drop_0].
    rewrite drop_0. unfold delete_ptrs. simpl. rewrite remove_lookup, decide_False by (by rewrite list_elem_of_rev).
    rewrite Ht. simpl. eexists. split; [done|]. split; intros a Ha.
    + rewrite Hown in Ha. destruct (decide (a = t)) as [->|Hne]; [by rewrite lookup_delete_eq|].
      rewrite lookup_delete_ne, remove_lookup by done. rewrite decide_True; [done|]. rewrite list_elem_of_rev. by destruct Ha.
    + rewrite Hown in Ha. assert (a <> t /\ a ∉ cs) as [Hat Hac] by tauto. rewrite lookup_delete_ne by done.
      rewrite remove_lookup, decide_False; [done|]. by rewrite list_elem_of_rev.
  - destruct Hp as [-> Hno]. rewrite Hw. simpl. exists h. split; [done|]. split; [|done]. intros a Ha. by destruct (Hno a).
Qed.

(** [new_block] fails or finds a free address. *)
Lemma new_block_spec b s :
  (exists s', new_block b s = Some (s', inl bad_alloc) /\ heap s' = heap s /\ objs s' = objs s /\ fails s <> []) \/
  (exists s' a, new_block b s = Some (s', inr a) /\ heap s !! a = None /\ heap s' = <[a := b]> (heap s) /\
     objs s' = objs s /\ (fails s = [] -> fails s' = [])).
Proof.
  unfold new_block. assert (Hc : heap s !! fresh (dom (heap s)) = None) by (apply not_elem_of_dom, is_fresh).
  destruct (fails s) as [|[] fs]; [right|left|right]; repeat eexists; done.
Qed.

Lemma new_column_spec t ht i n s cs :
  heap s !! t = Some (Ptrs ((Some <$> cs) ++ replicate (S n) None)) -> length cs = i ->
  (exists s', new_column t ht i s = Some (s', inl bad_alloc) /\ heap s' = heap s /\ objs s' = objs s /\ fails s <> []) \/
  (exists s' c, new_column t ht i s = Some (s', inr tt) /\ heap s !! c = None /\ c <> t /\
     heap s' = <[t := Ptrs ((Some <$> (cs ++ [c])) ++ replicate n None)]> (<[c := Cells (replicate ht dflt)]> (heap s)) /\
     objs s' = objs s /\ (fails s = [] -> fails s' = [])).
Proof.
  intros Ht Hl. unfold new_column, mbind, R_bind.
  destruct (new_block_spec (Cells (replicate ht dflt)) s) as [(s' & -> & H)|(s' & c & -> & Hc & Hh & Ho & Hf)].
  - left. by exists s'.
  - right. assert (Hct : c <> t) by (intros ->; congruence).
    unfold on_heap, write_ptr. rewrite Hh, lookup_insert_ne, Ht by done.
    rewrite decide_True by (rewrite length_app, length_fmap, length_replicate; lia).
    eexists _, c. split; [done|]. split; [done|]. split; [done|]. simpl. split; [|done]. do 2 f_equal.
    rewrite fmap_app, <- app_assoc. replace i with (length (Some <$> cs) + 0)%nat by (rewrite length_fmap; lia).
    by rewrite insert_app_r.
Qed.

(** The columns the loop of the constructor has added, and what it leaves alone;
    after a failed allocation it stops. *)
Lemma new_columns_spec t ht i n s cs :
  heap s !! t = Some (Ptrs ((Some <$> cs) ++ replicate n None)) -> length cs = i ->
  exists s' r new, new_columns t ht i n s = Some (s', r) /\
    objs s' = objs s /\ NoDup new /\
    (forall c, c ∈ new -> heap s !! c = None /\ heap s' !! c = Some (Cells (replicate ht dflt))) /\
    (forall a, a <> t -> a ∉ new -> heap s' !! a = heap s !! a) /\
    (fails s = [] -> fails s' = []) /\
    ((r = inr tt /\ heap s' !! t = Some (Ptrs (Some <$> (cs ++ new))) /\ length new = n) \/
     (r = inl bad_alloc /\ fails s <> [] /\ is_Some (heap s' !! t))).
Proof.
  revert i s cs. induction n as [|n IH]; intros i s cs Ht Hl.
  - exists s, (inr tt), []. simpl in *. rewrite app_nil_r in Ht. split; [done|]. split; [done|]. split; [constructor|].
    split; [by intros c ?%not_elem_of_nil|]. split; [done|]. split; [done|]. left. by rewrite app_nil_r.
  - simpl. unfold mbind at 1, R_bind at 1.
    destruct (new_column_spec t ht i n s cs Ht Hl) as [(s' & -> & Hh & Ho & Hf)|(s1 & c & -> & Hc & Hct & Hh & Ho & Hf)].
    + exists s', (inl bad_alloc), []. split; [done|]. split; [done|]. split; [constructor|].
      split; [by intros c ?%not_elem_of_nil|]. split; [by rewrite Hh|]. split; [done|]. right. by rewrite Hh, Ht.
    + destruct (IH (S i) s1 (cs ++ [c])) as (s' & r & new & E & Hos & Hnd & Hnew & Hold & Hfa & Hr).
      { by rewrite Hh, lookup_insert_eq. }
      { rewrite length_app. simpl. lia. }
      assert (Hnew1 : forall a, a ∈ new -> a <> c /\ a <> t /\ heap s !! a = None).
      { intros a Ha. destruct (Hnew a Ha) as [H1 _]. rewrite Hh in H1.
        destruct (decide (a = t)) as [->|Hat]; [by rewrite lookup_insert_eq in H1|]. rewrite lookup_insert_ne in H1 by done.
        destruct (decide (a = c)) as [->|Hac]; [by rewrite lookup_insert_eq in H1|]. by rewrite lookup_insert_ne in H1. }
      assert (Hcn : c ∉ new) by (intros Hin; by destruct (Hnew1 c Hin)).
      exists s', r, (c :: new). split; [exact E|]. split; [by rewrite Hos|]. split; [by constructor|].
      split; [|split; [|split; [auto|]]].
      * intros a [->|Ha]%elem_of_cons; [|split; [by apply Hnew1|by apply Hnew]]. split; [done|].
        rewrite Hold, Hh by done. by rewrite lookup_insert_ne, lookup_insert_eq.
      * intros a Hat Ha. rewrite elem_of_cons in Ha. apply Decidable.not_or in Ha as [Hac Han].
        rewrite Hold, Hh by done. by rewrite !lookup_insert_ne by done.
      * destruct Hr as [(-> & Hr & Hln)|(-> & Hr & Hs)]; [left|right; split; [done|]; split; [auto|done]].
        split; [done|]. split; [by rewrite Hr, <- app_assoc|by simpl; rewrite Hln].
Qed.

Lemma copy_column_spec h t u cs ds i j n c d old new :
  h !! t = Some (Ptrs (Some <$> cs)) -> h !! u = Some (Ptrs (Some <$> ds)) ->
  cs !! i = Some c -> ds !! i = Some d -> c <> d ->
  h !! c = Some (Cells old) -> h !! d = Some (Cells new) ->
  length old = length new -> (j + n)%nat = length new ->
  copy_column h (Some t) (Some u) i j n = Some (<[c := Cells (take j old ++ drop j new)]> h).
Proof.
  revert h old j. induction n as [|n IH]; intros h old j Ht Hu Ec Ed Hcd Hc Hd Hl Hj.
  - rewrite take_ge, drop_ge, app_nil_r by lia. simpl. by rewrite insert_id.
  - destruct (lookup_lt_is_Some_2 new j) as [v Ev]; [lia|].
    assert (Hct : c <> t) by (intros ->; congruence). assert (Hcu : c <> u) by (intros ->; congruence).
    simpl. rewrite Ht, Hu, !list_lookup_fmap, Ec, Ed. simpl. unfold read_cell, write_cell. rewrite Hd, Ev. simpl.
    rewrite Hc, decide_True by lia. simpl.
    rewrite (IH _ (<[j := v]> old) (S j)); try done; try lia;
      [|by rewrite lookup_insert_ne|by rewrite lookup_insert_ne|by rewrite lookup_insert_eq
      |by rewrite lookup_insert_ne|by rewrite length_insert].
    rewrite insert_insert_eq. do 3 f_equal.
    rewrite (drop_S new v j) by done. rewrite (take_S_r _ j v) by (apply list_lookup_insert_eq; lia).
    rewrite take_insert_ge by lia. by rewrite <- app_assoc.
Qed.

Lemma copy_columns_spec h t u cs ds ht i n :
  h !! t = Some (Ptrs (Some <$> cs)) -> h !! u = Some (Ptrs (Some <$> ds)) ->
  length cs = (i + n)%nat -> length ds = (i + n)%nat -> NoDup cs -> (forall a, a ∈ cs -> a ∉ ds) ->
  (forall a, a ∈ cs \/ a ∈ ds -> exists l, h !! a = Some (Cells l) /\ length l = ht) ->
  exists h', copy_columns h (Some t) (Some u) ht i n = Some h' /\
    (forall k c d, (i <= k)%nat -> cs !! k = Some c -> ds !! k = Some d -> h' !! c = h !! d) /\
    (forall a, a ∉ drop i cs -> h' !! a = h !! a).
Proof.
  revert h i. induction n as [|n IH]; intros h i Ht Hu Hl Hl2 Hnd Hdis Hcells.
  - exists h. split; [done|]. split; [|done]. intros k c d Hk Hc _. apply lookup_lt_Some in Hc. lia.
  - destruct (lookup_lt_is_Some_2 cs i) as [c Ec]; [lia|]. destruct (lookup_lt_is_Some_2 ds i) as [d Ed]; [lia|].
    assert (Hcin : c ∈ cs) by (by eapply list_elem_of_lookup_2).
    assert (Hdin : d ∈ ds) by (by eapply list_elem_of_lookup_2).
    destruct (Hcells c) as (old & Hc & Hlo); [by left|]. destruct (Hcells d) as (new & Hd & Hln); [by right|].
    assert (Hcd : c <> d) by (intros ->; by apply (Hdis d)).
    assert (Hct : c <> t) by (intros ->; congruence). assert (Hcu : c <> u) by (intros ->; congruence).
    simpl. rewrite (copy_column_spec h t u cs ds i 0 ht c d old new) by (done || lia).
    rewrite take_0, drop_0. simpl.
    destruct (IH (<[c := Cells new]> h) (S i)) as (h' & -> & Hnew & Hold); try lia; try done;
      [by rewrite lookup_insert_ne..| |].
    { intros a Ha. destruct (decide (a = c)) as [->|Hac]; [rewrite lookup_insert_eq; by exists new|].
      rewrite lookup_insert_ne by done. by apply Hcells. }
    assert (Hci : c ∉ drop (S i) cs).
    { intros [k Hk]%list_elem_of_lookup. rewrite lookup_drop in Hk.
      pose proof (NoDup_lookup _ _ _ _ Hnd Ec Hk). lia. }
    exists h'. split; [done|]. split.
    + intros k c' d' Hk Hc' Hd'. destruct (decide (k = i)) as [->|Hki].
      * assert (c' = c) as -> by congruence. assert (d' = d) as -> by congruence.
        rewrite Hold by done. by rewrite lookup_insert_eq.
      * rewrite (Hnew k c' d') by (done || lia). rewrite lookup_insert_ne; [done|]. intros <-.
        apply (Hdis c); [done|by eapply list_elem_of_lookup_2].
    + intros a Ha. rewrite (drop_S cs c i), elem_of_cons in Ha by done. apply Decidable.not_or in Ha as [Hac Had].
      rewrite Hold by done. by rewrite lookup_insert_ne.
Qed.

(** ** Running an operation *)

Definition runs_to {A} (m : R A) (s : store) (Q : store -> exn + A -> Prop) : Prop :=
  exists s' r, m s = Some (s', r) /\ Q s' r.

Lemma rt_bind {A B} (m : R A) (f : A -> R B) s Q :
  runs_to m s (fun s' r => match r with inl e => Q s' (inl e) | inr a => runs_to (f a) s' Q end) ->
  runs_to (m ≫= f) s Q.
Proof.
  intros (s' & r & E & H). unfold runs_to, mbind, R_bind. rewrite E. destruct r as [e|a]; [by exists s', (inl e)|exact H].
Qed.

Lemma rt_mono {A} (m : R A) s (P Q : store -> exn + A -> Prop) :
  runs_to m s P -> (forall s' r, P s' r -> Q s' r) -> runs_to m s Q.
Proof. intros (s' & r & E & H) HPQ. exists s', r. auto. Qed.

Lemma rt_get o s x Q : objs s !! o = Some x -> Q s (inr x) -> runs_to (get_obj o) s Q.
Proof. intros H HQ. exists s, (inr x). unfold get_obj. by rewrite H. Qed.

Lemma rt_heap {A} (f : gmap nat block -> option (gmap nat block * A)) s h a Q :
  f (heap s) = Some (h, a) -> Q (with_heap h s) (inr a) -> runs_to (on_heap f) s Q.
Proof. intros H HQ. exists (with_heap h s), (inr a). unfold on_heap. by rewrite H. Qed.

Lemma rt_constructing {A} o (m : R A) s Q :
  runs_to m s (fun s' r => match r with
    | inl e => Q (with_objs (delete o (objs s')) s') (inl e)
    | inr a => Q s' (inr a) end) -> runs_to (constructing o m) s Q.
Proof.
  intros (s' & r & E & H). unfold runs_to, constructing. rewrite E. by destruct r as [e|a]; eexists _, _.
Qed.

(** A step that computes. *)
Ltac rt_next := apply rt_bind; eexists _, _; split; [reflexivity|cbn beta iota].

(** *** How the invariant changes *)

Lemma wf_new l own s s' G o x v new :
  wf_at l own s G -> G !! o = None ->
  (forall a, a ∈ new -> heap s !! a = None /\ is_Some (heap s' !! a)) ->
  (forall a, a ∉ new -> heap s' !! a = heap s !! a) ->
  objs s' = <[o := x]> (objs s) -> (fails s = [] -> fails s' = []) ->
  repr (heap s') (give new (Some o) own) o x v ->
  wf_at l (give new (Some o) own) s' (<[o := v]> G).
Proof.
  intros (Hd & Hs & Hl) HG Hnew Hold Ho Hf Hr.
  assert (Hfree : forall a, a ∈ new -> own !! a = None).
  { intros a Ha. destruct (own !! a) eqn:E; [|done]. destruct (Hnew a Ha) as [Hn _].
    assert (is_Some (heap s !! a)) as [? ?] by (apply Hd; by rewrite E). congruence. }
  split; [|split].
  - intros a. rewrite give_lookup. destruct (decide (a ∈ new)) as [Ha|Ha].
    + split; [done|]. intros _. by apply Hnew.
    + by rewrite Hold.
  - eapply (same_objs_other _ _ _ _ _ _ _ _ o Hs).
    + intros o' Hne. rewrite Ho. by rewrite !lookup_insert_ne.
    + intros o' a Hne. rewrite give_lookup. destruct (decide (a ∈ new)) as [Ha|Ha]; [|done].
      rewrite (Hfree a Ha). split; [intros [= ->]; done|done].
    + intros o' a Hne Ha. apply Hold. intros Hin. rewrite (Hfree a Hin) in Ha. done.
    + rewrite Ho, !lookup_insert_eq. exact Hr.
  - intros E. destruct (Hl E) as [H1 H2]. split; [auto|]. intros a. rewrite give_lookup. case_decide; done.
Qed.

Lemma wf_leak own s s' G new :
  wf_at true own s G ->
  (forall a, a ∈ new -> heap s !! a = None /\ is_Some (heap s' !! a)) ->
  (forall a, a ∉ new -> heap s' !! a = heap s !! a) ->
  objs s' = objs s -> wf_at true (give new None own) s' G.
Proof.
  intros (Hd & Hs & _) Hnew Hold Ho.
  assert (Hfree : forall a, a ∈ new -> own !! a = None).
  { intros a Ha. destruct (own !! a) eqn:E; [|done]. destruct (Hnew a Ha) as [Hn _].
    assert (is_Some (heap s !! a)) as [? ?] by (apply Hd; by rewrite E). congruence. }
  assert (Hown : forall o a, give new None own !! a = Some (Some o) <-> own !! a = Some (Some o)).
  { intros o a. rewrite give_lookup. destruct (decide (a ∈ new)) as [Ha|Ha]; [|done]. by rewrite (Hfree a Ha). }
  split; [|split; [|done]].
  - intros a. rewrite give_lookup. destruct (decide (a ∈ new)) as [Ha|Ha].
    + split; [done|]. intros _. by apply Hnew.
    + by rewrite Hold.
  - rewrite Ho. intros o. specialize (Hs o). destruct (objs s !! o), (G !! o); try done.
    + eapply repr_frame; [exact Hs|apply Hown|]. intros a Ha. apply Hold. intros Hin. rewrite (Hfree a Hin) in Ha. done.
    + intros a Ha. apply (Hs a). by apply Hown.
Qed.

(** An object writes to its own blocks. *)
Lemma wf_write l own s h x G o v :
  wf_at l own s G -> objs s !! o = Some x -> is_Some (G !! o) ->
  (forall a, is_Some (h !! a) <-> is_Some (heap s !! a)) ->
  (forall a, own !! a <> Some (Some o) -> h !! a = heap s !! a) ->
  repr h own o x v -> wf_at l own (with_heap h s) (<[o := v]> G).
Proof.
  intros (Hd & Hs & Hl) Ho HG Hdom Hold Hr. split; [|split; [|exact Hl]].
  - intros a. simpl. by rewrite Hdom.
  - simpl. eapply (same_objs_other _ _ _ _ _ _ _ _ o Hs).
    + intros o' Hne. by rewrite lookup_insert_ne.
    + done.
    + intros o' a Hne Ha. apply Hold. rewrite Ha. congruence.
    + rewrite Ho, lookup_insert_eq. exact Hr.
Qed.

(** ** The operations *)

(** What an operation may do: succeed with new values, or fail to allocate and
    leave all values alone. *)
Definition allocates {A} (leak : bool) (a : A) (G G' : gmap nat value) (s' : store) (r : exn + A) : Prop :=
  (r = inr a /\ wf leak s' G') \/ (leak = true /\ r = inl bad_alloc /\ wf leak s' G).

Lemma blank_columns (h : gmap nat block) (new : list nat) ht :
  (forall c, c ∈ new -> h !! c = Some (Cells (replicate ht dflt))) ->
  Forall2 (fun c col => h !! c = Some (Cells col) /\ length col = ht) new (replicate (length new) (replicate ht dflt)).
Proof.
  intros H. apply Forall2_same_length_lookup. split; [by rewrite length_replicate|].
  intros i c col Hc Hcol. apply lookup_replicate in Hcol as [-> _]. split; [|apply length_replicate].
  apply H. by eapply list_elem_of_lookup_2.
Qed.

Lemma construct_spec l s G o w ht :
  wf l s G -> G !! o = None ->
  runs_to (construct o w ht) s (fun s' r =>
    (forall o', o' <> o -> objs s' !! o' = objs s !! o') /\
    allocates l tt G (<[o := (ht, replicate w (replicate ht dflt))]> G) s' r).
Proof.
  intros [own Hwf] HG. pose proof Hwf as (Hd & Hs & Hl). destruct (same_objs_none _ _ _ _ _ Hs HG) as [Ho Hno].
  assert (Hleak : fails s <> [] -> l = true) by (destruct l; [done|]; intros Hf; by destruct (Hl eq_refl)).
  unfold construct. rt_next. apply rt_constructing. rt_next. rt_next. apply rt_bind.
  match goal with |- runs_to _ ?s0 _ => set (s1 := s0) end.
  destruct (new_block_spec (Ptrs (replicate w None)) s1) as [(s2 & E & Hh & Hos & Hf)|(s2 & t & E & Ht & Hh & Hos & Hf)];
    eexists _, _; (split; [exact E|]); simpl.
  - assert (Hdel : delete o (objs s2) = objs s) by (rewrite Hos; simpl; by rewrite delete_insert_id).
    rewrite Hdel. split; [done|]. right. rewrite (Hleak Hf) in *. split; [done|]. split; [done|].
    exists own. apply (wf_leak own s _ G []); [done| |by simpl; rewrite Hh|done].
    by intros a ?%not_elem_of_nil.
  - rt_next. match goal with |- runs_to _ ?s0 _ => set (s3 := s0) end.
    destruct (new_columns_spec t ht 0 w s3 []) as (s' & r & new & E2 & Hos2 & Hnd & Hnew & Hold & Hf2 & Hr);
      [simpl; by rewrite Hh, lookup_insert_eq|done|].
    exists s', r. split; [exact E2|].
    assert (Hob : objs s' = <[o := mkSpreadsheet (u64 (ms_counter s + 1)) w ht (Some t)]> (objs s)).
    { rewrite Hos2. simpl. rewrite Hos. simpl. by rewrite insert_insert_eq. }
    simpl in Ht, Hnew, Hold. rewrite Hh in Hnew, Hold.
    assert (Htn : t ∉ new) by (intros Hin; destruct (Hnew t Hin) as [H _]; by rewrite lookup_insert_eq in H).
    assert (Hfresh : forall a, a ∈ t :: new -> heap s !! a = None /\ is_Some (heap s' !! a)).
    { intros a [->|Ha]%elem_of_cons.
      - split; [done|]. destruct Hr as [(_ & -> & _)|(_ & _ & H)]; done.
      - destruct (Hnew a Ha) as [H1 ->]. split; [|done]. rewrite lookup_insert_ne in H1; [done|]. by intros ->. }
    assert (Hrest : forall a, a ∉ t :: new -> heap s' !! a = heap s !! a).
    { intros a [Hat Han]%not_elem_of_cons. rewrite Hold by done. by rewrite lookup_insert_ne. }
    destruct Hr as [(-> & Hr & Hln)|(-> & Hr & _)].
    + split; [intros o' Hne; rewrite Hob; by rewrite lookup_insert_ne|]. left. split; [done|]. eexists.
      eapply wf_new; [exact Hwf|exact HG|exact Hfresh|exact Hrest|exact Hob|intros E3; apply Hf2; simpl; auto|].
      split; [done|]. split; [by simpl; rewrite length_replicate|]. simpl. exists new.
      split; [done|]. split; [done|]. split; [rewrite <- Hln; apply blank_columns; intros c Hc; by apply Hnew|].
      intros a. rewrite give_lookup. destruct (decide (a ∈ t :: new)) as [Ha|Ha].
      * rewrite elem_of_cons in Ha. done.
      * split; [intros H; by destruct (Hno a)|]. rewrite <- elem_of_cons. done.
    + assert (Hlt : l = true).
      { apply Hleak. intros E3. apply Hr. simpl. auto. }
      assert (Hdel : delete o (objs s') = objs s) by (rewrite Hob; by rewrite delete_insert_id).
      rewrite Hdel. split; [done|]. right. rewrite Hlt in *. split; [done|]. split; [done|].
      eexists. eapply (wf_leak own s _ G (t :: new)); [done|exact Hfresh|exact Hrest|done].
Qed.

(** Swapping: the blocks change their owner. *)
Definition other_of (a b o : nat) : nat := if decide (o = a) then b else if decide (o = b) then a else o.

Lemma other_of_invol a b o : other_of a b (other_of a b o) = o.
Proof. unfold other_of. repeat case_decide; congruence. Qed.

Definition swap_owners (a b : nat) (own : owners) : owners :=
  (fun w : option nat => other_of a b <$> w) <$> own.

Lemma swap_owners_lookup a b own p o :
  swap_owners a b own !! p = Some (Some o) <-> own !! p = Some (Some (other_of a b o)).
Proof.
  unfold swap_owners. rewrite lookup_fmap. destruct (own !! p) as [[o'|]|]; simpl; split; intros [= E]; try done.
  - rewrite <- E. by rewrite other_of_invol.
  - by rewrite E, other_of_invol.
Qed.

Lemma repr_rename h own own' o o' x x' v :
  repr h own o x v -> (forall a, own' !! a = Some (Some o') <-> own !! a = Some (Some o)) ->
  m_width x' = m_width x -> m_height x' = m_height x -> m_cells x' = m_cells x -> repr h own' o' x' v.
Proof.
  intros (H1 & H2 & H3) Ho Ew Eh Ec. split; [congruence|]. split; [congruence|]. rewrite Ec.
  destruct (m_cells x) as [t|].
  - destruct H3 as (cs & Ht & Hnd & Hcs & Hown). exists cs. split; [done|]. split; [done|]. split; [done|].
    intros a. by rewrite Ho, Hown.
  - destruct H3 as [Hv Hno]. split; [done|]. intros a. by rewrite Ho.
Qed.

Lemma swap_members_spec l s G a b v w :
  wf l s G -> G !! a = Some v -> G !! b = Some w ->
  runs_to (swap_members a b) s (fun s' r =>
    r = inr tt /\ wf l s' (<[b := v]> (<[a := w]> G)) /\ dom (objs s') = dom (objs s)).
Proof.
  intros [own (Hd & Hs & Hl)] Ha Hb.
  destruct (same_objs_lookup _ _ _ _ _ _ Hs Ha) as (x & Hx & Hrx).
  destruct (same_objs_lookup _ _ _ _ _ _ Hs Hb) as (y & Hy & Hry).
  unfold swap_members. apply rt_bind. eapply rt_get; [exact Hx|]. apply rt_bind. eapply rt_get; [exact Hy|]. rt_next.
  eexists _, _. split; [reflexivity|]. split; [done|]. split; [|simpl; rewrite !dom_insert_L;
    assert (a ∈ dom (objs s)) by (by apply elem_of_dom); assert (b ∈ dom (objs s)) by (by apply elem_of_dom); set_solver].
  exists (swap_owners a b own). split; [|split].
  - intros p. simpl. rewrite Hd. unfold swap_owners. by rewrite lookup_fmap, fmap_is_Some.
  - simpl. intros o. destruct (decide (o = b)) as [->|Hob]; [|destruct (decide (o = a)) as [->|Hoa]].
    + rewrite !lookup_insert_eq. eapply repr_rename; [exact Hrx| |done..]. intros p. rewrite swap_owners_lookup.
      unfold other_of. destruct (decide (b = a)) as [->|]; [done|]. by rewrite decide_True.
    + rewrite (lookup_insert_ne (<[a := _]> (objs s))), (lookup_insert_ne (<[a := w]> G)), !lookup_insert_eq by done.
      eapply repr_rename; [exact Hry| |done..].
      intros p. rewrite swap_owners_lookup. unfold other_of. by rewrite decide_True.
    + rewrite !lookup_insert_ne by done. specialize (Hs o).
      assert (Hsame : forall p, swap_owners a b own !! p = Some (Some o) <-> own !! p = Some (Some o)).
      { intros p. rewrite swap_owners_lookup. unfold other_of. by rewrite !decide_False. }
      destruct (objs s !! o), (G !! o); try done; [by eapply repr_rename|]. intros p. by rewrite Hsame.
  - intros E. destruct (Hl E) as [H1 H2]. split; [done|]. intros p Hp. unfold swap_owners in Hp.
    rewrite lookup_fmap in Hp. destruct (own !! p) as [[o|]|] eqn:Eo; try discriminate. by apply (H2 p).
Qed.

(** Freeing all blocks of an object. *)
Lemma wf_free l own s h os G G' o :
  wf_at l own s G ->
  (forall a, own !! a = Some (Some o) -> h !! a = None) ->
  (forall a, own !! a <> Some (Some o) -> h !! a = heap s !! a) ->
  (forall o', o' <> o -> os !! o' = objs s !! o' /\ G' !! o' = G !! o') ->
  match os !! o, G' !! o with
  | Some x, Some v => m_width x = 0%nat /\ m_height x = 0%nat /\ m_cells x = None /\ v = (0%nat, [])
  | None, None => True
  | _, _ => False
  end ->
  wf l (mkStore h os (ms_counter s) (fails s) (out s)) G'.
Proof.
  intros (Hd & Hs & Hl) Hfree Hold Hos Ho. set (own' := filter (fun p => p.2 <> Some o) own).
  assert (Hown : forall a w, own' !! a = Some w <-> own !! a = Some w /\ w <> Some o).
  { intros a w. unfold own'. rewrite map_lookup_filter_Some. done. }
  exists own'. split; [|split].
  - intros a. simpl. destruct (decide (own !! a = Some (Some o))) as [E|E].
    + rewrite (Hfree a E). split; [intros [? ?]; done|]. intros [w Hw]. apply Hown in Hw as [H1 H2]. congruence.
    + rewrite (Hold a E), Hd. split; intros [w Hw].
      * exists w. apply Hown. split; [done|]. by intros ->.
      * apply Hown in Hw as [H _]. by exists w.
  - simpl. eapply (same_objs_other _ _ _ _ _ _ _ _ o Hs); [exact Hos| | |].
    + intros o' a Hne. rewrite Hown. split; [by intros [? _]|]. intros H. split; [done|]. congruence.
    + intros o' a Hne Ha. apply Hold. congruence.
    + assert (Hno : forall a, own' !! a <> Some (Some o)) by (intros a Ha; by apply Hown in Ha as [_ ?]).
      destruct (os !! o) as [x|], (G' !! o) as [v|]; try done. destruct Ho as (H1 & H2 & H3 & ->).
      split; [done|]. split; [done|]. by rewrite H3.
  - intros E. destruct (Hl E) as [H1 H2]. split; [done|]. intros a Ha. apply Hown in Ha as [Ha _]. by apply (H2 a).
Qed.

Lemma destruct_spec l s G o v :
  wf l s G -> G !! o = Some v ->
  runs_to (destruct o) s (fun s' r => r = inr tt /\ wf l s' (delete o G)).
Proof.
  intros [own Hwf] HG. pose proof Hwf as (Hd & Hs & Hl). destruct (same_objs_lookup _ _ _ _ _ _ Hs HG) as (x & Hx & Hr).
  destruct (delete_all_spec _ _ _ _ _ Hr) as (h & E & Hfree & Hold).
  unfold destruct. rt_next. apply rt_bind. eapply rt_get; [exact Hx|]. apply rt_bind. eapply rt_heap; [exact E|].
  eexists _, _. split; [reflexivity|]. split; [done|].
  apply (wf_free l own (mkStore (heap s) (objs s) (ms_counter s) (fails s) (out s ++ ["destructor..."%string])) h _ G _ o);
    [exact Hwf|exact Hfree|exact Hold| |].
  - intros o' Hne. simpl. by rewrite !lookup_delete_ne.
  - simpl. by rewrite !lookup_delete_eq.
Qed.

Lemma cleanup_spec l s G o v :
  wf l s G -> G !! o = Some v ->
  runs_to (cleanup o) s (fun s' r =>
    r = inr tt /\ wf l s' (<[o := (0%nat, [])]> G) /\
    exists i, objs s' !! o = Some (mkSpreadsheet i 0 0 None)).
Proof.
  intros [own Hwf] HG. pose proof Hwf as (Hd & Hs & Hl). destruct (same_objs_lookup _ _ _ _ _ _ Hs HG) as (x & Hx & Hr).
  destruct (delete_all_spec _ _ _ _ _ Hr) as (h & E & Hfree & Hold).
  unfold cleanup. apply rt_bind. eapply rt_get; [exact Hx|]. apply rt_bind. eapply rt_heap; [exact E|].
  eexists _, _. split; [reflexivity|]. split; [done|]. split; [|eexists; apply lookup_insert_eq].
  apply (wf_free l own s h _ G _ o); [exact Hwf|exact Hfree|exact Hold| |].
  - intros o' Hne. simpl. by rewrite !lookup_insert_ne.
  - simpl. by rewrite !lookup_insert_eq.
Qed.

(** The copying loops on two spreadsheets of the same shape. *)
Lemma copy_into l own s G o src x y v g :
  wf_at l own s G -> o <> src -> objs s !! o = Some y -> objs s !! src = Some x ->
  G !! o = Some (v.1, g) -> G !! src = Some v -> length g = length v.2 ->
  exists h, copy_columns (heap s) (m_cells y) (m_cells x) (m_height y) 0 (m_width y) = Some h /\
    wf_at l own (with_heap h s) (<[o := v]> G).
Proof.
  intros Hwf Hne Hy Hx HGo HGs Hlen. pose proof Hwf as (Hd & Hs & _).
  destruct (same_objs_lookup _ _ _ _ _ _ Hs HGo) as (y' & Hy' & Hry). assert (y' = y) as -> by congruence.
  destruct (same_objs_lookup _ _ _ _ _ _ Hs HGs) as (x' & Hx' & Hrx). assert (x' = x) as -> by congruence.
  pose proof Hry as (Hyh & Hyw & Hyc). pose proof Hrx as (Hxh & Hxw & Hxc). simpl in Hyh, Hyw, Hyc.
  destruct v as [ht cols]. simpl in *. destruct cols as [|col0 cols].
  - destruct g; [|done]. rewrite Hyw. exists (heap s). split; [done|].
    by apply (wf_write _ _ _ (heap s) y G o).
  - destruct (m_cells y) as [t|] eqn:Ey; [|destruct Hyc as [[= -> ->] _]; done].
    destruct (m_cells x) as [u|]; [|by destruct Hxc].
    destruct Hyc as (cs & Ht & Hnd & Hcs & Howno). destruct Hxc as (ds & Hu & Hndd & Hds & Howns).
    pose proof (Forall2_length _ _ _ Hcs) as Hlc. pose proof (Forall2_length _ _ _ Hds) as Hld.
    assert (Hdis : forall a, a ∈ cs -> a ∉ ds).
    { intros a Ha Hb. assert (own !! a = Some (Some o)) by (apply Howno; auto).
      assert (own !! a = Some (Some src)) by (apply Howns; auto). congruence. }
    assert (Hcells : forall (es : list nat) gs, Forall2 (fun c col => heap s !! c = Some (Cells col) /\ length col = ht) es gs ->
      forall a, a ∈ es -> exists l0, heap s !! a = Some (Cells l0) /\ length l0 = ht).
    { intros es gs H a [k Hk]%list_elem_of_lookup. destruct (Forall2_lookup_l _ _ _ _ _ H Hk) as (l0 & _ & ?). by exists l0. }
    destruct (copy_columns_spec (heap s) t u cs ds ht 0 (m_width y)) as (h & Hcp & Hnew & Hold); try done; [lia|simpl in *; lia| |].
    { intros a [Ha|Ha]; [by apply (Hcells cs g)|by apply (Hcells ds (col0 :: cols))]. }
    rewrite drop_0 in Hold. rewrite Hyh. exists h. split; [exact Hcp|].
    assert (Htc : t ∉ cs) by (intros Hin; destruct (Hcells cs g Hcs t Hin) as (? & ? & _); congruence).
    assert (Hcol : Forall2 (fun c col => h !! c = Some (Cells col) /\ length col = ht) cs (col0 :: cols)).
    { apply Forall2_same_length_lookup. split; [simpl in *; lia|]. intros k c col Hc Hcol.
      destruct (Forall2_lookup_r _ _ _ _ _ Hds Hcol) as (d & Hdk & Hdv & Hdl).
      rewrite (Hnew k c d) by (done || lia). done. }
    apply (wf_write _ _ _ h y G o); [done|done|by exists (ht, g)| | |].
    + intros a. destruct (decide (a ∈ cs)) as [Ha|Ha]; [|by rewrite Hold].
      pose proof Ha as [k Hk]%list_elem_of_lookup. destruct (Forall2_lookup_l _ _ _ _ _ Hcol Hk) as (col & _ & -> & _).
      destruct (Hcells cs g Hcs a Ha) as (l0 & -> & _). done.
    + intros a Ha. apply Hold. intros Hin. apply Ha, Howno. by right.
    + split; [done|]. split; [simpl in *; lia|]. rewrite Ey. exists cs. rewrite Hold by done. done.
Qed.

Lemma copy_construct_spec l s G o src v :
  wf l s G -> G !! o = None -> G !! src = Some v ->
  runs_to (copy_construct o src) s (fun s' r =>
    (forall o', o' <> o -> objs s' !! o' = objs s !! o') /\ allocates l tt G (<[o := v]> G) s' r).
Proof.
  intros Hwf HGo HGs. pose proof Hwf as [own (Hd & Hs & Hl)].
  destruct (same_objs_lookup _ _ _ _ _ _ Hs HGs) as (x & Hx & Hr). pose proof Hr as (Hxh & Hxw & _).
  assert (Hne : o <> src) by (intros ->; congruence).
  unfold copy_construct. apply rt_bind. eapply rt_get; [exact Hx|]. apply rt_bind.
  eapply rt_mono; [by apply construct_spec|]. intros s1 r [Hos [[-> Hwf1]|(-> & -> & Hwf1)]]; [|split; [done|by right]].
  rt_next. destruct Hwf1 as [own1 Hwf1]. pose proof Hwf1 as (Hd1 & Hs1 & Hl1).
  destruct (same_objs_lookup _ _ _ _ o (m_height x, replicate (m_width x) (replicate (m_height x) dflt)) Hs1)
    as (y & Hy & Hry); [by rewrite lookup_insert_eq|].
  apply rt_bind. eapply rt_get; [exact Hy|].
  match goal with |- runs_to _ ?s0 _ => set (s2 := s0) end.
  destruct (copy_into l own1 s2 (<[o := (m_height x, replicate (m_width x) (replicate (m_height x) dflt))]> G)
    o src x y v (replicate (m_width x) (replicate (m_height x) dflt))) as (h & Hcp & Hwf2).
  - exact Hwf1.
  - done.
  - exact Hy.
  - simpl. by rewrite Hos.
  - rewrite lookup_insert_eq. by rewrite Hxh.
  - by rewrite lookup_insert_ne.
  - by rewrite length_replicate.
  - eapply (rt_heap _ _ h tt); [simpl in *; by rewrite Hcp|]. split; [exact Hos|]. left. split; [done|].
    rewrite insert_insert_eq in Hwf2. by exists own1.
Qed.

Lemma copy_assign_spec l s G o src u v :
  wf l s G -> G !! o = Some u -> G !! src = Some v ->
  runs_to (copy_assign o src) s (fun s' r => allocates l tt G (<[o := v]> G) s' r).
Proof.
  intros Hwf HGo HGs. unfold copy_assign. rt_next. rt_next.
  match goal with |- runs_to _ ?s0 _ => set (s1 := s0) end. set (tmp := fresh (dom (objs s))).
  assert (Htmp : G !! tmp = None).
  { destruct Hwf as [own (_ & Hs & _)]. specialize (Hs tmp).
    assert (E : objs s !! tmp = None) by (apply not_elem_of_dom, is_fresh). rewrite E in Hs. by destruct (G !! tmp). }
  apply rt_bind. eapply rt_mono; [by apply (copy_construct_spec l s1 G tmp src v)|].
  intros s2 r [_ [[-> Hwf2]|(-> & -> & Hwf2)]]; [|right; done].
  assert (Hot : o <> tmp) by (intros ->; congruence).
  apply rt_bind. eapply rt_mono.
  { apply (swap_members_spec l s2 _ o tmp u v Hwf2); [by rewrite lookup_insert_ne|by rewrite lookup_insert_eq]. }
  intros s3 r (-> & Hwf3 & _). eapply rt_mono; [apply (destruct_spec l s3 _ tmp u Hwf3); by rewrite lookup_insert_eq|].
  intros s4 r (-> & Hwf4). left. split; [done|].
  rewrite delete_insert_eq, insert_insert_ne, delete_insert_id in Hwf4; [done| |done].
  by rewrite lookup_insert_ne.
Qed.

Lemma move_construct_spec l s G o src v :
  wf l s G -> G !! o = None -> G !! src = Some v ->
  runs_to (move_construct o src) s (fun s' r => r = inr tt /\ wf l s' (<[src := (0%nat, [])]> (<[o := v]> G))).
Proof.
  intros [own Hwf] HGo HGs. assert (Hne : o <> src) by (intros ->; congruence).
  pose proof Hwf as (_ & Hs & Hl). destruct (same_objs_none _ _ _ _ _ Hs HGo) as [_ Hno].
  unfold move_construct. rt_next. rt_next. match goal with |- runs_to _ ?s0 _ => set (s1 := s0) end.
  assert (Hwf1 : wf l s1 (<[o := (0%nat, [])]> G)).
  { exists (give [] (Some o) own). eapply (wf_new l own s s1 G o _ _ []); try done.
    by intros a ?%not_elem_of_nil. }
  eapply rt_mono.
  { apply (swap_members_spec l s1 _ o src (0%nat, []) v Hwf1); [by rewrite lookup_insert_eq|by rewrite lookup_insert_ne]. }
  intros s2 r (-> & Hwf2 & _). split; [done|]. by rewrite insert_insert_eq in Hwf2.
Qed.

(** [cleanup] and [moveFrom] are a move that leaves the source empty. *)
Lemma moveFrom_swap o src i s :
  o <> src -> objs s !! o = Some (mkSpreadsheet i 0 0 None) -> moveFrom o src s = swap_members o src s.
Proof.
  intros Hne Ho. unfold moveFrom, swap_members, mbind, R_bind, get_obj, put_obj. rewrite Ho.
  destruct (objs s !! src) as [x|]; [|done]. simpl. rewrite lookup_insert_ne, Ho by done. simpl.
  unfold with_objs. simpl. by rewrite insert_insert_ne.
Qed.

Lemma cleanup_moveFrom l s G o src u v :
  wf l s G -> o <> src -> G !! o = Some u -> G !! src = Some v ->
  runs_to (cleanup o ;; moveFrom o src) s (fun s' r =>
    r = inr tt /\ wf l s' (<[src := (0%nat, [])]> (<[o := v]> G))).
Proof.
  intros Hwf Hne Ho Hsrc. apply rt_bind. eapply rt_mono; [by eapply cleanup_spec|].
  intros s1 r (-> & Hwf1 & i & Hi). unfold runs_to. rewrite (moveFrom_swap o src i s1 Hne Hi).
  eapply rt_mono.
  { apply (swap_members_spec l s1 _ o src (0%nat, []) v Hwf1); [by rewrite lookup_insert_eq|by rewrite lookup_insert_ne]. }
  intros s2 r (-> & Hwf2 & _). split; [done|]. by rewrite insert_insert_eq in Hwf2.
Qed.

(** The checked accesses. *)
Definition cell_at (v : value) (x y : nat) : exn + cell :=
  match v.2 !! x with
  | None => inl (ExnOutOfRange "bad x")
  | Some col => match col !! y with None => inl (ExnOutOfRange "bad y") | Some c => inr c end
  end.

Lemma repr_columns h own o x v i col :
  repr h own o x v -> v.2 !! i = Some col -> length col = m_height x /\ exists c,
    read_ptr h (m_cells x) i = Some c /\ h !! c = Some (Cells col) /\ own !! c = Some (Some o).
Proof.
  intros (Hh & Hw & Hp) Hi. destruct (m_cells x) as [t|]; [|destruct Hp as [-> _]; done].
  destruct Hp as (cs & Ht & _ & Hcs & Hown). destruct (Forall2_lookup_r _ _ _ _ _ Hcs Hi) as (c & Hc & Hcc & Hl).
  split; [by rewrite Hh|]. exists c. split; [simpl; by rewrite Ht, list_lookup_fmap, Hc|]. split; [done|].
  apply Hown. right. by eapply list_elem_of_lookup_2.
Qed.

Lemma verify_spec l s G o v x y :
  wf l s G -> G !! o = Some v ->
  verify o x y s = Some (s, match cell_at v x y with inl e => inl e | inr _ => inr tt end).
Proof.
  intros [own (Hd & Hs & Hl)] HG. destruct (same_objs_lookup _ _ _ _ _ _ Hs HG) as (ob & Ho & Hr).
  pose proof Hr as (Hh & Hw & _). unfold verify, mbind, R_bind, get_obj. rewrite Ho. unfold cell_at.
  destruct (v.2 !! x) as [col|] eqn:Ex.
  - rewrite decide_False by (apply lookup_lt_Some in Ex; lia).
    destruct (repr_columns _ _ _ _ _ _ _ Hr Ex) as [Hlen _]. rewrite <- Hlen.
    destruct (col !! y) as [c|] eqn:Ey; [rewrite decide_False; [done|]|by rewrite decide_True by (by apply lookup_ge_None_1)].
    apply lookup_lt_Some in Ey. lia.
  - by rewrite decide_True by (apply lookup_ge_None_1 in Ex; lia).
Qed.

Lemma getCellAt_spec l s G o v x y :
  wf l s G -> G !! o = Some v -> getCellAt o x y s = Some (s, cell_at v x y).
Proof.
  intros Hwf HG. unfold getCellAt, mbind at 1, R_bind at 1. rewrite (verify_spec l s G o v x y Hwf HG).
  destruct Hwf as [own (Hd & Hs & Hl)]. destruct (same_objs_lookup _ _ _ _ _ _ Hs HG) as (ob & Ho & Hr).
  unfold cell_at. destruct (v.2 !! x) as [col|] eqn:Ex; [|done].
  destruct (col !! y) as [c|] eqn:Ey; [|done]. unfold mbind at 1, R_bind at 1, get_obj. rewrite Ho.
  destruct (repr_columns _ _ _ _ _ _ _ Hr Ex) as (_ & a & Ha & Hc & _).
  unfold on_heap. rewrite Ha. simpl. unfold read_cell. rewrite Hc, Ey. simpl. by destruct s.
Qed.

Definition set_cell (v : value) (x y : nat) (c : cell) : value := (v.1, alter (fun col => <[y := c]> col) x v.2).

Lemma setCellAt_spec l s G o v x y c :
  wf l s G -> G !! o = Some v ->
  runs_to (setCellAt o x y c) s (fun s' r =>
    match cell_at v x y with
    | inl e => r = inl e /\ wf l s' G
    | inr _ => r = inr tt /\ wf l s' (<[o := set_cell v x y c]> G)
    end).
Proof.
  intros Hwf HG. unfold setCellAt. apply rt_bind. eexists _, _. split; [by apply (verify_spec l s G o v)|].
  unfold cell_at. destruct (v.2 !! x) as [col|] eqn:Ex; [|done]. destruct (col !! y) as [c0|] eqn:Ey; [|done].
  destruct Hwf as [own Hwf]. pose proof Hwf as (Hd & Hs & Hl).
  destruct (same_objs_lookup _ _ _ _ _ _ Hs HG) as (ob & Ho & Hr).
  destruct (repr_columns _ _ _ _ _ _ _ Hr Ex) as (_ & a & Ha & Hc & Hoa).
  apply rt_bind. eapply rt_get; [exact Ho|].
  eapply (rt_heap _ _ (<[a := Cells (<[y := c]> col)]> (heap s)) tt).
  { rewrite Ha. simpl. unfold write_cell. rewrite Hc, decide_True by (by eapply lookup_lt_Some). done. }
  split; [done|]. exists own. apply (wf_write _ _ _ _ ob G o); [done|done|by exists v| | |].
  - intros b. destruct (decide (b = a)) as [->|]; [by rewrite lookup_insert_eq, Hc|by rewrite lookup_insert_ne].
  - intros b Hb. rewrite lookup_insert_ne; [done|]. intros ->. done.
  - destruct Hr as (Hh & Hw & Hp). split; [done|]. split; [simpl; by rewrite length_alter|].
    destruct (m_cells ob) as [t|]; [|destruct Hp as [-> _]; done].
    destruct Hp as (cs & Ht & Hnd & Hcs & Hown).
    destruct (Forall2_lookup_r _ _ _ _ _ Hcs Ex) as (a' & Hca & Hca' & Hlen).
    assert (a' = a) as ->.
    { simpl in Ha. rewrite Ht, list_lookup_fmap, Hca in Ha. simpl in Ha. congruence. }
    exists cs. split; [rewrite lookup_insert_ne; [done|intros ->; congruence]|]. split; [done|]. split; [|done].
    apply Forall2_same_length_lookup. simpl. rewrite length_alter. split; [by eapply Forall2_length|].
    intros k b g Hb Hg. destruct (decide (k = x)) as [->|Hk].
    + rewrite list_lookup_alter_eq, Ex in Hg. injection Hg as <-. assert (b = a) as -> by congruence.
      rewrite lookup_insert_eq, length_insert. done.
    + rewrite list_lookup_alter_ne in Hg by done. destruct (Forall2_lookup_lr _ _ _ _ _ _ Hcs Hb Hg).
      rewrite lookup_insert_ne; [done|]. intros <-. apply Hk. by eapply (NoDup_lookup cs).
Qed.

(** ** The contract: values *)

Inductive cmd : Type :=
  | Construct (o width height : nat)
  | CopyConstruct (o src : nat)
  | MoveConstruct (o src : nat)
  | CopyAssign (o rhs : nat)
  | MoveAssign (o rhs : nat)
  | Swap (first second : nat)
  | Destruct (o : nat)
  | SetCell (o x y : nat) (c : cell)
  | GetCell (o x y : nat).

Definition nothing (m : R unit) : R (option cell) := m ;; mret None.

Definition exec (c : cmd) : R (option cell) :=
  match c with
  | Construct o w h => nothing (construct o w h)
  | CopyConstruct o src => nothing (copy_construct o src)
  | MoveConstruct o src => nothing (move_construct o src)
  | CopyAssign o rhs => nothing (copy_assign o rhs)
  | MoveAssign o rhs => nothing (move_assign o rhs)
  | Swap a b => nothing (swap a b)
  | Destruct o => nothing (destruct o)
  | SetCell o x y c => nothing (setCellAt o x y c)
  | GetCell o x y => c ← getCellAt o x y; mret (Some c)
  end.

(** What the commands mean on values, and the commands that name what exists. *)
Definition lives (G : gmap nat value) (o : nat) : bool := match G !! o with Some _ => true | None => false end.
Definition val (G : gmap nat value) (o : nat) : value := default (0%nat, []) (G !! o).

Definition allowed (G : gmap nat value) (c : cmd) : bool :=
  match c with
  | Construct o _ _ => negb (lives G o)
  | CopyConstruct o src | MoveConstruct o src => negb (lives G o) && lives G src
  | CopyAssign o rhs | MoveAssign o rhs | Swap o rhs => lives G o && lives G rhs
  | Destruct o | SetCell o _ _ _ | GetCell o _ _ => lives G o
  end.

Definition meaning (c : cmd) (G : gmap nat value) : (exn + option cell) * gmap nat value :=
  match c with
  | Construct o w h => (inr None, <[o := (h, replicate w (replicate h dflt))]> G)
  | CopyConstruct o src | CopyAssign o src => (inr None, <[o := val G src]> G)
  | MoveConstruct o src => (inr None, <[src := (0%nat, [])]> (<[o := val G src]> G))
  | MoveAssign a b | Swap a b => (inr None, <[b := val G a]> (<[a := val G b]> G))
  | Destruct o => (inr None, delete o G)
  | SetCell o x y c =>
      match cell_at (val G o) x y with
      | inl e => (inl e, G)
      | inr _ => (inr None, <[o := set_cell (val G o) x y c]> G)
      end
  | GetCell o x y => (match cell_at (val G o) x y with inl e => inl e | inr c => inr (Some c) end, G)
  end.

Lemma lives_val G o : lives G o = true -> G !! o = Some (val G o).
Proof. unfold lives, val. by destruct (G !! o). Qed.
Lemma not_lives G o : negb (lives G o) = true -> G !! o = None.
Proof. unfold lives. by destruct (G !! o). Qed.

Lemma nothing_spec (m : R unit) s (Q : store -> exn + option cell -> Prop) :
  runs_to m s (fun s' r => Q s' (match r with inl e => inl e | inr _ => inr None end)) -> runs_to (nothing m) s Q.
Proof.
  intros (s' & r & E & H). unfold nothing, runs_to, mbind, R_bind. rewrite E.
  destruct r as [e|[]]; eexists _, _; (split; [reflexivity|exact H]).
Qed.

Definition refines (leak : bool) (c : cmd) (G : gmap nat value) (s' : store) (r : exn + option cell) : Prop :=
  (r = (meaning c G).1 /\ wf leak s' (meaning c G).2) \/ (leak = true /\ r = inl bad_alloc /\ wf leak s' G).

Lemma exec_refines l s G c : wf l s G -> allowed G c = true -> runs_to (exec c) s (refines l c G).
Proof.
  intros Hwf Hal. unfold refines. destruct c as [o w h|o src|o src|o rhs|o rhs|a b|o|o x y c|o x y]; simpl in Hal;
    repeat match goal with
    | H : _ && _ = true |- _ => apply andb_true_iff in H as [? ?]
    | H : lives _ _ = true |- _ => apply lives_val in H
    | H : negb (lives _ _) = true |- _ => apply not_lives in H
    end; simpl; try apply nothing_spec.
  - eapply rt_mono; [by apply construct_spec|]. intros s' r [_ [[-> ?]|(-> & -> & ?)]]; auto.
  - eapply rt_mono; [by eapply copy_construct_spec|]. intros s' r [_ [[-> ?]|(-> & -> & ?)]]; auto.
  - eapply rt_mono; [by eapply move_construct_spec|]. intros s' r [-> ?]. auto.
  - eapply rt_mono; [by eapply copy_assign_spec|]. intros s' r [[-> ?]|(-> & -> & ?)]; auto.
  - unfold move_assign. rt_next. eapply rt_mono; [by eapply (swap_members_spec l)|]. intros s' r (-> & ? & _). auto.
  - unfold swap. rt_next. eapply rt_mono; [by eapply (swap_members_spec l)|]. intros s' r (-> & ? & _). auto.
  - eapply rt_mono; [by eapply destruct_spec|]. intros s' r [-> ?]. auto.
  - eapply rt_mono; [by eapply setCellAt_spec|]. intros s' r H. left. destruct (cell_at (val G o) x y); destruct H as [-> ?]; auto.
  - apply rt_bind. eexists _, _. split; [by eapply getCellAt_spec|]. destruct (cell_at (val G o) x y) as [e|c] eqn:E; simpl; [auto|].
    eexists _, _. split; [reflexivity|]. auto.
Qed.

(** Commands one after the other; an exception ends its command only. *)
Fixpoint exec_all (cs : list cmd) (s : store) : option (store * list (exn + option cell)) :=
  match cs with
  | [] => Some (s, [])
  | c :: cs =>
      match exec c s with
      | None => None
      | Some (s, r) => match exec_all cs s with None => None | Some (s, rs) => Some (s, r :: rs) end
      end
  end.

Fixpoint meaning_all (cs : list cmd) (G : gmap nat value) : list (exn + option cell) * gmap nat value :=
  match cs with
  | [] => ([], G)
  | c :: cs => ((meaning c G).1 :: (meaning_all cs (meaning c G).2).1, (meaning_all cs (meaning c G).2).2)
  end.

Fixpoint allowed_all (cs : list cmd) (G : gmap nat value) : bool :=
  match cs with
  | [] => true
  | c :: cs => allowed G c && allowed_all cs (meaning c G).2
  end.

(** The program starts with an empty heap; [ms_counter] is 123555. *)
Definition store_new (fs : list bool) : store := mkStore ∅ ∅ 123555 fs [].

Lemma store_new_wf l fs : (l = false -> fs = []) -> wf l (store_new fs) ∅.
Proof.
  intros H. exists ∅. split; [|split].
  - intros a. simpl. by rewrite !lookup_empty.
  - intros o. simpl. rewrite !lookup_empty. intros a. by rewrite lookup_empty.
  - intros E. split; [by apply H|]. intros a. by rewrite lookup_empty.
Qed.

Lemma no_leak s : wf false s ∅ -> heap s = ∅.
Proof.
  intros [own (Hd & Hs & Hl)]. destruct (Hl eq_refl) as [_ Hnone]. apply map_eq. intros a. rewrite lookup_empty.
  destruct (heap s !! a) eqn:E; [|done]. assert (is_Some (own !! a)) as [[o|] Ho] by (apply Hd; by rewrite E).
  - specialize (Hs o). rewrite lookup_empty in Hs. destruct (objs s !! o); [done|]. by destruct (Hs a).
  - by destruct (Hnone a).
Qed.

Lemma exec_all_refines cs s G :
  wf false s G -> allowed_all cs G = true ->
  exists s', exec_all cs s = Some (s', (meaning_all cs G).1) /\ wf false s' (meaning_all cs G).2.
Proof.
  revert s G. induction cs as [|c cs IH]; intros s G Hwf Hal; [by exists s|]. simpl in *.
  apply andb_true_iff in Hal as [H1 H2].
  destruct (exec_refines false s G c Hwf H1) as (s1 & r & E & [[-> Hwf1]|(? & _)]); [|done].
  destruct (IH s1 _ Hwf1 H2) as (s2 & E2 & Hwf2). exists s2. by rewrite E, E2.
Qed.
End spreadsheet.

(** C16. [Spreadsheet] has value semantics: every command on spreadsheets that exist
    (constructions, copies, moves, swaps, destruction and checked accesses, also of a
    spreadsheet with itself) ends without a double or missing [delete[]] or a use of
    freed memory, and changes the values as it should, an access out of range and a
    failed allocation changing none.  If no allocation fails, no block is lost: when
    the last spreadsheet is destroyed, the heap is empty. *)
Theorem spreadsheet_values {cell} (dflt : cell) :
  (forall leak s G c, wf leak s G -> allowed G c = true -> runs_to (exec dflt c) s (refines dflt leak c G)) /\
  (forall fs, wf (cell := cell) true (store_new fs) ∅) /\
  (forall cs, allowed_all dflt cs ∅ = true ->
   exists s', exec_all dflt cs (store_new []) = Some (s', (meaning_all dflt cs ∅).1) /\
     wf false s' (meaning_all dflt cs ∅).2 /\
     ((meaning_all dflt cs ∅).2 = ∅ -> heap s' = ∅)).
Proof.
  split; [intros; by apply exec_refines|]. split; [intros fs; by apply store_new_wf|].
  intros cs Hcs. destruct (exec_all_refines dflt cs (store_new []) ∅) as (s' & E & Hwf); [by apply store_new_wf|done|].
  exists s'. split; [done|]. split; [done|]. intros H. rewrite H in Hwf. by apply no_leak.
Qed.

Definition demo_sheets : list (cmd (cell := Z)) :=
  [Construct 0 2 2; SetCell 0 1 1 7; CopyConstruct 1 0; SetCell 1 0 0 5; MoveConstruct 2 1; CopyAssign 0 0;
   MoveAssign 0 2; GetCell 0 0 0; GetCell 2 1 1; GetCell 1 0 0; GetCell 0 1 2; Swap 0 1;
   Destruct 0; Destruct 1; Destruct 2].

Lemma spreadsheet_values_witness :
  allowed_all 0 demo_sheets ∅ = true /\
  exists s', exec_all 0 demo_sheets (store_new []) = Some (s',
    [inr None; inr None; inr None; inr None; inr None; inr None; inr None; inr (Some 5); inr (Some 7);
     inl (ExnOutOfRange "bad x"); inl (ExnOutOfRange "bad y"); inr None; inr None; inr None; inr None]) /\
    heap s' = ∅.
Proof.
  assert (Ha : allowed_all 0 demo_sheets ∅ = true) by (vm_compute; reflexivity). split; [exact Ha|].
  destruct (spreadsheet_values 0) as (_ & _ & Hall). destruct (Hall demo_sheets Ha) as (s' & E & _ & Hempty).
  exists s'. split; [etrans; [exact E|]; vm_compute; reflexivity|]. apply Hempty. vm_compute. reflexivity.
Defined.

(** If the second column cannot be allocated, nobody deletes the first. *)
Lemma constructor_leaks :
  exists s', construct 0 0 2 1 (store_new [false; false; true]) = Some (s', inl bad_alloc) /\
    objs s' = ∅ /\ size (heap s') = 2%nat.
Proof. eexists. split; [vm_compute; reflexivity|]. split; vm_compute; reflexivity. Qed.
