(* ===== verification/Sockets.v ===== *)
(** * Sockets, for the servers of [io_multiplexing]

    The kernel's side of a small TCP server, as the servers see it: the queue
    of connections not yet accepted, and for every connection the bytes that
    have arrived, whether the peer has closed or reset it, and the bytes sent
    to it.  [k_edge] holds the connections on which something has arrived since
    [epoll_wait] last reported them, and [k_stdout] what the server printed.
    What the network does is a list of events; it may happen before any system
    call.  The buffers are [char] arrays with checked accesses. *)

From Stdlib Require Import Sorting.Sorted.
From S2P Require Import Prelude CppInt CText Sys.

(** ** Connections and the kernel *)

Record peer := Peer { p_in : bytes; p_fin : bool; p_err : bool; p_out : bytes }.

Definition Peer_new : peer := Peer [] false false [].

(** A read would not block. *)
Definition ready (p : peer) : bool :=
  p_err p || negb (bool_decide (p_in p = [])) || p_fin p.

Record K := mkK {
  k_listen : bool;
  k_backlog : list peer;
  k_conns : gmap Z peer;
  k_edge : gset Z;
  k_stdout : list (Z * Z * bytes);
}.

Definition on_conns (f : gmap Z peer -> gmap Z peer) (k : K) : K :=
  mkK (k_listen k) (k_backlog k) (f (k_conns k)) (k_edge k) (k_stdout k).
Definition on_edge (f : gset Z -> gset Z) (k : K) : K :=
  mkK (k_listen k) (k_backlog k) (k_conns k) (f (k_edge k)) (k_stdout k).

(** ** The network *)

(** A connection: an accepted one by its descriptor, or a place in the queue. *)
Inductive target : Type := Fd (i : Z) | Queued (n : nat).

Inductive nevent : Type :=
  | NConnect
  | NData (t : target) (d : bytes)
  | NFin (t : target)
  | NReset (t : target).

(** Nothing arrives behind the peer's FIN, and a reset drops what was not read. *)
Definition peer_data (d : bytes) (p : peer) : peer :=
  if p_fin p || p_err p then p else Peer (p_in p ++ d) (p_fin p) (p_err p) (p_out p).
Definition peer_fin (p : peer) : peer :=
  if p_err p then p else Peer (p_in p) true (p_err p) (p_out p).
Definition peer_reset (p : peer) : peer := Peer [] (p_fin p) true (p_out p).

Definition net_target (t : target) (f : peer -> peer) (k : K) : K :=
  match t with
  | Fd i =>
      if decide (is_Some (k_conns k !! i))
      then mkK (k_listen k) (k_backlog k) (alter f i (k_conns k)) ({[i]} ∪ k_edge k) (k_stdout k)
      else k
  | Queued n =>
      mkK (k_listen k) (alter f n (k_backlog k)) (k_conns k) (k_edge k) (k_stdout k)
  end.

Definition net_event (e : nevent) (k : K) : K :=
  match e with
  | NConnect =>
      if k_listen k
      then mkK (k_listen k) (k_backlog k ++ [Peer_new]) (k_conns k) (k_edge k) (k_stdout k)
      else k
  | NData t d => net_target t (peer_data d) k
  | NFin t => net_target t peer_fin k
  | NReset t => net_target t peer_reset k
  end.

Definition net_run (l : list nevent) (k : K) : K := foldl (fun k e => net_event e k) k l.

(** ** System calls *)

(** The lowest descriptor that is not in use; those below [low] are. *)
Fixpoint fd_from (n : nat) (i : Z) (m : gmap Z peer) : Z :=
  match n with
  | O => i
  | S n => match m !! i with Some _ => fd_from n (i + 1) m | None => i end
  end.
Definition fresh_fd (low : Z) (m : gmap Z peer) : Z := fd_from (size m) low m.

(** A call that would block for ever raises [blocked]. *)
Definition blocked : exn := ExnNamed "blocked".

(** A connection under a new descriptor: what has arrived before is news. *)
Definition enter (i : Z) (p : peer) (bl : list peer) (k : K) : K :=
  mkK (k_listen k) bl (<[i := p]> (k_conns k))
    (if ready p then {[i]} ∪ k_edge k else k_edge k ∖ {[i]}) (k_stdout k).

(** [accept]: a new descriptor, or [-1] when the call is to fail. *)
Definition accept (low : Z) (ok : bool) : M K Z :=
  k ← getS;
  if ok then
    match k_backlog k with
    | [] => throwM blocked
    | p :: bl =>
        let i := fresh_fd low (k_conns k) in
        modify (enter i p bl) ;; mret i
    end
  else mret (-1).

(** [recv] with room for [cap] bytes: what it returns, and what it stores. *)
Definition recv (i cap : Z) : M K (Z * bytes) :=
  k ← getS;
  match k_conns k !! i with
  | None => mret (-1, [])
  | Some p =>
      if p_err p then
        modify (on_conns (<[i := Peer [] true false (p_out p)]>)) ;; mret (-1, [])
      else if bool_decide (p_in p = []) then
        if p_fin p then mret (0, []) else throwM blocked
      else
        let d := kread cap (p_in p) in
        modify (on_conns (<[i := Peer (drop (length d) (p_in p)) (p_fin p) false (p_out p)]>)) ;;
        mret (len d, d)
  end.

(** [send] when it returns: the bytes the kernel takes reach the peer.  Waiting for a
    peer that does not read, and [SIGPIPE], are put around it in [SelectEcho]; elsewhere
    they are left out. *)
Definition peer_sent (d : bytes) (p : peer) : peer :=
  Peer (p_in p) (p_fin p) (p_err p) (p_out p ++ d).
Definition send (i : Z) (data : bytes) (rep : wreply) : M K Z :=
  let '(n, _, d) := kwrite rep data in
  modify (on_conns (alter (peer_sent d) i)) ;; mret n.

(** Closing a descriptor also takes it out of every [epoll] instance. *)
Definition closed (i : Z) (k : K) : K :=
  on_edge (fun e => e ∖ {[i]}) (on_conns (delete i) k).
Definition close (i : Z) : M K unit := modify (closed i).
Definition close_listener : M K unit := modify (fun k =>
  mkK false (k_backlog k) (k_conns k) (k_edge k) (k_stdout k)).

(** Readiness of a descriptor of the server that listens on [l]. *)
Definition fd_ready (l : Z) (k : K) (i : Z) : bool :=
  if decide (i = l) then negb (bool_decide (k_backlog k = []))
  else match k_conns k !! i with Some p => ready p | None => false end.
Definition fd_open (l : Z) (k : K) (i : Z) : bool :=
  bool_decide (i = l) || bool_decide (is_Some (k_conns k !! i)).

(** ** Buffers *)


(** [n] bytes stored at [off] of an array. *)
Definition buf_write (off : Z) (d buf : bytes) : outcome bytes :=
  if decide (0 <= off /\ off + len d <= len buf)
  then Ok (take (Z.to_nat off) buf ++ d ++ drop (Z.to_nat off + length d) buf)
  else UB.

(** The string at the start of an array; reading past its end is undefined. *)
Fixpoint cstr (buf : bytes) : outcome bytes :=
  match buf with
  | [] => UB
  | c :: buf => if decide (c = NUL) then Ok [] else s ← cstr buf; Ok (c :: s)
  end.

Definition strcpy (s buf : bytes) : outcome bytes := buf_write 0 (s ++ [NUL]) buf.

Definition print_got (i n : Z) (s : bytes) : M K unit := modify (fun k =>
  mkK (k_listen k) (k_backlog k) (k_conns k) (k_edge k) (k_stdout k ++ [(i, n, s)])).

(** What the servers do with a descriptor that is ready: receive, and answer
    what was received with [msg].  [n = 0] is left to the caller, who closes. *)
Definition answer (msg : bytes) (i n : Z) (rep : wreply) (buf : bytes) : M K bytes :=
  buf ← liftO (buf_write n [NUL] buf);
  s ← liftO (cstr buf);
  print_got i n s ;;
  buf ← liftO (strcpy msg buf);
  t ← liftO (cstr buf);
  send i t rep ;;
  mret buf.

Definition chat (msg : bytes) (cap i : Z) (rep : wreply) (buf : bytes) : M K (Z * bytes) :=
  '(n, d) ← recv i cap;
  buf ← liftO (buf_write 0 d buf);
  if decide (n > 0)
  then buf ← answer msg i n rep buf; mret (n, buf)
  else mret (n, buf).

(** ** What a ready descriptor should get: the specification *)

(** The text [printf] shows of the bytes received. *)
Fixpoint text_of (d : bytes) : bytes :=
  match d with
  | [] => []
  | c :: d => if decide (c = NUL) then [] else c :: text_of d
  end.

Definition serve (msg : bytes) (cap i : Z) (rep : wreply) (k : K) : K :=
  match k_conns k !! i with
  | None => k
  | Some p =>
      if p_err p then on_conns (<[i := Peer [] true false (p_out p)]>) k
      else if bool_decide (p_in p = []) then closed i k
      else
        let d := kread cap (p_in p) in
        let sent := (kwrite rep msg).2 in
        mkK (k_listen k) (k_backlog k)
          (<[i := Peer (drop (length d) (p_in p)) (p_fin p) false (p_out p ++ sent)]> (k_conns k))
          (k_edge k) (k_stdout k ++ [(i, len d, text_of d)])
  end.

Definition take_peer (low : Z) (ok : bool) (k : K) : K :=
  match k_backlog k with
  | p :: bl =>
      if ok then enter (fresh_fd low (k_conns k)) p bl k else k
  | [] => k
  end.

(** An [int] array. *)
Definition arr_get (a : list Z) (i : Z) : outcome Z :=
  if decide (0 <= i) then match a !! Z.to_nat i with Some v => Ok v | None => UB end else UB.
Definition arr_set (a : list Z) (i v : Z) : outcome (list Z) :=
  if decide (0 <= i < len a) then Ok (<[Z.to_nat i := v]> a) else UB.

#[global] Arguments arr_get : simpl never.
#[global] Arguments arr_set : simpl never.

(** [for (i = first; i <= bound; ++i)], the bound being read in every round; the
    list is long enough to leave the array the body reads. *)
Fixpoint for_le {S} (l : list Z) (bound : S -> Z) (body : Z -> M S unit) : M S unit :=
  match l with
  | [] => mret tt
  | i :: l => w ← getS; if decide (i <= bound w) then body i ;; for_le l bound body else mret tt
  end.

(** ** Facts about buffers *)

Lemma buf_write_ok off d buf :
  0 <= off -> off + len d <= len buf ->
  buf_write off d buf = Ok (take (Z.to_nat off) buf ++ d ++ drop (Z.to_nat off + length d) buf).
Proof. intros. unfold buf_write. by rewrite decide_True by lia. Qed.

Lemma buf_write_length off d buf buf' : buf_write off d buf = Ok buf' -> length buf' = length buf.
Proof. unfold buf_write. case_decide; [|done]. intros [= <-]. list_lia. Qed.

Lemma buf_write_total off d buf :
  0 <= off -> off + len d <= len buf ->
  exists buf', buf_write off d buf = Ok buf' /\ length buf' = length buf.
Proof.
  intros H1 H2. rewrite buf_write_ok by done. eexists. split; [done|].
  eapply buf_write_length, buf_write_ok; done.
Qed.

Lemma cstr_text d rest : cstr (d ++ NUL :: rest) = Ok (text_of d).
Proof.
  induction d as [|c d IH]; simpl; [done|]. case_decide; [done|]. by rewrite IH.
Qed.

Lemma strcpy_cstr msg buf :
  len msg < len buf -> text_of msg = msg ->
  exists buf', strcpy msg buf = Ok buf' /\ length buf' = length buf /\ cstr buf' = Ok msg.
Proof.
  intros Hl Hm. unfold strcpy. assert (0 + len (msg ++ [NUL]) <= len buf) by list_lia.
  rewrite buf_write_ok by lia. eexists. split_and!; [done| |].
  - list_lia.
  - simpl. rewrite <- app_assoc. simpl. by rewrite cstr_text, Hm.
Qed.

(** Storing what was received and a terminator. *)
Lemma terminate_received d buf :
  len d < len buf ->
  exists b1 b2, buf_write 0 d buf = Ok b1 /\ length b1 = length buf /\
    buf_write (len d) [NUL] b1 = Ok b2 /\ length b2 = length buf /\ cstr b2 = Ok (text_of d).
Proof.
  intros Hl. rewrite buf_write_ok by lia. eexists _, _.
  split; [done|]. split; [list_lia|]. split.
  { rewrite buf_write_ok; [done|lia|]. list_lia. }
  rewrite Nat2Z.id. simpl. split; [list_lia|].
  rewrite take_app_le, take_ge by lia. apply cstr_text.
Qed.

(** ** Facts about arrays and loops over descriptors *)

Lemma arr_get_some a i v : 0 <= i -> a !! Z.to_nat i = Some v -> arr_get a i = Ok v.
Proof. intros Hi Ha. unfold arr_get. by rewrite decide_True, Ha. Qed.

Lemma arr_set_some a i v : 0 <= i < len a -> arr_set a i v = Ok (<[Z.to_nat i := v]> a).
Proof. intros. unfold arr_set. by rewrite decide_True. Qed.

Lemma arr_set_none a i v : ~ 0 <= i < len a -> arr_set a i v = UB.
Proof. intros. unfold arr_set. by rewrite decide_False. Qed.

(** The flags of an array after one is set. *)
Lemma arr_set_flags a i (b : bool) (f g : Z -> bool) n :
  length a = n -> 0 <= i < Z.of_nat n ->
  (forall j, 0 <= j < Z.of_nat n -> a !! Z.to_nat j = Some (Z.b2z (f j))) ->
  g i = b -> (forall j, j <> i -> g j = f j) ->
  forall j, 0 <= j < Z.of_nat n -> <[Z.to_nat i := Z.b2z b]> a !! Z.to_nat j = Some (Z.b2z (g j)).
Proof.
  intros Hl Hi Ha Hg Hgf j Hj. destruct (decide (j = i)) as [->|Hne].
  - rewrite list_lookup_insert_eq by lia. by rewrite Hg.
  - rewrite list_lookup_insert_ne by lia. by rewrite Hgf, Ha.
Qed.

(** The loop rule: [I i] holds when the round of [i] begins. *)
Lemma wp_for_le {S} (I : Z -> S -> Prop) (Q : S -> Prop) bound body a n s :
  I a s ->
  (forall i s, a <= i < a + Z.of_nat n -> i <= bound s -> I i s ->
     wp (body i) (fun _ s' => I (i + 1) s') s) ->
  (forall i s, a <= i <= a + Z.of_nat n -> I i s -> bound s < i \/ i = a + Z.of_nat n -> Q s) ->
  wp (for_le (seqZ a (Z.of_nat n)) bound body) (fun _ s' => Q s') s.
Proof.
  revert a s. induction n as [|n IH]; intros a s Ha Hb Hq.
  - apply (Hq a s); [lia|done|lia].
  - rewrite Nat2Z.inj_succ, seqZ_cons by lia. simpl. apply wp_bind, wp_getS.
    case_decide as Hd.
    + apply wp_bind. eapply wp_mono; [apply Hb; [lia|done|done]|]. intros ? s1 H1.
      rewrite Z.pred_succ. apply IH; [done| |].
      * intros i s2 Hi. apply Hb. lia.
      * intros i s2 Hi H2 Hor. apply (Hq i s2); [lia|done|lia].
    + apply wp_ret, (Hq a s); [lia|done|lia].
Qed.

(** A loop that does nothing until a round that is undefined. *)
Lemma for_le_undefined {S} bound (body : Z -> M S unit) a n i s :
  a <= i < a + Z.of_nat n -> i <= bound s ->
  (forall j, a <= j < i -> body j s = Ok (tt, s)) -> body i s = UB ->
  for_le (seqZ a (Z.of_nat n)) bound body s = UB.
Proof.
  revert a. induction n as [|n IH]; intros a Hi Hb Hskip Hub; [lia|].
  rewrite Nat2Z.inj_succ, seqZ_cons by lia. simpl. unfold mbind, M_bind, getS.
  rewrite decide_True by lia. destruct (decide (i = a)) as [->|Hne].
  - by rewrite Hub.
  - rewrite Hskip by lia. rewrite Z.pred_succ. apply IH; [lia|done| |done].
    intros j Hj. apply Hskip. lia.
Qed.

#[global] Arguments for_le : simpl never.

Lemma filter_none (P : Z -> Prop) `{forall i, Decision (P i)} l :
  Forall (fun i => ~ P i) l -> filter P l = [].
Proof. induction 1 as [|i l Hi _ IH]; [done|]. by rewrite filter_cons_False. Qed.

(** A filtered row of numbers, extended by numbers the filter drops. *)
Lemma filter_row_more (P : Z -> Prop) `{forall i, Decision (P i)} a n m :
  0 <= n <= m -> (forall i, a + n <= i < a + m -> ~ P i) ->
  filter P (seqZ a m) = filter P (seqZ a n).
Proof.
  intros Hn HP. replace m with (n + (m - n)) by lia. rewrite seqZ_app by lia.
  rewrite filter_app. rewrite <- (app_nil_r (filter P (seqZ a n))) at 2. f_equal.
  apply filter_none, Forall_forall. intros i Hi%elem_of_seqZ. apply HP. lia.
Qed.

Lemma filter_row_snoc (P : Z -> Prop) `{forall i, Decision (P i)} a n :
  0 <= n ->
  filter P (seqZ a (n + 1)) = filter P (seqZ a n) ++ (if decide (P (a + n)) then [a + n] else []).
Proof.
  intros Hn. rewrite seqZ_app by lia. rewrite filter_app. f_equal.
Qed.

Lemma filter_row_sorted (P : Z -> Prop) `{forall i, Decision (P i)} a n :
  StronglySorted Z.lt (filter P (seqZ a (Z.of_nat n))).
Proof.
  revert a. induction n as [|n IH]; intros a; [constructor|].
  rewrite Nat2Z.inj_succ, seqZ_cons, Z.pred_succ by lia.
  assert (Ha : Forall (Z.lt a) (filter P (seqZ (Z.succ a) (Z.of_nat n)))).
  { apply Forall_forall. intros j [_ Hj%elem_of_seqZ]%list_elem_of_filter. lia. }
  rewrite filter_cons. case_decide; [by constructor|apply IH].
Qed.

(** ** Facts about descriptors *)

Lemma fd_from_spec n i m :
  i <= fd_from n i m <= i + Z.of_nat n /\
  (forall j, i <= j < fd_from n i m -> is_Some (m !! j)) /\
  (m !! fd_from n i m = None \/ fd_from n i m = i + Z.of_nat n).
Proof.
  revert i. induction n as [|n IH]; intros i; simpl; [split_and!; [lia|lia|intros; lia|right; lia]|].
  destruct (m !! i) eqn:E.
  - destruct (IH (i + 1)) as (H1 & H2 & H3). split_and!; [lia|lia| |].
    + intros j Hj. destruct (decide (j = i)) as [->|]; [done|]. apply H2. lia.
    + destruct H3; [by left|right; lia].
  - split_and!; [lia|lia|intros; lia|by left].
Qed.

(** [n] descriptors in a row need a map of at least that size. *)
Lemma row_size (m : gmap Z peer) i n :
  (forall j, i <= j < i + Z.of_nat n -> is_Some (m !! j)) -> (n <= size m)%nat.
Proof.
  intros H. assert (Hs : list_to_set (C := gset Z) (seqZ i (Z.of_nat n)) ⊆ dom m).
  { intros j Hj. apply elem_of_list_to_set, elem_of_seqZ in Hj. apply elem_of_dom, H. lia. }
  apply subseteq_size in Hs. rewrite size_dom, size_list_to_set in Hs by apply NoDup_seqZ.
  rewrite length_seqZ in Hs. lia.
Qed.

Lemma fresh_fd_unused low m : m !! fresh_fd low m = None.
Proof.
  destruct (fd_from_spec (size m) low m) as (_ & H2 & [H3|H3]); [done|].
  destruct (m !! fresh_fd low m) eqn:E; [|done]. exfalso.
  assert (S (size m) <= size m)%nat; [|lia]. apply (row_size m low). intros j Hj.
  destruct (decide (j = fresh_fd low m)) as [->|Hne]; [by rewrite E|].
  apply H2. unfold fresh_fd in *. lia.
Qed.

Lemma fresh_fd_range low m : low <= fresh_fd low m <= low + Z.of_nat (size m).
Proof. apply fd_from_spec. Qed.

Lemma fresh_fd_lowest low m j : low <= j < fresh_fd low m -> is_Some (m !! j).
Proof. apply fd_from_spec. Qed.

(** When all the descriptors up to a bound are taken the next one is beyond it. *)
Lemma fresh_fd_full low m top :
  (forall i, is_Some (m !! i) -> low <= i < top) -> top <= low + Z.of_nat (size m) ->
  top <= fresh_fd low m.
Proof.
  intros Hm Hfull. destruct (decide (top <= fresh_fd low m)) as [|Hlt]; [done|exfalso].
  pose proof (fresh_fd_range low m) as Hr. pose proof (fresh_fd_unused low m) as Hu.
  set (f := fresh_fd low m) in *.
  assert (Hs : {[f]} ∪ dom m ⊆ list_to_set (C := gset Z) (seqZ low (top - low))).
  { intros i. rewrite elem_of_union, elem_of_singleton, elem_of_dom, elem_of_list_to_set, elem_of_seqZ.
    intros [->|Hi]; [lia|]. specialize (Hm i Hi). lia. }
  apply subseteq_size in Hs. rewrite size_union, size_singleton, size_dom in Hs.
  2:{ apply disjoint_singleton_l. by rewrite not_elem_of_dom. }
  rewrite size_list_to_set in Hs by apply NoDup_seqZ. rewrite length_seqZ in Hs. lia.
Qed.

(** ** Facts about the network *)

Section network.
Context (l : Z).

Lemma net_event_dom e k : dom (k_conns (net_event e k)) = dom (k_conns k).
Proof.
  assert (Ht : forall t f, dom (k_conns (net_target t f k)) = dom (k_conns k)).
  { intros [i|n] f; simpl; [|done]. case_decide; [|done]. simpl. apply dom_alter_L. }
  destruct e; simpl; [by destruct (k_listen k)|apply Ht..].
Qed.

Lemma net_run_dom es k : dom (k_conns (net_run es k)) = dom (k_conns k).
Proof.
  revert k. induction es as [|e es IH]; intros k; [done|].
  change (net_run (e :: es) k) with (net_run es (net_event e k)). by rewrite IH, net_event_dom.
Qed.

Lemma net_run_open es k i : fd_open l (net_run es k) i = fd_open l k i.
Proof.
  unfold fd_open. f_equal. apply bool_decide_ext. by rewrite <- !elem_of_dom, net_run_dom.
Qed.

Lemma net_run_size es k : size (k_conns (net_run es k)) = size (k_conns k).
Proof. by rewrite <- !size_dom, net_run_dom. Qed.

Lemma ready_mono p :
  ready p = true ->
  (forall d, ready (peer_data d p) = true) /\ ready (peer_fin p) = true /\ ready (peer_reset p) = true.
Proof.
  destruct p as [d0 [] [] o]; unfold ready, peer_data, peer_fin, peer_reset; simpl; try done.
  rewrite orb_false_r, negb_true_iff, bool_decide_eq_false. intros H. split_and!; [|by rewrite orb_true_r|done].
  intros d. rewrite orb_false_r, negb_true_iff, bool_decide_eq_false. by destruct d0.
Qed.

Lemma net_event_ready e k i : fd_ready l k i = true -> fd_ready l (net_event e k) i = true.
Proof.
  assert (Ht : forall t f, (forall p, ready p = true -> ready (f p) = true) ->
    fd_ready l k i = true -> fd_ready l (net_target t f k) i = true).
  { intros [j|n] f Hf; unfold fd_ready; simpl.
    - destruct (decide (is_Some (k_conns k !! j))); simpl; [|done].
      destruct (decide (i = l)); [done|].
      destruct (decide (j = i)) as [->|Hne]; [|by rewrite lookup_alter_ne].
      rewrite lookup_alter_eq. destruct (k_conns k !! i); simpl; auto.
    - case_decide; [|done]. rewrite !negb_true_iff, !bool_decide_eq_false.
      intros H1 H2. by rewrite <- length_zero_iff_nil, length_alter, length_zero_iff_nil in H2. }
  destruct e; simpl.
  - destruct (k_listen k); [|done]. unfold fd_ready. simpl. case_decide; [|done].
    rewrite !negb_true_iff, !bool_decide_eq_false. by destruct (k_backlog k).
  - apply Ht. intros p Hp. by apply ready_mono.
  - apply Ht. intros p Hp. by apply ready_mono.
  - apply Ht. intros p Hp. by apply ready_mono.
Qed.

Lemma net_run_ready es k i : fd_ready l k i = true -> fd_ready l (net_run es k) i = true.
Proof.
  revert k. induction es as [|e es IH]; intros k H; [done|]. simpl. apply IH, net_event_ready, H.
Qed.
End network.

(** ** Facts about the conversation *)

(** A peer whose reading is at its end. *)
Definition at_end (p : peer) : bool := negb (p_err p) && bool_decide (p_in p = []).

(** What is stored fits the buffer, with room for the terminator. *)
Definition fits (cap size : Z) (p : peer) : Prop :=
  p_err p = true \/ Z.min cap (len (p_in p)) < size.

Lemma kread_len cap d : 0 <= cap -> len (kread cap d) = Z.min cap (len d).
Proof. intros. unfold kread. list_lia. Qed.

Lemma chat_serves msg cap i rep buf k p :
  k_conns k !! i = Some p -> ready p = true -> 0 < cap <= len buf -> fits cap (len buf) p ->
  len msg < len buf -> text_of msg = msg ->
  exists n buf' k', chat msg cap i rep buf k = Ok ((n, buf'), k') /\ length buf' = length buf /\
    (n = 0 <-> at_end p = true) /\
    (if at_end p then k' = k /\ serve msg cap i rep k = closed i k else k' = serve msg cap i rep k).
Proof.
  intros Hp Hr [Hcap Hcs] Hfit Hmsg Ht. unfold chat, recv, getS, serve, mbind, M_bind.
  rewrite Hp. unfold at_end, ready in *.
  destruct (p_err p) eqn:Herr; simpl in *.
  { rewrite buf_write_ok by (simpl; lia). eexists _, _, _. split; [done|].
    simpl. rewrite drop_0. split; [done|]. split; [split; [lia|done]|done]. }
  case_bool_decide as Hin; simpl in *.
  { rewrite Hr. simpl. rewrite buf_write_ok by (simpl; lia). eexists _, _, _. split; [done|].
    simpl. rewrite drop_0. by split_and!. }
  destruct Hfit as [|Hfit]; [congruence|].
  assert (Hk : len (kread cap (p_in p)) = Z.min cap (len (p_in p))) by (apply kread_len; lia).
  assert (0 < len (p_in p)) by (destruct (p_in p); [done|simpl; lia]).
  destruct (terminate_received (kread cap (p_in p)) buf) as (b1 & b2 & E1 & L1 & E2 & L2 & C2); [lia|].
  destruct (strcpy_cstr msg b2) as (b3 & E3 & L3 & C3); [rewrite L2; lia|done|].
  simpl. rewrite E1. simpl. rewrite decide_True by lia.
  unfold answer, mbind, M_bind. rewrite E2. simpl. rewrite C2. simpl. rewrite E3. simpl. rewrite C3.
  simpl. unfold send. destruct (kwrite rep msg) as [[n e] sent] eqn:Ek. simpl.
  eexists _, _, _. split; [done|]. split; [congruence|]. split; [split; [lia|done]|].
  unfold on_conns. simpl. f_equal. by rewrite alter_insert_eq.
Qed.

(** Without that room the terminator is written behind the buffer. *)
Lemma chat_overflows msg i rep buf k p :
  k_conns k !! i = Some p -> ready p = true -> 0 < len buf -> ~ fits (len buf) (len buf) p ->
  chat msg (len buf) i rep buf k = UB.
Proof.
  intros Hp Hr Hpos Hfit. unfold fits in Hfit. apply Decidable.not_or in Hfit as [He Hfit].
  apply not_true_is_false in He.
  unfold chat, recv, getS, mbind, M_bind. rewrite Hp, He.
  rewrite bool_decide_eq_false_2 by (intros E; rewrite E in Hfit; simpl in Hfit; lia).
  assert (Hk : len (kread (len buf) (p_in p)) = len buf) by (rewrite kread_len; lia).
  simpl. rewrite buf_write_ok by lia. simpl.
  rewrite decide_True by lia. unfold answer, mbind, M_bind, buf_write at 1.
  rewrite decide_False; [done|]. rewrite Hk. simpl.
  rewrite length_app, length_drop. simpl. lia.
Qed.

(** ** Rounds, as the network sees them *)

Record Round := mkRound {
  r_fail : bool;                      (* [select] or [poll] fails *)
  r_before : list nevent;             (* what happens while it waits *)
  r_accept : bool;                    (* [accept] succeeds *)
  r_net : Z -> list nevent;           (* what happens before the turn of a descriptor *)
  r_send : Z -> wreply;               (* what [send] to a descriptor answers *)
}.

(** A round in which all calls succeed and something happens before it only. *)
Definition plain_round (before : list nevent) : Round :=
  mkRound false before true (fun _ => []) (fun _ => WAccept 100).

(** A server that nobody has connected to yet. *)
Definition K_start : K := mkK true [] ∅ ∅ [].

Section rounds.
Context (l low : Z) (msg : bytes) (cap : Z) (r : Round).

Definition visit (k : K) (i : Z) : K :=
  let k := net_run (r_net r i) k in
  if decide (i = l) then take_peer low (r_accept r) k else serve msg cap i (r_send r i) k.

(** The descriptors of a list get their turn, one after the other. *)
Definition round_over (fds : list Z) (k : K) : K := foldl visit k fds.

Lemma serve_other i rep k j :
  j <> i -> k_conns (serve msg cap i rep k) !! j = k_conns k !! j.
Proof.
  intros Hj. unfold serve. destruct (k_conns k !! i) as [p|] eqn:E; [|done].
  destruct (p_err p); [|case_bool_decide]; simpl; by rewrite ?lookup_insert_ne, ?lookup_delete_ne by done.
Qed.

Lemma serve_backlog i rep k : k_backlog (serve msg cap i rep k) = k_backlog k.
Proof.
  unfold serve. destruct (k_conns k !! i) as [p|]; [|done]. destruct (p_err p); [|case_bool_decide]; done.
Qed.

Lemma serve_size i rep k : (size (k_conns (serve msg cap i rep k)) <= size (k_conns k))%nat.
Proof.
  unfold serve. destruct (k_conns k !! i) as [p|] eqn:E; [|done].
  destruct (p_err p); [|case_bool_decide]; simpl.
  - rewrite map_size_insert_Some by eauto. lia.
  - rewrite map_size_delete, E. lia.
  - rewrite map_size_insert_Some by eauto. lia.
Qed.

(** Which descriptors are open after a turn. *)
Lemma serve_open i rep k p j :
  k_conns k !! i = Some p -> ready p = true -> i <> l ->
  fd_open l (serve msg cap i rep k) j =
    if decide (j = i) then negb (at_end p) else fd_open l k j.
Proof.
  intros Hp Hr Hi. unfold fd_open, at_end. destruct (decide (j = i)) as [->|Hj].
  2:{ by rewrite serve_other. }
  rewrite (bool_decide_eq_false_2 (i = l)) by done. simpl. unfold serve. rewrite Hp.
  unfold ready in Hr. destruct (p_err p); simpl.
  { rewrite lookup_insert_eq. by apply bool_decide_eq_true_2. }
  case_bool_decide; simpl.
  - rewrite lookup_delete_eq. apply bool_decide_eq_false_2. by intros [].
  - rewrite lookup_insert_eq. by apply bool_decide_eq_true_2.
Qed.

Lemma take_peer_open ok k p bl j :
  k_backlog k = p :: bl ->
  fd_open l (take_peer low ok k) j =
    (ok && bool_decide (j = fresh_fd low (k_conns k))) || fd_open l k j.
Proof.
  intros Hb. unfold take_peer. rewrite Hb. destruct ok; [|done]. unfold fd_open. simpl.
  destruct (decide (j = fresh_fd low (k_conns k))) as [->|Hj].
  - rewrite lookup_insert_eq. rewrite (bool_decide_eq_true_2 (is_Some _)) by eauto.
    rewrite orb_true_r. by rewrite bool_decide_eq_true_2.
  - rewrite lookup_insert_ne by done. by rewrite (bool_decide_eq_false_2 (j = fresh_fd _ _)).
Qed.

Lemma accept_takes ok k :
  k_backlog k <> [] ->
  accept low ok k =
    Ok (if ok then fresh_fd low (k_conns k) else -1, take_peer low ok k).
Proof.
  intros Hb. unfold accept, take_peer, getS, mbind, M_bind. destruct ok.
  - by destruct (k_backlog k).
  - by destruct (k_backlog k).
Qed.

(** A turn leaves those that wait for theirs ready. *)
Lemma visit_ready k i j : i <> j -> fd_ready l k j = true -> fd_ready l (visit k i) j = true.
Proof.
  intros Hij Hj. unfold visit. apply (net_run_ready l (r_net r i)) in Hj.
  set (k1 := net_run (r_net r i) k) in *. clearbody k1. case_decide as Hi.
  - unfold take_peer. destruct (k_backlog k1) as [|p bl] eqn:Eb; [done|].
    destruct (r_accept r); [|done]. unfold fd_ready in *. simpl. rewrite decide_False by congruence.
    rewrite decide_False in Hj by congruence.
    destruct (decide (j = fresh_fd low (k_conns k1))) as [->|Hne].
    + by rewrite fresh_fd_unused in Hj.
    + by rewrite lookup_insert_ne.
  - unfold fd_ready in *. rewrite serve_backlog. case_decide; [done|]. by rewrite serve_other by congruence.
Qed.

(** The turns an array of [size] characters is enough for: the terminator goes
    behind what was received.  [acc] says what an accepting turn needs. *)
Definition turn_ok (size : Z) (acc : Prop) (i : Z) (k : K) : Prop :=
  if decide (i = l) then acc
  else match k_conns k !! i with Some p => fits cap size p | None => True end.

Fixpoint turns_ok (size : Z) (acc : Prop) (fds : list Z) (k : K) : Prop :=
  match fds with
  | [] => True
  | i :: fds => turn_ok size acc i (net_run (r_net r i) k) /\ turns_ok size acc fds (visit k i)
  end.

#[export] Instance turn_ok_dec size acc `{Decision acc} i k : Decision (turn_ok size acc i k).
Proof. unfold turn_ok, fits. destruct (decide (i = l)); [done|]. destruct (k_conns k !! i); apply _. Defined.
#[export] Instance turns_ok_dec size acc `{Decision acc} fds k : Decision (turns_ok size acc fds k).
Proof. revert k. induction fds as [|i fds IH]; intros k; simpl; apply _. Defined.

(** What is left of a connection that has had its turn. *)
Definition served (rep : wreply) (p : peer) : option peer :=
  if p_err p then Some (Peer [] true false (p_out p))
  else if bool_decide (p_in p = []) then None
  else Some (Peer (drop (Z.to_nat cap) (p_in p)) (p_fin p) false (p_out p ++ (kwrite rep msg).2)).

Lemma serve_self i rep k p :
  0 <= cap -> k_conns k !! i = Some p -> k_conns (serve msg cap i rep k) !! i = served rep p.
Proof.
  intros Hcap Hp. unfold serve, served. rewrite Hp. destruct (p_err p); simpl; [by rewrite lookup_insert_eq|].
  case_bool_decide; simpl; [by rewrite lookup_delete_eq|]. rewrite lookup_insert_eq. do 2 f_equal.
  unfold kread. rewrite length_take. destruct (decide (Z.to_nat cap <= length (p_in p))%nat).
  - by rewrite Nat.min_l.
  - by rewrite Nat.min_r, !drop_ge by lia.
Qed.

(** In a round on which the network does nothing a connection gets its turn
    exactly when it is in the list, and is left alone otherwise. *)
Lemma round_over_quiet fds k i p :
  (forall j, r_net r j = []) -> 0 <= cap -> StronglySorted Z.lt fds -> l < i ->
  k_conns k !! i = Some p ->
  k_conns (round_over fds k) !! i = if decide (i ∈ fds) then served (r_send r i) p else Some p.
Proof.
  intros Hq Hcap Hs Hli. unfold round_over.
  assert (Hv : forall k j, visit k j =
    if decide (j = l) then take_peer low (r_accept r) k else serve msg cap j (r_send r j) k).
  { intros k0 j. unfold visit. by rewrite Hq. }
  assert (Hother : forall k0 j, j <> i -> is_Some (k_conns k0 !! i) \/ j <> l ->
    k_conns (visit k0 j) !! i = k_conns k0 !! i).
  { intros k0 j Hj Hor. rewrite Hv. case_decide as Hjl; [|by apply serve_other].
    unfold take_peer. destruct (k_backlog k0); [done|]. destruct (r_accept r); [|done]. simpl.
    rewrite lookup_insert_ne; [done|]. intros E. destruct Hor as [[q Hq']|]; [|done].
    rewrite <- E, fresh_fd_unused in Hq'. done. }
  revert k. induction Hs as [|j fds Hs IH Hj]; intros k Hp; simpl.
  { exact Hp. }
  destruct (decide (j = i)) as [->|Hji].
  - rewrite decide_True by left.
    assert (Hrest : forall k0 o, k_conns k0 !! i = o -> k_conns (foldl visit k0 fds) !! i = o).
    { clear IH Hs. induction Hj as [|x fds Hx _ IH]; intros k0 o Ho; simpl; [done|].
      apply IH. rewrite Hother; [done|lia|right; lia]. }
    apply Hrest. rewrite Hv, decide_False by lia. by apply serve_self.
  - rewrite (IH (visit k j)) by (rewrite Hother; [done|done|left; eauto]).
    destruct (decide (i ∈ fds)) as [Hin|Hin].
    + rewrite decide_True by (by right). done.
    + rewrite decide_False; [done|]. intros [->|]%elem_of_cons; done.
Qed.
End rounds.

(** ** A table of open descriptors

    [arr] and [mxfd] of the [select] and [poll] servers: flag [i] is set exactly
    while descriptor [i] is open, and [mxfd] bounds the open ones. *)

Section watched.
Context (l : Z).

Lemma fd_open_conn k i p : k_conns k !! i = Some p -> fd_open l k i = true.
Proof. intros E. unfold fd_open. rewrite E. by rewrite (bool_decide_eq_true_2 (is_Some _)), orb_true_r by eauto. Qed.

Lemma fd_open_l k : fd_open l k l = true.
Proof. unfold fd_open. by rewrite bool_decide_eq_true_2. Qed.

Lemma fd_ready_open k i : fd_ready l k i = true -> fd_open l k i = true.
Proof.
  unfold fd_ready. case_decide as Hi; [subst; intros; apply fd_open_l|].
  destruct (k_conns k !! i) eqn:E; [|done]. intros. by eapply fd_open_conn.
Qed.

Lemma fd_ready_conn k i : i <> l -> fd_ready l k i = true ->
  exists p, k_conns k !! i = Some p /\ ready p = true.
Proof.
  intros Hi. unfold fd_ready. rewrite decide_False by done.
  destruct (k_conns k !! i) as [p|]; [|done]. by exists p.
Qed.

Lemma open_size k fds :
  NoDup fds -> (forall i, i ∈ fds <-> fd_open l k i = true) -> k_conns k !! l = None ->
  length fds = S (size (k_conns k)).
Proof.
  intros Hnd Hfds Hl. rewrite <- (size_list_to_set (C := gset Z)) by done. rewrite <- size_dom.
  assert (list_to_set fds = {[l]} ∪ dom (k_conns k)) as ->.
  { apply leibniz_equiv. intros i. rewrite elem_of_list_to_set, Hfds, elem_of_union, elem_of_singleton, elem_of_dom.
    unfold fd_open. rewrite orb_true_iff, !bool_decide_eq_true. done. }
  rewrite size_union, size_singleton; [done|]. apply disjoint_singleton_l. by rewrite not_elem_of_dom.
Qed.

Lemma fd_ready_backlog k : fd_ready l k l = true -> k_backlog k <> [].
Proof. unfold fd_ready. rewrite decide_True by done. by case_bool_decide. Qed.

Record watched (a : list Z) (mx : Z) (k : K) : Prop := {
  wt_len : length a = 100%nat;
  wt_flag : forall i, 0 <= i < 100 -> a !! Z.to_nat i = Some (Z.b2z (fd_open l k i));
  wt_range : forall i, fd_open l k i = true -> l <= i <= mx;
  wt_mx : 0 <= l /\ mx < 100;
  wt_listener : k_conns k !! l = None;
}.

Lemma watched_get a mx k i : watched a mx k -> 0 <= i <= mx ->
  arr_get a i = Ok (Z.b2z (fd_open l k i)).
Proof.
  intros Hw Hi. pose proof (wt_mx _ _ _ Hw). apply arr_get_some; [lia|]. apply (wt_flag _ _ _ Hw). lia.
Qed.

Lemma watched_l a mx k : watched a mx k -> 0 <= l <= mx /\ mx < 100.
Proof. intros [_ _ H3 H4 _]. specialize (H3 l (fd_open_l k)). lia. Qed.

Lemma watched_conn a mx k i p : watched a mx k -> k_conns k !! i = Some p -> l < i <= mx.
Proof.
  intros Hw Hp. pose proof (wt_range _ _ _ Hw i (fd_open_conn _ _ _ Hp)).
  destruct (decide (i = l)) as [->|]; [|lia]. by rewrite (wt_listener _ _ _ Hw) in Hp.
Qed.

Lemma watched_net a mx k es : watched a mx k -> watched a mx (net_run es k).
Proof.
  intros [H1 H2 H3 H4 H5]. split; try done.
  - intros i Hi. rewrite net_run_open. auto.
  - intros i. rewrite net_run_open. auto.
  - by rewrite <- not_elem_of_dom, net_run_dom, not_elem_of_dom.
Qed.

Lemma watched_take_peer a mx k :
  watched a mx k -> k_backlog k <> [] -> fresh_fd (l + 1) (k_conns k) < 100 ->
  let i := fresh_fd (l + 1) (k_conns k) in
  0 <= i < len a /\
  watched (<[Z.to_nat i := 1]> a) (if decide (i > mx) then i else mx) (take_peer (l + 1) true k).
Proof.
  intros Hw Hb Hf. pose proof (watched_l _ _ _ Hw). destruct Hw as [H1 H2 H3 H4 H5].
  pose proof (fresh_fd_range (l + 1) (k_conns k)) as Hr.
  destruct (k_backlog k) as [|q bl] eqn:Eb; [done|].
  pose proof (fun j => take_peer_open l (l + 1) true k q bl j Eb) as Ho. cbv zeta.
  set (i := fresh_fd (l + 1) (k_conns k)) in *. split; [lia|]. split.
  - by rewrite length_insert.
  - apply (arr_set_flags _ i true (fd_open l k) _ 100); [done|lia|done| |].
    + by rewrite Ho, bool_decide_eq_true_2.
    + intros j Hj. by rewrite Ho, bool_decide_eq_false_2.
  - intros j. rewrite Ho. simpl. case_bool_decide; simpl.
    + intros _. case_decide; lia.
    + intros Hj. specialize (H3 j Hj). case_decide; lia.
  - case_decide; lia.
  - unfold take_peer. rewrite Eb. simpl. fold i. by rewrite lookup_insert_ne by lia.
Qed.

Lemma watched_served msg cap rep a mx k i p :
  watched a mx k -> k_conns k !! i = Some p -> ready p = true -> at_end p = false ->
  watched a mx (serve msg cap i rep k).
Proof.
  intros Hw Hp Hr Ha. pose proof (watched_conn _ _ _ _ _ Hw Hp). destruct Hw as [H1 H2 H3 H4 H5].
  assert (Hsame : forall j, fd_open l (serve msg cap i rep k) j = fd_open l k j).
  { intros j. rewrite (serve_open l msg cap i rep k p j) by (done || lia). rewrite Ha. simpl.
    case_decide; [|done]. subst. symmetry. by eapply fd_open_conn. }
  split; try done.
  - intros j Hj. rewrite Hsame. auto.
  - intros j Hj. rewrite Hsame in Hj. auto.
  - by rewrite serve_other by lia.
Qed.

Lemma watched_closed a mx k i p :
  watched a mx k -> k_conns k !! i = Some p ->
  0 <= i < len a /\ watched (<[Z.to_nat i := 0]> a) mx (closed i k).
Proof.
  intros Hw Hp. pose proof (watched_conn _ _ _ _ _ Hw Hp). destruct Hw as [H1 H2 H3 H4 H5].
  assert (Ho : forall j, fd_open l (closed i k) j = if decide (j = i) then false else fd_open l k j).
  { intros j. unfold fd_open. simpl. case_decide as Hj.
    - subst. rewrite lookup_delete_eq, (bool_decide_eq_false_2 (i = l)) by lia.
      apply bool_decide_eq_false_2. by intros [].
    - by rewrite lookup_delete_ne by done. }
  split; [lia|]. split; try done.
  - by rewrite length_insert.
  - apply (arr_set_flags _ i false (fd_open l k) _ 100); [done|lia|done| |].
    + rewrite Ho. by rewrite decide_True.
    + intros j Hj. rewrite Ho. by rewrite decide_False.
  - intros j Hj. rewrite Ho in Hj. case_decide; [done|]. auto.
  - simpl. by rewrite lookup_delete_ne by lia.
Qed.

(** The table when only the listener is open. *)
Lemma watched_start k :
  0 <= l < 100 -> k_conns k = ∅ -> watched (<[Z.to_nat l := 1]> (replicate 100 0)) l k.
Proof.
  intros Hl Hk.
  assert (Ho : forall i, fd_open l k i = bool_decide (i = l)).
  { intros i. unfold fd_open. rewrite Hk, lookup_empty.
    rewrite (bool_decide_eq_false_2 (is_Some _)) by (by intros []). apply orb_false_r. }
  split.
  - by rewrite length_insert, length_replicate.
  - apply (arr_set_flags _ l true (fun _ => false) _ 100); [by rewrite length_replicate|lia| | |].
    + intros j Hj. apply lookup_replicate. split; [done|lia].
    + by rewrite Ho, bool_decide_eq_true_2.
    + intros j Hj. by rewrite Ho, bool_decide_eq_false_2.
  - intros i. rewrite Ho. case_bool_decide; [lia|done].
  - lia.
  - by rewrite Hk.
Qed.
End watched.
