(* ===== verification/SelectServer.v ===== *)
(** * The [select] server ([io_multiplexing/select_01.cpp])

    The parent process: it watches the descriptors marked in [arr], accepts
    connections and answers what they send.  [l] is the listening descriptor;
    those below it are in use, so that connections get the ones above.  The
    kernel is that of [Sockets]. *)

From S2P Require Import Prelude CppInt Sys Sockets.

Definition reply : bytes := str " AA msg from server".

Section select_server.
Context (l : Z).

Record SelW := mkSel {
  s_k : K;
  s_arr : list Z;
  s_mxfd : Z;
  s_fds : gset Z;
  s_buf : bytes;
}.

Abbreviation M := (M SelW).

Definition kernel {A} (m : Prelude.M K A) : M A :=
  zoom s_k (fun k w => mkSel k (s_arr w) (s_mxfd w) (s_fds w) (s_buf w)) m.
Definition set_arr (i v : Z) : M unit :=
  w ← getS;
  a ← liftO (arr_set (s_arr w) i v);
  modify (fun w => mkSel (s_k w) a (s_mxfd w) (s_fds w) (s_buf w)).
Definition set_mxfd (i : Z) : M unit := modify (fun w =>
  mkSel (s_k w) (s_arr w) i (s_fds w) (s_buf w)).
Definition set_fds (f : gset Z) : M unit := modify (fun w =>
  mkSel (s_k w) (s_arr w) (s_mxfd w) f (s_buf w)).
Definition set_buf (b : bytes) : M unit := modify (fun w =>
  mkSel (s_k w) (s_arr w) (s_mxfd w) (s_fds w) b).

(** The watched descriptors, collected afresh before every [select]. *)
Definition sel_fill : M unit :=
  set_fds ∅ ;;
  for_le (seqZ 3 98) s_mxfd (fun i =>
    w ← getS;
    v ← liftO (arr_get (s_arr w) i);
    whenM (negb (bool_decide (v = 0))) (set_fds ({[i]} ∪ s_fds w))).

(** [select]: [None] when it fails, which it does on a closed descriptor. *)
Definition select (nfds : Z) (fail : bool) (fds : gset Z) (k : K) : option (gset Z) :=
  if fail || negb (bool_decide (set_Forall (fun i => fd_open l k i = true) fds)) then None
  else Some (filter (fun i => i < nfds /\ fd_ready l k i = true) fds).

Definition sel_accept (r : Round) : M unit :=
  new_fd ← kernel (accept (l + 1) (r_accept r));
  if decide (new_fd < 0) then mret tt
  else
    set_arr new_fd 1 ;;
    w ← getS;
    whenM (bool_decide (new_fd > s_mxfd w)) (set_mxfd new_fd).

Definition sel_data (r : Round) (i : Z) : M unit :=
  w ← getS;
  buf ← liftO (buf_write 0 [NUL] (s_buf w));
  '(res, buf) ← kernel (chat reply 99 i (r_send r i) buf);
  set_buf buf ;;
  if decide (res = 0) then set_arr i 0 ;; kernel (close i) else mret tt.

Definition sel_visit (r : Round) (i : Z) : M unit :=
  w ← getS;
  v ← liftO (arr_get (s_arr w) i);
  if decide (v = 0) then mret tt
  else if decide (i ∈ s_fds w) then
    kernel (modify (net_run (r_net r i))) ;;
    if decide (i = l) then sel_accept r else sel_data r i
  else mret tt.

(** One round of the outer loop; [false] is the [break] after ten quiet seconds. *)
Definition sel_round (r : Round) : M bool :=
  sel_fill ;;
  kernel (modify (net_run (r_before r))) ;;
  w ← getS;
  match select (s_mxfd w + 1) (r_fail r) (s_fds w) (s_k w) with
  | None => mret true
  | Some rd =>
      set_fds rd ;;
      if decide (rd = ∅) then mret false
      else for_le (seqZ 3 98) s_mxfd (sel_visit r) ;; mret true
  end.

(** The loop; [true] when it has ended, [false] when it waits for another round. *)
Fixpoint sel_for (n : nat) (rs : list Round) : M bool :=
  match n, rs with
  | O, _ => mret true
  | S n, [] => mret false
  | S n, r :: rs =>
      go ← sel_round r;
      if (go : bool) then sel_for n rs else mret true
  end.

Definition sel_start (k : K) : outcome SelW :=
  a ← arr_set (replicate 100 0) l 1;
  Ok (mkSel k a l ∅ (replicate 100 NUL)).

Definition sel_server (rs : list Round) : M bool :=
  ended ← sel_for 60 rs;
  whenM ended (kernel close_listener) ;;
  mret ended.

(** ** Well-formedness: [arr] marks exactly the open descriptors *)

Record sel_wf (w : SelW) : Prop := {
  wf_l : 3 <= l;
  wf_watched : watched l (s_arr w) (s_mxfd w) (s_k w);
  wf_buf : length (s_buf w) = 100%nat;
}.

Lemma wf_range w i : sel_wf w -> fd_open l (s_k w) i = true -> l <= i <= s_mxfd w.
Proof. intros Hw. apply (wt_range _ _ _ _ (wf_watched w Hw)). Qed.

Lemma wf_mxfd w : sel_wf w -> s_mxfd w < 100.
Proof. intros Hw. apply (wt_mx _ _ _ _ (wf_watched w Hw)). Qed.

Lemma sel_get w i : sel_wf w -> 0 <= i <= s_mxfd w ->
  arr_get (s_arr w) i = Ok (Z.b2z (fd_open l (s_k w) i)).
Proof. intros Hw. by apply watched_get, wf_watched. Qed.

(** What the network does keeps the state well formed. *)
Lemma sel_wf_net w es : sel_wf w ->
  sel_wf (mkSel (net_run es (s_k w)) (s_arr w) (s_mxfd w) (s_fds w) (s_buf w)).
Proof. intros [H1 H2 H3]. split; [done|by apply watched_net|done]. Qed.

Lemma sel_wf_fds w f : sel_wf w -> sel_wf (mkSel (s_k w) (s_arr w) (s_mxfd w) f (s_buf w)).
Proof. intros [H1 H2 H3]. by split. Qed.

(** [FD_SET] marks what is open. *)
Lemma sel_fill_spec w :
  sel_wf w ->
  exists F, sel_fill w = Ok (tt, mkSel (s_k w) (s_arr w) (s_mxfd w) F (s_buf w)) /\
    forall i, i ∈ F <-> fd_open l (s_k w) i = true.
Proof.
  intros Hw.
  assert (H : wp sel_fill (fun _ w' => exists F,
    w' = mkSel (s_k w) (s_arr w) (s_mxfd w) F (s_buf w) /\
    forall i, i ∈ F <-> fd_open l (s_k w) i = true) w).
  { unfold sel_fill, set_fds. wp_simpl.
    apply (wp_for_le (fun i w' => exists F,
      w' = mkSel (s_k w) (s_arr w) (s_mxfd w) F (s_buf w) /\
      forall j, j ∈ F <-> fd_open l (s_k w) j = true /\ j < i) _ _ _ 3 98).
    - exists ∅. split; [done|]. intros j. split; [set_solver|]. intros [Hj Hlt].
      pose proof (wf_range w j Hw Hj). pose proof (wf_l w Hw). lia.
    - intros i w' Hi Hle (F & -> & HF). simpl in *. wp_simpl.
      pose proof (wf_l w Hw). cbn [s_arr s_fds s_k]. rewrite (sel_get w i Hw) by lia.
      destruct (fd_open l (s_k w) i) eqn:Ho; simpl.
      + exists ({[i]} ∪ F). split; [done|]. intros j. rewrite elem_of_union, elem_of_singleton, HF.
        split; [intros [->|[? ?]]; split; [done|lia|done|lia]|].
        intros [? ?]. destruct (decide (j = i)); [by left|right; split; [done|lia]].
      + exists F. split; [done|]. intros j. rewrite HF. split; [intros []; split; [done|lia]|].
        intros [Hj ?]. split; [done|]. destruct (decide (j = i)); [congruence|lia].
    - intros i w' Hi (F & -> & HF) Hend. exists F. split; [done|]. intros j. rewrite HF.
      split; [by intros []|]. intros Hj. split; [done|].
      pose proof (wf_range w j Hw Hj). pose proof (wf_mxfd w Hw). simpl in Hend. lia. }
  apply wp_inv in H as ([] & w' & E & F & -> & HF). by exists F.
Qed.

(** ** The turn of a descriptor *)

(** There is room in [arr] for the connection a round may accept. *)
Definition room (r : Round) (w : SelW) : Prop :=
  r_accept r = false \/ l + 1 + Z.of_nat (size (k_conns (s_k w))) < 100.

Lemma sel_accept_spec r w :
  sel_wf w -> k_backlog (s_k w) <> [] -> room r w ->
  wp (sel_accept r) (fun _ w' => sel_wf w' /\ s_fds w' = s_fds w /\
    s_k w' = take_peer (l + 1) (r_accept r) (s_k w)) w.
Proof.
  intros [H1 Hw H3] Hb Hroom. unfold sel_accept, kernel. rewrite wp_bind, wp_zoom.
  eapply wp_ok; [by apply accept_takes|]. unfold room in Hroom. destruct (r_accept r); simpl.
  2:{ unfold take_peer. destruct (k_backlog (s_k w)); by split_and!; [split| |]. }
  destruct Hroom as [|Hroom]; [done|].
  pose proof (fresh_fd_range (l + 1) (k_conns (s_k w))) as Hf.
  destruct (watched_take_peer l _ _ _ Hw Hb) as [Hi Hw']; [lia|].
  rewrite decide_False by lia. unfold set_arr, set_mxfd. wp_simpl. simpl.
  rewrite arr_set_some by lia. wp_simpl. simpl.
  case_bool_decide as Hd; wp_simpl; (split; [|done]); split; simpl; try done.
  - by rewrite decide_True in Hw'.
  - by rewrite decide_False in Hw'.
Qed.

Lemma reply_text : text_of reply = reply.
Proof. done. Qed.

Lemma sel_data_spec r i w p :
  sel_wf w -> i <> l -> k_conns (s_k w) !! i = Some p -> ready p = true ->
  wp (sel_data r i) (fun _ w' => sel_wf w' /\ s_fds w' = s_fds w /\
    s_k w' = serve reply 99 i (r_send r i) (s_k w)) w.
Proof.
  intros [H1 Hw H3] Hi Hp Hr. unfold sel_data, kernel, set_buf. wp_simpl.
  destruct (buf_write_total 0 [NUL] (s_buf w)) as (buf & -> & Hbuf); [lia|simpl; lia|].
  rewrite H3 in Hbuf. wp_simpl.
  destruct (chat_serves reply 99 i (r_send r i) buf (s_k w) p) as (n & b & k' & E & Hb & Hn & Hk);
    [done|done|lia|right; lia|by rewrite Hbuf|done|].
  eapply wp_ok; [exact E|]. wp_simpl. destruct (at_end p) eqn:Ea.
  - destruct Hk as [-> Hs]. rewrite Hs, decide_True by (by apply Hn).
    destruct (watched_closed l _ _ _ _ _ Hw Hp) as [Hr' Hw'].
    unfold set_arr. wp_simpl. simpl. rewrite arr_set_some by lia. wp_simpl.
    split; [|done]. split; simpl; [done|done|congruence].
  - subst k'. rewrite decide_False by (intros ?%Hn; done). wp_simpl. split; [|done].
    split; simpl; [done| |congruence]. by eapply watched_served.
Qed.

(** ** A round *)

Abbreviation sel_over := (round_over l (l + 1) reply 99).

(** The ready descriptors in the order of their turns. *)
Definition ready_row (k : K) : list Z := filter (fun i => fd_ready l k i = true) (seqZ 3 97).

(** Before the turn of [i]. *)
Definition turn_inv (r : Round) (rd : gset Z) (k1 : K) (i : Z) (w : SelW) : Prop :=
  sel_wf w /\ s_fds w = rd /\
  (forall j, j ∈ rd -> i <= j -> fd_ready l (s_k w) j = true) /\
  s_k w = sel_over r (filter (fun j => j ∈ rd) (seqZ 3 (i - 3))) k1 /\
  (i <= l -> l ∈ rd -> room r w).

Lemma sel_visit_spec r rd k1 i w :
  3 <= i <= s_mxfd w -> turn_inv r rd k1 i w ->
  wp (sel_visit r i) (fun _ w' => turn_inv r rd k1 (i + 1) w') w.
Proof.
  intros Hi (Hw & Hrd & Hready & Hk & Hroom). pose proof (wf_l w Hw).
  assert (Enext : sel_over r (filter (fun j => j ∈ rd) (seqZ 3 (i + 1 - 3))) k1 =
    if decide (i ∈ rd) then visit l (l + 1) reply 99 r (s_k w) i else s_k w).
  { replace (i + 1 - 3) with (i - 3 + 1) by lia. rewrite filter_row_snoc by lia.
    replace (3 + (i - 3)) with i by lia. unfold round_over in *. rewrite foldl_app, <- Hk.
    by case_decide. }
  unfold turn_inv. rewrite Enext. clear Enext Hk.
  unfold sel_visit. wp_simpl. rewrite (sel_get w i Hw) by lia.
  assert (Hstay : i ∉ rd -> sel_wf w /\ s_fds w = rd /\
    (forall j, j ∈ rd -> i + 1 <= j -> fd_ready l (s_k w) j = true) /\
    s_k w = (if decide (i ∈ rd) then visit l (l + 1) reply 99 r (s_k w) i else s_k w) /\
    (i + 1 <= l -> l ∈ rd -> room r w)).
  { intros Hn. rewrite decide_False by done. split_and!; try done.
    - intros j Hj Hle. apply Hready; [done|lia].
    - intros Hle. apply Hroom. lia. }
  destruct (fd_open l (s_k w) i) eqn:Ho; simpl.
  2:{ destruct (decide (i ∈ rd)) as [Hin|Hn]; [|apply wp_ret; by apply Hstay].
      specialize (Hready i Hin ltac:(lia)). apply fd_ready_open in Hready. congruence. }
  rewrite Hrd. destruct (decide (i ∈ rd)) as [Hin|Hn]; [|apply wp_ret; by apply Hstay].
  clear Hstay. simpl. unfold visit, kernel. wp_simpl.
  pose proof (sel_wf_net w (r_net r i) Hw) as Hw1.
  assert (Hr1 : fd_ready l (net_run (r_net r i) (s_k w)) i = true)
    by (apply net_run_ready, Hready; [done|lia]).
  set (w1 := mkSel _ _ _ _ _) in *.
  assert (Hkeep : forall j, j ∈ rd -> i + 1 <= j ->
    fd_ready l (visit l (l + 1) reply 99 r (s_k w) i) j = true).
  { intros j Hj Hle. apply visit_ready; [lia|]. apply Hready; [done|lia]. }
  unfold visit in Hkeep. destruct (decide (i = l)) as [->|Hil].
  - eapply wp_mono.
    + apply (sel_accept_spec r w1 Hw1).
      * unfold fd_ready in Hr1. rewrite decide_True in Hr1 by done. simpl. by case_bool_decide.
      * specialize (Hroom ltac:(lia) Hin). unfold room in *. simpl. by rewrite net_run_size.
    + intros ? w2 (H2 & Hf & E). simpl in Hf, E. rewrite E, Hf. split_and!; [done..|lia].
  - destruct (k_conns (s_k w1) !! i) as [p|] eqn:Ep.
    2:{ unfold fd_ready in Hr1. rewrite decide_False in Hr1 by done. simpl in Ep. by rewrite Ep in Hr1. }
    assert (ready p = true).
    { unfold fd_ready in Hr1. rewrite decide_False in Hr1 by done. simpl in Ep. by rewrite Ep in Hr1. }
    eapply wp_mono.
    + by apply (sel_data_spec r i w1 p).
    + intros ? w2 (H2 & Hf & E). simpl in Hf, E. rewrite E, Hf. split_and!; [done..|].
      intros Hle Hlin. specialize (Hroom ltac:(lia) Hlin). unfold room in *. rewrite E. simpl.
      destruct Hroom as [|Hroom]; [by left|right].
      pose proof (serve_size reply 99 i (r_send r i) (net_run (r_net r i) (s_k w))).
      rewrite net_run_size in *. lia.
Qed.

Lemma select_reports w F k1 fail :
  sel_wf w -> (forall i, i ∈ F <-> fd_open l (s_k w) i = true) ->
  (forall i, fd_open l k1 i = fd_open l (s_k w) i) ->
  if (fail : bool) then select (s_mxfd w + 1) fail F k1 = None
  else exists rd, select (s_mxfd w + 1) fail F k1 = Some rd /\
    forall i, i ∈ rd <-> fd_ready l k1 i = true.
Proof.
  intros Hw HF Hk1. unfold select. destruct fail; [done|]. simpl.
  rewrite bool_decide_eq_true_2 by (intros i Hi%HF; by rewrite Hk1). simpl.
  eexists. split; [done|]. intros i. rewrite elem_of_filter, HF. split; [by intros [[? ?] ?]|].
  intros Hr. pose proof (fd_ready_open l _ _ Hr) as Ho. rewrite Hk1 in Ho.
  pose proof (wf_range w i Hw Ho). split_and!; [lia|done|done].
Qed.

(** What the kernel sees before [select] returns. *)
Definition at_select (r : Round) (w : SelW) : K := net_run (r_before r) (s_k w).

Lemma sel_visits_spec r rd w k1 :
  sel_wf w -> s_k w = k1 -> s_fds w = rd ->
  (forall i, i ∈ rd <-> fd_ready l k1 i = true) -> (l ∈ rd -> room r w) ->
  wp (for_le (seqZ 3 98) s_mxfd (sel_visit r))
    (fun _ w' => sel_wf w' /\ s_k w' = sel_over r (ready_row k1) k1) w.
Proof.
  intros Hw Hk Hf Hrd Hroom.
  apply (wp_for_le (turn_inv r rd k1) _ _ _ 3 98).
  - split_and!; [done|done| |by rewrite Hk|by intros _]. intros j Hj _. rewrite Hk. by apply Hrd.
  - intros i w' Hi Hle. apply sel_visit_spec. lia.
  - intros i w' Hi (Hw' & Hf' & Hready & Hk' & _) Hend. split; [done|]. rewrite Hk'. f_equal.
    unfold ready_row. transitivity (filter (fun j => j ∈ rd) (seqZ 3 97)).
    2:{ apply list_filter_iff. done. }
    pose proof (wf_mxfd w' Hw').
    assert (Hout : forall j, i <= j -> j ∉ rd).
    { intros j Hj Hin. pose proof (fd_ready_open l _ _ (Hready j Hin Hj)) as Ho.
      pose proof (wf_range w' j Hw' Ho). pose proof (Hready j Hin Hj). lia. }
    destruct (decide (i - 3 <= 97)).
    + symmetry. apply filter_row_more; [lia|]. intros j Hj. apply Hout. lia.
    + apply filter_row_more; [lia|]. intros j Hj Hin.
      rewrite Hrd in Hin. apply fd_ready_open in Hin.
      pose proof (wf_range w j Hw ltac:(by rewrite Hk)). pose proof (wf_mxfd w Hw). lia.
Qed.

Lemma sel_round_spec r w :
  sel_wf w -> (r_fail r = false -> fd_ready l (at_select r w) l = true -> room r w) ->
  wp (sel_round r) (fun go w' => sel_wf w' /\
    if r_fail r then go = true /\ s_k w' = at_select r w
    else go = negb (bool_decide (ready_row (at_select r w) = [])) /\
      s_k w' = sel_over r (ready_row (at_select r w)) (at_select r w)) w.
Proof.
  intros Hw Hroom. unfold sel_round, kernel. wp_simpl.
  destruct (sel_fill_spec w Hw) as (F & E & HF). eapply wp_ok; [exact E|]. wp_simpl. simpl.
  fold (at_select r w).
  pose proof (select_reports w F (at_select r w) (r_fail r) Hw HF (fun i => net_run_open _ _ _ _)) as Hs.
  pose proof (sel_wf_net (mkSel (s_k w) (s_arr w) (s_mxfd w) F (s_buf w)) (r_before r)
    (sel_wf_fds w F Hw)) as Hw1. simpl in Hw1. fold (at_select r w) in Hw1.
  destruct (r_fail r).
  { rewrite Hs. by apply wp_ret. }
  destruct Hs as (rd & -> & Hrd). unfold set_fds. wp_simpl. simpl.
  assert (Hnil : rd = ∅ <-> ready_row (at_select r w) = []).
  { unfold ready_row. split; intros H.
    - apply filter_none, Forall_forall. intros i _ Hi%Hrd. set_solver.
    - apply leibniz_equiv. intros i. split; [|set_solver]. intros Hi.
      pose proof (proj1 (Hrd i) Hi) as Hr. pose proof (fd_ready_open l _ _ Hr) as Ho.
      pose proof (wf_range _ i Hw1 Ho) as Hrange. pose proof (wf_mxfd _ Hw1) as Hm.
      pose proof (wf_l w Hw). simpl in *.
      assert (i ∈ filter (fun i => fd_ready l (at_select r w) i = true) (seqZ 3 97)) as Hin.
      { apply list_elem_of_filter. split; [done|]. apply elem_of_seqZ. lia. }
      rewrite H in Hin. by apply not_elem_of_nil in Hin. }
  case_decide as Hrd0.
  - apply wp_ret. split; [exact (sel_wf_fds _ rd Hw1)|].
    apply Hnil in Hrd0. by rewrite Hrd0.
  - wp_simpl. eapply wp_mono.
    + apply (sel_visits_spec r rd _ (at_select r w)); [|done|done|done|].
      * by apply (sel_wf_fds _ rd Hw1).
      * intros Hl%Hrd. specialize (Hroom eq_refl Hl). unfold room in *. simpl.
        unfold at_select. by rewrite net_run_size.
    + intros ? w' [H1 H2]. apply wp_ret. split; [done|]. split; [|done].
      rewrite bool_decide_eq_false_2; [done|]. by rewrite <- Hnil.
Qed.
(** ** The descriptor that does not fit [arr] *)

Definition overflows (r : Round) (w : SelW) : Prop :=
  r_fail r = false /\ fd_ready l (at_select r w) l = true /\ r_accept r = true /\
  100 <= l + 1 + Z.of_nat (size (k_conns (s_k w))).

Lemma sel_visit_overflow r w :
  sel_wf w -> l ∈ s_fds w -> fd_ready l (s_k w) l = true -> r_accept r = true ->
  100 <= l + 1 + Z.of_nat (size (k_conns (s_k w))) ->
  sel_visit r l w = UB.
Proof.
  intros Hw Hin Hl Hacc Hfull. pose proof (wf_l w Hw). pose proof (wf_range w l Hw (fd_open_l l _)).
  unfold sel_visit, kernel, mbind, M_bind, getS, liftO. rewrite (sel_get w l Hw) by lia.
  rewrite fd_open_l. simpl. rewrite decide_True by done. unfold zoom, modify. simpl.
  rewrite decide_True by done. unfold sel_accept, kernel, zoom, mbind, M_bind. simpl.
  apply (net_run_ready l (r_net r l)) in Hl.
  rewrite accept_takes, Hacc.
  2:{ unfold fd_ready in Hl. rewrite decide_True in Hl by done. by case_bool_decide. }
  simpl. assert (Hf : 100 <= fresh_fd (l + 1) (k_conns (net_run (r_net r l) (s_k w)))).
  { apply fresh_fd_full; [|by rewrite net_run_size].
    intros i Hi. rewrite <- elem_of_dom, net_run_dom, elem_of_dom in Hi. destruct Hi as [p Hp].
    pose proof (watched_conn _ _ _ _ _ _ (wf_watched w Hw) Hp). pose proof (wf_mxfd w Hw). lia. }
  rewrite decide_False by lia. unfold set_arr, mbind, M_bind, getS, liftO. simpl.
  rewrite arr_set_none; [done|]. rewrite (wt_len _ _ _ _ (wf_watched w Hw)). lia.
Qed.

Lemma sel_round_undefined r w : sel_wf w -> overflows r w -> sel_round r w = UB.
Proof.
  intros Hw (Hf & Hl & Hacc & Hfull). unfold sel_round, kernel.
  destruct (sel_fill_spec w Hw) as (F & E & HF). unfold mbind, M_bind. rewrite E.
  unfold zoom, modify, getS. simpl. fold (at_select r w).
  pose proof (select_reports w F (at_select r w) (r_fail r) Hw HF (fun i => net_run_open _ _ _ _)) as Hs.
  rewrite Hf in *. destruct Hs as (rd & -> & Hrd). unfold set_fds, modify. simpl.
  pose proof (sel_wf_fds _ rd (sel_wf_net w (r_before r) Hw)) as Hw1. simpl in Hw1.
  fold (at_select r w) in Hw1. pose proof (wf_l w Hw).
  pose proof (wf_range w l Hw (fd_open_l l _)) as Hmx. pose proof (wf_mxfd w Hw).
  assert (Hin : l ∈ rd) by by apply Hrd.
  rewrite decide_False by set_solver. unfold M_bind.
  pose proof (for_le_undefined s_mxfd (sel_visit r) 3 98 l
    (mkSel (at_select r w) (s_arr w) (s_mxfd w) rd (s_buf w))) as Hu.
  change (Z.of_nat 98) with 98 in Hu. rewrite Hu; [done|lia|simpl; lia| |].
  - intros j Hj. unfold sel_visit, mbind, M_bind, getS, liftO. rewrite (sel_get _ j Hw1) by (simpl; lia).
    destruct (fd_open l _ j) eqn:Ho; [|done]. pose proof (wf_range _ j Hw1 Ho). lia.
  - apply sel_visit_overflow; try done. simpl. unfold at_select. by rewrite net_run_size.
Qed.

Lemma overflows_dec r w : {overflows r w} + {~ overflows r w}.
Proof. unfold overflows. change ({?A} + {~ ?A}) with (Decision A). apply _. Defined.

Lemma no_overflow_room r w :
  ~ overflows r w -> r_fail r = false -> fd_ready l (at_select r w) l = true -> room r w.
Proof.
  unfold overflows, room. intros Hn Hf Hl. destruct (r_accept r); [right|by left].
  destruct (decide (100 <= l + 1 + Z.of_nat (size (k_conns (s_k w))))); [naive_solver|lia].
Qed.

(** Any sequence of rounds, from a well-formed state. *)
Lemma sel_for_spec n rs w :
  sel_wf w ->
  match sel_for n rs w with
  | Ok (ended, w') => sel_wf w' /\ ((n <= length rs)%nat -> ended = true)
  | Throw _ => False
  | UB => exists r w', r ∈ rs /\ sel_wf w' /\ overflows r w'
  end.
Proof.
  revert rs w. induction n as [|n IH]; intros rs w Hw; [done|].
  destruct rs as [|r rs]; [split; [done|simpl; lia]|].
  simpl. unfold mbind, M_bind. destruct (overflows_dec r w) as [Ho|Hn].
  - rewrite (sel_round_undefined r w Hw Ho). exists r, w. split_and!; [left|done|done].
  - destruct (wp_inv _ _ _ (sel_round_spec r w Hw (no_overflow_room r w Hn))) as (go & w1 & -> & H1 & _).
    destruct go; [|done]. specialize (IH rs w1 H1).
    destruct (sel_for n rs w1) as [[ended w']| |].
    + destruct IH as [H2 H3]. split; [done|]. intros Hle. apply H3. simpl in Hle. lia.
    + done.
    + destruct IH as (r' & w' & ? & ? & ?). exists r', w'. split_and!; [by right|done|done].
Qed.

Lemma sel_start_ok k :
  3 <= l < 100 -> k_conns k = ∅ -> exists w, sel_start k = Ok w /\ sel_wf w /\ s_k w = k.
Proof.
  intros Hl Hk. unfold sel_start. rewrite arr_set_some by (rewrite length_replicate; lia).
  exists (mkSel k (<[Z.to_nat l := 1]> (replicate 100 0)) l ∅ (replicate 100 NUL)).
  split; [reflexivity|]. split; [|done]. split; [lia| |done]. apply (watched_start l); [lia|done].
Qed.
End select_server.

(** C23. A round of the [select] server refines the round the network sees: what
    is ready when [select] returns gets its turn, in ascending order of the
    descriptors, and nothing else changes; a failing [select] changes nothing and
    a round with nothing ready ends the loop.  The one exception is the connection
    accepted under a descriptor of at least 100, which is stored behind the end of
    [arr]: then, and only then, the round is undefined. *)
Theorem select_round_refines l r w :
  sel_wf l w ->
  let k := at_select r w in
  (overflows l r w -> sel_round l r w = UB) /\
  (~ overflows l r w ->
   wp (sel_round l r) (fun go w' => sel_wf l w' /\
     if r_fail r then go = true /\ s_k w' = k
     else go = negb (bool_decide (ready_row l k = [])) /\
       s_k w' = round_over l (l + 1) reply 99 r (ready_row l k) k) w).
Proof.
  intros Hw k. split; [by apply sel_round_undefined|].
  intros Hn. apply sel_round_spec; [done|]. by apply no_overflow_room.
Qed.

(** C22. The state of the [select] server stays well formed whatever its clients do:
    [arr] keeps its 100 flags, flag [i] is set exactly while descriptor [i] is open,
    [mxfd] bounds the open descriptors and the buffer keeps its size.  The server
    never blocks in [accept] or [recv], and 60 rounds end it; it is undefined only
    in a round in which all descriptors below 100 are in use. *)
Theorem select_server_typed l k rs :
  3 <= l < 100 -> k_conns k = ∅ ->
  exists w, sel_start l k = Ok w /\
    match sel_server l rs w with
    | Ok (ended, w') => sel_wf l w' /\ ((60 <= length rs)%nat -> ended = true)
    | Throw _ => False
    | UB => exists r w', r ∈ rs /\ sel_wf l w' /\ overflows l r w'
    end.
Proof.
  intros Hl Hk. destruct (sel_start_ok l k Hl Hk) as (w & E & Hw & _). exists w. split; [done|].
  pose proof (sel_for_spec l 60 rs w Hw) as Hs.
  unfold sel_server, mbind, M_bind. destruct (sel_for l 60 rs w) as [[ended w']| |]; [|done|done].
  destruct Hs as [Hw' He]. destruct ended; simpl; [|done].
  split; [|done]. destruct Hw' as [H1 [H2 H3 H4 H5 H6] H7]. split; [done|by split|done].
Qed.

(** A connection that was ready when nothing else happens in the round: what has
    arrived is read, up to 99 bytes, and answered; a peer that has closed is closed. *)
Theorem select_round_answers l r w i p :
  sel_wf l w -> r_fail r = false -> r_before r = [] -> (forall j, r_net r j = []) ->
  ~ overflows l r w -> k_conns (s_k w) !! i = Some p -> ready p = true ->
  wp (sel_round l r) (fun _ w' => k_conns (s_k w') !! i = served reply 99 (r_send r i) p) w.
Proof.
  intros Hw Hf Hb Hq Hn Hp Hr.
  destruct (select_round_refines l r w Hw) as [_ H]. specialize (H Hn). cbv zeta in H.
  eapply wp_mono; [exact H|]. intros go w' [_ H']. rewrite Hf in H'. destruct H' as [_ ->].
  assert (Hk : at_select r w = s_k w) by (unfold at_select; by rewrite Hb). rewrite Hk.
  pose proof (watched_conn _ _ _ _ _ _ (wf_watched l w Hw) Hp).
  pose proof (wf_l l w Hw). pose proof (wf_mxfd l w Hw).
  rewrite (round_over_quiet l (l + 1) reply 99 r _ _ i p); try done;
    [|exact (filter_row_sorted _ 3 97)|lia].
  rewrite decide_True; [done|]. unfold ready_row. apply list_elem_of_filter.
  split; [|apply elem_of_seqZ; lia]. unfold fd_ready. rewrite decide_False by lia. by rewrite Hp.
Qed.

(** A client connects, says hi, and gets its answer. *)
Example select_says_hello :
  (w ← sel_start 3 K_start;
   '(_, w) ← sel_server 3 [plain_round [NConnect]; plain_round [NData (Fd 4) (str "hi")]] w;
   Ok (k_conns (s_k w) !! 4, k_stdout (s_k w), s_mxfd w))
  = Ok (Some (Peer [] false false reply), [(4, 2, str "hi")], 4).
Proof. vm_compute. reflexivity. Qed.

Lemma select_round_refines_witness : exists w,
  let r := plain_round [NConnect] in
  (overflows 3 r w -> sel_round 3 r w = UB) /\
  (~ overflows 3 r w ->
   wp (sel_round 3 r) (fun go w' => sel_wf 3 w' /\
     if r_fail r then go = true /\ s_k w' = at_select r w
     else go = negb (bool_decide (ready_row 3 (at_select r w) = [])) /\
       s_k w' = round_over 3 4 reply 99 r (ready_row 3 (at_select r w)) (at_select r w)) w).
Proof.
  destruct (sel_start_ok 3 K_start) as (w & E & Hw & Hk); [lia|done|].
  exists w. exact (select_round_refines 3 (plain_round [NConnect]) w Hw).
Defined.

Lemma select_server_typed_witness : exists w, sel_start 99 K_start = Ok w /\
  match sel_server 99 [plain_round [NConnect]] w with
  | Ok (ended, w') => sel_wf 99 w' /\ ((60 <= length [plain_round [NConnect]])%nat -> ended = true)
  | Throw _ => False
  | UB => exists r w', r ∈ [plain_round [NConnect]] /\ sel_wf 99 w' /\ overflows 99 r w'
  end.
Proof. apply (select_server_typed 99 K_start [plain_round [NConnect]]); [lia|done]. Defined.
