(* ===== verification/PollServer.v ===== *)
(** * The [poll] server ([io_multiplexing/poll_01.cpp])

    The parent process.  [arr] and [mxfd] are as in [select_01.cpp]; before every
    [poll] the open descriptors are collected in [pfds], which has 20 entries.
    [l] is the listening descriptor.  [junk] is what the local [buf] of the loop
    happens to hold. *)

From S2P Require Import Prelude CppInt Sys Sockets.

Definition POLLIN : Z := 1.
Definition QQQ : bytes := str "QQQ".

Record pollfd := mkPollfd { p_fd : Z; p_events : Z; p_revents : Z }.

(** The ready ones of the entries the kernel has filled. *)
Definition with_input (e : pollfd) : bool := negb (bool_decide (Z.land (p_revents e) POLLIN = 0)).

Section poll_server.
Context (l : Z) (junk : bytes).

Record PollW := mkPoll {
  p_k : K;
  p_arr : list Z;
  p_mxfd : Z;
  p_pfds : list pollfd;
  p_idx : Z;
}.

Abbreviation M := (M PollW).

Definition kernel {A} (m : Prelude.M K A) : M A :=
  zoom p_k (fun k w => mkPoll k (p_arr w) (p_mxfd w) (p_pfds w) (p_idx w)) m.
Definition set_arr (i v : Z) : M unit :=
  w ← getS;
  a ← liftO (arr_set (p_arr w) i v);
  modify (fun w => mkPoll (p_k w) a (p_mxfd w) (p_pfds w) (p_idx w)).
Definition set_mxfd (i : Z) : M unit := modify (fun w =>
  mkPoll (p_k w) (p_arr w) i (p_pfds w) (p_idx w)).
Definition set_idx (i : Z) : M unit := modify (fun w =>
  mkPoll (p_k w) (p_arr w) (p_mxfd w) (p_pfds w) i).
Definition set_pfds (f : list pollfd) : M unit := modify (fun w =>
  mkPoll (p_k w) (p_arr w) (p_mxfd w) f (p_idx w)).

Definition pfd_set (i : Z) (e : pollfd) : M unit :=
  w ← getS;
  if decide (0 <= i < len (p_pfds w)) then set_pfds (<[Z.to_nat i := e]> (p_pfds w)) else undefined.
Definition pfd_get (i : Z) : M pollfd :=
  w ← getS;
  match (if decide (0 <= i) then p_pfds w !! Z.to_nat i else None) with
  | Some e => mret e
  | None => undefined
  end.

(** The open descriptors, in the first [pfds_idx] entries. *)
Definition poll_fill_one (i : Z) : M unit :=
  w ← getS;
  v ← liftO (arr_get (p_arr w) i);
  if decide (v = 0) then mret tt
  else
    pfd_set (p_idx w) (mkPollfd i POLLIN 0) ;;
    set_idx (p_idx w + 1).

Definition poll_fill : M unit :=
  set_idx 0 ;;
  for_le (seqZ 0 101) p_mxfd poll_fill_one.

(** [poll]: the events of every entry it is given that are there. *)
Definition poll_entry (k : K) (e : pollfd) : pollfd :=
  mkPollfd (p_fd e) (p_events e) (if fd_ready l k (p_fd e) then Z.land (p_events e) POLLIN else 0).
Definition poll (n : Z) (k : K) (f : list pollfd) : list pollfd :=
  map (poll_entry k) (take (Z.to_nat n) f) ++ drop (Z.to_nat n) f.

Definition poll_accept (r : Round) : M unit :=
  new_fd ← kernel (accept (l + 1) (r_accept r));
  set_arr new_fd 1 ;;
  w ← getS;
  whenM (bool_decide (new_fd > p_mxfd w)) (set_mxfd new_fd).

Definition poll_data (r : Round) (i : Z) : M unit :=
  '(n, _) ← kernel (chat QQQ 100 i (r_send r i) junk);
  if decide (n = 0) then set_arr i 0 ;; kernel (close i) else mret tt.

Definition poll_visit (r : Round) (i : Z) : M unit :=
  e ← pfd_get i;
  if with_input e then
    kernel (modify (net_run (r_net r (p_fd e)))) ;;
    if decide (p_fd e = l) then poll_accept r else poll_data r (p_fd e)
  else mret tt.

(** One round; [false] is the [break] after five quiet seconds. *)
Definition poll_round (r : Round) : M bool :=
  poll_fill ;;
  kernel (modify (net_run (r_before r))) ;;
  if r_fail r then mret true
  else
    w ← getS;
    let f := poll (p_idx w) (p_k w) (p_pfds w) in
    set_pfds f ;;
    if decide (Forall (fun e => p_revents e = 0) (take (Z.to_nat (p_idx w)) f)) then mret false
    else forM (seqZ 0 (p_idx w)) (poll_visit r) ;; mret true.

(** [while (true)]: [true] when it has ended, [false] when it waits for another round. *)
Fixpoint poll_loop (rs : list Round) : M bool :=
  match rs with
  | [] => mret false
  | r :: rs =>
      go ← poll_round r;
      if (go : bool) then poll_loop rs else mret true
  end.

Definition poll_start (k : K) (f : list pollfd) : outcome PollW :=
  if decide (0 <= l < len f) then
    let f :=
      imap (fun i e => if decide (Z.of_nat i < l) then mkPollfd l 5 (p_revents e)
                       else if decide (Z.of_nat i = l) then mkPollfd l POLLIN (p_revents e)
                       else e) f in
    a ← arr_set (replicate 100 0) l 1;
    Ok (mkPoll k a l f l)
  else UB.

Definition poll_server (rs : list Round) : M bool :=
  ended ← poll_loop rs;
  whenM ended (kernel close_listener) ;;
  mret ended.

(** ** Well-formedness *)

Record poll_wf (w : PollW) : Prop := {
  pw_watched : watched l (p_arr w) (p_mxfd w) (p_k w);
  pw_pfds : length (p_pfds w) = 20%nat;
  pw_l : l < 20;
  pw_junk : length junk = 100%nat;
}.

Lemma poll_wf_net w es : poll_wf w ->
  poll_wf (mkPoll (net_run es (p_k w)) (p_arr w) (p_mxfd w) (p_pfds w) (p_idx w)).
Proof. intros [H1 H2 H3 H4]. split; try done. by apply watched_net. Qed.

(** The open descriptors in ascending order. *)
Definition open_row (n : Z) (k : K) : list Z := filter (fun i => fd_open l k i = true) (seqZ 0 n).

Definition filled (k : K) (n : Z) : list pollfd :=
  map (fun i => mkPollfd i POLLIN 0) (open_row n k).

Lemma filled_next k n : 0 <= n ->
  filled k (n + 1) = filled k n ++ (if fd_open l k n then [mkPollfd n POLLIN 0] else []).
Proof.
  intros Hn. unfold filled, open_row. rewrite filter_row_snoc by done. rewrite map_app.
  f_equal. rewrite Z.add_0_l.
  destruct (fd_open l k n); [by rewrite decide_True|by rewrite decide_False].
Qed.

(** During the filling. *)
Definition fill_inv (w : PollW) (i : Z) (w' : PollW) : Prop :=
  exists f, w' = mkPoll (p_k w) (p_arr w) (p_mxfd w) f (len (filled (p_k w) i)) /\
    length f = 20%nat /\ take (length (filled (p_k w) i)) f = filled (p_k w) i /\
    (length (filled (p_k w) i) <= 20)%nat.

Lemma filled_mono k a b : 0 <= a <= b -> (length (filled k a) <= length (filled k b))%nat.
Proof.
  intros Hab. unfold filled, open_row. rewrite !length_fmap.
  replace b with (a + (b - a)) by lia. rewrite seqZ_app by lia. rewrite filter_app, length_app. lia.
Qed.

Lemma filled_end w k a :
  poll_wf w -> p_mxfd w < a <= 101 -> p_k w = k -> filled k a = filled k 101.
Proof.
  intros Hw Ha <-. pose proof (watched_l l _ _ _ (pw_watched w Hw)).
  unfold filled, open_row. f_equal. symmetry. apply filter_row_more; [lia|].
  intros i Hi Ho. pose proof (wt_range _ _ _ _ (pw_watched w Hw) i Ho). lia.
Qed.

Lemma take_filled (f : list pollfd) n e es :
  take n f = es -> (n < length f)%nat -> n = length es -> take (S n) (<[n := e]> f) = es ++ [e].
Proof.
  intros Ht Hn ->. rewrite (take_S_r _ _ e) by (apply list_lookup_insert_eq; lia).
  f_equal. by rewrite take_insert_ge by lia.
Qed.

Lemma poll_fill_one_spec w i w' :
  poll_wf w -> 0 <= i <= p_mxfd w -> fill_inv w i w' ->
  if decide (length (filled (p_k w) (i + 1)) <= 20)%nat
  then exists w2, poll_fill_one i w' = Ok (tt, w2) /\ fill_inv w (i + 1) w2
  else poll_fill_one i w' = UB.
Proof.
  intros Hw Hi (f & -> & Hf & Ht & Hlen).
  assert (Hnext := filled_next (p_k w) i ltac:(lia)).
  unfold fill_inv, poll_fill_one, mbind, M_bind, getS, liftO. simpl.
  rewrite (watched_get l _ _ _ _ (pw_watched w Hw)) by lia. rewrite Hnext, length_app.
  destruct (fd_open l (p_k w) i) eqn:Ho; simpl.
  2:{ rewrite Nat.add_0_r, app_nil_r, decide_True by done. eexists. split; [done|]. by exists f. }
  unfold pfd_set, set_idx, set_pfds, modify, mbind, M_bind, getS. simpl.
  destruct (decide (0 <= len (filled (p_k w) i) < len f)) as [Hroom|Hroom].
  - rewrite decide_True by lia. eexists. split; [done|]. simpl. rewrite Nat2Z.id.
    exists (<[length (filled (p_k w) i) := mkPollfd i POLLIN 0]> f). split; [f_equal; lia|]. split; [by rewrite length_insert|]. split; [|lia].
    rewrite Nat.add_1_r. by apply take_filled; [|lia|].
  - rewrite decide_False by lia. done.
Qed.

Lemma poll_fill_loop w n a w' :
  poll_wf w -> a + Z.of_nat n = 101 -> 0 <= a -> fill_inv w a w' ->
  if decide (length (filled (p_k w) 101) <= 20)%nat
  then exists w2, for_le (seqZ a (Z.of_nat n)) p_mxfd poll_fill_one w' = Ok (tt, w2) /\ fill_inv w 101 w2
  else for_le (seqZ a (Z.of_nat n)) p_mxfd poll_fill_one w' = UB.
Proof.
  intros Hw. revert a w'. induction n as [|n IH]; intros a w' Han Ha Hinv.
  { assert (a = 101) as -> by lia. destruct Hinv as (f & E & H1 & H2 & H3).
    rewrite decide_True by done. exists w'. split; [done|]. by exists f. }
  rewrite Nat2Z.inj_succ, seqZ_cons, Z.pred_succ by lia. change (Z.succ a) with (a + 1).
  unfold for_le. fold (@for_le PollW). unfold mbind, M_bind, getS.
  assert (Hmx : p_mxfd w' = p_mxfd w) by by destruct Hinv as (f & -> & _). rewrite Hmx.
  destruct (decide (a <= p_mxfd w)) as [Hle|Hgt].
  - pose proof (poll_fill_one_spec w a w' Hw ltac:(lia) Hinv) as H1.
    pose proof (filled_mono (p_k w) (a + 1) 101 ltac:(lia)) as Hm.
    destruct (decide (length (filled (p_k w) (a + 1)) <= 20)%nat).
    + destruct H1 as (w1 & -> & H1). apply IH; [lia|lia|done].
    + rewrite H1. by rewrite decide_False by lia.
  - destruct Hinv as (f & -> & H1 & H2 & H3).
    pose proof (filled_end w (p_k w) a Hw ltac:(lia) eq_refl) as He. rewrite He in *.
    rewrite decide_True by done. eexists. split; [done|]. by exists f.
Qed.

Lemma poll_fill_spec w :
  poll_wf w ->
  let es := filled (p_k w) 101 in
  if decide (length es <= 20)%nat
  then exists rest, poll_fill w = Ok (tt, mkPoll (p_k w) (p_arr w) (p_mxfd w) (es ++ rest) (len es)) /\
         length (es ++ rest) = 20%nat
  else poll_fill w = UB.
Proof.
  intros Hw es.
  assert (H := poll_fill_loop w 101 0 (mkPoll (p_k w) (p_arr w) (p_mxfd w) (p_pfds w) 0) Hw
    eq_refl ltac:(lia)).
  cbv zeta in H. fold es in H.
  assert (H0 : fill_inv w 0 (mkPoll (p_k w) (p_arr w) (p_mxfd w) (p_pfds w) 0)).
  { exists (p_pfds w). split_and!; [done|apply pw_pfds, Hw|done|simpl; lia]. }
  specialize (H H0). unfold poll_fill, set_idx, mbind, M_bind, modify. case_decide; [|exact H].
  destruct H as (w2 & E & f & -> & Hf & Ht & Hl). fold es in Ht, Hl, E.
  assert (Hsplit : es ++ drop (length es) f = f) by (rewrite <- Ht at 1; apply take_drop).
  exists (drop (length es) f). rewrite Hsplit. by split.
Qed.

(** ** The turn of a descriptor *)

Lemma QQQ_text : text_of QQQ = QQQ.
Proof. done. Qed.

Lemma poll_accept_spec r w :
  poll_wf w -> k_backlog (p_k w) <> [] -> (size (k_conns (p_k w)) <= 19)%nat ->
  if r_accept r
  then wp (poll_accept r) (fun _ w' => poll_wf w' /\ p_pfds w' = p_pfds w /\
         p_k w' = take_peer (l + 1) (r_accept r) (p_k w)) w
  else poll_accept r w = UB.
Proof.
  intros [H1 H2 H3 H4] Hb Hs. pose proof (accept_takes (l + 1) (r_accept r) (p_k w) Hb) as Ha.
  unfold poll_accept, kernel, set_arr, set_mxfd. destruct (r_accept r).
  - pose proof (fresh_fd_range (l + 1) (k_conns (p_k w))) as Hf.
    destruct (watched_take_peer l _ _ _ H1 Hb) as [Hi Hw']; [lia|].
    rewrite wp_bind, wp_zoom. eapply wp_ok; [exact Ha|]. wp_simpl. simpl.
    rewrite arr_set_some by lia. wp_simpl. simpl.
    case_bool_decide as Hd; wp_simpl; (split; [|done]); split; simpl; try done.
    + by rewrite decide_True in Hw'.
    + by rewrite decide_False in Hw'.
  - unfold zoom, mbind, M_bind, getS, liftO. by rewrite Ha.
Qed.

Lemma poll_data_spec r i w p :
  poll_wf w -> k_conns (p_k w) !! i = Some p -> ready p = true -> fits 100 100 p ->
  wp (poll_data r i) (fun _ w' => poll_wf w' /\ p_pfds w' = p_pfds w /\
    p_k w' = serve QQQ 100 i (r_send r i) (p_k w)) w.
Proof.
  intros [H1 H2 H3 H4] Hp Hr Hfit. unfold poll_data, kernel. wp_simpl.
  destruct (chat_serves QQQ 100 i (r_send r i) junk (p_k w) p) as (n & b & k' & E & Hb & Hn & Hk);
    [done|done|lia|by rewrite H4|by rewrite H4|done|].
  eapply wp_ok; [exact E|]. wp_simpl. destruct (at_end p) eqn:Ea.
  - destruct Hk as [-> Hs]. rewrite Hs, decide_True by (by apply Hn).
    destruct (watched_closed l _ _ _ _ _ H1 Hp) as [Hr' Hw'].
    unfold set_arr. wp_simpl. simpl. rewrite arr_set_some by lia. wp_simpl.
    split; [|done]. by split.
  - subst k'. rewrite decide_False by (intros ?%Hn; done). wp_simpl. split; [|done].
    split; simpl; try done. by eapply watched_served.
Qed.

Lemma poll_data_overflow r i w p :
  poll_wf w -> k_conns (p_k w) !! i = Some p -> ready p = true -> ~ fits 100 100 p ->
  poll_data r i w = UB.
Proof.
  intros [H1 H2 H3 H4] Hp Hr Hfit. unfold poll_data, kernel, zoom, mbind, M_bind.
  assert (Hj : len junk = 100) by (rewrite H4; done). 
  pose proof (chat_overflows QQQ i (r_send r i) junk (p_k w) p Hp Hr) as Ho.
  rewrite Hj in Ho. by rewrite Ho.
Qed.

(** ** A round *)

Abbreviation poll_over := (round_over l (l + 1) QQQ 100).
Abbreviation poll_ok := (fun r => turns_ok l (l + 1) QQQ 100 r 100 (r_accept r = true)).

Definition input_fds (es : list pollfd) : list Z := map p_fd (filter (fun e => with_input e = true) es).

Lemma poll_turn_spec r i w :
  poll_wf w -> fd_ready l (p_k w) i = true -> (i = l -> (size (k_conns (p_k w)) <= 19)%nat) ->
  if decide (turn_ok l 100 100 (r_accept r = true) i (p_k w))
  then wp (if decide (i = l) then poll_accept r else poll_data r i)
         (fun _ w' => poll_wf w' /\ p_pfds w' = p_pfds w /\
            p_k w' = if decide (i = l) then take_peer (l + 1) (r_accept r) (p_k w)
                     else serve QQQ 100 i (r_send r i) (p_k w)) w
  else (if decide (i = l) then poll_accept r else poll_data r i) w = UB.
Proof.
  intros Hw Hr Hs. destruct (decide (turn_ok _ _ _ _ _ _)) as [Hok|Hok]; unfold turn_ok in Hok;
    destruct (decide (i = l)) as [->|Hi].
  - pose proof (poll_accept_spec r w Hw (fd_ready_backlog l _ Hr) (Hs eq_refl)) as H.
    by rewrite Hok in *.
  - destruct (fd_ready_conn l _ _ Hi Hr) as (p & Hp & Hpr). rewrite Hp in Hok.
    by apply (poll_data_spec r i w p).
  - pose proof (poll_accept_spec r w Hw (fd_ready_backlog l _ Hr) (Hs eq_refl)) as H.
    by destruct (r_accept r).
  - destruct (fd_ready_conn l _ _ Hi Hr) as (p & Hp & Hpr). rewrite Hp in Hok.
    by apply (poll_data_overflow r i w p).
Qed.

(** The loop over the entries: the turns of the ready descriptors among them. *)
Lemma poll_visits_spec r L m i w :
  poll_wf w -> p_pfds w = L -> 0 <= i -> i + Z.of_nat m <= 20 ->
  let rest := input_fds (take m (drop (Z.to_nat i) L)) in
  NoDup rest -> (forall j, j ∈ rest -> fd_ready l (p_k w) j = true) ->
  (l ∈ rest -> (size (k_conns (p_k w)) <= 19)%nat) ->
  if decide (poll_ok r rest (p_k w))
  then wp (forM (seqZ i (Z.of_nat m)) (poll_visit r))
         (fun _ w' => poll_wf w' /\ p_k w' = poll_over r rest (p_k w)) w
  else forM (seqZ i (Z.of_nat m)) (poll_visit r) w = UB.
Proof.
  revert i w. induction m as [|m IH]; intros i w Hw HL Hi Him rest Hnd Hready Hsize.
  { unfold rest. by simpl. }
  pose proof (pw_pfds w Hw) as Hlen. rewrite HL in Hlen.
  destruct (L !! Z.to_nat i) as [e|] eqn:He; [|apply lookup_ge_None in He; lia].
  assert (Hrest : rest = (if with_input e then [p_fd e] else []) ++
    input_fds (take m (drop (Z.to_nat (i + 1)) L))).
  { unfold rest, input_fds. rewrite (drop_S L e) by done. simpl. rewrite filter_cons.
    replace (Z.to_nat (i + 1)) with (S (Z.to_nat i)) by lia.
    destruct (with_input e); done. }
  clearbody rest. subst rest.
  rewrite Nat2Z.inj_succ, seqZ_cons, Z.pred_succ by lia. change (Z.succ i) with (i + 1).
  set (es := input_fds _) in *.
  assert (Hget : forall w1, p_pfds w1 = L -> pfd_get i w1 = Ok (e, w1)).
  { intros w1 H1. unfold pfd_get, mbind, M_bind, getS. by rewrite decide_True, H1, He by done. }
  destruct (with_input e) eqn:Hin; simpl in *.
  2:{ specialize (IH (i + 1) w Hw HL ltac:(lia) ltac:(lia)). fold es in IH. specialize (IH Hnd Hready Hsize).
      assert (E : poll_visit r i w = Ok (tt, w)).
      { unfold poll_visit, mbind, M_bind. by rewrite Hget, Hin by done. }
      case_decide; [|unfold mbind, M_bind; by rewrite E].
      apply wp_bind. by eapply wp_ok; [exact E|]. }
  apply NoDup_cons in Hnd as [Hne Hnd].
  set (w1 := mkPoll (net_run (r_net r (p_fd e)) (p_k w)) (p_arr w) (p_mxfd w) (p_pfds w) (p_idx w)).
  assert (Hw1 : poll_wf w1) by by apply poll_wf_net.
  assert (Hr1 : fd_ready l (p_k w1) (p_fd e) = true) by (apply net_run_ready, Hready; left).
  pose proof (poll_turn_spec r (p_fd e) w1 Hw1 Hr1) as Ht.
  assert (Hs1 : p_fd e = l -> (size (k_conns (p_k w1)) <= 19)%nat).
  { intros El. simpl. rewrite net_run_size. apply Hsize. rewrite El. left. }
  specialize (Ht Hs1).
  assert (E1 : poll_visit r i w = (if decide (p_fd e = l) then poll_accept r else poll_data r (p_fd e)) w1).
  { unfold poll_visit, mbind, M_bind. by rewrite Hget, Hin by done. }
  destruct (decide (turn_ok l 100 100 (r_accept r = true) (p_fd e) (p_k w1))) as [Hok|Hok].
  2:{ rewrite decide_False by (intros [? _]; done). unfold mbind, M_bind. by rewrite E1, Ht. }
  apply wp_inv in Ht as ([] & w2 & E2 & Hw2 & HL2 & Hk2). simpl in HL2, Hk2.
  assert (Hk2' : p_k w2 = visit l (l + 1) QQQ 100 r (p_k w) (p_fd e)) by done.
  specialize (IH (i + 1) w2 Hw2 ltac:(congruence) ltac:(lia) ltac:(lia)). fold es in IH.
  assert (Hrd2 : forall j, j ∈ es -> fd_ready l (p_k w2) j = true).
  { intros j Hj. rewrite Hk2'. apply visit_ready; [by intros E; rewrite E in Hne|]. apply Hready. by right. }
  assert (Hsz2 : l ∈ es -> (size (k_conns (p_k w2)) <= 19)%nat).
  { intros Hl. specialize (Hsize ltac:(by right)). rewrite Hk2, decide_False by (by intros E; rewrite E in Hne).
    pose proof (serve_size QQQ 100 (p_fd e) (r_send r (p_fd e)) (p_k w1)). simpl in *.
    rewrite net_run_size in *. lia. }
  specialize (IH Hnd Hrd2 Hsz2). rewrite Hk2' in IH. unfold mbind, M_bind.
  destruct (decide (poll_ok r es (visit l (l + 1) QQQ 100 r (p_k w) (p_fd e)))) as [Hoks|Hoks].
  - rewrite decide_True by done. unfold wp in *. rewrite E1, E2. exact IH.
  - rewrite decide_False by (intros [_ ?]; done). by rewrite E1, E2.
Qed.

(** What the kernel sees when [poll] answers, and what is ready then. *)
Definition at_poll (r : Round) (w : PollW) : K := net_run (r_before r) (p_k w).
Definition ready_row (k : K) : list Z := filter (fun i => fd_ready l k i = true) (seqZ 0 101).

(** The rounds that are defined: at most 20 descriptors, [accept] succeeds, and no
    descriptor that is read has a hundred bytes waiting. *)
Definition poll_defined (r : Round) (w : PollW) : Prop :=
  (size (k_conns (p_k w)) <= 19)%nat /\
  (r_fail r = true \/ poll_ok r (ready_row (at_poll r w)) (at_poll r w)).

#[export] Instance poll_defined_dec r w : Decision (poll_defined r w).
Proof. apply _. Defined.

Lemma filled_size w : poll_wf w -> length (filled (p_k w) 101) = S (size (k_conns (p_k w))).
Proof.
  intros Hw. unfold filled. rewrite length_fmap. apply (open_size l).
  - apply NoDup_filter, NoDup_seqZ.
  - intros i. unfold open_row. rewrite list_elem_of_filter, elem_of_seqZ. split; [by intros []|].
    intros Ho. split; [done|]. pose proof (wt_range _ _ _ _ (pw_watched w Hw) i Ho).
    pose proof (watched_l l _ _ _ (pw_watched w Hw)). lia.
  - apply (wt_listener _ _ _ _ (pw_watched w Hw)).
Qed.

Lemma input_fds_ready k k1 :
  (forall i, fd_open l k1 i = fd_open l k i) ->
  input_fds (map (poll_entry k1) (filled k 101)) = ready_row k1.
Proof.
  intros Ho. unfold input_fds, filled, ready_row, open_row. set (row := seqZ 0 101). clearbody row.
  induction row as [|i row IH]; [done|]. rewrite !filter_cons.
  destruct (decide (fd_open l k i = true)) as [Hi|Hi].
  - simpl. rewrite filter_cons.
    assert (E : with_input (poll_entry k1 (mkPollfd i POLLIN 0)) = fd_ready l k1 i).
    { unfold with_input, poll_entry. simpl. by destruct (fd_ready l k1 i). }
    destruct (decide (with_input _ = true)) as [H1|H1].
    + rewrite decide_True by congruence. simpl. by rewrite IH.
    + rewrite decide_False by congruence. apply IH.
  - rewrite IH, decide_False; [done|]. intros Hr%fd_ready_open. congruence.
Qed.

Lemma poll_silent k1 (es : list pollfd) :
  Forall (fun e => p_revents e = 0) (map (poll_entry k1) es) ->
  input_fds (map (poll_entry k1) es) = [].
Proof.
  unfold input_fds. induction es as [|e es IH]; simpl; [done|]. intros [He Hes]%Forall_cons.
  rewrite filter_cons, decide_False; [by apply IH|]. unfold with_input. by rewrite He.
Qed.

Lemma poll_quiet k1 k :
  input_fds (map (poll_entry k1) (filled k 101)) = [] ->
  Forall (fun e => p_revents e = 0) (map (poll_entry k1) (filled k 101)).
Proof.
  unfold input_fds, filled. set (row := open_row 101 k). clearbody row.
  induction row as [|i row IH]; [constructor|]. simpl. rewrite filter_cons.
  unfold with_input at 1. case_decide as Hd; [done|]. intros H. constructor; [|by apply IH].
  apply not_true_is_false, negb_false_iff, bool_decide_eq_true in Hd. simpl in *.
  by destruct (fd_ready l k1 i).
Qed.

Lemma poll_round_spec r w :
  poll_wf w ->
  (poll_defined r w -> wp (poll_round r) (fun go w' => poll_wf w' /\
     if r_fail r then go = true /\ p_k w' = at_poll r w
     else go = negb (bool_decide (ready_row (at_poll r w) = [])) /\
       p_k w' = poll_over r (ready_row (at_poll r w)) (at_poll r w)) w) /\
  (~ poll_defined r w -> poll_round r w = UB).
Proof.
  intros Hw. pose proof (filled_size w Hw) as Hsize. pose proof (poll_fill_spec w Hw) as Hfill.
  cbv zeta in Hfill. set (es := filled (p_k w) 101) in *.
  assert (Hrow : input_fds (map (poll_entry (at_poll r w)) es) = ready_row (at_poll r w)).
  { apply input_fds_ready. intros i. apply net_run_open. }
  destruct (decide (length es <= 20)%nat) as [Hle|Hgt].
  2:{ split; [intros [? _]; lia|]. intros _. unfold poll_round, mbind, M_bind. by rewrite Hfill. }
  destruct Hfill as (rest & Efill & Hlen).
  set (w1 := mkPoll (at_poll r w) (p_arr w) (p_mxfd w) (es ++ rest) (len es)).
  assert (Hw1 : poll_wf w1).
  { destruct (poll_wf_net w (r_before r) Hw) as [H1 H2 H3 H4]. by split. }
  set (f := poll (len es) (at_poll r w) (es ++ rest)).
  assert (Hf : f = map (poll_entry (at_poll r w)) es ++ rest).
  { unfold f, poll. rewrite Nat2Z.id, take_app_length, drop_app_length. done. }
  assert (Htake : take (length es) f = map (poll_entry (at_poll r w)) es).
  { rewrite Hf. apply take_app_length'. by rewrite length_fmap. }
  set (w2 := mkPoll (at_poll r w) (p_arr w) (p_mxfd w) f (len es)).
  assert (Hw2 : poll_wf w2).
  { destruct Hw1 as [H1 H2 H3 H4]. split; try done. simpl. rewrite Hf, length_app, length_fmap.
    by rewrite length_app in Hlen. }
  pose proof (poll_visits_spec r f (length es) 0 w2 Hw2 eq_refl ltac:(lia) ltac:(simpl; lia)) as Hv.
  cbv zeta in Hv. rewrite drop_0, Htake, Hrow in Hv.
  specialize (Hv ltac:(apply NoDup_filter, NoDup_seqZ)).
  specialize (Hv ltac:(intros j; unfold ready_row; by rewrite list_elem_of_filter; intros [])).
  specialize (Hv ltac:(intros _; simpl; unfold at_poll; rewrite net_run_size; lia)). simpl p_k in Hv.
  assert (Hsilent : Forall (fun e => p_revents e = 0) (take (length es) f) <-> ready_row (at_poll r w) = []).
  { rewrite Htake, <- Hrow. split; [apply poll_silent|]. apply poll_quiet. }
  assert (Erun : poll_round r w =
    if r_fail r then Ok (true, w1)
    else if decide (Forall (fun e => p_revents e = 0) (take (length es) f)) then Ok (false, w2)
    else (forM (seqZ 0 (len es)) (poll_visit r) ;; mret true) w2).
  { unfold poll_round. rewrite (M_bind_ok _ _ _ _ _ Efill).
    rewrite (M_bind_ok _ _ _ tt w1) by done. destruct (r_fail r); [done|].
    rewrite (M_bind_ok _ _ _ w1 w1) by done. cbv zeta. cbn [p_idx p_k p_pfds w1]. fold f.
    rewrite (M_bind_ok _ _ _ tt w2) by done. rewrite Nat2Z.id.
    by destruct (decide (Forall _ _)). }
  unfold poll_defined. split.
  - intros [_ Hor]. unfold wp. rewrite Erun. destruct (r_fail r); [done|].
    destruct Hor as [|Hok]; [done|]. rewrite decide_True in Hv by done.
    destruct (decide (Forall _ _)) as [Hq|Hq].
    + split; [done|]. apply Hsilent in Hq. by rewrite Hq.
    + apply wp_inv in Hv as ([] & w3 & E & H3 & Hk3). rewrite (M_bind_ok _ _ _ _ _ E).
      split; [done|]. split; [|done]. rewrite bool_decide_eq_false_2; [done|]. by rewrite <- Hsilent.
  - intros Hn. rewrite Erun. destruct (r_fail r); [destruct Hn; split; [lia|by left]|].
    rewrite decide_False in Hv by (intros ?; apply Hn; split; [lia|by right]).
    rewrite decide_False.
    + unfold mbind, M_bind. by rewrite Hv.
    + rewrite Hsilent. intros E. apply Hn. split; [lia|right]. by rewrite E.
Qed.

(** Any sequence of rounds. *)
Lemma poll_loop_spec rs w :
  poll_wf w ->
  match poll_loop rs w with
  | Ok (_, w') => poll_wf w'
  | Throw _ => False
  | UB => exists r w', r ∈ rs /\ poll_wf w' /\ ~ poll_defined r w'
  end.
Proof.
  revert w. induction rs as [|r rs IH]; intros w Hw; [done|]. simpl. unfold mbind, M_bind.
  destruct (poll_round_spec r w Hw) as [Hok Hub].
  destruct (decide (poll_defined r w)) as [Hd|Hd].
  2:{ rewrite (Hub Hd). exists r, w. split_and!; [left|done|done]. }
  apply wp_inv in Hok as (go & w1 & -> & H1 & _); [|done]. destruct go; [|done].
  specialize (IH w1 H1). destruct (poll_loop rs w1) as [[ended w']| |]; [done|done|].
  destruct IH as (r' & w' & ? & ? & ?). exists r', w'. split_and!; [by right|done|done].
Qed.

Lemma poll_start_ok k f :
  0 <= l < 20 -> length junk = 100%nat -> length f = 20%nat -> k_conns k = ∅ ->
  exists w, poll_start k f = Ok w /\ poll_wf w /\ p_k w = k.
Proof.
  intros Hl Hj Hf Hk. unfold poll_start. rewrite decide_True by lia. cbv zeta.
  set (f' := imap _ f). assert (Hf' : length f' = 20%nat) by (unfold f'; by rewrite length_imap).
  rewrite arr_set_some by (rewrite length_replicate; lia).
  exists (mkPoll k (<[Z.to_nat l := 1]> (replicate 100 0)) l f' l). split; [reflexivity|].
  split; [|done]. split; try done; [|lia]. apply (watched_start l); [lia|done].
Qed.
End poll_server.

(** A round of the [poll] server refines the round the network sees: what is ready
    when [poll] answers gets its turn in ascending order and the state stays well
    formed.  The round is undefined exactly when more than 20 descriptors are open
    (they do not fit [pfds]), or [accept] fails (its [-1] is used as an index of
    [arr]), or a descriptor that is read has a hundred bytes waiting (the terminator
    does not fit [buf]). *)
Theorem poll_round_refines l junk r w :
  poll_wf l junk w ->
  let k := at_poll r w in
  (poll_defined l r w -> wp (poll_round l junk r) (fun go w' => poll_wf l junk w' /\
     if r_fail r then go = true /\ p_k w' = k
     else go = negb (bool_decide (ready_row l k = [])) /\
       p_k w' = round_over l (l + 1) QQQ 100 r (ready_row l k) k) w) /\
  (~ poll_defined l r w -> poll_round l junk r w = UB).
Proof. apply poll_round_spec. Qed.

(** The [poll] server stays well formed and never blocks, whatever its clients do. *)
Theorem poll_server_typed l junk k f rs :
  0 <= l < 20 -> length junk = 100%nat -> length f = 20%nat -> k_conns k = ∅ ->
  exists w, poll_start l k f = Ok w /\
    match poll_server l junk rs w with
    | Ok (_, w') => poll_wf l junk w'
    | Throw _ => False
    | UB => exists r w', r ∈ rs /\ poll_wf l junk w' /\ ~ poll_defined l r w'
    end.
Proof.
  intros Hl Hj Hf Hk. destruct (poll_start_ok l junk k f Hl Hj Hf Hk) as (w & E & Hw & _).
  exists w. split; [done|]. pose proof (poll_loop_spec l junk rs w Hw) as Hs.
  unfold poll_server, mbind, M_bind. destruct (poll_loop l junk rs w) as [[ended w']| |]; [|done|done].
  destruct ended; simpl; [|done]. destruct Hs as [[H1 H2 H3 H4 H5] H6 H7 H8]. split; [by split|done..].
Qed.

Definition junk_start : bytes := replicate 100 "?"%char.
Definition pfds_start : list pollfd := replicate 20 (mkPollfd 0 0 0).

(** A client gets its answer; a failing [accept] is undefined. *)
Example poll_says_hello :
  (w ← poll_start 3 K_start pfds_start;
   '(_, w) ← poll_server 3 junk_start
     [plain_round [NConnect]; plain_round [NData (Fd 4) (str "hi")]] w;
   Ok (k_conns (p_k w) !! 4, k_stdout (p_k w)))
  = Ok (Some (Peer [] false false QQQ), [(4, 2, str "hi")]).
Proof. vm_compute. reflexivity. Qed.

Example poll_accept_fails :
  (w ← poll_start 3 K_start pfds_start;
   poll_server 3 junk_start [mkRound false [NConnect] false (fun _ => []) (fun _ => WAccept 100)] w)
  = UB.
Proof. vm_compute. reflexivity. Qed.

Lemma poll_round_refines_witness : exists w,
  let r := plain_round [NConnect] in
  (poll_defined 3 r w -> wp (poll_round 3 junk_start r) (fun go w' => poll_wf 3 junk_start w' /\
     if r_fail r then go = true /\ p_k w' = at_poll r w
     else go = negb (bool_decide (ready_row 3 (at_poll r w) = [])) /\
       p_k w' = round_over 3 4 QQQ 100 r (ready_row 3 (at_poll r w)) (at_poll r w)) w) /\
  (~ poll_defined 3 r w -> poll_round 3 junk_start r w = UB).
Proof.
  destruct (poll_start_ok 3 junk_start K_start pfds_start) as (w & E & Hw & Hk); [lia|done..|].
  exists w. exact (poll_round_refines 3 junk_start (plain_round [NConnect]) w Hw).
Defined.
