(* ===== verification/EpollServer.v ===== *)
(** * The [epoll] server ([io_multiplexing/epoll_01.cpp])

    The parent process.  The listening descriptor [l] is watched level-triggered,
    the connections edge-triggered: [epoll_wait] reports a connection when
    something has arrived on it since its last report.  [l + 1] is the [epoll]
    instance.  [junk] is what the local [buf] of the loop happens to hold. *)

From S2P Require Import Prelude CppInt Sys Sockets.

Definition EDCRFV : bytes := str "___EDCRFV___".
Definition MX_EV : nat := 10.

Section epoll_server.
Context (l : Z) (junk : bytes).

Record EpollW := mkEpoll {
  e_k : K;
  e_interest : gset Z;      (* the connections registered with the instance *)
  e_open : bool;            (* the instance itself *)
}.

Abbreviation M := (M EpollW).

Definition kernel {A} (m : Prelude.M K A) : M A :=
  zoom e_k (fun k w => mkEpoll k (e_interest w) (e_open w)) m.

(** [EPOLL_CTL_ADD] with [EPOLLIN | EPOLLET] and [EPOLL_CTL_DEL]. *)
Definition epoll_ctl_add (i : Z) : M Z :=
  w ← getS;
  if decide (is_Some (k_conns (e_k w) !! i) /\ i ∉ e_interest w) then
    modify (fun w => mkEpoll (e_k w) ({[i]} ∪ e_interest w) (e_open w)) ;; mret 0
  else mret (-1).
Definition epoll_ctl_del (i : Z) : M Z :=
  w ← getS;
  if decide (i ∈ e_interest w) then
    modify (fun w => mkEpoll (e_k w) (e_interest w ∖ {[i]}) (e_open w)) ;; mret 0
  else mret (-1).

(** What there is to report. *)
Definition available (w : EpollW) : gset Z :=
  filter (fun i => fd_ready l (e_k w) i = true)
    ({[l]} ∪ (e_interest w ∩ k_edge (e_k w))).

(** [epoll_wait]: at most [MX_EV] of them, in an order the kernel chooses; the
    connections among them have been reported. *)
Definition choose (order : list Z) (av : gset Z) : list Z :=
  take MX_EV (filter (fun i => i ∈ av) (remove_dups order) ++
              filter (fun i => i ∉ order) (elements av)).
Definition epoll_wait (order : list Z) : M (list Z) :=
  w ← getS;
  let events := choose order (available w) in
  kernel (modify (on_edge (fun e => e ∖ list_to_set events))) ;;
  mret events.

Definition epoll_accept (r : Round) : M unit :=
  conn_sock ← kernel (accept (l + 2) (r_accept r));
  epoll_ctl_add conn_sock ;;
  mret tt.

Definition epoll_data (r : Round) (i : Z) : M unit :=
  '(res, _) ← kernel (chat EDCRFV 40 i (r_send r i) junk);
  if decide (res = 0) then epoll_ctl_del i ;; kernel (close i) else mret tt.

Definition epoll_visit (r : Round) (i : Z) : M unit :=
  kernel (modify (net_run (r_net r i))) ;;
  if decide (i = l) then epoll_accept r else epoll_data r i.

(** One round; [false] is the [break] after five quiet seconds. *)
Definition epoll_round (r : Round) (order : list Z) : M bool :=
  kernel (modify (net_run (r_before r))) ;;
  if r_fail r then mret true
  else
    events ← epoll_wait order;
    match events with
    | [] => mret false
    | _ => forM events (epoll_visit r) ;; mret true
    end.

Fixpoint epoll_for (n : nat) (rs : list (Round * list Z)) : M bool :=
  match n, rs with
  | O, _ => mret true
  | S n, [] => mret false
  | S n, (r, order) :: rs =>
      go ← epoll_round r order;
      if (go : bool) then epoll_for n rs else mret true
  end.

Definition epoll_start (k : K) : EpollW := mkEpoll k ∅ true.

Definition epoll_server (rs : list (Round * list Z)) : M bool :=
  ended ← epoll_for 40 rs;
  whenM ended (
    modify (fun w => mkEpoll (e_k w) ∅ false) ;;
    kernel close_listener) ;;
  mret ended.

(** ** Well-formedness

    Every connection is registered.  [waits fds k]: the connections with unread
    data or a pending reset have news, or are among those of [fds] whose turn is
    still to come. *)

Definition pending (p : peer) : bool := p_err p || negb (bool_decide (p_in p = [])).

Record epoll_wf (fds : list Z) (w : EpollW) : Prop := {
  ew_interest : e_interest w = dom (k_conns (e_k w));
  ew_listener : k_conns (e_k w) !! l = None;
  ew_junk : length junk = 40%nat;
  ew_news : forall i p, k_conns (e_k w) !! i = Some p -> pending p = true ->
    i ∈ k_edge (e_k w) \/ i ∈ fds;
}.

Lemma epoll_wf_event fds w e :
  epoll_wf fds w -> epoll_wf fds (mkEpoll (net_event e (e_k w)) (e_interest w) (e_open w)).
Proof.
  intros [H1 H2 H3 H4]. split; simpl; try done.
  - by rewrite net_event_dom.
  - by rewrite <- not_elem_of_dom, net_event_dom, not_elem_of_dom.
  - assert (Ht : forall t f i p,
      k_conns (net_target t f (e_k w)) !! i = Some p ->
      pending p = true -> i ∈ k_edge (net_target t f (e_k w)) \/ i ∈ fds).
    { intros [j|n] f i p; simpl; [|by eauto]. case_decide; simpl; [|by eauto].
      rewrite elem_of_union, elem_of_singleton. destruct (decide (j = i)) as [->|Hne]; [by auto|].
      rewrite lookup_alter_ne by done. intros Hp Hpd. destruct (H4 i p Hp Hpd); auto. }
    destruct e; simpl; [destruct (k_listen (e_k w)); simpl; exact H4|apply Ht..].
Qed.

Lemma epoll_wf_net fds w es :
  epoll_wf fds w -> epoll_wf fds (mkEpoll (net_run es (e_k w)) (e_interest w) (e_open w)).
Proof.
  revert w. induction es as [|e es IH]; intros w Hw; [by destruct w|].
  apply (IH (mkEpoll (net_event e (e_k w)) (e_interest w) (e_open w))). by apply epoll_wf_event.
Qed.

(** ** The events of a round *)

Lemma choose_spec order av :
  NoDup (choose order av) /\ (forall i, i ∈ choose order av -> i ∈ av) /\
  (choose order av = [] -> av = ∅) /\ (length (choose order av) <= MX_EV)%nat.
Proof.
  unfold choose. set (all := filter _ (remove_dups order) ++ _).
  assert (Hin : forall i, i ∈ all <-> i ∈ av).
  { intros i. unfold all. rewrite elem_of_app, !list_elem_of_filter, elem_of_remove_dups, elem_of_elements.
    destruct (decide (i ∈ order)); naive_solver. }
  assert (Hnd : NoDup all).
  { apply NoDup_app. split_and!.
    - apply NoDup_filter, NoDup_remove_dups.
    - intros i. rewrite !list_elem_of_filter, elem_of_remove_dups. naive_solver.
    - apply NoDup_filter, NoDup_elements. }
  clearbody all. split_and!.
  - rewrite <- (take_drop MX_EV all) in Hnd. by apply NoDup_app in Hnd as [? _].
  - intros i Hi. apply Hin. rewrite <- (take_drop MX_EV all). apply elem_of_app. by left.
  - intros He. apply leibniz_equiv. intros i. split; [|set_solver]. intros Hi%Hin.
    destruct all; [by apply not_elem_of_nil in Hi|done].
  - rewrite length_take. lia.
Qed.

Abbreviation epoll_over := (round_over l (l + 2) EDCRFV 40).
Abbreviation epoll_ok := (fun r => turns_ok l (l + 2) EDCRFV 40 r 40 True).

(** ** The turn of a descriptor *)

Lemma epoll_accept_spec r rest w :
  epoll_wf (l :: rest) w -> k_backlog (e_k w) <> [] ->
  wp (epoll_accept r) (fun _ w' => epoll_wf rest w' /\
    e_k w' = take_peer (l + 2) (r_accept r) (e_k w)) w.
Proof.
  intros [H1 H2 H3 H4] Hb. pose proof (accept_takes (l + 2) (r_accept r) (e_k w) Hb) as Ha.
  assert (Hold : forall i p, k_conns (e_k w) !! i = Some p -> pending p = true ->
    i ∈ k_edge (e_k w) \/ i ∈ rest).
  { intros i p Hp Hpd. destruct (H4 i p Hp Hpd) as [|[->|]%elem_of_cons]; [by left| |by right].
    by rewrite H2 in Hp. }
  unfold epoll_accept, kernel, epoll_ctl_add. rewrite wp_bind, wp_zoom. eapply wp_ok; [exact Ha|].
  wp_simpl. simpl. destruct (k_backlog (e_k w)) as [|q bl] eqn:Eb; [done|].
  unfold take_peer in *. rewrite Eb in *. destruct (r_accept r); simpl.
  - pose proof (fresh_fd_unused (l + 2) (k_conns (e_k w))) as Hu.
    pose proof (fresh_fd_range (l + 2) (k_conns (e_k w))) as Hr.
    set (i := fresh_fd (l + 2) (k_conns (e_k w))) in *.
    rewrite decide_True.
    2:{ rewrite lookup_insert_eq, H1, elem_of_dom, Hu. split; [by eexists|by intros []]. }
    wp_simpl. split; [|done]. split; simpl; [|by rewrite lookup_insert_ne by lia|done|].
    + rewrite dom_insert_L, H1. done.
    + intros j p. destruct (decide (j = i)) as [->|Hne].
      * rewrite lookup_insert_eq. intros [= <-] Hpd. left. unfold ready, pending in *.
        rewrite Hpd. set_solver.
      * rewrite lookup_insert_ne by done. intros Hp Hpd. destruct (Hold j p Hp Hpd); [left|by right].
        destruct (ready q); set_solver.
  - rewrite decide_False; [wp_simpl; split; [by split|done]|].
    rewrite H1, elem_of_dom. tauto.
Qed.

Lemma epoll_data_spec r i rest w p :
  epoll_wf (i :: rest) w -> k_conns (e_k w) !! i = Some p -> ready p = true -> fits 40 40 p ->
  wp (epoll_data r i) (fun _ w' => epoll_wf rest w' /\
    e_k w' = serve EDCRFV 40 i (r_send r i) (e_k w)) w.
Proof.
  intros [H1 H2 H3 H4] Hp Hr Hfit. assert (i <> l) by (intros ->; congruence).
  unfold epoll_data, kernel, epoll_ctl_del. wp_simpl.
  destruct (chat_serves EDCRFV 40 i (r_send r i) junk (e_k w) p) as (n & b & k' & E & Hb & Hn & Hk);
    [done|done|lia|by rewrite H3|by rewrite H3|done|].
  eapply wp_ok; [exact E|]. wp_simpl.
  assert (Hself := serve_self EDCRFV 40 i (r_send r i) (e_k w) p ltac:(lia) Hp).
  assert (Hoth := fun j => serve_other EDCRFV 40 i (r_send r i) (e_k w) j).
  destruct (at_end p) eqn:Ea.
  - destruct Hk as [-> Hs]. rewrite Hs, decide_True by (by apply Hn). wp_simpl. simpl.
    rewrite decide_True by (rewrite H1, elem_of_dom; by eexists). wp_simpl. split; [|done].
    split; simpl; [|by rewrite lookup_delete_ne|done|].
    + by rewrite dom_delete_L, H1.
    + intros j q. destruct (decide (j = i)) as [->|Hne]; [by rewrite lookup_delete_eq|].
      rewrite lookup_delete_ne by done. intros Hq Hpd.
      destruct (H4 j q Hq Hpd) as [|[->|]%elem_of_cons]; [left; set_solver|done|by right].
  - subst k'. rewrite decide_False by (intros ?%Hn; done). wp_simpl. split; [|done].
    assert (Hedge : k_edge (serve EDCRFV 40 i (r_send r i) (e_k w)) = k_edge (e_k w)).
    { unfold serve. rewrite Hp. unfold at_end in Ea. destruct (p_err p); [done|]. simpl in Ea. by rewrite Ea. }
    split; simpl; [|by rewrite Hoth|done|].
    + rewrite H1. apply leibniz_equiv. intros j. rewrite !elem_of_dom.
      destruct (decide (j = i)) as [->|Hne]; [|by rewrite Hoth]. rewrite Hself, Hp. unfold served, at_end in *.
      destruct (p_err p); simpl in *; [|rewrite Ea]; split; by eexists.
    + intros j q. destruct (decide (j = i)) as [->|Hne].
      * rewrite Hself. unfold served, at_end in *. destruct (p_err p) eqn:Ee; simpl in *; [by intros [= <-]|].
        rewrite Ea. intros [= <-]. unfold pending. simpl. rewrite drop_ge; [done|].
        destruct Hfit as [|Hfit]; [congruence|lia].
      * rewrite Hoth by done. intros Hq Hpd. rewrite Hedge.
        destruct (H4 j q Hq Hpd) as [|[->|]%elem_of_cons]; [by left|done|by right].
Qed.

Lemma epoll_data_overflow r i w p :
  length junk = 40%nat -> k_conns (e_k w) !! i = Some p -> ready p = true -> ~ fits 40 40 p ->
  epoll_data r i w = UB.
Proof.
  intros Hj Hp Hr Hfit. unfold epoll_data, kernel, zoom, mbind, M_bind.
  pose proof (chat_overflows EDCRFV i (r_send r i) junk (e_k w) p Hp Hr) as Ho.
  rewrite Hj in Ho. change (Z.of_nat 40) with 40 in Ho. by rewrite Ho.
Qed.

Lemma epoll_visit_spec r i rest w :
  epoll_wf (i :: rest) w -> fd_ready l (e_k w) i = true ->
  (turn_ok l 40 40 True i (net_run (r_net r i) (e_k w)) ->
   wp (epoll_visit r i) (fun _ w' => epoll_wf rest w' /\
     e_k w' = visit l (l + 2) EDCRFV 40 r (e_k w) i) w) /\
  (~ turn_ok l 40 40 True i (net_run (r_net r i) (e_k w)) -> epoll_visit r i w = UB).
Proof.
  intros Hw Hr. set (k1 := net_run (r_net r i) (e_k w)).
  set (w1 := mkEpoll k1 (e_interest w) (e_open w)).
  assert (Hw1 : epoll_wf (i :: rest) w1) by by apply epoll_wf_net.
  assert (Hr1 : fd_ready l (e_k w1) i = true) by by apply net_run_ready.
  assert (E : epoll_visit r i w = (if decide (i = l) then epoll_accept r else epoll_data r i) w1) by done.
  assert (Ev : visit l (l + 2) EDCRFV 40 r (e_k w) i =
    if decide (i = l) then take_peer (l + 2) (r_accept r) (e_k w1)
    else serve EDCRFV 40 i (r_send r i) (e_k w1)) by done.
  rewrite Ev. unfold wp. rewrite E. unfold turn_ok. destruct (decide (i = l)) as [->|Hi].
  - split; [intros _|done]. apply epoll_accept_spec; [done|by apply (fd_ready_backlog l)].
  - destruct (fd_ready_conn l _ _ Hi Hr1) as (p & Hp & Hpr). change k1 with (e_k w1). rewrite Hp. split.
    + intros Hfit. by apply (epoll_data_spec r i rest w1 p).
    + intros Hfit. apply (epoll_data_overflow r i w1 p); try done. apply Hw1.
Qed.

Lemma epoll_visits_spec r fds w :
  epoll_wf fds w -> NoDup fds -> (forall i, i ∈ fds -> fd_ready l (e_k w) i = true) ->
  (epoll_ok r fds (e_k w) ->
   wp (forM fds (epoll_visit r)) (fun _ w' => epoll_wf [] w' /\ e_k w' = epoll_over r fds (e_k w)) w) /\
  (~ epoll_ok r fds (e_k w) -> forM fds (epoll_visit r) w = UB).
Proof.
  revert w. induction fds as [|i fds IH]; intros w Hw Hnd Hready; [by split|].
  apply NoDup_cons in Hnd as [Hni Hnd].
  destruct (epoll_visit_spec r i fds w Hw (Hready i ltac:(left))) as [Hok Hub].
  simpl. unfold mbind, M_bind, wp in *.
  destruct (decide (turn_ok l 40 40 True i (net_run (r_net r i) (e_k w)))) as [Ht|Ht].
  2:{ rewrite (Hub Ht). split; [intros []; done|done]. }
  specialize (Hok Ht). destruct (epoll_visit r i w) as [[[] w1]| |]; [|done|done].
  destruct Hok as [Hw1 Hk1]. rewrite <- Hk1.
  destruct (IH w1 Hw1 Hnd) as [H1 H2].
  { intros j Hj. rewrite Hk1. apply visit_ready; [by intros ->|]. apply Hready. by right. }
  split; [intros [_ ?]; by apply H1|]. intros Hn. apply H2. tauto.
Qed.

(** ** A round *)

(** When [epoll_wait] answers, and what it reports. *)
Definition at_wait (r : Round) (w : EpollW) : EpollW :=
  mkEpoll (net_run (r_before r) (e_k w)) (e_interest w) (e_open w).
Definition reported (r : Round) (order : list Z) (w : EpollW) : list Z :=
  choose order (available (at_wait r w)).
(** The kernel after that. *)
Definition told (r : Round) (order : list Z) (w : EpollW) : K :=
  on_edge (fun e => e ∖ list_to_set (reported r order w)) (e_k (at_wait r w)).

Definition epoll_defined (r : Round) (order : list Z) (w : EpollW) : Prop :=
  r_fail r = true \/ epoll_ok r (reported r order w) (told r order w).

#[export] Instance epoll_defined_dec r order w : Decision (epoll_defined r order w).
Proof. unfold epoll_defined. apply _. Defined.

Lemma epoll_round_spec r order w :
  epoll_wf [] w ->
  (epoll_defined r order w ->
   wp (epoll_round r order) (fun go w' => epoll_wf [] w' /\
     if r_fail r then go = true /\ e_k w' = e_k (at_wait r w)
     else go = negb (bool_decide (reported r order w = [])) /\
       e_k w' = epoll_over r (reported r order w) (told r order w)) w) /\
  (~ epoll_defined r order w -> epoll_round r order w = UB).
Proof.
  intros Hw. set (w1 := at_wait r w).
  assert (Hw1 : epoll_wf [] w1) by by apply epoll_wf_net.
  set (w2 := mkEpoll (told r order w) (e_interest w) (e_open w)).
  destruct (choose_spec order (available w1)) as (Hnd & Hav & _ & _).
  assert (Hw2 : epoll_wf (reported r order w) w2).
  { destruct Hw1 as [H1 H2 H3 H4]. split; [done..|]. simpl. intros i p Hp Hpd.
    destruct (H4 i p Hp Hpd) as [Hi|Hi%not_elem_of_nil]; [|done].
    destruct (decide (i ∈ reported r order w)); [by right|left]. simpl.
    apply elem_of_difference. by rewrite elem_of_list_to_set. }
  assert (Hrd : forall i, i ∈ reported r order w -> fd_ready l (e_k w2) i = true).
  { intros i Hi. by apply Hav, elem_of_filter in Hi as [? _]. }
  destruct (epoll_visits_spec r (reported r order w) w2 Hw2 Hnd Hrd) as [Hok Hub].
  assert (E : epoll_round r order w =
    if r_fail r then Ok (true, w1)
    else match reported r order w with
         | [] => Ok (false, w2)
         | fds => (forM fds (epoll_visit r) ;; mret true) w2
         end).
  { unfold epoll_round. rewrite (M_bind_ok _ _ _ tt w1) by done. destruct (r_fail r); [done|].
    rewrite (M_bind_ok _ _ _ (reported r order w) w2) by done.
    by destruct (reported r order w). }
  unfold wp, epoll_defined. rewrite E. destruct (r_fail r); [split; [done|by intros []; left]|].
  destruct (reported r order w) as [|i fds] eqn:Er; [split; [by split|by intros []; right]|].
  split.
  - intros [|Ht]; [done|]. apply wp_inv in Hok as ([] & w3 & E3 & H3 & Hk3); [|done].
    rewrite (M_bind_ok _ _ _ _ _ E3). by split_and!.
  - intros Hn. unfold mbind, M_bind. rewrite Hub by tauto. done.
Qed.

(** ** Connections the server forgets

    The peer has closed, everything it sent has been read, and the report was
    used up before the end of file could be read. *)

Definition stalled (i : Z) (k : K) : Prop :=
  (exists p, k_conns k !! i = Some p /\ p_in p = [] /\ p_fin p = true /\ p_err p = false) /\
  i ∉ k_edge k.

(** Nothing more happens on descriptor [i]. *)
Definition leaves_alone (i : Z) (e : nevent) : Prop :=
  match e with
  | NConnect => True
  | NData t _ | NFin t | NReset t => t <> Fd i
  end.
Definition silent (i : Z) (r : Round) : Prop :=
  Forall (leaves_alone i) (r_before r) /\ forall j, Forall (leaves_alone i) (r_net r j).

Lemma stalled_net i es k : Forall (leaves_alone i) es -> stalled i k -> stalled i (net_run es k).
Proof.
  intros H. revert k. induction H as [|e es He _ IH]; intros k [(p & Hp & Hs) Hi]; [split; [by exists p|done]|].
  apply IH.
  assert (Ht : forall t f, t <> Fd i -> stalled i (net_target t f k)).
  { intros [j|n] f Hne; unfold stalled; simpl; [|split; [by exists p|done]].
    case_decide; simpl; [|split; [by exists p|done]]. assert (j <> i) by congruence.
    rewrite lookup_alter_ne by done. split; [by exists p|set_solver]. }
  destruct e; simpl in *; [|by apply Ht..].
  destruct (k_listen k); (split; [by exists p|done]).
Qed.

Lemma stalled_visit i j r k :
  k_conns k !! l = None -> j <> i -> silent i r -> stalled i k ->
  stalled i (visit l (l + 2) EDCRFV 40 r k j) .
Proof.
  intros Hl Hji [_ Hq] Hs. unfold visit.
  apply (stalled_net i (r_net r j)) in Hs; [|done]. set (k1 := net_run (r_net r j) k) in *. clearbody k1.
  destruct Hs as [(p & Hp & Hs) Hi]. case_decide.
  - unfold take_peer. destruct (k_backlog k1) as [|q bl]; [split; [by exists p|done]|].
    destruct (r_accept r); [|split; [by exists p|done]].
    assert (fresh_fd (l + 2) (k_conns k1) <> i) by (intros E; by rewrite <- E, fresh_fd_unused in Hp).
    split; simpl; [rewrite lookup_insert_ne by done; by exists p|]. destruct (ready q); set_solver.
  - split; [rewrite serve_other by done; by exists p|].
    unfold serve. destruct (k_conns k1 !! j) as [q|]; [|done].
    destruct (p_err q); [done|]. case_bool_decide; simpl; set_solver.
Qed.

Lemma visit_listener r k j : k_conns k !! l = None -> k_conns (visit l (l + 2) EDCRFV 40 r k j) !! l = None.
Proof.
  intros Hl. unfold visit. assert (Hl1 : k_conns (net_run (r_net r j) k) !! l = None).
  { by rewrite <- not_elem_of_dom, net_run_dom, not_elem_of_dom. }
  set (k1 := net_run (r_net r j) k) in *. clearbody k1. case_decide.
  - unfold take_peer. destruct (k_backlog k1); [done|]. destruct (r_accept r); [|done]. simpl.
    pose proof (fresh_fd_range (l + 2) (k_conns k1)). by rewrite lookup_insert_ne by lia.
  - by rewrite serve_other.
Qed.

Lemma stalled_over i r fds k :
  k_conns k !! l = None -> i ∉ fds -> silent i r -> stalled i k ->
  stalled i (epoll_over r fds k).
Proof.
  revert k. unfold round_over. induction fds as [|j fds IH]; intros k Hl Hi Hq Hs; [done|].
  apply not_elem_of_cons in Hi as [Hne Hi]. simpl. apply IH; [by apply visit_listener|done|done|].
  by apply stalled_visit.
Qed.

(** Any sequence of rounds. *)
Lemma epoll_for_wf n rs w ended w' :
  epoll_wf [] w -> epoll_for n rs w = Ok (ended, w') ->
  epoll_wf [] w' /\ ((n <= length rs)%nat -> ended = true) /\
  forall i, Forall (fun rd => silent i rd.1) rs -> stalled i (e_k w) -> stalled i (e_k w').
Proof.
  revert rs w. induction n as [|n IH]; intros rs w Hw; simpl; [by intros [= <- <-]|].
  destruct rs as [|[r order] rs]; [intros [= <- <-]; split; [done|split; [simpl; lia|done]]|].
  unfold mbind, M_bind. destruct (epoll_round_spec r order w Hw) as [Hok Hub].
  destruct (decide (epoll_defined r order w)) as [Hd|Hd]; [|by rewrite Hub].
  apply wp_inv in Hok as (go & w1 & E & Hw1 & Hk); [|done]. rewrite E.
  assert (Hst : forall i, silent i r -> stalled i (e_k w) -> stalled i (e_k w1)).
  { intros i Hq Hs. pose proof (ew_listener _ _ Hw) as Hl.
    assert (Hl1 : k_conns (net_run (r_before r) (e_k w)) !! l = None).
    { by rewrite <- not_elem_of_dom, net_run_dom, not_elem_of_dom. }
    apply (stalled_net i (r_before r)) in Hs; [|apply Hq].
    destruct (r_fail r); [by destruct Hk as [_ ->]|]. destruct Hk as [_ ->].
    destruct (choose_spec order (available (at_wait r w))) as (_ & Hav & _ & _).
    apply stalled_over; [done| |done|].
    - intros Hin%Hav. unfold available in Hin. apply elem_of_filter in Hin as [_ Hin].
      destruct Hs as [(p & Hp & _) Hi]. apply elem_of_union in Hin as [->%elem_of_singleton|Hin]; [congruence|].
      by apply elem_of_intersection in Hin as [_ ?].
    - destruct Hs as [Hs Hi]. split; [done|]. unfold told. simpl. set_solver. }
  destruct go; simpl.
  - intros E2. destruct (IH rs w1 Hw1 E2) as (H1 & H2 & H3). split_and!; [done|intros; apply H2; simpl in *; lia|].
    intros i [Hq Hqs]%Forall_cons Hs. by apply H3, Hst.
  - intros [= <- <-]. split_and!; [done|done|]. intros i [Hq _]%Forall_cons Hs. by apply Hst.
Qed.

Lemma epoll_start_wf k : length junk = 40%nat -> k_conns k = ∅ -> epoll_wf [] (epoll_start k).
Proof.
  intros Hj Hk. split; simpl; try done; rewrite Hk; [by rewrite dom_empty_L|done|].
  intros i p. by rewrite lookup_empty.
Qed.
End epoll_server.

(** A round of the [epoll] server refines the round the network sees: the at most
    ten descriptors [epoll_wait] reports get their turn in its order, and the state
    stays well formed (every connection is registered, every connection with unread
    data or a pending reset has unreported news).  The one exception is a connection
    with forty bytes or more to read: its terminator is written behind [buf], and
    the round is undefined. *)
Theorem epoll_round_refines l junk r order w :
  epoll_wf l junk [] w ->
  (epoll_defined l r order w ->
   wp (epoll_round l junk r order) (fun go w' => epoll_wf l junk [] w' /\
     if r_fail r then go = true /\ e_k w' = e_k (at_wait r w)
     else go = negb (bool_decide (reported l r order w = [])) /\
       e_k w' = round_over l (l + 2) EDCRFV 40 r (reported l r order w) (told l r order w)) w) /\
  (~ epoll_defined l r order w -> epoll_round l junk r order w = UB).
Proof. apply epoll_round_spec. Qed.

(** With edge-triggered events the [epoll] server loses no data: in every state its
    rounds lead to, a connection with unread data, or a reset the server has not
    seen, is among those the next [epoll_wait] has to report; and forty rounds end
    the loop. *)
Theorem epoll_data_never_stalls l junk k n rs ended w :
  length junk = 40%nat -> k_conns k = ∅ ->
  epoll_for l junk n rs (epoll_start k) = Ok (ended, w) ->
  (forall i p, k_conns (e_k w) !! i = Some p -> p_in p <> [] \/ p_err p = true ->
     i ∈ available l w) /\
  ((n <= length rs)%nat -> ended = true).
Proof.
  intros Hj Hk E.
  destruct (epoll_for_wf l junk n rs _ ended w (epoll_start_wf l junk k Hj Hk) E) as (Hw & He & _).
  split; [|done]. intros i p Hp Hor.
  assert (Hpd : pending p = true).
  { unfold pending. destruct Hor as [Hin|Herr]; [|by rewrite Herr].
    by rewrite bool_decide_eq_false_2, orb_true_r. }
  unfold available. apply elem_of_filter. split.
  - unfold fd_ready. rewrite decide_False by (intros ->; by rewrite (ew_listener _ _ _ _ Hw) in Hp).
    rewrite Hp. unfold ready, pending in *. by rewrite Hpd.
  - destruct (ew_news _ _ _ _ Hw i p Hp Hpd) as [Hi|Hi%not_elem_of_nil]; [|done].
    apply elem_of_union_r, elem_of_intersection. split; [|done].
    rewrite (ew_interest _ _ _ _ Hw). apply elem_of_dom. by eexists.
Qed.

(** But it forgets connections: one whose peer closed right behind its last data has
    its end of file left unread after the single [recv] of its report; it is never
    reported again, so the descriptor stays open however long the server runs. *)
Theorem epoll_fin_stalls l junk n rs w i ended w' :
  epoll_wf l junk [] w -> stalled i (e_k w) -> Forall (fun rd => silent i rd.1) rs ->
  epoll_for l junk n rs w = Ok (ended, w') ->
  stalled i (e_k w') /\ i ∉ available l w'.
Proof.
  intros Hw Hs Hq E. destruct (epoll_for_wf l junk n rs w ended w' Hw E) as (Hw' & _ & Hst).
  specialize (Hst i Hq Hs). split; [done|]. destruct Hst as [(p & Hp & _) Hi].
  unfold available. intros [_ [->%elem_of_singleton|[_ ?]%elem_of_intersection]%elem_of_union]%elem_of_filter.
  - by rewrite (ew_listener _ _ _ _ Hw') in Hp.
  - done.
Qed.

Definition junk_start : bytes := replicate 40 "?"%char.

(** A client says hi and closes at once. *)
Definition hasty : list (Round * list Z) :=
  [(plain_round [NConnect], []); (plain_round [NData (Fd 5) (str "hi"); NFin (Fd 5)], [])].

Definition hasty_state : EpollW :=
  mkEpoll (mkK true [] {[5 := Peer [] true false EDCRFV]} ∅ [(5, 2, str "hi")]) {[5]} true.

Example epoll_says_hello : epoll_for 3 junk_start 2 hasty (epoll_start K_start) = Ok (true, hasty_state).
Proof. vm_compute. reflexivity. Qed.

Lemma epoll_round_refines_witness :
  let r := plain_round [NConnect] in
  let w := epoll_start K_start in
  (epoll_defined 3 r [] w ->
   wp (epoll_round 3 junk_start r []) (fun go w' => epoll_wf 3 junk_start [] w' /\
     if r_fail r then go = true /\ e_k w' = e_k (at_wait r w)
     else go = negb (bool_decide (reported 3 r [] w = [])) /\
       e_k w' = round_over 3 5 EDCRFV 40 r (reported 3 r [] w) (told 3 r [] w)) w) /\
  (~ epoll_defined 3 r [] w -> epoll_round 3 junk_start r [] w = UB).
Proof.
  apply (epoll_round_refines 3 junk_start (plain_round [NConnect]) [] (epoll_start K_start)).
  by apply epoll_start_wf.
Defined.

Lemma epoll_data_never_stalls_witness :
  (forall i p, k_conns (e_k hasty_state) !! i = Some p -> p_in p <> [] \/ p_err p = true ->
     i ∈ available 3 hasty_state) /\
  ((2 <= length hasty)%nat -> true = true).
Proof.
  apply (epoll_data_never_stalls 3 junk_start K_start 2 hasty true hasty_state);
    [done|done|apply epoll_says_hello].
Defined.

(** The connection of the hasty client is stalled, and stays so through the rounds of
    another client. *)
Definition later : list (Round * list Z) :=
  [(plain_round [NConnect], []); (plain_round [NData (Fd 6) (str "ho")], [])].
Definition later_state : EpollW :=
  mkEpoll (mkK true [] {[5 := Peer [] true false EDCRFV; 6 := Peer [] false false EDCRFV]} ∅
    [(5, 2, str "hi"); (6, 2, str "ho")]) {[5; 6]} true.

Lemma epoll_fin_stalls_witness :
  stalled 5 (e_k later_state) /\ 5 ∉ available 3 later_state.
Proof.
  apply (epoll_fin_stalls 3 junk_start 2 later hasty_state 5 true later_state).
  - apply (epoll_for_wf 3 junk_start 2 hasty (epoll_start K_start) true hasty_state);
      [by apply epoll_start_wf|apply epoll_says_hello].
  - split; [by eexists|]. apply not_elem_of_empty.
  - repeat constructor; discriminate.
  - vm_compute. reflexivity.
Defined.
