(* ===== verification/Compress.v ===== *)
(** * Compressing photos and videos ([cmd_ffmpeg/ckb_ffmpeg_compress_mp4_and_jpg.m.cpp])

    The program walks a directory tree, lets [ffmpeg] write [x_COMPRESS.jpg] for
    every [x.jpg] (and [.mp4] likewise) and removes the original.  The file system
    maps paths to contents; a directory is the list of entries its iterator
    yields, in any order, files written on the way included or not.

    [popen] runs the command through the shell, whose word splitting is modelled
    as far as the command needs it: blanks, single quotes, plain characters.
    What [ffmpeg] does, and a shell with other metacharacters, are arguments. *)

From S2P Require Import Prelude CppInt.

(** ** The shell *)

Definition quote : Ascii.ascii := "'"%char.
Definition blank : Ascii.ascii := " "%char.

(** The characters with a meaning of their own outside quotes. *)
Definition special : bytes := str "$`;&|<>(){}*?[]#~=%!\" ++ ["009"%char; "010"%char; "034"%char].
Definition plain (c : Ascii.ascii) : Prop := c <> quote /\ c <> blank /\ c ∉ special.

#[export] Instance plain_dec c : Decision (plain c).
Proof. unfold plain. apply _. Defined.

(** Word splitting: [None] when something else than words is meant. *)
Fixpoint sh (quoted : bool) (word : option bytes) (s : bytes) : option (list bytes) :=
  match s with
  | [] => if quoted then None else Some (option_list word)
  | c :: s =>
      if quoted then
        if decide (c = quote) then sh false word s
        else sh true (Some (default [] word ++ [c])) s
      else if decide (c = quote) then sh true (Some (default [] word)) s
      else if decide (c = blank) then
        match word with
        | Some w => (fun ws => w :: ws) <$> sh false None s
        | None => sh false None s
        end
      else if decide (c ∈ special) then None
      else sh false (Some (default [] word ++ [c])) s
  end.
Definition sh_words (s : bytes) : option (list bytes) := sh false None s.

(** ** Names *)

Definition ends_with (suf s : bytes) : bool :=
  bool_decide (length suf <= length s)%nat && bool_decide (drop (length s - length suf) s = suf).

Definition jpg : bytes := str ".jpg".
Definition mp4 : bytes := str ".mp4".
Definition COMPRESS : bytes := str "_COMPRESS".

Definition command (in_path out_path : bytes) : bytes :=
  str "ffmpeg -i '" ++ in_path ++ str "' -threads 4 -preset faster '" ++ out_path ++ str "'".

Definition ffmpeg_args (in_path out_path : bytes) : list bytes :=
  [str "ffmpeg"; str "-i"; in_path; str "-threads"; str "4"; str "-preset"; str "faster"; out_path].

(** ** The program *)

Inductive entry : Type :=
  | File (path : bytes)
  | Dir (path : bytes) (entries : list entry).

Section compress.
Context {D : Type}.
(** The programs the shell can start, and what the shell does otherwise. *)
Context (exec : list bytes -> gmap bytes D -> gmap bytes D).
Context (shell_other : bytes -> gmap bytes D -> gmap bytes D).
(** Whether [popen] fails for a command. *)
Context (popen_fails : bytes -> bool).

Abbreviation M := (M (gmap bytes D)).

Definition popen (cmd : bytes) (fs : gmap bytes D) : gmap bytes D :=
  match sh_words cmd with
  | Some words => exec words fs
  | None => shell_other cmd fs
  end.

Definition compress_by_ffmpeg (in_path out_path : bytes) : M unit :=
  let cmd := command in_path out_path in
  if popen_fails cmd then throwM (ExnNamed "exit(1)")
  else modify (popen cmd).

Definition process_mp4 (in_path : bytes) : M bool :=
  if ends_with (COMPRESS ++ mp4) in_path then mret false
  else
    let out_path := take (length in_path - 4) in_path ++ COMPRESS ++ mp4 in
    compress_by_ffmpeg in_path out_path ;;
    mret true.

Definition process_jpg (in_path : bytes) : M bool :=
  if ends_with (COMPRESS ++ jpg) in_path then mret false
  else
    let out_path := take (length in_path - 4) in_path ++ COMPRESS ++ jpg in
    compress_by_ffmpeg in_path out_path ;;
    mret true.

Definition process_file (in_path : bytes) : M unit :=
  ok ← (if ends_with jpg in_path then process_jpg in_path
        else if ends_with mp4 in_path then process_mp4 in_path
        else mret false);
  if (ok : bool) then modify (delete in_path) else mret tt.

Fixpoint visit (e : entry) : M unit :=
  match e with
  | Dir _ es =>
      (fix scan (es : list entry) : M unit :=
         match es with
         | [] => mret tt
         | e :: es => visit e ;; scan es
         end) es
  | File p => process_file p
  end.

Definition scan_file_compress (es : list entry) : M unit := forM es visit.

(** ** The files of a tree *)

Fixpoint files_of (e : entry) : list bytes :=
  match e with
  | File p => [p]
  | Dir _ es => (fix files (es : list entry) : list bytes :=
      match es with [] => [] | e :: es => files_of e ++ files es end) es
  end.
Definition files (es : list entry) : list bytes := concat (map files_of es).
End compress.

(** Induction on a tree whose nodes hold lists of trees. *)
Section entry_induction.
Context (P : entry -> Prop) (Q : list entry -> Prop).
Context (HFile : forall p, P (File p)) (HDir : forall p es, Q es -> P (Dir p es)).
Context (Hnil : Q []) (Hcons : forall e es, P e -> Q es -> Q (e :: es)).

Fixpoint entry_rect' (e : entry) : P e :=
  match e with
  | File p => HFile p
  | Dir p es => HDir p es
      ((fix go (es : list entry) : Q es :=
          match es with [] => Hnil | e :: es => Hcons e es (entry_rect' e) (go es) end) es)
  end.

Lemma entries_rect' es : Q es.
Proof. induction es as [|e es IH]; [exact Hnil|]. apply Hcons; [apply entry_rect'|done]. Qed.
End entry_induction.

(** ** What the shell makes of the command *)

Lemma sh_quoted s t u : quote ∉ s -> sh true (Some u) (s ++ quote :: t) = sh false (Some (u ++ s)) t.
Proof.
  revert u. induction s as [|c s IH]; intros u Hs; simpl; [by rewrite app_nil_r|].
  apply not_elem_of_cons in Hs as [Hc Hs]. rewrite decide_False by done.
  by rewrite (IH _ Hs), <- app_assoc.
Qed.

Lemma sh_plain s t u : Forall plain s -> sh false (Some u) (s ++ t) = sh false (Some (u ++ s)) t.
Proof.
  intros Hs. revert u. induction Hs as [|c s (H1 & H2 & H3) _ IH]; intros u; simpl; [by rewrite app_nil_r|].
  rewrite !decide_False by done. by rewrite IH, <- app_assoc.
Qed.

Lemma sh_open t u : sh false (Some u) (quote :: t) = sh true (Some u) t.
Proof. done. Qed.

Lemma sh_end u : sh false (Some u) [] = Some [u].
Proof. done. Qed.

(** Up to the first quote. *)
Lemma command_head i o :
  sh_words (command i o) =
  (fun ws => str "ffmpeg" :: str "-i" :: ws) <$>
    sh true (Some []) (i ++ quote :: str " -threads 4 -preset faster " ++ quote :: o ++ [quote]).
Proof.
  unfold sh_words, command. simpl. by rewrite <- option_fmap_compose.
Qed.

Lemma option_fmap_id' {A} (o : option A) (f : A -> A) : (forall x, f x = x) -> f <$> o = o.
Proof. intros H. destruct o; simpl; [by rewrite H|done]. Qed.

(** Paths without quotes arrive as they are. *)
Lemma command_words i o :
  quote ∉ i -> quote ∉ o -> sh_words (command i o) = Some (ffmpeg_args i o).
Proof.
  intros Hi Ho. rewrite command_head, sh_quoted by done.
  assert (E : sh false (Some ([] ++ i)) (str " -threads 4 -preset faster " ++ quote :: o ++ [quote]) =
    (fun ws => i :: str "-threads" :: str "4" :: str "-preset" :: str "faster" :: ws) <$>
      sh true (Some []) (o ++ [quote])).
  { simpl. by rewrite <- !option_fmap_compose. }
  rewrite E, sh_quoted by done. done.
Qed.

(** One quote in the path, and the rest of the command is a single word. *)
Lemma command_words_apostrophe a b c :
  quote ∉ a -> Forall plain a -> Forall plain b -> Forall plain c -> quote ∉ c ->
  sh_words (command (a ++ quote :: b) (a ++ quote :: c)) =
  Some [str "ffmpeg"; str "-i"; a ++ b ++ str " -threads 4 -preset faster " ++ a ++ c].
Proof.
  intros Ha Hpa Hb Hc Hqc. rewrite command_head.
  rewrite <- !app_assoc, <- !app_comm_cons, sh_quoted by done.
  rewrite sh_plain, sh_open by done.
  rewrite sh_quoted by (intros H%list_elem_of_In; revert H; vm_compute; intuition discriminate).
  rewrite sh_plain, sh_open, sh_quoted, sh_end by done. by rewrite <- !app_assoc.
Qed.

(** ** Names of originals and results *)

Lemma ends_with_spec suf s : ends_with suf s = true <-> exists p, s = p ++ suf.
Proof.
  unfold ends_with. rewrite andb_true_iff, !bool_decide_eq_true. split.
  - intros [Hl Hd]. exists (take (length s - length suf) s). by rewrite <- Hd at 2; rewrite take_drop.
  - intros [p ->]. split; [list_lia|]. apply drop_app_length'. list_lia.
Qed.

Definition ext_of (p : bytes) : option bytes :=
  if ends_with jpg p then Some jpg else if ends_with mp4 p then Some mp4 else None.

(** What the program compresses, and the name of the result. *)
Definition is_target (p : bytes) : bool :=
  match ext_of p with
  | Some e => negb (ends_with (COMPRESS ++ e) p)
  | None => false
  end.
Definition result_of (p : bytes) : bytes :=
  match ext_of p with
  | Some e => take (length p - 4) p ++ COMPRESS ++ e
  | None => p
  end.

Lemma suffix_inj (p q s t : bytes) : p ++ s = q ++ t -> length s = length t -> p = q /\ s = t.
Proof. intros E Hl. by apply app_inj_2. Qed.

Lemma ext_of_spec p e :
  ext_of p = Some e <-> (e = jpg \/ e = mp4) /\ exists b, p = b ++ e.
Proof.
  unfold ext_of. destruct (ends_with jpg p) eqn:Ej.
  - apply ends_with_spec in Ej as [b ->]. split; [intros [= <-]; split; [by left|by exists b]|].
    intros [[->| ->] [b' E]]; [done|]. by apply suffix_inj in E as [_ [=]].
  - destruct (ends_with mp4 p) eqn:Em.
    + apply ends_with_spec in Em as [b ->]. split; [intros [= <-]; split; [by right|by exists b]|].
      intros [[->| ->] Hb]; [|done]. apply ends_with_spec in Hb. congruence.
    + split; [done|]. intros [[->| ->] Hb]; apply ends_with_spec in Hb; congruence.
Qed.

Lemma is_target_spec p :
  is_target p = true <->
  exists b e, (e = jpg \/ e = mp4) /\ p = b ++ e /\ ends_with COMPRESS b = false /\ result_of p = b ++ COMPRESS ++ e.
Proof.
  assert (Hcomp : forall b e, (e = jpg \/ e = mp4) -> ends_with (COMPRESS ++ e) (b ++ e) = ends_with COMPRESS b).
  { intros b e He. apply eq_true_iff_eq. rewrite !ends_with_spec. split; intros [q E].
    - exists q. rewrite app_assoc in E. by apply suffix_inj in E as [-> _].
    - exists q. by rewrite E, app_assoc. }
  assert (Hres : forall b e, (e = jpg \/ e = mp4) -> ext_of (b ++ e) = Some e -> result_of (b ++ e) = b ++ COMPRESS ++ e).
  { intros b e He Ee. unfold result_of. rewrite Ee. f_equal. apply take_app_length'.
    destruct He as [->| ->]; rewrite length_app; simpl; lia. }
  unfold is_target. split.
  - destruct (ext_of p) as [e|] eqn:Ee; [|done]. intros Hn. pose proof Ee as Ee'.
    apply ext_of_spec in Ee as [He [b ->]]. exists b, e. rewrite negb_true_iff, Hcomp in Hn by done.
    split_and!; [done|done|done|by apply Hres].
  - intros (b & e & He & -> & Hb & _).
    assert (Ee : ext_of (b ++ e) = Some e) by (apply ext_of_spec; eauto).
    by rewrite Ee, Hcomp, Hb by done.
Qed.

(** Results are not compressed again, and do not clash. *)
Lemma result_not_target p : is_target p = true -> is_target (result_of p) = false.
Proof.
  intros (b & e & He & -> & Hb & Hr)%is_target_spec. rewrite Hr.
  apply not_true_is_false. intros (b' & e' & He' & E & Hb' & _)%is_target_spec.
  rewrite app_assoc in E. apply suffix_inj in E as [E _].
  - assert (ends_with COMPRESS b' = true) by (apply ends_with_spec; eauto). congruence.
  - by destruct He as [->| ->], He' as [->| ->].
Qed.

Lemma result_inj p q : is_target p = true -> is_target q = true -> result_of p = result_of q -> p = q.
Proof.
  intros (b & e & He & -> & _ & Hr)%is_target_spec (b' & e' & He' & -> & _ & Hr')%is_target_spec.
  rewrite Hr, Hr'. intros E. apply suffix_inj in E as [-> E].
  - by apply app_inv_head in E as ->.
  - by destruct He as [->| ->], He' as [->| ->].
Qed.

Lemma no_quote_result p : is_target p = true -> quote ∉ p -> quote ∉ result_of p.
Proof.
  intros (b & e & He & -> & _ & Hr)%is_target_spec. rewrite Hr. rewrite !not_elem_of_app.
  intros [Hb He']. split_and!; [done| |done].
  intros H%list_elem_of_In. revert H. vm_compute. intuition discriminate.
Qed.

(** ** What the program does *)

Lemma forM_app {S A} (l l' : list A) (body : A -> Prelude.M S unit) s :
  forM (l ++ l') body s = (forM l body ;; forM l' body) s.
Proof.
  revert s. induction l as [|x l IH]; intros s; [done|]. simpl. unfold mbind, M_bind in *.
  destruct (body x s) as [[? s1]| |]; [apply IH|done|done].
Qed.

Section behaviour.
Context {D : Type}.
Context (exec : list bytes -> gmap bytes D -> gmap bytes D).
Context (shell_other : bytes -> gmap bytes D -> gmap bytes D).
Context (popen_fails : bytes -> bool).

Abbreviation process_one := (process_file exec shell_other popen_fails).
Abbreviation scan := (scan_file_compress exec shell_other popen_fails).

Lemma files_of_dir p es : files_of (Dir p es) = files es.
Proof. unfold files. simpl. induction es as [|e es IH]; [done|]. simpl. by f_equal. Qed.

Lemma visit_dir p es fs : visit exec shell_other popen_fails (Dir p es) fs = scan es fs.
Proof.
  unfold scan_file_compress. simpl. revert fs. induction es as [|e es IH]; intros fs; [done|].
  simpl. unfold mbind, M_bind.
  destruct (visit exec shell_other popen_fails e fs) as [[? fs1]| |]; [apply IH|done|done].
Qed.

(** The walk of the tree is the walk of its files. *)
Lemma scan_files es fs : scan es fs = forM (files es) process_one fs.
Proof.
  revert fs. apply (entries_rect'
    (fun e => forall fs, visit exec shell_other popen_fails e fs = forM (files_of e) process_one fs)
    (fun es => forall fs, scan es fs = forM (files es) process_one fs)).
  - intros p fs. simpl. unfold mbind, M_bind, mret, M_ret.
    by destruct (process_one p fs) as [[[] ?]| |].
  - intros p es' IH fs. by rewrite visit_dir, files_of_dir.
  - done.
  - intros e es' He Hes fs. unfold files. simpl. rewrite forM_app.
    unfold scan_file_compress in *. simpl. unfold mbind, M_bind. rewrite <- He.
    destruct (visit exec shell_other popen_fails e fs) as [[? fs1]| |]; [apply Hes|done|done].
Qed.

(** ** One file *)

Context (encode : D -> option D).

(** [ffmpeg] on one file: it writes the result, unless there is no such input, it
    cannot decode it, or the output exists already (it asks, and nobody answers). *)
Definition transcode (i o : bytes) (fs : gmap bytes D) : gmap bytes D :=
  match fs !! i with
  | Some d =>
      match encode d, fs !! o with
      | Some d', None => <[o := d']> fs
      | _, _ => fs
      end
  | None => fs
  end.

Class Ffmpeg : Prop := {
  ffmpeg_runs i o fs : exec (ffmpeg_args i o) fs = transcode i o fs;
  ffmpeg_no_output x fs : exec [str "ffmpeg"; str "-i"; x] fs = fs;
}.

Lemma process_file_other p fs : is_target p = false -> process_one p fs = Ok (tt, fs).
Proof.
  unfold is_target, ext_of, process_file, process_jpg, process_mp4, mbind, M_bind.
  destruct (ends_with jpg p); [|destruct (ends_with mp4 p)]; [intros ->%negb_false_iff; done..|done].
Qed.

Lemma process_file_target p fs :
  is_target p = true -> popen_fails (command p (result_of p)) = false ->
  process_one p fs = Ok (tt, delete p (popen exec shell_other (command p (result_of p)) fs)).
Proof.
  unfold is_target, result_of, ext_of, process_file, process_jpg, process_mp4,
    compress_by_ffmpeg, mbind, M_bind, modify, mret, M_ret.
  destruct (ends_with jpg p); [|destruct (ends_with mp4 p)]; [intros ->%negb_true_iff..|done];
    intros ->; done.
Qed.

(** A file whose path has no quote. *)
Lemma process_file_ffmpeg `{Ffmpeg} p fs :
  is_target p = true -> quote ∉ p -> popen_fails (command p (result_of p)) = false ->
  process_one p fs = Ok (tt, delete p (transcode p (result_of p) fs)).
Proof.
  intros Ht Hq Hf. rewrite process_file_target by done. unfold popen.
  rewrite command_words by (done || by apply no_quote_result). by rewrite ffmpeg_runs.
Qed.

(** Nothing but the original and the result is touched. *)
Lemma transcode_other i o q fs : q <> o -> transcode i o fs !! q = fs !! q.
Proof.
  intros Hq. unfold transcode. destruct (fs !! i) as [d|]; [|done].
  destruct (encode d), (fs !! o); by rewrite ?lookup_insert_ne.
Qed.

(** ** The whole walk *)

(** Each target is to be replaced by its result. *)
Definition convertible (fs : gmap bytes D) (p : bytes) : Prop :=
  quote ∉ p /\ popen_fails (command p (result_of p)) = false /\
  fs !! result_of p = None /\ exists d d', fs !! p = Some d /\ encode d = Some d'.

Definition targets (ps : list bytes) : list bytes := filter (fun p => is_target p = true) ps.

Definition converted (ps : list bytes) (fs fs' : gmap bytes D) : Prop :=
  (forall p, p ∈ targets ps -> fs' !! p = None /\ fs' !! result_of p = (fs !! p ≫= encode)) /\
  (forall q, q ∉ targets ps -> q ∉ map result_of (targets ps) -> fs' !! q = fs !! q).

Lemma walk_converts `{Ffmpeg} ps fs :
  NoDup (targets ps) -> (forall p, p ∈ targets ps -> convertible fs p) ->
  wp (forM ps process_one) (fun _ fs' => converted ps fs fs') fs.
Proof.
  revert fs. induction ps as [|p ps IH]; intros fs Hnd Hc; simpl.
  { apply wp_ret. split; [|done]. intros p Hp. by apply not_elem_of_nil in Hp. }
  unfold targets in *. rewrite filter_cons in *. apply wp_bind.
  destruct (is_target p) eqn:Ht; simpl in *.
  2:{ eapply wp_ok; [by apply process_file_other|]. eapply wp_mono; [by apply IH|].
      intros ? fs'. unfold converted, targets. rewrite filter_cons, Ht. done. }
  apply NoDup_cons in Hnd as [Hp Hnd].
  destruct (Hc p ltac:(left)) as (Hq & Hf & Ho & d & d' & Hd & He).
  assert (Htp : is_target p = true) by done.
  assert (Hne : result_of p <> p) by (intros E; pose proof (result_not_target p Ht); congruence).
  eapply wp_ok; [by apply process_file_ffmpeg|].
  set (fs1 := delete p (transcode p (result_of p) fs)).
  assert (Hfs1 : fs1 = delete p (<[result_of p := d']> fs)) by (unfold fs1, transcode; by rewrite Hd, He, Ho).
  assert (Hother : forall q, q <> p -> q <> result_of p -> fs1 !! q = fs !! q).
  { intros q H1 H2. by rewrite Hfs1, lookup_delete_ne, lookup_insert_ne. }
  assert (Hts : forall q, q ∈ filter (fun p => is_target p = true) ps ->
    is_target q = true /\ q <> p /\ q <> result_of p /\ result_of q <> p /\ result_of q <> result_of p).
  { intros q Hin. pose proof Hin as [Hqt _]%list_elem_of_filter. pose proof (result_not_target p Htp).
    pose proof (result_not_target q Hqt). split_and!; [done|congruence|congruence|congruence|].
    intros E%result_inj; [congruence|done|done]. }
  eapply wp_mono.
  - apply IH; [done|]. intros q Hin. destruct (Hts q Hin) as (Hqt & H1 & H2 & H3 & H4).
    destruct (Hc q ltac:(by right)) as (C1 & C2 & C3 & C4). split_and!; [done|done| |].
    + by rewrite Hother.
    + by rewrite Hother.
  - intros ? fs' [Hin Hout]. unfold targets in *. split; unfold targets; rewrite filter_cons, Ht; simpl.
    + intros q [->|Hq']%elem_of_cons.
      * assert (Hnr : forall x, x ∈ map result_of (filter (fun p => is_target p = true) ps) ->
          x <> p /\ x <> result_of p).
        { intros x (q' & -> & Hq')%list_elem_of_fmap. destruct (Hts q' Hq') as (_ & _ & _ & ? & ?). done. }
        split.
        -- rewrite Hout; [|done|by intros [? _]%Hnr]. by rewrite Hfs1, lookup_delete_eq.
        -- rewrite Hout; [|by intros (_ & _ & ? & _)%Hts|by intros [_ ?]%Hnr].
           rewrite Hfs1, lookup_delete_ne, lookup_insert_eq, Hd by done. simpl. congruence.
      * destruct (Hts q Hq') as (Hqt & H1 & H2 & H3 & H4). destruct (Hin q Hq') as [-> ->].
        split; [done|]. by rewrite Hother.
    + intros q Hq' Hr. apply not_elem_of_cons in Hq' as [H1 H2]. apply not_elem_of_cons in Hr as [H3 H4].
      rewrite Hout by done. by apply Hother.
Qed.
End behaviour.

Section theorems.
Context {D : Type}.
Context (exec : list bytes -> gmap bytes D -> gmap bytes D).
Context (shell_other : bytes -> gmap bytes D -> gmap bytes D).
Context (popen_fails : bytes -> bool).
Context (encode : D -> option D).

(** C24. When every photo and video of a tree can be compressed (its path has no single
    quote, [ffmpeg] can read it, there is no file of the result's name yet), the walk
    replaces each by its compressed version, in whatever order and depth the
    directories list them; already compressed files and all others stay as they
    were. *)
Theorem compress_replaces_originals es fs :
  Ffmpeg exec encode ->
  NoDup (targets (files es)) ->
  (forall p, p ∈ targets (files es) -> convertible popen_fails encode fs p) ->
  wp (scan_file_compress exec shell_other popen_fails es)
    (fun _ fs' => converted encode (files es) fs fs') fs.
Proof.
  intros Hff Hnd Hc. unfold wp. rewrite scan_files. by apply walk_converts.
Qed.

Lemma plain_no_quote s : Forall plain s -> quote ∉ s.
Proof. rewrite Forall_forall. intros H Hq. by destruct (H _ Hq) as [? _]. Qed.

(** The result of a file with an apostrophe has the same beginning. *)
Lemma apostrophe_result a b :
  Forall plain b -> is_target (a ++ quote :: b) = true ->
  exists c, result_of (a ++ quote :: b) = a ++ quote :: c /\ Forall plain c.
Proof.
  intros Hb (b0 & e & He & E & _ & Hr)%is_target_spec. rewrite Hr. clear Hr.
  assert (Hpe : Forall plain e) by (by destruct He as [->| ->]; apply (bool_decide_unpack _)).
  assert (Hpc : Forall plain COMPRESS) by by apply (bool_decide_unpack _).
  rewrite (cons_middle quote a b), app_assoc in E.
  apply app_eq_inv in E as [(k & Ek & Eb)|(k & Ek & Eb)].
  - destruct k as [|c k _] using rev_ind.
    + exists (COMPRESS ++ e). rewrite app_nil_r in Ek. rewrite <- Ek, <- app_assoc. split; [done|].
      by apply Forall_app.
    + exfalso. rewrite app_assoc in Ek. apply app_inj_tail in Ek as [_ <-].
      rewrite Eb, !Forall_app in Hpe. destruct Hpe as [[_ Hq] _]. apply plain_no_quote in Hq. set_solver.
  - exists (k ++ COMPRESS ++ e). rewrite Ek, <- !app_assoc. split; [done|].
    rewrite Eb in Hb. apply Forall_app in Hb as [Hk _]. by rewrite !Forall_app.
Qed.

(** The original is removed whatever became of the compression: a photo whose name
    has an apostrophe makes the rest of the command a single word, [ffmpeg] gets no
    output file and writes nothing, and the photo is lost. *)
Theorem compress_loses_apostrophe a b fs :
  Ffmpeg exec encode ->
  Forall plain a -> Forall plain b -> is_target (a ++ quote :: b) = true ->
  popen_fails (command (a ++ quote :: b) (result_of (a ++ quote :: b))) = false ->
  scan_file_compress exec shell_other popen_fails [File (a ++ quote :: b)] fs =
    Ok (tt, delete (a ++ quote :: b) fs).
Proof.
  intros Hff Ha Hb Ht Hf. rewrite scan_files. simpl. unfold mbind, M_bind.
  rewrite process_file_target by done. unfold popen.
  destruct (apostrophe_result a b Hb Ht) as (c & -> & Hc).
  rewrite command_words_apostrophe by (done || by apply plain_no_quote). by rewrite (ffmpeg_no_output exec encode).
Qed.

(** The same when [ffmpeg] cannot read the file, or a result is there already. *)
Theorem compress_loses_unreadable p d fs :
  Ffmpeg exec encode ->
  is_target p = true -> quote ∉ p -> popen_fails (command p (result_of p)) = false ->
  fs !! p = Some d -> encode d = None \/ is_Some (fs !! result_of p) ->
  scan_file_compress exec shell_other popen_fails [File p] fs = Ok (tt, delete p fs).
Proof.
  intros Hff Ht Hq Hf Hd Hor. rewrite scan_files. simpl. unfold mbind, M_bind.
  rewrite (process_file_ffmpeg _ _ _ encode) by done. unfold transcode. rewrite Hd.
  destruct Hor as [->|[d' ->]]; [done|by destruct (encode d)].
Qed.

(** A second walk finds nothing to do. *)
Theorem compress_idle (es : list entry) (fs : gmap bytes D) :
  targets (files es) = [] ->
  scan_file_compress exec shell_other popen_fails es fs = Ok (tt, fs).
Proof.
  intros Hn. rewrite scan_files. unfold targets in Hn.
  induction (files es) as [|p ps IH]; [done|]. rewrite filter_cons in Hn.
  destruct (is_target p) eqn:Ht; [done|]. simpl in *. unfold mbind, M_bind.
  rewrite process_file_other by done. by apply IH.
Qed.

End theorems.

(** A shell in which [ffmpeg] halves a number and cannot read odd ones. *)
Definition halve (d : Z) : option Z := if decide (d mod 2 = 0) then Some (d / 2) else None.
Definition exec_start (words : list bytes) (fs : gmap bytes Z) : gmap bytes Z :=
  match words with
  | [_; _; i; _; _; _; _; o] => if decide (words = ffmpeg_args i o) then transcode halve i o fs else fs
  | _ => fs
  end.

#[export] Instance exec_start_ffmpeg : Ffmpeg exec_start halve.
Proof. split; [|done]. intros i o fs. unfold exec_start. simpl. by rewrite decide_True. Qed.

Definition album : list entry :=
  [File (str "c/a.jpg"); Dir (str "c/d") [File (str "c/d/b.mp4"); File (str "c/d/n.txt")];
   File (str "c/a_COMPRESS.jpg")].
Definition album_fs : gmap bytes Z :=
  {[str "c/a.jpg" := 10; str "c/d/b.mp4" := 20; str "c/d/n.txt" := 7]}.

Lemma compress_replaces_originals_witness :
  wp (scan_file_compress exec_start (fun _ fs => fs) (fun _ => false) album)
    (fun _ fs' => converted halve (files album) album_fs fs') album_fs.
Proof.
  apply (compress_replaces_originals exec_start (fun _ fs => fs) (fun _ => false) halve album album_fs).
  - apply _.
  - apply (bool_decide_unpack _). vm_compute. done.
  - assert (E : targets (files album) = [str "c/a.jpg"; str "c/d/b.mp4"]) by by vm_compute.
    intros p Hp. rewrite E in Hp.
    apply elem_of_cons in Hp as [->|[->|[]%not_elem_of_nil]%elem_of_cons];
      (split_and!; [by apply (bool_decide_unpack _)|done|done|by eexists _, _]).
Defined.

Definition lost : bytes := str "c/Ann".
Definition lost_rest : bytes := str "s.jpg".

Lemma compress_loses_apostrophe_witness :
  scan_file_compress exec_start (fun _ fs => fs) (fun _ => false) [File (lost ++ quote :: lost_rest)]
    {[lost ++ quote :: lost_rest := 10]} =
  Ok (tt, delete (lost ++ quote :: lost_rest) {[lost ++ quote :: lost_rest := 10]}).
Proof.
  apply (compress_loses_apostrophe exec_start (fun _ fs => fs) (fun _ => false) halve lost lost_rest
    {[lost ++ quote :: lost_rest := 10]}); [apply _|by apply (bool_decide_unpack _)..|done|done].
Defined.
