(* ===== verification/CnWords.v ===== *)
(** * Splitting Chinese text at punctuation ([any/cn_word_io.cpp])

    [main_ok] splits a line of UTF-8 at the fullwidth comma and full stop and
    prints every part with its size in bytes and in characters; [main_bad] is the
    attempt with two bytes per character.  [char] is signed and has 8 bits; [int]
    is checked.  The loop of [main_ok] takes fuel; [None] says it still runs. *)

From S2P Require Import Prelude CppInt.

Definition byte_of (z : Z) : Ascii.ascii := ascii_of_nat (Z.to_nat z).

(** U+FF0C and U+3002. *)
Definition comma : bytes := map byte_of [0xEF; 0xBC; 0x8C].
Definition full_stop : bytes := map byte_of [0xE3; 0x80; 0x82].

Definition separator (c : bytes) : Prop := c = comma \/ c = full_stop.
#[export] Instance separator_dec c : Decision (separator c).
Proof. unfold separator. apply _. Defined.

(** [str[i]]: the terminator may be read, what is behind it may not. *)
Definition str_at (s : bytes) (i : Z) : outcome Ascii.ascii :=
  if decide (0 <= i) then
    match s !! Z.to_nat i with
    | Some c => Ok c
    | None => if decide (i = len s) then Ok NUL else UB
    end
  else UB.

(** ** [main_bad] *)

(** The lines it prints: with the mark [!] when it splits, else [?]. *)
Fixpoint bad_loop (fuel : nat) (s : bytes) (i : Z) (word : bytes) (out : list (bool * Z * bytes)) :
    option (outcome (list (bool * Z * bytes) * bytes)) :=
  match fuel with
  | O => None
  | S fuel =>
      if decide (i < len s) then
        match (c ← str_at s i; j ← int_add i 1; d ← str_at s j; Ok [c; d]) with
        | Ok tmp =>
            let '(word, out) :=
              if decide (separator tmp)
              then ([], out ++ [(true, i, word)]) else (word ++ tmp, out) in
            match int_add i 2 with
            | Ok j => bad_loop fuel s j word (out ++ [(false, i, word)])
            | Throw e => Some (Throw e)
            | UB => Some UB
            end
        | Throw e => Some (Throw e)
        | UB => Some UB
        end
      else Some (Ok (out, word))
  end.
Definition main_bad (fuel : nat) (s : bytes) := bad_loop fuel s 0 [] [].

(** ** [main_ok] *)

Definition char_int (c : Ascii.ascii) : Z := wraps 8 (Z.of_nat (nat_of_ascii c)).

Definition len2 (c : Ascii.ascii) : Z :=
  let ch := char_int c in
  if decide (Z.land ch 0xF0 = 0xF0) then 4
  else if decide (Z.land ch 0xE0 = 0xE0) then 3
  else if decide (Z.land ch 0xC0 = 0xC0) then 2
  else if decide (Z.land ch 0x80 = 0x80) then -1
  else 1.

(** [while (len-- > 0) { tmp += str[i]; i++; }] *)
Fixpoint take_char (n : nat) (s : bytes) (i : Z) (tmp : bytes) : outcome (bytes * Z) :=
  match n with
  | O => Ok (tmp, i)
  | S n => c ← str_at s i; j ← int_add i 1; take_char n s j (tmp ++ [c])
  end.

(** A line: the part, its bytes, its characters. *)
Definition line : Type := bytes * Z * Z.

Fixpoint ok_loop (fuel : nat) (s : bytes) (i : Z) (word : bytes) (cnt : Z) (out : list line) :
    option (outcome (list line)) :=
  match fuel with
  | O => None
  | S fuel =>
      if decide (i < len s) then
        match (ch ← str_at s i; take_char (Z.to_nat (len2 ch)) s i []) with
        | Ok (tmp, i) =>
            if decide (separator tmp)
            then ok_loop fuel s i [] 0 (out ++ [(word, len word, cnt)])
            else
              match int_add cnt 1 with
              | Ok cnt => ok_loop fuel s i (word ++ tmp) cnt out
              | Throw e => Some (Throw e)
              | UB => Some UB
              end
        | Throw e => Some (Throw e)
        | UB => Some UB
        end
      else Some (Ok out)
  end.
Definition main_ok (fuel : nat) (s : bytes) : option (outcome (Z * list line)) :=
  fmap (fun o => out ← o; Ok (len s, out)) (ok_loop fuel s 0 [] 0 []).

(** ** Text as characters *)

(** What [len2] takes for a character. *)
Definition wf_char (c : bytes) : Prop :=
  match c with
  | [] => False
  | h :: _ => len2 h = len c
  end.

(** The parts that end with a separator; what is behind the last one is no part. *)
Fixpoint parts (word cs : list bytes) : list (list bytes) :=
  match cs with
  | [] => []
  | c :: cs => if decide (separator c) then word :: parts [] cs else parts (word ++ [c]) cs
  end.
Definition part_line (cs : list bytes) : line := (concat cs, len (concat cs), len cs).

Lemma len2_range c : len2 c = -1 \/ 1 <= len2 c <= 4.
Proof. unfold len2. repeat case_decide; lia. Qed.

Lemma str_at_in p c q : str_at (p ++ c :: q) (len p) = Ok c.
Proof.
  unfold str_at. rewrite decide_True by lia. by rewrite Nat2Z.id, list_lookup_middle.
Qed.

Lemma take_char_app k p c q tmp :
  len (p ++ c) < 2 ^ 31 ->
  take_char (length c + k) (p ++ c ++ q) (len p) tmp = take_char k (p ++ c ++ q) (len (p ++ c)) (tmp ++ c).
Proof.
  revert p tmp. induction c as [|x c IH]; intros p tmp Hl; simpl; [by rewrite !app_nil_r|].
  rewrite str_at_in. simpl. unfold int_add. rewrite schk_ok by (unfold in_s; list_lia). simpl.
  specialize (IH (p ++ [x]) (tmp ++ [x])). rewrite <- !app_assoc in IH. simpl in IH.
  replace (len p + 1) with (len (p ++ [x])) by list_lia. apply IH. list_lia.
Qed.

(** One character. *)
Lemma ok_loop_step fuel s p c rest word cnt out :
  s = p ++ c ++ rest -> wf_char c -> len (p ++ c) < 2 ^ 31 -> 0 <= cnt < 2 ^ 31 - 1 ->
  ok_loop (S fuel) s (len p) word cnt out =
    if decide (separator c) then ok_loop fuel s (len (p ++ c)) [] 0 (out ++ [(word, len word, cnt)])
    else ok_loop fuel s (len (p ++ c)) (word ++ c) (cnt + 1) out.
Proof.
  intros -> Hc Hl Hcnt. destruct c as [|h c]; [done|]. unfold wf_char in Hc.
  cbn [ok_loop]. rewrite decide_True by list_lia.
  replace (str_at (p ++ (h :: c) ++ rest) (len p)) with (Ok h) by (symmetry; apply str_at_in).
  cbn [mbind outcome_bind]. rewrite Hc, Nat2Z.id, <- (Nat.add_0_r (length (h :: c))), take_char_app by done. cbn [take_char].
  change ([] ++ h :: c) with (h :: c). destruct (decide (separator (h :: c))); [done|].
  unfold int_add. rewrite schk_ok by (unfold in_s; lia). done.
Qed.

(** Whole characters: the parts are printed, and what is left is [word]. *)
Fixpoint leftover (word cs : list bytes) : list bytes :=
  match cs with
  | [] => word
  | c :: cs => leftover (if decide (separator c) then [] else word ++ [c]) cs
  end.

Lemma leftover_length word cs : (length (leftover word cs) <= length word + length cs)%nat.
Proof.
  revert word. induction cs as [|c cs IH]; intros word; simpl; [lia|].
  etransitivity; [apply IH|]. case_decide; list_lia.
Qed.

Lemma concat_length (cs : list bytes) : Forall wf_char cs -> (length cs <= length (concat cs))%nat.
Proof. induction 1 as [|[|h c] cs Hc _ IH]; [done|done|]. simpl. list_lia. Qed.

Lemma ok_loop_chars cs : forall fuel s p word out rest,
  s = p ++ concat cs ++ rest ->
  Forall wf_char cs -> len (p ++ concat cs) < 2 ^ 31 -> len word <= len p ->
  ok_loop (length cs + fuel) s (len p) (concat word) (len word) out =
  ok_loop fuel s (len (p ++ concat cs)) (concat (leftover word cs)) (len (leftover word cs))
    (out ++ map part_line (parts word cs)).
Proof.
  induction cs as [|c cs IH]; intros fuel s p word out rest -> Hcs Hl Hw.
  { simpl. by rewrite !app_nil_r. }
  apply Forall_cons in Hcs as [Hc Hcs]. simpl in Hl. cbn [length Nat.add concat].
  assert (Hcl : 1 <= len c) by (destruct c; [done|simpl; lia]).
  pose proof (concat_length cs Hcs).
  rewrite (ok_loop_step _ _ p c (concat cs ++ rest)); [|by rewrite <- app_assoc|done|list_lia|list_lia].
  assert (E : p ++ (c ++ concat cs) ++ rest = (p ++ c) ++ concat cs ++ rest) by by rewrite <- !app_assoc.
  assert (E2 : p ++ c ++ concat cs = (p ++ c) ++ concat cs) by by rewrite <- app_assoc.
  rewrite E, E2. simpl. case_decide as Hs.
  - rewrite (IH fuel _ (p ++ c) [] _ rest); [|done|done|by rewrite <- E2|simpl; lia].
    simpl. by rewrite <- (app_assoc out).
  - assert (Ew : concat word ++ c = concat (word ++ [c])) by (rewrite concat_app; simpl; by rewrite app_nil_r).
    rewrite Ew. replace (len word + 1) with (len (word ++ [c])) by list_lia.
    apply (IH fuel _ (p ++ c) (word ++ [c]) _ rest); [done|done|by rewrite <- E2|list_lia].
Qed.


(** ** UTF-8 *)

(** The encoding of a code point. *)
Definition utf8_Z (cp : Z) : list Z :=
  if decide (cp < 0x80) then [cp]
  else if decide (cp < 0x800) then [0xC0 + cp / 64; 0x80 + cp mod 64]
  else if decide (cp < 0x10000) then [0xE0 + cp / 4096; 0x80 + cp / 64 mod 64; 0x80 + cp mod 64]
  else [0xF0 + cp / 262144; 0x80 + cp / 4096 mod 64; 0x80 + cp / 64 mod 64; 0x80 + cp mod 64].
Definition utf8 (cp : Z) : bytes := map byte_of (utf8_Z cp).

Definition code_point (cp : Z) : Prop := 0 <= cp < 0x110000.

Definition byte_val (c : Ascii.ascii) : Z := Z.of_nat (nat_of_ascii c).

Lemma byte_val_of z : 0 <= z < 256 -> byte_val (byte_of z) = z.
Proof. intros Hz. unfold byte_val, byte_of. rewrite nat_ascii_embedding by lia. lia. Qed.

(** Which byte starts a character of which length. *)
Lemma len2_byte z :
  0 <= z < 256 ->
  len2 (byte_of z) =
    if decide (z < 0x80) then 1 else if decide (z < 0xC0) then -1 else if decide (z < 0xE0) then 2
    else if decide (z < 0xF0) then 3 else 4.
Proof.
  intros Hz.
  assert (H : Forall (fun z => len2 (byte_of z) =
    if decide (z < 0x80) then 1 else if decide (z < 0xC0) then -1 else if decide (z < 0xE0) then 2
    else if decide (z < 0xF0) then 3 else 4) (seqZ 0 256)).
  { apply (bool_decide_unpack _). vm_compute. done. }
  rewrite Forall_forall in H. apply H, elem_of_seqZ. lia.
Qed.

Lemma div_range cp k n : 0 < k -> 0 <= cp < n * k -> 0 <= cp / k < n.
Proof. intros Hk Hcp. split; [apply Z.div_pos; lia|apply Z.div_lt_upper_bound; lia]. Qed.

Lemma utf8_bytes cp : code_point cp -> Forall (fun z => 0 <= z < 256) (utf8_Z cp).
Proof.
  unfold code_point, utf8_Z. intros Hcp.
  pose proof (Z.mod_pos_bound cp 64 ltac:(lia)). pose proof (Z.mod_pos_bound (cp / 64) 64 ltac:(lia)).
  pose proof (Z.mod_pos_bound (cp / 4096) 64 ltac:(lia)).
  case_decide; [repeat constructor; lia|]. case_decide.
  { pose proof (div_range cp 64 32 ltac:(lia) ltac:(lia)). repeat constructor; lia. }
  case_decide.
  - pose proof (div_range cp 4096 16 ltac:(lia) ltac:(lia)). repeat constructor; lia.
  - pose proof (div_range cp 262144 5 ltac:(lia) ltac:(lia)). repeat constructor; lia.
Qed.

Lemma utf8_wf cp : code_point cp -> wf_char (utf8 cp).
Proof.
  intros Hcp. unfold utf8. pose proof (utf8_bytes cp Hcp) as Hb.
  unfold code_point, utf8_Z in *. case_decide; [|case_decide; [|case_decide]];
    cbn [map wf_char length]; apply Forall_cons in Hb as [Hb _]; rewrite len2_byte by done.
  - by rewrite decide_True by lia.
  - pose proof (div_range cp 64 32 ltac:(lia) ltac:(lia)). do 2 rewrite decide_False by lia.
    by rewrite decide_True by lia.
  - pose proof (div_range cp 4096 16 ltac:(lia) ltac:(lia)). do 3 rewrite decide_False by lia.
    by rewrite decide_True by lia.
  - pose proof (div_range cp 262144 5 ltac:(lia) ltac:(lia)). by do 4 rewrite decide_False by lia.
Qed.

(** Reading an encoding back. *)
Definition utf8_decode (s : bytes) : Z :=
  match map byte_val s with
  | [a] => a
  | [a; b] => (a - 0xC0) * 64 + (b - 0x80)
  | [a; b; c] => (a - 0xE0) * 4096 + (b - 0x80) * 64 + (c - 0x80)
  | [a; b; c; d] => (a - 0xF0) * 262144 + (b - 0x80) * 4096 + (c - 0x80) * 64 + (d - 0x80)
  | _ => 0
  end.

Lemma utf8_decode_encode cp : code_point cp -> utf8_decode (utf8 cp) = cp.
Proof.
  intros Hcp. unfold utf8_decode, utf8. pose proof (utf8_bytes cp Hcp) as Hb.
  assert (E : map byte_val (map byte_of (utf8_Z cp)) = utf8_Z cp).
  { rewrite map_map. rewrite <- (map_id (utf8_Z cp)) at 2. apply map_ext_in. intros z Hz.
    apply byte_val_of. rewrite Forall_forall in Hb. by apply Hb, list_elem_of_In. }
  rewrite E. clear E Hb. unfold utf8_Z.
  pose proof (Z.div_mod cp 64 ltac:(lia)). pose proof (Z.div_mod (cp / 64) 64 ltac:(lia)).
  pose proof (Z.div_mod (cp / 4096) 64 ltac:(lia)).
  assert (cp / 64 / 64 = cp / 4096) by (rewrite Z.div_div by lia; done).
  assert (cp / 4096 / 64 = cp / 262144) by (rewrite Z.div_div by lia; done).
  repeat case_decide; lia.
Qed.

Lemma utf8_inj cp cp' : code_point cp -> code_point cp' -> utf8 cp = utf8 cp' -> cp = cp'.
Proof. intros H H' E. by rewrite <- (utf8_decode_encode cp), E, utf8_decode_encode. Qed.

(** ** Text as code points *)

Definition text (cps : list Z) : bytes := concat (map utf8 cps).
Definition is_stop (cp : Z) : Prop := cp = 0xFF0C \/ cp = 0x3002.
#[export] Instance is_stop_dec cp : Decision (is_stop cp).
Proof. unfold is_stop. apply _. Defined.

Fixpoint sentences (word cps : list Z) : list (list Z) :=
  match cps with
  | [] => []
  | cp :: cps => if decide (is_stop cp) then word :: sentences [] cps else sentences (word ++ [cp]) cps
  end.
Definition sentence_line (w : list Z) : line := (text w, len (text w), len w).

Lemma separator_stop cp : code_point cp -> separator (utf8 cp) <-> is_stop cp.
Proof.
  intros Hcp. change (separator (utf8 cp)) with (utf8 cp = utf8 0xFF0C \/ utf8 cp = utf8 0x3002).
  assert (code_point 0xFF0C /\ code_point 0x3002) as [H1 H2] by (unfold code_point; lia).
  unfold is_stop. split; intros [E|E].
  - left. by apply utf8_inj.
  - right. by apply utf8_inj.
  - left. by rewrite E.
  - right. by rewrite E.
Qed.

Lemma parts_sentences w cps :
  Forall code_point cps -> map part_line (parts (map utf8 w) (map utf8 cps)) = map sentence_line (sentences w cps).
Proof.
  intros H. revert w. induction H as [|cp cps Hcp _ IH]; intros w; [done|]. simpl.
  destruct (decide (is_stop cp)) as [Hs|Hs].
  - rewrite decide_True by by apply separator_stop. simpl. rewrite <- (IH []). f_equal.
    unfold part_line, sentence_line, text. by rewrite length_map.
  - rewrite decide_False by by rewrite separator_stop. rewrite <- IH, map_app. done.
Qed.

(** ** Input that is not UTF-8 *)

Lemma ok_loop_mono fuel k s i word cnt out r :
  ok_loop fuel s i word cnt out = Some r -> ok_loop (fuel + k) s i word cnt out = Some r.
Proof.
  revert i word cnt out. induction fuel as [|fuel IH]; intros i word cnt out; [done|]. simpl.
  case_decide; [|done]. destruct (str_at s i ≫= _) as [[tmp j]| |]; [|done..].
  case_decide; [apply IH|]. destruct (int_add cnt 1); [apply IH|done..].
Qed.

(** A byte that starts no character is looked at until the counter overflows. *)
Lemma ok_loop_spin fuel p c rest word cnt out :
  len2 c = -1 -> 0 <= cnt < 2 ^ 31 ->
  ok_loop fuel (p ++ c :: rest) (len p) word cnt out =
    if decide (cnt + Z.of_nat fuel < 2 ^ 31) then None else Some UB.
Proof.
  intros Hc. revert word cnt. induction fuel as [|fuel IH]; intros word cnt Hcnt.
  { by rewrite decide_True by lia. }
  cbn [ok_loop]. rewrite decide_True by list_lia. rewrite str_at_in. cbn [mbind outcome_bind].
  rewrite Hc. change (take_char (Z.to_nat (-1)) (p ++ c :: rest) (len p) []) with (Ok (@nil Ascii.ascii, len p)).
  cbn iota beta. rewrite decide_False by (by intros [|]).
  unfold int_add, schk. case_decide as Hin; unfold in_s in Hin.
  - rewrite IH by lia. by repeat case_decide; try lia.
  - by rewrite decide_False by lia.
Qed.

Lemma take_char_beyond n s i tmp :
  0 <= i <= len s + 1 -> len s + 1 < i + Z.of_nat n -> len s + 2 < 2 ^ 31 -> take_char n s i tmp = UB.
Proof.
  revert i tmp. induction n as [|n IH]; intros i tmp Hi Hn Hl; simpl; [lia|].
  unfold str_at at 1. rewrite decide_True by lia.
  assert (Hstep : forall c, (j ← int_add i 1; take_char n s j (tmp ++ [c])) = UB \/ i = len s + 1).
  { intros c. destruct (decide (i = len s + 1)); [by right|left].
    unfold int_add. rewrite schk_ok by (unfold in_s; lia). simpl. apply IH; lia. }
  destruct (s !! Z.to_nat i) as [c|] eqn:E.
  - apply lookup_lt_Some in E. simpl. destruct (Hstep c); [done|lia].
  - case_decide; [|done]. simpl. destruct (Hstep NUL); [done|lia].
Qed.

(** ** [main_bad] never splits *)

Definition padded (s : bytes) : bytes := if decide (len s mod 2 = 0) then s else s ++ [NUL].

Lemma two_no_separator c d : ~ separator [c; d].
Proof. by intros [|]. Qed.

Lemma padded_pair c d s : padded (c :: d :: s) = c :: d :: padded s.
Proof.
  unfold padded. replace (len (c :: d :: s)) with (len s + 1 * 2) by (simpl length; lia).
  rewrite Z_mod_plus_full. by case_decide.
Qed.

Lemma bad_loop_words fuel p rest out :
  (length rest < fuel)%nat -> len (p ++ rest) + 2 < 2 ^ 31 ->
  exists out', bad_loop fuel (p ++ rest) (len p) p out = Some (Ok (out ++ out', p ++ padded rest)) /\
    Forall (fun l => l.1.1 = false) out'.
Proof.
  revert p rest out. induction fuel as [|fuel IH]; intros p rest out Hf Hl; [lia|].
  cbn [bad_loop]. destruct rest as [|c rest].
  { rewrite app_nil_r, decide_False by lia. exists []. by rewrite !app_nil_r. }
  rewrite decide_True by list_lia. rewrite str_at_in. cbn [mbind outcome_bind].
  assert (E1 : int_add (len p) 1 = Ok (len p + 1)) by (apply schk_ok; unfold in_s; list_lia).
  assert (E2 : int_add (len p) 2 = Ok (len p + 2)) by (apply schk_ok; unfold in_s; list_lia).
  rewrite E1. cbn [mbind outcome_bind]. rewrite E2.
  destruct rest as [|d rest].
  - assert (E3 : str_at (p ++ [c]) (len p + 1) = Ok NUL).
    { unfold str_at. rewrite decide_True by lia. rewrite lookup_ge_None_2 by list_lia.
      by rewrite decide_True by list_lia. }
    rewrite E3. cbn [mbind outcome_bind].
    rewrite decide_False by apply two_no_separator.
    destruct fuel as [|fuel]; [simpl in Hf; lia|]. cbn [bad_loop].
    rewrite decide_False by list_lia. eexists. split; [done|by constructor].
  - assert (E3 : str_at (p ++ c :: d :: rest) (len p + 1) = Ok d).
    { replace (len p + 1) with (len (p ++ [c])) by list_lia.
      rewrite (cons_middle c p), app_assoc. apply str_at_in. }
    rewrite E3. cbn [mbind outcome_bind].
    rewrite decide_False by apply two_no_separator.
    destruct (IH (p ++ [c; d]) rest (out ++ [(false, len p, p ++ [c; d])])) as (out' & E & Hout').
    { simpl in Hf. lia. }
    { rewrite <- app_assoc. done. }
    replace (len (p ++ [c; d])) with (len p + 2) in E by list_lia.
    rewrite <- !app_assoc in E. simpl in E. rewrite E. rewrite padded_pair.
    exists ((false, len p, p ++ [c; d]) :: out'). split; [done|by constructor].
Qed.

(** The whole characters at the start of a line. *)
Lemma ok_loop_text fuel cps rest :
  Forall code_point cps -> len (text cps) < 2 ^ 31 ->
  exists word cnt, 0 <= cnt <= len (text cps) /\
    ok_loop (length cps + fuel) (text cps ++ rest) 0 [] 0 [] =
    ok_loop fuel (text cps ++ rest) (len (text cps)) word cnt (map sentence_line (sentences [] cps)).
Proof.
  intros Hcps Hl.
  assert (Hwf : Forall wf_char (map utf8 cps)).
  { apply Forall_map. eapply Forall_impl; [exact Hcps|]. apply utf8_wf. }
  pose proof (ok_loop_chars (map utf8 cps) fuel (text cps ++ rest) [] [] [] rest eq_refl Hwf Hl ltac:(simpl; lia)) as H.
  rewrite length_map in H. simpl in H. rewrite (parts_sentences []) in H by done.
  eexists _, _. split; [|exact H].
  pose proof (leftover_length [] (map utf8 cps)). pose proof (concat_length _ Hwf).
  unfold text. simpl in *. lia.
Qed.

Lemma some_nat z : 0 <= z -> exists n, Z.of_nat n = z.
Proof. intros Hz. exists (Z.to_nat z). by apply Z2Nat.id. Qed.

(** The last character is cut. *)
Lemma ok_loop_cut p c rest word cnt out :
  len (p ++ c :: rest) + 5 < 2 ^ 31 -> 0 <= cnt < 2 ^ 31 - 1 ->
  (len2 c = 2 + len rest -> ok_loop 2 (p ++ c :: rest) (len p) word cnt out = Some (Ok out)) /\
  (2 + len rest < len2 c -> ok_loop 2 (p ++ c :: rest) (len p) word cnt out = Some UB).
Proof.
  intros Hl Hcnt. cbn [ok_loop]. rewrite decide_True by list_lia.
  rewrite str_at_in. cbn [mbind outcome_bind]. split; intros Hc.
  - replace (Z.to_nat (len2 c)) with (length ((c :: rest) ++ [NUL])) by list_lia.
    assert (E : take_char (length ((c :: rest) ++ [NUL])) (p ++ c :: rest) (len p) [] =
      Ok ((c :: rest) ++ [NUL], len (p ++ c :: rest) + 1)).
    { rewrite length_app. pose proof (take_char_app 1 p (c :: rest) [] []) as H. rewrite app_nil_r in H.
      simpl length in *. rewrite H by list_lia. cbn [take_char]. unfold str_at. rewrite decide_True by lia.
      rewrite Nat2Z.id, lookup_ge_None_2, decide_True by (done || lia). cbn [mbind outcome_bind].
      unfold int_add. by rewrite schk_ok by (unfold in_s; lia). }
    rewrite E. rewrite decide_False.
    + unfold int_add. rewrite schk_ok by (unfold in_s; lia). by rewrite decide_False by lia.
    + intros [Hs|Hs]; apply (f_equal last) in Hs; rewrite last_snoc in Hs; discriminate.
  - rewrite take_char_beyond; [done|list_lia..].
Qed.

(** [main_ok] splits UTF-8 text at the fullwidth comma and full stop: it prints, for
    every part that a separator ends, the part, its size in bytes and its number
    of characters, whatever code points the text is made of; a part behind the last
    separator is not printed. *)
Theorem cn_words_split cps :
  Forall code_point cps -> len (text cps) < 2 ^ 31 ->
  main_ok (S (length cps)) (text cps) = Some (Ok (len (text cps), map sentence_line (sentences [] cps))).
Proof.
  intros Hcps Hl. destruct (ok_loop_text 1 cps [] Hcps Hl) as (word & cnt & _ & E).
  rewrite app_nil_r in E. unfold main_ok. rewrite <- Nat.add_1_r, E. cbn [ok_loop].
  by rewrite decide_False by lia.
Qed.

(** Input that is not UTF-8: a byte that continues a character where one should start
    is looked at again and again, until the character counter overflows; a last
    character cut by one byte is completed with the terminator and dropped, and
    one cut by more is read beyond the end of the string. *)
Theorem cn_words_not_utf8 cps c rest :
  Forall code_point cps -> len (text cps ++ c :: rest) + 5 < 2 ^ 31 ->
  (len2 c = -1 -> forall fuel r, main_ok fuel (text cps ++ c :: rest) = Some r -> r = UB) /\
  (len2 c = -1 -> exists fuel, main_ok fuel (text cps ++ c :: rest) = Some UB) /\
  (len2 c = 2 + len rest ->
   main_ok (S (S (length cps))) (text cps ++ c :: rest) =
     Some (Ok (len (text cps ++ c :: rest), map sentence_line (sentences [] cps)))) /\
  (2 + len rest < len2 c -> main_ok (S (S (length cps))) (text cps ++ c :: rest) = Some UB).
Proof.
  intros Hcps Hl. assert (Hlt : len (text cps) + 5 < 2 ^ 31) by list_lia.
  pose proof (fun fuel => ok_loop_text fuel cps (c :: rest) Hcps ltac:(lia)) as Ht.
  unfold main_ok. split_and!.
  - intros Hc fuel r. destruct (Ht fuel) as (word & cnt & Hcnt & E).
    destruct (ok_loop fuel _ 0 [] 0 []) as [o|] eqn:Eo; [|done]. intros [= <-].
    apply (ok_loop_mono _ (length cps)) in Eo. rewrite Nat.add_comm, E, ok_loop_spin in Eo by (done || lia).
    case_decide; [done|]. by injection Eo as <-.
  - intros Hc. destruct (some_nat (2 ^ 31) ltac:(lia)) as [n Hn].
    destruct (Ht n) as (word & cnt & Hcnt & E). exists (length cps + n)%nat.
    rewrite E, ok_loop_spin by (done || lia). by rewrite decide_False by lia.
  - intros Hc. destruct (Ht 2%nat) as (word & cnt & Hcnt & E).
    replace (length cps + 2)%nat with (S (S (length cps))) in E by lia. rewrite E.
    destruct (ok_loop_cut (text cps) c rest word cnt (map sentence_line (sentences [] cps)) Hl ltac:(lia)) as [H _].
    by rewrite H.
  - intros Hc. destruct (Ht 2%nat) as (word & cnt & Hcnt & E).
    replace (length cps + 2)%nat with (S (S (length cps))) in E by lia. rewrite E.
    destruct (ok_loop_cut (text cps) c rest word cnt (map sentence_line (sentences [] cps)) Hl ltac:(lia)) as [_ H].
    by rewrite H.
Qed.

(** [main_bad] takes two bytes at a time, never meets a three-byte separator, and ends
    with the whole line, or with it and the terminator. *)
Theorem main_bad_never_splits s :
  len s + 2 < 2 ^ 31 ->
  exists out, main_bad (S (length s)) s = Some (Ok (out, padded s)) /\ Forall (fun l => l.1.1 = false) out.
Proof.
  intros Hl. destruct (bad_loop_words (S (length s)) [] s []) as (out & E & H); [lia|done|].
  by exists out.
Qed.

(** The line of the comment in the source, without its last part: the two words, the
    second of them with seven characters of one or three bytes. *)
Example comment_line :
  main_ok 20 (text [0x4F60; 0x597D; 0xFF0C; 0x4E2D; 0x6587; 97; 115; 100; 0xFF01; 64; 35; 0x3002])
  = Some (Ok (26, [(text [0x4F60; 0x597D], 6, 2); (text [0x4E2D; 0x6587; 97; 115; 100; 0xFF01; 64; 35], 14, 8)])).
Proof. vm_compute. reflexivity. Qed.

Lemma cn_words_split_witness :
  main_ok 4 (text [0x4F60; 0x3002; 97]) =
    Some (Ok (len (text [0x4F60; 0x3002; 97]), map sentence_line (sentences [] [0x4F60; 0x3002; 97]))).
Proof.
  apply (cn_words_split [0x4F60; 0x3002; 97]); [by apply (bool_decide_unpack _)|].
  apply (bool_decide_unpack _). vm_compute. done.
Defined.

Lemma cn_words_not_utf8_witness :
  let c := byte_of 0xE4 in
  let rest := [byte_of 0xB8] in
  (len2 c = -1 -> forall fuel r, main_ok fuel (text [97] ++ c :: rest) = Some r -> r = UB) /\
  (len2 c = -1 -> exists fuel, main_ok fuel (text [97] ++ c :: rest) = Some UB) /\
  (len2 c = 2 + len rest ->
   main_ok 3 (text [97] ++ c :: rest) =
     Some (Ok (len (text [97] ++ c :: rest), map sentence_line (sentences [] [97])))) /\
  (2 + len rest < len2 c -> main_ok 3 (text [97] ++ c :: rest) = Some UB).
Proof.
  apply (cn_words_not_utf8 [97] (byte_of 0xE4) [byte_of 0xB8]);
    [by apply (bool_decide_unpack _)|apply (bool_decide_unpack _); vm_compute; done].
Defined.
