(* ===== verification/Locks.v ===== *)
(** * Locks, and threads that count with them
      ([cpp_concurrency_2nd/atomic_spinlock.cpp], [cpp_concurrency_2nd/mutex_RAII.cpp])

    The class [Lock] is what the counting threads need of a mutex; [std::mutex]
    and [spinlock_mtx] are instances.  [repeat] adds one to a shared variable in
    two steps, under a lock or without. *)

From S2P Require Import Prelude CppInt Turns.

(** ** What a lock promises *)

(** One round of [lock]: [Ok None] while the caller is blocked; otherwise the new state
    of the lock and whether the caller has got it or has to try again.  [holds s o]:
    the state [s] of the lock when thread [o] holds it. *)
Class Lock (LS : Type) := {
  lock_new : LS;
  lock : nat -> LS -> outcome (option (LS * bool));
  unlock : nat -> LS -> outcome LS;
  holds : LS -> option nat -> Prop;
  lock_new_free : holds lock_new None;
  lock_free t s : holds s None -> exists s', lock t s = Ok (Some (s', true)) /\ holds s' (Some t);
  lock_held t u s : holds s (Some u) -> u <> t ->
    lock t s = Ok None \/ exists s', lock t s = Ok (Some (s', false)) /\ holds s' (Some u);
  unlock_held t s : holds s (Some t) -> exists s', unlock t s = Ok s' /\ holds s' None;
}.

(** ** [std::mutex]: it knows its owner, who must not lock it again *)

Record std_mutex := mkMutex { owner : option nat }.

Definition mutex_lock (t : nat) (m : std_mutex) : outcome (option (std_mutex * bool)) :=
  match owner m with
  | None => Ok (Some (mkMutex (Some t), true))
  | Some u => if decide (u = t) then UB else Ok None
  end.
Definition mutex_unlock (t : nat) (m : std_mutex) : outcome std_mutex :=
  if decide (owner m = Some t) then Ok (mkMutex None) else UB.

#[export] Program Instance std_mutex_lock : Lock std_mutex := {
  lock_new := mkMutex None;
  lock := mutex_lock;
  unlock := mutex_unlock;
  holds m o := owner m = o;
}.
Next Obligation. done. Qed.
Next Obligation. intros t [o]; simpl. intros ->. by eexists. Qed.
Next Obligation. intros t u [o]; simpl. intros -> Hne. left. unfold mutex_lock. simpl. by rewrite decide_False. Qed.
Next Obligation. intros t [o]; simpl. intros ->. unfold mutex_unlock. simpl. rewrite decide_True by done. by eexists. Qed.

(** ** [spinlock_mtx]: one flag, which does not know who set it *)

Module Spinlock.
Record spinlock_mtx := mkSpinlock { flg : bool }.

(** [test_and_set] returns the old value. *)
Definition test_and_set (s : spinlock_mtx) : bool * spinlock_mtx := (flg s, mkSpinlock true).

(** One round of [while (flg.test_and_set())]; a round that fails is a step, too. *)
Definition lock (t : nat) (s : spinlock_mtx) : outcome (option (spinlock_mtx * bool)) :=
  let '(old, s') := test_and_set s in Ok (Some (s', negb old)).
Definition unlock (t : nat) (s : spinlock_mtx) : outcome spinlock_mtx := Ok (mkSpinlock false).

End Spinlock.

#[export] Program Instance spinlock_lock : Lock Spinlock.spinlock_mtx := {
  lock_new := Spinlock.mkSpinlock false;
  lock := Spinlock.lock;
  unlock := Spinlock.unlock;
  holds s o := Spinlock.flg s = bool_decide (is_Some o);
}.
Next Obligation. done. Qed.
Next Obligation. intros t [f]; simpl. intros ->. by eexists. Qed.
Next Obligation. intros t u [f]; simpl. intros -> _. right. by eexists. Qed.
Next Obligation. intros t [f]; simpl. intros _. by eexists. Qed.

(** ** The counting threads *)

Section counting.
Context {LS : Type} {HL : Lock LS}.
(** Whether the threads use the lock. *)
Context (useMutex : bool).

Inductive pc : Type := AtLock | AtRead | AtWrite (t3 : Z) | AtUnlock | Done.

Record thr := mkThr { pc_ : pc; i_ : Z; cnt_ : Z }.

Record St := mkSt {
  lk : LS;
  num : Z;
  thrs : list thr;
}.

Definition head_pc (i cnt : Z) : pc :=
  if decide (i < cnt) then if useMutex then AtLock else AtRead else Done.

Definition set_thr (t : nat) (th : thr) (s : St) : St := mkSt (lk s) (num s) (<[t := th]> (thrs s)).
Definition set_lk (l : LS) (s : St) : St := mkSt l (num s) (thrs s).
Definition set_num (n : Z) (s : St) : St := mkSt (lk s) n (thrs s).

(** The next round of the loop of [repeat]. *)
Definition next (t : nat) (th : thr) (s : St) : outcome (option St) :=
  i ← int_add (i_ th) 1;
  Ok (Some (set_thr t (mkThr (head_pc i (cnt_ th)) i (cnt_ th)) s)).

Definition step (t : nat) (s : St) : outcome (option St) :=
  match thrs s !! t with
  | None => Ok None
  | Some th =>
      match pc_ th with
      | AtLock =>
          l ← lock t (lk s);
          match l with
          | None => Ok None
          | Some (l, true) => Ok (Some (set_thr t (mkThr AtRead (i_ th) (cnt_ th)) (set_lk l s)))
          | Some (l, false) => Ok (Some (set_lk l s))
          end
      | AtRead =>
          t3 ← int_add (num s) 1;
          Ok (Some (set_thr t (mkThr (AtWrite t3) (i_ th) (cnt_ th)) s))
      | AtWrite t3 =>
          if useMutex
          then Ok (Some (set_thr t (mkThr AtUnlock (i_ th) (cnt_ th)) (set_num t3 s)))
          else next t th (set_num t3 s)
      | AtUnlock =>
          l ← unlock t (lk s);
          next t th (set_lk l s)
      | Done => Ok None
      end
  end.

(** The step of [t] is a failing round of [lock]. *)
Definition spins (t : nat) (s : St) : bool :=
  match thrs s !! t with
  | Some th =>
      match pc_ th, lock t (lk s) with
      | AtLock, Ok (Some (_, false)) => true
      | _, _ => false
      end
  | None => false
  end.

(** The failing rounds of a run. *)
Fixpoint failed_rounds (ls : list nat) (s : St) : Z :=
  match ls with
  | [] => 0
  | t :: ls =>
      match step t s with
      | Ok (Some s') => (if spins t s then 1 else 0) + failed_rounds ls s'
      | _ => 0
      end
  end.

Definition St_new (cnts : list Z) : St :=
  mkSt lock_new 0 (map (fun c => mkThr (head_pc 0 c) 0 c) cnts).

Definition all_done (s : St) : Prop := Forall (fun th => pc_ th = Done) (thrs s).

(** ** What holds in every state *)

(** The additions a thread has still to make, and its steps. *)
Definition left_ (th : thr) : Z := cnt_ th - match pc_ th with AtUnlock => i_ th + 1 | _ => i_ th end.
Definition to_go (th : thr) : Z :=
  4 * (cnt_ th - i_ th) -
  match pc_ th with AtLock | Done => 0 | AtRead => 1 | AtWrite _ => 2 | AtUnlock => 3 end.

Definition inside (th : thr) : bool :=
  match pc_ th with AtRead | AtWrite _ | AtUnlock => true | _ => false end.

Definition thr_ok (th : thr) : Prop :=
  0 <= i_ th <= cnt_ th /\ (pc_ th = Done <-> i_ th = cnt_ th) /\
  if useMutex then True else pc_ th <> AtLock /\ pc_ th <> AtUnlock.

Lemma head_ok i cnt :
  0 <= i <= cnt -> let th := mkThr (head_pc i cnt) i cnt in
  thr_ok th /\ left_ th = cnt - i /\ (useMutex = true -> inside th = false) /\
  to_go th <= 4 * (cnt - i) /\ (forall t3, pc_ th <> AtWrite t3).
Proof.
  intros Hi. unfold thr_ok, left_, inside, to_go, head_pc. simpl.
  case_decide; destruct useMutex; simpl;
    repeat split; intros; try done; try lia.
Qed.

Lemma left_nonneg th : thr_ok th -> 0 <= left_ th.
Proof.
  intros (Hi & Hd & _). unfold left_. destruct (pc_ th) eqn:E; try lia.
  destruct (decide (i_ th = cnt_ th)) as [He|]; [|lia]. by apply Hd in He.
Qed.

Lemma to_go_nonneg th : thr_ok th -> 0 <= to_go th.
Proof.
  intros (Hi & Hd & _). unfold to_go. destruct (pc_ th) eqn:E; try lia;
    (destruct (decide (i_ th = cnt_ th)) as [He|]; [by apply Hd in He|lia]).
Qed.

Lemma thr_busy th : thr_ok th -> pc_ th <> Done -> i_ th < cnt_ th.
Proof.
  intros (Hi & Hd & _) Hn. destruct (decide (i_ th = cnt_ th)) as [He|]; [by apply Hd in He|lia].
Qed.

Lemma left_sum s : Forall thr_ok (thrs s) -> Forall (fun y => 0 <= left_ y) (thrs s).
Proof. intros H. eapply Forall_impl; [exact H|]. apply left_nonneg. Qed.

(** Without the lock: some additions may be lost, none is made up. *)
Definition counts_at_most (N : Z) (s : St) : Prop :=
  num s + sum_over left_ (thrs s) <= N /\ Forall thr_ok (thrs s) /\
  (forall t th t3, thrs s !! t = Some th -> pc_ th = AtWrite t3 ->
     0 <= t3 /\ t3 + sum_over left_ (thrs s) <= N + 1) /\ 0 <= num s.

(** With it: nothing is lost, and the thread inside is the one that holds it. *)
Definition counts_exactly (N : Z) (s : St) : Prop :=
  num s + sum_over left_ (thrs s) = N /\ Forall thr_ok (thrs s) /\ 0 <= num s /\
  exists o, holds (lk s) o /\ (forall t, o = Some t -> is_Some (thrs s !! t)) /\
    (forall t th, thrs s !! t = Some th -> inside th = true <-> o = Some t) /\
    (forall t th t3, thrs s !! t = Some th -> pc_ th = AtWrite t3 -> t3 = num s + 1).

(** What a step of thread [t] does to the threads. *)
Definition moves (t : nat) (th th' : thr) (s s' : St) : Prop :=
  thrs s' = <[t := th']> (thrs s) /\ thr_ok th' /\ to_go th' + 1 <= to_go th.

Lemma next_moves t th s :
  thrs s !! t = Some th -> thr_ok th -> pc_ th = AtUnlock \/ (exists t3, pc_ th = AtWrite t3) ->
  cnt_ th < 2 ^ 31 ->
  let th' := mkThr (head_pc (i_ th + 1) (cnt_ th)) (i_ th + 1) (cnt_ th) in
  next t th s = Ok (Some (set_thr t th' s)) /\ thr_ok th' /\ to_go th' + 1 <= to_go th /\
  left_ th' = cnt_ th - i_ th - 1 /\ (useMutex = true -> inside th' = false) /\
  (forall t3, pc_ th' <> AtWrite t3).
Proof.
  intros Ht Hok Hpc Hc. assert (Hb : i_ th < cnt_ th).
  { apply thr_busy; [done|]. destruct Hpc as [->|[t3 ->]]; done. }
  destruct Hok as (Hi & _ & _).
  destruct (head_ok (i_ th + 1) (cnt_ th)) as (H1 & H2 & H3 & H4 & H5); [lia|]. cbv zeta.
  split_and!; [|done| |lia|done|done].
  - unfold next, int_add. rewrite schk_ok by (unfold in_s; lia). done.
  - unfold to_go at 2. destruct Hpc as [->|[t3 ->]]; lia.
Qed.

(** ** With the lock *)

Lemma exact_step N t s :
  useMutex = true -> N < 2 ^ 31 -> Forall (fun th => cnt_ th < 2 ^ 31) (thrs s) -> counts_exactly N s ->
  exists o, step t s = Ok o /\
    match o with
    | Some s' => counts_exactly N s' /\ Forall (fun th => cnt_ th < 2 ^ 31) (thrs s') /\
        sum_over to_go (thrs s') + (if spins t s then 0 else 1) <= sum_over to_go (thrs s)
    | None => True
    end.
Proof.
  intros Hm HN Hcnt (Hsum & Hok & Hnum & o & Hh & Hex & Hin & Hw). unfold step, spins.
  destruct (thrs s !! t) as [th|] eqn:Ht; [|by exists None].
  assert (Hth : thr_ok th) by (rewrite Forall_lookup in Hok; eauto).
  assert (Hc : cnt_ th < 2 ^ 31) by (rewrite Forall_lookup in Hcnt; eauto).
  pose proof (left_nonneg th Hth) as Hl. pose proof (sum_over_ge left_ _ t th (left_sum s Hok) Ht) as Hge.
  (* a step that only changes the thread *)
  assert (Hkeep : forall th' l' n' o',
    thr_ok th' -> cnt_ th' < 2 ^ 31 -> to_go th' + 1 <= to_go th ->
    n' + left_ th' = num s + left_ th -> 0 <= n' -> holds l' o' -> (forall u, o' = Some u -> is_Some (thrs s !! u)) ->
    (forall u thu, (<[t := th']> (thrs s)) !! u = Some thu -> inside thu = true <-> o' = Some u) ->
    (forall u thu t3, (<[t := th']> (thrs s)) !! u = Some thu -> pc_ thu = AtWrite t3 -> t3 = n' + 1) ->
    counts_exactly N (mkSt l' n' (<[t := th']> (thrs s))) /\
    Forall (fun th => cnt_ th < 2 ^ 31) (<[t := th']> (thrs s)) /\
    sum_over to_go (<[t := th']> (thrs s)) + 1 <= sum_over to_go (thrs s)).
  { intros th' l' n' o' H1 H2 H3 H4 H5 H6 H6' H7 H8. split_and!.
    - unfold counts_exactly. simpl. rewrite (sum_over_insert left_ _ t th th' Ht).
      split; [lia|]. split; [by apply Forall_insert|]. split; [done|]. exists o'.
      split; [done|]. split; [|done]. intros u Hu. destruct (decide (t = u)) as [->|Hne].
      + rewrite list_lookup_insert_eq by (by eapply lookup_lt_Some). by eexists.
      + rewrite list_lookup_insert_ne by done. by apply H6'.
    - by apply Forall_insert.
    - rewrite (sum_over_insert to_go _ t th th' Ht). lia. }
  assert (Hlook : forall th' u thu, (<[t := th']> (thrs s)) !! u = Some thu ->
    (u = t /\ thu = th') \/ (u <> t /\ thrs s !! u = Some thu)).
  { intros th' u thu Hu. destruct (decide (u = t)) as [->|Hne].
    - rewrite list_lookup_insert_eq in Hu by (by eapply lookup_lt_Some). left. by simplify_eq.
    - rewrite list_lookup_insert_ne in Hu by done. by right. }
  destruct th as [p i c]. simpl in *. unfold thr_ok in Hth. simpl in Hth. rewrite Hm in Hth.
  destruct p as [| |t3| |]; simpl.
  - (* AtLock *)
    destruct o as [u|].
    + assert (u <> t) by (intros ->; specialize (Hin t _ Ht); simpl in Hin; by destruct Hin as [_ Hi]; specialize (Hi eq_refl)).
      destruct (lock_held t u _ Hh) as [E|(l' & E & Hl')]; [done| |]; rewrite E; [by exists None|].
      simpl. eexists. split; [done|]. split; [|split; [done|simpl; lia]].
      split; [done|]. split; [done|]. split; [done|]. by exists (Some u).
    + destruct (lock_free t _ Hh) as (l' & -> & Hl'). simpl. eexists. split; [done|].
      apply (Hkeep (mkThr AtRead i c) l' (num s) (Some t)); unfold thr_ok, to_go, left_; simpl; try done; try lia.
      * rewrite Hm. destruct Hth as (? & Hd & _). split_and!; [lia|lia|split; [done|]|done].
        intros Hi. by apply Hd in Hi.
      * intros u [= <-]. by eexists.
      * intros u thu [[-> ->]|[Hne Hu]]%Hlook; [done|]. rewrite (Hin u thu Hu). split; [done|congruence].
      * intros u thu t3 [[-> ->]|[Hne Hu]]%Hlook; [done|]. eauto.
  - (* AtRead *)
    destruct Hth as (Hi & Hd & _). assert (i < c).
    { destruct (decide (i = c)) as [E|]; [by apply Hd in E|lia]. }
    assert (left_ (mkThr AtRead i c) = c - i) by done.
    unfold int_add. rewrite schk_ok by (unfold in_s; lia). simpl. eexists. split; [done|].
    apply (Hkeep (mkThr (AtWrite (num s + 1)) i c) (lk s) (num s) o);
      unfold thr_ok, to_go, left_; simpl; try done; try lia.
    + rewrite Hm. split_and!; [lia|lia|split; [done|lia]|done].
    + intros u thu [[-> ->]|[Hne Hu]]%Hlook; [by apply (Hin t _ Ht)|by apply Hin].
    + intros u thu t3 [[-> ->]|[Hne Hu]]%Hlook; [by intros [= <-]|eauto].
  - (* AtWrite *)
    destruct Hth as (Hi & Hd & _). rewrite Hm. eexists. split; [done|].
    assert (Ht3 : t3 = num s + 1) by (by eapply Hw). pose proof (proj1 (Hin t _ Ht) eq_refl) as ->.
    apply (Hkeep (mkThr AtUnlock i c) (lk s) t3 (Some t));
      unfold thr_ok, to_go, left_; simpl; try done; try lia.
    + rewrite Hm. split_and!; [lia|lia|split; [done|]|done]. intros E. by apply Hd in E.
    + intros u thu [[-> ->]|[Hne Hu]]%Hlook; [done|by apply Hin].
    + intros u thu t3' [[-> ->]|[Hne Hu]]%Hlook; [done|]. intros Hpc.
      assert (Hiu : inside thu = true) by (unfold inside; by rewrite Hpc).
      apply (Hin u thu Hu) in Hiu. congruence.
  - (* AtUnlock *)
    pose proof (proj1 (Hin t _ Ht) eq_refl) as ->. destruct (unlock_held t _ Hh) as (l' & -> & Hl'). simpl.
    destruct (next_moves t (mkThr AtUnlock i c) (set_lk l' s) Ht) as (E & N1 & N2 & N3 & N4 & N5);
      [unfold thr_ok; simpl; by rewrite Hm|by left|done|].
    simpl in *. rewrite E. eexists. split; [done|].
    apply (Hkeep _ l' (num s) None); try done.
    + rewrite N3. unfold left_. simpl. lia.
    + intros u thu [[-> ->]|[Hne Hu]]%Hlook; [by rewrite N4|]. rewrite (Hin u thu Hu). split; [congruence|done].
    + intros u thu t3 [[-> ->]|[Hne Hu]]%Hlook; [intros E3; by apply N5 in E3|eauto].
  - by exists None.
Qed.

(** Some thread can move, until all are done. *)
Lemma exact_progress N s :
  useMutex = true -> N < 2 ^ 31 -> Forall (fun th => cnt_ th < 2 ^ 31) (thrs s) -> counts_exactly N s ->
  ~ all_done s -> exists t s', step t s = Ok (Some s') /\ spins t s = false.
Proof.
  intros Hm HN Hcnt Hs Hnd. pose proof Hs as (_ & Hok & _ & o & Hh & Hex & Hin & _).
  destruct o as [t|].
  - destruct (Hex t eq_refl) as [th Ht]. exists t.
    destruct (exact_step N t s Hm HN Hcnt Hs) as (o' & E & _). rewrite E.
    assert (Hsp : spins t s = false).
    { unfold spins. rewrite Ht. pose proof (proj2 (Hin t th Ht) eq_refl) as Hi. unfold inside in Hi.
      by destruct (pc_ th). }
    destruct o' as [s'|]; [by eexists|exfalso].
    assert (Hi : inside th = true) by by apply (Hin t th Ht).
    unfold step in E. rewrite Ht in E. unfold inside in Hi. destruct (pc_ th); try done.
    + unfold mbind, outcome_bind in E. by destruct (int_add (num s) 1).
    + by rewrite Hm in E.
    + unfold next, mbind, outcome_bind in E. destruct (unlock t (lk s)); [|done..].
      by destruct (int_add (i_ th) 1).
  - apply not_Forall_Exists in Hnd; [|intros th; destruct (pc_ th); (by left) || (by right)].
    apply Exists_exists in Hnd as (th & Hth & Hpc). apply list_elem_of_lookup in Hth as [t Ht].
    exists t. unfold step, spins. rewrite Ht.
    assert (Hi : inside th = false) by (apply not_true_is_false; intros Hi; by apply (Hin t th Ht) in Hi).
    rewrite Forall_lookup in Hok. pose proof (Hok t th Ht) as (_ & _ & Hmx).
    unfold inside in Hi. simpl in Hpc. destruct (pc_ th); try done.
    destruct (lock_free t _ Hh) as (l' & -> & _). by eexists.
Qed.

(** ** Without it *)

Lemma most_step N t s :
  useMutex = false -> N < 2 ^ 31 -> Forall (fun th => cnt_ th < 2 ^ 31) (thrs s) -> counts_at_most N s ->
  exists o, step t s = Ok o /\
    match o with
    | Some s' => counts_at_most N s' /\ Forall (fun th => cnt_ th < 2 ^ 31) (thrs s')
    | None => True
    end.
Proof.
  intros Hm HN Hcnt (Hsum & Hok & Hw & Hnum). unfold step.
  destruct (thrs s !! t) as [th|] eqn:Ht; [|by exists None].
  assert (Hth : thr_ok th) by (rewrite Forall_lookup in Hok; eauto).
  assert (Hc : cnt_ th < 2 ^ 31) by (rewrite Forall_lookup in Hcnt; eauto).
  pose proof (sum_over_ge left_ _ t th (left_sum s Hok) Ht) as Hge.
  destruct th as [p i c]. simpl in *. unfold thr_ok in Hth. simpl in Hth. rewrite Hm in Hth.
  destruct Hth as (Hi & Hd & Hpc). destruct p as [| |t3| |]; [by destruct Hpc| | |by destruct Hpc|by exists None].
  - (* AtRead *)
    assert (i < c). { destruct (decide (i = c)) as [E|]; [by apply Hd in E|lia]. }
    assert (left_ (mkThr AtRead i c) = c - i) by done.
    unfold int_add. rewrite schk_ok by (unfold in_s; lia). simpl. eexists. split; [done|].
    split; [|by apply Forall_insert]. unfold counts_at_most. simpl.
    assert (left_ (mkThr (AtWrite (num s + 1)) i c) = c - i) by done.
    rewrite (sum_over_insert left_ _ t _ _ Ht).
    split; [lia|]. split; [|split; [|done]].
    + apply Forall_insert; [done|]. unfold thr_ok. simpl. rewrite Hm. split_and!; [lia|lia|split; [done|lia]|done|done].
    + intros u thu t3. destruct (decide (u = t)) as [->|Hne].
      * rewrite list_lookup_insert_eq by (by eapply lookup_lt_Some). intros [= <-]. simpl. intros [= <-]. lia.
      * rewrite list_lookup_insert_ne by done. intros Hu Ep. destruct (Hw u thu t3 Hu Ep). lia.
  - (* AtWrite *)
    rewrite Hm. destruct (Hw t _ t3 Ht eq_refl) as [H0 H1].
    destruct (next_moves t (mkThr (AtWrite t3) i c) (set_num t3 s) Ht) as (E & N1 & N2 & N3 & N4 & N5);
      [unfold thr_ok; simpl; by rewrite Hm|right; by eexists|done|].
    simpl in *. rewrite E. eexists. split; [done|]. split; [|by apply Forall_insert].
    assert (left_ (mkThr (AtWrite t3) i c) = c - i) by done.
    unfold counts_at_most. simpl. rewrite (sum_over_insert left_ _ t _ _ Ht), N3. split; [lia|].
    split; [by apply Forall_insert|]. split; [|done].
    intros u thu t3'. destruct (decide (u = t)) as [->|Hne].
    + rewrite list_lookup_insert_eq by (by eapply lookup_lt_Some). intros [= <-] E3. by apply N5 in E3.
    + rewrite list_lookup_insert_ne by done. intros Hu Ep. destruct (Hw u thu t3' Hu Ep). lia.
Qed.

(** ** The start *)

Lemma sum_over_map {A B} (f : B -> Z) (g : A -> B) l : sum_over f (map g l) = sum_over (fun x => f (g x)) l.
Proof. induction l as [|x l IH]; simpl; [done|]. by rewrite IH. Qed.

Lemma start_ok cnts :
  Forall (fun c => 0 <= c < 2 ^ 31) cnts ->
  let s := St_new cnts in
  Forall thr_ok (thrs s) /\ Forall (fun th => cnt_ th < 2 ^ 31) (thrs s) /\
  sum_over left_ (thrs s) = sum_over id cnts /\ sum_over to_go (thrs s) <= 4 * sum_over id cnts /\
  (useMutex = true -> forall t th, thrs s !! t = Some th -> inside th = false) /\
  (forall t th t3, thrs s !! t = Some th -> pc_ th <> AtWrite t3).
Proof.
  intros Hc. simpl. rewrite !sum_over_map.
  assert (Hh : Forall (fun c => let th := mkThr (head_pc 0 c) 0 c in
    thr_ok th /\ left_ th = c - 0 /\ (useMutex = true -> inside th = false) /\
    to_go th <= 4 * (c - 0) /\ (forall t3, pc_ th <> AtWrite t3)) cnts).
  { eapply Forall_impl; [exact Hc|]. intros c [Hcr _]. apply (head_ok 0 c). lia. }
  split_and!.
  - apply Forall_map. eapply Forall_impl; [exact Hh|]. by intros c (H1 & _).
  - apply Forall_map. eapply Forall_impl; [exact Hc|]. intros c [_ Hcr]. done.
  - clear Hc. induction Hh as [|c cnts (_ & H2 & _) _ IH]; [done|]. simpl. rewrite IH, H2. unfold id. lia.
  - clear Hc. induction Hh as [|c cnts (_ & _ & _ & H4 & _) _ IH]; [done|]. simpl. unfold id in *. lia.
  - intros Hm t th. rewrite list_lookup_fmap. intros (c & Ht & ->)%fmap_Some.
    rewrite Forall_lookup in Hh. by apply (Hh t c Ht).
  - intros t th t3. rewrite list_lookup_fmap. intros (c & Ht & ->)%fmap_Some.
    rewrite Forall_lookup in Hh. by apply (Hh t c Ht).
Qed.
End counting.

Lemma sum_over_all_done useMutex (l : list thr) :
  Forall (fun th => pc_ th = Done) l -> Forall (thr_ok useMutex) l -> sum_over left_ l = 0.
Proof.
  intros Hd Hok. apply sum_over_zero. rewrite Forall_lookup in *. intros t th Ht.
  destruct (Hok t th Ht) as (_ & Hi & _). unfold left_. pose proof (Hd t th Ht) as E. rewrite E. apply Hi in E. lia.
Qed.

(** The steps of a run that are no failing rounds use up what is to do. *)
Lemma locked_run {LS} {HL : Lock LS} N s ls s' :
  N < 2 ^ 31 -> counts_exactly true N s -> Forall (fun th => cnt_ th < 2 ^ 31) (thrs s) ->
  runs (step true) s ls s' ->
  counts_exactly true N s' /\ Forall (fun th => cnt_ th < 2 ^ 31) (thrs s') /\
  len ls + sum_over to_go (thrs s') <= sum_over to_go (thrs s) + failed_rounds true ls s.
Proof.
  intros HN H1 H2 Hr. revert H1 H2. induction Hr as [s|s t s1 ls s' E _ IH]; intros H1 H2; [simpl; split_and!; [done|done|lia]|].
  destruct (exact_step true N t s eq_refl HN H2 H1) as (o & E' & Ho).
  rewrite E in E'. injection E' as <-. destruct Ho as (Ho1 & Ho2 & Ho3).
  destruct (IH Ho1 Ho2) as (I1 & I2 & I3). split_and!; [done|done|].
  cbn [failed_rounds]. rewrite E. simpl length. destruct (spins t s); lia.
Qed.

(** C18. Threads that call [repeat] with a lock count exactly, whichever lock promises
    what [Lock] says, [std::mutex] or the spin lock, as long as the additions asked
    for are less than 2^31 together (beyond, the [int] overflows): no interleaving
    is undefined, never are two threads inside, until all are done some thread can
    make a step that is not a failing round of [lock], a run has at most four steps
    per addition apart from the failing rounds (with [std::mutex] there are none,
    a waiting thread of the spin lock may make any number), and at the end [num] is
    the sum. *)
Theorem locked_counts_exactly {LS} {HL : Lock LS} cnts ls s :
  Forall (fun c => 0 <= c < 2 ^ 31) cnts -> sum_over id cnts < 2 ^ 31 ->
  runs (step true) (St_new true cnts) ls s ->
  len ls <= 4 * sum_over id cnts + failed_rounds true ls (St_new true cnts) /\
  (forall t, exists o, step true t s = Ok o) /\
  (forall t u th thu, thrs s !! t = Some th -> thrs s !! u = Some thu ->
     inside th = true -> inside thu = true -> t = u) /\
  (~ all_done s -> exists t s', step true t s = Ok (Some s') /\ spins t s = false) /\
  (all_done s -> num s = sum_over id cnts).
Proof.
  intros Hc Hs Hr. set (N := sum_over id cnts) in *.
  destruct (start_ok true cnts Hc) as (S1 & S2 & S3 & S4 & S5 & S6).
  assert (H0 : counts_exactly true N (St_new (LS := LS) true cnts)).
  { split; [rewrite S3; simpl; lia|]. split; [done|]. split; [done|].
    exists None. split; [apply lock_new_free|]. split; [done|]. split.
    - intros t th Ht. rewrite (S5 eq_refl t th Ht). done.
    - intros t th t3 Ht E. by apply (S6 t th t3 Ht) in E. }
  destruct (locked_run N _ ls s Hs H0 S2 Hr) as (Hex & Hcnt & Hlen).
  pose proof Hex as (Hsum & Hok & _ & o & _ & _ & Hin & _). split_and!.
  - assert (0 <= sum_over to_go (thrs s)); [|lia].
    apply sum_over_forall. eapply Forall_impl; [exact Hok|]. apply to_go_nonneg.
  - intros t. destruct (exact_step true N t s eq_refl Hs Hcnt Hex) as (o' & E & _). by exists o'.
  - intros t u th thu Ht Hu Hit%(Hin t th Ht) Hiu%(Hin u thu Hu). congruence.
  - by apply (exact_progress true N).
  - intros Hd. rewrite (sum_over_all_done true) in Hsum by done. lia.
Qed.

(** A waiting thread of [std::mutex] is blocked and makes no failing rounds. *)
Lemma mutex_never_spins t (s : St (LS := std_mutex)) : spins t s = false.
Proof.
  unfold spins. destruct (thrs s !! t) as [th|]; [|done]. destruct (pc_ th); try done.
  simpl. unfold mutex_lock. destruct (owner (lk s)) as [u|]; [|done]. by case_decide.
Qed.

(** Without the lock nothing is undefined either and [num] never exceeds the number
    of additions asked for, but additions get lost: two threads that add one each
    can leave [num] at one. *)
Theorem unlocked_counts_at_most {LS} {HL : Lock LS} cnts ls s :
  Forall (fun c => 0 <= c < 2 ^ 31) cnts -> sum_over id cnts < 2 ^ 31 ->
  runs (step false) (St_new false cnts) ls s ->
  (forall t, exists o, step false t s = Ok o) /\ 0 <= num s <= sum_over id cnts.
Proof.
  intros Hc Hs Hr. set (N := sum_over id cnts) in *.
  destruct (start_ok false cnts Hc) as (S1 & S2 & S3 & S4 & S5 & S6).
  set (I := fun s : St (LS := LS) => counts_at_most false N s /\ Forall (fun th => cnt_ th < 2 ^ 31) (thrs s)).
  assert (H0 : I (St_new false cnts)).
  { split; [|done]. split; [rewrite S3; simpl; lia|]. split; [done|]. split; [|done].
    intros t th t3 Ht E. by apply (S6 t th t3 Ht) in E. }
  assert (HI : I s).
  { eapply (runs_invariant (step false) I); [|exact H0|exact Hr]. intros t s1 s2 [H1 H2] E.
    destruct (most_step false N t s1 eq_refl Hs H2 H1) as (o & E' & Ho). rewrite E in E'.
    by injection E' as <-. }
  destruct HI as [Hm Hcnt]. split.
  - intros t. destruct (most_step false N t s eq_refl Hs Hcnt Hm) as (o & E & _). by exists o.
  - destruct Hm as (Hsum & Hok & _ & Hnum). pose proof (sum_over_forall left_ _ (left_sum false s Hok)). lia.
Qed.

Definition num_done {LS} (s : St (LS := LS)) : Z * bool :=
  (num s, forallb (fun th => match pc_ th with Done => true | _ => false end) (thrs s)).

Example update_lost :
  num_done <$> execute (step (LS := Spinlock.spinlock_mtx) false) [0; 1; 0; 1]%nat (St_new false [1; 1])
  = Some (1, true).
Proof. reflexivity. Qed.

(** A thread waits at the spin lock and makes two rounds. *)
Example spin_then_enter :
  num_done <$> execute (step (LS := Spinlock.spinlock_mtx) true)
    [0; 1; 0; 1; 0; 0; 1; 1; 1; 1]%nat (St_new true [1; 1])
  = Some (2, true).
Proof. reflexivity. Qed.

Lemma locked_counts_exactly_witness : exists s : St (LS := Spinlock.spinlock_mtx),
  failed_rounds true [0; 1; 0; 1; 0; 0; 1; 1; 1; 1]%nat (St_new (LS := Spinlock.spinlock_mtx) true [1; 1]) = 2 /\
  (forall t, exists o, step true t s = Ok o) /\ num s = 2.
Proof.
  destruct (execute (step (LS := Spinlock.spinlock_mtx) true) [0; 1; 0; 1; 0; 0; 1; 1; 1; 1]%nat (St_new true [1; 1]))
    as [s|] eqn:E; [|discriminate].
  exists s. split; [reflexivity|].
  destruct (locked_counts_exactly [1; 1] [0; 1; 0; 1; 0; 0; 1; 1; 1; 1]%nat s
    ltac:(repeat constructor; lia) eq_refl (execute_runs _ _ _ _ E)) as (_ & H1 & _ & _ & H2).
  split; [exact H1|]. apply H2. injection E as <-. repeat constructor.
Defined.

Lemma unlocked_counts_at_most_witness : exists s : St (LS := std_mutex),
  (forall t, exists o, step false t s = Ok o) /\ 0 <= num s <= sum_over id [1; 1].
Proof.
  eexists. apply (unlocked_counts_at_most [1; 1] [0; 1; 0; 1]%nat).
  - by apply (bool_decide_unpack _).
  - done.
  - apply execute_runs. reflexivity.
Defined.
