(* ===== verification/WorkQueue.v ===== *)
(** * A thread pool and a work-stealing queue ([cpp_concurrency_2nd/thread_pool.cpp])

    [thread_pool]: workers that poll a queue until the destructor sets [done] and
    joins them; the thread that owns the pool submits tasks and then destroys it.
    Its [thread_safe_queue] is declared nowhere in the repository, so it is the
    class [SafeQueue], of which the pool needs only that it neither loses nor
    doubles elements; [join_threads] is the class of
    [parallel_find_accu_async_for_each.cpp], whose destructor joins every thread.
    [work_stealing_queue]: a deque whose owner pushes and pops at the front and
    whose thieves take from the back; every operation is one critical section.
    A task is a value of any type; running it ends. *)

From Stdlib Require Import Sorting.Sorted.
From S2P Require Import Prelude CppInt Turns.

(** ** The pool *)

(** [thread_safe_queue], by its critical sections: [push] and [try_pop]. *)
Class SafeQueue (T Q : Type) := {
  queue_new : Q;
  queue_push : T -> Q -> Q;
  queue_try_pop : Q -> option T * Q;
}.

(** Nothing is lost and nothing comes twice; the order is open, and [try_pop] may fail. *)
Class SafeQueueLaws (T Q : Type) `{SafeQueue T Q} := {
  queue_items : Q -> list T;
  items_new : queue_items queue_new = [];
  items_push x q : queue_items (queue_push x q) ≡ₚ x :: queue_items q;
  items_try_pop q :
    match queue_try_pop q with
    | (Some x, q') => queue_items q ≡ₚ x :: queue_items q'
    | (None, q') => queue_items q ≡ₚ queue_items q'
    end;
}.

Module Pool.
Section pool.
Context {T Q : Type} {HQ : SafeQueue T Q} {HL : SafeQueueLaws T Q}.

Inductive wpc : Type := Check_done | Try_pop | Run (tsk : T) | Exited.
Inductive mpc : Type := Submitting (todo : list T) | Joining (i : nat) | Destroyed.

Record thread_pool := mkPool {
  done : bool;
  work_queue : Q;
  workers : list wpc;
  owner : mpc;
  started : list T;      (* the tasks workers have taken, in order *)
  finished : list T;
}.

Definition set_worker (t : nat) (p : wpc) (s : thread_pool) : thread_pool :=
  mkPool (done s) (work_queue s) (<[t := p]> (workers s)) (owner s) (started s) (finished s).
Definition set_owner (p : mpc) (s : thread_pool) : thread_pool :=
  mkPool (done s) (work_queue s) (workers s) p (started s) (finished s).

(** The constructor starts the workers, as many as the hardware has threads. *)
Definition thread_pool_new (hw_th : nat) (tasks : list T) : thread_pool :=
  mkPool false (queue_new (T := T)) (replicate hw_th Check_done) (Submitting tasks) [] [].

(** A step of [worker_thread]. *)
Definition worker_thread (t : nat) (s : thread_pool) : option thread_pool :=
  p ← workers s !! t;
  match p with
  | Check_done => Some (set_worker t (if done s then Exited else Try_pop) s)
  | Try_pop =>
      match queue_try_pop (work_queue s) with
      | (None, q) =>
          Some (set_worker t Check_done
            (mkPool (done s) q (workers s) (owner s) (started s) (finished s)))
      | (Some tsk, q) =>
          Some (set_worker t (Run tsk)
            (mkPool (done s) q (workers s) (owner s) (started s ++ [tsk]) (finished s)))
      end
  | Run tsk =>
      Some (set_worker t Check_done
        (mkPool (done s) (work_queue s) (workers s) (owner s) (started s) (finished s ++ [tsk])))
  | Exited => None
  end.

Definition submit (f : T) (s : thread_pool) : thread_pool :=
  mkPool (done s) (queue_push f (work_queue s)) (workers s) (owner s) (started s) (finished s).

(** A step of the owner: it submits its tasks and then runs the destructor, which
    sets [done] and whose [joiner] joins the workers one after the other. *)
Definition owner_thread (s : thread_pool) : option thread_pool :=
  match owner s with
  | Submitting (f :: todo) => Some (set_owner (Submitting todo) (submit f s))
  | Submitting [] =>
      Some (mkPool true (work_queue s) (workers s) (Joining 0) (started s) (finished s))
  | Joining i =>
      match workers s !! i with
      | Some Exited => Some (set_owner (Joining (S i)) s)
      | Some _ => None
      | None => Some (set_owner Destroyed s)
      end
  | Destroyed => None
  end.

Inductive label : Type := Worker (t : nat) | Owner.
Definition step (l : label) (s : thread_pool) : outcome (option thread_pool) :=
  Ok (match l with Worker t => worker_thread t s | Owner => owner_thread s end).

(** ** What holds in every state *)

Definition todo_of (p : mpc) : list T := match p with Submitting todo => todo | _ => [] end.
Definition running (l : list wpc) : list T :=
  omap (fun p => match p with Run tsk => Some tsk | _ => None end) l.

Record pool_inv (tasks : list T) (s : thread_pool) : Prop := {
  pi_order : started s ++ queue_items (work_queue s) ++ todo_of (owner s) ≡ₚ tasks;
  pi_once : started s ≡ₚ finished s ++ running (workers s);
  pi_done : done s = match owner s with Submitting _ => false | _ => true end;
  pi_join : forall i, match owner s with
    | Submitting _ => True
    | Joining n => (i < n)%nat -> (n <= length (workers s))%nat /\ workers s !! i = Some Exited
    | Destroyed => (i < length (workers s))%nat -> workers s !! i = Some Exited
    end;
}.

Lemma running_insert l t p q :
  l !! t = Some p ->
  running (<[t := q]> l) ++ running [p] ≡ₚ running l ++ running [q].
Proof.
  revert t. induction l as [|x l IH]; intros [|t] Ht; try done; simpl in *.
  - injection Ht as ->. unfold running. simpl.
    destruct p, q; simpl; rewrite ?app_nil_r; try done; try solve_Permutation.
  - specialize (IH t Ht). unfold running in *. simpl. destruct x; simpl; try done. by rewrite IH.
Qed.

Lemma running_set s t p q :
  workers s !! t = Some p -> running (<[t := q]> (workers s)) ++ running [p] ≡ₚ running (workers s) ++ running [q].
Proof. apply running_insert. Qed.

(** A worker that moves has not exited, so the joined ones stay where they are. *)
Lemma pool_join_kept s t p q :
  workers s !! t = Some p -> p <> Exited ->
  (forall i, match owner s with
     | Submitting _ => True
     | Joining n => (i < n)%nat -> (n <= length (workers s))%nat /\ workers s !! i = Some Exited
     | Destroyed => (i < length (workers s))%nat -> workers s !! i = Some Exited
     end) ->
  forall i, match owner s with
     | Submitting _ => True
     | Joining n => (i < n)%nat -> (n <= length (<[t := q]> (workers s)))%nat /\
         <[t := q]> (workers s) !! i = Some Exited
     | Destroyed => (i < length (<[t := q]> (workers s)))%nat -> <[t := q]> (workers s) !! i = Some Exited
     end.
Proof.
  intros Ht Hp H i. specialize (H i). rewrite length_insert. destruct (owner s); [done| |]; intros Hi.
  - destruct (H Hi) as [Hn He]. split; [done|].
    destruct (decide (i = t)) as [->|]; [congruence|by rewrite list_lookup_insert_ne].
  - specialize (H Hi).
    destruct (decide (i = t)) as [->|]; [congruence|by rewrite list_lookup_insert_ne].
Qed.

Lemma pool_inv_step tasks l s s' : pool_inv tasks s -> step l s = Ok (Some s') -> pool_inv tasks s'.
Proof.
  intros [H1 H2 H3 H4] [= E]. destruct l as [t|]; simpl in E.
  - unfold worker_thread in E. destruct (workers s !! t) as [p|] eqn:Ht; [|discriminate]. simpl in E.
    assert (Hj := fun q Hp => pool_join_kept s t p q Ht Hp H4).
    assert (Hrun := fun q => running_set s t p q Ht).
    destruct p as [| |tsk|]; [|pose proof (items_try_pop (work_queue s)) as Hpop; destruct (queue_try_pop (work_queue s)) as [[tsk|] q]| |discriminate];
      injection E as <-; (split; [simpl|simpl|done|by apply Hj]).
    + exact H1.
    + specialize (Hrun (if done s then Exited else Try_pop)).
      destruct (done s); unfold running at 2 4 in Hrun; simpl in Hrun; rewrite !app_nil_r in Hrun; by rewrite Hrun.
    + rewrite Hpop in H1. by rewrite <- app_assoc.
    + specialize (Hrun (Run tsk)). unfold running at 2 4 in Hrun. simpl in Hrun. rewrite app_nil_r in Hrun.
      rewrite Hrun, H2. by rewrite app_assoc.
    + by rewrite Hpop in H1.
    + specialize (Hrun Check_done). unfold running at 2 4 in Hrun. simpl in Hrun. rewrite !app_nil_r in Hrun.
      by rewrite Hrun.
    + done.
    + specialize (Hrun Check_done). unfold running at 2 4 in Hrun. simpl in Hrun. rewrite app_nil_r in Hrun.
      rewrite H2, <- Hrun. rewrite <- app_assoc. by rewrite (Permutation_app_comm [tsk]).
  - unfold owner_thread in E. destruct (owner s) as [[|f todo]|i|] eqn:Eo.
    + injection E as <-. split; simpl; try done. intros i Hi. lia.
    + injection E as <-. split; simpl; try done. simpl in H1.
      rewrite items_push. simpl. by rewrite (Permutation_middle (queue_items (work_queue s))).
    + destruct (workers s !! i) as [[]|] eqn:Hi; try discriminate; injection E as <-.
      * split; simpl; try done. intros j Hj. destruct (decide (j = i)) as [->|Hne].
        -- split; [|done]. apply lookup_lt_Some in Hi. lia.
        -- destruct (H4 j ltac:(lia)) as [_ He]. split; [|done]. apply lookup_lt_Some in Hi. lia.
      * split; simpl; try done. intros j Hj. apply lookup_ge_None in Hi. apply H4. lia.
    + discriminate.
Qed.

Lemma running_check n : running (replicate n Check_done) = [].
Proof. induction n; [done|]. done. Qed.

Lemma pool_inv_new hw_th tasks : pool_inv tasks (thread_pool_new hw_th tasks).
Proof. split; simpl; try done; [by rewrite items_new|by rewrite running_check]. Qed.

Lemma pool_inv_runs hw_th tasks ls s :
  runs step (thread_pool_new hw_th tasks) ls s -> pool_inv tasks s /\ length (workers s) = hw_th.
Proof.
  intros Hr. eapply (runs_invariant step (fun s => pool_inv tasks s /\ length (workers s) = hw_th)); [| |exact Hr].
  - intros l s1 s2 [H1 H2] E. split; [by eapply pool_inv_step|].
    destruct l as [t|]; injection E as E; simpl in E.
    + unfold worker_thread in E. destruct (workers s1 !! t) as [[]|]; simpl in E;
        try destruct (queue_try_pop (work_queue s1)) as [[]]; simplify_eq; simpl; by rewrite ?length_insert.
    + unfold owner_thread in E. destruct (owner s1) as [[]|i|]; try destruct (workers s1 !! i) as [[]|];
        simplify_eq; done.
  - split; [apply pool_inv_new|]. simpl. by rewrite length_replicate.
Qed.

(** ** The destructor comes to an end *)

Definition wpc_left (p : wpc) : Z := match p with Exited => 0 | Check_done => 1 | Run _ => 2 | Try_pop => 3 end.
Definition mpc_left (n : nat) (p : mpc) : Z :=
  match p with Submitting _ => 0 | Joining i => Z.of_nat n - Z.of_nat i + 1 | Destroyed => 0 end.
Definition pool_left (s : thread_pool) : Z :=
  sum_over wpc_left (workers s) + mpc_left (length (workers s)) (owner s).

Definition closing (s : thread_pool) : Prop :=
  done s = true /\ match owner s with Submitting _ => False | Joining i => (i <= length (workers s))%nat | Destroyed => True end.

Lemma closing_step l s s' :
  closing s -> step l s = Ok (Some s') -> closing s' /\ pool_left s' + 1 <= pool_left s.
Proof.
  intros [Hd Ho] [= E]. unfold closing, pool_left. destruct l as [t|]; simpl in E.
  - unfold worker_thread in E. destruct (workers s !! t) as [p|] eqn:Ht; [|discriminate]. simpl in E.
    pose proof (fun q => sum_over_insert wpc_left _ t p q Ht) as Hs.
    destruct p as [| |tsk|]; [rewrite Hd in E|destruct (queue_try_pop (work_queue s)) as [[]]| |discriminate]; injection E as <-; simpl;
      rewrite length_insert, Hs; simpl; (split; [done|lia]).
  - unfold owner_thread in E. destruct (owner s) as [[|f todo]|i|]; [done|done| |discriminate].
    destruct (workers s !! i) as [[]|] eqn:Hi; try discriminate; injection E as <-; simpl.
    + apply lookup_lt_Some in Hi. split; [split; [done|lia]|lia].
    + split; [done|lia].
Qed.

Lemma closing_progress s : closing s -> owner s <> Destroyed -> exists l s', step l s = Ok (Some s').
Proof.
  intros [Hd Ho] Hn. destruct (owner s) as [todo|i|] eqn:Eo; [done| |done].
  destruct (workers s !! i) as [p|] eqn:Hi.
  - destruct (decide (wpc_left p = 0)) as [Hp|Hp].
    + exists Owner. unfold step, owner_thread. rewrite Eo, Hi. destruct p; simpl in Hp; try lia. by eexists.
    + exists (Worker i). unfold step, worker_thread. rewrite Hi. simpl.
      destruct p; simpl in Hp; try lia; try (by eexists). destruct (queue_try_pop (work_queue s)) as [[]]; by eexists.
  - exists Owner. unfold step, owner_thread. rewrite Eo, Hi. by eexists.
Qed.

Lemma pool_left_bound s : closing s -> 0 <= pool_left s <= 4 * len (workers s) + 1.
Proof.
  intros [_ Ho]. unfold pool_left.
  assert (0 <= sum_over wpc_left (workers s) <= 3 * len (workers s)).
  { clear. induction (workers s) as [|p l IH]; [done|].
    assert (0 <= wpc_left p <= 3) by (destruct p; simpl; lia). cbn [sum_over]. rewrite length_cons. lia. }
  destruct (owner s); simpl in *; lia.
Qed.
End pool.
#[global] Arguments wpc : clear implicits.
#[global] Arguments mpc : clear implicits.
#[global] Arguments thread_pool : clear implicits.
End Pool.

(** ** The work-stealing queue *)

Section work_stealing_queue.
Context {T : Type}.

Definition push (data : T) (the_queue : list T) : list T := data :: the_queue.
Definition empty (the_queue : list T) : bool := match the_queue with [] => true | _ => false end.
Definition try_pop (the_queue : list T) : option T * list T :=
  match the_queue with
  | [] => (None, [])
  | x :: q => (Some x, q)
  end.
Definition try_steal (the_queue : list T) : option T * list T :=
  match last the_queue with
  | None => (None, the_queue)
  | Some x => (Some x, removelast the_queue)
  end.

(** The critical sections of its users, in the order in which they happen. *)
Inductive wsop : Type := Push (x : T) | TryPop | TrySteal.

(** What the operations returned, and what is left. *)
Fixpoint ws_run (ops : list wsop) (q : list T) : list (wsop * option T) * list T :=
  match ops with
  | [] => ([], q)
  | op :: ops =>
      let '(r, q) := match op with
                     | Push x => (None, push x q)
                     | TryPop => try_pop q
                     | TrySteal => try_steal q
                     end in
      let '(rs, q) := ws_run ops q in
      ((op, r) :: rs, q)
  end.

Definition pushed (ops : list wsop) : list T := omap (fun op => match op with Push x => Some x | _ => None end) ops.
Definition taken (rs : list (wsop * option T)) : list T := omap snd rs.
Definition stolen (rs : list (wsop * option T)) : list T :=
  omap (fun r => match r.1 with TrySteal => r.2 | _ => None end) rs.
End work_stealing_queue.
#[global] Arguments wsop : clear implicits.

(** The victims [pop_task_from_other_thread_queue] tries, in order. *)
Definition victims (my_index n : Z) : list Z := map (fun i => u32 (u64 (my_index + i + 1) mod n)) (seqZ 0 n).

Section work_stealing_facts.
Context {T : Type}.

Lemma ws_run_conserves (ops : list (wsop T)) q rs q' :
  ws_run ops q = (rs, q') -> q ++ pushed ops ≡ₚ taken rs ++ q'.
Proof.
  revert q rs q'. induction ops as [|op ops IH]; intros q rs q'; simpl.
  { intros [= <- <-]. by rewrite app_nil_r. }
  destruct op as [x| |]; simpl.
  - destruct (ws_run ops (push x q)) as [rs1 q1] eqn:E. intros [= <- <-]. apply IH in E.
    unfold taken. simpl. fold (taken rs1). rewrite <- E. simpl. by rewrite Permutation_middle.
  - destruct q as [|x q]; simpl.
    + destruct (ws_run ops []) as [rs1 q1] eqn:E. intros [= <- <-]. by apply IH in E.
    + destruct (ws_run ops q) as [rs1 q1] eqn:E. intros [= <- <-]. apply IH in E.
      unfold taken. simpl. by rewrite E.
  - unfold try_steal. destruct q as [|x q _] using rev_ind; simpl.
    + destruct (ws_run ops []) as [rs1 q1] eqn:E. intros [= <- <-]. by apply IH in E.
    + rewrite last_snoc, removelast_last. destruct (ws_run ops q) as [rs1 q1] eqn:E.
      intros [= <- <-]. apply IH in E. unfold taken. simpl. fold (taken rs1). rewrite <- E.
      rewrite <- app_assoc. simpl. by rewrite <- Permutation_middle.
Qed.

Lemma ws_run_steals (ops : list (wsop T)) q rs q' :
  ws_run ops q = (rs, q') -> stolen rs ++ reverse q' `sublist_of` reverse q ++ pushed ops.
Proof.
  revert q rs q'. induction ops as [|op ops IH]; intros q rs q'; simpl.
  { intros [= <- <-]. simpl. by rewrite app_nil_r. }
  destruct op as [x| |]; simpl.
  - destruct (ws_run ops (push x q)) as [rs1 q1] eqn:E. intros [= <- <-]. apply IH in E.
    unfold push in E. rewrite reverse_cons, <- app_assoc in E. exact E.
  - destruct q as [|x q]; simpl.
    + destruct (ws_run ops []) as [rs1 q1] eqn:E. intros [= <- <-]. by apply IH in E.
    + destruct (ws_run ops q) as [rs1 q1] eqn:E. intros [= <- <-]. apply IH in E.
      rewrite reverse_cons, <- app_assoc. etransitivity; [exact E|].
      apply sublist_app; [done|]. by apply sublist_cons.
  - unfold try_steal. destruct q as [|x q _] using rev_ind; simpl.
    + destruct (ws_run ops []) as [rs1 q1] eqn:E. intros [= <- <-]. by apply IH in E.
    + rewrite last_snoc, removelast_last. destruct (ws_run ops q) as [rs1 q1] eqn:E.
      intros [= <- <-]. apply IH in E. rewrite reverse_snoc. unfold stolen. simpl. by apply sublist_skip.
Qed.
End work_stealing_facts.

Lemma victims_rotation m n :
  0 <= m < n -> n <= 2 ^ 32 -> victims m n = seqZ (m + 1) (n - m - 1) ++ seqZ 0 (m + 1).
Proof.
  intros Hm Hn. unfold victims.
  assert (seqZ 0 n = seqZ 0 (n - m - 1) ++ seqZ (n - m - 1) (m + 1)) as ->.
  { rewrite <- (Z.add_0_l (n - m - 1)) at 2. rewrite <- seqZ_app by lia. f_equal. lia. }
  rewrite map_app. f_equal.
  - rewrite <- (Z.add_0_r (m + 1)) at 1. rewrite <- fmap_add_seqZ.
    apply map_ext_in. intros i [? ?]%list_elem_of_In%elem_of_seqZ.
    rewrite u64_small by lia. rewrite Z.mod_small by lia. rewrite u32_small; lia.
  - rewrite <- (Z.add_0_r (n - m - 1)). rewrite <- fmap_add_seqZ.
    etransitivity; [apply (map_map (Z.add (n - m - 1)) _ (seqZ 0 (m + 1)))|].
    rewrite <- (map_id (seqZ 0 (m + 1))) at 2.
    apply map_ext_in. intros i [? ?]%list_elem_of_In%elem_of_seqZ.
    rewrite u64_small by lia. replace (m + (n - m - 1 + i) + 1) with (i + 1 * n) by lia.
    rewrite Z_mod_plus_full. rewrite Z.mod_small by lia. rewrite u32_small; lia.
Qed.

(** C19. The thread pool runs each task at most once and loses none but those left in
    the queue: in every state of every interleaving what the workers have taken,
    what is queued and what is still to be submitted is what the owner was given.
    Once the destructor has set [done] it comes to an end, after at most [4 * n + 1]
    more steps of [n] workers and owner, with all workers gone and every task taken
    also finished; the tasks still queued are dropped.  This holds for every queue
    that neither loses nor doubles elements, whatever its order; the threads can be
    started, and tasks return. *)
Theorem pool_runs_tasks_once {T Q} `{SafeQueueLaws T Q} hw_th (tasks : list T) ls s :
  runs Pool.step (Pool.thread_pool_new hw_th tasks) ls s ->
  (Pool.started s ++ queue_items (Pool.work_queue s) ++ Pool.todo_of (Pool.owner s) ≡ₚ tasks /\
   Pool.started s ≡ₚ Pool.finished s ++ Pool.running (Pool.workers s)) /\
  (Pool.done s = true ->
   (Pool.owner s <> Pool.Destroyed -> exists l s', Pool.step l s = Ok (Some s')) /\
   (forall ls' s', runs Pool.step s ls' s' -> len ls' <= 4 * Z.of_nat hw_th + 1)) /\
  (Pool.owner s = Pool.Destroyed ->
   Pool.started s ≡ₚ Pool.finished s /\ Pool.started s ++ queue_items (Pool.work_queue s) ≡ₚ tasks /\
   Forall (fun p => p = Pool.Exited) (Pool.workers s)).
Proof.
  intros Hr. destruct (Pool.pool_inv_runs hw_th tasks ls s Hr) as [[H1 H2 H3 H4] Hn].
  split_and!; [done|done| |].
  - intros Hd. assert (Hc : Pool.closing s).
    { split; [done|]. rewrite Hd in H3. destruct (Pool.owner s) as [|i|]; [done| |done].
      destruct i as [|i]; [lia|]. destruct (H4 i ltac:(lia)). lia. }
    split; [by apply Pool.closing_progress|]. intros ls' s' Hr'.
    pose proof (Pool.pool_left_bound s Hc) as Hb. rewrite Hn in Hb.
    destruct (runs_bounded0 Pool.step Pool.closing Pool.pool_left s ls' s') as [_ Hl]; try done; [| |lia].
    + intros l s1 s2. apply Pool.closing_step.
    + intros s1 Hs1. apply Pool.pool_left_bound, Hs1.
  - intros Ho. rewrite Ho in *. simpl in H1. rewrite app_nil_r in H1.
    assert (Hex : Forall (fun p => p = Pool.Exited) (Pool.workers s)).
    { apply Forall_lookup. intros i p Hi. pose proof (lookup_lt_Some _ _ _ Hi). specialize (H4 i ltac:(lia)). congruence. }
    split_and!; [|done|done]. rewrite H2.
    assert (Pool.running (Pool.workers s) = []) as ->; [|by rewrite app_nil_r].
    clear -Hex. induction Hex as [|p l -> _ IH]; done.
Qed.

(** Whatever the owner and the thieves do with a work-stealing queue, every task
    pushed is taken once or still there, thieves get tasks in the order in which
    they were pushed, and the victims a worker tries are all queues, its own last. *)
Theorem work_stealing_takes_once {T} (ops : list (wsop T)) rs q :
  ws_run ops [] = (rs, q) ->
  (pushed ops ≡ₚ taken rs ++ q /\ stolen rs ++ reverse q `sublist_of` pushed ops) /\
  (forall my_index n, 0 <= my_index < n -> n <= 2 ^ 32 ->
     victims my_index n ≡ₚ seqZ 0 n /\ last (victims my_index n) = Some my_index).
Proof.
  intros E. split; [split; [by apply (ws_run_conserves ops [])|by apply (ws_run_steals ops [])]|].
  intros m n Hm Hn. rewrite victims_rotation by done. split.
  - rewrite Permutation_app_comm. rewrite <- (Z.add_0_l (m + 1)) at 2. rewrite <- seqZ_app by lia.
    by replace (m + 1 + (n - m - 1)) with n by lia.
  - rewrite seqZ_app by lia. rewrite (seqZ_cons (0 + m)) by lia. rewrite (seqZ_nil (Z.succ (0 + m)) (Z.pred 1)) by done.
    rewrite app_assoc, last_snoc. done.
Qed.

(** A queue for the examples. *)
#[export] Instance list_queue {T} : SafeQueue T (list T) := {
  queue_new := [];
  queue_push x q := q ++ [x];
  queue_try_pop q := match q with [] => (None, []) | x :: q => (Some x, q) end;
}.

#[export] Instance list_queue_laws {T} : SafeQueueLaws T (list T).
Proof.
  refine {| queue_items := fun q => q |}; [done|..].
  - intros x q. simpl. by rewrite Permutation_app_comm.
  - intros [|x q]; simpl; done.
Defined.

Lemma pool_runs_tasks_once_witness :
  let s := Pool.mkPool true [7] [Pool.Exited] (Pool.Joining 0) [5] [5] in
  runs Pool.step (Pool.thread_pool_new 1 [5; 7])
    [Pool.Owner; Pool.Worker 0; Pool.Owner; Pool.Worker 0; Pool.Owner; Pool.Worker 0; Pool.Worker 0] s /\
  Pool.started s ++ Pool.work_queue s ++ Pool.todo_of (Pool.owner s) ≡ₚ [5; 7].
Proof.
  intros s. split; [by apply execute_runs|].
  destruct (pool_runs_tasks_once 1 [5; 7]
    [Pool.Owner; Pool.Worker 0; Pool.Owner; Pool.Worker 0; Pool.Owner; Pool.Worker 0; Pool.Worker 0] s)
    as [[H _] _]; [by apply execute_runs|exact H].
Defined.

(** The destructor does not wait for the queue to be empty. *)
Example pool_drops_a_task :
  runs Pool.step (Pool.thread_pool_new 1 [5; 7])
    ([Pool.Owner; Pool.Worker 0; Pool.Owner; Pool.Worker 0; Pool.Owner; Pool.Worker 0; Pool.Worker 0] ++
     [Pool.Owner; Pool.Owner])
    (Pool.mkPool true [7] [Pool.Exited] Pool.Destroyed [5] [5]).
Proof. by apply execute_runs. Qed.

Lemma work_stealing_takes_once_witness :
  let ops := [Push 1; Push 2; Push 3; TrySteal; TryPop] in
  ws_run ops [] = ([(Push 1, None); (Push 2, None); (Push 3, None); (TrySteal, Some 1); (TryPop, Some 3)], [2]) /\
  pushed ops ≡ₚ taken (ws_run ops []).1 ++ [2] /\ victims 1 4 = [2; 3; 0; 1] /\ last (victims 1 4) = Some 1.
Proof.
  split_and!; [done| |vm_compute; reflexivity|].
  - apply (work_stealing_takes_once [Push 1; Push 2; Push 3; TrySteal; TryPop]). done.
  - apply (work_stealing_takes_once (T := Z) [] [] []); [done|lia|lia].
Defined.
