(* ===== verification/Grid.v ===== *)
(** * Grids and template meta-programs ([professional_cpp/src/ch26_template])

    [NGrid<T, N>] of grid_v3_recursion.cc, a vector of grids of one dimension less;
    [Grid] of grid_v1.cc and grid_v2_template_template.cc, a checked table of
    optional values; the factorials of meta_program.cc.  Indices and sizes are
    natural numbers: no arithmetic is done on them.  A chain of [operator[]] is a
    path of as many indices as there are dimensions. *)

From S2P Require Import Prelude CppInt.

(** [std::vector::resize]. *)
Definition resize_vec {A} (newsz : nat) (fresh : A) (v : list A) : list A :=
  take newsz v ++ replicate (newsz - length v) fresh.

Definition DefaultSize : nat := 10.

Section ngrid.
(** [d] is the value a new cell has. *)
Context {T : Type} (d : T).

(** With one dimension it is the vector of the specialisation. *)
Fixpoint ngrid (N : nat) : Type := match N with O => T | S N => list (ngrid N) end.

(** [resize], and a new grid, which is one of [DefaultSize]: each level needs the
    two of the level below. *)
Fixpoint ngrid_ops (N : nat) : (nat -> ngrid N -> ngrid N) * ngrid N :=
  match N with
  | O => (fun _ v => v, d)
  | S N =>
      let resize newsz m_elements :=
        (ngrid_ops N).1 newsz <$> resize_vec newsz (ngrid_ops N).2 m_elements in
      (resize, resize DefaultSize [])
  end.
Definition resize (N : nat) : nat -> ngrid N -> ngrid N := (ngrid_ops N).1.
Definition NGrid (N size : nat) : ngrid (S N) := resize (S N) size [].

(** [g[x][y]...]: an index out of range is undefined behaviour. *)
Fixpoint read (N : nat) : ngrid N -> list nat -> outcome T :=
  match N with
  | O => fun v p => match p with [] => Ok v | _ => UB end
  | S N => fun (g : list (ngrid N)) p =>
      match p with
      | x :: p => match g !! x with Some e => read N e p | None => UB end
      | [] => UB
      end
  end.
(** [g[x][y]... = v]. *)
Fixpoint write (N : nat) (v : T) : ngrid N -> list nat -> outcome (ngrid N) :=
  match N with
  | O => fun _ p => match p with [] => Ok v | _ => UB end
  | S N => fun (g : list (ngrid N)) p =>
      match p with
      | x :: p => match g !! x with
                  | Some e => e ← write N v e p; Ok (<[x := e]> g)
                  | None => UB
                  end
      | [] => UB
      end
  end.

(** ** Resizing *)

Definition in_cube (N size : nat) (p : list nat) : Prop := length p = N /\ Forall (fun x => x < size)%nat p.
#[export] Instance in_cube_dec N size p : Decision (in_cube N size p).
Proof. unfold in_cube. apply _. Defined.

Definition or_new (o : outcome T) : outcome T := match o with Ok v => Ok v | _ => Ok d end.

Lemma resize_lookup N size (g : list (ngrid N)) x :
  (resize (S N) size g : list (ngrid N)) !! x =
  if decide (x < size)%nat then Some (resize N size (default (ngrid_ops N).2 (g !! x))) else None.
Proof.
  change (resize (S N) size g) with (resize N size <$> resize_vec size (ngrid_ops N).2 g).
  rewrite (list_lookup_fmap (resize N size)).
  unfold resize_vec. case_decide as Hx.
  - destruct (g !! x) as [e|] eqn:E.
    + rewrite lookup_app_l by (apply lookup_lt_Some in E; rewrite length_take; lia).
      by rewrite lookup_take_lt, E by done.
    + apply lookup_ge_None in E. rewrite lookup_app_r by (rewrite length_take; lia).
      rewrite length_take, lookup_replicate_2 by lia. done.
  - rewrite lookup_ge_None_2; [done|]. rewrite length_app, length_take, length_replicate. lia.
Qed.

Lemma read_resize N size g p :
  read N (resize N size g) p = (if decide (in_cube N size p) then or_new (read N g p) else UB) /\
  (read N (ngrid_ops N).2 p = Ok d \/ read N (ngrid_ops N).2 p = UB).
Proof.
  revert size g p. induction N as [|N IH]; intros size g p.
  { unfold resize. cbn [ngrid_ops read fst snd]. destruct p; [|by rewrite decide_False by (intros [? _]; done); auto].
    rewrite decide_True by (split; [done|constructor]). auto. }
  assert (Hr : forall size (h : list (ngrid N)), read (S N) (resize (S N) size h) p =
    if decide (in_cube (S N) size p) then or_new (read (S N) h p) else UB).
  { clear size g. intros size h. destruct p as [|x p]; [by rewrite decide_False by (intros [? _]; done)|].
    cbn [read]. rewrite resize_lookup. destruct (decide (x < size)%nat) as [Hx|Hx].
    - rewrite (proj1 (IH size _ p)).
      assert (Hc : in_cube (S N) size (x :: p) <-> in_cube N size p).
      { unfold in_cube. rewrite Forall_cons. simpl. intuition lia. }
      destruct (decide (in_cube N size p)) as [Hp|Hp]; [|by rewrite decide_False by tauto].
      rewrite decide_True by tauto.
      destruct (h !! x); [done|]. simpl. by destruct (proj2 (IH 0%nat (ngrid_ops N).2 p)) as [-> | ->].
    - rewrite decide_False; [done|]. unfold in_cube. rewrite Forall_cons. intuition. }
  split; [apply Hr|]. change ((ngrid_ops (S N)).2) with (resize (S N) DefaultSize []).
  rewrite Hr. case_decide; [|by right]. left. by destruct p.
Qed.

(** ** Reading and writing *)

Lemma write_read N v g p :
  match read N g p with
  | Ok _ => exists g', write N v g p = Ok g' /\ read N g' p = Ok v /\
      forall q, q <> p -> read N g' q = read N g q
  | _ => read N g p = UB /\ write N v g p = UB
  end.
Proof.
  revert g p. induction N as [|N IH]; intros g p; cbn [read write].
  { destruct p as [|x p]; [|by split]. exists v. split_and!; try done. intros [|y q] Hq; done. }
  destruct p as [|x p]; [by split|]. change (ngrid (S N)) with (list (ngrid N)) in g.
  destruct (g !! x) as [e|] eqn:E; [|by split].
  specialize (IH e p). destruct (read N e p) as [u| |].
  - destruct IH as (e' & -> & He & Ho). exists (<[x := e']> g). pose proof (lookup_lt_Some _ _ _ E) as Hx.
    split_and!; [done|by rewrite list_lookup_insert_eq by done|].
    intros [|y q] Hq; [done|]. destruct (decide (y = x)) as [->|Hne].
    + rewrite list_lookup_insert_eq, E by done. apply Ho. congruence.
    + by rewrite list_lookup_insert_ne by done.
  - by destruct IH as [-> ->].
  - by destruct IH as [_ ->].
Qed.
End ngrid.

(** ** [Grid]: rows and columns that are checked *)

Section grid.
Context {T : Type}.

Record Grid := mkGrid { m_cells : list (list T); m_width : nat; m_height : nat }.

(** [fill] is an empty optional in grid_v1.cc, [DEFAULT] in the second version,
    which assigns it to every cell; [none] is what [resize] makes. *)
Definition Grid_new (none fill : T) (w h : nat) : Grid :=
  mkGrid ((fun column => (fun _ => fill) <$> resize_vec h none column) <$> resize_vec w [] []) w h.

Definition verify (x y : nat) (g : Grid) : outcome unit :=
  if decide (m_width g <= x)%nat then Throw (ExnOutOfRange "xxxxxx")
  else if decide (m_height g <= y)%nat then Throw (ExnOutOfRange "yyyyyy")
  else Ok tt.

(** [m_cells[x][y]] is not checked. *)
Definition cell (x y : nat) (g : Grid) : outcome T :=
  match m_cells g !! x ≫= (fun column => column !! y) with Some v => Ok v | None => UB end.
Definition at_ (x y : nat) (g : Grid) : outcome T := verify x y g ;; cell x y g.

(** [g.at(x, y) = v]. *)
Definition at_assign (x y : nat) (v : T) (g : Grid) : outcome Grid :=
  _ ← at_ x y g;
  Ok (mkGrid (alter (fun column => <[y := v]> column) x (m_cells g)) (m_width g) (m_height g)).

(** The defaulted move constructor: the new grid and what is left of the old one.
    The vector moves, the two numbers are copied. *)
Definition move_grid (src : Grid) : Grid * Grid :=
  (src, mkGrid [] (m_width src) (m_height src)).

Record grid_wf (g : Grid) : Prop := {
  gw_width : length (m_cells g) = m_width g;
  gw_height : Forall (fun column => length column = m_height g) (m_cells g);
}.

Lemma Grid_new_cells none fill w h : m_cells (Grid_new none fill w h) = replicate w (replicate h fill).
Proof.
  unfold Grid_new, resize_vec. cbn [m_cells]. rewrite take_nil. cbn [length app].
  rewrite Nat.sub_0_r, fmap_replicate, take_nil. cbn [length app]. by rewrite Nat.sub_0_r, fmap_replicate.
Qed.

Lemma Grid_new_wf none fill w h : grid_wf (Grid_new none fill w h).
Proof.
  split; rewrite Grid_new_cells; simpl; [by rewrite length_replicate|].
  apply Forall_replicate. apply length_replicate.
Qed.

Lemma cell_ok g x y : grid_wf g -> (x < m_width g)%nat -> (y < m_height g)%nat -> exists v, cell x y g = Ok v.
Proof.
  intros [Hw Hh] Hx Hy. unfold cell. destruct (lookup_lt_is_Some_2 (m_cells g) x) as [c Hc]; [lia|].
  rewrite Hc. simpl. rewrite Forall_lookup in Hh. specialize (Hh x c Hc).
  destruct (lookup_lt_is_Some_2 c y) as [v Hv]; [lia|]. rewrite Hv. by exists v.
Qed.

Lemma at_assign_spec g x y v :
  grid_wf g -> (x < m_width g)%nat -> (y < m_height g)%nat ->
  exists g', at_assign x y v g = Ok g' /\ grid_wf g' /\ m_width g' = m_width g /\ m_height g' = m_height g /\
    at_ x y g' = Ok v /\ (forall i j, (i, j) <> (x, y) -> at_ i j g' = at_ i j g).
Proof.
  intros Hg Hx Hy. destruct (cell_ok g x y Hg Hx Hy) as [u Hu]. pose proof Hg as [Hw Hh].
  unfold at_assign. eexists. split.
  { unfold at_, verify. rewrite !decide_False by lia. cbn [mbind outcome_bind]. by rewrite Hu. }
  assert (Hcell : forall i j, cell i j (mkGrid (alter (fun column => <[y := v]> column) x (m_cells g))
    (m_width g) (m_height g)) = if decide ((i, j) = (x, y)) then Ok v else cell i j g).
  { intros i j. unfold cell. cbn [m_cells]. destruct (decide (i = x)) as [->|Hne].
    - rewrite list_lookup_alter_eq. unfold cell in Hu. destruct (m_cells g !! x) as [c|] eqn:Hc; [|done]. simpl in *.
      destruct (c !! y) eqn:Hcy; [|done]. apply lookup_lt_Some in Hcy. case_decide as E.
      + injection E as ->. by rewrite list_lookup_insert_eq.
      + by rewrite list_lookup_insert_ne by congruence.
    - rewrite list_lookup_alter_ne by done. by rewrite decide_False by congruence. }
  split_and!; try done.
  - split; simpl; [by rewrite length_alter|]. apply Forall_alter; [done|]. intros c Hc Hl. by rewrite length_insert.
  - unfold at_, verify. cbn [m_width m_height]. rewrite !decide_False by lia. cbn [mbind outcome_bind].
    by rewrite Hcell, decide_True.
  - intros i j Hij. unfold at_, verify. cbn [m_width m_height]. rewrite Hcell. by rewrite decide_False.
Qed.
End grid.
#[global] Arguments Grid : clear implicits.

(** ** The factorials *)

(** The template of an [unsigned char], and the [consteval] function, which has the
    same equations: both multiply in [unsigned long long]. *)
Fixpoint Factorial (f : nat) : Z :=
  match f with O => 1 | S g => u64 (Z.of_nat f * Factorial g) end.
(** [Loop<i>::run]: the arguments [func] is called with. *)
Fixpoint Loop_run (i : nat) : list nat :=
  match i with O => [] | S j => Loop_run j ++ [i] end.

Fixpoint zfact (n : nat) : Z := match n with O => 1 | S m => Z.of_nat n * zfact m end.

Lemma zfact_pos n : 1 <= zfact n.
Proof. induction n as [|n IH]; cbn [zfact]; nia. Qed.

Lemma zfact_mono m n : (m <= n)%nat -> zfact m <= zfact n.
Proof. induction 1 as [|n _ IH]; [done|]. cbn [zfact]. pose proof (zfact_pos n). nia. Qed.

Lemma Factorial_mod f : Factorial f = zfact f mod 2 ^ 64.
Proof.
  induction f as [|f IH]; [done|]. cbn [Factorial zfact]. rewrite IH. unfold u64, wrapu.
  by rewrite Z.mul_mod_idemp_r.
Qed.

Lemma Factorial_zero f : (66 <= f)%nat -> Factorial f = 0.
Proof.
  induction 1 as [|f _ IH]; [by vm_compute|]. change (u64 (Z.of_nat (S f) * Factorial f) = 0). rewrite IH. by rewrite Z.mul_0_r.
Qed.

(** A grid of [N] dimensions that is given a size is a cube of that size: every path
    of [N] indices below the size reads the cell that was there before, or a new
    one, whatever shape the grid had, and every other path is undefined.  Writing
    a cell changes that cell and no other. *)
Theorem ngrid_cube {T} (d : T) N size (g : ngrid N) p v :
  (read N (resize d N size g) p = if decide (in_cube N size p) then or_new d (read N g p) else UB) /\
  match read N g p with
  | Ok _ => exists g', write N v g p = Ok g' /\ read N g' p = Ok v /\
      forall q, q <> p -> read N g' q = read N g q
  | _ => read N g p = UB /\ write N v g p = UB
  end.
Proof. split; [apply read_resize|apply write_read]. Qed.

Example ngrid_main :
  let g := NGrid 0 2 4 in
  match write 3 543 g [1; 1; 2]%nat with
  | Ok g => read 3 g [1; 1; 2]%nat = Ok 543 /\ read 3 g [1; 2; 1]%nat = Ok 0 /\ read 3 g [1; 4; 0]%nat = UB
  | _ => False
  end.
Proof. vm_compute. done. Qed.

(** A table is checked: a cell within the bounds it was made with can be read and
    assigned, and nothing else changes; outside, the exception names the first
    coordinate that is wrong.  A table that was moved from still claims its
    bounds: there [at] passes the check and reads behind an empty vector. *)
Theorem grid_checked {T} (g : Grid T) x y v :
  grid_wf g ->
  (if decide (x < m_width g)%nat then
     if decide (y < m_height g)%nat then
       exists g', at_assign x y v g = Ok g' /\ grid_wf g' /\ at_ x y g' = Ok v /\
         (forall i j, (i, j) <> (x, y) -> at_ i j g' = at_ i j g) /\
         (move_grid g').1 = g' /\ at_ x y (move_grid g').2 = UB
     else at_ x y g = Throw (ExnOutOfRange "yyyyyy")
   else at_ x y g = Throw (ExnOutOfRange "xxxxxx")).
Proof.
  intros Hg. case_decide as Hx; [case_decide as Hy|].
  - destruct (at_assign_spec g x y v Hg Hx Hy) as (g' & E & Hg' & Hw & Hh & Ha & Ho). exists g'.
    split_and!; try done. unfold move_grid, at_, verify. cbn [snd m_width m_height m_cells].
    rewrite !decide_False by lia. done.
  - unfold at_, verify. by rewrite decide_False, decide_True by lia.
  - unfold at_, verify. by rewrite decide_True by lia.
Qed.

(** The factorials of [unsigned char]s are exact up to twenty, the largest whose
    factorial fits [unsigned long long]; the others are taken modulo [2^64], and from
    66 on they are zero. *)
Theorem factorial_bounds f :
  (Factorial f = zfact f <-> (f <= 20)%nat) /\ Factorial f = zfact f mod 2 ^ 64 /\
  ((66 <= f)%nat -> Factorial f = 0).
Proof.
  split_and!; [|apply Factorial_mod|apply Factorial_zero]. rewrite Factorial_mod. split.
  - intros E. destruct (decide (f <= 20)%nat) as [|Hf]; [done|].
    pose proof (zfact_mono 21 f ltac:(lia)) as Hm. rewrite <- E in Hm.
    assert (2 ^ 64 <= zfact 21) by (vm_compute; discriminate).
    pose proof (Z.mod_pos_bound (zfact f) (2 ^ 64) ltac:(lia)). lia.
  - intros Hf. apply Z.mod_small. pose proof (zfact_mono f 20 Hf). pose proof (zfact_pos f).
    assert (zfact 20 < 2 ^ 64) by (by vm_compute). lia.
Qed.

Lemma Loop_run_seq i : Loop_run i = seq 1 i.
Proof. induction i as [|i IH]; [done|]. rewrite seq_S, <- IH. done. Qed.
