(* ===== verification/Ch18.v ===== *)
(** * Threads of [tour_of_cpp/ch18_concurrency.cpp]

    [produce] and [consume], which hand numbers over through a queue with a mutex
    and a condition variable; [f7], which initialises a variable once with a
    double-checked lock; [f_stop_other], two searches that are told to stop when one
    has found the key. *)

From S2P Require Import Prelude CppInt Turns.

(** ** [produce] and [consume] *)

Module Handoff.

Inductive who : Type := ByConsumer | ByProducer.
#[export] Instance who_eq_dec : EqDecision who.
Proof. solve_decision. Defined.

(** [CPred]: the lock is held and the predicate of [wait] is evaluated. *)
Inductive cpc : Type := CLock | CPred | CAsleep | CDone.
Inductive ppc : Type := PLock | PPush | PNotify | PUnlock | PDone.
#[export] Instance cpc_eq_dec : EqDecision cpc.
Proof. solve_decision. Defined.

Record St := mkSt {
  que : list Z;
  mtx : option who;
  c_pc : cpc; c_cnt : Z;
  p_pc : ppc; p_cnt : Z;
  got : list Z;      (* what [consume] has printed *)
}.

(** [while (cnt-- > 0)]. *)
Definition c_loop (cnt : Z) : cpc := if decide (0 < cnt) then CLock else CDone.
Definition p_loop (cnt : Z) : ppc := if decide (0 < cnt) then PLock else PDone.

(** The two loops with [nc] and [np] rounds; in the code they are 10 and 12. *)
Definition St_new (nc np : Z) : St := mkSt [] None (c_loop nc) (nc - 1) (p_loop np) (np - 1) [].

(** The body of [wait] and what follows it is one critical section. *)
Definition consume (s : St) : option St :=
  match c_pc s with
  | CLock => match mtx s with
             | None => Some (mkSt (que s) (Some ByConsumer) CPred (c_cnt s) (p_pc s) (p_cnt s) (got s))
             | Some _ => None
             end
  | CPred => match que s with
             | [] => Some (mkSt [] None CAsleep (c_cnt s) (p_pc s) (p_cnt s) (got s))
             | m :: q => Some (mkSt q None (c_loop (c_cnt s)) (c_cnt s - 1) (p_pc s) (p_cnt s) (got s ++ [m]))
             end
  | CAsleep | CDone => None
  end.

Definition wake (c : cpc) : cpc := match c with CAsleep => CLock | _ => c end.

Definition produce (s : St) : option St :=
  match p_pc s with
  | PLock => match mtx s with
             | None => Some (mkSt (que s) (Some ByProducer) (c_pc s) (c_cnt s) PPush (p_cnt s) (got s))
             | Some _ => None
             end
  | PPush => Some (mkSt (que s ++ [p_cnt s]) (mtx s) (c_pc s) (c_cnt s) PNotify (p_cnt s) (got s))
  | PNotify => Some (mkSt (que s) (mtx s) (wake (c_pc s)) (c_cnt s) PUnlock (p_cnt s) (got s))
  | PUnlock => Some (mkSt (que s) None (c_pc s) (c_cnt s) (p_loop (p_cnt s)) (p_cnt s - 1) (got s))
  | PDone => None
  end.

Inductive label : Type := Consumer | Producer | Spurious.
Definition step (l : label) (s : St) : outcome (option St) :=
  Ok match l with
     | Consumer => consume s
     | Producer => produce s
     | Spurious =>
         if decide (c_pc s = CAsleep)
         then Some (mkSt (que s) (mtx s) CLock (c_cnt s) (p_pc s) (p_cnt s) (got s)) else None
     end.

(** The numbers [np - 1], ..., [k], in the order of the pushes. *)
Definition down (np k : Z) : list Z := reverse (seqZ k (np - k)).
Definition lowest (s : St) : Z :=
  match p_pc s with PLock | PPush => p_cnt s + 1 | PNotify | PUnlock => p_cnt s | PDone => 0 end.

Record inv (nc np : Z) (s : St) : Prop := {
  i_order : got s ++ que s = down np (lowest s);
  i_got : len (got s) = match c_pc s with CDone => nc | _ => nc - 1 - c_cnt s end;
  i_c : c_pc s <> CDone -> 0 <= c_cnt s;
  i_p : p_pc s <> PDone -> 0 <= p_cnt s < np;
  i_mtx : match mtx s with
          | Some ByConsumer => c_pc s = CPred
          | _ => c_pc s <> CPred
          end /\
          match mtx s with
          | Some ByProducer => match p_pc s with PPush | PNotify | PUnlock => True | _ => False end
          | _ => match p_pc s with PPush | PNotify | PUnlock => False | _ => True end
          end;
  i_wait : c_pc s = CAsleep -> que s = [] \/ p_pc s = PNotify;
}.

Lemma down_snoc np k : k <= np -> down np k ++ [k - 1] = down np (k - 1).
Proof.
  intros Hk. unfold down. rewrite (seqZ_cons (k - 1)) by lia. rewrite reverse_cons.
  by replace (Z.succ (k - 1)) with k by lia; replace (Z.pred (np - (k - 1))) with (np - k) by lia.
Qed.

Lemma down_length np k : 0 <= k <= np -> len (down np k) = np - k.
Proof. intros. unfold down. rewrite length_reverse, length_seqZ. lia. Qed.

Lemma handoff_inv_new nc np : 0 <= nc -> 0 <= np -> inv nc np (St_new nc np).
Proof.
  intros Hc Hp. unfold St_new, c_loop, p_loop. split; simpl; repeat case_decide; simpl; try done; try lia.
  all: unfold lowest, down; simpl; rewrite seqZ_nil; [done|lia].
Qed.

Lemma handoff_inv_step nc np l s s' : inv nc np s -> step l s = Ok (Some s') -> inv nc np s'.
Proof.
  intros [H1 H2 H3 H4 H5 H6] [= E]. destruct s as [q m c cc p pc g]; simpl in *. destruct l; simpl in E.
  - unfold consume in E. simpl in E. destruct c; try discriminate.
    + destruct m; [discriminate|]. injection E as <-. destruct H5 as [_ H5].
      split; simpl in *; auto; try done; by destruct p.
    + destruct m as [[]|]; [|by destruct H5|by destruct H5]. destruct H5 as [_ H5].
      destruct q as [|x q]; injection E as <-; split; simpl in *; auto; try done; try by destruct p.
      * by rewrite <- app_assoc.
      * specialize (H3 ltac:(done)). rewrite length_app. simpl. unfold c_loop. case_decide; lia.
      * unfold c_loop. case_decide; [lia|done].
      * unfold c_loop. case_decide; (split; [done|by destruct p]).
      * unfold c_loop. by case_decide.
  - unfold produce in E. simpl in E. destruct p; try discriminate.
    + destruct m; [discriminate|]. injection E as <-. destruct H5 as [H5 _].
      split; simpl in *; auto; try done. intros Hc. destruct (H6 Hc); [auto|done].
    + injection E as <-. specialize (H4 ltac:(done)). split; simpl in *; auto; try done.
      rewrite app_assoc, H1. unfold lowest. simpl. replace pc with (pc + 1 - 1) at 2 3 by lia.
      apply down_snoc. lia.
    + injection E as <-. split; simpl in *; auto; try done; try by destruct c.
      * intros Hc. apply H3. by destruct c.
      * destruct H5 as [H5 H5']. split; [|done]. destruct m as [[]|]; by destruct c.
    + injection E as <-. specialize (H4 ltac:(done)). destruct m as [[]|]; [by destruct H5| |by destruct H5].
      destruct H5 as [H5 _]. split; simpl in *; auto; try done.
      * rewrite H1. unfold lowest, p_loop. simpl. case_decide; simpl; f_equal; lia.
      * unfold p_loop. case_decide; [lia|done].
      * split; [done|]. unfold p_loop. by case_decide.
      * intros Hc. destruct (H6 Hc); [auto|done].
  - case_decide as Hc; [|discriminate]. injection E as <-. simpl in Hc. subst c.
    split; simpl in *; auto; try done. destruct H5 as [H5 H5']. split; [|done]. by destruct m as [[]|].
Qed.

(** No notification is lost: somebody can move until both loops are over. *)
Lemma handoff_inv_progress nc np s :
  nc <= np -> inv nc np s -> ~ (c_pc s = CDone /\ p_pc s = PDone) ->
  exists l s', l <> Spurious /\ step l s = Ok (Some s').
Proof.
  intros Hle [H1 H2 H3 H4 H5 H6] Hn. destruct s as [q m c cc p pc g]; simpl in *.
  destruct p.
  2-4: (exists Producer; eexists; split; done).
  - destruct m as [[]|].
    + destruct H5 as [-> _]. exists Consumer. unfold step, consume. simpl. destruct q; by eexists.
    + by destruct H5.
    + exists Producer. by eexists.
  - destruct c.
    + destruct m as [[]|]; [by destruct H5|by destruct H5|]. exists Consumer. by eexists.
    + exists Consumer. unfold step, consume. simpl. destruct q; by eexists.
    + destruct (H6 eq_refl) as [->|]; [|done]. specialize (H3 ltac:(done)).
      rewrite app_nil_r in H1. rewrite H1 in H2. unfold lowest in H2. simpl in H2.
      rewrite down_length in H2 by lia. lia.
    + by destruct Hn.
Qed.

Definition c_left (c : cpc) (cnt : Z) : Z :=
  match c with CLock => 3 * cnt + 2 | CPred => 3 * cnt + 1 | CAsleep => 3 * cnt | CDone => 0 end.
Definition p_left (p : ppc) (cnt : Z) : Z :=
  match p with PLock => 6 * cnt + 6 | PPush => 6 * cnt + 5 | PNotify => 6 * cnt + 4 | PUnlock => 6 * cnt + 1 | PDone => 0 end.
Definition left_ (s : St) : Z := c_left (c_pc s) (c_cnt s) + p_left (p_pc s) (p_cnt s).
Definition extra (l : label) : Z := match l with Spurious => 3 | _ => 0 end.

Lemma handoff_left_step nc np l s s' : inv nc np s -> step l s = Ok (Some s') -> left_ s' + 1 <= left_ s + extra l.
Proof.
  intros [H1 H2 H3 H4 H5 H6] [= E]. destruct s as [q m c cc p pc g]; simpl in *. unfold left_.
  destruct l; simpl in E; [unfold consume in E|unfold produce in E|case_decide as Hc]; simpl in E; try discriminate.
  - destruct c; try discriminate; [destruct m|destruct q]; simplify_eq; simpl; try lia.
    specialize (H3 ltac:(done)). unfold c_loop. case_decide; simpl; lia.
  - destruct p; try discriminate; [destruct m|..]; simplify_eq; simpl; try lia.
    + destruct c; simpl; lia.
    + specialize (H4 ltac:(done)). unfold p_loop. case_decide; simpl; lia.
  - injection E as <-. simpl in *. subst c. simpl. lia.
Qed.

Lemma handoff_left_nonneg nc np s : inv nc np s -> 0 <= left_ s.
Proof.
  intros [H1 H2 H3 H4 H5 H6]. unfold left_, c_left, p_left.
  destruct (c_pc s), (p_pc s); try specialize (H3 ltac:(done)); try specialize (H4 ltac:(done)); lia.
Qed.
End Handoff.

(** ** [f7]: initialised once *)

Module InitOnce.

(** [Assign]: about to set [Aza]; [Publish]: about to set [init_a]. *)
Inductive pc : Type := Outer | LockIt | Inner | Assign | Publish | Unlock | Fin.

Record St := mkSt {
  init_a : bool;
  mtxa : option nat;
  Aza : Z;
  threads : list pc;
  assigned : Z;      (* how often [Aza] has been assigned *)
}.

Definition St_new (n : nat) : St := mkSt false None 0 (replicate n Outer) 0.

Definition set_pc (t : nat) (p : pc) (s : St) : St :=
  mkSt (init_a s) (mtxa s) (Aza s) (<[t := p]> (threads s)) (assigned s).

Definition f7 (t : nat) (s : St) : option St :=
  p ← threads s !! t;
  match p with
  | Outer => Some (set_pc t (if init_a s then Fin else LockIt) s)
  | LockIt => match mtxa s with
              | None => Some (set_pc t Inner (mkSt (init_a s) (Some t) (Aza s) (threads s) (assigned s)))
              | Some _ => None
              end
  | Inner => Some (set_pc t (if init_a s then Unlock else Assign) s)
  | Assign => Some (set_pc t Publish (mkSt (init_a s) (mtxa s) 123 (threads s) (assigned s + 1)))
  | Publish => Some (set_pc t Unlock (mkSt true (mtxa s) (Aza s) (threads s) (assigned s)))
  | Unlock => Some (set_pc t Fin (mkSt (init_a s) None (Aza s) (threads s) (assigned s)))
  | Fin => None
  end.
Definition step (t : nat) (s : St) : outcome (option St) := Ok (f7 t s).

Definition inside (p : pc) : bool := match p with Inner | Assign | Publish | Unlock => true | _ => false end.

Definition locked_by (l : list pc) (m : option nat) : Prop :=
  forall t p, l !! t = Some p -> (inside p = true <-> m = Some t).

(** How often [Aza] has been assigned when a thread at [p] holds the lock. *)
Definition count_at (p : pc) (init : bool) (n : Z) : Prop :=
  match p with
  | Inner => n = if init then 1 else 0
  | Assign => init = false /\ n = 0
  | Publish => init = false /\ n = 1
  | Unlock => init = true /\ n = 1
  | _ => False
  end.

Record inv (s : St) : Prop := {
  i_mtx : locked_by (threads s) (mtxa s);
  i_count : match mtxa s with
            | None => assigned s = if init_a s then 1 else 0
            | Some t => exists p, threads s !! t = Some p /\ count_at p (init_a s) (assigned s)
            end;
  i_value : assigned s = 1 -> Aza s = 123;
  i_fin : forall t, threads s !! t = Some Fin -> init_a s = true /\ assigned s = 1;
}.

Lemma locked_by_insert l m t p q m' :
  locked_by l m -> l !! t = Some p -> (inside q = true <-> m' = Some t) ->
  (forall u, u <> t -> m = Some u <-> m' = Some u) -> locked_by (<[t := q]> l) m'.
Proof.
  intros Hl Ht Hq Hm u r [(<- & <- & _)|[Hne Hr]]%list_lookup_insert_Some; [done|].
  rewrite (Hl u r Hr). apply Hm. congruence.
Qed.

Lemma once_inv_new n : inv (St_new n).
Proof.
  split; simpl; try done.
  - by intros t p [-> _]%lookup_replicate.
  - by intros t [? _]%lookup_replicate.
Qed.

Lemma once_inv_step t s s' : inv s -> step t s = Ok (Some s') -> inv s'.
Proof.
  intros [H1 H2 H3 H4] [= E]. unfold f7 in E. destruct (threads s !! t) as [p|] eqn:Ht; [|discriminate].
  pose proof (lookup_lt_Some _ _ _ Ht) as Hlt. pose proof (H1 t p Ht) as Hm. simpl in E.
  assert (Hown : inside p = true -> mtxa s = Some t /\ count_at p (init_a s) (assigned s)).
  { intros Hi. apply Hm in Hi. rewrite Hi in H2. destruct H2 as (p' & Ht' & Hc). split; [done|].
    rewrite Ht in Ht'. by injection Ht' as <-. }
  assert (Hfree : inside p = false -> forall q l, mtxa s <> Some t -> (match mtxa s with
    | None => assigned s = if init_a s then 1 else 0
    | Some u => exists r, threads s !! u = Some r /\ count_at r (init_a s) (assigned s) end) ->
    l = <[t := q]> (threads s) -> match mtxa s with
    | None => assigned s = if init_a s then 1 else 0
    | Some u => exists r, l !! u = Some r /\ count_at r (init_a s) (assigned s) end).
  { intros _ q l Hn Hc ->. destruct (mtxa s) as [u|]; [|done].
    rewrite list_lookup_insert_ne by congruence. exact Hc. }
  assert (Hfin : forall i n q, (init_a s = true /\ assigned s = 1 -> i = true /\ n = 1) -> (q = Fin -> i = true /\ n = 1) ->
    forall u, <[t := q]> (threads s) !! u = Some Fin -> i = true /\ n = 1).
  { intros i n q Hi Hq u [(_ & Hf & _)|[_ Hu]]%list_lookup_insert_Some; [by apply Hq|]. apply Hi. by eapply H4. }
  destruct p; try discriminate.
  - assert (Hn : mtxa s <> Some t) by (intros Hx; by apply Hm in Hx).
    injection E as <-. split; simpl; [| |done|].
    + eapply locked_by_insert; [exact H1|exact Ht| |done]. destruct (init_a s); by split.
    + by eapply Hfree.
    + apply Hfin; [done|]. intros Hq. destruct (init_a s) eqn:Ei; [|done]. split; [done|].
      destruct (mtxa s) as [u|]; [|done]. destruct H2 as (r & _ & Hc). destruct r; simpl in Hc; naive_solver.
  - destruct (mtxa s) as [u|] eqn:Em; [discriminate|]. injection E as <-. split; simpl; [| |done|].
    + eapply locked_by_insert; [exact H1|exact Ht|by split|]. intros v Hv. split; [done|congruence].
    + exists Inner. rewrite list_lookup_insert_eq by done. by split.
    + by apply Hfin.
  - destruct (Hown eq_refl) as [Em Hc]. injection E as <-. split; simpl; [| |done|].
    + eapply locked_by_insert; [exact H1|exact Ht| |done]. destruct (init_a s); by rewrite Em.
    + rewrite Em. eexists. rewrite list_lookup_insert_eq by done. split; [done|]. simpl in Hc.
      destruct (init_a s); by split.
    + apply Hfin; [done|]. by destruct (init_a s).
  - destruct (Hown eq_refl) as [Em [Hi Hn]]. injection E as <-. split; simpl; [| |done|].
    + eapply locked_by_insert; [exact H1|exact Ht|by rewrite Em|done].
    + rewrite Em. eexists. rewrite list_lookup_insert_eq by done. split; [done|]. split; [done|lia].
    + apply Hfin; [|done]. intros [? _]. congruence.
  - destruct (Hown eq_refl) as [Em [Hi Hn]]. injection E as <-. split; simpl; [| |done|].
    + eapply locked_by_insert; [exact H1|exact Ht|by rewrite Em|done].
    + rewrite Em. eexists. rewrite list_lookup_insert_eq by done. by split.
    + by apply Hfin.
  - destruct (Hown eq_refl) as [Em [Hi Hn]]. injection E as <-. split; simpl; [| |done|].
    + eapply locked_by_insert; [exact H1|exact Ht|by split|]. intros v Hv. rewrite Em. split; congruence.
    + by rewrite Hi.
    + by apply Hfin.
Qed.

Lemma once_inv_progress s : inv s -> ~ Forall (fun p => p = Fin) (threads s) -> exists t s', step t s = Ok (Some s').
Proof.
  intros [H1 H2 H3 H4] Hn. destruct (mtxa s) as [u|] eqn:Em.
  - destruct H2 as (p & Hu & Hc). exists u. unfold step, f7. rewrite Hu. simpl.
    destruct p; simpl in Hc; try done; by eexists.
  - apply not_Forall_Exists, Exists_exists in Hn as (p & Hp & Hne); [|intros x; unfold Decision; destruct x; auto].
    apply list_elem_of_lookup in Hp as [t Ht]. exists t. unfold step, f7. rewrite Ht, Em. simpl.
    destruct p; try by eexists. by destruct Hne.
Qed.

Definition pc_left (p : pc) : Z :=
  match p with Outer => 6 | LockIt => 5 | Inner => 4 | Assign => 3 | Publish => 2 | Unlock => 1 | Fin => 0 end.

Lemma once_left_step t s s' :
  step t s = Ok (Some s') -> sum_over pc_left (threads s') + 1 <= sum_over pc_left (threads s).
Proof.
  intros [= E]. unfold f7 in E. destruct (threads s !! t) as [p|] eqn:Ht; [|discriminate]. simpl in E.
  pose proof (fun q => sum_over_insert pc_left _ t p q Ht) as Hs.
  destruct p; try discriminate; [|destruct (mtxa s); [discriminate|]|..]; injection E as <-; simpl;
    rewrite Hs; try destruct (init_a s); simpl; lia.
Qed.
End InitOnce.

(** ** [f_stop_other] *)

Module Stop.
Section stop.
Context (vi : list Z) (key : Z).

(** A call of [find]: the position [p], the end of the range. *)
Inductive fpc : Type := Look (p : nat) | Found (p : nat) | Exit.
Record finder := mkFinder { f_first : nat; f_last : nat; f_pc : fpc; f_stop : bool }.

(** [MPoll]: the loop that waits for a result; the two destructors of [std::jthread]
    join, the second thread first. *)
Inductive mpc : Type := MPoll | MStop1 | MStop2 | MPrint | MJoin2 | MJoin1 | MDone.

Record St := mkSt {
  res_idx : Z;
  t1 : finder; t2 : finder;
  main : mpc;
  printed : option Z;
}.

Definition St_new : St :=
  let md := (length vi `div` 2)%nat in
  mkSt (-1) (mkFinder 0 md (Look 0) false) (mkFinder md (length vi) (Look md) false) MPoll None.

(** A step of [find] and the new value of [res_idx]. *)
Definition find (res : Z) (f : finder) : option (Z * finder) :=
  let goto pc := mkFinder (f_first f) (f_last f) pc (f_stop f) in
  match f_pc f with
  | Look p =>
      if decide (p = f_last f) then Some (res, goto Exit)
      else if f_stop f then Some (res, goto Exit)
      else if decide (vi !! p = Some key) then Some (res, goto (Found p))
      else Some (res, goto (Look (S p)))
  | Found p => Some (Z.of_nat p, goto Exit)
  | Exit => None
  end.

Definition request_stop (f : finder) : finder := mkFinder (f_first f) (f_last f) (f_pc f) true.
Definition exited (f : finder) : bool := match f_pc f with Exit => true | _ => false end.

Definition f_stop_other (s : St) : option St :=
  let goto pc := mkSt (res_idx s) (t1 s) (t2 s) pc (printed s) in
  match main s with
  | MPoll => if decide (res_idx s = -1) then None else Some (goto MStop1)
  | MStop1 => Some (mkSt (res_idx s) (request_stop (t1 s)) (t2 s) MStop2 (printed s))
  | MStop2 => Some (mkSt (res_idx s) (t1 s) (request_stop (t2 s)) MPrint (printed s))
  | MPrint => Some (mkSt (res_idx s) (t1 s) (t2 s) MJoin2 (Some (res_idx s)))
  | MJoin2 => if exited (t2 s) then Some (goto MJoin1) else None
  | MJoin1 => if exited (t1 s) then Some (goto MDone) else None
  | MDone => None
  end.

Inductive label : Type := Find1 | Find2 | Main.
Definition step (l : label) (s : St) : outcome (option St) :=
  Ok match l with
     | Find1 => '(r, f) ← find (res_idx s) (t1 s); Some (mkSt r f (t2 s) (main s) (printed s))
     | Find2 => '(r, f) ← find (res_idx s) (t2 s); Some (mkSt r (t1 s) f (main s) (printed s))
     | Main => f_stop_other s
     end.

(** ** What holds in every state *)

Definition hit (i : Z) : Prop := exists p, i = Z.of_nat p /\ vi !! p = Some key.

(** [quiet]: no result yet, so that nobody has been told to stop. *)
Record finder_ok (quiet : Prop) (f : finder) : Prop := {
  fo_range : match f_pc f with Look p => (f_first f <= p <= f_last f)%nat | _ => True end;
  fo_found : forall p, f_pc f = Found p -> vi !! p = Some key;
  fo_stop : quiet -> f_stop f = false;
  fo_seen : quiet -> forall i, (f_first f <= i)%nat ->
    (match f_pc f with Look p => i < p | Found _ => False | Exit => i < f_last f end)%nat -> vi !! i <> Some key;
}.

Record inv (s : St) : Prop := {
  i_1 : finder_ok (res_idx s = -1) (t1 s);
  i_2 : finder_ok (res_idx s = -1) (t2 s);
  i_cover : f_first (t1 s) = 0%nat /\ f_last (t1 s) = f_first (t2 s) /\ f_last (t2 s) = length vi /\
            (f_last (t1 s) <= length vi)%nat;
  i_res : res_idx s = -1 \/ hit (res_idx s);
  i_main : main s <> MPoll -> res_idx s <> -1;
  i_print : match printed s with
            | Some i => hit i
            | None => match main s with MPoll | MStop1 | MStop2 | MPrint => True | _ => False end
            end;
}.

Lemma hit_result i : hit i -> i <> -1.
Proof. intros (p & -> & _). lia. Qed.

Lemma find_ok res f res' f' :
  finder_ok (res = -1) f -> res = -1 \/ hit res -> find res f = Some (res', f') ->
  finder_ok (res' = -1) f' /\ (res' = -1 \/ hit res') /\ (res' = -1 -> res = -1) /\
  f_first f' = f_first f /\ f_last f' = f_last f.
Proof.
  intros [H1 H2 H3 H4] Hr E. unfold find in E. destruct f as [a b pc st]; simpl in *.
  destruct pc as [p|p|]; [|injection E as <- <-|discriminate].
  - destruct (decide (p = b)) as [->|Hp]; [|destruct st; [|case_decide as Hv]]; injection E as <- <-;
      (split_and!; [|done|done|done|done]); split; simpl; auto; try done.
    + intros Hq. by specialize (H3 Hq).
    + by intros q [= <-].
    + lia.
    + intros Hq i Hi Hlt. destruct (decide (i = p)) as [->|]; [done|]. apply H4; [done|lia|lia].
  - assert (Hh : hit (Z.of_nat p)) by (exists p; auto).
    assert (Hn := hit_result _ Hh). split_and!; [split; simpl; done|by right|done..].
Qed.

Lemma finder_ok_weaken (P Q : Prop) f : finder_ok P f -> (Q -> P) -> finder_ok Q f.
Proof. intros [H1 H2 H3 H4] HQ. split; auto. Qed.

Lemma finder_ok_stop (P : Prop) f : finder_ok P f -> ~ P -> finder_ok P (request_stop f).
Proof. intros [H1 H2 H3 H4] HP. split; simpl; auto; done. Qed.

Lemma stop_inv_new : inv St_new.
Proof.
  pose proof (Nat.Div0.div_le_upper_bound (length vi) 2 (length vi) ltac:(lia)) as Hd.
  unfold St_new. set (md := (length vi `div` 2)%nat) in *. clearbody md.
  split; simpl; try done; [| |by left].
  - split; simpl; [lia|done|done|lia].
  - split; simpl; [lia|done|done|lia].
Qed.

Lemma stop_inv_step l s s' : inv s -> step l s = Ok (Some s') -> inv s'.
Proof.
  intros [H1 H2 H3 H4 H5 H6] [= E]. destruct l.
  - destruct (find (res_idx s) (t1 s)) as [[r f]|] eqn:Ef; [|discriminate]. simpl in E. injection E as <-.
    destruct (find_ok _ _ _ _ H1 H4 Ef) as (Hf & Hr & Hq & Ha & Hb).
    split; simpl; [done| |by rewrite Ha, Hb|done| |done].
    + by eapply finder_ok_weaken.
    + intros Hm Hx. by apply H5, Hq.
  - destruct (find (res_idx s) (t2 s)) as [[r f]|] eqn:Ef; [|discriminate]. simpl in E. injection E as <-.
    destruct (find_ok _ _ _ _ H2 H4 Ef) as (Hf & Hr & Hq & Ha & Hb).
    split; simpl; [|done|by rewrite Ha, Hb|done| |done].
    + by eapply finder_ok_weaken.
    + intros Hm Hx. by apply H5, Hq.
  - unfold f_stop_other in E. destruct (main s) eqn:Em; try discriminate.
    + case_decide as Hr; [discriminate|]. injection E as <-. split; simpl; done.
    + injection E as <-. split; simpl; try done; [apply finder_ok_stop|]; auto.
    + injection E as <-. split; simpl; try done; [apply finder_ok_stop|]; auto.
    + injection E as <-. split; simpl; try done; [auto|].
      destruct H4 as [H4|]; [|done]. by destruct H5.
    + destruct (exited (t2 s)); [|discriminate]. injection E as <-. split; simpl; auto; done.
    + destruct (exited (t1 s)); [|discriminate]. injection E as <-. split; simpl; auto; done.
Qed.

Lemma find_progress res f : f_pc f <> Exit -> exists r f', find res f = Some (r, f').
Proof.
  intros Hn. unfold find. destruct (f_pc f); [|by do 2 eexists|done].
  case_decide; [by do 2 eexists|]. destruct (f_stop f); [by do 2 eexists|]. case_decide; by do 2 eexists.
Qed.

Lemma stop_inv_progress s : key ∈ vi -> inv s -> main s <> MDone -> exists l s', step l s = Ok (Some s').
Proof.
  intros Hk [H1 H2 H3 H4 H5 H6] Hn.
  destruct (exited (t1 s)) eqn:E1.
  2: { destruct (find_progress (res_idx s) (t1 s)) as (r & f & E); [by intros Hx; unfold exited in E1; rewrite Hx in E1|].
       exists Find1. unfold step. rewrite E. by eexists. }
  destruct (exited (t2 s)) eqn:E2.
  2: { destruct (find_progress (res_idx s) (t2 s)) as (r & f & E); [by intros Hx; unfold exited in E2; rewrite Hx in E2|].
       exists Find2. unfold step. rewrite E. by eexists. }
  exists Main. unfold step, f_stop_other. rewrite E1, E2. destruct (main s); [|by eexists..|done].
  case_decide as Hr; [|by eexists]. apply list_elem_of_lookup in Hk as [i Hi].
  pose proof (lookup_lt_Some _ _ _ Hi). destruct H3 as (A & B & C & D). unfold exited in E1, E2.
  destruct (decide (i < f_last (t1 s))%nat) as [Hlt|Hge].
  - destruct (fo_seen _ _ H1 Hr i); [lia| |done]. by destruct (f_pc (t1 s)).
  - destruct (fo_seen _ _ H2 Hr i); [lia| |done]. destruct (f_pc (t2 s)); try done. lia.
Qed.

Definition f_left (f : finder) : Z :=
  match f_pc f with Look p => 2 + Z.of_nat (f_last f) - Z.of_nat p | Found _ => 1 | Exit => 0 end.
Definition m_left (m : mpc) : Z :=
  match m with MPoll => 6 | MStop1 => 5 | MStop2 => 4 | MPrint => 3 | MJoin2 => 2 | MJoin1 => 1 | MDone => 0 end.
Definition left_ (s : St) : Z := f_left (t1 s) + f_left (t2 s) + m_left (main s).

Lemma find_left quiet res f r f' : finder_ok quiet f -> find res f = Some (r, f') -> f_left f' + 1 <= f_left f.
Proof.
  intros [H1 _ _ _] E. unfold find in E. destruct f as [a b pc st]; simpl in *.
  destruct pc as [p|p|]; [|injection E as <- <-; unfold f_left; simpl; lia|discriminate].
  destruct (decide (p = b)) as [->|Hp]; [|destruct st; [|case_decide]]; injection E as <- <-; unfold f_left; simpl; lia.
Qed.

Lemma stop_left_step l s s' : inv s -> step l s = Ok (Some s') -> left_ s' + 1 <= left_ s.
Proof.
  intros Hi [= E]. unfold left_. destruct l.
  - destruct (find (res_idx s) (t1 s)) as [[r f]|] eqn:Ef; [|discriminate]. simpl in E. injection E as <-. simpl.
    pose proof (find_left _ _ _ _ _ (i_1 _ Hi) Ef). lia.
  - destruct (find (res_idx s) (t2 s)) as [[r f]|] eqn:Ef; [|discriminate]. simpl in E. injection E as <-. simpl.
    pose proof (find_left _ _ _ _ _ (i_2 _ Hi) Ef). lia.
  - unfold f_stop_other in E. destruct (main s); try discriminate;
      [case_decide; [discriminate|]|..]; try (destruct (exited _); [|discriminate]); injection E as <-; simpl;
      unfold f_left; simpl; lia.
Qed.

Lemma stop_left_nonneg s : inv s -> 0 <= left_ s.
Proof.
  intros [[H1 _ _ _] [H2 _ _ _] _ _ _ _]. unfold left_, f_left.
  destruct (f_pc (t1 s)), (f_pc (t2 s)), (main s); simpl; lia.
Qed.
End stop.
End Stop.

(** ** Properties *)

(** [consume] prints the numbers [produce] pushes, in their order: in every state of
    every interleaving what was printed is the beginning of the descending sequence
    and the queue holds what follows.  No notification is lost: while the loops are not
    over some thread can move, and a run has at most [6 * np + 3 * nc] steps and
    three for every spurious wake-up; at the end [nc] numbers are printed.
    With more rounds in [consume] than in [produce] it never ends. *)
Theorem handoff_in_order nc np ls s :
  0 <= nc -> 0 <= np -> runs Handoff.step (Handoff.St_new nc np) ls s ->
  Handoff.got s ++ Handoff.que s = Handoff.down np (Handoff.lowest s) /\
  (np < nc -> Handoff.c_pc s <> Handoff.CDone) /\
  (nc <= np ->
   (~ (Handoff.c_pc s = Handoff.CDone /\ Handoff.p_pc s = Handoff.PDone) ->
      exists l s', l <> Handoff.Spurious /\ Handoff.step l s = Ok (Some s')) /\
   (Handoff.c_pc s = Handoff.CDone -> Handoff.p_pc s = Handoff.PDone ->
      Handoff.got s = take (Z.to_nat nc) (Handoff.down np 0))) /\
  len ls <= 6 * np + 3 * nc + foldr (fun l n => Handoff.extra l + n) 0 ls.
Proof.
  intros Hc Hp Hr. pose proof (Handoff.handoff_inv_new nc np Hc Hp) as H0.
  assert (Hi : Handoff.inv nc np s) by (eapply runs_invariant; [intros l s1 s2; apply Handoff.handoff_inv_step|exact H0|exact Hr]).
  assert (Hlow : 0 <= Handoff.lowest s <= np).
  { destruct Hi as [_ _ _ H4 _ _]. unfold Handoff.lowest.
    destruct (Handoff.p_pc s); try specialize (H4 ltac:(done)); lia. }
  pose proof (Handoff.i_order _ _ _ Hi) as Ho. pose proof (Handoff.i_got _ _ _ Hi) as Hg.
  split_and!; [exact Ho| | |].
  - intros Hlt Hd. rewrite Hd in Hg. apply (f_equal (fun l => len l)) in Ho.
    rewrite Handoff.down_length in Ho by lia. rewrite length_app in Ho. lia.
  - intros Hle. split; [by apply (Handoff.handoff_inv_progress nc np)|]. intros Hd Hpd. rewrite Hd in Hg.
    unfold Handoff.lowest in Ho. rewrite Hpd in Ho. rewrite <- Ho, take_app_le, take_ge; [done|lia|lia].
  - etrans; [eapply (runs_bounded Handoff.step (Handoff.inv nc np) Handoff.left_ Handoff.extra); [|intros s1; apply Handoff.handoff_left_nonneg|exact H0|exact Hr]|].
    + intros l s1 s2 H1 H2. split; [by eapply Handoff.handoff_inv_step|by eapply Handoff.handoff_left_step].
    + apply Z.add_le_mono_r. unfold Handoff.left_, Handoff.St_new, Handoff.c_loop, Handoff.p_loop.
      simpl. repeat case_decide; simpl; lia.
Qed.

Definition demo_handoff : list Handoff.label :=
  [Handoff.Consumer; Handoff.Consumer; Handoff.Producer; Handoff.Producer; Handoff.Producer; Handoff.Producer;
   Handoff.Consumer; Handoff.Consumer].

Lemma handoff_in_order_witness :
  exists s, runs Handoff.step (Handoff.St_new 1 1) demo_handoff s /\ Handoff.got s = [0].
Proof.
  assert (E : exists s, execute Handoff.step demo_handoff (Handoff.St_new 1 1) = Some s /\
    Handoff.c_pc s = Handoff.CDone /\ Handoff.p_pc s = Handoff.PDone) by (vm_compute; eexists; auto).
  destruct E as (s & E & Hc & Hp). apply execute_runs in E. exists s. split; [exact E|].
  destruct (handoff_in_order 1 1 demo_handoff s ltac:(lia) ltac:(lia) E) as (_ & _ & H & _).
  exact (proj2 (H ltac:(lia)) Hc Hp).
Defined.

(** However many threads call [f7], [Aza] is assigned once, and a thread that comes back
    finds it assigned; some thread can always move until all are back, after
    at most six steps each. *)
Theorem f7_once n ls s :
  runs InitOnce.step (InitOnce.St_new n) ls s ->
  0 <= InitOnce.assigned s <= 1 /\
  (forall t, InitOnce.threads s !! t = Some InitOnce.Fin -> InitOnce.init_a s = true /\ InitOnce.Aza s = 123) /\
  (~ Forall (fun p => p = InitOnce.Fin) (InitOnce.threads s) -> exists t s', InitOnce.step t s = Ok (Some s')) /\
  len ls <= 6 * Z.of_nat n.
Proof.
  intros Hr. pose proof (InitOnce.once_inv_new n) as H0.
  destruct (runs_bounded0 InitOnce.step InitOnce.inv (fun s => sum_over InitOnce.pc_left (InitOnce.threads s))
    (InitOnce.St_new n) ls s) as [Hi Hb]; [| |exact H0|exact Hr|].
  - intros t s1 s2 H1 H2. split; [by eapply InitOnce.once_inv_step|by eapply InitOnce.once_left_step].
  - intros s1 _. apply sum_over_nonneg. intros []; simpl; lia.
  - split_and!.
    + destruct Hi as [_ H2 _ _]. destruct (InitOnce.mtxa s) as [t|].
      * destruct H2 as (p & _ & Hc). destruct p; simpl in Hc; try destruct (InitOnce.init_a s); lia || naive_solver lia.
      * destruct (InitOnce.init_a s); lia.
    + destruct Hi as [_ H2 _ _]. destruct (InitOnce.mtxa s) as [t|].
      * destruct H2 as (p & _ & Hc). destruct p; simpl in Hc; try destruct (InitOnce.init_a s); lia || naive_solver lia.
      * destruct (InitOnce.init_a s); lia.
    + intros t Ht. destruct (InitOnce.i_fin _ Hi t Ht) as [Hf Hn]. split; [done|]. by apply (InitOnce.i_value _ Hi).
    + by apply InitOnce.once_inv_progress.
    + simpl in Hb. assert (sum_over InitOnce.pc_left (replicate n InitOnce.Outer) = 6 * Z.of_nat n); [|lia].
      clear. induction n as [|n IH]; [done|]. cbn [replicate sum_over]. rewrite IH. simpl InitOnce.pc_left. lia.
Qed.

(** C21. [f_stop_other] prints the index of the key, whichever thread finds it first: what is
    printed is an index of the key, and if the key is there, some thread can move until
    [main] has joined both, within [length vi + 10] steps; if it is not,
    [main] waits for ever. *)
Theorem stop_search_finds vi key ls s :
  runs (Stop.step vi key) (Stop.St_new vi) ls s ->
  (forall i, Stop.printed s = Some i -> Stop.hit vi key i) /\
  len ls <= len vi + 10 /\
  (key ∈ vi ->
   (Stop.main s <> Stop.MDone -> exists l s', Stop.step vi key l s = Ok (Some s')) /\
   (Stop.main s = Stop.MDone -> exists i, Stop.printed s = Some i)) /\
  (key ∉ vi -> Stop.main s = Stop.MPoll).
Proof.
  intros Hr. pose proof (Stop.stop_inv_new vi key) as H0.
  destruct (runs_bounded0 (Stop.step vi key) (Stop.inv vi key) Stop.left_
    (Stop.St_new vi) ls s) as [Hi Hb]; [| |exact H0|exact Hr|].
  - intros l s1 s2 H1 H2. split; [by eapply Stop.stop_inv_step|by eapply Stop.stop_left_step].
  - intros s1. apply Stop.stop_left_nonneg.
  - pose proof (Stop.i_print _ _ _ Hi) as Hp. pose proof (Stop.i_res _ _ _ Hi) as Hres.
    pose proof (Stop.i_main _ _ _ Hi) as Hm. split_and!.
    + intros i E. by rewrite E in Hp.
    + pose proof (Nat.div_mod_eq (length vi) 2). pose proof (Nat.mod_upper_bound (length vi) 2 ltac:(lia)).
      etrans; [exact Hb|]. unfold Stop.left_, Stop.f_left, Stop.St_new. cbn [Stop.t1 Stop.t2 Stop.f_pc Stop.f_last Stop.main Stop.m_left]. lia.
    + intros Hk. split; [by apply (Stop.stop_inv_progress vi key)|]. intros E. rewrite E in Hp. destruct (Stop.printed s); [by eexists|done].
    + intros Hk. destruct (decide (Stop.res_idx s = -1)) as [E|E].
      * destruct (Stop.main s); try done; by destruct (Hm ltac:(done)).
      * destruct Hres as [|(p & _ & Hv)]; [done|]. destruct Hk. by eapply list_elem_of_lookup_2.
Qed.

Definition demo_stop : list Stop.label :=
  [Stop.Find2; Stop.Find1; Stop.Find2; Stop.Main; Stop.Main; Stop.Main; Stop.Main; Stop.Main; Stop.Find1; Stop.Main].

Lemma stop_search_finds_witness :
  exists s, runs (Stop.step [4; 5; 6; 7] 6) (Stop.St_new [4; 5; 6; 7]) demo_stop s /\
    Stop.printed s = Some 2 /\ Stop.hit [4; 5; 6; 7] 6 2.
Proof.
  assert (E : exists s, execute (Stop.step [4; 5; 6; 7] 6) demo_stop (Stop.St_new [4; 5; 6; 7]) = Some s /\
    Stop.printed s = Some 2) by (vm_compute; eexists; auto).
  destruct E as (s & E & Hp). apply execute_runs in E. exists s. split; [exact E|]. split; [exact Hp|].
  exact (proj1 (stop_search_finds _ _ _ _ E) 2 Hp).
Defined.
