(* ===== verification/LastLine.v ===== *)
(** * The last line of a file ([any/file_operation.cpp], [read_file_last_line])

    An input stream over the bytes of a file: position, [eofbit], [failbit].  The
    loop that goes back to the previous line end takes fuel; [None] says that it is
    still running. *)

From S2P Require Import Prelude CppInt.

Definition NL : Ascii.ascii := "010"%char.

(** ** [std::ifstream] *)

Record ifstream := mkIfs { f_text : bytes; f_pos : Z; f_eof : bool; f_fail : bool }.

(** [open(name, std::ios::ate)]; [None]: there is no such file. *)
Definition ifs_open (file : option bytes) : ifstream :=
  match file with
  | Some text => mkIfs text (len text) false false
  | None => mkIfs [] 0 false true
  end.
Definition good (s : ifstream) : bool := negb (f_eof s) && negb (f_fail s).

(** [seekg] clears [eofbit]; a position before the beginning is an error. *)
Definition seekg (pos : Z) (s : ifstream) : ifstream :=
  if f_fail s then mkIfs (f_text s) (f_pos s) false true
  else if decide (pos < 0) then mkIfs (f_text s) (f_pos s) false true
  else mkIfs (f_text s) pos false false.
Definition seekg_cur (off : Z) (s : ifstream) : ifstream := seekg (f_pos s + off) s.
Definition seekg_end (off : Z) (s : ifstream) : ifstream := seekg (len (f_text s) + off) s.

(** A stream that is not good sets [failbit] when it is used. *)
Definition sentry (s : ifstream) : ifstream :=
  if good s then s else mkIfs (f_text s) (f_pos s) (f_eof s) true.
Definition tellg (s : ifstream) : Z * ifstream :=
  let s := sentry s in (if f_fail s then -1 else f_pos s, s).
Definition peek (s : ifstream) : option Ascii.ascii * ifstream :=
  let s := sentry s in
  if f_fail s then (None, s)
  else match f_text s !! Z.to_nat (f_pos s) with
       | Some c => (Some c, s)
       | None => (None, mkIfs (f_text s) (f_pos s) true (f_fail s))
       end.

(** The characters before the first line end. *)
Fixpoint upto_nl (l : bytes) : bytes :=
  match l with [] => [] | c :: l => if decide (c = NL) then [] else c :: upto_nl l end.
Definition getline (line : bytes) (s : ifstream) : bytes * ifstream :=
  let s := sentry s in
  if f_fail s then (line, s)
  else
    let rest := drop (Z.to_nat (f_pos s)) (f_text s) in
    let got := upto_nl rest in
    let end_ := bool_decide (length got = length rest) in
    (got, mkIfs (f_text s) (f_pos s + len got + (if end_ then 0 else 1)) end_ (bool_decide (rest = []))).

(** ** [read_file_last_line] *)

(** [while (ifs.tellg() > 0 && ifs.peek() != '\n')]. *)
Fixpoint go_back (fuel : nat) (cnt : Z) (s : ifstream) : option (outcome (Z * ifstream)) :=
  match fuel with
  | O => None
  | S fuel =>
      let '(pos, s) := tellg s in
      if decide (pos > 0) then
        let '(c, s) := peek s in
        if decide (c = Some NL) then Some (Ok (cnt, s))
        else
          let s := seekg_cur (-1) s in
          match int_add cnt 1 with
          | Ok cnt => go_back fuel cnt s
          | Throw e => Some (Throw e)
          | UB => Some UB
          end
      else Some (Ok (cnt, s))
  end.

(** What follows the loop; the numbers are those of the line "seekg ...". *)
Definition print_last (r : Z * ifstream) : outcome (option (Z * Z) * bytes) :=
  let '(cnt, s) := r in
  let '(pos, s) := tellg s in
  let s := if decide (pos = 0) then s else seekg_cur 1 s in
  let '(lastLine, s) := getline [] s in
  Ok (Some (cnt, (tellg s).1), lastLine).

(** [None] instead of the numbers: "what happen?". *)
Definition read_file_last_line (fuel : nat) (file : option bytes) :
    option (outcome (option (Z * Z) * bytes)) :=
  let s := seekg_end (-2) (ifs_open file) in
  if good s then fmap (mbind print_last) (go_back fuel 0 s)
  else Some (Ok (None, [])).

(** ** What the last line is *)

(** The text without a line end at its very end. *)
Definition body (text : bytes) : bytes :=
  match last text with Some c => if decide (c = NL) then removelast text else text | None => text end.

(** What follows the last line end of the body. *)
Definition last_line (text : bytes) : bytes := reverse (upto_nl (reverse (body text))).

Lemma upto_nl_app_nl a b : NL ∉ a -> upto_nl (a ++ NL :: b) = a.
Proof.
  induction a as [|c a IH]; intros Ha; cbn [app upto_nl]; case_decide as Hc; try done.
  - destruct Ha. rewrite Hc. by left.
  - f_equal. apply IH. intros Hin. destruct Ha. by right.
Qed.

Lemma upto_nl_none a : NL ∉ a -> upto_nl a = a.
Proof.
  induction a as [|c a IH]; intros Ha; cbn [upto_nl]; [done|]. case_decide as Hc.
  - destruct Ha. rewrite Hc. by left.
  - f_equal. apply IH. intros Hin. destruct Ha. by right.
Qed.

(** Cut behind the last line end. *)
Definition cut (a m : bytes) : Prop := NL ∉ m /\ (a = [] \/ exists a', a = a' ++ [NL]).

Lemma cut_exists l : exists a m, l = a ++ m /\ cut a m.
Proof.
  induction l as [|c l (a & m & -> & Hm & Ha)] using rev_ind.
  - exists [], []. split; [done|]. split; [apply not_elem_of_nil|by left].
  - destruct (decide (c = NL)) as [->|Hc].
    + exists ((a ++ m) ++ [NL]), []. split; [by rewrite app_nil_r|]. split; [apply not_elem_of_nil|right; by eexists].
    + exists a, (m ++ [c]). split; [by rewrite app_assoc|]. split; [|done].
      rewrite elem_of_app, list_elem_of_singleton. intros [?|?]; congruence.
Qed.

Lemma last_line_cut a m z : cut a m -> last_line (a ++ m ++ [z]) = upto_nl (m ++ [z]).
Proof.
  intros [Hm Ha]. unfold last_line, body. rewrite app_assoc, last_snoc, removelast_last.
  assert (Hgen : forall k, NL ∉ k -> reverse (upto_nl (reverse (a ++ k))) = k).
  { intros k Hk. assert (Hr : NL ∉ reverse k) by (by rewrite elem_of_reverse). rewrite reverse_app.
    destruct Ha as [->|[a' ->]].
    - rewrite app_nil_r, upto_nl_none by done. by rewrite reverse_involutive.
    - rewrite reverse_snoc, upto_nl_app_nl by done. by rewrite reverse_involutive. }
  case_decide as Hz.
  - subst z. by rewrite Hgen, upto_nl_app_nl.
  - assert (Hk : NL ∉ m ++ [z]).
    { rewrite elem_of_app, list_elem_of_singleton. intros [?|?]; congruence. }
    rewrite <- app_assoc, Hgen by done. by rewrite upto_nl_none.
Qed.

Lemma peek_at (a b : bytes) c :
  peek (mkIfs (a ++ c :: b) (len a) false false) = (Some c, mkIfs (a ++ c :: b) (len a) false false).
Proof. unfold peek, sentry. simpl. by rewrite Nat2Z.id, list_lookup_middle. Qed.

(** Going back over [m] to the beginning, or to the line end of [a]. *)
Lemma go_back_over a m rest cnt fuel :
  cut a m -> a ++ m <> [] -> (length m < fuel)%nat -> 0 <= cnt -> cnt + len m < 2 ^ 31 ->
  go_back fuel cnt (mkIfs (a ++ m ++ rest) (len (a ++ m) - 1) false false) =
    Some (Ok (if decide (a = []) then (cnt + len m - 1, mkIfs (a ++ m ++ rest) 0 false false)
              else (cnt + len m, mkIfs (a ++ m ++ rest) (len a - 1) false false))).
Proof.
  revert rest cnt fuel. induction m as [|c m IH] using rev_ind; intros rest cnt fuel [Hm Ha] Hne Hf Hc Hlt.
  - destruct fuel as [|fuel]; [simpl in Hf; lia|]. destruct Ha as [->|[a' ->]]; [done|].
    rewrite decide_False by (by destruct a'). rewrite app_nil_r in *. cbn [go_back tellg sentry good f_eof f_fail f_pos negb andb].
    replace (len (a' ++ [NL]) - 1) with (len a') by (rewrite length_app; simpl; lia).
    rewrite <- app_assoc. cbn [app]. rewrite Z.add_0_r. case_decide as Hp; [|done].
    rewrite peek_at. by rewrite decide_True.
  - destruct fuel as [|fuel]; [simpl in Hf; lia|].
    assert (Hcn : c <> NL /\ NL ∉ m).
    { rewrite elem_of_app, list_elem_of_singleton in Hm. split; [|tauto]. intros ->. tauto. }
    cbn [go_back tellg sentry good f_eof f_fail f_pos negb andb].
    rewrite <- (app_assoc m). cbn [app].
    replace (len (a ++ m ++ [c]) - 1) with (len (a ++ m)) by (rewrite !length_app; simpl; lia).
    rewrite length_app in Hf, Hlt. simpl in Hf, Hlt.
    rewrite (length_app m). cbn [length].
    destruct (decide (len (a ++ m) > 0)) as [Hp|Hp].
    + rewrite (app_assoc a), peek_at. rewrite decide_False by (destruct Hcn; congruence).
      unfold seekg_cur, seekg. cbn [f_fail f_text f_pos]. rewrite decide_False by lia.
      unfold int_add. rewrite schk_ok by (unfold in_s; lia).
      replace (len (a ++ m) + -1) with (len (a ++ m) - 1) by lia. rewrite <- app_assoc.
      rewrite IH; [|split; tauto|by intros E; rewrite E in Hp|lia|lia|lia].
      destruct (decide (a = [])); do 3 f_equal; lia.
    + assert (a ++ m = []) as E by (apply length_zero_iff_nil; lia).
      apply app_eq_nil in E as [-> ->].
      rewrite decide_True by done. cbn [length app]. do 3 f_equal. lia.
Qed.

Lemma getline_at text pos line :
  0 <= pos -> drop (Z.to_nat pos) text <> [] ->
  exists p, getline line (mkIfs text pos false false) = (upto_nl (drop (Z.to_nat pos) text), p).
Proof. intros Hp Hn. unfold getline. simpl. by eexists. Qed.

(** For a file of at least two bytes [read_file_last_line] comes to an end and
    prints the last line, with or without a line end at its end, except when the
    file is an empty line followed by one more line: then it takes the beginning of
    the file for a file of one line and prints the empty one.  For files of one
    byte, empty or missing files it prints no line. *)
Theorem last_line_printed file fuel :
  match file with
  | Some text =>
      len text < 2 ^ 31 -> (length text <= fuel)%nat ->
      if decide (length text < 2)%nat then read_file_last_line fuel file = Some (Ok (None, []))
      else exists o, read_file_last_line fuel file =
        Some (Ok (Some o, if decide (head text = Some NL /\ NL ∉ removelast (tail text)) then []
                          else last_line text))
  | None => read_file_last_line fuel file = Some (Ok (None, []))
  end.
Proof.
  destruct file as [text|]; [|done]. intros Hlt Hf. unfold read_file_last_line, seekg_end, seekg.
  cbn [ifs_open f_fail f_text f_pos]. destruct (decide (length text < 2)%nat) as [Hs|Hs]; [by rewrite decide_True by lia|].
  rewrite decide_False by lia. cbn [good f_eof f_fail negb andb].
  destruct text as [|z l _] using rev_ind; [simpl in Hs; lia|]. destruct (cut_exists l) as (a & m & -> & Hcut).
  rewrite !length_app in Hs, Hf, Hlt. simpl in Hs, Hf, Hlt.
  replace (len ((a ++ m) ++ [z]) + -2) with (len (a ++ m) - 1) by (rewrite (length_app (a ++ m)); simpl; lia).
  rewrite <- (app_assoc a). rewrite go_back_over; [|done|intros [-> ->]%app_eq_nil; simpl in Hs; lia|lia|lia|lia].
  rewrite (last_line_cut _ _ _ Hcut). destruct Hcut as [Hm Ha]. cbn [fmap option_fmap option_map mbind outcome_bind].
  destruct (decide (a = [])) as [Hnil|Hnil]; unfold print_last; cbn [tellg sentry good f_eof f_fail f_pos negb andb].
  - subst a. rewrite decide_True by done. simpl. eexists. do 3 f_equal. rewrite drop_0. case_decide as Hb; [|done].
    destruct Hb as [Hb _]. destruct m as [|c m]; simpl in *; [lia|]. injection Hb as ->. destruct Hm. by left.
  - destruct Ha as [|[a' ->]]; [done|]. rewrite length_app. cbn [length].
    replace (Z.of_nat (length a' + 1) - 1) with (len a') by lia. case_decide as Hp.
    + destruct a'; [|done]. simpl. eexists. do 3 f_equal. rewrite decide_True; [done|].
      split; [done|]. by rewrite removelast_last.
    + rewrite decide_False.
      2: { destruct a' as [|c a']; [done|]. simpl. rewrite <- !app_assoc. intros [_ Hn]. apply Hn.
           rewrite removelast_app by done. apply elem_of_app. right. simpl.
           destruct m; simpl; [by left|by left]. }
      unfold seekg_cur, seekg. cbn [f_fail f_text f_pos]. rewrite decide_False by lia.
      unfold getline. cbn [sentry good f_eof f_fail f_pos f_text negb andb].
      replace (Z.to_nat (len a' + 1)) with (length (a' ++ [NL])) by (rewrite length_app; simpl; lia).
      rewrite drop_app_length. by eexists.
Qed.

Definition two_lines : bytes := str "ab" ++ [NL] ++ str "cd" ++ [NL].

Lemma last_line_printed_witness :
  exists o, read_file_last_line 6 (Some two_lines) = Some (Ok (Some o, str "cd")).
Proof.
  pose proof (last_line_printed (Some two_lines) 6 ltac:(simpl; lia) ltac:(simpl; lia)) as H.
  exact H.
Defined.

Example last_line_missed :
  read_file_last_line 5 (Some ([NL] ++ str "cd" ++ [NL])) = Some (Ok (Some (2, 1), [])) /\
  last_line ([NL] ++ str "cd" ++ [NL]) = str "cd".
Proof. by vm_compute. Qed.
