(* ===== verification/Encrypt.v ===== *)
(** * Encrypting strings ([encrypt_decrypt/main.cpp])

    [EnDecrypt] calls AES-256-CBC of OpenSSL, which is the class [Evp] here: what a
    whole text is encrypted to, and how much of it the three calls read and
    write.  [key] is a pointer into the memory of strings. *)

From S2P Require Import Prelude CppInt.

(** ** AES-256 in CBC mode, as documented *)

Definition block : nat := 16.
Definition key_size : nat := 32.

Class Evp := {
  evp_enc : bytes -> bytes -> bytes -> bytes;             (* key, iv, plain text *)
  evp_dec : bytes -> bytes -> bytes -> option bytes;
}.

(** The padding fills the last block, which may be all padding. *)
Class EvpLaws (E : Evp) : Prop := {
  enc_length k iv p : length (evp_enc k iv p) = (block * (length p / block) + block)%nat;
  dec_enc k iv p : evp_dec k iv (evp_enc k iv p) = Some p;
  dec_length k iv c p : evp_dec k iv c = Some p -> (length p < length c)%nat;
  dec_blocks k iv c : (length c mod block <> 0)%nat -> evp_dec k iv c = None;
}.

(** ** [EnDecrypt] *)

Record EnDecrypt := mkEnDecrypt { key : Z }.
Definition iv : bytes := str "AFl23F56-8E01!F4".

Abbreviation Mem := (gmap Z bytes).

(** The parameter [key2] is a string of its own, at an address [p] of the
    implementation's choice; the constructor keeps its address, and the string
    is destroyed when the constructor has returned. *)
Definition EnDecrypt_new (p : Z) (key2 : bytes) : M Mem EnDecrypt :=
  modify (<[p := key2 ++ [NUL]]>) ;;
  let this := mkEnDecrypt p in
  modify (delete p) ;;
  mret this.

(** What the library reads from a pointer. *)
Definition mem_read (p : Z) (n : nat) : M Mem bytes :=
  m ← getS;
  match m !! p with
  | Some b => if decide (n <= length b)%nat then mret (take n b) else undefined
  | None => undefined
  end.

(** Storing [d] at offset [off] of a string. *)
Definition store (off : nat) (d s : bytes) : outcome bytes :=
  if decide (off + length d <= length s)%nat then Ok (take off s ++ d ++ drop (off + length d) s) else UB.

(** Which of the calls to the library fail. *)
Record Rc := mkRc { init_ok : bool; update_ok : bool; final_ok : bool }.

(** [(int) s.size()] as the number of bytes the library is to read from [s]; what it does
    with a negative number is not documented. *)
Definition int_size (s : bytes) : outcome nat :=
  let n := s32 (len s) in if decide (0 <= n) then Ok (Z.to_nat n) else UB.

(** [resize(out_len1 + out_len2)], with the sum of two [int]s. *)
Definition resize_to (a b : nat) (s : bytes) : outcome bytes :=
  n ← int_add (Z.of_nat a) (Z.of_nat b); Ok (take (Z.to_nat n) s).

Section en_decrypt.
Context `{Evp}.

(** [EVP_EncryptUpdate] writes the whole blocks it has been given, [EVP_EncryptFinal_ex]
    the last one. *)
Definition encrypt (this : EnDecrypt) (rc : Rc) (ptext : bytes) : M Mem bytes :=
  if init_ok rc then
    k ← mem_read (key this) key_size;
    let ctext := replicate (2 * length ptext) NUL in
    inl ← liftO (int_size ptext);
    let c := evp_enc k iv (take inl ptext) in
    if update_ok rc then
      let out_len1 := (block * (inl / block))%nat in
      ctext ← liftO (store 0 (take out_len1 c) ctext);
      if final_ok rc then
        let rest := drop out_len1 c in
        ctext ← liftO (store out_len1 rest ctext);
        liftO (resize_to out_len1 (length rest) ctext)
      else mret []
    else mret []
  else mret [].

(** [EVP_DecryptUpdate] keeps the last block back, [EVP_DecryptFinal_ex] checks it. *)
Definition decrypt (this : EnDecrypt) (rc : Rc) (ctext : bytes) : M Mem bytes :=
  if init_ok rc then
    k ← mem_read (key this) key_size;
    let ptext := replicate (2 * length ctext) NUL in
    inl ← liftO (int_size ctext);
    if update_ok rc then
      let out_len1 := (block * ((inl - 1) / block))%nat in
      match evp_dec k iv (take inl ctext) with
      | Some p =>
          let out1 := take out_len1 p in
          ptext ← liftO (store 0 out1 ptext);
          if final_ok rc then
            let rest := drop out_len1 p in
            ptext ← liftO (store (length out1) rest ptext);
            liftO (resize_to (length out1) (length rest) ptext)
          else mret []
      | None => mret []
      end
    else mret []
  else mret [].
End en_decrypt.

Definition all_ok : Rc := mkRc true true true.

(** ** Facts *)

Lemma store_twice a b s :
  (length a + length b <= length s)%nat ->
  exists t, store 0 a s = Ok t /\ length t = length s /\
    exists u, store (length a) b t = Ok u /\ take (length a + length b) u = a ++ b.
Proof.
  intros Hl. unfold store. rewrite decide_True by lia. eexists. split; [done|]. simpl.
  assert (Hlen : length (a ++ drop (length a) s) = length s) by (rewrite length_app, length_drop; lia).
  split; [done|]. rewrite Hlen, decide_True by lia. eexists. split; [done|].
  rewrite take_app_length. rewrite app_assoc. by rewrite take_app_length' by (rewrite length_app; lia).
Qed.

Lemma store_too_long off d s : (length s < off + length d)%nat -> store off d s = UB.
Proof. intros. unfold store. by rewrite decide_False by lia. Qed.

Lemma store_length off d s t : store off d s = Ok t -> length t = length s.
Proof.
  unfold store. case_decide; [|done]. intros [= <-]. rewrite !length_app, length_take, length_drop. lia.
Qed.

Lemma blocks_le n : (block * (n / block) <= n)%nat.
Proof. apply Nat.Div0.mul_div_le. Qed.

Lemma blocks_fit n : (block * (n / block) + block <= 2 * n)%nat <-> (8 <= n)%nat.
Proof.
  unfold block. pose proof (Nat.div_mod_eq n 16) as E. pose proof (Nat.mod_upper_bound n 16 ltac:(lia)).
  split; intros Hn; [|nia]. destruct (n / 16)%nat; lia.
Qed.

Lemma int_size_ok s : len s < 2 ^ 31 -> int_size s = Ok (length s).
Proof. intros Hs. unfold int_size. rewrite s32_small by lia. rewrite decide_True by lia. by rewrite Nat2Z.id. Qed.

Lemma resize_to_ok a b s : Z.of_nat (a + b) < 2 ^ 31 -> resize_to a b s = Ok (take (a + b) s).
Proof.
  intros Hs. unfold resize_to, int_add. rewrite schk_ok by (unfold in_s; lia). cbn [mbind outcome_bind].
  rewrite <- Nat2Z.inj_add. by rewrite Nat2Z.id.
Qed.

Section facts.
Context `{EvpLaws}.

Lemma mem_read_ok p n b (m : Mem) : m !! p = Some b -> (n <= length b)%nat -> mem_read p n m = Ok (take n b, m).
Proof. intros Hp Hn. unfold mem_read, getS, mbind, M_bind. rewrite Hp. by rewrite decide_True. Qed.

Lemma encrypt_ok p b ptext (m : Mem) :
  m !! p = Some b -> (key_size <= length b)%nat -> len ptext < 2 ^ 31 - 16 ->
  encrypt (mkEnDecrypt p) all_ok ptext m =
    if decide (8 <= length ptext)%nat then Ok (evp_enc (take key_size b) iv ptext, m) else UB.
Proof.
  intros Hp Hb Hw. unfold encrypt. cbn [init_ok update_ok final_ok all_ok key]. unfold mbind at 1, M_bind at 1.
  rewrite (mem_read_ok p key_size b m) by done. unfold mbind at 1, M_bind at 1, liftO at 1.
  rewrite int_size_ok by lia. rewrite (take_ge ptext) by lia. set (c := evp_enc _ _ _).
  assert (Hc : length c = (block * (length ptext / block) + block)%nat) by apply enc_length.
  set (k := (block * (length ptext / block))%nat) in *. pose proof (blocks_fit (length ptext)) as Hfit. fold k in Hfit.
  pose proof (blocks_le (length ptext)) as Hle. fold k in Hle.
  assert (Hk : length (take k c) = k) by (rewrite length_take; lia).
  assert (Hd : length (drop k c) = block) by (rewrite length_drop; lia).
  case_decide as Hn.
  - destruct (store_twice (take k c) (drop k c) (replicate (2 * length ptext) NUL)) as (t & Ht & _ & u & Hu & Ht2).
    { rewrite length_replicate. lia. }
    unfold mbind, M_bind, liftO. rewrite Ht. rewrite Hk in Hu, Ht2. rewrite Hu.
    rewrite resize_to_ok by (unfold block in *; lia). rewrite Ht2. by rewrite take_drop.
  - unfold mbind, M_bind, liftO. destruct (store 0 _ _) as [t| |] eqn:Ht; [|unfold store in Ht; by case_decide|done].
    apply store_length in Ht. rewrite store_too_long; [done|]. rewrite Ht, length_replicate, Hd. lia.
Qed.

Lemma decrypt_ok p b ctext (m : Mem) :
  m !! p = Some b -> (key_size <= length b)%nat -> len ctext < 2 ^ 31 ->
  decrypt (mkEnDecrypt p) all_ok ctext m = Ok (default [] (evp_dec (take key_size b) iv ctext), m).
Proof.
  intros Hp Hb Hw. unfold decrypt. cbn [init_ok update_ok final_ok all_ok key]. unfold mbind at 1, M_bind at 1.
  rewrite (mem_read_ok p key_size b m) by done. unfold mbind at 1, M_bind at 1, liftO at 1.
  rewrite int_size_ok by lia. rewrite (take_ge ctext) by lia. destruct (evp_dec _ iv ctext) as [t|] eqn:Ed; [|done].
  apply dec_length in Ed. set (k := (block * _)%nat).
  destruct (store_twice (take k t) (drop k t) (replicate (2 * length ctext) NUL)) as (x & Hx & _ & u & Hu & Ht2).
  { rewrite length_replicate, length_take, length_drop. lia. }
  unfold mbind, M_bind, liftO. rewrite Hx, Hu.
  rewrite resize_to_ok by (rewrite length_take, length_drop; lia). rewrite Ht2. by rewrite take_drop.
Qed.

(** With a key that is still there and has at least the 32 bytes the cipher reads,
    decrypting what was encrypted gives the text back, provided it has at least 8
    and less than 2^31 - 16 characters: the buffer of twice the text has no room for
    the padding of a shorter one, and the last block is written behind it.  A
    text that is not made of whole blocks, or a call of the library that fails,
    gives the empty string. *)
Theorem encrypt_roundtrip p b ptext (m : Mem) :
  m !! p = Some b -> (key_size <= length b)%nat ->
  ((8 <= length ptext)%nat -> len ptext < 2 ^ 31 - 16 ->
   (c ← encrypt (mkEnDecrypt p) all_ok ptext; decrypt (mkEnDecrypt p) all_ok c) m = Ok (ptext, m)) /\
  ((length ptext < 8)%nat -> encrypt (mkEnDecrypt p) all_ok ptext m = UB) /\
  (forall ctext, len ctext < 2 ^ 31 -> (length ctext mod block <> 0)%nat ->
     decrypt (mkEnDecrypt p) all_ok ctext m = Ok ([], m)) /\
  (forall rc ctext, len ctext < 2 ^ 31 -> rc <> all_ok -> decrypt (mkEnDecrypt p) rc ctext m = Ok ([], m)).
Proof.
  intros Hp Hb. split_and!.
  - intros Hn Hw. unfold mbind, M_bind. rewrite (encrypt_ok p b) by done. rewrite decide_True by done.
    rewrite (decrypt_ok p b); [by rewrite dec_enc|done..|].
    rewrite enc_length. pose proof (blocks_le (length ptext)). unfold block in *. lia.
  - intros Hn. rewrite (encrypt_ok p b) by (done || lia). by rewrite decide_False by lia.
  - intros c Hw Hc. rewrite (decrypt_ok p b) by done. by rewrite dec_blocks.
  - intros [i u f] c Hw Hrc. unfold decrypt. cbn [init_ok update_ok final_ok key].
    destruct i; [|done]. unfold mbind at 1, M_bind at 1. rewrite (mem_read_ok p key_size b m) by done.
    unfold mbind at 1, M_bind at 1, liftO at 1. rewrite int_size_ok by lia. rewrite (take_ge c) by lia.
    destruct u; [|done]. destruct (evp_dec _ iv c) as [t|] eqn:Ed; [|done]. destruct f; [done|].
    apply dec_length in Ed. unfold mbind, M_bind, liftO, store. rewrite decide_True; [done|].
    rewrite length_take, length_replicate. lia.
Qed.

(** But no object ever has such a key: the constructor keeps the address of its
    parameter, so that every later call reads a string that is gone. *)
Theorem key_dangles p key2 rc text (m : Mem) :
  init_ok rc = true ->
  (this ← EnDecrypt_new p key2; encrypt this rc text) m = UB /\
  (this ← EnDecrypt_new p key2; decrypt this rc text) m = UB.
Proof.
  intros Hi. unfold EnDecrypt_new, encrypt, decrypt, modify, mbind, M_bind, mret, M_ret. rewrite Hi. cbn [key].
  unfold mem_read, getS, mbind, M_bind. cbv beta iota. by rewrite lookup_delete_eq.
Qed.
End facts.

(** ** A cipher that only pads *)

Definition pad (p : bytes) : bytes :=
  let n := (block - length p mod block)%nat in p ++ replicate n (ascii_of_nat n).
Definition unpad (c : bytes) : option bytes :=
  match last c with
  | Some x =>
      let n := nat_of_ascii x in
      if decide (length c mod block = 0 /\ 1 <= n <= length c)%nat then Some (take (length c - n) c) else None
  | None => None
  end.
Definition only_pads : Evp := {| evp_enc _ _ := pad; evp_dec _ _ := unpad |}.

Lemma only_pads_laws : EvpLaws only_pads.
Proof.
  assert (Hl : forall p, length (pad p) = (block * (length p / block) + block)%nat).
  { intros p. unfold pad. rewrite length_app, length_replicate. unfold block.
    pose proof (Nat.div_mod_eq (length p) 16). pose proof (Nat.mod_upper_bound (length p) 16 ltac:(lia)). lia. }
  split; simpl.
  - intros _ _ p. apply Hl.
  - intros _ _ p. pose proof (Hl p) as Hp. unfold unpad, pad in *.
    pose proof (Nat.mod_upper_bound (length p) block ltac:(unfold block; lia)) as Hm.
    set (n := (block - length p mod block)%nat) in *. assert (Hn : (1 <= n <= 16)%nat) by (unfold n, block in *; lia).
    assert (Hlast : last (p ++ replicate n (ascii_of_nat n)) = Some (ascii_of_nat n)).
    { destruct n as [|k]; [lia|]. rewrite replicate_S_end, app_assoc. apply last_snoc. }
    rewrite Hlast, nat_ascii_embedding by lia. rewrite decide_True.
    + f_equal. rewrite length_app, length_replicate, Nat.add_sub, take_app_length. done.
    + rewrite Hp. split; [|lia]. replace (block * (length p / block) + block)%nat with ((length p / block + 1) * block)%nat by lia.
      apply Nat.Div0.mod_mul.
  - intros _ _ c p. unfold unpad. destruct (last c); [|done]. case_decide; [|done]. intros [= <-].
    rewrite length_take. lia.
  - intros _ _ c Hc. unfold unpad. destruct (last c); [|done]. rewrite decide_False; [done|]. tauto.
Qed.

Definition demo_key : bytes := str "0123456789abcdef0123456789abcdef".

Lemma encrypt_roundtrip_witness :
  let m : Mem := {[ 64 := demo_key ]} in
  (c ← encrypt (H := only_pads) (mkEnDecrypt 64) all_ok (str "qwe#asd^123");
   decrypt (H := only_pads) (mkEnDecrypt 64) all_ok c) m = Ok (str "qwe#asd^123", m) /\
  encrypt (H := only_pads) (mkEnDecrypt 64) all_ok (str "short") m = UB.
Proof.
  intros m. assert (Hm : m !! 64 = Some demo_key) by reflexivity.
  assert (Hk : (key_size <= length demo_key)%nat) by (simpl; unfold key_size; lia). split.
  - exact (proj1 (encrypt_roundtrip (H := only_pads_laws) 64 demo_key (str "qwe#asd^123") m Hm Hk) ltac:(simpl; lia) ltac:(simpl; lia)).
  - exact (proj1 (proj2 (encrypt_roundtrip (H := only_pads_laws) 64 demo_key (str "short") m Hm Hk)) ltac:(simpl; lia)).
Defined.

Lemma key_dangles_witness :
  (this ← EnDecrypt_new 64 demo_key; encrypt (H := only_pads) this all_ok (str "qwe#asd^123")) ∅ = UB.
Proof. exact (proj1 (key_dangles (E := only_pads) 64 demo_key all_ok (str "qwe#asd^123") ∅ eq_refl)). Defined.
