(* ===== verification/IoUring.v ===== *)
(** * [cat] over the rings of io_uring ([any/io_uring_test.cpp])

    The two rings shared with the kernel, the functions that put an entry into
    one and take a completion out of the other, and the loop of [main] that reads
    standard input and writes standard output through them.  What files hold, and
    whether [io_uring_enter] takes the entry, is the class [Kernel]; the order in
    which the kernel takes the entries is that of the ring. *)

From S2P Require Import Prelude CppInt Sockets.

Definition QUEUE_DEPTH : Z := 8.
Definition BLOCK_SZ : Z := 1024.

(** ** [app_setup_uring]: where the rings are *)

Record offsets := mkOffsets {
  single_mmap : bool;                                        (* IORING_FEAT_SINGLE_MMAP *)
  sq_entries : Z; cq_entries : Z;
  sq_off_tail : Z; sq_off_mask : Z; sq_off_array : Z;
  cq_off_head : Z; cq_off_tail : Z; cq_off_mask : Z; cq_off_cqes : Z;
}.

Record pointers := mkPointers {
  p_sring_tail : Z; p_sring_mask : Z; p_sring_array : Z; p_sqes : Z;
  p_cring_head : Z; p_cring_tail : Z; p_cring_mask : Z; p_cqes : Z;
}.

Definition sizeof_unsigned : Z := 4.
Definition sizeof_cqe : Z := 16.
Definition sizeof_sqe : Z := 64.
Definition IORING_OFF_SQ_RING : Z := 0.
Definition IORING_OFF_CQ_RING : Z := 134217728.
Definition IORING_OFF_SQES : Z := 268435456.

(** A pointer to objects of [size] bytes, moved by [n] objects. *)
Definition padd (size p n : Z) : Z := p + size * n.

(** The lengths [sring_sz] and [cring_sz] that are mapped; both are [int]. *)
Definition ring_sizes (p : offsets) : Z * Z :=
  let sring_sz := s32 (u64 (sq_off_array p + sq_entries p * sizeof_unsigned)) in
  let cring_sz := s32 (u64 (cq_off_cqes p + cq_entries p * sizeof_cqe)) in
  if single_mmap p then
    let sring_sz := if decide (cring_sz > sring_sz) then cring_sz else sring_sz in
    (sring_sz, sring_sz)
  else (sring_sz, cring_sz).

(** [mmap], of a length and an offset, answers with an address or fails ([None]);
    the function's value and, when it is [0], what the globals point to. *)
Definition app_setup_uring (ring_fd : Z) (p : offsets) (mmap : Z -> Z -> option Z) : Z * option pointers :=
  if decide (ring_fd < 0) then (1, None)
  else
    let '(sring_sz, cring_sz) := ring_sizes p in
    match mmap (u64 sring_sz) IORING_OFF_SQ_RING with
    | None => (1, None)
    | Some sq_ptr =>
        match (if single_mmap p then Some sq_ptr else mmap (u64 cring_sz) IORING_OFF_CQ_RING) with
        | None => (1, None)
        | Some cq_ptr =>
            match mmap (u64 (sq_entries p * sizeof_sqe)) IORING_OFF_SQES with
            | None => (1, None)
            | Some sqes =>
                (0, Some (mkPointers
                  (padd sizeof_unsigned sq_ptr (sq_off_tail p / sizeof_unsigned))
                  (padd sizeof_unsigned sq_ptr (sq_off_mask p / sizeof_unsigned))
                  (padd sizeof_unsigned sq_ptr (sq_off_array p / sizeof_unsigned))
                  sqes
                  (padd sizeof_unsigned cq_ptr (cq_off_head p / sizeof_unsigned))
                  (padd sizeof_unsigned cq_ptr (cq_off_tail p / sizeof_unsigned))
                  (padd sizeof_unsigned cq_ptr (cq_off_mask p / sizeof_unsigned))
                  (padd sizeof_cqe cq_ptr (cq_off_cqes p / sizeof_cqe))))
            end
        end
    end.

(** ** The rings *)

Inductive opcode : Type := IORING_OP_NOP | IORING_OP_READ | IORING_OP_WRITE.

#[export] Instance opcode_eq_dec : EqDecision opcode.
Proof. solve_decision. Defined.

(** The address of an entry is always that of [buff]. *)
Record io_uring_sqe := mkSqe { sq_opcode : opcode; sq_fd : Z; sq_len : Z; sq_off : Z }.

(** [sring_head] belongs to the kernel; a completion is its [res]. *)
Record uring := mkUring {
  sring_head : Z; sring_tail : Z; sring_mask : Z; sring_array : list Z; sqes : list io_uring_sqe;
  cring_head : Z; cring_tail : Z; cring_mask : Z; cqes : list Z;
}.

Definition Sqe_zero : io_uring_sqe := mkSqe IORING_OP_NOP 0 0 0.

(** Rings of [n] entries and [m] completions, as they are after the set-up. *)
Definition uring_new (n m : nat) : uring :=
  mkUring 0 0 (Z.of_nat n - 1) (replicate n 0) (replicate n Sqe_zero) 0 0 (Z.of_nat m - 1) (replicate m 0).

(** ** The kernel *)

Class Kernel := {
  world : Type;
  k_enter : world -> bool * world;                               (* does the call take the entry? *)
  k_read : Z -> Z -> Z -> world -> Z * bytes * world;            (* fd, length, offset *)
  k_write : Z -> bytes -> Z -> world -> Z * world;
}.

(** A read stores what it says, and not more than it was asked for; an error is
    one of the numbers of [errno], negated. *)
Class KernelLaws (X : Kernel) : Prop := {
  read_result fd n off w r d w' :
    k_read fd n off w = (r, d, w') -> 0 <= n -> -4095 <= r /\ len d = Z.max 0 r /\ len d <= n;
  write_result fd d off w r w' : k_write fd d off w = (r, w') -> -4095 <= r <= len d;
}.

Section cat.
Context {X : Kernel}.

(** The globals [buff] and [offset], the files, and what [main] wrote to [stderr]:
    the error numbers. *)
Record io := mkIo { buff : bytes; offset : Z; files : world; errors : list Z }.
Record st := mkSt { ring : uring; prog : io }.

Definition on_ring (f : uring -> uring) (s : st) : st := mkSt (f (ring s)) (prog s).
Definition on_prog (f : io -> io) (s : st) : st := mkSt (ring s) (f (prog s)).
Definition set_buff (b : bytes) (c : io) : io := mkIo b (offset c) (files c) (errors c).
Definition set_files (w : world) (c : io) : io := mkIo (buff c) (offset c) w (errors c).

(** What the kernel does with an entry. *)
Definition perform (e : io_uring_sqe) : M io Z :=
  c ← getS;
  match sq_opcode e with
  | IORING_OP_NOP => mret 0
  | IORING_OP_READ =>
      let '(r, d, w) := k_read (sq_fd e) (sq_len e) (sq_off e) (files c) in
      b ← liftO (buf_write 0 d (buff c));
      modify (fun c => set_files w (set_buff b c)) ;; mret r
  | IORING_OP_WRITE =>
      let '(r, w) := k_write (sq_fd e) (take (Z.to_nat (sq_len e)) (buff c)) (sq_off e) (files c) in
      modify (set_files w) ;; mret r
  end.

(** The kernel takes the entry at the head of the one ring and puts its result
    at the tail of the other. *)
Definition kernel_turn : M st unit :=
  s ← getS;
  let u := ring s in
  if decide (sring_head u = sring_tail u) then throwM blocked
  else
    match sring_array u !! Z.to_nat (Z.land (sring_head u) (sring_mask u)) with
    | None => undefined
    | Some index =>
        match sqes u !! Z.to_nat index with
        | None => undefined
        | Some e =>
            r ← zoom prog (fun c s => mkSt (ring s) c) (perform e);
            let slot := Z.to_nat (Z.land (cring_tail u) (cring_mask u)) in
            modify (on_ring (fun u =>
              mkUring (u32 (sring_head u + 1)) (sring_tail u) (sring_mask u) (sring_array u) (sqes u)
                (cring_head u) (u32 (cring_tail u + 1)) (cring_mask u) (<[slot := r]> (cqes u))))
        end
    end.

(** [io_uring_enter(ring_fd, 1, 1, IORING_ENTER_GETEVENTS)] *)
Definition io_uring_enter : M st Z :=
  s ← getS;
  let '(ok, w) := k_enter (files (prog s)) in
  modify (on_prog (set_files w)) ;;
  if ok then kernel_turn ;; mret 1 else mret (-1).

(** ** The program *)

Definition io_uring_smp_store_release_tail (v : Z) : M st unit := modify (on_ring (fun u =>
  mkUring (sring_head u) v (sring_mask u) (sring_array u) (sqes u)
    (cring_head u) (cring_tail u) (cring_mask u) (cqes u))).
Definition io_uring_smp_store_release_head (v : Z) : M st unit := modify (on_ring (fun u =>
  mkUring (sring_head u) (sring_tail u) (sring_mask u) (sring_array u) (sqes u)
    v (cring_tail u) (cring_mask u) (cqes u))).
Definition io_uring_smp_load_acquire : M st Z := gets (fun s => cring_head (ring s)).

(** The buffer is cleared before a read; a write takes the string in it. *)
Definition prepare (op : opcode) : M io Z :=
  c ← getS;
  if decide (op = IORING_OP_READ)
  then modify (set_buff (replicate (length (buff c)) NUL)) ;; mret BLOCK_SZ
  else s ← liftO (cstr (buff c)); mret (u32 (len s)).

Definition submit_to_sq (fd : Z) (op : opcode) : M st Z :=
  s ← getS;
  let tail := sring_tail (ring s) in
  let index := Z.land tail (sring_mask (ring s)) in
  if decide (index < len (sqes (ring s)) /\ index < len (sring_array (ring s))) then
    n ← zoom prog (fun c s => mkSt (ring s) c) (prepare op);
    modify (on_ring (fun u =>
      mkUring (sring_head u) (sring_tail u) (sring_mask u) (<[Z.to_nat index := index]> (sring_array u))
        (<[Z.to_nat index := mkSqe op fd n (u64 (offset (prog s)))]> (sqes u))
        (cring_head u) (cring_tail u) (cring_mask u) (cqes u))) ;;
    io_uring_smp_store_release_tail (u32 (tail + 1)) ;;
    ret ← io_uring_enter;
    if decide (ret < 0) then mret (-1) else mret ret
  else undefined.

(** [fprintf(stderr, "ERROR: %s\n", strerror(abs(res)))] *)
Definition print_error (res : Z) : M io unit :=
  e ← liftO (schk 32 (Z.abs res));
  modify (fun c => mkIo (buff c) (offset c) (files c) (errors c ++ [e])).

Definition read_from_cq : M st Z :=
  head ← io_uring_smp_load_acquire;
  s ← getS;
  if decide (head = cring_tail (ring s)) then mret (-1)
  else
    match cqes (ring s) !! Z.to_nat (Z.land head (cring_mask (ring s))) with
    | None => undefined
    | Some res =>
        zoom prog (fun c s => mkSt (ring s) c) (whenM (bool_decide (res < 0)) (print_error res)) ;;
        io_uring_smp_store_release_head (u32 (head + 1)) ;;
        mret res
    end.

Definition STDIN_FILENO : Z := 0.
Definition STDOUT_FILENO : Z := 1.

(** The body of [while (1)]; [true]: it breaks. *)
Definition cat_round : M st bool :=
  submit_to_sq STDIN_FILENO IORING_OP_READ ;;
  res ← read_from_cq;
  if decide (res = 0) then mret true
  else
    (if decide (res > 0)
     then submit_to_sq STDOUT_FILENO IORING_OP_WRITE ;; read_from_cq ;; mret tt
     else zoom prog (fun c s => mkSt (ring s) c) (print_error res)) ;;
    s ← getS;
    o ← liftO (i64_add (offset (prog s)) res);
    modify (on_prog (fun c => mkIo (buff c) o (files c) (errors c))) ;;
    mret false.

(** [None]: still reading. *)
Fixpoint cat_loop (fuel : nat) (s : st) : option (outcome st) :=
  match fuel with
  | O => None
  | S fuel =>
      match cat_round s with
      | Ok (true, s) => Some (Ok s)
      | Ok (false, s) => cat_loop fuel s
      | Throw e => Some (Throw e)
      | UB => Some UB
      end
  end.

(** [main], when the rings could be set up. *)
Definition cat_start (w : world) : st :=
  mkSt (uring_new (Z.to_nat QUEUE_DEPTH) (Z.to_nat (2 * QUEUE_DEPTH)))
    (mkIo (replicate (Z.to_nat BLOCK_SZ) NUL) 0 w []).
Definition cat_main (fuel : nat) (w : world) : option (outcome st) := cat_loop fuel (cat_start w).

(** ** Without the rings: the specification *)

Definition direct (fd : Z) (op : opcode) : M io Z :=
  c ← getS;
  n ← prepare op;
  let '(_, w) := k_enter (files c) in
  modify (set_files w) ;;
  r ← perform (mkSqe op fd n (u64 (offset c)));
  whenM (bool_decide (r < 0)) (print_error r) ;;
  mret r.

(** Rings of two powers, with nothing under way. *)
Definition idle (u : uring) : Prop :=
  exists a b, 0 <= a <= 31 /\ 0 <= b <= 31 /\
    sring_mask u = 2 ^ a - 1 /\ len (sring_array u) = 2 ^ a /\ len (sqes u) = 2 ^ a /\
    cring_mask u = 2 ^ b - 1 /\ len (cqes u) = 2 ^ b /\
    in_u32 (sring_tail u) /\ sring_head u = sring_tail u /\
    in_u32 (cring_tail u) /\ cring_head u = cring_tail u.

(** ** A submission and its completion *)

Lemma land_slot x a : 0 <= a -> 0 <= Z.land x (2 ^ a - 1) < 2 ^ a.
Proof.
  intros Ha. replace (2 ^ a - 1) with (Z.ones a) by (rewrite Z.ones_equiv; lia).
  rewrite Z.land_ones by done. apply Z.mod_pos_bound. lia.
Qed.

Lemma u32_succ_ne x : in_u32 x -> u32 (x + 1) <> x.
Proof.
  intros Hx E. destruct (decide (x = 2 ^ 32 - 1)) as [->|Hn]; [by vm_compute in E|].
  rewrite u32_small in E by (unfold in_u in Hx; lia). lia.
Qed.

Lemma u32_in x : in_u32 (u32 x).
Proof. apply wrapu_range. lia. Qed.

(** The rings after an entry went in and its result [r] came out. *)
Definition ring_after (e : io_uring_sqe) (r : Z) (u : uring) : uring :=
  let index := Z.land (sring_tail u) (sring_mask u) in
  let slot := Z.to_nat (Z.land (cring_tail u) (cring_mask u)) in
  mkUring (u32 (sring_head u + 1)) (u32 (sring_tail u + 1)) (sring_mask u)
    (<[Z.to_nat index := index]> (sring_array u)) (<[Z.to_nat index := e]> (sqes u))
    (u32 (cring_head u + 1)) (u32 (cring_tail u + 1)) (cring_mask u) (<[slot := r]> (cqes u)).

Lemma idle_after e r u : idle u -> idle (ring_after e r u).
Proof.
  intros (a & b & Ha & Hb & H1 & H2 & H3 & H4 & H5 & H6 & H7 & H8 & H9).
  exists a, b. unfold ring_after. simpl. rewrite !length_insert, H7, H9.
  split_and!; try done; try lia; apply u32_in.
Qed.

Lemma prepare_files op c n c1 : prepare op c = Ok (n, c1) -> files c1 = files c /\ offset c1 = offset c.
Proof.
  unfold prepare, mbind, M_bind, getS. case_decide; [by intros [= <- <-]|].
  unfold liftO. destruct (cstr (buff c)); [|done|done]. by intros [= <- <-].
Qed.

Lemma submit_idle u c fd op n c1 w :
  idle u -> prepare op c = Ok (n, c1) -> k_enter (files c) = (true, w) ->
  submit_to_sq fd op (mkSt u c) =
    match perform (mkSqe op fd n (u64 (offset c))) (set_files w c1) with
    | Ok (r, c2) =>
        let v := ring_after (mkSqe op fd n (u64 (offset c))) r u in
        Ok (1, mkSt (mkUring (sring_head v) (sring_tail v) (sring_mask v) (sring_array v) (sqes v)
                       (cring_head u) (cring_tail v) (cring_mask v) (cqes v)) c2)
    | Throw e => Throw e
    | UB => UB
    end.
Proof.
  intros (a & b & Ha & Hb & H1 & H2 & H3 & H4 & H5 & H6 & H7 & H8 & H9) Hp Hw.
  pose proof (land_slot (sring_tail u) a) as Hi. rewrite <- H1 in Hi. specialize (Hi (proj1 Ha)).
  unfold submit_to_sq, zoom, mbind, M_bind, getS. cbn [ring prog]. cbn beta iota zeta.
  rewrite decide_True by lia.  cbn [ring prog]. rewrite Hp. cbn beta iota.
  unfold io_uring_smp_store_release_tail, io_uring_enter, kernel_turn, zoom, mbind, M_bind, getS, modify,
    on_ring, on_prog. cbn. rewrite (proj1 (prepare_files _ _ _ _ Hp)), Hw. cbn.
  rewrite decide_False by (rewrite H7; intros E; symmetry in E; by apply u32_succ_ne in E).
  rewrite H7, list_lookup_insert_eq by lia. rewrite list_lookup_insert_eq by lia.
  cbn. destruct (perform _ _) as [[r c2]| |]; done.
Qed.

Lemma reap_idle e u r c :
  idle u ->
  let v := ring_after e r u in
  read_from_cq (mkSt (mkUring (sring_head v) (sring_tail v) (sring_mask v) (sring_array v) (sqes v)
                       (cring_head u) (cring_tail v) (cring_mask v) (cqes v)) c) =
    match whenM (bool_decide (r < 0)) (print_error r) c with
    | Ok (_, c') => Ok (r, mkSt v c')
    | Throw e => Throw e
    | UB => UB
    end.
Proof.
  intros (a & b & Ha & Hb & H1 & H2 & H3 & H4 & H5 & H6 & H7 & H8 & H9).
  pose proof (land_slot (cring_tail u) b) as Hi. rewrite <- H4 in Hi. specialize (Hi (proj1 Hb)).
  unfold ring_after. cbn. unfold read_from_cq, mbind, M_bind, io_uring_smp_load_acquire, gets, getS. cbn.
  rewrite decide_False by (rewrite H9; intros E; symmetry in E; by apply u32_succ_ne in E).
  rewrite H9, list_lookup_insert_eq by lia. unfold zoom. cbn.
  by destruct (whenM _ _ _) as [[[] c']| |].
Qed.

Lemma call_idle fd op u c :
  idle u -> (k_enter (files c)).1 = true ->
  exists v : Z -> uring, (forall r, idle (v r)) /\
    (submit_to_sq fd op ;; read_from_cq) (mkSt u c) =
      match direct fd op c with
      | Ok (r, c') => Ok (r, mkSt (v r) c')
      | Throw e => Throw e
      | UB => UB
      end.
Proof.
  intros Hu Hw. destruct (k_enter (files c)) as [ok w] eqn:Ew. simpl in Hw. subst ok.
  destruct (prepare op c) as [[n c1]|e|] eqn:Ep.
  - exists (fun r => ring_after (mkSqe op fd n (u64 (offset c))) r u).
    split; [intros r; by apply idle_after|].
    unfold direct, mbind, M_bind, getS. cbn beta iota.
    rewrite (submit_idle u c fd op n c1 w Hu Ep Ew).
    rewrite Ep, Ew. unfold modify. cbn beta iota.
    destruct (perform _ _) as [[r c2]|e|]; [|done|done]. cbn beta iota zeta.
    rewrite reap_idle by done. by destruct (whenM _ _ _) as [[[] c']| |].
  - exfalso. revert Ep. unfold prepare, mbind, M_bind, getS. case_decide; [done|].
    unfold liftO. destruct (cstr (buff c)) eqn:Ec; try done. clear -Ec. exfalso.
    revert e0 Ec. induction (buff c) as [|x b IH]; intros e0; simpl; [done|]. case_decide; [done|].
    destruct (cstr b) eqn:E; simpl; try done. intros _. by apply (IH e1).
  - exists (fun _ => u). split; [done|]. unfold direct, mbind, M_bind, getS. cbn beta iota. rewrite Ep.
    pose proof Hu as (a & b & Ha & Hb & H1 & H2 & H3 & _).
    pose proof (land_slot (sring_tail u) a) as Hi. rewrite <- H1 in Hi. specialize (Hi (proj1 Ha)).
    unfold submit_to_sq, zoom, mbind, M_bind, getS. cbn [ring prog]. cbn beta iota zeta.
    rewrite decide_True by lia. cbn [ring prog]. by rewrite Ep.
Qed.
(** The loop of [main] over direct calls. *)
Definition direct_round : M io bool :=
  res ← direct STDIN_FILENO IORING_OP_READ;
  if decide (res = 0) then mret true
  else
    (if decide (res > 0) then direct STDOUT_FILENO IORING_OP_WRITE ;; mret tt else print_error res) ;;
    c ← getS;
    o ← liftO (i64_add (offset c) res);
    modify (fun c => mkIo (buff c) o (files c) (errors c)) ;;
    mret false.

Fixpoint direct_loop (fuel : nat) (c : io) : option (outcome io) :=
  match fuel with
  | O => None
  | S fuel =>
      match direct_round c with
      | Ok (true, c) => Some (Ok c)
      | Ok (false, c) => direct_loop fuel c
      | Throw e => Some (Throw e)
      | UB => Some UB
      end
  end.

(** The outcome of a computation over the rings is that of one without. *)
Definition ringed {A} (o : outcome (A * io)) (o' : outcome (A * st)) : Prop :=
  match o with
  | Ok (a, c) => exists v, idle v /\ o' = Ok (a, mkSt v c)
  | Throw e => o' = Throw e
  | UB => o' = UB
  end.

Lemma ringed_bind {A B} (m : M io A) (m' : M st A) (f : A -> M io B) (f' : A -> M st B) c s :
  ringed (m c) (m' s) ->
  (forall a c v, idle v -> ringed (f a c) (f' a (mkSt v c))) ->
  ringed ((m ≫= f) c) ((m' ≫= f') s).
Proof.
  intros H Hf. unfold mbind, M_bind. destruct (m c) as [[a c']|e|]; simpl in H.
  - destruct H as (v & Hv & ->). by apply Hf.
  - by rewrite H.
  - by rewrite H.
Qed.

Lemma ringed_prog {A} (m : M io A) c u :
  idle u -> ringed (m c) (zoom prog (fun c s => mkSt (ring s) c) m (mkSt u c)).
Proof.
  intros Hu. unfold zoom. cbn [prog ring]. destruct (m c) as [[a c']|e|]; [|done|done].
  by exists u.
Qed.

Lemma bind_assoc {S A B C} (m : M S A) (f : A -> M S B) (g : B -> M S C) s :
  ((m ≫= f) ≫= g) s = (m ≫= (fun a => f a ≫= g)) s.
Proof. unfold mbind, M_bind. by destruct (m s) as [[a s']| |]. Qed.

Section entering.
Hypothesis enters : forall w, (k_enter w).1 = true.

Lemma ringed_call fd op u c :
  idle u -> ringed (direct fd op c) ((submit_to_sq fd op ;; read_from_cq) (mkSt u c)).
Proof.
  intros Hu. destruct (call_idle fd op u c Hu (enters _)) as (v & Hv & ->).
  destruct (direct fd op c) as [[r c']|e|]; [|done|done]. by exists (v r).
Qed.

Lemma ringed_round u c : idle u -> ringed (direct_round c) (cat_round (mkSt u c)).
Proof.
  intros Hu. unfold cat_round, direct_round. rewrite <- bind_assoc.
  apply ringed_bind; [by apply ringed_call|]. clear u c Hu. intros r c u Hu.
  destruct (decide (r = 0)); [by exists u|]. apply ringed_bind.
  - destruct (decide (r > 0)); [|by apply ringed_prog]. rewrite <- bind_assoc.
    apply ringed_bind; [by apply ringed_call|]. intros a c' v Hv. by exists v.
  - clear u c Hu. intros _ c u Hu. unfold mbind, M_bind, getS, liftO, modify, on_prog. cbn.
    destruct (i64_add (offset c) r); [|done|done]. by exists u.
Qed.

Lemma ringed_loop fuel u c :
  idle u ->
  match direct_loop fuel c with
  | None => cat_loop fuel (mkSt u c) = None
  | Some (Ok c') => exists v, idle v /\ cat_loop fuel (mkSt u c) = Some (Ok (mkSt v c'))
  | Some (Throw e) => cat_loop fuel (mkSt u c) = Some (Throw e)
  | Some UB => cat_loop fuel (mkSt u c) = Some UB
  end.
Proof.
  revert u c. induction fuel as [|fuel IH]; intros u c Hu; [done|]. simpl.
  pose proof (ringed_round u c Hu) as H. destruct (direct_round c) as [[[] c']|e|]; simpl in H.
  - destruct H as (v & Hv & ->). by exists v.
  - destruct H as (v & Hv & ->). by apply IH.
  - by rewrite H.
  - by rewrite H.
Qed.
End entering.

Lemma idle_new a b :
  0 <= a <= 31 -> 0 <= b <= 31 -> idle (uring_new (Z.to_nat (2 ^ a)) (Z.to_nat (2 ^ b))).
Proof.
  intros Ha Hb. exists a, b. unfold uring_new. simpl. rewrite !length_replicate, !Z2Nat.id by lia.
  split_and!; try done; lia.
Qed.

Lemma direct_read_eq c ok w1 r d w2 :
  k_enter (files c) = (ok, w1) -> k_read STDIN_FILENO BLOCK_SZ (u64 (offset c)) w1 = (r, d, w2) ->
  len d <= len (buff c) -> 0 <= r ->
  direct STDIN_FILENO IORING_OP_READ c =
    Ok (r, mkIo (d ++ replicate (length (buff c) - length d) NUL) (offset c) w2 (errors c)).
Proof.
  intros E1 R1 Hl Hr.
  assert (Hp : prepare IORING_OP_READ c = Ok (BLOCK_SZ, set_buff (replicate (length (buff c)) NUL) c)) by done.
  unfold direct, perform, mbind, M_bind, getS, modify. rewrite Hp, E1. cbn. rewrite R1.
  rewrite buf_write_ok by list_lia. cbn. rewrite drop_replicate.
  by rewrite bool_decide_eq_false_2 by lia.
Qed.

Lemma direct_write_eq c ok w1 s r w2 :
  cstr (buff c) = Ok s -> k_enter (files c) = (ok, w1) ->
  k_write STDOUT_FILENO (take (Z.to_nat (u32 (len s))) (buff c)) (u64 (offset c)) w1 = (r, w2) -> 0 <= r ->
  direct STDOUT_FILENO IORING_OP_WRITE c = Ok (r, mkIo (buff c) (offset c) w2 (errors c)).
Proof.
  intros Es E1 R1 Hr.
  assert (Hp : prepare IORING_OP_WRITE c = Ok (u32 (len s), c)).
  { unfold prepare, mbind, M_bind, getS. rewrite decide_False by done. unfold liftO. by rewrite Es. }
  unfold direct, perform, mbind, M_bind, getS, modify. rewrite Hp, E1. cbn. rewrite R1. cbn.
  by rewrite bool_decide_eq_false_2 by lia.
Qed.

(** ** What is read is written *)

(** What there is to read at an offset, and what has been written.  No read fills
    the buffer. *)
Class ShortReads (input : world -> Z -> bytes) (output : world -> bytes) : Prop := {
  sr_enter w : exists w', k_enter w = (true, w') /\ output w' = output w /\ forall off, input w' off = input w off;
  sr_read w off :
    exists d rest w', k_read STDIN_FILENO BLOCK_SZ off w = (len d, d, w') /\ len d < BLOCK_SZ /\
      input w off = d ++ rest /\ (d = [] -> rest = []) /\
      input w' (off + len d) = rest /\ output w' = output w;
  sr_write w d :
    exists w', k_write STDOUT_FILENO d (len (output w)) w = (len d, w') /\ output w' = output w ++ d /\
      forall off, input w' off = input w off;
}.

Section copying.
Context (input : world -> Z -> bytes) (output : world -> bytes) {HS : ShortReads input output}.

Lemma text_of_full d : NUL ∉ d -> text_of d = d.
Proof.
  induction d as [|x d IH]; intros Hd; [done|]. simpl. rewrite decide_False.
  - f_equal. apply IH. intros Hin. apply Hd. by right.
  - intros ->. apply Hd. by left.
Qed.

(** The state of the loop when it begins a round. *)
Definition copying (text : bytes) (c : io) : Prop :=
  len (buff c) = BLOCK_SZ /\ offset c = len (output (files c)) /\ errors c = [] /\
  text = output (files c) ++ input (files c) (offset c).

Lemma direct_read_stream c text :
  copying text c -> len text < 2 ^ 63 ->
  exists d c', direct STDIN_FILENO IORING_OP_READ c = Ok (len d, c') /\
    buff c' = d ++ replicate (Z.to_nat BLOCK_SZ - length d) NUL /\ len d < BLOCK_SZ /\
    offset c' = offset c /\ errors c' = [] /\ output (files c') = output (files c) /\
    input (files c) (offset c) = d ++ input (files c') (offset c + len d) /\
    (d = [] -> input (files c) (offset c) = []).
Proof.
  intros (Hb & Ho & He & Ht) Hl. destruct (sr_enter (files c)) as (w1 & E1 & E2 & E3).
  destruct (sr_read w1 (offset c)) as (d & rest & w2 & R1 & R2 & R3 & R4 & R5 & R6).
  assert (Hoff : u64 (offset c) = offset c).
  { apply u64_small. apply (f_equal length) in Ht. rewrite length_app in Ht. lia. }
  rewrite <- Hoff in R1. pose proof (direct_read_eq c true w1 (len d) d w2 E1 R1) as Hr.
  rewrite Hoff in R1. exists d. eexists. split; [apply Hr; lia|]. cbn [buff offset errors files].
  assert (Hn : length (buff c) = Z.to_nat BLOCK_SZ) by lia. rewrite Hn.
  split_and!; try done.
  - by rewrite R6.
  - by rewrite R5, <- E3.
  - intros ->. rewrite <- E3, R3. simpl. by apply R4.
Qed.

Lemma direct_write_stream c d k :
  buff c = d ++ replicate (S k) NUL -> NUL ∉ d -> len d < BLOCK_SZ ->
  offset c = len (output (files c)) -> offset c < 2 ^ 63 ->
  exists c', direct STDOUT_FILENO IORING_OP_WRITE c = Ok (len d, c') /\
    buff c' = buff c /\ offset c' = offset c /\ errors c' = errors c /\
    output (files c') = output (files c) ++ d /\
    forall off, input (files c') off = input (files c) off.
Proof.
  intros Hb Hd Hlt Ho Hl. destruct (sr_enter (files c)) as (w1 & E1 & E2 & E3).
  destruct (sr_write w1 d) as (w2 & R1 & R2 & R3).
  assert (Hoff : u64 (offset c) = offset c) by (apply u64_small; lia).
  assert (Hs : cstr (buff c) = Ok d) by (rewrite Hb; simpl replicate; by rewrite cstr_text, text_of_full).
  assert (Ht : take (Z.to_nat (u32 (len d))) (buff c) = d).
  { rewrite Hb, u32_small by (unfold BLOCK_SZ in *; lia). rewrite Nat2Z.id. apply take_app_length. }
  eexists. split; [apply (direct_write_eq c true w1 d (len d) w2 Hs E1); [|lia]|cbn [buff offset errors files]].
  { by rewrite Ht, Hoff, Ho, <- E2. }
  rewrite R2, E2. split_and!; try done. intros off. by rewrite R3, E3.
Qed.

Lemma copying_round text c :
  copying text c -> NUL ∉ text -> len text < 2 ^ 63 ->
  exists c',
    (input (files c) (offset c) = [] /\ direct_round c = Ok (true, c') /\
       output (files c') = text /\ offset c' = len text /\ errors c' = []) \/
    (direct_round c = Ok (false, c') /\ copying text c' /\
       (length (input (files c') (offset c')) < length (input (files c) (offset c)))%nat).
Proof.
  intros Hc Hnul Hl. pose proof Hc as (Hb & Ho & He & Ht).
  destruct (direct_read_stream c text Hc Hl) as (d & c1 & E1 & B1 & L1 & O1 & R1 & W1 & I1 & Z1).
  unfold direct_round. rewrite (M_bind_ok _ _ _ _ _ E1).
  destruct (decide (d = [])) as [->|Hd].
  - exists c1. left. rewrite decide_True by done. specialize (Z1 eq_refl).
    rewrite Z1, app_nil_r in Ht. split_and!; try done; [congruence|]. by rewrite O1, Ho, Ht.
  - assert (Hd0 : len d <> 0) by (destruct d; [done|simpl; lia]).
    rewrite decide_False by done. rewrite decide_True by lia.
    assert (Hnd : NUL ∉ d).
    { intros Hin. apply Hnul. rewrite Ht, I1. apply elem_of_app. right. apply elem_of_app. by left. }
    assert (Hlen : len text = offset c + len d + len (input (files c1) (offset c + len d))).
    { rewrite Ht at 1. rewrite I1, !length_app, Ho. lia. }
    destruct (direct_write_stream c1 d (Z.to_nat BLOCK_SZ - length d - 1)) as (c2 & E2 & B2 & O2 & R2 & W2 & I2);
      [rewrite B1; do 2 f_equal; lia|done|done|by rewrite O1, W1|rewrite O1; lia|].
    unfold mbind, M_bind. rewrite E2. unfold getS, liftO, modify, i64_add. cbn. rewrite O2, O1.
    rewrite schk_ok by (unfold in_s; lia). eexists. right. split; [reflexivity|].
    unfold copying. cbn [buff offset files errors].
    rewrite B2, B1, W2, W1, R2, R1, I2, I1. split; [split_and!|].
    + list_lia.
    + rewrite length_app. lia.
    + done.
    + rewrite Ht at 1. by rewrite I1, app_assoc.
    + rewrite length_app. lia.
Qed.

Lemma copying_loop text fuel c :
  copying text c -> NUL ∉ text -> len text < 2 ^ 63 ->
  (length (input (files c) (offset c)) < fuel)%nat ->
  exists c', direct_loop fuel c = Some (Ok c') /\
    output (files c') = text /\ offset c' = len text /\ errors c' = [].
Proof.
  revert c. induction fuel as [|fuel IH]; intros c Hc Hn Hl Hf; [lia|]. simpl.
  destruct (copying_round text c Hc Hn Hl) as (c' & [(_ & -> & H)|(-> & Hc' & Hlt)]).
  - by exists c'.
  - apply IH; try done. lia.
Qed.

Lemma enters_always w : (k_enter w).1 = true.
Proof. by destruct (sr_enter w) as (w' & -> & _). Qed.
End copying.

(** A read that fills the buffer: the string in it has no end. *)
Lemma cstr_endless d : NUL ∉ d -> cstr d = UB.
Proof.
  induction d as [|x d IH]; intros Hd; [done|]. simpl. rewrite decide_False.
  - rewrite IH; [done|]. intros Hin. apply Hd. by right.
  - intros ->. apply Hd. by left.
Qed.

Lemma direct_full_block c w1 d w2 :
  len (buff c) = BLOCK_SZ -> k_enter (files c) = (true, w1) ->
  k_read STDIN_FILENO BLOCK_SZ (u64 (offset c)) w1 = (BLOCK_SZ, d, w2) -> len d = BLOCK_SZ ->
  NUL ∉ d -> direct_round c = UB.
Proof.
  intros Hb E1 R1 Hd Hn. unfold direct_round. assert (Hl : len d <= len (buff c)) by lia.
  rewrite (M_bind_ok _ _ _ _ _ (direct_read_eq c true w1 BLOCK_SZ d w2 E1 R1 Hl ltac:(done))).
  replace (length (buff c) - length d)%nat with 0%nat by lia. cbn [replicate]. rewrite app_nil_r.
  rewrite decide_False, decide_True by done.
  unfold direct, prepare, mbind, M_bind, getS, liftO. rewrite decide_False by done. cbn [buff].
  by rewrite cstr_endless.
Qed.
End cat.

(** ** Two kernels *)

(** A pipe at both ends, read at most [chunk] bytes at a time. *)
Record pipe_world := mkPipe { pending : bytes; written : bytes }.

Definition pipe (chunk : nat) : Kernel := {|
  world := pipe_world;
  k_enter w := (true, w);
  k_read fd n off w :=
    let d := take (Nat.min chunk (Z.to_nat n)) (pending w) in
    (len d, d, mkPipe (drop (length d) (pending w)) (written w));
  k_write fd d off w := (len d, mkPipe (pending w) (written w ++ d));
|}.

(** The same, but the first [io_uring_enter] fails (with [EAGAIN], say). *)
Definition busy_pipe (chunk : nat) : Kernel := {|
  world := bool * pipe_world;
  k_enter w := (w.1, (true, w.2));
  k_read fd n off w :=
    let '(r, d, p) := @k_read (pipe chunk) fd n off w.2 in (r, d, (w.1, p));
  k_write fd d off w := let '(r, p) := @k_write (pipe chunk) fd d off w.2 in (r, (w.1, p));
|}.

Lemma take_rest {A} n (l : list A) : l = take n l ++ drop (length (take n l)) l.
Proof.
  rewrite length_take. destruct (decide (length l <= n)%nat).
  - by rewrite take_ge, Nat.min_r, drop_all, app_nil_r by lia.
  - by rewrite Nat.min_l, take_drop by lia.
Qed.

Lemma pipe_short chunk :
  0 < Z.of_nat chunk < BLOCK_SZ -> @ShortReads (pipe chunk) (fun w _ => pending w) written.
Proof.
  intros Hc. constructor.
  - intros w. by exists w.
  - intros w off. set (d := take (Nat.min chunk (Z.to_nat BLOCK_SZ)) (pending w)).
    assert (Hd : len d <= Z.of_nat chunk) by (unfold d; list_lia).
    exists d, (drop (length d) (pending w)), (mkPipe (drop (length d) (pending w)) (written w)).
    split_and!; try done.
    + lia.
    + apply take_rest.
    + unfold d, BLOCK_SZ in *. destruct (pending w) as [|x l]; [by destruct (Nat.min _ _)|].
      destruct (Nat.min chunk (Z.to_nat 1024)) eqn:E; [lia|done].
  - intros w d. eexists. split; [reflexivity|]. by split.
Qed.

(** ** Theorems *)

(** C27. When the kernel takes every entry it is given, the program over the rings
    does what the same loop over plain calls would do, result for result and for
    any fuel: however far the indices of the rings have run, also across 2^32, the
    entry a call fills is the one the kernel takes, the completion it reaps is the
    one of that entry, and the rings are idle again. *)
Theorem uring_refines_calls `{X : Kernel} fuel u c :
  (forall w, (k_enter w).1 = true) -> idle u ->
  match direct_loop fuel c with
  | None => cat_loop fuel (mkSt u c) = None
  | Some (Ok c') => exists v, idle v /\ cat_loop fuel (mkSt u c) = Some (Ok (mkSt v c'))
  | Some (Throw e) => cat_loop fuel (mkSt u c) = Some (Throw e)
  | Some UB => cat_loop fuel (mkSt u c) = Some UB
  end.
Proof. intros He Hu. by apply ringed_loop. Qed.

(** C28. [main] copies its input to its output: if no read fills the buffer, writes
    are complete and the text holds no NUL, it ends after one round for every read,
    with the text written, no error reported, and [offset] at the length of the
    text. *)
Theorem cat_copies `{X : Kernel} (input : world -> Z -> bytes) (output : world -> bytes) text fuel w :
  ShortReads input output -> input w 0 = text -> output w = [] -> NUL ∉ text -> len text < 2 ^ 63 ->
  (length text < fuel)%nat ->
  exists s, cat_main fuel w = Some (Ok s) /\
    output (files (prog s)) = text /\ offset (prog s) = len text /\ errors (prog s) = [].
Proof.
  intros HS <- Ho Hn Hl Hf. set (c := mkIo (replicate (Z.to_nat BLOCK_SZ) NUL) 0 w []).
  assert (Hc : copying input output (input w 0) c).
  { unfold copying, c. cbn [buff offset files errors]. rewrite length_replicate, Ho. done. }
  destruct (copying_loop input output (input w 0) fuel c Hc Hn Hl Hf) as (c' & E & H).
  pose proof (ringed_loop (enters_always input output) fuel (ring (cat_start w)) c
    (idle_new 3 4 ltac:(lia) ltac:(lia))) as Hr.
  rewrite E in Hr. destruct Hr as (v & _ & Hr). exists (mkSt v c'). by split.
Qed.

(** A read that fills the buffer with bytes other than NUL makes the length of
    the write undefined: [strlen(buff)] runs past the end of [buff]. *)
Theorem cat_full_block_undefined `{X : Kernel} u c w1 d w2 :
  (forall w, (k_enter w).1 = true) -> idle u -> len (buff c) = BLOCK_SZ ->
  k_enter (files c) = (true, w1) ->
  k_read STDIN_FILENO BLOCK_SZ (u64 (offset c)) w1 = (BLOCK_SZ, d, w2) -> len d = BLOCK_SZ ->
  NUL ∉ d -> cat_round (mkSt u c) = UB.
Proof.
  intros He Hu Hb E1 R1 Hd Hn. pose proof (ringed_round He u c Hu) as H.
  by rewrite (direct_full_block c w1 d w2 Hb E1 R1 Hd Hn) in H.
Qed.

(** What the layout of the rings has to satisfy: the offsets are multiples of the
    size of what is there, and the rings are smaller than 2 GB. *)
Definition layout_ok (p : offsets) : Prop :=
  Forall (fun x => 0 <= x /\ x mod sizeof_unsigned = 0)
    [sq_off_tail p; sq_off_mask p; sq_off_array p; cq_off_head p; cq_off_tail p; cq_off_mask p] /\
  0 <= cq_off_cqes p /\ cq_off_cqes p mod sizeof_cqe = 0 /\ 0 <= sq_entries p /\ 0 <= cq_entries p /\
  sq_off_array p + sq_entries p * sizeof_unsigned < 2 ^ 31 /\
  cq_off_cqes p + cq_entries p * sizeof_cqe < 2 ^ 31.

Lemma padd_offset size ptr off : 0 < size -> off mod size = 0 -> padd size ptr (off / size) = ptr + off.
Proof. intros Hs Hm. unfold padd. pose proof (Z.div_mod off size). lia. Qed.

Lemma ring_sizes_eq p :
  layout_ok p ->
  ring_sizes p =
    let n := sq_off_array p + sq_entries p * sizeof_unsigned in
    let m := cq_off_cqes p + cq_entries p * sizeof_cqe in
    if single_mmap p then (Z.max n m, Z.max n m) else (n, m).
Proof.
  intros (Hf & H1 & _ & H3 & H4 & H5 & H6). unfold ring_sizes, sizeof_unsigned, sizeof_cqe in *.
  repeat match goal with H : Forall _ (_ :: _) |- _ => apply Forall_cons in H as [[? ?] ?] end.
  rewrite !(u64_small (_ + _)) by lia. rewrite !(s32_small (_ + _)) by lia.
  destruct (single_mmap p); [|done]. cbv zeta. case_decide; do 2 f_equal; lia.
Qed.

(** When [app_setup_uring] succeeds, every pointer is the start of the mapping
    plus the offset the kernel gave, although the code adds to typed pointers, not to
    bytes; and the array of the submission ring and the completions end inside what
    was mapped, with one mapping for both rings or with two. *)
Theorem setup_maps ring_fd p mmap q :
  layout_ok p -> app_setup_uring ring_fd p mmap = (0, Some q) ->
  exists sq_ptr cq_ptr n m,
    0 <= ring_fd /\ mmap n IORING_OFF_SQ_RING = Some sq_ptr /\
    (if single_mmap p then cq_ptr = sq_ptr /\ m = n else mmap m IORING_OFF_CQ_RING = Some cq_ptr) /\
    p_sring_tail q = sq_ptr + sq_off_tail p /\ p_sring_mask q = sq_ptr + sq_off_mask p /\
    p_sring_array q = sq_ptr + sq_off_array p /\ p_cring_head q = cq_ptr + cq_off_head p /\
    p_cring_tail q = cq_ptr + cq_off_tail p /\ p_cring_mask q = cq_ptr + cq_off_mask p /\
    p_cqes q = cq_ptr + cq_off_cqes p /\
    p_sring_array q + sq_entries p * sizeof_unsigned <= sq_ptr + n /\
    p_cqes q + cq_entries p * sizeof_cqe <= cq_ptr + m.
Proof.
  intros Hl. unfold app_setup_uring. case_decide as Hfd; [done|]. rewrite ring_sizes_eq by done.
  destruct Hl as (Hf & H1 & H2 & H3 & H4 & H5 & H6).
  repeat match goal with H : Forall _ (_ :: _) |- _ => apply Forall_cons in H as [[? ?] ?] end.
  unfold sizeof_unsigned, sizeof_cqe in *.
  destruct (single_mmap p).
  - rewrite u64_small by lia. destruct (mmap _ IORING_OFF_SQ_RING) as [sq|] eqn:Em; [|done].
    destruct (mmap _ IORING_OFF_SQES); [|done]. intros [= <-]. exists sq, sq. eexists _, _.
    split; [lia|]. split; [exact Em|]. simpl. rewrite !padd_offset by (done || lia). split_and!; done || lia.
  - rewrite !u64_small by lia. destruct (mmap _ IORING_OFF_SQ_RING) as [sq|] eqn:Em; [|done].
    destruct (mmap _ IORING_OFF_CQ_RING) as [cq|] eqn:Ec; [|done].
    destruct (mmap _ IORING_OFF_SQES); [|done]. intros [= <-]. exists sq, cq. eexists _, _.
    split; [lia|]. split; [exact Em|]. simpl. rewrite !padd_offset by (done || lia).
    split; [exact Ec|]. split_and!; done || lia.
Qed.

(** A call that fails once shifts everything by one entry: the read it left in the
    ring is taken by the next call, every write is done a call late, after the
    buffer has been cleared for the next read. *)
Lemma cat_busy_once :
  match @cat_main (busy_pipe 3) 20 (false, mkPipe (str "abcdefghijkl") []) with
  | Some (Ok s) => written (@files (busy_pipe 3) (prog s)).2
  | _ => []
  end = [NUL; NUL; NUL].
Proof. vm_compute. reflexivity. Qed.

(** Errors are counted as bytes: the offset of the next read is one less. *)
Lemma cat_error_moves_offset :
  match @cat_round (busy_pipe 3) (@cat_start (busy_pipe 3) (false, mkPipe (str "abc") [])) with
  | Ok (_, s) => offset (prog s)
  | _ => 0
  end = -1.
Proof. vm_compute. reflexivity. Qed.

(** ** Witnesses *)

(** Rings that have run through all indices but one. *)
Definition worn_ring : uring :=
  mkUring (2 ^ 32 - 1) (2 ^ 32 - 1) 1 [0; 0] [Sqe_zero; Sqe_zero] (2 ^ 32 - 1) (2 ^ 32 - 1) 3 [0; 0; 0; 0].

Lemma worn_ring_idle : idle worn_ring.
Proof. exists 1, 2. vm_compute. intuition discriminate. Qed.

Definition abcd_before : @io (pipe 3) :=
  @mkIo (pipe 3) (replicate 8 NUL) 0 (mkPipe (str "abcd") []) [].
Definition abcd_after : @io (pipe 3) := @mkIo (pipe 3) (replicate 8 NUL) 4 (mkPipe [] (str "abcd")) [].

Lemma uring_refines_calls_witness :
  exists v, idle v /\
    @cat_loop (pipe 3) 4 (mkSt worn_ring abcd_before) = Some (Ok (mkSt v abcd_after)).
Proof.
  pose proof (@uring_refines_calls (pipe 3) 4 worn_ring abcd_before (fun _ => eq_refl) worn_ring_idle) as H.
  assert (E : @direct_loop (pipe 3) 4 abcd_before = Some (Ok abcd_after)) by (vm_compute; reflexivity).
  rewrite E in H. exact H.
Defined.

Lemma cat_copies_witness :
  exists s, @cat_main (pipe 5) 20 (mkPipe (str "hello, world") []) = Some (Ok s) /\
    written (@files (pipe 5) (prog s)) = str "hello, world".
Proof.
  destruct (@cat_copies (pipe 5) (fun w _ => pending w) written (str "hello, world") 20
    (mkPipe (str "hello, world") [])) as (s & H1 & H2 & _).
  - apply pipe_short. vm_compute. by split.
  - reflexivity.
  - reflexivity.
  - apply (bool_decide_unpack _). reflexivity.
  - simpl. lia.
  - simpl. lia.
  - exists s. by split.
Defined.

Lemma cat_full_block_undefined_witness :
  @cat_round (pipe 2048) (@cat_start (pipe 2048) (mkPipe (replicate 1025 "x"%char) [])) = UB.
Proof.
  unfold cat_start. apply (@cat_full_block_undefined (pipe 2048) _ _
    (mkPipe (replicate 1025 "x"%char) []) (replicate 1024 "x"%char) (mkPipe (replicate 1 "x"%char) [])).
  - done.
  - apply (idle_new 3 4); lia.
  - reflexivity.
  - reflexivity.
  - reflexivity.
  - reflexivity.
  - intros H. apply elem_of_replicate in H as [H _]. discriminate.
Defined.

(** The layout of Linux: tail at 64, mask at 256, the completions at 320. *)
Definition linux_offsets : offsets := mkOffsets true 8 16 64 256 576 128 192 260 320.

Lemma setup_maps_witness :
  exists q, app_setup_uring 3 linux_offsets (fun _ off => Some (4096 + off)) = (0, Some q) /\
    p_sring_tail q = 4096 + 64 /\ p_cqes q = 4096 + 320.
Proof.
  eexists. split; [reflexivity|].
  assert (Hl : layout_ok linux_offsets).
  { split; [repeat (apply Forall_cons; split; [vm_compute; intuition discriminate|]); apply Forall_nil; done|].
    vm_compute. intuition discriminate. }
  destruct (setup_maps 3 linux_offsets (fun _ off => Some (4096 + off)) _ Hl eq_refl)
    as (sq & cq & n & m & _ & H1 & [H2 _] & H3 & _ & _ & _ & _ & _ & H4 & _).
  injection H1 as H1. split; [exact (eq_trans H3 (f_equal (fun x => x + 64) (eq_sym H1)))|].
  rewrite H4, H2, <- H1. reflexivity.
Defined.
