(* ===== verification/Ch27.v ===== *)
(** * Latch, barrier and semaphore ([professional_cpp/src/ch27_concurrency/main.cpp])

    [latch_6], [barrier_7] and [semaphore_8]: [main] starts threads that meet at a
    [std::latch], at a [std::barrier] with a completion function, or pass a
    [std::counting_semaphore]; the destructors of the [std::jthread]s join them.
    The same functions are in [any/concurrency/profession_cpp_ch27.cpp].  The
    numbers of threads are parameters of the models. *)

From S2P Require Import Prelude CppInt Turns.

(** ** [barrier_7] *)

Module Barrier.

(** [std::barrier]: [expected] arrivals end a phase. *)
Record barrier := mkBarrier { expected : Z; pending : Z; phase : Z }.
Definition barrier_new (n : Z) : barrier := mkBarrier n n 0.

(** An arrival; the last one of a phase calls the completion function. *)
Definition arrive (b : barrier) : barrier * bool :=
  if decide (pending b = 1) then (mkBarrier (expected b) (expected b) (phase b + 1), true)
  else (mkBarrier (expected b) (pending b - 1) (phase b), false).

Inductive event : Type := EnterIn (i : nat) | BarrierComplete | PlusPlus.

(** [Waiting ph]: inside [arrive_and_wait], having arrived in phase [ph]. *)
Inductive pc : Type := Enter | Arrive | Waiting (ph : Z) | Done.
Inductive mpc : Type := Creating | StopLast | SayPlus | MArrive | MWaiting (ph : Z) | Joining (i : nat) | Fin.

#[export] Instance event_eq_dec : EqDecision event.
Proof. solve_decision. Defined.

Record St := mkSt { bar : barrier; vt : list pc; main_ : mpc; out : list event }.

(** [fun_when_barrier] *)
Definition fun_when_barrier (done : bool) : list event := if done then [BarrierComplete] else [].

(** The function of the [i]-th [jthread]; its stop token is not asked. *)
Definition thread_step (i : nat) (s : St) : option St :=
  p ← vt s !! i;
  match p with
  | Enter => Some (mkSt (bar s) (<[i := Arrive]> (vt s)) (main_ s) (out s ++ [EnterIn i]))
  | Arrive =>
      let '(b, done) := arrive (bar s) in
      Some (mkSt b (<[i := Waiting (phase (bar s))]> (vt s)) (main_ s) (out s ++ fun_when_barrier done))
  | Waiting ph =>
      if decide (phase (bar s) = ph) then None
      else Some (mkSt (bar s) (<[i := Done]> (vt s)) (main_ s) (out s))
  | Done => None
  end.

(** [barrier_7] itself, with [n] threads. *)
Definition main_step (n : nat) (s : St) : option St :=
  let goto m := mkSt (bar s) (vt s) m (out s) in
  match main_ s with
  | Creating =>
      if decide (length (vt s) < n)%nat
      then Some (mkSt (bar s) (vt s ++ [Enter]) Creating (out s)) else Some (goto StopLast)
  | StopLast => Some (goto SayPlus)
  | SayPlus => Some (mkSt (bar s) (vt s) MArrive (out s ++ [PlusPlus]))
  | MArrive =>
      let '(b, done) := arrive (bar s) in
      Some (mkSt b (vt s) (MWaiting (phase (bar s))) (out s ++ fun_when_barrier done))
  | MWaiting ph => if decide (phase (bar s) = ph) then None else Some (goto (Joining 0))
  | Joining i =>
      match vt s !! i with
      | None => Some (goto Fin)
      | Some Done => Some (goto (Joining (S i)))
      | Some _ => None
      end
  | Fin => None
  end.

Inductive label : Type := Main | Thread (i : nat).
Definition step (n : nat) (l : label) (s : St) : outcome (option St) :=
  Ok match l with Main => main_step n s | Thread i => thread_step i s end.

Definition barrier_7 : St := mkSt (barrier_new 2) [] Creating [].

(** ** The invariant *)

Definition arrived (p : pc) : Z := match p with Enter | Arrive => 0 | _ => 1 end.
Definition m_arrived (m : mpc) : Z := match m with MWaiting _ | Joining _ | Fin => 1 | _ => 0 end.
Definition completions (l : list event) : Z := len (filter (fun e => e = BarrierComplete) l).

(** Who arrived in the current phase is the only one of it so far. *)
Definition waits_ok (b : barrier) (ph : Z) : Prop := ph < phase b \/ (ph = phase b /\ pending b = 1).
Definition pc_ok (b : barrier) (p : pc) : Prop := match p with Waiting ph => waits_ok b ph | _ => True end.
Definition main_ok (n : nat) (b : barrier) (l : list pc) (m : mpc) : Prop :=
  match m with
  | Creating => True
  | MWaiting ph => length l = n /\ waits_ok b ph
  | Joining i => length l = n /\ (i <= n)%nat /\ Forall (eq Done) (take i l)
  | Fin => length l = n /\ Forall (eq Done) l
  | _ => length l = n
  end.

Record inv (n : nat) (s : St) : Prop := {
  i_two : expected (bar s) = 2 /\ (pending (bar s) = 1 \/ pending (bar s) = 2);
  i_phase : 0 <= phase (bar s);
  i_count : sum_over arrived (vt s) + m_arrived (main_ s) = 2 * phase (bar s) + (2 - pending (bar s));
  i_wait : Forall (pc_ok (bar s)) (vt s);
  i_len : (length (vt s) <= n)%nat;
  i_main : main_ok n (bar s) (vt s) (main_ s);
  i_out : completions (out s) = phase (bar s);
}.

Lemma sum_over_app {A} (f : A -> Z) l l' : sum_over f (l ++ l') = sum_over f l + sum_over f l'.
Proof. induction l; simpl; lia. Qed.

Lemma completions_app l l' : completions (l ++ l') = completions l + completions l'.
Proof. unfold completions. rewrite filter_app, length_app. lia. Qed.

(** What an arrival does. *)
Lemma arrive_ok b :
  expected b = 2 /\ (pending b = 1 \/ pending b = 2) -> 0 <= phase b ->
  let '(b', done) := arrive b in
  (expected b' = 2 /\ (pending b' = 1 \/ pending b' = 2)) /\ 0 <= phase b' /\
  2 * phase b' + (2 - pending b') = 2 * phase b + (2 - pending b) + 1 /\
  completions (fun_when_barrier done) = phase b' - phase b /\
  waits_ok b' (phase b) /\ (forall ph, waits_ok b ph -> waits_ok b' ph).
Proof.
  intros [He Hp] H0. unfold arrive, waits_ok. destruct b as [e p f]; simpl in *. case_decide; simpl.
  - split_and!; try done; try lia. unfold completions. simpl. lia.
  - split_and!; try done; try lia. unfold completions. simpl. lia.
Qed.

Lemma pc_ok_mono b b' l :
  (forall ph, waits_ok b ph -> waits_ok b' ph) -> Forall (pc_ok b) l -> Forall (pc_ok b') l.
Proof. intros H Hf. eapply Forall_impl; [exact Hf|]. intros []; simpl; auto. Qed.

Lemma take_done_insert i j (l : list pc) p q :
  l !! i = Some p -> p <> Done -> Forall (eq Done) (take j l) -> Forall (eq Done) (take j (<[i := q]> l)).
Proof.
  intros Hi Hp Hf. destruct (decide (j <= i)%nat); [by rewrite take_insert_ge|]. exfalso. apply Hp.
  rewrite Forall_lookup in Hf. symmetry. apply (Hf i). by rewrite lookup_take_lt by lia.
Qed.

Lemma main_ok_insert n b b' l i p q m :
  (forall ph, waits_ok b ph -> waits_ok b' ph) -> l !! i = Some p -> p <> Done ->
  main_ok n b l m -> main_ok n b' (<[i := q]> l) m.
Proof.
  intros Hw Hi Hp. unfold main_ok. rewrite length_insert. destruct m; try done.
  - intros [? ?]; auto.
  - intros (? & ? & ?). split_and!; [done|done|by eapply take_done_insert].
  - intros (? & Hf). exfalso. apply Hp. rewrite Forall_lookup in Hf. symmetry. by apply (Hf i).
Qed.

Lemma barrier_inv_new n : inv n barrier_7.
Proof. split; simpl; try done; try lia. Qed.

Lemma thread_step_inv n i s s' : inv n s -> thread_step i s = Some s' -> inv n s'.
Proof.
  intros [H1 H2 H3 H4 H5 H6 H7] E. destruct s as [b l m o]; simpl in *. unfold thread_step in E. simpl in E.
  destruct (l !! i) as [p|] eqn:Hi; [|discriminate]. cbn in E.
  assert (Hp : pc_ok b p) by (rewrite Forall_lookup in H4; by apply (H4 i)).
  destruct p as [| |ph|]; try discriminate.
  - injection E as <-. split; simpl; try done.
    + rewrite (sum_over_insert _ _ _ _ _ Hi). simpl. lia.
    + by apply Forall_insert.
    + by rewrite length_insert.
    + by eapply main_ok_insert.
    + rewrite completions_app. unfold completions at 2. simpl. lia.
  - pose proof (arrive_ok b H1 H2) as Ha. destruct (arrive b) as [b' d]. injection E as <-.
    destruct Ha as (A1 & A2 & A3 & A4 & A5 & A6). split; simpl; try done.
    + rewrite (sum_over_insert _ _ _ _ _ Hi). simpl. lia.
    + apply Forall_insert; [by apply (pc_ok_mono b)|done].
    + by rewrite length_insert.
    + by eapply main_ok_insert.
    + rewrite completions_app. lia.
  - case_decide; [discriminate|]. injection E as <-. split; simpl; try done.
    + rewrite (sum_over_insert _ _ _ _ _ Hi). simpl. lia.
    + by apply Forall_insert.
    + by rewrite length_insert.
    + by eapply main_ok_insert.
Qed.

Lemma main_step_inv n s s' : inv n s -> main_step n s = Some s' -> inv n s'.
Proof.
  intros [H1 H2 H3 H4 H5 H6 H7] E. destruct s as [b l m o]; simpl in *. unfold main_step in E. simpl in E.
  destruct m as [| | | |ph|i|]; simpl in H6.
  - case_decide; injection E as <-; split; simpl in *; try done; try lia.
    + rewrite sum_over_app. simpl. lia.
    + apply Forall_app. by repeat constructor.
    + rewrite length_app. simpl. lia.
  - injection E as <-. by split.
  - injection E as <-. split; simpl in *; try done.
    rewrite completions_app. unfold completions at 2. simpl. lia.
  - pose proof (arrive_ok b H1 H2) as Ha. destruct (arrive b) as [b' d]. injection E as <-.
    destruct Ha as (A1 & A2 & A3 & A4 & A5 & A6). split; simpl in *; try done; try lia.
    + by apply (pc_ok_mono b).
    + rewrite completions_app. lia.
  - case_decide; [discriminate|]. injection E as <-. split; simpl in *; try done.
    destruct H6 as [H6 _]. split_and!; [done|lia|constructor].
  - destruct H6 as (H6 & Hi & Hf). destruct (l !! i) as [p|] eqn:El.
    + destruct p; try discriminate. injection E as <-. apply lookup_lt_Some in El as Hlt.
      split; simpl in *; try done. split_and!; [done|lia|]. rewrite (take_S_r _ _ _ El).
      apply Forall_app. split; [done|by constructor].
    + injection E as <-. apply lookup_ge_None in El. split; simpl in *; try done.
      split; [done|]. by rewrite take_ge in Hf.
  - discriminate.
Qed.

Lemma barrier_step_inv n l s s' : inv n s -> step n l s = Ok (Some s') -> inv n s'.
Proof.
  intros Hi [= E]. destruct l; [by eapply main_step_inv|by eapply thread_step_inv].
Qed.

(** ** Nobody waits for ever *)

Lemma sum_arrived_all l : Forall (fun p => arrived p = 1) l -> sum_over arrived l = len l.
Proof. induction 1; simpl; lia. Qed.

(** A thread that cannot move is over or the only arrival of its phase. *)
Lemma thread_stuck i s p :
  thread_step i s = None -> vt s !! i = Some p -> p = Done \/ p = Waiting (phase (bar s)).
Proof.
  unfold thread_step. intros E Hi. rewrite Hi in E. cbn in E.
  destruct p as [| |ph|]; try discriminate; [|right|by left].
  - by destruct (arrive _).
  - case_decide; [by subst|discriminate].
Qed.

Lemma threads_stuck s :
  (forall i, thread_step i s = None) ->
  Forall (fun p => p = Done \/ p = Waiting (phase (bar s))) (vt s).
Proof. intros H. apply Forall_lookup. intros i p Hi. by apply (thread_stuck i). Qed.

Lemma barrier_stuck_done n s :
  Nat.odd n = true -> inv n s -> (forall l, step n l s = Ok None) ->
  main_ s = Fin /\ Forall (eq Done) (vt s) /\ 2 * completions (out s) = Z.of_nat n + 1.
Proof.
  intros Hn [H1 H2 H3 H4 H5 H6 H7] Hs.
  assert (Ht : Forall (fun p => p = Done \/ p = Waiting (phase (bar s))) (vt s)).
  { apply threads_stuck. intros i. pose proof (Hs (Thread i)) as E. by injection E. }
  assert (Hm : main_step n s = None) by (pose proof (Hs Main) as E; by injection E).
  assert (Ha : sum_over arrived (vt s) = len (vt s)).
  { apply sum_arrived_all. eapply Forall_impl; [exact Ht|]. by intros p [->| ->]. }
  apply Nat.odd_spec in Hn as [k Hk].
  assert (Hlast : m_arrived (main_ s) = 1 -> length (vt s) = n -> pending (bar s) = 2).
  { intros Hma Hl. rewrite Hma, Ha, Hl in H3. lia. }
  assert (Hall : pending (bar s) = 2 -> Forall (eq Done) (vt s)).
  { intros Hp. rewrite Forall_forall in Ht, H4 |- *. intros p Hin. destruct (Ht p Hin) as [->| ->]; [done|].
    specialize (H4 _ Hin). simpl in H4. destruct H4 as [H4|[_ H4]]; lia. }
  unfold main_step in Hm. destruct (main_ s) as [| | | |ph|i|] eqn:Em; simpl in *; try discriminate.
  - by case_decide.
  - by destruct (arrive _).
  - destruct H6 as [Hl Hw]. specialize (Hlast eq_refl Hl). case_decide; [|discriminate].
    destruct Hw as [Hw|[_ Hw]]; lia.
  - destruct H6 as (Hl & Hi & _). specialize (Hall (Hlast eq_refl Hl)).
    destruct (vt s !! i) as [p|] eqn:Ei; [|discriminate]. rewrite Forall_lookup in Hall.
    by rewrite <- (Hall i p Ei) in Hm.
  - destruct H6 as [Hl Hd]. specialize (Hlast eq_refl Hl). split_and!; [done|done|]. lia.
Qed.

(** The steps left. *)
Definition weight (p : pc) : Z := match p with Enter => 3 | Arrive => 2 | Waiting _ => 1 | Done => 0 end.
Definition m_weight (n : nat) (l : list pc) (m : mpc) : Z :=
  match m with
  | Creating => 4 * (Z.of_nat n - len l) + Z.of_nat n + 6
  | StopLast => Z.of_nat n + 5
  | SayPlus => Z.of_nat n + 4
  | MArrive => Z.of_nat n + 3
  | MWaiting _ => Z.of_nat n + 2
  | Joining i => Z.of_nat n - Z.of_nat i + 1
  | Fin => 0
  end.
Definition measure (n : nat) (s : St) : Z := sum_over weight (vt s) + m_weight n (vt s) (main_ s).

Lemma weight_nonneg p : 0 <= weight p.
Proof. by destruct p. Qed.

Lemma barrier_measure_nonneg n s : inv n s -> 0 <= measure n s.
Proof.
  intros [H1 H2 H3 H4 H5 H6 H7]. unfold measure, m_weight.
  pose proof (sum_over_nonneg weight (vt s) weight_nonneg). destruct (main_ s); simpl in *; lia.
Qed.

Lemma m_weight_insert n l m i p : m_weight n (<[i := p]> l) m = m_weight n l m.
Proof. unfold m_weight. by rewrite length_insert. Qed.

Lemma barrier_measure_step n l s s' :
  inv n s -> step n l s = Ok (Some s') -> measure n s' + 1 <= measure n s.
Proof.
  intros [H1 H2 H3 H4 H5 H6 H7] [= E]. unfold measure. destruct s as [b v m o], l as [|i]; simpl in *.
  - unfold main_step in E. simpl in E. destruct m as [| | | |ph|i|]; simpl in *.
    + case_decide; injection E as <-; simpl; [rewrite sum_over_app, length_app; simpl; lia|lia].
    + injection E as <-. simpl. lia.
    + injection E as <-. simpl. lia.
    + destruct (arrive b). injection E as <-. simpl. lia.
    + case_decide; [discriminate|]. injection E as <-. simpl. lia.
    + destruct (v !! i) as [[]|]; try discriminate; injection E as <-; simpl; lia.
    + discriminate.
  - unfold thread_step in E. simpl in E. destruct (v !! i) as [p|] eqn:Hi; [|discriminate]. cbn in E.
    destruct p as [| |ph|]; try discriminate; [|destruct (arrive b)|case_decide; [discriminate|]];
      injection E as <-; simpl; rewrite (sum_over_insert _ _ _ _ _ Hi), m_weight_insert; simpl; lia.
Qed.
End Barrier.

(** ** [semaphore_8] *)

Module Semaphore.

(** A thread in its loop, and whether it has been asked to stop. *)
Inductive pc : Type := Acquire | Inc | Say | Dec | Release | CheckStop | Done.
Inductive mpc : Type := Creating | SayKill | Stopping (i : nat) | Joining (i : nat) | Fin.
Record thr := mkThr { pc_ : pc; stop_requested : bool }.

Record St := mkSt { sp : Z; atoi : Z; vj : list thr; main_ : mpc; out : list Z }.

Definition goto (i : nat) (th : thr) (p : pc) (s : St) : St :=
  mkSt (sp s) (atoi s) (<[i := mkThr p (stop_requested th)]> (vj s)) (main_ s) (out s).

(** The function of a thread; what it prints is the value [atoi] has then. *)
Definition thread_step (i : nat) (s : St) : option St :=
  th ← vj s !! i;
  match pc_ th with
  | Acquire =>
      if decide (0 < sp s) then Some (goto i th Inc (mkSt (sp s - 1) (atoi s) (vj s) (main_ s) (out s)))
      else None
  | Inc => Some (goto i th Say (mkSt (sp s) (atoi s + 1) (vj s) (main_ s) (out s)))
  | Say => Some (goto i th Dec (mkSt (sp s) (atoi s) (vj s) (main_ s) (out s ++ [atoi s])))
  | Dec => Some (goto i th Release (mkSt (sp s) (atoi s - 1) (vj s) (main_ s) (out s)))
  | Release => Some (goto i th CheckStop (mkSt (sp s + 1) (atoi s) (vj s) (main_ s) (out s)))
  | CheckStop => Some (goto i th (if stop_requested th then Done else Acquire) s)
  | Done => None
  end.

(** [semaphore_8], with [n] threads; the destructors ask every thread to stop,
    which has been done, and join it. *)
Definition main_step (n : nat) (s : St) : option St :=
  let next m := mkSt (sp s) (atoi s) (vj s) m (out s) in
  match main_ s with
  | Creating =>
      if decide (length (vj s) < n)%nat
      then Some (mkSt (sp s) (atoi s) (vj s ++ [mkThr Acquire false]) Creating (out s))
      else Some (next SayKill)
  | SayKill => Some (next (Stopping 0))
  | Stopping i =>
      match vj s !! i with
      | Some th => Some (mkSt (sp s) (atoi s) (<[i := mkThr (pc_ th) true]> (vj s)) (Stopping (S i)) (out s))
      | None => Some (next (Joining 0))
      end
  | Joining i =>
      match vj s !! i with
      | Some th => match pc_ th with Done => Some (next (Joining (S i))) | _ => None end
      | None => Some (next Fin)
      end
  | Fin => None
  end.

Inductive label : Type := Main | Thread (i : nat).
Definition step (n : nat) (l : label) (s : St) : outcome (option St) :=
  Ok match l with Main => main_step n s | Thread i => thread_step i s end.

(** A semaphore of [c]; in the code it is 3. *)
Definition semaphore_8 (c : Z) : St := mkSt c 0 [] Creating [].

(** ** The invariant *)

(** Between [acquire] and [release], and between [++atoi] and [--atoi]. *)
Definition hold_pc (p : pc) : Z := match p with Inc | Say | Dec | Release => 1 | _ => 0 end.
Definition count_pc (p : pc) : Z := match p with Say | Dec => 1 | _ => 0 end.
Definition holds (th : thr) : Z := hold_pc (pc_ th).
Definition counted (th : thr) : Z := count_pc (pc_ th).

Definition stopped (th : thr) : Prop := stop_requested th = true.
Definition done (th : thr) : Prop := pc_ th = Done.

Definition main_ok (l : list thr) (m : mpc) : Prop :=
  match m with
  | Stopping i => (i <= length l)%nat /\ Forall stopped (take i l)
  | Joining i => (i <= length l)%nat /\ Forall stopped l /\ Forall done (take i l)
  | Fin => Forall stopped l /\ Forall done l
  | _ => True
  end.

Record inv (c : Z) (n : nat) (s : St) : Prop := {
  i_sp : 0 <= sp s;
  i_holds : sp s + sum_over holds (vj s) = c;
  i_atoi : atoi s = sum_over counted (vj s);
  i_len : (length (vj s) <= n)%nat;
  i_main : main_ok (vj s) (main_ s);
  i_out : Forall (fun v => 1 <= v <= c) (out s);
}.

Lemma sum_over_le {A} (f g : A -> Z) l : (forall x, f x <= g x) -> sum_over f l <= sum_over g l.
Proof. intros H. induction l as [|x l IH]; simpl; [lia|]. specialize (H x). lia. Qed.

Lemma counted_holds th : 0 <= counted th <= holds th /\ holds th <= 1.
Proof. unfold counted, holds. destruct (pc_ th); simpl; lia. Qed.

Lemma sem8_atoi_range c n s : inv c n s -> 0 <= atoi s <= c.
Proof.
  intros [H1 H2 H3 _ _ _]. rewrite H3. split.
  - apply sum_over_nonneg. intros th. by apply counted_holds.
  - pose proof (sum_over_le counted holds (vj s)) as H. specialize (H (fun th => proj2 (proj1 (counted_holds th)))). lia.
Qed.

(** A step of a thread leaves those that are done alone, and the requests. *)
Lemma sem8_main_ok_insert l m i th p :
  l !! i = Some th -> pc_ th <> Done -> main_ok l m ->
  main_ok (<[i := mkThr p (stop_requested th)]> l) m.
Proof.
  intros Hi Hp.
  assert (Hs : forall l', Forall stopped l' -> l' !! i = Some th ->
            Forall stopped (<[i := mkThr p (stop_requested th)]> l')).
  { intros l' Hf Hl. apply Forall_insert; [done|]. rewrite Forall_lookup in Hf. exact (Hf i th Hl). }
  assert (Hst : forall j, Forall stopped (take j l) -> Forall stopped (take j (<[i := mkThr p (stop_requested th)]> l))).
  { intros j Hf. destruct (decide (j <= i)%nat); [by rewrite take_insert_ge|].
    rewrite take_insert_lt by lia. apply Hs; [done|]. by rewrite lookup_take_lt by lia. }
  assert (Hd : forall j, Forall done (take j l) -> (j <= i)%nat \/ False).
  { intros j Hf. destruct (decide (j <= i)%nat); [by left|]. exfalso. rewrite Forall_lookup in Hf.
    apply Hp, (Hf i). by rewrite lookup_take_lt by lia. }
  unfold main_ok. destruct m as [| |j|j|]; rewrite ?length_insert; try done.
  - intros [? ?]; auto.
  - intros (? & ? & Hf). split_and!; [done|by apply Hs|].
    destruct (Hd j Hf) as [Hle|[]]. by rewrite take_insert_ge.
  - intros (? & Hf). exfalso. rewrite Forall_lookup in Hf. apply Hp, (Hf i), Hi.
Qed.

Lemma sem8_thread_inv c n i s s' : inv c n s -> thread_step i s = Some s' -> inv c n s'.
Proof.
  intros Hinv E. pose proof (sem8_atoi_range c n s Hinv) as Hr. destruct Hinv as [H1 H2 H3 H4 H5 H6].
  destruct s as [k a l m o]; simpl in *. unfold thread_step in E. simpl in E.
  destruct (l !! i) as [th|] eqn:Hi; [|discriminate]. cbn in E.
  assert (Sh : forall q, sum_over holds (<[i := mkThr q (stop_requested th)]> l) =
                         sum_over holds l - hold_pc (pc_ th) + hold_pc q) by (intros; by rewrite (sum_over_insert _ _ _ _ _ Hi)).
  assert (Sc : forall q, sum_over counted (<[i := mkThr q (stop_requested th)]> l) =
                         sum_over counted l - count_pc (pc_ th) + count_pc q) by (intros; by rewrite (sum_over_insert _ _ _ _ _ Hi)).
  pose proof (sum_over_at counted l i th (fun x => proj1 (proj1 (counted_holds x))) Hi) as Sa.
  unfold counted at 1 in Sa.
  destruct (pc_ th) eqn:Ep; try discriminate; [case_decide; [|discriminate]|..]; injection E as <-;
    (split; simpl; [lia|rewrite Sh|rewrite Sc|by rewrite length_insert
       |apply sem8_main_ok_insert; [done|congruence|done]|]);
    simpl in *; try done; try lia; try by (destruct (stop_requested th); simpl; lia).
  apply Forall_app. split; [done|]. apply Forall_singleton. lia.
Qed.

Lemma sem8_main_inv c n s s' : inv c n s -> main_step n s = Some s' -> inv c n s'.
Proof.
  intros [H1 H2 H3 H4 H5 H6] E. destruct s as [k a l m o]; simpl in *. unfold main_step in E. simpl in E.
  destruct m as [| |i|i|]; simpl in H5.
  - case_decide; injection E as <-; split; simpl; try done.
    + rewrite Barrier.sum_over_app. simpl. unfold holds at 2. simpl. lia.
    + rewrite Barrier.sum_over_app. simpl. unfold counted at 2. simpl. lia.
    + rewrite length_app. simpl. lia.
  - injection E as <-. split; simpl; try done. split; [lia|constructor].
  - destruct H5 as [Hi Hf]. destruct (l !! i) as [th|] eqn:El; injection E as <-; split; simpl; try done.
    + rewrite (sum_over_insert _ _ _ _ _ El). unfold holds at 2 3. simpl. lia.
    + rewrite (sum_over_insert _ _ _ _ _ El). unfold counted at 2 3. simpl. lia.
    + by rewrite length_insert.
    + apply lookup_lt_Some in El as Hlt. rewrite length_insert. split; [lia|].
      rewrite (take_S_r _ _ (mkThr (pc_ th) true)) by (by rewrite list_lookup_insert_eq).
      rewrite take_insert_ge by lia. apply Forall_app. split; [done|by constructor].
    + apply lookup_ge_None in El. rewrite take_ge in Hf by lia. split_and!; [lia|done|constructor].
  - destruct H5 as (Hi & Hf & Hd). destruct (l !! i) as [th|] eqn:El.
    + destruct (pc_ th) eqn:Ep; try discriminate. injection E as <-. apply lookup_lt_Some in El as Hlt.
      split; simpl; try done. split_and!; [lia|done|]. rewrite (take_S_r _ _ _ El).
      apply Forall_app. split; [done|by constructor].
    + injection E as <-. apply lookup_ge_None in El. split; simpl; try done.
      split; [done|]. by rewrite take_ge in Hd by lia.
  - discriminate.
Qed.

Lemma sem8_step_inv c n l s s' : inv c n s -> step n l s = Ok (Some s') -> inv c n s'.
Proof. intros Hi [= E]. destruct l; [by eapply sem8_main_inv|by eapply sem8_thread_inv]. Qed.

Lemma sem8_inv_new c n : 0 <= c -> inv c n (semaphore_8 c).
Proof. intros. split; simpl; try done; lia. Qed.

(** ** The threads stop *)

Definition waits_or_done (p : pc) : Prop := p = Acquire \/ p = Done.

Lemma sem8_thread_stuck i s th :
  thread_step i s = None -> vj s !! i = Some th -> pc_ th = Done \/ (pc_ th = Acquire /\ ~ 0 < sp s).
Proof.
  unfold thread_step. intros E Hi. rewrite Hi in E. cbn in E.
  destruct (pc_ th); try discriminate; [|by left]. right. case_decide; [discriminate|done].
Qed.

Lemma sem8_stuck_done c n s :
  0 < c -> inv c n s -> (forall l, step n l s = Ok None) ->
  main_ s = Fin /\ Forall done (vj s) /\ sp s = c /\ atoi s = 0.
Proof.
  intros Hc [H1 H2 H3 H4 H5 H6] Hs.
  assert (Ht : forall i th, vj s !! i = Some th -> pc_ th = Done \/ (pc_ th = Acquire /\ ~ 0 < sp s)).
  { intros i th Hi. apply (sem8_thread_stuck i); [|done]. pose proof (Hs (Thread i)) as E. by injection E. }
  assert (Hz : sum_over holds (vj s) = 0 /\ sum_over counted (vj s) = 0).
  { split; apply sum_over_zero, Forall_lookup; intros i th Hi; unfold holds, counted;
      by destruct (Ht i th Hi) as [->|[-> _]]. }
  assert (Hd : Forall done (vj s)).
  { apply Forall_lookup. intros i th Hi. destruct (Ht i th Hi) as [|[_ Hn]]; [done|]. lia. }
  assert (Hm : main_step n s = None) by (pose proof (Hs Main) as E; by injection E).
  split; [|split; [done|lia]]. unfold main_step in Hm. destruct (main_ s) as [| |i|i|]; try discriminate; [..|done].
  - by case_decide.
  - by destruct (vj s !! i).
  - destruct (vj s !! i) as [th|] eqn:Ei; [|discriminate]. rewrite Forall_lookup in Hd.
    unfold done in Hd. by rewrite (Hd i th Ei) in Hm.
Qed.

(** [main] has asked every thread to stop. *)
Definition all_asked (s : St) : Prop := match main_ s with Joining _ | Fin => True | _ => False end.

Definition weight (th : thr) : Z :=
  match pc_ th with Acquire => 6 | Inc => 5 | Say => 4 | Dec => 3 | Release => 2 | CheckStop => 1 | Done => 0 end.
Definition m_weight (n : nat) (m : mpc) : Z := match m with Joining i => Z.of_nat n - Z.of_nat i + 1 | _ => 0 end.
Definition measure (n : nat) (s : St) : Z := sum_over weight (vj s) + m_weight n (main_ s).

Lemma sem8_weight_range th : 0 <= weight th <= 6.
Proof. unfold weight. destruct (pc_ th); lia. Qed.

Lemma sem8_measure_nonneg c n s : inv c n s /\ all_asked s -> 0 <= measure n s.
Proof.
  intros [[H1 H2 H3 H4 H5 H6] _]. unfold measure, m_weight.
  pose proof (sum_over_nonneg weight (vj s) (fun th => proj1 (sem8_weight_range th))).
  destruct (main_ s); simpl in *; lia.
Qed.

Lemma sem8_measure_step c n l s s' :
  inv c n s /\ all_asked s -> step n l s = Ok (Some s') ->
  (inv c n s' /\ all_asked s') /\ measure n s' + 1 <= measure n s.
Proof.
  intros [Hinv Ha] E. pose proof (sem8_step_inv c n l s s' Hinv E) as Hinv'.
  destruct Hinv as [H1 H2 H3 H4 H5 H6]. unfold all_asked, measure in *. destruct s as [k a v m o]; simpl in *.
  destruct l as [|i]; injection E as E.
  - unfold main_step in E. simpl in E. destruct m as [| |i|i|]; try done.
    destruct (v !! i) as [th|]; [destruct (pc_ th); try discriminate|]; injection E as <-; simpl;
      (split; [done|]); [lia|]. simpl in H5. lia.
  - unfold thread_step in E. simpl in E. destruct (v !! i) as [th|] eqn:Hi; [|discriminate]. cbn in E.
    assert (Hst : stop_requested th = true).
    { destruct m as [| |j|j|]; try done; simpl in H5.
      - destruct H5 as (_ & Hf & _). rewrite Forall_lookup in Hf. exact (Hf i th Hi).
      - destruct H5 as (Hf & _). rewrite Forall_lookup in Hf. exact (Hf i th Hi). }
    assert (Hw : forall q, sum_over weight (<[i := mkThr q (stop_requested th)]> v) =
                   sum_over weight v - weight th + weight (mkThr q (stop_requested th)))
      by (intros; by rewrite (sum_over_insert _ _ _ _ _ Hi)).
    unfold weight at 3 4 in Hw.
    destruct (pc_ th) eqn:Ep; try discriminate; [case_decide; [|discriminate]|..]; injection E as <-;
      (split; [done|]); simpl; rewrite Hw, ?Hst; simpl; lia.
Qed.

Lemma sem8_weight_sum l : sum_over weight l <= 6 * len l.
Proof. induction l as [|th l IH]; simpl; [lia|]. pose proof (sem8_weight_range th). lia. Qed.
End Semaphore.

(** ** [latch_6] *)

Module Latch.

(** The commands of [latch_6] from line to line; [JoinN]: a destructor, in reverse
    order of the declarations. *)
Inductive mpc : Type :=
  CreateT1 | CreateT2 | SayOne | Down1 | SayZero | Down2 | CreateT3 | JoinT3 | JoinT2 | JoinT1 | Fin.

(** [Arrive] only [t1] has: it decrements the latch. *)
Inductive pc : Type := NotStarted | Say | Arrive | Wait | SayEnd | Done.
Inductive tid : Type := T1 | T2 | T3.
Inductive line : Type := MainOne | MainZero | Begin (t : tid) | End_ (t : tid).

Record St := mkSt { lat : Z; main_ : mpc; t1 : pc; t2 : pc; t3 : pc; out : list line }.

(** [std::latch::count_down]: undefined below zero. *)
Definition count_down (c : Z) : outcome Z := if decide (0 < c) then Ok (c - 1) else UB.

Definition pc_of (t : tid) (s : St) : pc := match t with T1 => t1 s | T2 => t2 s | T3 => t3 s end.
Definition set_pc (t : tid) (p : pc) (s : St) : St :=
  match t with
  | T1 => mkSt (lat s) (main_ s) p (t2 s) (t3 s) (out s)
  | T2 => mkSt (lat s) (main_ s) (t1 s) p (t3 s) (out s)
  | T3 => mkSt (lat s) (main_ s) (t1 s) (t2 s) p (out s)
  end.
Definition say (x : line) (s : St) : St := mkSt (lat s) (main_ s) (t1 s) (t2 s) (t3 s) (out s ++ [x]).
Definition set_lat (c : Z) (s : St) : St := mkSt c (main_ s) (t1 s) (t2 s) (t3 s) (out s).
Definition set_main (m : mpc) (s : St) : St := mkSt (lat s) m (t1 s) (t2 s) (t3 s) (out s).

(** The functions of the threads: [arrive_and_wait] is [count_down] and [wait]. *)
Definition thread_step (t : tid) (s : St) : outcome (option St) :=
  match pc_of t s with
  | NotStarted | Done => Ok None
  | Say => Ok (Some (say (Begin t) (set_pc t (match t with T1 => Arrive | _ => Wait end) s)))
  | Arrive => c ← count_down (lat s); Ok (Some (set_lat c (set_pc t Wait s)))
  | Wait => Ok (if decide (lat s = 0) then Some (set_pc t SayEnd s) else None)
  | SayEnd => Ok (Some (say (End_ t) (set_pc t Done s)))
  end.

Definition join (t : tid) (m : mpc) (s : St) : option St :=
  match pc_of t s with Done => Some (set_main m s) | _ => None end.

Definition main_step (s : St) : outcome (option St) :=
  match main_ s with
  | CreateT1 => Ok (Some (set_main CreateT2 (set_pc T1 Say s)))
  | CreateT2 => Ok (Some (set_main SayOne (set_pc T2 Say s)))
  | SayOne => Ok (Some (set_main Down1 (say MainOne s)))
  | Down1 => c ← count_down (lat s); Ok (Some (set_main SayZero (set_lat c s)))
  | SayZero => Ok (Some (set_main Down2 (say MainZero s)))
  | Down2 => c ← count_down (lat s); Ok (Some (set_main CreateT3 (set_lat c s)))
  | CreateT3 => Ok (Some (set_main JoinT3 (set_pc T3 Say s)))
  | JoinT3 => Ok (join T3 JoinT2 s)
  | JoinT2 => Ok (join T2 JoinT1 s)
  | JoinT1 => Ok (join T1 Fin s)
  | Fin => Ok None
  end.

Inductive label : Type := Main | Thread (t : tid).
Definition step (l : label) (s : St) : outcome (option St) :=
  match l with Main => main_step s | Thread t => thread_step t s end.

Definition latch_6 : St := mkSt 3 CreateT1 NotStarted NotStarted NotStarted [].

(** ** The invariant *)

(** Which of [main]'s commands are behind it. *)
Definition rank (m : mpc) : Z :=
  match m with
  | CreateT1 => 0 | CreateT2 => 1 | SayOne => 2 | Down1 => 3 | SayZero => 4 | Down2 => 5
  | CreateT3 => 6 | JoinT3 => 7 | JoinT2 => 8 | JoinT1 => 9 | Fin => 10
  end.
Definition downs (m : mpc) : Z :=
  match m with
  | CreateT1 | CreateT2 | SayOne | Down1 => 0 | SayZero | Down2 => 1
  | CreateT3 | JoinT3 | JoinT2 | JoinT1 | Fin => 2
  end.
Definition t1_down (p : pc) : Z := match p with NotStarted | Say | Arrive => 0 | _ => 1 end.
Definition ending (p : pc) : Prop := p = SayEnd \/ p = Done.

(** A thread has been started when [main] is behind its declaration, is past the
    latch only when that is open, and over when [main] has joined it. *)
Definition thread_ok (created joined : Z) (c r : Z) (p : pc) : Prop :=
  (p = NotStarted <-> r <= created) /\ (ending p -> c = 0) /\ (joined < r -> p = Done).

Record inv (s : St) : Prop := {
  i_lat : lat s = 3 - t1_down (t1 s) - downs (main_ s);
  i_t1 : thread_ok 0 9 (lat s) (rank (main_ s)) (t1 s);
  i_t2 : thread_ok 1 8 (lat s) (rank (main_ s)) (t2 s) /\ t2 s <> Arrive;
  i_t3 : thread_ok 6 7 (lat s) (rank (main_ s)) (t3 s) /\ t3 s <> Arrive;
  i_out : forall a t b, out s = a ++ End_ t :: b -> MainZero ∈ a;
  i_zero : 4 < rank (main_ s) -> MainZero ∈ out s;
}.

Lemma latch_inv_new : inv latch_6.
Proof.
  unfold latch_6, ending. split; unfold thread_ok, ending; simpl; try done; try lia.
  - split_and!; try done; lia || naive_solver.
  - split_and!; try done; lia || naive_solver.
  - split_and!; try done; lia || naive_solver.
  - intros a t b H. by destruct a.
Qed.

Lemma ends_snoc (l : list line) x :
  (forall a t b, l = a ++ End_ t :: b -> MainZero ∈ a) -> (forall t, x = End_ t -> MainZero ∈ l) ->
  forall a t b, l ++ [x] = a ++ End_ t :: b -> MainZero ∈ a.
Proof.
  intros Hl Hx a t b H. destruct b as [|y b] using rev_ind.
  - apply app_inj_tail in H as [<- ->]. by eapply Hx.
  - rewrite app_comm_cons, app_assoc in H. apply app_inj_tail in H as [H _]. by eapply Hl.
Qed.

Lemma thread_ok_start cr jn c r : cr < r <= jn -> thread_ok cr jn c r Say.
Proof. intros Hr. split_and!; [split; [done|lia]|by intros []|lia]. Qed.

(** [main] moves on. *)
Lemma thread_ok_main cr jn c r c' r' p :
  thread_ok cr jn c r p -> (r <= cr <-> r' <= cr) -> (ending p -> c' = 0) -> (jn < r' -> p = Done) ->
  thread_ok cr jn c' r' p.
Proof. intros (H1 & H2 & H3) Hr Hc Hj. split_and!; [by rewrite <- Hr|done|done]. Qed.

Lemma count_down_inv c c' : count_down c = Ok c' -> 0 < c /\ c' = c - 1.
Proof. unfold count_down. case_decide; [|done]. intros [= <-]. lia. Qed.

Lemma latch_main_inv s s' : inv s -> main_step s = Ok (Some s') -> inv s'.
Proof.
  intros [H1 A1 [A2 D2] [A3 D3] H5 H6] E.
  destruct s as [c m p1 p2 p3 o]; simpl in *. unfold main_step, join in E. simpl in E.
  pose proof A1 as (B1 & C1 & E1). pose proof A2 as (B2 & C2 & E2). pose proof A3 as (B3 & C3 & E3).
  destruct m; simpl in *;
    repeat match type of E with
    | context [count_down c] =>
        let Ec := fresh "Ec" in destruct (count_down c) as [c'| |] eqn:Ec; try discriminate;
        apply count_down_inv in Ec as [Hc ->]
    | context [match ?p with Done => _ | _ => _ end] => destruct p eqn:?; try discriminate
    end; simpl in E; try discriminate; injection E as <-; split; simpl;
    try (eapply thread_ok_main; [eassumption|lia|intros; lia || auto|intros; lia || auto]; fail);
    try (split; [eapply thread_ok_main; [eassumption|lia|intros; lia || auto|intros; lia || auto]|done]; fail).
  all: try exact H5; try exact H1; try lia.
  all: try (rewrite (proj2 B1) in H1 by lia; exact H1).
  all: try (apply ends_snoc; [exact H5|intros; discriminate]).
  all: try (intros _; apply elem_of_app; right; by left).
  all: try (intros Hz; apply H6; lia).
  all: try (apply thread_ok_start; lia).
  all: try (split; [apply thread_ok_start; lia|done]).
  all: try (eapply thread_ok_main; [eassumption|lia|intros He; first [specialize (C1 He)|specialize (C2 He)|specialize (C3 He)]; lia|lia]).
  all: split; [eapply thread_ok_main; [eassumption|lia|intros He; first [specialize (C2 He)|specialize (C3 He)]; lia|lia]|done].
Qed.

Lemma thread_ok_step cr jn c c' r p p' :
  thread_ok cr jn c r p -> p <> NotStarted -> p' <> NotStarted -> p <> Done ->
  (ending p' -> c' = 0) -> thread_ok cr jn c' r p'.
Proof.
  intros (H1 & H2 & H3) Hp Hp' Hd He. split_and!; [|done|].
  - split; [done|]. intros Hr. by destruct (Hp (proj2 H1 Hr)).
  - intros Hr. by destruct (Hd (H3 Hr)).
Qed.

Lemma latch_open_rank m p c : c = 3 - t1_down p - downs m -> c = 0 -> 4 < rank m.
Proof. intros -> H. destruct m, p; simpl in *; lia. Qed.

Lemma latch_thread_inv t s s' : inv s -> thread_step t s = Ok (Some s') -> inv s'.
Proof.
  intros [H1 A1 [A2 D2] [A3 D3] H5 H6] E.
  destruct s as [c m p1 p2 p3 o]; simpl in *. unfold thread_step in E.
  destruct t; simpl in E; [destruct p1 eqn:Ep|destruct p2 eqn:Ep|destruct p3 eqn:Ep]; simpl in E;
    repeat match type of E with
    | context [count_down c] =>
        let Ec := fresh "Ec" in destruct (count_down c) as [c'| |] eqn:Ec; try discriminate;
        apply count_down_inv in Ec as [Hc ->]
    | context [decide ?P] => destruct (decide P) as [Hc|Hc]; try discriminate
    end; simpl in E; try discriminate; injection E as <-; split; simpl; try done; try lia.
  all: try (intros Hz; apply elem_of_app; left; by apply H6).
  all: try (apply ends_snoc; [exact H5|intros; discriminate]).
  all: try (eapply thread_ok_step; [eassumption|done|done|done|by intros []; auto]).
  all: try (split; [eapply thread_ok_step; [eassumption|done|done|done|by intros []; auto]|done]).
  all: try (apply ends_snoc; [exact H5|intros _ _; apply H6; eapply latch_open_rank; [exact H1|]]).
  all: pose proof A1 as (_ & C1 & _); pose proof A2 as (_ & C2 & E2); pose proof A3 as (_ & C3 & E3).
  all: try first [by (apply C1; left)|by (apply C2; left)|by (apply C3; left)].
  all: try (eapply thread_ok_step; [eassumption|done|done|done|intros _; apply C1; by left]).
  all: try (split; [eapply thread_ok_step; [eassumption|done|done|done|intros _; first [by (apply C2; left)|by (apply C3; left)]]|done]).
  - simpl in H1. lia.
  - split; [|done]. eapply thread_ok_main; [exact A2|done|intros He; specialize (C2 He); lia|done].
  - split; [|done]. eapply thread_ok_main; [exact A3|done|intros He; specialize (C3 He); lia|done].
Qed.

Lemma latch_step_inv l s s' : inv s -> step l s = Ok (Some s') -> inv s'.
Proof. intros Hi E. destruct l; [by eapply latch_main_inv|by eapply latch_thread_inv]. Qed.

(** The latch is never counted below zero. *)
Lemma latch_step_defined l s : inv s -> exists r, step l s = Ok r.
Proof.
  intros [H1 _ [_ D2] [_ D3] _ _]. destruct s as [c m p1 p2 p3 o], l as [|t]; simpl in *.
  - unfold main_step, count_down. destruct m; simpl in *; try (eexists; reflexivity);
      (rewrite decide_True by (destruct p1; simpl in *; lia); eexists; reflexivity).
  - unfold thread_step, count_down. destruct t; simpl; [destruct p1|destruct p2|destruct p3];
      try (eexists; reflexivity); try done.
    rewrite decide_True by (destruct m; simpl in *; lia). eexists; reflexivity.
Qed.

(** A thread that has been started and cannot move waits or is over. *)
Lemma latch_thread_stuck t s :
  thread_step t s = Ok None -> pc_of t s <> NotStarted ->
  pc_of t s = Done \/ (pc_of t s = Wait /\ lat s <> 0).
Proof.
  unfold thread_step. destruct (pc_of t s); try done; [..|by left].
  - unfold count_down. by case_decide.
  - intros E _. right. split; [done|]. intros H. by rewrite decide_True in E.
Qed.

Lemma latch_stuck_done s :
  inv s -> (forall l, step l s = Ok None) ->
  main_ s = Fin /\ t1 s = Done /\ t2 s = Done /\ t3 s = Done /\ lat s = 0.
Proof.
  intros [H1 (B1 & _ & E1) [(B2 & _ & E2) _] [(B3 & _ & E3) _] _ _] Hs.
  pose proof (Hs Main) as Hm. simpl in Hm.
  assert (Hr : 7 <= rank (main_ s)).
  { unfold main_step, count_down in Hm. destruct (main_ s); simpl in *; try discriminate; try lia;
      by case_decide. }
  assert (Ht : forall t, pc_of t s = Done \/ (pc_of t s = Wait /\ lat s <> 0)).
  { intros t. apply latch_thread_stuck; [exact (Hs (Thread t))|].
    destruct t; simpl; [rewrite B1|rewrite B2|rewrite B3]; lia. }
  assert (Hl : lat s = 0).
  { assert (Hd : downs (main_ s) = 2) by (destruct (main_ s); simpl in *; lia || done).
    destruct (Ht T1) as [Hp|[Hp _]]; simpl in Hp; rewrite Hp, Hd in H1; simpl in H1; lia. }
  assert (Hd : forall t, pc_of t s = Done) by (intros t; destruct (Ht t) as [|[_ []]]; done).
  split; [|split_and!; [apply (Hd T1)|apply (Hd T2)|apply (Hd T3)|done]].
  unfold main_step, join in Hm. destruct (main_ s); simpl in Hr; try lia; [..|done].
  - by rewrite (Hd T3) in Hm.
  - by rewrite (Hd T2) in Hm.
  - by rewrite (Hd T1) in Hm.
Qed.

Definition weight (p : pc) : Z :=
  match p with NotStarted => 5 | Say => 4 | Arrive => 3 | Wait => 2 | SayEnd => 1 | Done => 0 end.
Definition measure (s : St) : Z := 10 - rank (main_ s) + weight (t1 s) + weight (t2 s) + weight (t3 s).

Lemma latch_measure_nonneg s : 0 <= measure s.
Proof. unfold measure. destruct (main_ s), (t1 s), (t2 s), (t3 s); simpl; lia. Qed.

Lemma latch_measure_step l s s' : inv s -> step l s = Ok (Some s') -> inv s' /\ measure s' + 1 <= measure s.
Proof.
  intros Hi E. split; [by eapply latch_step_inv|].
  destruct Hi as [_ (B1 & _) [(B2 & _) _] [(B3 & _) _] _ _].
  unfold measure. destruct s as [c m p1 p2 p3 o], l as [|t]; simpl in *.
  - unfold main_step, join, count_down in E. destruct m; simpl in *;
      repeat match type of E with
      | context [decide ?P] => destruct (decide P); try discriminate
      | context [match ?p with Done => _ | _ => _ end] => destruct p eqn:?; try discriminate
      end; simpl in E; try discriminate; injection E as <-; simpl; try lia.
    + rewrite (proj2 B1) by lia. simpl. lia.
    + rewrite (proj2 B2) by lia. simpl. lia.
    + rewrite (proj2 B3) by lia. simpl. lia.
  - unfold thread_step, count_down in E.
    destruct t; simpl in E; [destruct p1|destruct p2|destruct p3]; simpl in E;
      repeat match type of E with context [decide ?P] => destruct (decide P); try discriminate end;
      simpl in E; try discriminate; injection E as <-; simpl; lia.
Qed.
End Latch.

(** ** Theorems *)

(** [barrier_7] cannot hang: with an odd number of threads, 5 in the code, the
    arrivals of the threads and of [main] fill the phases of the barrier of 2
    exactly.  Whatever the interleaving, at most 5 n + 6 steps are made, and when
    nobody can move, every thread has left [arrive_and_wait] and been joined and
    the completion function was called (n + 1) / 2 times. *)
Theorem barrier_7_ends n ls s :
  Nat.odd n = true -> runs (Barrier.step n) Barrier.barrier_7 ls s ->
  len ls <= 5 * Z.of_nat n + 6 /\
  ((forall l, Barrier.step n l s = Ok None) ->
     Barrier.main_ s = Barrier.Fin /\ Forall (eq Barrier.Done) (Barrier.vt s) /\
     2 * Barrier.completions (Barrier.out s) = Z.of_nat n + 1).
Proof.
  intros Hn Hr.
  destruct (runs_bounded0 (Barrier.step n) (Barrier.inv n) (Barrier.measure n) Barrier.barrier_7 ls s)
    as [Hi Hb]; [| |apply Barrier.barrier_inv_new|exact Hr|].
  - intros l s1 s2 H1 H2. split; [by eapply Barrier.barrier_step_inv|by eapply Barrier.barrier_measure_step].
  - apply Barrier.barrier_measure_nonneg.
  - split; [unfold Barrier.measure in Hb; simpl in Hb; lia|by apply Barrier.barrier_stuck_done].
Qed.

(** Of the threads of [semaphore_8] never more than [c] (3 in the code) are
    between [acquire] and [release], however many there are: the counter [atoi] is
    between 0 and [c] in every reachable state, and every value printed is between
    1 and [c]. *)
Theorem semaphore_8_bounded c n ls s :
  0 <= c -> runs (Semaphore.step n) (Semaphore.semaphore_8 c) ls s ->
  0 <= Semaphore.atoi s <= c /\ Forall (fun v => 1 <= v <= c) (Semaphore.out s) /\
  sum_over Semaphore.holds (Semaphore.vj s) <= c.
Proof.
  intros Hc Hr. assert (Hi : Semaphore.inv c n s).
  { eapply (runs_invariant (Semaphore.step n)); [|by apply Semaphore.sem8_inv_new|exact Hr].
    intros l s1 s2. apply Semaphore.sem8_step_inv. }
  split; [by eapply Semaphore.sem8_atoi_range|]. destruct Hi as [H1 H2 _ _ _ H6]. split; [done|lia].
Qed.

(** [semaphore_8] ends: there is always somebody who can move until [main] is
    through and every thread has returned, with the semaphore as it was and [atoi]
    at 0; and once [main] has asked every thread to stop, at most 7 n + 1 steps are
    left. *)
Theorem semaphore_8_stops c n ls s :
  0 < c -> runs (Semaphore.step n) (Semaphore.semaphore_8 c) ls s ->
  ((forall l, Semaphore.step n l s = Ok None) ->
     Semaphore.main_ s = Semaphore.Fin /\ Forall Semaphore.done (Semaphore.vj s) /\
     Semaphore.sp s = c /\ Semaphore.atoi s = 0) /\
  (Semaphore.all_asked s -> forall ls' s', runs (Semaphore.step n) s ls' s' -> len ls' <= 7 * Z.of_nat n + 1).
Proof.
  intros Hc Hr. assert (Hi : Semaphore.inv c n s).
  { eapply (runs_invariant (Semaphore.step n)); [|apply Semaphore.sem8_inv_new; lia|exact Hr].
    intros l s1 s2. apply Semaphore.sem8_step_inv. }
  split; [by apply Semaphore.sem8_stuck_done|]. intros Ha ls' s' Hr'.
  destruct (runs_bounded0 (Semaphore.step n) (fun s => Semaphore.inv c n s /\ Semaphore.all_asked s)
    (Semaphore.measure n) s ls' s') as [_ Hb]; [| |by split|exact Hr'|].
  - intros l s1 s2. apply Semaphore.sem8_measure_step.
  - intros s1 H1. by eapply Semaphore.sem8_measure_nonneg.
  - pose proof (Semaphore.sem8_weight_sum (Semaphore.vj s)). destruct Hi as [_ _ _ H4 _ _].
    unfold Semaphore.measure, Semaphore.m_weight in Hb. destruct (Semaphore.main_ s); lia.
Qed.

(** [latch_6] counts the latch of 3 down exactly to 0, never below, which would
    be undefined; nobody passes it before [main] has printed its second line; no
    run has more than 25 steps, and when nobody can move all three threads are
    over and joined. *)
Theorem latch_6_ends ls s :
  runs Latch.step Latch.latch_6 ls s ->
  (forall l, exists r, Latch.step l s = Ok r) /\ len ls <= 25 /\
  (forall a t b, Latch.out s = a ++ Latch.End_ t :: b -> Latch.MainZero ∈ a) /\
  ((forall l, Latch.step l s = Ok None) ->
     Latch.main_ s = Latch.Fin /\ Latch.t1 s = Latch.Done /\ Latch.t2 s = Latch.Done /\
     Latch.t3 s = Latch.Done /\ Latch.lat s = 0).
Proof.
  intros Hr.
  destruct (runs_bounded0 Latch.step Latch.inv Latch.measure Latch.latch_6 ls s) as [Hi Hb];
    [| |apply Latch.latch_inv_new|exact Hr|].
  - intros l s1 s2. apply Latch.latch_measure_step.
  - intros s1 _. apply Latch.latch_measure_nonneg.
  - split_and!; [intros l; by apply Latch.latch_step_defined|exact Hb|by destruct Hi|by apply Latch.latch_stuck_done].
Qed.

(** ** Witnesses *)

(** The five threads one after the other, [main] meeting the last. *)
Definition barrier_schedule : list Barrier.label :=
  let m := Barrier.Main in let t := Barrier.Thread in
  replicate 8 m ++ [t 0; t 0; t 1; t 1; t 0; t 1; t 2; t 2; t 3; t 3; t 4; t 4]%nat ++
  [m; m] ++ [t 2; t 3; t 4]%nat ++ replicate 6 m.

Definition barrier_end : Barrier.St :=
  Barrier.mkSt (Barrier.mkBarrier 2 2 3) (replicate 5 Barrier.Done) Barrier.Fin
    [Barrier.PlusPlus; Barrier.EnterIn 0; Barrier.EnterIn 1; Barrier.BarrierComplete; Barrier.EnterIn 2;
     Barrier.EnterIn 3; Barrier.BarrierComplete; Barrier.EnterIn 4; Barrier.BarrierComplete].

Lemma barrier_7_ends_witness :
  runs (Barrier.step 5) Barrier.barrier_7 barrier_schedule barrier_end /\
  Barrier.completions (Barrier.out barrier_end) = 3.
Proof.
  assert (Hr : runs (Barrier.step 5) Barrier.barrier_7 barrier_schedule barrier_end)
    by (apply execute_runs; vm_compute; reflexivity).
  split; [exact Hr|].
  destruct (proj2 (barrier_7_ends 5 _ _ eq_refl Hr)) as (_ & _ & H).
  - intros [|i]; [reflexivity|]. do 5 (destruct i as [|i]; [reflexivity|]). reflexivity.
  - lia.
Defined.

(** Two threads and a semaphore of one: the second waits for the first. *)
Definition semaphore_schedule : list Semaphore.label :=
  let m := Semaphore.Main in let t := Semaphore.Thread in
  replicate 3 m ++ [t 0; t 0; t 0]%nat ++ [m; m; m; m] ++ [t 0; t 0; t 1; t 0]%nat.

Definition semaphore_end : Semaphore.St :=
  Semaphore.mkSt 0 0 [Semaphore.mkThr Semaphore.Done true; Semaphore.mkThr Semaphore.Inc true]
    (Semaphore.Joining 0) [1].

Lemma semaphore_run : runs (Semaphore.step 2) (Semaphore.semaphore_8 1) semaphore_schedule semaphore_end.
Proof. apply execute_runs. vm_compute. reflexivity. Qed.

Lemma semaphore_8_bounded_witness :
  runs (Semaphore.step 2) (Semaphore.semaphore_8 1) semaphore_schedule semaphore_end /\
  0 <= Semaphore.atoi semaphore_end <= 1 /\ Forall (fun v => 1 <= v <= 1) (Semaphore.out semaphore_end).
Proof.
  split; [exact semaphore_run|].
  destruct (semaphore_8_bounded 1 2 _ _ ltac:(lia) semaphore_run) as (H1 & H2 & _). exact (conj H1 H2).
Defined.

Lemma semaphore_8_stops_witness :
  runs (Semaphore.step 2) (Semaphore.semaphore_8 1) semaphore_schedule semaphore_end /\
  (forall ls' s', runs (Semaphore.step 2) semaphore_end ls' s' -> len ls' <= 7 * 2 + 1).
Proof.
  split; [exact semaphore_run|].
  exact (proj2 (semaphore_8_stops 1 2 _ _ ltac:(lia) semaphore_run) I).
Defined.

Definition latch_schedule : list Latch.label :=
  let m := Latch.Main in let t := Latch.Thread in
  [m; t Latch.T1; t Latch.T1; m; t Latch.T2; m; m; m; m; m; t Latch.T1; t Latch.T2; t Latch.T3; t Latch.T3;
   t Latch.T2; t Latch.T1; t Latch.T3; m; m; m].

Definition latch_end : Latch.St :=
  Latch.mkSt 0 Latch.Fin Latch.Done Latch.Done Latch.Done
    [Latch.Begin Latch.T1; Latch.Begin Latch.T2; Latch.MainOne; Latch.MainZero; Latch.Begin Latch.T3;
     Latch.End_ Latch.T2; Latch.End_ Latch.T1; Latch.End_ Latch.T3].

Lemma latch_6_ends_witness :
  runs Latch.step Latch.latch_6 latch_schedule latch_end /\ Latch.lat latch_end = 0.
Proof.
  assert (Hr : runs Latch.step Latch.latch_6 latch_schedule latch_end)
    by (apply execute_runs; vm_compute; reflexivity).
  split; [exact Hr|].
  apply (proj2 (proj2 (proj2 (latch_6_ends _ _ Hr)))). intros [|[]]; reflexivity.
Defined.
