(* ===== verification/Peers.v ===== *)
(** * What a server owes its peers

    Shared by the servers whose callbacks and rounds are steps ([EchoServer],
    [SelectEcho]), over the sockets of [Sockets]: the bytes the network brings to a
    connection, what has been answered and what is still to be read, and a measure
    of the work that is left. *)

From S2P Require Import Prelude CppInt Sys Sockets Turns.

(** ** A connection and the network *)

(** The bytes of an event for connection [i]. *)
Definition sent_by (i : Z) (e : nevent) : bytes :=
  match e with NData (Fd j) d => if decide (j = i) then d else [] | _ => [] end.

(** An event in which peer [i] neither closes nor resets. *)
Definition quiet (i : Z) (e : nevent) : Prop :=
  match e with NFin (Fd j) | NReset (Fd j) => j <> i | _ => True end.

(** What an event does to connection [i]. *)
Definition hears (i : Z) (e : nevent) (p : peer) : peer :=
  match e with
  | NData (Fd j) d => if decide (j = i) then peer_data d p else p
  | NFin (Fd j) => if decide (j = i) then peer_fin p else p
  | NReset (Fd j) => if decide (j = i) then peer_reset p else p
  | _ => p
  end.

Lemma net_hears i e k p :
  k_conns k !! i = Some p -> k_conns (net_event e k) !! i = Some (hears i e p).
Proof.
  intros Hp.
  assert (Ht : forall j f, k_conns (net_target (Fd j) f k) !! i = Some (if decide (j = i) then f p else p)).
  { intros j f. unfold net_target. case_decide as Hs.
    - simpl. destruct (decide (j = i)) as [->|Hne]; [by rewrite lookup_alter_eq, Hp|by rewrite lookup_alter_ne].
    - rewrite decide_False; [done|]. intros ->. apply Hs. by exists p. }
  destruct e as [|[j|m] d|[j|m]|[j|m]]; cbn [net_event hears]; try (rewrite Ht; by destruct (decide (j = i)));
    [by destruct (k_listen k)|done..].
Qed.

(** What has been sent to a peer and what is still to be read. *)
Definition account (p : peer) : bytes := p_out p ++ p_in p.
Definition healthy (p : peer) : Prop := p_fin p = false /\ p_err p = false.

Lemma net_account i e k p :
  quiet i e -> k_conns k !! i = Some p -> healthy p ->
  exists q, k_conns (net_event e k) !! i = Some q /\ healthy q /\ account q = account p ++ sent_by i e.
Proof.
  intros Hc Hp [Hf He]. exists (hears i e p). split; [by apply net_hears|].
  assert (Hs : healthy p /\ account p = account p ++ []) by (by rewrite app_nil_r).
  destruct e as [|[j|m] d|[j|m]|[j|m]]; cbn [hears sent_by] in *; try done; try (by rewrite decide_False).
  case_decide; [|done]. unfold peer_data, healthy, account. rewrite Hf, He. simpl. split; [done|]. by rewrite app_assoc.
Qed.

(** ** The work left *)

Definition weight (p : peer) : Z := len (p_in p) + (if p_err p then 2 else if p_fin p then 1 else 0).
Definition conns_weight (m : gmap Z peer) : Z := map_fold (fun _ p n => weight p + n) 0 m.
Definition work (k : K) : Z := sum_over (fun p => weight p + 1) (k_backlog k) + conns_weight (k_conns k).

Lemma conns_weight_insert m i p : m !! i = None -> conns_weight (<[i := p]> m) = weight p + conns_weight m.
Proof. intros Hi. unfold conns_weight. rewrite map_fold_insert_L; [done|lia|done]. Qed.

Lemma conns_weight_delete m i p : m !! i = Some p -> conns_weight m = weight p + conns_weight (delete i m).
Proof.
  intros Hi. rewrite <- (insert_delete_id m i p Hi) at 1. by rewrite conns_weight_insert by apply lookup_delete_eq.
Qed.

Lemma conns_weight_update m i p q :
  m !! i = Some p -> conns_weight (<[i := q]> m) = conns_weight m - weight p + weight q.
Proof.
  intros Hi. rewrite (conns_weight_delete m i p Hi), <- insert_delete_eq.
  rewrite conns_weight_insert by apply lookup_delete_eq. lia.
Qed.

Lemma peer_weight_nonneg p : 0 <= weight p.
Proof. unfold weight. destruct (p_err p), (p_fin p); lia. Qed.

Lemma conns_weight_nonneg m : 0 <= conns_weight m.
Proof.
  induction m as [|i p m Hi IH] using map_ind; [done|].
  rewrite conns_weight_insert by done. pose proof (peer_weight_nonneg p). lia.
Qed.

Lemma work_nonneg k : 0 <= work k.
Proof.
  unfold work. pose proof (conns_weight_nonneg (k_conns k)).
  pose proof (sum_over_nonneg (fun p => weight p + 1) (k_backlog k)) as H1.
  specialize (H1 (fun p => Z.add_nonneg_nonneg _ _ (peer_weight_nonneg p) Z.le_0_1)). lia.
Qed.

Lemma accept_work low k p bl : k_backlog k = p :: bl -> work (take_peer low true k) + 1 <= work k.
Proof.
  intros Hb. unfold take_peer, work. rewrite Hb. simpl.
  rewrite conns_weight_insert by apply fresh_fd_unused. lia.
Qed.

