(* ===== verification/EchoServer.v ===== *)
(** * The echo server over libev ([libev/01_server_epoll.cpp])

    The two callbacks over the kernel of [Sockets], and the loop as a step relation:
    libev calls the callback of a watcher whose descriptor is ready, one at a time,
    and tells again of a descriptor that still is.  libev itself is not modelled
    beyond that. *)

From S2P Require Import Prelude CppInt CText Sys Sockets Turns Peers.

(** [listener_fd], the kernel, and the descriptors of the started [ev_io]s. *)
Record St := mkSt { listener_fd : Z; kern : K; watchers : gset Z }.

Definition put_kern (k : K) (s : St) : St := mkSt (listener_fd s) k (watchers s).
Definition ev_io_start (i : Z) : M St unit :=
  modify (fun s => mkSt (listener_fd s) (kern s) ({[i]} ∪ watchers s)).
Definition ev_io_stop (i : Z) : M St unit :=
  modify (fun s => mkSt (listener_fd s) (kern s) (watchers s ∖ {[i]})).

Definition buffer_size : Z := 1024.

(** [process_client_data]: [error] is [EV_ERROR & revents], [junk] what the array
    [buffer] holds before, [rep] what [write] does. *)
Definition process_client_data (error : bool) (i : Z) (junk : bytes) (rep : wreply) : M St unit :=
  if error then mret tt
  else
    '(nread, d) ← zoom kern put_kern (recv i (buffer_size - 1));
    buffer ← liftO (buf_write 0 d junk);
    if decide (nread < 0) then mret tt
    else if decide (nread = 0) then
      ev_io_stop i ;;
      zoom kern put_kern (close i)
    else
      buffer ← liftO (buf_write nread [NUL] buffer);
      text ← liftO (cstr buffer);
      zoom kern put_kern (print_got i nread text) ;;
      zoom kern put_kern (send i (take (Z.to_nat nread) buffer) rep) ;;
      mret tt.

(** [generate_evio_for_client_conn] *)
Definition generate_evio_for_client_conn (client_fd : Z) : M St unit := ev_io_start client_fd.

(** [accept_cb]; the descriptors below [listener_fd] are in use. *)
Definition accept_cb (ok : bool) : M St unit :=
  s ← getS;
  client_fd ← zoom kern put_kern (accept (listener_fd s + 1) ok);
  if decide (client_fd < 0) then mret tt else generate_evio_for_client_conn client_fd.

(** [main] up to [ev_run]: what [socket] returns and whether [bind] and [listen]
    succeed; [None]: it returns 1. *)
Definition main_setup (fd : Z) (bind_ok listen_ok : bool) : option St :=
  if decide (fd < 0) then None
  else if negb bind_ok then None
  else if negb listen_ok then None
  else Some (mkSt fd K_start {[fd]}).

(** ** [ev_run] *)

Inductive label : Type :=
  | Net (e : nevent)
  | Callback (i : Z) (ok : bool) (junk : bytes) (rep : wreply).

(** A callback runs when its watcher is started and its descriptor ready. *)
Definition step (l : label) (s : St) : outcome (option St) :=
  match l with
  | Net e => Ok (Some (put_kern (net_event e (kern s)) s))
  | Callback i ok junk rep =>
      if decide (i ∈ watchers s) then
        if fd_ready (listener_fd s) (kern s) i then
          match (if decide (i = listener_fd s) then accept_cb ok
                 else process_client_data false i junk rep) s with
          | Ok (_, s) => Ok (Some s)
          | Throw e => Throw e
          | UB => UB
          end
        else Ok None
      else Ok None
  end.

(** ** What a callback should do: the specification *)

Definition echo (i : Z) (rep : wreply) (k : K) : K :=
  match k_conns k !! i with
  | None => k
  | Some p =>
      if p_err p then on_conns (<[i := Peer [] true false (p_out p)]>) k
      else if bool_decide (p_in p = []) then closed i k
      else
        let d := kread (buffer_size - 1) (p_in p) in
        let sent := (kwrite rep d).2 in
        mkK (k_listen k) (k_backlog k)
          (<[i := Peer (drop (length d) (p_in p)) (p_fin p) false (p_out p ++ sent)]> (k_conns k))
          (k_edge k) (k_stdout k ++ [(i, len d, text_of d)])
  end.

(** Every connection has a watcher, and nothing else but the listener has. *)
Record inv (s : St) : Prop := {
  i_watch : watchers s = {[listener_fd s]} ∪ dom (k_conns (kern s));
  i_listener : k_conns (kern s) !! listener_fd s = None;
  i_low : 0 <= listener_fd s;
}.

Lemma process_echoes i junk rep s p :
  inv s -> i <> listener_fd s -> len junk = buffer_size -> k_conns (kern s) !! i = Some p -> ready p = true ->
  process_client_data false i junk rep s =
    Ok (tt, mkSt (listener_fd s) (echo i rep (kern s)) ({[listener_fd s]} ∪ dom (k_conns (echo i rep (kern s))))).
Proof.
  intros [Hw Hl _] Hi Hj Hp Hr. unfold buffer_size in *.
  assert (Hdom : forall q, dom (<[i := q]> (k_conns (kern s))) = dom (k_conns (kern s))).
  { intros q. apply dom_insert_lookup_L. by exists p. }
  unfold process_client_data, echo, zoom, recv, getS, mbind, M_bind, ready in *. cbn beta iota.
  unfold buffer_size. change (1024 - 1) with 1023.
  rewrite Hp. destruct (p_err p) eqn:Herr; simpl in Hr.
  { cbn. rewrite buf_write_ok by (simpl; lia). cbn. by rewrite Hdom, <- Hw. }
  case_bool_decide as Hin; simpl in Hr.
  { rewrite Hr. cbn. rewrite buf_write_ok by (simpl; lia). cbn. rewrite decide_False, decide_True by done. unfold put_kern. cbn.
    rewrite dom_delete_L, Hw, difference_union_distr_l_L. by rewrite (difference_disjoint_L {[listener_fd s]}) by set_solver. }
  set (d := kread 1023 (p_in p)).
  assert (Hd : len d <= 1023) by (apply kread_length; lia).
  assert (0 < len d).
  { unfold d. rewrite kread_len by lia. destruct (p_in p); [done|simpl; lia]. }
  destruct (terminate_received d junk) as (b1 & b2 & E1 & L1 & E2 & L2 & C2); [lia|].
  cbn. rewrite E1. cbn. rewrite decide_False, decide_False by lia. rewrite E2. cbn. rewrite C2. cbn.
  unfold send. assert (Ht : take (Z.to_nat (len d)) b2 = d).
  { rewrite buf_write_ok in E1 by lia. injection E1 as <-.
    rewrite buf_write_ok in E2 by list_lia. injection E2 as <-. rewrite Nat2Z.id. simpl.
    rewrite take_app_le by list_lia. rewrite (take_ge (take _ _)) by list_lia.
    rewrite take_app_le by lia. by rewrite take_ge by lia. }
  unfold put_kern. rewrite Ht. destruct (kwrite rep d) as [[n e] sent] eqn:Ek. cbn.
  unfold mbind, M_bind, on_conns. cbn. rewrite alter_insert_eq. cbn. by rewrite Hdom, <- Hw.
Qed.

Lemma echo_accept_takes ok s p bl :
  inv s -> k_backlog (kern s) = p :: bl ->
  accept_cb ok s =
    Ok (tt, let k := take_peer (listener_fd s + 1) ok (kern s) in
            mkSt (listener_fd s) k ({[listener_fd s]} ∪ dom (k_conns k))).
Proof.
  intros [Hw Hl H0] Hb. unfold accept_cb, zoom, accept, take_peer, getS, mbind, M_bind. cbn beta iota.
  rewrite Hb. destruct ok.
  - unfold modify, put_kern. cbn.
    pose proof (fresh_fd_range (listener_fd s + 1) (k_conns (kern s))) as Hr.
    rewrite decide_False by lia. cbn. rewrite dom_insert_L, Hw.
    unfold generate_evio_for_client_conn, ev_io_start, modify. cbn.
    set (f := fresh_fd _ _). by rewrite !(assoc_L (∪)), (comm_L (∪) {[listener_fd s]} {[f]}).
  - unfold put_kern. cbn. destruct s as [l k w]; simpl in *. by rewrite Hw.
Qed.

#[global] Arguments process_client_data : simpl never.
#[global] Arguments accept_cb : simpl never.

(** ** Steps *)

Lemma net_inv e s : inv s -> inv (put_kern (net_event e (kern s)) s).
Proof.
  intros [Hw Hl H0]. split; simpl; [|apply not_elem_of_dom in Hl; apply not_elem_of_dom|done];
    by rewrite net_event_dom.
Qed.

(** What a step does, in terms of the kernel. *)
Definition step_spec (l : label) (s : St) : K :=
  match l with
  | Net e => net_event e (kern s)
  | Callback i ok junk rep =>
      if decide (i = listener_fd s) then take_peer (listener_fd s + 1) ok (kern s) else echo i rep (kern s)
  end.

Definition label_ok (l : label) : Prop :=
  match l with Net _ => True | Callback _ _ junk _ => len junk = buffer_size end.

Lemma ready_conn s i :
  fd_ready (listener_fd s) (kern s) i = true -> i <> listener_fd s ->
  exists p, k_conns (kern s) !! i = Some p /\ ready p = true.
Proof.
  unfold fd_ready. intros H Hi. rewrite decide_False in H by done.
  destruct (k_conns (kern s) !! i) as [p|]; [by exists p|done].
Qed.

Lemma ready_listener s :
  fd_ready (listener_fd s) (kern s) (listener_fd s) = true -> exists p bl, k_backlog (kern s) = p :: bl.
Proof.
  unfold fd_ready. rewrite decide_True by done. destruct (k_backlog (kern s)) as [|p bl]; [done|]. by exists p, bl.
Qed.

Lemma echo_listener i rep k l :
  k_conns k !! l = None -> k_conns (echo i rep k) !! l = None.
Proof.
  intros Hl. unfold echo. destruct (k_conns k !! i) as [p|] eqn:Hi; [|done].
  assert (i <> l) by congruence.
  destruct (p_err p); [|case_bool_decide]; simpl; rewrite ?lookup_insert_ne, ?lookup_delete_ne by done; done.
Qed.

Lemma take_peer_listener ok k l : k_conns k !! l = None -> k_conns (take_peer (l + 1) ok k) !! l = None.
Proof.
  intros Hl. unfold take_peer. destruct (k_backlog k); [done|]. destruct ok; [|done]. simpl.
  pose proof (fresh_fd_range (l + 1) (k_conns k)). by rewrite lookup_insert_ne by lia.
Qed.

(** A step that can be made is defined and does what it should. *)
Lemma step_does l s :
  inv s -> label_ok l ->
  step l s = Ok None \/
  exists s', step l s = Ok (Some s') /\ inv s' /\ listener_fd s' = listener_fd s /\ kern s' = step_spec l s.
Proof.
  intros Hi Hl. destruct l as [e|i ok junk rep]; simpl in *.
  - right. eexists. split; [done|]. by split; [apply net_inv|].
  - destruct (decide (i ∈ watchers s)); [|by left].
    destruct (fd_ready (listener_fd s) (kern s) i) eqn:Hr; [|by left]. right.
    destruct (decide (i = listener_fd s)) as [->|Hne].
    + destruct (ready_listener s Hr) as (p & bl & Hb). rewrite (echo_accept_takes ok s p bl Hi Hb).
      eexists. split; [done|]. split; [|done]. destruct Hi as [Hw Hln H0].
      split; simpl; [done|by apply take_peer_listener|done].
    + destruct (ready_conn s i Hr Hne) as (p & Hp & Hrp).
      rewrite (process_echoes i junk rep s p Hi Hne Hl Hp Hrp).
      eexists. split; [done|]. split; [|done]. destruct Hi as [Hw Hln H0].
      split; simpl; [done|by apply echo_listener|done].
Qed.

Lemma step_does_inv l s s' :
  inv s -> label_ok l -> step l s = Ok (Some s') ->
  inv s' /\ listener_fd s' = listener_fd s /\ kern s' = step_spec l s.
Proof.
  intros Hi Hl E. destruct (step_does l s Hi Hl) as [E'|(s1 & E' & H)]; rewrite E in E'; [done|].
  by injection E' as <-.
Qed.

(** ** A connection along a run *)

(** The bytes of the network for connection [i]. *)
Definition arrives (i : Z) (l : label) : bytes :=
  match l with Net e => sent_by i e | Callback _ _ _ _ => [] end.

(** [write] takes all it is given, and connection [i] is neither closed nor reset
    by its peer. *)
Definition calm (i : Z) (l : label) : Prop :=
  match l with
  | Net e => quiet i e
  | Callback _ _ junk rep => len junk = buffer_size /\ exists n, rep = WAccept n /\ (1023 <= n)%nat
  end.

Lemma calm_ok i l : calm i l -> label_ok l.
Proof. destruct l; simpl; [done|naive_solver]. Qed.

Lemma echo_account i j rep k p n :
  rep = WAccept n -> (1023 <= n)%nat -> (j = i -> ready p = true) ->
  k_conns k !! i = Some p -> healthy p ->
  exists q, k_conns (echo j rep k) !! i = Some q /\ healthy q /\ account q = account p.
Proof.
  intros -> Hn Hr Hp [Hf He]. unfold echo. destruct (decide (j = i)) as [->|Hne].
  - rewrite Hp, He. specialize (Hr eq_refl). unfold ready in Hr. rewrite Hf, He in Hr. simpl in Hr.
    rewrite orb_false_r in Hr. apply negb_true_iff in Hr. rewrite Hr. simpl. eexists. split; [apply lookup_insert_eq|].
    split; [done|]. unfold account. simpl. unfold kread, buffer_size.
    rewrite (take_ge (take _ _) n) by list_lia. rewrite length_take, <- app_assoc. f_equal.
    etransitivity; [|apply (take_drop (Z.to_nat (1024 - 1)))]. f_equal.
    destruct (decide (length (p_in p) <= Z.to_nat (1024 - 1))%nat).
    + by rewrite !drop_ge by lia.
    + by rewrite Nat.min_l by lia.
  - exists p. split; [|done]. destruct (k_conns k !! j) as [q|] eqn:Hq; [|done].
    destruct (p_err q); [|case_bool_decide]; simpl; rewrite ?lookup_insert_ne, ?lookup_delete_ne by done; done.
Qed.

Lemma step_account i l s s' p :
  inv s -> calm i l -> step l s = Ok (Some s') -> k_conns (kern s) !! i = Some p -> healthy p ->
  inv s' /\ exists q, k_conns (kern s') !! i = Some q /\ healthy q /\ account q = account p ++ arrives i l.
Proof.
  intros Hi Hc E Hp Hh. destruct (step_does_inv l s s' Hi (calm_ok i l Hc) E) as (Hi' & _ & ->).
  split; [done|]. destruct l as [e|j ok junk rep]; [by apply net_account|]. simpl.
  simpl in E. destruct (decide (j ∈ watchers s)); [|done].
  destruct (fd_ready (listener_fd s) (kern s) j) eqn:Hr; [|done]. destruct Hc as (_ & n & Hrep & Hn).
  rewrite app_nil_r. destruct (decide (j = listener_fd s)) as [->|Hne].
  - exists p. split; [|done]. unfold take_peer. destruct (k_backlog (kern s)); [done|]. destruct ok; [|done].
    simpl. rewrite lookup_insert_ne; [done|]. intros Hfr.
    pose proof (fresh_fd_unused (listener_fd s + 1) (k_conns (kern s))). congruence.
  - destruct (ready_conn s j Hr Hne) as (q & Hq & Hrq). eapply echo_account; [done|done| |done|done].
    intros ->. by rewrite Hp in Hq; injection Hq as ->.
Qed.

Lemma run_account i ls s s' p :
  inv s -> Forall (calm i) ls -> runs step s ls s' -> k_conns (kern s) !! i = Some p -> healthy p ->
  inv s' /\ exists q, k_conns (kern s') !! i = Some q /\ healthy q /\ account q = account p ++ concat (map (arrives i) ls).
Proof.
  intros Hi Hc Hr. revert p Hi Hc. induction Hr as [s|s l s1 ls s' E _ IH]; intros p Hi Hc Hp Hh.
  - split; [done|]. exists p. simpl. by rewrite app_nil_r.
  - apply Forall_cons in Hc as [Hl Hc]. destruct (step_account i l s s1 p Hi Hl E Hp Hh) as (Hi1 & q & Hq & Hhq & Ha).
    destruct (IH q Hi1 Hc Hq Hhq) as (Hi' & q' & Hq' & Hh' & Ha'). split; [done|]. exists q'. split; [done|].
    split; [done|]. simpl. by rewrite Ha', Ha, app_assoc.
Qed.

(** [ev_run] would wait: no watcher has anything to do. *)
Definition waiting (s : St) : Prop :=
  forall i, i ∈ watchers s -> fd_ready (listener_fd s) (kern s) i = false.

Lemma waiting_read s i p : inv s -> waiting s -> k_conns (kern s) !! i = Some p -> ready p = false.
Proof.
  intros [Hw Hl _] Hs Hp. specialize (Hs i). rewrite Hw in Hs.
  unfold fd_ready in Hs. rewrite decide_False, Hp in Hs by congruence. apply Hs.
  apply elem_of_union_r, elem_of_dom. by exists p.
Qed.

Lemma echo_work i rep k p :
  k_conns k !! i = Some p -> ready p = true -> work (echo i rep k) + 1 <= work k.
Proof.
  intros Hp Hr. unfold echo, work. rewrite Hp. unfold ready in Hr. destruct (p_err p) eqn:He; simpl in Hr.
  - simpl. rewrite (conns_weight_update _ _ p) by done. unfold weight. simpl. rewrite He. lia.
  - case_bool_decide as Hin; simpl in *.
    + rewrite (conns_weight_delete _ _ _ Hp). unfold weight. rewrite He, Hr, Hin. simpl. lia.
    + rewrite (conns_weight_update _ _ p) by done. unfold weight. simpl. rewrite He.
      rewrite length_drop. assert (0 < len (p_in p)) by (destruct (p_in p); [done|simpl; lia]).
      assert (0 < len (kread (buffer_size - 1) (p_in p))) by (rewrite kread_len; unfold buffer_size; lia). lia.
Qed.

(** Callbacks only. *)
Definition callback (l : label) : Prop :=
  match l with Net _ => False | Callback _ _ junk _ => len junk = buffer_size end.

(** A callback of the listener whose [accept] fails. *)
Definition accept_failed (listener : Z) (l : label) : Z :=
  match l with
  | Callback i false _ _ => if decide (i = listener) then 1 else 0
  | _ => 0
  end.

Lemma callback_work l s s' :
  inv s -> callback l -> step l s = Ok (Some s') ->
  inv s' /\ listener_fd s' = listener_fd s /\
  work (kern s') + 1 <= work (kern s) + accept_failed (listener_fd s) l.
Proof.
  intros Hi Hc E. destruct l as [|i ok junk rep]; [done|].
  destruct (step_does_inv (Callback i ok junk rep) s s' Hi Hc E) as (Hi' & Hl & ->). split; [done|]. split; [done|].
  simpl in *. destruct (decide (i ∈ watchers s)); [|done].
  destruct (fd_ready (listener_fd s) (kern s) i) eqn:Hr; [|done].
  destruct (decide (i = listener_fd s)) as [->|Hne].
  - destruct (ready_listener s Hr) as (p & bl & Hb). destruct ok; [rewrite Z.add_0_r; by eapply accept_work|].
    unfold take_peer. rewrite Hb. lia.
  - destruct (ready_conn s i Hr Hne) as (p & Hp & Hrp). pose proof (echo_work i rep _ p Hp Hrp). destruct ok; lia.
Qed.

Lemma callbacks_bounded ls s s' :
  inv s -> Forall callback ls -> runs step s ls s' ->
  inv s' /\ listener_fd s' = listener_fd s /\
  len ls <= work (kern s) - work (kern s') + sum_over (accept_failed (listener_fd s)) ls.
Proof.
  intros Hi Hc Hr. revert Hi Hc. induction Hr as [s|s l s1 ls s' E _ IH]; intros Hi Hc; [simpl; split_and!; [done|done|lia]|].
  apply Forall_cons in Hc as [Hl Hc]. destruct (callback_work l s s1 Hi Hl E) as (Hi1 & Hf & Hw).
  destruct (IH Hi1 Hc) as (Hi' & Hf' & Hb). split; [done|]. split; [congruence|]. rewrite Hf in Hb. simpl. lia.
Qed.

(** A descriptor that is ready has a callback that returns and gets on, if [accept] works. *)
Lemma ready_gets_on s i junk rep :
  inv s -> i ∈ watchers s -> fd_ready (listener_fd s) (kern s) i = true -> len junk = buffer_size ->
  exists s', step (Callback i true junk rep) s = Ok (Some s') /\ work (kern s') < work (kern s).
Proof.
  intros Hi Hw Hr Hj. assert (Hs : exists s', step (Callback i true junk rep) s = Ok (Some s')).
  { simpl. rewrite decide_True by done. rewrite Hr. case_decide as Hc.
    - subst i. destruct (ready_listener s Hr) as (p & bl & Hb).
      rewrite (echo_accept_takes true s p bl Hi Hb). by eexists.
    - destruct (ready_conn s i Hr Hc) as (p & Hp & Hrp).
      rewrite (process_echoes i junk rep s p Hi Hc Hj Hp Hrp). by eexists. }
  destruct Hs as [s' E]. exists s'. split; [done|].
  destruct (callback_work (Callback i true junk rep) s s' Hi Hj E) as (_ & _ & H). simpl in H. lia.
Qed.

Lemma setup_inv fd b l s : main_setup fd b l = Some s -> inv s.
Proof.
  unfold main_setup. case_decide; [done|]. destruct b, l; try done. intros [= <-].
  split; simpl; [set_solver|done|lia].
Qed.

Lemma runs_inv ls s s' : inv s -> Forall label_ok ls -> runs step s ls s' -> inv s'.
Proof.
  intros Hi Hc Hr. revert Hi Hc. induction Hr as [s|s l s1 ls s' E _ IH]; intros Hi Hc; [done|].
  apply Forall_cons in Hc as [Hl Hc]. apply IH; [|done]. by eapply step_does_inv.
Qed.

Lemma runs_listener ls s1 s2 :
  runs step s1 ls s2 -> inv s1 -> Forall label_ok ls -> listener_fd s2 = listener_fd s1.
Proof.
  induction 1 as [|s l s1 ls s' E _ IH]; intros Hi Hc; [done|]. apply Forall_cons in Hc as [Hl Hc].
  destruct (step_does_inv l s s1 Hi Hl E) as (Hi1 & <- & _). by apply IH.
Qed.

(** ** Theorems *)

(** From the start of [ev_run], whatever the network does and in whatever order
    libev calls the callbacks, every callback of a ready descriptor returns (no read
    blocks, no access is outside [buffer]) and does to the kernel what [echo] and
    [take_peer] say: a connection is accepted and watched, at most 1023 bytes are
    read and sent back, an ended one is closed and its watcher freed, a reset one is
    left for the next call; the watchers are always those of the open descriptors. *)
Theorem echo_step_refines fd b lis s0 ls s l :
  main_setup fd b lis = Some s0 -> Forall label_ok ls -> runs step s0 ls s -> label_ok l ->
  watchers s = {[fd]} ∪ dom (k_conns (kern s)) /\
  (step l s = Ok None \/ exists s', step l s = Ok (Some s') /\ kern s' = step_spec l s).
Proof.
  intros Hm Hls Hr Hl. assert (Hi : inv s) by (eapply runs_inv; [by eapply setup_inv|done|done]).
  split.
  - destruct Hi as [-> _ _]. rewrite (runs_listener _ _ _ Hr (setup_inv _ _ _ _ Hm) Hls).
    unfold main_setup in Hm. case_decide; [done|]. destruct b, lis; try done. by injection Hm as <-.
  - destruct (step_does l s Hi Hl) as [|(s' & E & _ & _ & H)]; [by left|]. right. by exists s'.
Qed.

(** C29. What a peer sends comes back in order and complete: along any run in which it
    neither closes nor resets its connection and [write] takes what it is given, what
    has been sent to it followed by what is not yet read is what it was followed by
    all that has arrived since; and when [ev_run] has nothing to do, everything has
    been sent. *)
Theorem echo_server_echoes fd b lis s0 ls0 s i p ls s' :
  main_setup fd b lis = Some s0 -> Forall label_ok ls0 -> runs step s0 ls0 s ->
  k_conns (kern s) !! i = Some p -> p_fin p = false -> p_err p = false ->
  Forall (calm i) ls -> runs step s ls s' ->
  exists q, k_conns (kern s') !! i = Some q /\
    p_out q ++ p_in q = (p_out p ++ p_in p) ++ concat (map (arrives i) ls) /\
    (waiting s' -> p_out q = (p_out p ++ p_in p) ++ concat (map (arrives i) ls)).
Proof.
  intros Hm Hl0 Hr0 Hp Hf He Hc Hr. assert (Hi : inv s) by (eapply runs_inv; [by eapply setup_inv|done|done]).
  destruct (run_account i ls s s' p Hi Hc Hr Hp (conj Hf He)) as (Hi' & q & Hq & [Hqf Hqe] & Ha).
  exists q. split; [done|]. split; [exact Ha|]. intros Hw.
  pose proof (waiting_read s' i q Hi' Hw Hq) as Hr'. unfold ready in Hr'. rewrite Hqf, Hqe in Hr'. simpl in Hr'.
  rewrite orb_false_r, negb_false_iff, bool_decide_eq_true in Hr'.
  unfold account in Ha. rewrite Hr' in Ha. by rewrite app_nil_r in Ha.
Qed.

(** C30. Left alone by the network, [ev_run] comes to rest unless [accept] keeps
    failing: no more callbacks run than there are bytes to read, connections to
    accept, ends to notice and failures of [accept]; as long as a watched descriptor
    is ready its callback returns and leaves less to do, and at rest no connection has
    anything to read and the queue of the listener is empty.  A failure of [accept]
    changes nothing, so that the callback is called again at once: without
    descriptors left the loop spins.  Supposed is that [write], on these blocking
    sockets, returns and raises no SIGPIPE, as when the peers read and none is reset. *)
Theorem echo_server_drains fd b lis s0 ls0 s ls s' :
  main_setup fd b lis = Some s0 -> Forall label_ok ls0 -> runs step s0 ls0 s ->
  Forall callback ls -> runs step s ls s' ->
  len ls <= work (kern s) + sum_over (accept_failed fd) ls /\
  (forall i junk rep, i ∈ watchers s' -> fd_ready fd (kern s') i = true -> len junk = buffer_size ->
     exists s'', step (Callback i true junk rep) s' = Ok (Some s'') /\ work (kern s'') < work (kern s')) /\
  (waiting s' -> k_backlog (kern s') = [] /\ forall i p, k_conns (kern s') !! i = Some p -> ready p = false) /\
  (forall junk rep, fd_ready fd (kern s') fd = true -> step (Callback fd false junk rep) s' = Ok (Some s')).
Proof.
  intros Hm Hl0 Hr0 Hc Hr. pose proof (setup_inv _ _ _ _ Hm) as Hi0.
  assert (Hi : inv s) by (eapply runs_inv; [exact Hi0|done|done]).
  assert (Hfd : listener_fd s = fd).
  { rewrite (runs_listener _ _ _ Hr0 Hi0 Hl0). unfold main_setup in Hm. case_decide; [done|].
    destruct b, lis; try done. by injection Hm as <-. }
  destruct (callbacks_bounded ls s s' Hi Hc Hr) as (Hi' & Hf' & Hb). pose proof (work_nonneg (kern s')).
  rewrite Hfd in *. split_and!; [lia| | |].
  - intros i junk rep Hw Hrd Hj. apply ready_gets_on; [done|done|by rewrite Hf'|done].
  - intros Hw. split; [|intros i p; by apply waiting_read].
    specialize (Hw (listener_fd s')). destruct Hi' as [Hwt _ _]. rewrite Hwt in Hw.
    specialize (Hw ltac:(set_solver)). unfold fd_ready in Hw. rewrite decide_True in Hw by done.
    by apply negb_false_iff, bool_decide_eq_true in Hw.
  - intros junk rep Hrd. simpl. rewrite Hf'. rewrite decide_True by (rewrite (i_watch _ Hi'), Hf'; set_solver).
    rewrite Hrd, decide_True by done. rewrite <- Hf' in Hrd. destruct (ready_listener s' Hrd) as (p & bl & Hbl).
    rewrite (echo_accept_takes false s' p bl Hi' Hbl). unfold take_peer. rewrite Hbl.
    rewrite <- (i_watch _ Hi'). by destruct s'.
Qed.

(** ** Witnesses *)

Definition junk0 : bytes := replicate 1024 NUL.
Definition took : wreply := WAccept 2000.
Definition echo_before : list label := [Net NConnect; Callback 3 true junk0 took].
Definition echo_run : list label := [Net (NData (Fd 4) (str "hi")); Callback 4 true junk0 took].
Definition echo_start : St := mkSt 3 K_start {[3]}.
Definition echo_mid : St := mkSt 3 (mkK true [] {[4 := Peer_new]} ∅ []) {[4; 3]}.
Definition echo_end : St :=
  mkSt 3 (mkK true [] {[4 := Peer [] false false (str "hi")]} {[4]} [(4, 2, str "hi")]) {[4; 3]}.

Lemma echo_before_ok : Forall label_ok echo_before.
Proof. repeat constructor. Qed.

Lemma echo_before_runs : runs step echo_start echo_before echo_mid.
Proof. apply execute_runs. vm_compute. reflexivity. Qed.

Lemma echo_runs : runs step echo_mid echo_run echo_end.
Proof. apply execute_runs. vm_compute. reflexivity. Qed.

Lemma echo_run_calm : Forall (calm 4) echo_run.
Proof.
  apply Forall_cons. split; [exact I|]. apply Forall_singleton. split; [done|]. exists 2000%nat.
  split; [done|]. apply Nat.leb_le. vm_compute. reflexivity.
Qed.

Lemma echo_step_refines_witness :
  runs step echo_start echo_before echo_mid /\
  watchers echo_mid = {[3]} ∪ dom (k_conns (kern echo_mid)).
Proof.
  split; [exact echo_before_runs|].
  exact (proj1 (echo_step_refines 3 true true echo_start echo_before echo_mid (Net NConnect)
    eq_refl echo_before_ok echo_before_runs I)).
Defined.

Lemma echo_server_echoes_witness :
  exists q, k_conns (kern echo_end) !! 4 = Some q /\ p_out q ++ p_in q = str "hi".
Proof.
  destruct (echo_server_echoes 3 true true echo_start echo_before echo_mid 4 Peer_new echo_run echo_end
    eq_refl echo_before_ok echo_before_runs eq_refl eq_refl eq_refl echo_run_calm echo_runs) as (q & H1 & H2 & _).
  exists q. split; [exact H1|exact H2].
Defined.

Definition echo_loaded : St := put_kern (net_event (NData (Fd 4) (str "hi")) (kern echo_mid)) echo_mid.

Lemma echo_loaded_runs : runs step echo_loaded [Callback 4 true junk0 took] echo_end.
Proof. apply execute_runs. vm_compute. reflexivity. Qed.

Lemma echo_server_drains_witness :
  1 <= work (kern echo_loaded) /\
  (forall i p, k_conns (kern echo_end) !! i = Some p -> ready p = false).
Proof.
  destruct (echo_server_drains 3 true true echo_start (echo_before ++ [Net (NData (Fd 4) (str "hi"))]) echo_loaded
    [Callback 4 true junk0 took] echo_end) as (H1 & _ & H2 & _); [reflexivity| | | |exact echo_loaded_runs|].
  - apply Forall_app. split; [exact echo_before_ok|]. by repeat constructor.
  - eapply lsteps_app; [exact echo_before_runs|]. econstructor; [reflexivity|constructor].
  - by repeat constructor.
  - split; [exact H1|]. apply H2. intros i Hi. unfold echo_end in Hi. simpl in Hi.
    apply elem_of_union in Hi as [Hi|Hi]; apply elem_of_singleton in Hi as ->; vm_compute; reflexivity.
Defined.
