(* ===== verification/LineQueues.v ===== *)
(** * Lines from one process to another
      ([linux_program/ch14_semaphore_shareMemory_mq])

    The producer and the consumer of shared memory ([02_shm_producer.c],
    [02_shm_consumer.c]) and those of a message queue ([03_mq_producer.c],
    [03_mq_consumer.c]) as step relations.  The producer sends the lines of its
    standard input up to one that begins with "end"; the consumer prints what it
    gets.  A step is one access to what is shared; copying a text is one step. *)

From S2P Require Import Prelude CppInt Sockets Turns.

Definition NL : Ascii.ascii := "010"%char.
Definition BUFSIZ : Z := 8192.

(** [fgets(buffer, n, stdin)] reads up to a line end or [n - 1] characters; [None]
    at the end of the file, when [buffer] keeps what it holds. *)
Fixpoint line_of (n : nat) (input : bytes) : bytes :=
  match n, input with
  | S n, c :: input => c :: (if decide (c = NL) then [] else line_of n input)
  | _, _ => []
  end.
Definition fgets (n : Z) (input : bytes) : option (bytes * bytes) :=
  match input with
  | [] => None
  | _ => let l := line_of (Z.to_nat (n - 1)) input in Some (l, drop (length l) input)
  end.

(** [strncmp(text, "end", 3) == 0] *)
Definition is_end (text : bytes) : bool := bool_decide (take 3 text = str "end").

(** Lines that fit an array of [n] characters and hold no NUL; those that will be read. *)
Definition printable (n : Z) (l : bytes) : Prop := len l < n /\ NUL ∉ l.
Fixpoint lines (k : nat) (input : bytes) : list bytes :=
  match k with
  | O => []
  | S k => match fgets BUFSIZ input with Some (l, rest) => l :: lines k rest | None => [] end
  end.
Definition input_ok (n : Z) (input : bytes) : Prop := forall k, Forall (printable n) (lines k input).



(** An array that starts with the string [l]. *)
Definition carries (m l : bytes) : Prop := exists rest, m = l ++ NUL :: rest /\ NUL ∉ l.



(** ** What a producer has read and what it sends *)

Definition not_end (l : bytes) : Prop := is_end l = false.









(** ** Shared memory *)

Module Shm.

Definition TEXT_SZ : Z := 2048.

Inductive ppc : Type := PWait | PGets | PCopy | PFlag | PTest | PDone.
Inductive cpc : Type := CReset | CPoll | CPrint | CClear | CTest | CDone.

Record St := mkSt {
  written_by_you : Z; some_text : bytes;           (* struct shared_use_st *)
  p_pc : ppc; p_in : bytes; buffer : bytes;        (* the producer, its input *)
  c_pc : cpc; out : list bytes;                    (* the consumer, what it has printed *)
  sent : list bytes;                               (* the texts it has taken to send *)
  typed : list bytes;                              (* the lines it has read *)
}.

(** [strncpy(some_text, buffer, TEXT_SZ)]: no terminator when the text is too long. *)
Definition strncpy (s : bytes) (n : nat) : bytes := take n s ++ replicate (n - length s) NUL.

Definition producer (s : St) : outcome (option St) :=
  let goto p := mkSt (written_by_you s) (some_text s) p (p_in s) (buffer s) (c_pc s) (out s) (sent s) (typed s) in
  let got line rest lines :=
    mkSt (written_by_you s) (some_text s) PCopy rest line (c_pc s) (out s) (sent s ++ [line]) lines in
  match p_pc s with
  | PWait => Ok (if decide (written_by_you s = 1) then None else Some (goto PGets))
  | PGets =>
      match fgets BUFSIZ (p_in s) with
      | Some (line, rest) => Ok (Some (got line rest (typed s ++ [line])))
      | None => if decide (sent s = []) then UB else Ok (Some (got (buffer s) [] (typed s)))
      end
  | PCopy =>
      Ok (Some (mkSt (written_by_you s) (strncpy (buffer s) (Z.to_nat TEXT_SZ)) PFlag (p_in s) (buffer s)
                  (c_pc s) (out s) (sent s) (typed s)))
  | PFlag => Ok (Some (mkSt 1 (some_text s) PTest (p_in s) (buffer s) (c_pc s) (out s) (sent s) (typed s)))
  | PTest => Ok (Some (goto (if is_end (buffer s) then PDone else PWait)))
  | PDone => Ok None
  end.

(** [printf("%s")] of a text without terminator reads behind the segment. *)
Definition consumer (s : St) : outcome (option St) :=
  let goto c := mkSt (written_by_you s) (some_text s) (p_pc s) (p_in s) (buffer s) c (out s) (sent s) (typed s) in
  match c_pc s with
  | CReset => Ok (Some (mkSt 0 (some_text s) (p_pc s) (p_in s) (buffer s) CPoll (out s) (sent s) (typed s)))
  | CPoll => Ok (if decide (written_by_you s = 0) then None else Some (goto CPrint))
  | CPrint =>
      t ← cstr (some_text s);
      Ok (Some (mkSt (written_by_you s) (some_text s) (p_pc s) (p_in s) (buffer s) CClear (out s ++ [t]) (sent s) (typed s)))
  | CClear => Ok (Some (mkSt 0 (some_text s) (p_pc s) (p_in s) (buffer s) CTest (out s) (sent s) (typed s)))
  | CTest => Ok (Some (goto (if is_end (some_text s) then CDone else CPoll)))
  | CDone => Ok None
  end.

Inductive who : Type := Producer | Consumer.
Definition step (w : who) (s : St) : outcome (option St) :=
  match w with Producer => producer s | Consumer => consumer s end.

(** A new segment is filled with zeros. *)
Definition start (c : cpc) (input : bytes) : St :=
  mkSt 0 (replicate (Z.to_nat TEXT_SZ) NUL) PWait input [] c [] [] [].

(** ** The invariant *)

(** Whether the last line typed has not been printed. *)
Definition fresh (s : St) : bool :=
  match p_pc s with
  | PCopy | PFlag => true
  | _ => bool_decide (written_by_you s = 1) && match c_pc s with CClear => false | _ => true end
  end.

Definition mem_text (b : bytes) : bytes := strncpy b (Z.to_nat TEXT_SZ).

Record inv (s : St) : Prop := {
  i_flag : written_by_you s = 0 \/ written_by_you s = 1;
  i_prod : match p_pc s with PGets | PCopy | PFlag => written_by_you s = 0 | _ => True end;
  i_cons : match c_pc s with
           | CReset => False
           | CPrint | CClear => written_by_you s = 1
           | CPoll => written_by_you s = 0 -> is_end (buffer s) = false \/ p_pc s = PCopy \/ p_pc s = PFlag
           | CTest => True
           | CDone => is_end (buffer s) = true
           end;
  i_lines : sent s = out s ++ (if fresh s then [buffer s] else []);
  i_text : match p_pc s with
           | PCopy => is_end (some_text s) = false
           | _ => some_text s = mem_text (buffer s)
           end;
  i_buf : printable TEXT_SZ (buffer s) /\ input_ok TEXT_SZ (p_in s) /\ (sent s = [] -> p_in s <> []);
  i_end : match p_pc s with
          | PWait | PGets => is_end (buffer s) = false
          | PDone => is_end (buffer s) = true
          | PCopy => c_pc s <> CDone
          | _ => True
          end;
}.












End Shm.

(** ** A message queue *)

Module Mq.

Definition MAX_TEXT : Z := 512.

Inductive ppc : Type := PGets | PCopy | PSend | PTest | PDone | PFailed.
Inductive cpc : Type := CRecv | CPrint | CTest | CRemove | CDone.

Record St := mkSt {
  queue : option (list bytes);                     (* [None]: removed *)
  p_pc : ppc; p_in : bytes; buffer : bytes; p_text : bytes;
  c_pc : cpc; c_text : bytes; out : list bytes;
  sent : list bytes;
  typed : list bytes;
}.

Section mq.
(** How many messages the kernel lets wait. *)
Context (capacity : nat).

Definition producer (s : St) : outcome (option St) :=
  let goto p := mkSt (queue s) p (p_in s) (buffer s) (p_text s) (c_pc s) (c_text s) (out s) (sent s) (typed s) in
  let got line rest lines :=
    mkSt (queue s) PCopy rest line (p_text s) (c_pc s) (c_text s) (out s) (sent s ++ [line]) lines in
  match p_pc s with
  | PGets =>
      match fgets BUFSIZ (p_in s) with
      | Some (line, rest) => Ok (Some (got line rest (typed s ++ [line])))
      | None => if decide (sent s = []) then UB else Ok (Some (got (buffer s) [] (typed s)))
      end
  | PCopy =>
      text ← strcpy (buffer s) (p_text s);
      Ok (Some (mkSt (queue s) PSend (p_in s) (buffer s) text (c_pc s) (c_text s) (out s) (sent s) (typed s)))
  | PSend =>
      Ok match queue s with
         | None => Some (goto PFailed)
         | Some q =>
             if decide (length q < capacity)%nat
             then Some (mkSt (Some (q ++ [p_text s])) PTest (p_in s) (buffer s) (p_text s)
                          (c_pc s) (c_text s) (out s) (sent s) (typed s))
             else None
         end
  | PTest => Ok (Some (goto (if is_end (buffer s) then PDone else PGets)))
  | PDone | PFailed => Ok None
  end.

(** [msgrcv] stores the message at the start of [some_text]. *)
Definition consumer (s : St) : outcome (option St) :=
  let next q c text o := mkSt q (p_pc s) (p_in s) (buffer s) (p_text s) c text o (sent s) (typed s) in
  match c_pc s with
  | CRecv =>
      match queue s with
      | Some (m :: q) => text ← buf_write 0 m (c_text s); Ok (Some (next (Some q) CPrint text (out s)))
      | _ => Ok None
      end
  | CPrint => t ← cstr (c_text s); Ok (Some (next (queue s) CTest (c_text s) (out s ++ [t])))
  | CTest => Ok (Some (next (queue s) (if is_end (c_text s) then CRemove else CRecv) (c_text s) (out s)))
  | CRemove => Ok (Some (next None CDone (c_text s) (out s)))
  | CDone => Ok None
  end.

Inductive who : Type := Producer | Consumer.
Definition step (w : who) (s : St) : outcome (option St) :=
  match w with Producer => producer s | Consumer => consumer s end.

(** The arrays hold what they happen to. *)
Definition start (input p_junk c_junk : bytes) : St :=
  mkSt (Some []) PGets input [] p_junk CRecv c_junk [] [] [].

(** ** The invariant *)

Record inv (s : St) : Prop := {
  i_flow : exists cur waiting sending,
    sent s = out s ++ cur ++ waiting ++ sending /\
    Forall2 (fun m l => carries m l /\ len m = MAX_TEXT) (default [] (queue s)) waiting /\
    sending = (match p_pc s with PCopy | PSend => [buffer s] | _ => [] end) /\
    match c_pc s with CPrint => exists l, cur = [l] /\ carries (c_text s) l | _ => cur = [] end;
  i_last : Forall not_end (removelast (sent s));
  i_prod : match p_pc s with
           | PGets => Forall not_end (sent s)
           | PCopy | PTest => last (sent s) = Some (buffer s)
           | PSend => last (sent s) = Some (buffer s) /\ carries (p_text s) (buffer s)
           | PDone => last (sent s) = Some (buffer s) /\ is_end (buffer s) = true
           | PFailed => False
           end;
  i_cons : match c_pc s with
           | CRecv | CPrint => Forall not_end (out s)
           | CTest => exists o l, out s = o ++ [l] /\ carries (c_text s) l
           | CRemove | CDone => exists o l, out s = o ++ [l] /\ is_end l = true
           end;
  i_queue : queue s = None <-> c_pc s = CDone;
  i_size : len (p_text s) = MAX_TEXT /\ MAX_TEXT <= len (c_text s);
  i_buf : input_ok MAX_TEXT (p_in s) /\ (sent s <> [] -> printable MAX_TEXT (buffer s)) /\ (sent s = [] -> p_in s <> []);
}.












End mq.
End Mq.

(** ** Theorems *)



(** ** What can go wrong *)

Definition two_lines : bytes := str "a" ++ NL :: str "end" ++ [NL].

(** The consumer tests the text after it has given the flag back: it may test the
    next line, and leave without printing it. *)
Definition shm_race : list Shm.who :=
  replicate 5 Shm.Producer ++ replicate 3 Shm.Consumer ++ replicate 5 Shm.Producer ++ [Shm.Consumer].

Lemma shm_last_line_lost :
  match execute Shm.step shm_race (Shm.start Shm.CPoll two_lines) with
  | Some s => (Shm.p_pc s, Shm.c_pc s, Shm.out s, Shm.typed s)
  | None => (Shm.PWait, Shm.CPoll, [], [])
  end = (Shm.PDone, Shm.CDone, [str "a" ++ [NL]], [str "a" ++ [NL]; str "end" ++ [NL]]).
Proof. vm_compute. reflexivity. Qed.

(** A consumer that starts after the producer throws its first line away. *)
Lemma shm_first_line_lost :
  match execute Shm.step (replicate 4 Shm.Producer ++ [Shm.Consumer]) (Shm.start Shm.CReset two_lines) with
  | Some s => (Shm.written_by_you s, Shm.c_pc s, Shm.typed s)
  | None => (1, Shm.CDone, [])
  end = (0, Shm.CPoll, [str "a" ++ [NL]]).
Proof. vm_compute. reflexivity. Qed.

(** Input without "end": the last line is sent and printed twice. *)
Lemma shm_line_twice :
  match execute Shm.step (replicate 5 Shm.Producer ++ replicate 4 Shm.Consumer ++ replicate 5 Shm.Producer ++
                          replicate 4 Shm.Consumer) (Shm.start Shm.CPoll (str "a")) with
  | Some s => (Shm.out s, Shm.typed s)
  | None => ([], [])
  end = ([str "a"; str "a"], [str "a"]).
Proof. vm_compute. reflexivity. Qed.

(** A line that is longer than the message overflows it. *)
Lemma mq_overflow capacity q input l p_junk c c_junk o t tr :
  Mq.MAX_TEXT <= len l -> len p_junk = Mq.MAX_TEXT ->
  Mq.step capacity Mq.Producer (Mq.mkSt q Mq.PCopy input l p_junk c c_junk o t tr) = UB.
Proof.
  intros Hl Hp. simpl. unfold Mq.producer. simpl. unfold strcpy, buf_write.
  rewrite decide_False; [done|]. rewrite length_app. simpl. lia.
Qed.

(** ** Witnesses *)



