(* ===== verification/ThreadLines.v ===== *)
(** * Lines from one thread to another ([linux_program/ch12_thread])

    In [02_semaphore.c] and [03_pthread_mutex.c] [main] reads lines into
    [work_area] and a thread prints their lengths, until a line begins with "end".
    The first uses a semaphore, the second a mutex.  [work_area] is the string in
    the array; reading a line into it is one step. *)

From S2P Require Import Prelude CppInt Sockets Turns LineQueues.

Definition WORK_SIZE : Z := 1024.

(** [printf("%ld", strlen(work_area) - 1)] *)
Definition chars (work_area : bytes) : Z := s64 (u64 (len work_area - 1)).

(** [fgets(work_area, WORK_SIZE, stdin)] *)
Definition fill (work_area input : bytes) : bytes * bytes :=
  match fgets WORK_SIZE input with Some r => r | None => (work_area, []) end.

(** ** With a semaphore *)

Module Sem.

Inductive mpc : Type := MTest | MGets | MPost | MJoin | MEnd.
Inductive wpc : Type := WWait | WTest | WPrint | WEnd.

Record St := mkSt {
  bin_sem : Z; work_area : bytes;
  m_pc : mpc; input : bytes;
  w_pc : wpc; out : list Z;
  typed : list bytes;                 (* what [work_area] has held *)
}.

Definition main_step (s : St) : option St :=
  let goto m := mkSt (bin_sem s) (work_area s) m (input s) (w_pc s) (out s) (typed s) in
  match m_pc s with
  | MTest => Some (goto (if is_end (work_area s) then MJoin else MGets))
  | MGets =>
      let '(l, rest) := fill (work_area s) (input s) in
      Some (mkSt (bin_sem s) l MPost rest (w_pc s) (out s) (typed s ++ [l]))
  | MPost => Some (mkSt (bin_sem s + 1) (work_area s) MTest (input s) (w_pc s) (out s) (typed s))
  | MJoin => match w_pc s with WEnd => Some (goto MEnd) | _ => None end
  | MEnd => None
  end.

Definition thread_function (s : St) : option St :=
  let goto w := mkSt (bin_sem s) (work_area s) (m_pc s) (input s) w (out s) (typed s) in
  match w_pc s with
  | WWait =>
      if decide (0 < bin_sem s)
      then Some (mkSt (bin_sem s - 1) (work_area s) (m_pc s) (input s) WTest (out s) (typed s)) else None
  | WTest => Some (goto (if is_end (work_area s) then WEnd else WPrint))
  | WPrint =>
      Some (mkSt (bin_sem s) (work_area s) (m_pc s) (input s) WWait (out s ++ [chars (work_area s)]) (typed s))
  | WEnd => None
  end.

Inductive who : Type := Main | Worker.
Definition step (w : who) (s : St) : outcome (option St) :=
  Ok match w with Main => main_step s | Worker => thread_function s end.

Definition start (input : bytes) : St := mkSt 0 [] MTest input WWait [] [].

(** ** The invariant *)

(** The threads that have read "end" and not yet left are still woken. *)
Definition woken (s : St) : Prop := 1 <= bin_sem s \/ w_pc s = WTest \/ w_pc s = WEnd.

Record inv (s : St) : Prop := {
  i_sem : 0 <= bin_sem s;
  i_main : match m_pc s with
           | MTest => is_end (work_area s) = true -> woken s
           | MGets => is_end (work_area s) = false
           | MPost => True
           | MJoin => is_end (work_area s) = true /\ woken s
           | MEnd => w_pc s = WEnd
           end;
  i_work : w_pc s = WEnd -> is_end (work_area s) = true;
  i_sync : bin_sem s + len (out s) + (match w_pc s with WWait => 0 | _ => 1 end) +
           (match m_pc s with MPost => 1 | _ => 0 end) = len (typed s);
  i_out : Forall (fun n => exists l, l ∈ typed s /\ n = chars l) (out s);
  i_area : m_pc s = MPost \/ w_pc s <> WWait \/ typed s <> [] -> work_area s ∈ typed s;
}.

Lemma sem_start_inv input : inv (start input).
Proof. split; simpl; try done; try lia. intros [|[|]]; done. Qed.

Lemma sem_main_inv s s' : inv s -> main_step s = Some s' -> inv s'.
Proof.
  intros [H1 H2 H3 H4 H5 H6] E. destruct s as [k wa m i w o ty]; unfold woken in *; simpl in *.
  unfold main_step in E. simpl in E. destruct m; simpl in *; try discriminate.
  - injection E as <-. destruct (is_end wa) eqn:Ee; split; simpl; rewrite ?Ee; auto;
      first [by split; [done|exact (H2 eq_refl)]|intros [|[|]]; by auto].
  - destruct (fill wa i) as [l r] eqn:Ef. injection E as <-. split; simpl; auto.
    + intros Hw. specialize (H3 Hw). congruence.
    + rewrite length_app. simpl. lia.
    + eapply Forall_impl; [exact H5|]. intros n (l0 & Hl & ->). exists l0. split; [|done]. apply elem_of_app. by left.
    + intros _. apply elem_of_app. right. by left.
  - injection E as <-. split; unfold woken; simpl; auto; try lia.
  - destruct w; try discriminate. injection E as <-. split; simpl; auto.
Qed.

Lemma sem_worker_inv s s' : inv s -> thread_function s = Some s' -> inv s'.
Proof.
  intros [H1 H2 H3 H4 H5 H6] E. destruct s as [k wa m i w o ty]; unfold woken in *; simpl in *.
  unfold thread_function in E. simpl in E. destruct w; simpl in *; try discriminate.
  - case_decide as Hk; [|discriminate]. injection E as <-. split; unfold woken; simpl; auto; try lia; try done.
    + destruct m; simpl in *; rewrite ?Ee; intuition (auto; congruence).
    + intros _. apply H6. right. right. intros ->. simpl in H4. pose proof (len o). destruct m; simpl in H4; lia.
  - injection E as <-. destruct (is_end wa) eqn:Ee; split; unfold woken; simpl; auto; try done.
    + destruct m; simpl in *; rewrite ?Ee; intuition (auto; congruence).
    + destruct m; simpl in *; rewrite ?Ee; intuition (auto; congruence).
  - injection E as <-. assert (Hin : wa ∈ ty) by (apply H6; auto).
    split; unfold woken; simpl; auto; try done.
    + destruct m; simpl in *; intuition (auto; congruence).
    + rewrite length_app. simpl. lia.
    + apply Forall_app. split; [done|]. apply Forall_singleton. by exists wa.
Qed.

Lemma sem_lines_step_inv w s s' : inv s -> step w s = Ok (Some s') -> inv s'.
Proof. intros Hi [= E]. destruct w; [by eapply sem_main_inv|by eapply sem_worker_inv]. Qed.

(** Nobody waits for ever. *)
Lemma sem_lines_stuck s : inv s -> (forall w, step w s = Ok None) -> m_pc s = MEnd /\ w_pc s = WEnd.
Proof.
  intros [H1 H2 H3 H4 H5 H6] Hs.
  assert (Hm : main_step s = None) by (pose proof (Hs Main) as E; by injection E).
  assert (Hw : thread_function s = None) by (pose proof (Hs Worker) as E; by injection E).
  destruct s as [k wa m i w o ty]; unfold woken in *; simpl in *.
  unfold main_step in Hm. unfold thread_function in Hw. simpl in *. destruct m; simpl in *; try discriminate; try done.
  - by destruct (fill wa i).
  - destruct w; simpl in *; try discriminate. case_decide; [discriminate|]. destruct H2 as [_ [|[|]]]; [lia|done|done].
Qed.
End Sem.

(** ** With a mutex *)

Module Mtx.

Inductive who : Type := Main | Worker.
#[export] Instance who_eq_dec : EqDecision who.
Proof. solve_decision. Defined.

(** [MLook]: the inner loop has the mutex and looks at the area; [WLoop]: the
    condition of [while (work_area[0] == '\0')]. *)
Inductive mpc : Type := MLock | MTest | MGets | MUnlock | MRelock | MLook | MRelease | MLast | MJoin | MEnd.
Inductive wpc : Type := WLock | WTest | WPrint | WZero | WUnlock | WLoop | WUnlock2 | WRelock | WExit | WZero2 | WUnlock3 | WEnd.

Record St := mkSt {
  mtx : option who; work_area : bytes; time_to_exit : bool;
  m_pc : mpc; input : bytes;
  w_pc : wpc; out : list Z;
}.

(** A mutex of the default type: who locks it waits while it is held, and only the
    holder may unlock it. *)
Definition lock (t : who) (s : St) : option St :=
  match mtx s with
  | None => Some (mkSt (Some t) (work_area s) (time_to_exit s) (m_pc s) (input s) (w_pc s) (out s))
  | Some _ => None
  end.
Definition unlock (t : who) (s : St) : outcome St :=
  if decide (mtx s = Some t)
  then Ok (mkSt None (work_area s) (time_to_exit s) (m_pc s) (input s) (w_pc s) (out s)) else UB.

Definition set_m (m : mpc) (s : St) : St :=
  mkSt (mtx s) (work_area s) (time_to_exit s) m (input s) (w_pc s) (out s).
Definition set_w (w : wpc) (s : St) : St :=
  mkSt (mtx s) (work_area s) (time_to_exit s) (m_pc s) (input s) w (out s).

Definition main_step (s : St) : outcome (option St) :=
  match m_pc s with
  | MLock => Ok (set_m MTest <$> lock Main s)
  | MTest => Ok (Some (set_m (if time_to_exit s then MLast else MGets) s))
  | MGets =>
      let '(l, rest) := fill (work_area s) (input s) in
      Ok (Some (mkSt (mtx s) l (time_to_exit s) MUnlock rest (w_pc s) (out s)))
  | MUnlock => s ← unlock Main s; Ok (Some (set_m MRelock s))
  | MRelock => Ok (set_m MLook <$> lock Main s)
  | MLook => Ok (Some (set_m (if decide (work_area s = []) then MTest else MRelease) s))
  | MRelease => s ← unlock Main s; Ok (Some (set_m MRelock s))
  | MLast => s ← unlock Main s; Ok (Some (set_m MJoin s))
  | MJoin => Ok (match w_pc s with WEnd => Some (set_m MEnd s) | _ => None end)
  | MEnd => Ok None
  end.

Definition thread_function (s : St) : outcome (option St) :=
  match w_pc s with
  | WLock => Ok (set_w WTest <$> lock Worker s)
  | WTest => Ok (Some (set_w (if is_end (work_area s) then WExit else WPrint) s))
  | WPrint =>
      Ok (Some (mkSt (mtx s) (work_area s) (time_to_exit s) (m_pc s) (input s) WZero (out s ++ [chars (work_area s)])))
  | WZero => Ok (Some (mkSt (mtx s) [] (time_to_exit s) (m_pc s) (input s) WUnlock (out s)))
  | WUnlock => s ← unlock Worker s; Ok (Some (set_w WLoop s))
  | WLoop => Ok (Some (set_w (if decide (work_area s = []) then WUnlock2 else WTest) s))
  | WUnlock2 => s ← unlock Worker s; Ok (Some (set_w WRelock s))
  | WRelock => Ok (set_w WLoop <$> lock Worker s)
  | WExit => Ok (Some (mkSt (mtx s) (work_area s) true (m_pc s) (input s) WZero2 (out s)))
  | WZero2 => Ok (Some (mkSt (mtx s) [] (time_to_exit s) (m_pc s) (input s) WUnlock3 (out s)))
  | WUnlock3 => s ← unlock Worker s; Ok (Some (set_w WEnd s))
  | WEnd => Ok None
  end.

Definition step (t : who) (s : St) : outcome (option St) :=
  match t with Main => main_step s | Worker => thread_function s end.

Definition start (input : bytes) : St := mkSt None [] false MLock input WLock [].

(** The thread alone. *)
Fixpoint alone (n : nat) (s : St) : outcome (option St) :=
  match n with
  | O => Ok (Some s)
  | S n => match thread_function s with Ok (Some s) => alone n s | r => r end
  end.

(** The mutex is given back after the first line, and never taken again: from
    then on the thread has left [WUnlock] without holding it. *)
Record inv (s : St) : Prop := {
  i_main : match m_pc s with
           | MTest | MGets | MUnlock | MLook | MRelease | MLast => mtx s = Some Main
           | _ => mtx s <> Some Main
           end;
  i_first : match w_pc s with
            | WLock => mtx s <> Some Worker /\ out s = []
            | WPrint => mtx s = Some Worker -> out s = []
            | WTest => mtx s = Some Worker -> out s = []
            | WZero | WUnlock => mtx s = Some Worker -> len (out s) = 1
            | WLoop | WUnlock2 => mtx s <> Some Worker /\ out s <> []
            | WRelock => False
            | WExit | WZero2 | WUnlock3 => mtx s = Some Worker -> out s = []
            | WEnd => out s = [] /\ mtx s <> Some Worker
            end;
}.

Lemma mtx_start_inv input : inv (start input).
Proof. by split. Qed.

Lemma unlock_inv t s s' : unlock t s = Ok s' ->
  mtx s = Some t /\ s' = mkSt None (work_area s) (time_to_exit s) (m_pc s) (input s) (w_pc s) (out s).
Proof. unfold unlock. case_decide; [|done]. by intros [= <-]. Qed.

Lemma mtx_main_inv s s' : inv s -> main_step s = Ok (Some s') -> inv s'.
Proof.
  intros [H1 H2] E. destruct s as [k wa te m i w o]; simpl in *. unfold main_step, lock, set_m in E. simpl in E.
  destruct m; simpl in *.
  all: try (destruct k as [[]|]; simpl in E; try discriminate).
  all: try (destruct (unlock _ _) eqn:Eu in E; try discriminate; apply unlock_inv in Eu as [Eu ->]; simpl in *).
  all: repeat match type of E with
       | context [if ?b then _ else _] => destruct b
       | context [let '(_, _) := ?p in _] => destruct p
       | context [match ?x with WEnd => _ | _ => _ end] => destruct x
       end; try discriminate.
  all: injection E as <-; split; simpl; auto; try done.
  all: try destruct w; simpl in *; intuition (auto; congruence).
Qed.

Lemma mtx_worker_inv s s' : inv s -> thread_function s = Ok (Some s') -> inv s'.
Proof.
  intros [H1 H2] E. destruct s as [k wa te m i w o]; simpl in *. unfold thread_function, lock, set_w in E. simpl in E.
  destruct w; simpl in *; try done;
    try (destruct (unlock _ _) eqn:Eu in E; try discriminate; apply unlock_inv in Eu as [Eu ->]; simpl in *; subst k);
    try (destruct k as [k|]; [discriminate|]; simpl in E); try discriminate; injection E as <-; split; simpl;
    try exact H1; try (by destruct m; congruence).
  - intros _. by destruct H2.
  - by destruct (is_end wa).
  - intros Hk. by rewrite (H2 Hk).
  - exact H2.
  - split; [done|]. intros ->. by specialize (H2 eq_refl).
  - destruct H2 as [Hk Ho]. case_decide; simpl; [by split|done].
  - by destruct H2.
  - exact H2.
  - exact H2.
  - split; [by apply H2|done].
Qed.

Lemma mtx_step_inv w s s' : inv s -> step w s = Ok (Some s') -> inv s'.
Proof. intros Hi E. destruct w; [by eapply mtx_main_inv|by eapply mtx_worker_inv]. Qed.

(** Without the mutex every way of the thread ends in an unlock. *)
Lemma alone_without k wa te m i w o :
  k <> Some Worker ->
  match w with WLock | WRelock | WEnd => False | _ => True end ->
  alone 5 (mkSt k wa te m i w o) = UB.
Proof.
  intros Hk Hw.
  assert (Hu : forall wa te w o, unlock Worker (mkSt k wa te m i w o) = UB)
    by (intros; unfold unlock; by rewrite decide_False).
  destruct w; try done; simpl; unfold thread_function, set_w; simpl; rewrite ?Hu; try done;
    repeat (case_match; simplify_eq; simpl in *; rewrite ?Hu in *; try done).
Qed.

Lemma alone_more n k s : alone n s = UB -> alone (n + k) s = UB.
Proof.
  revert s. induction n as [|n IH]; intros s; simpl; [done|].
  destruct (thread_function s) as [[s'|]| |]; try done. apply IH.
Qed.

Lemma mtx_alone_undefined s : inv s -> out s <> [] -> w_pc s <> WEnd /\ alone 8 s = UB.
Proof.
  intros [H1 H2] Ho. split; [intros E; rewrite E in H2; by destruct H2|].
  destruct s as [k wa te m i w o]; simpl in H1, H2, Ho.
  destruct (decide (k = Some Worker)) as [->|Hk].
  - assert (Hz : forall wa o', alone 6 (mkSt (Some Worker) wa te m i WUnlock o') = UB).
    { intros wa' o'. pose proof (alone_without None wa' te m i WLoop o' ltac:(done) I) as E.
      rewrite <- E. cbn [alone]. unfold thread_function at 1. cbn [w_pc]. unfold unlock. by rewrite decide_True. }
    destruct w; try (by destruct H2); try (by destruct Ho; apply H2).
    by apply (alone_more 6 2).
  - apply (alone_more 5 3), alone_without; [done|].
    destruct w; try done; by destruct H2.
Qed.
End Mtx.

(** ** Theorems *)

(** With the semaphore nobody hangs: whatever the interleaving, one of the two
    can move until both are over (the last post follows the "end", so the thread that
    took it sees it); every number printed is that of a line that was typed, and
    there are fewer of them than lines. *)
Theorem semaphore_lines_end input ls s :
  runs Sem.step (Sem.start input) ls s ->
  ((forall w, Sem.step w s = Ok None) -> Sem.m_pc s = Sem.MEnd /\ Sem.w_pc s = Sem.WEnd) /\
  Forall (fun n => exists l, l ∈ Sem.typed s /\ n = chars l) (Sem.out s) /\
  len (Sem.out s) <= len (Sem.typed s) /\
  (Sem.w_pc s = Sem.WEnd -> len (Sem.out s) < len (Sem.typed s)).
Proof.
  intros Hr. assert (Hi : Sem.inv s).
  { eapply (runs_invariant Sem.step); [|by apply Sem.sem_start_inv|exact Hr].
    intros l s1 s2. apply Sem.sem_lines_step_inv. }
  split; [by apply Sem.sem_lines_stuck|]. destruct Hi as [H1 _ _ H4 H5 _].
  split; [done|]. split; [destruct (Sem.w_pc s), (Sem.m_pc s); lia|].
  intros E. rewrite E in H4. destruct (Sem.m_pc s); lia.
Qed.

(** C33. With the mutex the thread is wrong as soon as it has printed a line: it gives the
    mutex back and never has it again, so that in every state after its first line it
    is not over, and the steps it makes next, whatever the area holds, lead within
    eight to an unlock of a mutex it does not hold, which is undefined. *)
Theorem mutex_thread_undefined input ls s :
  runs Mtx.step (Mtx.start input) ls s -> Mtx.out s <> [] ->
  Mtx.w_pc s <> Mtx.WEnd /\ Mtx.alone 8 s = UB.
Proof.
  intros Hr Ho. apply Mtx.mtx_alone_undefined; [|done].
  eapply (runs_invariant Mtx.step); [|by apply Mtx.mtx_start_inv|exact Hr].
  intros l s1 s2. apply Mtx.mtx_step_inv.
Qed.

(** ** Witnesses *)

Definition sem_schedule : list Sem.who :=
  let m := Sem.Main in let w := Sem.Worker in [m; m; m; w; w; w; m; m; m; m; w; w; m].

Lemma semaphore_lines_end_witness :
  exists s, runs Sem.step (Sem.start two_lines) sem_schedule s /\ Sem.out s = [1] /\
    Sem.m_pc s = Sem.MEnd /\ len (Sem.out s) <= len (Sem.typed s).
Proof.
  assert (E : exists s, execute Sem.step sem_schedule (Sem.start two_lines) = Some s /\
    Sem.out s = [1] /\ Sem.m_pc s = Sem.MEnd) by (vm_compute; eexists; auto).
  destruct E as (s & E & Ho & Hm). apply execute_runs in E. exists s. split; [exact E|].
  split; [exact Ho|]. split; [exact Hm|].
  exact (proj1 (proj2 (proj2 (semaphore_lines_end two_lines sem_schedule s E)))).
Defined.

Definition mtx_schedule : list Mtx.who :=
  let m := Mtx.Main in let w := Mtx.Worker in [m; m; m; m; w; w; w; w; w].

Lemma mutex_thread_undefined_witness :
  exists s, runs Mtx.step (Mtx.start two_lines) mtx_schedule s /\ Mtx.out s = [1] /\ Mtx.alone 8 s = UB.
Proof.
  assert (E : exists s, execute Mtx.step mtx_schedule (Mtx.start two_lines) = Some s /\ Mtx.out s = [1])
    by (vm_compute; eexists; auto).
  destruct E as (s & E & Ho). apply execute_runs in E. exists s. split; [exact E|]. split; [exact Ho|].
  apply (mutex_thread_undefined two_lines mtx_schedule s E). rewrite Ho. discriminate.
Defined.
