(* ===== verification/SelectEcho.v ===== *)
(** * Two more servers on [select]
      ([linux_program/ch15_socket/08_server_use_select.c], [socket/02_server_select.c])

    Both are loops over the descriptors [select] reports, here as step relations
    over the sockets of [Sockets]: a step of the server is a system call with the
    code around it, and the network may act between any two.  [Plus] answers every
    byte with the next one; [Greet] greets a connection, keeps it in a table of 30
    and sends back what it reads.  The sockets of both are blocking and neither
    handles [SIGPIPE]: a write to a peer that does not read waits, and one to a
    connection that is reset ends the process. *)

From S2P Require Import Prelude CppInt Sys Sockets Turns Peers.

Definition FD_SETSIZE : Z := 1024.

(** An [fd_set] of [FD_SETSIZE] bits. *)
Definition FD_SET (fd : Z) (s : gset Z) : outcome (gset Z) :=
  if decide (0 <= fd < FD_SETSIZE) then Ok ({[fd]} ∪ s) else UB.
Definition FD_CLR (fd : Z) (s : gset Z) : outcome (gset Z) :=
  if decide (0 <= fd < FD_SETSIZE) then Ok (s ∖ {[fd]}) else UB.
Definition FD_ISSET (fd : Z) (s : gset Z) : outcome bool :=
  if decide (0 <= fd < FD_SETSIZE) then Ok (bool_decide (fd ∈ s)) else UB.

Lemma FD_SET_ok fd s : 0 <= fd < FD_SETSIZE -> FD_SET fd s = Ok ({[fd]} ∪ s).
Proof. intros. unfold FD_SET. by rewrite decide_True. Qed.
Lemma FD_CLR_ok fd s : 0 <= fd < FD_SETSIZE -> FD_CLR fd s = Ok (s ∖ {[fd]}).
Proof. intros. unfold FD_CLR. by rewrite decide_True. Qed.
Lemma FD_ISSET_ok fd s : 0 <= fd < FD_SETSIZE -> FD_ISSET fd s = Ok (bool_decide (fd ∈ s)).
Proof. intros. unfold FD_ISSET. by rewrite decide_True. Qed.

(** [select] on a set, below [nfds], without a timeout: the ready descriptors; [None]
    when it fails, as on a closed descriptor, and the empty set while it waits. *)
Definition select (l nfds : Z) (ok : bool) (fds : gset Z) (k : K) : option (gset Z) :=
  if ok && bool_decide (set_Forall (fun i => fd_open l k i = true) fds)
  then Some (filter (fun i => i < nfds /\ fd_ready l k i = true) fds) else None.

(** What a step of the server is told: whether [select] and [accept] succeed, what an
    uninitialised byte holds, and what a write to each descriptor meets. *)
Record told := mkTold { t_ok : bool; t_junk : Ascii.ascii; t_write : Z -> wreply }.

(** The signal's default action ends the process, and with it the run. *)
Definition SIGPIPE : exn := ExnNamed "SIGPIPE".

(** [write], and [send] without flags, on a blocking socket: where a socket that does
    not block fails with [EWOULDBLOCK] the call waits, which is [None], and with
    [EPIPE] comes [SIGPIPE].  Other errors and short counts are returned, and neither
    program does more than report them. *)
Definition blocking_send (i : Z) (data : bytes) (rep : wreply) (k : K) : outcome (option K) :=
  let go := '(_, k) ← send i data rep k; Ok (Some k) in
  match rep with
  | WFail e =>
      if decide (e = EWOULDBLOCK) then Ok None else if decide (e = EPIPE) then Throw SIGPIPE else go
  | WAccept _ => go
  end.

Definition waits (rep : wreply) : Prop := rep = WFail EWOULDBLOCK.
Definition kills (rep : wreply) : Prop := rep = WFail EPIPE.

Lemma blocking_send_cases i d rep k :
  (waits rep /\ blocking_send i d rep k = Ok None) \/
  (kills rep /\ blocking_send i d rep k = Throw SIGPIPE) \/
  blocking_send i d rep k = Ok (Some (on_conns (alter (peer_sent (kwrite rep d).2) i) k)).
Proof.
  unfold waits, kills, blocking_send. destruct rep as [e|n]; simpl; [|auto].
  case_decide; [subst; auto|]. case_decide; [subst; auto|]. auto.
Qed.

(** Every call goes through: none fails, and no write waits. *)
Definition willing (t : told) : Prop := t_ok t = true /\ forall fd, ~ waits (t_write t fd).

Inductive label : Type := Net (e : nevent) | Server (t : told).

Lemma ready_entry l k i : fd_ready l k i = true -> i <> l -> exists p, k_conns k !! i = Some p /\ ready p = true.
Proof.
  unfold fd_ready. intros H Hi. rewrite decide_False in H by done. destruct (k_conns k !! i) as [p|]; [by exists p|done].
Qed.

Lemma ready_queue l k : fd_ready l k l = true -> exists p bl, k_backlog k = p :: bl.
Proof. unfold fd_ready. rewrite decide_True by done. destruct (k_backlog k) as [|p bl]; [done|]. by exists p, bl. Qed.

Lemma fd_ready_kept l k k' i :
  (i = l -> k_backlog k = k_backlog k') -> (i <> l -> k_conns k !! i = k_conns k' !! i) ->
  fd_ready l k i = true -> fd_ready l k' i = true.
Proof. intros Hb Hc. unfold fd_ready. case_decide; [by rewrite Hb|by rewrite Hc]. Qed.

Lemma dom_update (m : gmap Z peer) i p q : m !! i = Some p -> dom (<[i := q]> m) = dom m.
Proof. intros H. apply dom_insert_lookup_L. by exists p. Qed.

(** ** The next byte *)

Module Plus.

(** [Visit fd]: the loop is at [fd]; [Read], [Write]: it is about to read from or
    write to it.  [char ch] lives through one round. *)
Inductive pc : Type := Select | Visit (fd : Z) | Read (fd : Z) | Write (fd : Z) | Failed.

#[export] Instance plus_pc_eq_dec : EqDecision pc.
Proof. solve_decision. Defined.

Record St := mkSt {
  server_sockfd : Z; kern : K;
  readfds : gset Z; testfds : gset Z;
  ch : Ascii.ascii;
  at_ : pc;
}.

Definition goto (p : pc) (s : St) : St :=
  mkSt (server_sockfd s) (kern s) (readfds s) (testfds s) (ch s) p.

(** [ch++] *)
Definition plus (c : Ascii.ascii) : Ascii.ascii := Ascii.ascii_of_N ((Ascii.N_of_ascii c + 1) mod 256).

(** [ioctl(fd, FIONREAD, &nread)] *)
Definition fionread (fd : Z) (k : K) : outcome Z :=
  match k_conns k !! fd with Some p => Ok (if p_err p then 0 else len (p_in p)) | None => UB end.

Definition server (t : told) (s : St) : outcome (option St) :=
  match at_ s with
  | Select =>
      match select (server_sockfd s) FD_SETSIZE (t_ok t) (readfds s) (kern s) with
      | None => Ok (Some (goto Failed s))
      | Some rd =>
          if decide (rd = ∅) then Ok None
          else Ok (Some (mkSt (server_sockfd s) (kern s) (readfds s) rd (t_junk t) (Visit 0)))
      end
  | Visit fd =>
      if decide (fd < FD_SETSIZE) then
        b ← FD_ISSET fd (testfds s);
        if (b : bool) then
          if decide (fd = server_sockfd s) then
            '(client_sockfd, k) ← accept (server_sockfd s + 1) (t_ok t) (kern s);
            r ← FD_SET client_sockfd (readfds s);
            Ok (Some (mkSt (server_sockfd s) k r (testfds s) (ch s) (Visit (fd + 1))))
          else
            nread ← fionread fd (kern s);
            if decide (nread = 0) then
              '(_, k) ← close fd (kern s);
              r ← FD_CLR fd (readfds s);
              Ok (Some (mkSt (server_sockfd s) k r (testfds s) (ch s) (Visit (fd + 1))))
            else Ok (Some (goto (Read fd) s))
        else Ok (Some (goto (Visit (fd + 1)) s))
      else Ok (Some (goto Select s))
  | Read fd =>
      '(_, d, k) ← recv fd 1 (kern s);
      let c := match d with [] => ch s | c :: _ => c end in
      Ok (Some (mkSt (server_sockfd s) k (readfds s) (testfds s) (plus c) (Write fd)))
  | Write fd =>
      w ← blocking_send fd [ch s] (t_write t fd) (kern s);
      Ok (option_map (fun k => mkSt (server_sockfd s) k (readfds s) (testfds s) (ch s) (Visit (fd + 1))) w)
  | Failed => Ok None
  end.

(** With the process its connections are gone. *)
Definition step (l : label) (s : St) : outcome (option St) :=
  match l with
  | Net e =>
      if decide (at_ s = Failed) then Ok None
      else Ok (Some (mkSt (server_sockfd s) (net_event e (kern s)) (readfds s) (testfds s) (ch s) (at_ s)))
  | Server t => server t s
  end.

(** From the first round on, when the listening socket is descriptor [fd]. *)
Definition start (fd : Z) : outcome St :=
  r ← FD_SET fd ∅;
  Ok (mkSt fd K_start r ∅ NUL Select).

(** ** The invariant *)

(** The descriptors of the round that are still to be visited, and their state. *)
Definition next (p : pc) : Z :=
  match p with Select | Failed => FD_SETSIZE | Visit fd => fd | Read fd | Write fd => fd + 1 end.

Record inv (s : St) : Prop := {
  i_l : 0 <= server_sockfd s < FD_SETSIZE;
  i_listener : k_conns (kern s) !! server_sockfd s = None;
  i_open : readfds s = {[server_sockfd s]} ∪ dom (k_conns (kern s));
  i_range : forall i, i ∈ readfds s -> 0 <= i < FD_SETSIZE;
  i_next : match at_ s with
           | Visit fd => 0 <= fd <= FD_SETSIZE
           | Read fd | Write fd => 0 <= fd < FD_SETSIZE
           | _ => True
           end;
  i_todo : forall i, i ∈ testfds s -> next (at_ s) <= i < FD_SETSIZE ->
             fd_ready (server_sockfd s) (kern s) i = true;
  i_here : match at_ s with
           | Read fd =>
               exists p, k_conns (kern s) !! fd = Some p /\ (p_in p <> [] \/ p_err p = true)
           | Write fd => is_Some (k_conns (kern s) !! fd)
           | _ => True
           end;
}.

(** [accept] fails, or its descriptor does not fit into an [fd_set]. *)
Definition bad_accept (t : told) (s : St) : Prop :=
  at_ s = Visit (server_sockfd s) /\ server_sockfd s ∈ testfds s /\
  (t_ok t = false \/ FD_SETSIZE <= fresh_fd (server_sockfd s + 1) (k_conns (kern s))).

Lemma plus_start_inv fd s : start fd = Ok s -> inv s.
Proof.
  unfold start, FD_SET. case_decide; [|done]. intros [= <-]. split; simpl; try done; set_solver.
Qed.

Lemma plus_net_inv e s : inv s ->
  inv (mkSt (server_sockfd s) (net_event e (kern s)) (readfds s) (testfds s) (ch s) (at_ s)).
Proof.
  intros [H1 H2 H3 H4 H5 H6 H7]. split; simpl; try done.
  - apply not_elem_of_dom. rewrite net_event_dom. by apply not_elem_of_dom.
  - by rewrite net_event_dom.
  - intros i Hi Hn. by apply net_event_ready, H6.
  - destruct (at_ s); try done.
    + destruct H7 as (p & Hp & Hq). exists (hears fd e p). split; [by apply net_hears|].
      destruct e as [|[j|] d|[j|]|[j|]]; simpl; try done; case_decide; try done;
        unfold peer_data, peer_fin, peer_reset; destruct p as [d0 f0 e0 o0], f0, e0; simpl in *; auto;
        destruct Hq as [Hq|]; [|done]; left; by destruct d0.
    + apply elem_of_dom. rewrite net_event_dom. by apply elem_of_dom.
Qed.

(** ** The steps of the server, case by case *)

Section moves.
Context (t : told) (s : St).

Inductive moves : St -> Prop :=
  | m_failed : at_ s = Select -> t_ok t = false -> moves (goto Failed s)
  | m_select rd : at_ s = Select -> rd <> ∅ -> t_ok t = true ->
      rd = filter (fun i => i < FD_SETSIZE /\ fd_ready (server_sockfd s) (kern s) i = true) (readfds s) ->
      moves (mkSt (server_sockfd s) (kern s) (readfds s) rd (t_junk t) (Visit 0))
  | m_end : at_ s = Visit FD_SETSIZE -> moves (goto Select s)
  | m_skip fd : at_ s = Visit fd -> fd < FD_SETSIZE -> fd ∉ testfds s -> moves (goto (Visit (fd + 1)) s)
  | m_accept p bl : at_ s = Visit (server_sockfd s) -> k_backlog (kern s) = p :: bl ->
      let fd := fresh_fd (server_sockfd s + 1) (k_conns (kern s)) in
      t_ok t = true -> fd < FD_SETSIZE -> server_sockfd s ∈ testfds s ->
      moves (mkSt (server_sockfd s) (enter fd p bl (kern s)) ({[fd]} ∪ readfds s) (testfds s) (ch s)
               (Visit (server_sockfd s + 1)))
  | m_close fd p : at_ s = Visit fd -> fd <> server_sockfd s -> fd ∈ testfds s -> fd < FD_SETSIZE ->
      k_conns (kern s) !! fd = Some p -> (p_err p = true \/ (p_in p = [] /\ p_fin p = true)) ->
      moves (mkSt (server_sockfd s) (closed fd (kern s)) (readfds s ∖ {[fd]}) (testfds s) (ch s) (Visit (fd + 1)))
  | m_data fd p : at_ s = Visit fd -> fd <> server_sockfd s -> fd ∈ testfds s -> fd < FD_SETSIZE ->
      k_conns (kern s) !! fd = Some p -> p_err p = false -> p_in p <> [] -> moves (goto (Read fd) s)
  | m_read fd c d p : at_ s = Read fd -> k_conns (kern s) !! fd = Some p -> p_err p = false -> p_in p = c :: d ->
      moves (mkSt (server_sockfd s) (on_conns (<[fd := Peer d (p_fin p) false (p_out p)]>) (kern s)) (readfds s)
               (testfds s) (plus c) (Write fd))
  | m_reset fd p : at_ s = Read fd -> k_conns (kern s) !! fd = Some p -> p_err p = true ->
      moves (mkSt (server_sockfd s) (on_conns (<[fd := Peer [] true false (p_out p)]>) (kern s)) (readfds s)
               (testfds s) (plus (ch s)) (Write fd))
  | m_write fd p : at_ s = Write fd -> k_conns (kern s) !! fd = Some p ->
      let sent := (kwrite (t_write t fd) [ch s]).2 in
      moves (mkSt (server_sockfd s) (on_conns (alter (peer_sent sent) fd) (kern s)) (readfds s) (testfds s) (ch s)
               (Visit (fd + 1))).
End moves.

Lemma all_open s : inv s -> set_Forall (fun i => fd_open (server_sockfd s) (kern s) i = true) (readfds s).
Proof.
  intros Hi i. rewrite (i_open s Hi), elem_of_union, elem_of_singleton, elem_of_dom. unfold fd_open. intros [->|H].
  - by rewrite bool_decide_eq_true_2.
  - rewrite (bool_decide_eq_true_2 (is_Some _)) by done. apply orb_true_r.
Qed.

Lemma server_moves t s :
  inv s ->
  (bad_accept t s /\ server t s = UB) \/
  (server t s = Ok None /\ (at_ s = Failed \/ (at_ s = Select /\ t_ok t = true /\
     forall i, i ∈ readfds s -> fd_ready (server_sockfd s) (kern s) i = false) \/
     exists fd, at_ s = Write fd /\ waits (t_write t fd))) \/
  (server t s = Throw SIGPIPE /\ exists fd, at_ s = Write fd /\ kills (t_write t fd)) \/
  exists s', server t s = Ok (Some s') /\ moves t s s'.
Proof.
  intros Hi. pose proof (all_open s Hi) as Ho. destruct Hi as [H1 H2 H3 H4 H5 H6 H7]. unfold server.
  destruct (at_ s) as [|fd|fd|fd|] eqn:Ep; simpl in *.
  - right. unfold select. rewrite (bool_decide_eq_true_2 (set_Forall _ _)) by exact Ho. rewrite andb_true_r.
    destruct (t_ok t) eqn:Et; [|right; right; eexists; split; [done|by constructor]].
    case_decide as Hrd.
    + left. split; [done|]. right; left. split_and!; [done..|]. intros i Hi.
      destruct (fd_ready (server_sockfd s) (kern s) i) eqn:E; [|done]. exfalso.
      apply (not_elem_of_empty (C := gset Z) i). rewrite <- Hrd. apply elem_of_filter. split; [|done].
      split; [by apply H4|done].
    + right; right. eexists. split; [done|by apply m_select].
  - case_decide as Hlt.
    2:{ right; right; right. eexists. split; [done|]. apply m_end. rewrite Ep. f_equal. lia. }
    rewrite FD_ISSET_ok by lia. cbn. case_bool_decide as Hin.
    2:{ right; right; right. eexists. split; [done|by apply m_skip]. }
    specialize (H6 fd Hin ltac:(lia)). case_decide as Hl.
    + subst fd. destruct (ready_queue _ _ H6) as (p & bl & Hb). unfold accept, getS, mbind, M_bind, throwM, mret, M_ret, modify.
      destruct (t_ok t) eqn:Et.
      * rewrite Hb. cbn. unfold FD_SET. pose proof (fresh_fd_range (server_sockfd s + 1) (k_conns (kern s))).
        case_decide as Hr.
        -- right; right; right. eexists. split; [done|]. apply m_accept; try done. lia.
        -- left. split; [|done]. split; [done|]. split; [done|]. right. lia.
      * left. cbn. split; [|done]. split; [done|]. split; [done|]. by left.
    + right; right; right. destruct (ready_entry _ _ _ H6 Hl) as (p & Hp & Hr). unfold fionread. rewrite Hp. cbn.
      assert (Hin' : fd ∈ readfds s) by (rewrite H3; apply elem_of_union_r, elem_of_dom; by exists p).
      case_decide as Hn.
      * rewrite FD_CLR_ok by (by apply H4). cbn. eexists. split; [done|]. eapply m_close; [done..|].
        unfold ready in Hr. destruct (p_err p); [by left|]. right. destruct (p_in p); [|simpl in Hn; lia]. done.
      * eexists. split; [done|]. destruct (p_err p) eqn:He; [done|]. eapply m_data; try done. by intros Hd; rewrite Hd in Hn.
  - right; right; right. destruct H7 as (p & Hp & Hq). unfold recv, getS, mbind, M_bind. rewrite Hp.
    destruct (p_err p) eqn:He.
    + eexists. split; [done|by apply m_reset].
    + destruct Hq as [Hq|]; [|done]. destruct (p_in p) as [|c d] eqn:Hd; [done|].
      rewrite bool_decide_eq_false_2 by done. eexists. split; [done|]. by eapply m_read.
  - right. destruct H7 as (p & Hp).
    destruct (blocking_send_cases fd [ch s] (t_write t fd) (kern s)) as [[Hw ->]|[[Hw ->]| ->]]; simpl.
    + left. split; [done|]. right; right. by exists fd.
    + right; left. split; [done|]. by exists fd.
    + right; right. eexists. split; [done|]. by eapply m_write.
  - right; left. split; [done|by left].
Qed.

Lemma moves_inv t s s' : inv s -> moves t s s' -> inv s' /\ server_sockfd s' = server_sockfd s.
Proof.
  intros [H1 H2 H3 H4 H5 H6 H7] Hm. split; [|by destruct Hm].
  assert (Hafter : forall fd, next (at_ s) = fd \/ next (at_ s) = fd + 1 -> 0 <= fd < FD_SETSIZE ->
            forall k', k_backlog k' = k_backlog (kern s) ->
              (forall i, i <> fd -> k_conns (kern s) !! i = k_conns k' !! i) ->
              forall i, i ∈ testfds s -> fd + 1 <= i < FD_SETSIZE -> fd_ready (server_sockfd s) k' i = true).
  { intros fd Hn Hfd k' Hb Hc i Hi Hr. eapply fd_ready_kept; [| |apply (H6 i Hi); lia]; intros _;
      [done|apply Hc; lia]. }
  destruct Hm as [E Et|rd E Hrd Et Hf|E|fd E Hlt Hn|p bl E Hb fd Et Hlt Hl|fd p E Hne Hin Hlt Hp Hq
                 |fd p E Hne Hin Hlt Hp He Hd|fd c d p E Hp He Hd|fd p E Hp He|fd p E Hp sent];
    rewrite E in *; simpl in *.
  - split; simpl; try done; lia.
  - split; simpl; try done. subst rd. intros i Hi _. by apply elem_of_filter in Hi as [[_ ?] _].
  - split; simpl; try done; lia.
  - split; simpl; try done; [lia|]. intros i Hi Hr. apply H6; [done|lia].
  - pose proof (fresh_fd_range (server_sockfd s + 1) (k_conns (kern s))) as Hf.
    pose proof (fresh_fd_unused (server_sockfd s + 1) (k_conns (kern s))) as Hu. fold fd in Hf, Hu. clearbody fd.
    split; simpl; try done.
    + rewrite lookup_insert_ne by lia. done.
    + rewrite dom_insert_L, H3. by rewrite !(assoc_L (∪)), (comm_L (∪) {[fd]}).
    + intros i. rewrite elem_of_union, elem_of_singleton. intros [->|Hi]; [lia|by apply H4].
    + lia.
    + intros i Hi Hr. eapply fd_ready_kept; [| |apply (H6 i Hi); lia]; [simpl; lia|].
      intros Hne. simpl. rewrite lookup_insert_ne; [done|]. intros <-.
      destruct (ready_entry _ _ _ (H6 fd Hi ltac:(lia)) Hne) as (q & Hq & _). congruence.
  - split; simpl; try done.
    + by rewrite lookup_delete_ne.
    + rewrite dom_delete_L, H3, difference_union_distr_l_L. f_equal. apply difference_disjoint_L. set_solver.
    + intros i Hi. apply H4. set_solver.
    + lia.
    + apply Hafter; [by left|lia|done|]. intros i Hi. simpl. by rewrite lookup_delete_ne.
  - split; simpl; try done; [lia| |].
    + intros i Hi Hr. apply H6; [done|lia].
    + exists p. split; [done|]. by left.
  - assert (fd <> server_sockfd s) by congruence. split; simpl; try done.
    + by rewrite lookup_insert_ne.
    + by rewrite (dom_update _ _ p).
    + apply Hafter; [by right|lia|done|]. intros i Hi. simpl. by rewrite lookup_insert_ne.
    + rewrite lookup_insert_eq. by eexists.
  - assert (fd <> server_sockfd s) by congruence. split; simpl; try done.
    + by rewrite lookup_insert_ne.
    + by rewrite (dom_update _ _ p).
    + apply Hafter; [by right|lia|done|]. intros i Hi. simpl. by rewrite lookup_insert_ne.
    + rewrite lookup_insert_eq. by eexists.
  - assert (fd <> server_sockfd s) by congruence. split; simpl; try done.
    + by rewrite lookup_alter_ne.
    + by rewrite dom_alter_L.
    + lia.
    + apply Hafter; [by right|lia|done|]. intros i Hi. simpl. by rewrite lookup_alter_ne.
Qed.

Lemma plus_step_inv l s s' : inv s -> step l s = Ok (Some s') -> inv s' /\ server_sockfd s' = server_sockfd s.
Proof.
  intros Hi E. destruct l as [e|t]; simpl in E; [case_decide; [done|]; injection E as <-; split; [by apply plus_net_inv|done]|].
  destruct (server_moves t s Hi) as [[_ E']|[[E' _]|[[E' _]|(s1 & E' & Hm)]]]; rewrite E in E'; try done.
  injection E' as <-. by apply (moves_inv t s).
Qed.
(** ** A connection along a run *)

(** A byte read from connection [i] and not yet written. *)
Definition pending (i : Z) (s : St) : bytes :=
  match at_ s with Write fd => if decide (fd = i) then [ch s] else [] | _ => [] end.

(** All that peer [i] gets, if nothing more arrives. *)
Definition owed (i : Z) (s : St) (p : peer) : bytes := p_out p ++ pending i s ++ map plus (p_in p).

(** [i] is not reset, and [write] takes its byte; to the others it may do anything. *)
Definition kind (i : Z) (l : label) : Prop :=
  match l with
  | Net (NReset (Fd j)) => j <> i
  | Net _ => True
  | Server t => exists n, t_write t i = WAccept (S n)
  end.

(** The bytes that arrive for [i]; [fin]: the peer has closed its side. *)
Definition ends (i : Z) (e : nevent) : bool :=
  match e with NFin (Fd j) => bool_decide (j = i) | _ => false end.
Fixpoint arrived (i : Z) (fin : bool) (ls : list label) : bytes :=
  match ls with
  | [] => []
  | Net e :: ls => (if fin then [] else sent_by i e) ++ arrived i (fin || ends i e) ls
  | Server _ :: ls => arrived i fin ls
  end.

Definition ends_label (i : Z) (l : label) : bool := match l with Net e => ends i e | Server _ => false end.

Lemma net_owed i e p :
  kind i (Net e) -> p_err p = false ->
  p_err (hears i e p) = false /\ p_fin (hears i e p) = p_fin p || ends i e /\
  p_out (hears i e p) = p_out p /\ p_in (hears i e p) = p_in p ++ (if p_fin p then [] else sent_by i e).
Proof.
  intros Hk He. destruct p as [d f e0 o]; simpl in *; subst e0.
  assert (Hsame : false = false /\ f = f || false /\ o = o /\ d = d ++ (if f then [] else [])).
  { rewrite orb_false_r. by destruct f; rewrite app_nil_r. }
  destruct e as [|[j|m] d'|[j|m]|[j|m]]; simpl; try exact Hsame.
  - case_decide; [|exact Hsame]. unfold peer_data. simpl. destruct f; simpl; [by rewrite app_nil_r|done].
  - unfold peer_fin. simpl. case_decide; simpl.
    + rewrite bool_decide_eq_true_2 by done. rewrite orb_true_r. by destruct f; rewrite app_nil_r.
    + rewrite bool_decide_eq_false_2 by done. exact Hsame.
  - simpl in Hk. by rewrite decide_False.
Qed.

Lemma moves_owed i t s s' p :
  inv s -> moves t s s' -> kind i (Server t) -> k_conns (kern s) !! i = Some p -> p_err p = false ->
  (exists q, k_conns (kern s') !! i = Some q /\ p_err q = false /\ p_fin q = p_fin p /\ owed i s' q = owed i s p) \/
  (k_conns (kern s') !! i = None /\ p_fin p = true /\ p_out p = owed i s p).
Proof.
  intros Hi Hm (n & Hw) Hp He. unfold owed, pending.
  destruct Hm as [E Et|rd E Hrd Et Hf|E|fd E Hlt Hn|p0 bl E Hb fd Et Hlt Hl|fd p0 E Hne Hin Hlt Hp0 Hq
                 |fd p0 E Hne Hin Hlt Hp0 He0 Hd|fd c d p0 E Hp0 He0 Hd|fd p0 E Hp0 He0|fd p0 E Hp0 sent];
    rewrite E in *; simpl in *; try (left; by exists p).
  - left. exists p. rewrite lookup_insert_ne; [done|]. intros Hfr.
    pose proof (fresh_fd_unused (server_sockfd s + 1) (k_conns (kern s))). subst fd. congruence.
  - destruct (decide (fd = i)) as [->|Hfd].
    + right. rewrite lookup_delete_eq. rewrite Hp in Hp0. injection Hp0 as <-.
      destruct Hq as [|[Hq Hfin]]; [congruence|]. rewrite Hq. split; [done|]. split; [done|]. by rewrite app_nil_r.
    + left. exists p. by rewrite lookup_delete_ne.
  - destruct (decide (fd = i)) as [->|Hfd].
    + left. rewrite Hp in Hp0. injection Hp0 as <-. rewrite lookup_insert_eq. eexists. split; [done|]. simpl. by rewrite Hd.
    + left. exists p. by rewrite lookup_insert_ne.
  - destruct (decide (fd = i)) as [->|Hfd]; [congruence|]. left. exists p. by rewrite lookup_insert_ne.
  - destruct (decide (fd = i)) as [->|Hfd].
    + left. rewrite lookup_alter_eq, Hp. simpl. eexists. split; [done|]. simpl. subst sent. rewrite Hw. simpl.
      rewrite take_nil. simpl. split; [done|]. split; [done|]. by rewrite <- app_assoc.
    + left. exists p. by rewrite lookup_alter_ne.
Qed.
Lemma step_owed i l s s' p :
  inv s -> kind i l -> step l s = Ok (Some s') -> k_conns (kern s) !! i = Some p -> p_err p = false ->
  (exists q, k_conns (kern s') !! i = Some q /\ p_err q = false /\ p_fin q = p_fin p || ends_label i l /\
     owed i s' q = owed i s p ++ map plus (arrived i (p_fin p) [l])) \/
  (k_conns (kern s') !! i = None /\ p_fin p = true /\ p_out p = owed i s p).
Proof.
  intros Hi Hk E Hp He. destruct l as [e|t].
  - left. simpl in E. case_decide; [done|]. injection E as <-. destruct (net_owed i e p Hk He) as (H1 & H2 & H3 & H4).
    exists (hears i e p). simpl. split; [by apply net_hears|]. split; [done|]. split; [done|].
    unfold owed, pending. simpl. rewrite H3, H4, map_app, app_nil_r, !app_assoc. done.
  - destruct (server_moves t s Hi) as [[_ E']|[[E' _]|[[E' _]|(s1 & E' & Hm)]]]; simpl in E; rewrite E in E'; try done.
    injection E' as <-. destruct (moves_owed i t s s' p Hi Hm Hk Hp He) as [(q & H1 & H2 & H3 & H4)|H]; [|by right].
    left. exists q. simpl. rewrite orb_false_r, app_nil_r. done.
Qed.

Lemma arrived_cons i fin l ls : arrived i fin (l :: ls) = arrived i fin [l] ++ arrived i (fin || ends_label i l) ls.
Proof. destruct l; simpl; [by rewrite app_nil_r|by rewrite orb_false_r]. Qed.

(** Up to where the connection is closed, if it is. *)
Lemma run_owed i ls s s' p :
  inv s -> Forall (kind i) ls -> runs step s ls s' -> k_conns (kern s) !! i = Some p -> p_err p = false ->
  exists ls1 ls2 s1 q, ls = ls1 ++ ls2 /\ runs step s ls1 s1 /\ runs step s1 ls2 s' /\ inv s1 /\
    k_conns (kern s1) !! i = Some q /\ owed i s1 q = owed i s p ++ map plus (arrived i (p_fin p) ls1) /\
    (ls2 = [] \/
     exists l ls3 s2, ls2 = l :: ls3 /\ step l s1 = Ok (Some s2) /\ k_conns (kern s2) !! i = None /\
       p_fin q = true /\ p_out q = owed i s1 q).
Proof.
  intros Hi Hk Hr. revert p Hi Hk. induction Hr as [s|s l s1 ls s' E Hr IH]; intros p Hi Hk Hp He.
  - exists [], [], s, p. simpl. rewrite app_nil_r. split_and!; try done; [by constructor..|by left].
  - apply Forall_cons in Hk as [Hl Hk]. destruct (plus_step_inv l s s1 Hi E) as [Hi1 _].
    destruct (step_owed i l s s1 p Hi Hl E Hp He) as [(q & Hq & Heq & Hfq & Ho)|(Hn & Hf & Ho)].
    + destruct (IH q Hi1 Hk Hq Heq) as (ls1 & ls2 & s2 & r & -> & R1 & R2 & Hi2 & Hr2 & Ho2 & Hend).
      exists (l :: ls1), ls2, s2, r. split; [done|]. split; [by econstructor|]. split; [done|]. split; [done|].
      split; [done|]. split; [|done]. by rewrite arrived_cons, map_app, Ho2, Ho, Hfq, app_assoc.
    + exists [], (l :: ls), s, p. split; [done|]. split; [constructor|]. split; [by econstructor|]. split; [done|].
      split; [done|]. split; [by rewrite app_nil_r|]. right. by exists l, ls, s1.
Qed.

(** Only a write to another peer can end the process. *)
Lemma kind_throw i l s x :
  inv s -> kind i l -> step l s = Throw x -> x = SIGPIPE /\ exists j, j <> i /\ at_ s = Write j.
Proof.
  intros Hi Hk E. destruct l as [e|t]; [simpl in E; by case_decide|]. destruct Hk as [n Hn]. simpl in E.
  destruct (server_moves t s Hi) as [[_ H]|[[H _]|[(H & j & Hj & Hw)|(s1 & H & _)]]]; rewrite E in H; try done.
  injection H as ->. split; [done|]. exists j. split; [|done]. intros ->. unfold kills in Hw. congruence.
Qed.

(** ** The work left *)

(** Something of this round is still to be served. *)
Definition busy (s : St) : bool :=
  match at_ s with
  | Read _ => true
  | _ => bool_decide (set_Exists (fun i => next (at_ s) <= i < FD_SETSIZE) (testfds s))
  end.

Definition position (p : pc) : Z :=
  match p with
  | Select | Failed => 0
  | Visit fd => 3 * (FD_SETSIZE - fd) + 1
  | Read fd => 3 * (FD_SETSIZE - fd)
  | Write fd => 3 * (FD_SETSIZE - fd) - 1
  end.

(** Two visits to every descriptor of a round pay for the round. *)
Definition per_work : Z := 3 * FD_SETSIZE + 2.
Definition measure (s : St) : Z := per_work * (work (kern s) - Z.b2z (busy s)) + position (at_ s).

Lemma busy_at s fd : at_ s = Visit fd -> fd ∈ testfds s -> fd < FD_SETSIZE -> busy s = true.
Proof.
  intros E Hin Hlt. unfold busy. rewrite E. apply bool_decide_eq_true_2. exists fd. split; [done|]. simpl. lia.
Qed.

Lemma busy_after k l r tf c fd :
  fd ∉ tf -> busy (mkSt l k r tf c (Visit (fd + 1))) = busy (mkSt l k r tf c (Visit fd)).
Proof.
  intros Hn. apply bool_decide_ext. unfold set_Exists. simpl.
  split; intros (i & Hi & Hr); exists i; (split; [done|]); [lia|].
  assert (i <> fd) by congruence. lia.
Qed.

Lemma work_close k i p :
  k_conns k !! i = Some p -> p_err p = true \/ (p_in p = [] /\ p_fin p = true) -> work (closed i k) + 1 <= work k.
Proof.
  intros Hp Hq. unfold work. simpl. rewrite (conns_weight_delete _ _ _ Hp). unfold weight.
  destruct Hq as [->|[-> ->]]; [lia|]. destruct (p_err p); simpl; lia.
Qed.

Lemma work_update k i p q :
  k_conns k !! i = Some p -> work (on_conns (<[i := q]>) k) = work k - weight p + weight q.
Proof. intros Hp. unfold work. simpl. rewrite (conns_weight_update _ _ _ _ Hp). lia. Qed.

Lemma work_sent k i d : work (on_conns (alter (peer_sent d) i) k) = work k.
Proof.
  destruct (k_conns k !! i) as [p|] eqn:Hp.
  - assert (on_conns (alter (peer_sent d) i) k = on_conns (<[i := peer_sent d p]>) k) as ->.
    { unfold on_conns. f_equal. apply map_eq. intros j. destruct (decide (j = i)) as [->|Hne].
      - by rewrite lookup_alter_eq, lookup_insert_eq, Hp.
      - by rewrite lookup_alter_ne, lookup_insert_ne. }
    rewrite (work_update _ _ p) by done. unfold weight, peer_sent. simpl. lia.
  - unfold on_conns, work. simpl. rewrite alter_id; [done|]. intros q Hq. congruence.
Qed.

(** A step of the server that succeeds brings the end nearer. *)
Lemma moves_measure t s s' : inv s -> moves t s s' -> t_ok t = true -> measure s' + 1 <= measure s.
Proof.
  intros Hi Hm Ht.
  assert (Hb : forall s, 0 <= Z.b2z (busy s) <= 1) by (intros s0; by destruct (busy s0)).
  assert (Hpay : forall k fd c r p, busy s = true -> position (at_ s) = p -> 3 * (FD_SETSIZE - fd) - 1 <= p ->
            work k + 1 <= work (kern s) ->
            measure (mkSt (server_sockfd s) k r (testfds s) c (Visit (fd + 1))) + 1 <= measure s).
  { intros k fd c r p Hbs Hp Hle Hw. unfold measure. rewrite Hbs, Hp. simpl.
    pose proof (Hb (mkSt (server_sockfd s) k r (testfds s) c (Visit (fd + 1)))). unfold per_work, FD_SETSIZE in *. nia. }
  destruct Hm as [E Et|rd E Hrd Et Hf|E|fd E Hlt Hn|p0 bl E Hb0 fd Et Hlt Hl|fd p0 E Hne Hin Hlt Hp0 Hq
                 |fd p0 E Hne Hin Hlt Hp0 He0 Hd|fd c d p0 E Hp0 He0 Hd|fd p0 E Hp0 He0|fd p0 E Hp0 sent].
  - congruence.
  - assert (Hn : busy s = false) by (unfold busy; rewrite E; apply bool_decide_eq_false_2; intros (i & _ & ?); simpl in *; lia).
    assert (Hle : busy (mkSt (server_sockfd s) (kern s) (readfds s) rd (t_junk t) (Visit 0)) = true).
    { apply set_choose_L in Hrd as [i Hin]. unfold busy. apply bool_decide_eq_true_2. exists i. split; [done|]. simpl.
      rewrite Hf in Hin. apply elem_of_filter in Hin as [_ Hin]. by apply (i_range s Hi). }
    unfold measure. rewrite Hn, Hle, E. simpl. unfold per_work, FD_SETSIZE. lia.
  - assert (Hle : busy (goto Select s) = false)
      by (apply bool_decide_eq_false_2; intros (i & _ & ?); simpl in *; lia).
    unfold measure. rewrite Hle, E. simpl. specialize (Hb s).
    assert (Hn : busy s = false) by (unfold busy; rewrite E; apply bool_decide_eq_false_2; intros (i & _ & ?); simpl in *; lia).
    rewrite Hn. simpl. unfold per_work. lia.
  - assert (Hn' : busy (goto (Visit (fd + 1)) s) = busy s).
    { destruct s as [l k r tf c p]; simpl in *. subst p. by apply busy_after. }
    unfold measure. rewrite Hn', E. simpl. lia.
  - apply (Hpay _ _ _ _ _ (busy_at s _ E Hl ltac:(apply (i_l s Hi))) eq_refl); [rewrite E; simpl; lia|].
    pose proof (accept_work (server_sockfd s + 1) (kern s) p0 bl Hb0) as Hw. unfold take_peer in Hw. by rewrite Hb0 in Hw.
  - apply (Hpay _ _ _ _ _ (busy_at s fd E Hin Hlt) eq_refl); [rewrite E; simpl; lia|]. by eapply work_close.
  - unfold measure. rewrite (busy_at s fd E Hin Hlt), E. simpl. lia.
  - unfold measure. rewrite E. unfold busy at 2. rewrite E. simpl. rewrite (work_update _ _ p0) by done.
    unfold weight. simpl. rewrite He0, Hd. simpl.
    pose proof (Hb (mkSt (server_sockfd s) (kern s) (readfds s) (testfds s) (plus c) (Write fd))) as Hle.
    unfold busy in *. simpl in *. unfold per_work, FD_SETSIZE in *. nia.
  - unfold measure. rewrite E. unfold busy at 2. rewrite E. simpl. rewrite (work_update _ _ p0) by done.
    unfold weight. simpl. rewrite He0. simpl.
    pose proof (Hb (mkSt (server_sockfd s) (kern s) (readfds s) (testfds s) (ch s) (Write fd))) as Hle.
    unfold busy in *. simpl in *. unfold per_work, FD_SETSIZE in *. nia.
  - assert (Hn' : busy (mkSt (server_sockfd s) (on_conns (alter (peer_sent sent) fd) (kern s)) (readfds s) (testfds s)
                    (ch s) (Visit (fd + 1))) = busy s).
    { destruct s as [l k r tf c p]; simpl in *. subst p. done. }
    unfold measure. simpl. rewrite work_sent, Hn', E. simpl. lia.
Qed.
Lemma plus_runs_inv ls s s' : inv s -> runs step s ls s' -> inv s'.
Proof. intros Hi Hr. eapply (runs_invariant step); [|exact Hi|exact Hr]. intros l s1 s2 H1 H2. by eapply plus_step_inv. Qed.

(** The server goes on, and its calls succeed. *)
Definition prompt (l : label) : Prop := match l with Net _ => False | Server t => t_ok t = true end.

Lemma prompt_runs ls s s' :
  inv s -> at_ s <> Failed -> Forall prompt ls -> runs step s ls s' ->
  inv s' /\ at_ s' <> Failed /\ len ls <= measure s - measure s'.
Proof.
  intros Hi Hf Hp Hr. revert Hi Hf Hp. induction Hr as [s|s l s1 ls s' E _ IH]; intros Hi Hf Hp; [simpl; split_and!; [done..|lia]|].
  apply Forall_cons in Hp as [Hl Hp]. destruct l as [|t]; [done|]. simpl in Hl, E.
  destruct (server_moves t s Hi) as [[_ E']|[[E' _]|[[E' _]|(s2 & E' & Hm)]]]; rewrite E in E'; try done.
  injection E' as <-. pose proof (moves_measure t s s1 Hi Hm Hl) as Hme. pose proof (moves_inv t s s1 Hi Hm) as [Hi1 _].
  assert (at_ s1 <> Failed) as Hf1 by (destruct Hm; simpl; congruence).
  destruct (IH Hi1 Hf1 Hp) as (H1 & H2 & H3). split; [done|]. split; [done|]. simpl. lia.
Qed.

Lemma measure_range s : inv s -> - per_work <= measure s <= per_work * (work (kern s) + 1).
Proof.
  intros Hi. pose proof (work_nonneg (kern s)). pose proof (i_next s Hi) as Hn. unfold measure.
  assert (0 <= Z.b2z (busy s) <= 1) by (by destruct (busy s)).
  assert (0 <= position (at_ s) <= per_work) by (destruct (at_ s); simpl; unfold per_work, FD_SETSIZE in *; lia).
  unfold per_work, FD_SETSIZE in *. nia.
Qed.

(** At rest there is nothing to accept and nothing to read. *)
Lemma rest_none t s :
  inv s -> at_ s <> Failed -> willing t -> server t s = Ok None ->
  k_backlog (kern s) = [] /\ forall i p, k_conns (kern s) !! i = Some p -> ready p = false.
Proof.
  intros Hi Hf [Ht Hw] E.
  destruct (server_moves t s Hi) as [[_ E']|[[_ [H|[(_ & _ & Hr)|(fd & _ & H)]]]|[[E' _]|(s2 & E' & _)]]];
    try congruence; try (by destruct (Hw fd)).
  rewrite (i_open s Hi) in Hr. split.
  - specialize (Hr (server_sockfd s) ltac:(set_solver)). unfold fd_ready in Hr. rewrite decide_True in Hr by done.
    by apply negb_false_iff, bool_decide_eq_true_1 in Hr.
  - intros i p Hp. specialize (Hr i). unfold fd_ready in Hr.
    assert (i <> server_sockfd s) by (intros ->; rewrite (i_listener s Hi) in Hp; done).
    rewrite decide_False, Hp in Hr by done. apply Hr, elem_of_union_r, elem_of_dom. by exists p.
Qed.

Lemma bad_accept_ub t s : inv s -> bad_accept t s -> server t s = UB.
Proof.
  intros Hi (E & Hin & Hbad).
  destruct (server_moves t s Hi) as [[_ H]|[[_ [H|[(H & _)|(fd & H & _)]]]|[(_ & fd & H & _)|(s' & _ & Hm)]]];
    [done|congruence..|].
  pose proof (i_l s Hi). exfalso. destruct Hm; simplify_eq; try congruence; [rewrite E in *; simplify_eq; lia|].
  destruct Hbad as [|Hb]; [congruence|]. subst fd. lia.
Qed.
End Plus.

(** ** A greeting and an echo *)

Module Greet.

Definition max_clients : Z := 30.
Definition message : bytes := str "echo demo v1.0" ++ ["013"%char; "010"%char].

(** [Accept]: [select] has returned; [Scan i]: the second loop is at [i]; [Welcome fd]
    and [Reply i sd]: the server is about to send the greeting, or what it read. *)
Inductive pc : Type := Top | Accept | Welcome (fd : Z) | Scan (i : Z) | Reply (i sd : Z) | Exited.

#[export] Instance greet_pc_eq_dec : EqDecision pc.
Proof. solve_decision. Defined.

Record St := mkSt {
  master_socket : Z; kern : K;
  client_socket : list Z; readfds : gset Z; buffer : bytes;
  at_ : pc;
}.

(** [FD_SET] of the descriptors in the table, and the greatest. *)
Fixpoint fill (cs : list Z) (fds : gset Z) (max_sd : Z) : outcome (gset Z * Z) :=
  match cs with
  | [] => Ok (fds, max_sd)
  | sd :: cs =>
      fds ← (if decide (sd > 0) then FD_SET sd fds else Ok fds);
      fill cs fds (if decide (sd > max_sd) then sd else max_sd)
  end.

(** The first free place; a table without one stays as it is. *)
Fixpoint put (fd : Z) (cs : list Z) : list Z :=
  match cs with
  | [] => []
  | sd :: cs => if decide (sd = 0) then fd :: cs else sd :: put fd cs
  end.

Definition server (t : told) (s : St) : outcome (option St) :=
  let l := master_socket s in
  match at_ s with
  | Top =>
      fds ← FD_SET l ∅;
      '(fds, max_sd) ← fill (client_socket s) fds l;
      match select l (max_sd + 1) (t_ok t) fds (kern s) with
      | Some rd =>
          if decide (rd = ∅) then Ok None
          else Ok (Some (mkSt l (kern s) (client_socket s) rd (buffer s) Accept))
      | None => Ok (Some (mkSt l (kern s) (client_socket s) fds (buffer s) Accept))
      end
  | Accept =>
      b ← FD_ISSET l (readfds s);
      if (b : bool) then
        '(new_socket, k) ← accept (l + 1) (t_ok t) (kern s);
        if decide (new_socket < 0)
        then Ok (Some (mkSt l k (client_socket s) (readfds s) (buffer s) Exited))
        else Ok (Some (mkSt l k (client_socket s) (readfds s) (buffer s) (Welcome new_socket)))
      else Ok (Some (mkSt l (kern s) (client_socket s) (readfds s) (buffer s) (Scan 0)))
  | Welcome new_socket =>
      w ← blocking_send new_socket message (t_write t new_socket) (kern s);
      Ok (option_map (fun k =>
            mkSt l k (put new_socket (client_socket s)) (readfds s) (buffer s) (Scan 0)) w)
  | Scan i =>
      if decide (i < max_clients) then
        sd ← arr_get (client_socket s) i;
        b ← FD_ISSET sd (readfds s);
        if (b : bool) then
          '(valread, d, k) ← recv sd 1024 (kern s);
          buf ← buf_write 0 d (buffer s);
          if decide (valread = 0) then
            '(_, k) ← close sd k;
            cs ← arr_set (client_socket s) i 0;
            Ok (Some (mkSt l k cs (readfds s) buf (Scan (i + 1))))
          else if decide (valread < 0) then Ok (Some (mkSt l k (client_socket s) (readfds s) buf Exited))
          else
            shown ← cstr buf;
            '(_, k) ← print_got sd valread shown k;
            buf ← buf_write valread [NUL] buf;
            Ok (Some (mkSt l k (client_socket s) (readfds s) buf (Reply i sd)))
        else Ok (Some (mkSt l (kern s) (client_socket s) (readfds s) (buffer s) (Scan (i + 1))))
      else Ok (Some (mkSt l (kern s) (client_socket s) (readfds s) (buffer s) Top))
  | Reply i sd =>
      text ← cstr (buffer s);
      w ← blocking_send sd text (t_write t sd) (kern s);
      Ok (option_map (fun k => mkSt l k (client_socket s) (readfds s) (buffer s) (Scan (i + 1))) w)
  | Exited => Ok None
  end.

(** With the process its connections are gone. *)
Definition step (l : label) (s : St) : outcome (option St) :=
  match l with
  | Net e =>
      if decide (at_ s = Exited) then Ok None
      else Ok (Some (mkSt (master_socket s) (net_event e (kern s)) (client_socket s) (readfds s) (buffer s) (at_ s)))
  | Server t => server t s
  end.

(** When [socket], [bind] and [listen] have succeeded; [junk] is what [buffer] holds. *)
Definition start (fd : Z) (junk : bytes) : St :=
  mkSt fd K_start (replicate (Z.to_nat max_clients) 0) ∅ junk Top.

(** ** The invariant *)

Definition stored (cs : list Z) (j : Z) : Prop := j <> 0 /\ j ∈ cs.

(** The table holds exactly the open descriptors of a row of 30. *)
Record table (l : Z) (k : K) (cs : list Z) : Prop := {
  t_len : length cs = Z.to_nat max_clients;
  t_once : forall i j sd, cs !! i = Some sd -> cs !! j = Some sd -> sd <> 0 -> i = j;
  t_stored : forall j, stored cs j -> l < j <= l + max_clients /\ is_Some (k_conns k !! j);
  t_open : forall j, is_Some (k_conns k !! j) -> l < j /\ (j <= l + max_clients -> stored cs j);
}.

(** The connections but for one that is being greeted and not stored yet. *)
Definition settled (s : St) : K :=
  match at_ s with Welcome fd => closed fd (kern s) | _ => kern s end.

(** What the second loop has still to look at is open and ready. *)
Definition scan (s : St) (i : Z) : Prop :=
  (0 ∉ readfds s) /\ forall j sd, client_socket s !! j = Some sd -> i <= Z.of_nat j ->
    sd ∈ readfds s -> exists p, k_conns (kern s) !! sd = Some p /\ ready p = true.

Record inv (s : St) : Prop := {
  i_l : 0 < master_socket s /\ master_socket s + max_clients < FD_SETSIZE;
  i_table : table (master_socket s) (settled s) (client_socket s);
  i_buffer : length (buffer s) = 1025%nat /\ buffer s !! 1024%nat = Some NUL;
  i_here : match at_ s with
           | Welcome fd => is_Some (k_conns (kern s) !! fd) /\ master_socket s < fd /\
               (fd <= master_socket s + max_clients <-> 0 ∈ client_socket s)
           | Scan i => 0 <= i <= max_clients
           | Reply i sd => 0 <= i < max_clients /\ is_Some (k_conns (kern s) !! sd)
           | _ => True
           end;
  i_set : match at_ s with
          | Accept => forall j, j ∈ readfds s -> fd_ready (master_socket s) (kern s) j = true /\
                        (j = master_socket s \/ stored (client_socket s) j)
          | Welcome _ => forall j, j ∈ readfds s ->
                        j = master_socket s \/ (fd_ready (master_socket s) (kern s) j = true /\ stored (client_socket s) j)
          | Scan i => scan s i
          | Reply i _ => scan s (i + 1)
          | _ => True
          end;
}.

Lemma distinct_at_most (cs : list Z) : (size (list_to_set (C := gset Z) cs) <= length cs)%nat.
Proof.
  induction cs as [|c cs IH]; simpl; [by vm_compute|]. rewrite size_union_alt, size_singleton.
  pose proof (subseteq_size (list_to_set (C := gset Z) cs ∖ {[c]}) (list_to_set cs) ltac:(set_solver)). lia.
Qed.

(** The next descriptor is in the row exactly when a place is free. *)
Lemma fresh_in_row l k cs :
  0 < l -> table l k cs -> (fresh_fd (l + 1) (k_conns k) <= l + max_clients <-> 0 ∈ cs).
Proof.
  intros Hl [Hn Ho Hs Hc]. set (f := fresh_fd (l + 1) (k_conns k)).
  pose proof (fresh_fd_range (l + 1) (k_conns k)) as Hr. fold f in Hr.
  pose proof (fresh_fd_unused (l + 1) (k_conns k)) as Hu. fold f in Hu.
  split; intros H.
  - destruct (decide (0 ∈ cs)) as [|Hz]; [done|exfalso].
    assert (Hnd : NoDup cs).
    { apply NoDup_alt. intros i j sd Hi Hj. apply (Ho i j sd Hi Hj). intros ->. apply Hz. by eapply list_elem_of_lookup_2. }
    assert (Hsub : list_to_set (C := gset Z) cs ⊆ list_to_set (seqZ (l + 1) max_clients) ∖ {[f]}).
    { intros j Hj%elem_of_list_to_set. assert (Hst : stored cs j) by (split; [by intros ->|done]).
      destruct (Hs j Hst) as [Hj1 [p Hp]]. apply elem_of_difference.
      rewrite elem_of_list_to_set, elem_of_seqZ, elem_of_singleton. split; [lia|]. intros ->. congruence. }
    apply subseteq_size in Hsub. rewrite size_difference in Hsub
      by (apply singleton_subseteq_l, elem_of_list_to_set, elem_of_seqZ; lia).
    rewrite size_singleton, !size_list_to_set, Hn in Hsub by (try apply NoDup_seqZ; done).
    rewrite length_seqZ in Hsub. unfold max_clients in *. lia.
  - destruct (decide (f <= l + max_clients)) as [|Hf]; [done|exfalso].
    assert (Hsub : list_to_set (C := gset Z) (seqZ (l + 1) max_clients) ∪ {[0]} ⊆ list_to_set cs).
    { intros j. rewrite elem_of_union, !elem_of_list_to_set, elem_of_seqZ, elem_of_singleton. intros [Hj| ->]; [|done].
      apply (Hc j); [|lia]. apply (fresh_fd_lowest (l + 1)). fold f. lia. }
    apply subseteq_size in Hsub. rewrite size_union, size_singleton, size_list_to_set in Hsub.
    2:{ apply NoDup_seqZ. }
    2:{ apply disjoint_singleton_r. rewrite elem_of_list_to_set, elem_of_seqZ. lia. }
    rewrite length_seqZ in Hsub. pose proof (distinct_at_most cs) as Hle.
    rewrite Hn in Hle. unfold max_clients in *. lia.
Qed.

(** ** The table *)

Lemma table_same l k k' cs : dom (k_conns k') = dom (k_conns k) -> table l k cs -> table l k' cs.
Proof.
  intros E [H1 H2 H3 H4]. split; try done.
  - intros j Hj. rewrite <- elem_of_dom, E, elem_of_dom. by apply H3.
  - intros j. rewrite <- elem_of_dom, E, elem_of_dom. by apply H4.
Qed.

Lemma put_full fd cs : 0 ∉ cs -> put fd cs = cs.
Proof.
  induction cs as [|c cs IH]; [done|]. rewrite not_elem_of_cons. intros [Hc Hn]. simpl.
  rewrite decide_False by done. by rewrite IH.
Qed.

Lemma put_free fd cs : 0 ∈ cs -> exists n, cs !! n = Some 0 /\ put fd cs = <[n := fd]> cs.
Proof.
  induction cs as [|c cs IH]; [by intros ?%not_elem_of_nil|]. intros Hz. simpl. case_decide as Hc.
  - exists 0%nat. by subst.
  - apply elem_of_cons in Hz as [|Hz]; [done|]. destruct (IH Hz) as (n & Hn & E). exists (S n). by rewrite E.
Qed.

Lemma fill_ok cs fds mx :
  (forall j, stored cs j -> 0 < j < FD_SETSIZE) ->
  exists F m, fill cs fds mx = Ok (F, m) /\ (forall j, j ∈ F <-> j ∈ fds \/ stored cs j) /\
    mx <= m /\ (forall j, stored cs j -> j <= m).
Proof.
  unfold stored. revert fds mx. induction cs as [|c cs IH]; intros fds mx Hs.
  - exists fds, mx. split; [done|]. split; [|split; [lia|]]; intros j; [|by intros [_ ?%not_elem_of_nil]].
    split; [by left|]. by intros [|[_ ?%not_elem_of_nil]].
  - assert (Hs' : forall j, stored cs j -> 0 < j < FD_SETSIZE).
    { intros j [Hj Hin]. apply Hs. split; [done|]. by right. }
    assert (Hc : c = 0 \/ 0 < c < FD_SETSIZE).
    { destruct (decide (c = 0)); [by left|right]. apply Hs. split; [done|by left]. }
    simpl. assert (exists fds', (if decide (c > 0) then FD_SET c fds else Ok fds) = Ok fds' /\
      forall j, j ∈ fds' <-> j ∈ fds \/ (j <> 0 /\ j = c)) as (fds' & -> & Hf).
    { case_decide.
      - rewrite FD_SET_ok by lia. eexists. split; [done|]. intros j. rewrite elem_of_union, elem_of_singleton. intuition lia.
      - eexists. split; [done|]. intros j. assert (c = 0) by lia. intuition lia. }
    cbn. destruct (IH fds' (if decide (c > mx) then c else mx) Hs') as (F & m & -> & HF & Hm & Hle).
    exists F, m. split; [done|]. split; [|split].
    + intros j. rewrite HF, Hf, elem_of_cons. tauto.
    + case_decide; lia.
    + intros j [Hj [-> |Hin]%elem_of_cons]; [|by apply Hle]. case_decide; lia.
Qed.

Lemma stored_put fd cs j : fd <> 0 -> stored (put fd cs) j -> stored cs j \/ (j = fd /\ 0 ∈ cs).
Proof.
  intros Hfd [Hj Hin]. destruct (decide (0 ∈ cs)) as [Hz|Hz].
  - destruct (put_free fd cs Hz) as (n & Hn & E). rewrite E in Hin.
    apply list_elem_of_lookup in Hin as [m Hm]. apply list_lookup_insert_Some in Hm as [(_ & <- & _)|[_ Hm]]; [by right|].
    left. split; [done|]. by eapply list_elem_of_lookup_2.
  - rewrite put_full in Hin by done. by left.
Qed.

Lemma table_accept l k cs p bl fd :
  0 < l -> table l k cs -> k_conns k !! fd = None -> l < fd -> (fd <= l + max_clients <-> 0 ∈ cs) ->
  table l (enter fd p bl k) (put fd cs).
Proof.
  intros Hl Ht Hu Hr Hrow.
  destruct Ht as [H1 H2 H3 H4].
  assert (Hnew : forall i, cs !! i = Some fd -> False).
  { intros i Hi. destruct (H3 fd) as [_ [q Hq]]; [|congruence]. split; [lia|]. by eapply list_elem_of_lookup_2. }
  split; simpl.
  - destruct (decide (0 ∈ cs)) as [Hz|Hz]; [|by rewrite put_full].
    destruct (put_free fd cs Hz) as (n & _ & ->). by rewrite length_insert.
  - destruct (decide (0 ∈ cs)) as [Hz|Hz]; [|by rewrite put_full].
    destruct (put_free fd cs Hz) as (n & Hn & ->). intros i j sd Hi Hj Hsd.
    apply list_lookup_insert_Some in Hi as [(-> & <- & _)|[Hni Hi]];
      apply list_lookup_insert_Some in Hj as [(Ej & Es & _)|[Hnj Hj]]; subst; try done.
    + by destruct (Hnew j).
    + by destruct (Hnew i).
    + by eapply H2.
  - intros j Hj. apply stored_put in Hj as [Hj|[-> Hz]]; [|split; [apply Hrow in Hz; lia|by rewrite lookup_insert_eq]|lia].
    destruct (H3 j Hj) as [Hj1 Hj2]. split; [done|]. rewrite lookup_insert_ne; [done|]. intros <-.
    destruct Hj as [_ Hj]. apply list_elem_of_lookup in Hj as [i Hi]. by destruct (Hnew i).
  - intros j Hj. destruct (decide (j = fd)) as [->|Hne].
    + split; [lia|]. intros Hle. apply Hrow in Hle. destruct (put_free fd cs Hle) as (n & Hn & ->).
      split; [lia|]. apply list_elem_of_lookup. exists n. apply list_lookup_insert_eq. by eapply lookup_lt_Some.
    + rewrite lookup_insert_ne in Hj by done. destruct (H4 j Hj) as [Hj1 Hj2]. split; [done|]. intros Hle.
      destruct (Hj2 Hle) as [Hj0 Hin]. split; [done|]. destruct (decide (0 ∈ cs)) as [Hz|Hz]; [|by rewrite put_full].
      destruct (put_free fd cs Hz) as (n & Hn & ->). apply list_elem_of_lookup in Hin as [i Hi].
      apply list_elem_of_lookup. exists i. rewrite list_lookup_insert_ne; [done|]. intros ->. congruence.
Qed.

Lemma closed_same l k cs fd : k_conns k !! fd = None -> table l k cs -> table l (closed fd k) cs.
Proof. intros Hu. apply table_same. simpl. by rewrite delete_id. Qed.

(** A connection that has been greeted is stored, if a place is free. *)
Lemma table_welcome l k cs fd :
  0 < l -> table l (closed fd k) cs -> is_Some (k_conns k !! fd) -> l < fd ->
  (fd <= l + max_clients <-> 0 ∈ cs) -> table l k (put fd cs).
Proof.
  intros H0 Ht [p Hp] Hl Hrow. apply (table_same _ (enter fd p [] (closed fd k))).
  - simpl. by rewrite insert_delete_id.
  - apply table_accept; try done. simpl. apply lookup_delete_eq.
Qed.

Lemma table_close l k cs i sd :
  table l k cs -> cs !! i = Some sd -> sd <> 0 -> table l (closed sd k) (<[i := 0]> cs).
Proof.
  intros [H1 H2 H3 H4] Hi Hsd.
  assert (Hst : forall j, stored (<[i := 0]> cs) j <-> stored cs j /\ j <> sd).
  { intros j. unfold stored. rewrite !list_elem_of_lookup. split.
    - intros [Hj [m Hm]]. apply list_lookup_insert_Some in Hm as [(_ & <- & _)|[Hmi Hm]]; [done|].
      split; [split; [done|by exists m]|]. intros ->. apply Hmi. by eapply H2.
    - intros [[Hj [m Hm]] Hne]. split; [done|]. exists m. rewrite list_lookup_insert_ne; [done|]. intros ->. congruence. }
  split; simpl.
  - by rewrite length_insert.
  - intros a b x Ha Hb Hx. apply list_lookup_insert_Some in Ha as [(_ & <- & _)|[_ Ha]]; [done|].
    apply list_lookup_insert_Some in Hb as [(_ & <- & _)|[_ Hb]]; [done|]. by eapply H2.
  - intros j [Hj Hne]%Hst. rewrite lookup_delete_ne by done. by apply H3.
  - intros j Hj. destruct (decide (j = sd)) as [->|Hne]; [by rewrite lookup_delete_eq in Hj; destruct Hj|].
    rewrite lookup_delete_ne in Hj by done. destruct (H4 j Hj) as [Hj1 Hj2]. split; [done|]. intros Hle.
    apply Hst. split; [by apply Hj2|done].
Qed.

(** ** The steps of the server, case by case *)

(** What a full read leaves in the buffer: a string, whatever it holds. *)
Definition terminated (b : bytes) : Prop := length b = 1025%nat /\ b !! 1024%nat = Some NUL.

Lemma cstr_defined b : NUL ∈ b -> exists s, cstr b = Ok s.
Proof.
  induction b as [|c b IH]; [by intros ?%not_elem_of_nil|]. intros Hin. simpl. case_decide; [by eexists|].
  apply elem_of_cons in Hin as [|Hin]; [done|]. destruct (IH Hin) as [s ->]. by eexists.
Qed.

Lemma buffer_steps d b :
  terminated b -> len d <= 1024 ->
  exists b1 shown b2, buf_write 0 d b = Ok b1 /\ cstr b1 = Ok shown /\ buf_write (len d) [NUL] b1 = Ok b2 /\
    cstr b2 = Ok (text_of d) /\ terminated b2.
Proof.
  intros [Hl Hb] Hd. destruct (terminate_received d b) as (b1 & b2 & E1 & L1 & E2 & L2 & C2); [lia|].
  assert (Hb1 : b1 !! 1024%nat = Some NUL).
  { rewrite buf_write_ok in E1 by lia. injection E1 as <-. simpl.
    rewrite lookup_app_r by lia. rewrite lookup_drop. rewrite <- Hb. f_equal. lia. }
  destruct (cstr_defined b1) as [shown Hs]; [by eapply list_elem_of_lookup_2|].
  exists b1, shown, b2. split_and!; try done. split; [lia|].
  rewrite buf_write_ok in E2 by list_lia. injection E2 as <-. rewrite Nat2Z.id. simpl.
  destruct (decide (length d = 1024%nat)) as [Hd'|Hd'].
  - rewrite lookup_app_r by list_lia. rewrite length_take, Hd', Nat.min_l by lia. by rewrite Nat.sub_diag.
  - rewrite lookup_app_r by list_lia. rewrite length_take, Nat.min_l by lia.
    destruct (1024 - length d)%nat as [|n] eqn:En; [lia|]. simpl. rewrite lookup_drop. rewrite <- Hb1. f_equal. lia.
Qed.

Section moves.
Context (t : told) (s : St).
Notation l := (master_socket s).
Notation k := (kern s).
Notation cs := (client_socket s).

Inductive moves : St -> Prop :=
  | g_select rd : at_ s = Top -> rd <> ∅ ->
      (forall j, j ∈ rd -> fd_ready l k j = true /\ (j = l \/ stored cs j)) ->
      moves (mkSt l k cs rd (buffer s) Accept)
  | g_quiet : at_ s = Accept -> l ∉ readfds s -> moves (mkSt l k cs (readfds s) (buffer s) (Scan 0))
  | g_accept p bl : at_ s = Accept -> l ∈ readfds s -> k_backlog k = p :: bl ->
      let fd := fresh_fd (l + 1) (k_conns k) in
      moves (mkSt l (enter fd p bl k) cs (readfds s) (buffer s) (Welcome fd))
  | g_welcome fd : at_ s = Welcome fd ->
      let sent := (kwrite (t_write t fd) message).2 in
      moves (mkSt l (on_conns (alter (peer_sent sent) fd) k) (put fd cs) (readfds s) (buffer s) (Scan 0))
  | g_end : at_ s = Scan max_clients -> moves (mkSt l k cs (readfds s) (buffer s) Top)
  | g_skip i sd : at_ s = Scan i -> 0 <= i < max_clients -> cs !! Z.to_nat i = Some sd -> sd ∉ readfds s ->
      moves (mkSt l k cs (readfds s) (buffer s) (Scan (i + 1)))
  | g_close i sd p : at_ s = Scan i -> 0 <= i < max_clients -> cs !! Z.to_nat i = Some sd -> sd ∈ readfds s ->
      k_conns k !! sd = Some p -> p_in p = [] -> p_fin p = true -> p_err p = false ->
      moves (mkSt l (closed sd k) (<[Z.to_nat i := 0]> cs) (readfds s) (buffer s) (Scan (i + 1)))
  | g_exit i sd p : at_ s = Scan i -> 0 <= i < max_clients -> cs !! Z.to_nat i = Some sd -> sd ∈ readfds s ->
      k_conns k !! sd = Some p -> p_err p = true ->
      moves (mkSt l (on_conns (<[sd := Peer [] true false (p_out p)]>) k) cs (readfds s) (buffer s) Exited)
  | g_data i sd p shown b : at_ s = Scan i -> 0 <= i < max_clients -> cs !! Z.to_nat i = Some sd -> sd ∈ readfds s ->
      k_conns k !! sd = Some p -> p_err p = false -> p_in p <> [] -> terminated b ->
      let d := kread 1024 (p_in p) in
      cstr b = Ok (text_of d) ->
      moves (mkSt l (mkK (k_listen k) (k_backlog k)
               (<[sd := Peer (drop (length d) (p_in p)) (p_fin p) false (p_out p)]> (k_conns k)) (k_edge k)
               (k_stdout k ++ [(sd, len d, shown)]))
             cs (readfds s) b (Reply i sd))
  | g_reply i sd text : at_ s = Reply i sd -> cstr (buffer s) = Ok text ->
      let sent := (kwrite (t_write t sd) text).2 in
      moves (mkSt l (on_conns (alter (peer_sent sent) sd) k) cs (readfds s) (buffer s) (Scan (i + 1))).
End moves.

Lemma table_range l k cs j : 0 < l -> l + max_clients < FD_SETSIZE -> table l k cs -> j ∈ cs -> 0 <= j < FD_SETSIZE.
Proof.
  intros Hl Hm Ht Hj. destruct (decide (j = 0)) as [->|Hj0]; [done|].
  pose proof (t_stored _ _ _ Ht j (conj Hj0 Hj)) as [Hr _]. lia.
Qed.

(** The server is about to write to [fd]. *)
Definition writes (s : St) (fd : Z) : Prop := at_ s = Welcome fd \/ exists i, at_ s = Reply i fd.

Lemma server_top t s :
  inv s -> t_ok t = true -> at_ s = Top ->
  (server t s = Ok None /\ forall j, stored (client_socket s) j -> fd_ready (master_socket s) (kern s) j = false) \/
  exists s', server t s = Ok (Some s') /\ moves t s s'.
Proof.
  intros [[Hl Hlm] Ht Hb Hsc Hset] Hok E. unfold settled in Ht. rewrite E in Ht. unfold server. rewrite E.
  unfold max_clients in *.
  rewrite FD_SET_ok by lia. cbn.
  destruct (fill_ok (client_socket s) ({[master_socket s]} ∪ ∅) (master_socket s)) as (F & m & Ef & HF & Hm & Hle).
  { intros j Hj. pose proof (t_stored _ _ _ Ht j Hj) as [Hr _]. unfold max_clients in *. lia. }
  rewrite Ef. cbn. unfold select. rewrite Hok. simpl. rewrite bool_decide_eq_true_2.
  2:{ intros j Hj. apply HF in Hj. unfold fd_open. destruct Hj as [Hj|Hj].
      - rewrite bool_decide_eq_true_2; [done|set_solver].
      - rewrite (bool_decide_eq_true_2 (is_Some _)) by (by apply (t_stored _ _ _ Ht)). apply orb_true_r. }
  case_decide as Hrd.
  { left. split; [done|]. intros j Hj. destruct (fd_ready (master_socket s) (kern s) j) eqn:Er; [exfalso|done].
    apply (not_elem_of_empty (C := gset Z) j). rewrite <- Hrd. apply elem_of_filter.
    split; [split; [|done]; specialize (Hle j Hj); lia|]. apply HF. by right. }
  right. eexists. split; [done|]. apply g_select; [done|done|].
  intros j [[_ Hr] Hj]%elem_of_filter. split; [done|]. apply HF in Hj as [Hj|Hj]; [left; set_solver|by right].
Qed.

#[local] Arguments message : simpl never.

Lemma server_accept t s :
  inv s -> t_ok t = true -> at_ s = Accept -> exists s', server t s = Ok (Some s') /\ moves t s s'.
Proof.
  intros [[Hl Hlm] Ht Hb Hsc Hset] Hok E. unfold server. rewrite E in *. unfold max_clients in *.
  rewrite FD_ISSET_ok by lia. cbn. case_bool_decide as Hin; [|eexists; split; [done|by apply g_quiet]].
  destruct (Hset _ Hin) as [Hr _]. unfold fd_ready in Hr. rewrite decide_True in Hr by done.
  destruct (k_backlog (kern s)) as [|p bl] eqn:Hbl; [done|].
  unfold accept, getS, mbind, M_bind, mret, M_ret, modify. rewrite Hok, Hbl. cbn.
  pose proof (fresh_fd_range (master_socket s + 1) (k_conns (kern s))). rewrite decide_False by lia.
  eexists. split; [done|]. exact (g_accept t s p bl E Hin Hbl).
Qed.

(** A write goes through, waits, or ends the process. *)
Definition written (t : told) (s : St) (fd : Z) : Prop :=
  (server t s = Ok None /\ waits (t_write t fd)) \/
  (server t s = Throw SIGPIPE /\ kills (t_write t fd)) \/
  exists s', server t s = Ok (Some s') /\ moves t s s'.

Lemma server_welcome t s fd : at_ s = Welcome fd -> written t s fd.
Proof.
  intros E. unfold written, server. rewrite E.
  destruct (blocking_send_cases fd message (t_write t fd) (kern s)) as [[Hw ->]|[[Hw ->]| ->]]; cbn; [by left|auto|].
  right; right. eexists. split; [done|]. by apply (g_welcome t s fd).
Qed.

Lemma server_reply t s i sd : inv s -> at_ s = Reply i sd -> written t s sd.
Proof.
  intros Hi E. destruct (i_buffer s Hi) as [_ Hb].
  destruct (cstr_defined (buffer s)) as [text Ht]; [by eapply list_elem_of_lookup_2|].
  unfold written, server. rewrite E, Ht. cbn.
  destruct (blocking_send_cases sd text (t_write t sd) (kern s)) as [[Hw ->]|[[Hw ->]| ->]]; cbn; [by left|auto|].
  right; right. eexists. split; [done|]. by apply (g_reply t s i sd).
Qed.

Lemma server_scan t s i :
  inv s -> at_ s = Scan i -> exists s', server t s = Ok (Some s') /\ moves t s s'.
Proof.
  intros [[Hl Hlm] Ht Hb Hsc Hset] E. unfold settled in Ht. unfold server. rewrite E in *. destruct Hset as [H0 Hset].
  destruct (decide (i < max_clients)) as [Hi|Hi].
  2:{ eexists. split; [done|]. apply g_end. rewrite E. f_equal. unfold max_clients in *. lia. }
  assert (Hi' : 0 <= i < max_clients) by lia.
  assert (exists sd, client_socket s !! Z.to_nat i = Some sd) as [sd Hsd].
  { apply lookup_lt_is_Some. rewrite (t_len _ _ _ Ht). unfold max_clients in *. lia. }
  rewrite (arr_get_some _ _ sd) by (done || lia). cbn.
  rewrite FD_ISSET_ok by (eapply table_range; [done|done|done|by eapply list_elem_of_lookup_2]). cbn.
  case_bool_decide as Hin; [|eexists; split; [done|by eapply g_skip]].
  destruct (Hset (Z.to_nat i) sd Hsd ltac:(lia) Hin) as (p & Hp & Hr).
  unfold recv, getS, mbind, M_bind. cbn beta iota. rewrite Hp. unfold ready in Hr. destruct (p_err p) eqn:He; simpl in Hr.
  { cbn. unfold mret, M_ret. cbn. rewrite buf_write_ok by (simpl; lia). simpl. rewrite drop_0. eexists. split; [done|]. by eapply g_exit. }
  case_bool_decide as Hd; simpl in Hr.
  { rewrite Hr. cbn. rewrite buf_write_ok by (simpl; lia). cbn. rewrite decide_True by done.
    rewrite arr_set_some by (rewrite (t_len _ _ _ Ht); unfold max_clients in *; lia). cbn. rewrite drop_0.
    eexists. split; [done|]. by eapply g_close. }
  assert (Hdl : len (kread 1024 (p_in p)) <= 1024) by (apply kread_length; lia).
  assert (0 < len (kread 1024 (p_in p))) by (rewrite kread_len by lia; destruct (p_in p); [done|simpl; lia]).
  destruct (buffer_steps (kread 1024 (p_in p)) (buffer s) Hb Hdl) as (b1 & shown & b2 & E1 & C1 & E2 & C2 & T2).
  cbn. rewrite E1. cbn. rewrite decide_False, decide_False by lia. rewrite C1. cbn. rewrite E2. cbn.
  eexists. split; [done|]. exact (g_data t s i sd p shown b2 E Hi' Hsd Hin Hp He Hd T2 C2).
Qed.

Lemma greet_moves t s :
  inv s -> t_ok t = true ->
  (server t s = Ok None /\
     (at_ s = Exited \/
      (at_ s = Top /\ forall j, stored (client_socket s) j -> fd_ready (master_socket s) (kern s) j = false) \/
      exists fd, writes s fd /\ waits (t_write t fd))) \/
  (server t s = Throw SIGPIPE /\ exists fd, writes s fd /\ kills (t_write t fd)) \/
  exists s', server t s = Ok (Some s') /\ moves t s s'.
Proof.
  intros Hi Hok. unfold writes.
  assert (Hw : forall fd, (at_ s = Welcome fd \/ exists i, at_ s = Reply i fd) -> written t s fd).
  { intros fd [E|[i E]]; [by apply server_welcome|by eapply server_reply]. }
  destruct (at_ s) as [| |fd|i|i fd|] eqn:E.
  - destruct (server_top t s Hi Hok E) as [[H1 H2]|H]; [left; auto|by right; right].
  - right; right. by apply server_accept.
  - destruct (Hw fd) as [[H1 H2]|[[H1 H2]|H]]; eauto 8.
  - right; right. by apply (server_scan t s i).
  - destruct (Hw fd) as [[H1 H2]|[[H1 H2]|H]]; eauto 10.
  - left. unfold server. rewrite E. auto.
Qed.

Lemma greet_start_inv fd junk : 0 < fd -> fd + max_clients < FD_SETSIZE -> terminated junk -> inv (start fd junk).
Proof.
  intros H1 H2 H3. split; cbn [start master_socket kern client_socket buffer at_]; try done. split.
  - by rewrite length_replicate.
  - intros i j sd Hi. apply lookup_replicate in Hi as [<- _]. done.
  - intros j [Hj Hin]. by apply elem_of_replicate in Hin as [-> _].
  - intros j []. done.
Qed.

Lemma net_open e k j : is_Some (k_conns (net_event e k) !! j) <-> is_Some (k_conns k !! j).
Proof. by rewrite <- !elem_of_dom, net_event_dom. Qed.

Lemma scan_after s s' i :
  scan s i -> readfds s' = readfds s ->
  (forall j, i <= Z.of_nat j -> client_socket s' !! j = client_socket s !! j) ->
  (forall j sd p, client_socket s !! j = Some sd -> i <= Z.of_nat j -> sd ∈ readfds s ->
     k_conns (kern s) !! sd = Some p -> ready p = true ->
     exists q, k_conns (kern s') !! sd = Some q /\ ready q = true) ->
  scan s' i.
Proof.
  intros [H0 H] Hr Hc Hk. split; [by rewrite Hr|]. intros j sd Hj Hle Hin. rewrite Hr in Hin. rewrite Hc in Hj by done.
  destruct (H j sd Hj Hle Hin) as (p & Hp & Hrd). by eapply Hk.
Qed.

Lemma ready_hears i e p : ready p = true -> ready (hears i e p) = true.
Proof.
  intros Hr. destruct e as [|[j|m] d|[j|m]|[j|m]]; simpl; try done; case_decide; try done.
  - unfold peer_data. destruct (p_fin p || p_err p); [done|]. revert Hr. unfold ready. simpl.
    destruct (p_err p), (p_fin p), (p_in p); simpl; try done; intros _; by rewrite ?orb_true_r.
  - unfold peer_fin. destruct (p_err p) eqn:He; [done|]. unfold ready. simpl. by rewrite !orb_true_r.
Qed.

Lemma greet_net_inv e s : inv s ->
  inv (mkSt (master_socket s) (net_event e (kern s)) (client_socket s) (readfds s) (buffer s) (at_ s)).
Proof.
  intros [H1 H2 H3 H4 H5].
  assert (Hscan : forall i, scan s i ->
            scan (mkSt (master_socket s) (net_event e (kern s)) (client_socket s) (readfds s) (buffer s) (at_ s)) i).
  { intros i Hs. eapply scan_after; [exact Hs|done..|]. simpl. intros j sd p _ _ _ Hp Hr.
    exists (hears sd e p). split; [by apply net_hears|by apply ready_hears]. }
  split; simpl; try done.
  - eapply table_same; [|exact H2]. unfold settled. simpl. destruct (at_ s); simpl; rewrite ?dom_delete_L, ?net_event_dom; done.
  - destruct (at_ s); simpl; try done; by rewrite net_open.
  - destruct (at_ s); try done; [| |by apply Hscan..].
    + intros j Hj. destruct (H5 j Hj) as [Hr Hs]. split; [by apply net_event_ready|done].
    + intros j Hj. destruct (H5 j Hj) as [|[Hr Hs]]; [by left|right]. split; [by apply net_event_ready|done].
Qed.

Section moves_inv.
Context (t : told) (s : St) (Hi : inv s).

(** The next place is scanned after what happened to the descriptor in this one. *)
Lemma scan_next s' i sd :
  scan s i -> client_socket s !! Z.to_nat i = Some sd -> 0 <= i -> sd ∈ readfds s -> settled s = kern s ->
  readfds s' = readfds s ->
  (forall j, i + 1 <= Z.of_nat j -> client_socket s' !! j = client_socket s !! j) ->
  (forall j, j <> sd -> k_conns (kern s') !! j = k_conns (kern s) !! j) -> scan s' (i + 1).
Proof.
  intros Hs Hsd H0 Hin Hk Hr Hc Hother. eapply scan_after; [|exact Hr|exact Hc|].
  - destruct Hs as [Hs0 Hs]. split; [done|]. intros j sd' Hj Hle. apply (Hs j sd' Hj). lia.
  - intros j sd' p Hj Hle Hin' Hp Hrd. exists p. split; [|done]. rewrite Hother; [done|]. intros ->.
    assert (j = Z.to_nat i); [|lia]. pose proof (i_table s Hi) as Ht.
    eapply (t_once _ _ _ Ht); [done|done|]. intros ->. by destruct Hs.
Qed.

Lemma greet_moves_inv s' : moves t s s' -> inv s' /\ master_socket s' = master_socket s.
Proof.
  intros Hm. split; [|by destruct Hm]. pose proof Hi as [[Hl Hlm] Ht Hb Hsc Hset].
  destruct Hm as [rd E Hrd Hr|E Hn|p bl E Hin Hbl fd|fd E sent|E|i sd E Hii Hsd Hin|i sd p E Hii Hsd Hin Hp Hd Hf He
                 |i sd p E Hii Hsd Hin Hp He|i sd p shown b E Hii Hsd Hin Hp He Hd Hb' d Hc|i sd text E Hc sent];
    rewrite E in Hset, Hsc; unfold settled in Ht; rewrite E in Ht; split; simpl; try done.
  - assert (Hq : forall j, j ∈ readfds s -> stored (client_socket s) j).
    { intros j Hj. destruct (Hset j Hj) as [_ [->|]]; [done|done]. }
    split; simpl.
    + intros H0. by destruct (Hq 0 H0).
    + intros j sd Hj _ Hin. destruct (Hset sd Hin) as [Hr _]. apply (ready_entry (master_socket s)); [done|]. by intros ->.
  - unfold settled. simpl. eapply table_same; [|exact Ht]. simpl. rewrite delete_insert_id; [done|]. apply fresh_fd_unused.
  - rewrite lookup_insert_eq. split; [by eexists|].
    pose proof (fresh_fd_range (master_socket s + 1) (k_conns (kern s))). split; [subst fd; lia|].
    by apply (fresh_in_row _ (kern s)).
  - intros j Hj. destruct (Hset j Hj) as [Hr [|Hs]]; [by left|]. right. split; [|done].
    destruct (t_stored _ _ _ Ht j Hs) as [Hj1 [q Hq]].
    assert (j <> fd) by (intros ->; unfold fd in Hq; rewrite fresh_fd_unused in Hq; done).
    unfold fd_ready in *. rewrite decide_False in * by lia. simpl. by rewrite lookup_insert_ne.
  - unfold settled. simpl. eapply table_same; [|by apply (table_welcome _ _ _ fd); [..|apply Hsc|apply Hsc|apply Hsc]].
    simpl. apply dom_alter_L.
  - destruct Hsc as (_ & Hfd & _).
    assert (Hold : forall j, j ∈ readfds s -> j <> master_socket s ->
              stored (client_socket s) j /\ j <> fd /\ fd_ready (master_socket s) (kern s) j = true).
    { intros j Hj Hne. destruct (Hset j Hj) as [|[Hr Hs]]; [done|]. split; [done|]. split; [|done]. intros ->.
      destruct (t_stored _ _ _ Ht fd Hs) as [_ [q Hq]]. simpl in Hq. by rewrite lookup_delete_eq in Hq. }
    split; simpl.
    + intros H0. destruct (Hold 0 H0) as [[? _] _]; [lia|done].
    + intros j sd Hj _ Hin'. assert (Hne : sd <> master_socket s).
      { intros ->. assert (Hst : stored (put fd (client_socket s)) (master_socket s)).
        { split; [lia|by eapply list_elem_of_lookup_2]. }
        apply stored_put in Hst; [|lia]. destruct Hst as [Hst|[? _]]; [|lia].
        destruct (t_stored _ _ _ Ht _ Hst) as [? _]. lia. }
      destruct (Hold sd Hin' Hne) as (_ & Hf & Hr). rewrite lookup_alter_ne by done.
      by apply (ready_entry (master_socket s)).
  - lia.
  - eapply scan_after; [|done..|]; [|intros j sd' q _ _ _ Hq Hrq; simpl; by exists q].
    destruct Hset as [H0 Hset]. split; [done|]. intros j sd' Hj Hle. apply (Hset j sd' Hj). lia.
  - apply table_close; [done|done|]. intros ->. by destruct Hset.
  - lia.
  - eapply (scan_next _ i sd); try done; [lia|by unfold settled; rewrite E| |].
    + intros j Hj. apply list_lookup_insert_ne. lia.
    + intros j Hj. simpl. by rewrite lookup_delete_ne.
  - eapply table_same; [|exact Ht]. simpl. by rewrite (dom_update _ _ p).
  - eapply table_same; [|exact Ht]. simpl. by rewrite (dom_update _ _ p).
  - rewrite lookup_insert_eq. split; [done|by eexists].
  - eapply (scan_next _ i sd); try done; [lia|by unfold settled; rewrite E|].
    intros j Hj. simpl. by rewrite lookup_insert_ne.
  - eapply table_same; [|exact Ht]. simpl. apply dom_alter_L.
  - lia.
  - eapply scan_after; [exact Hset|done..|]. intros j sd' q _ _ _ Hq Hrq. simpl.
    destruct (decide (sd' = sd)) as [->|]; [|rewrite lookup_alter_ne by done; by exists q].
    rewrite lookup_alter_eq, Hq. simpl. eexists. split; [done|]. exact Hrq.
Qed.
End moves_inv.

Definition told_ok (l : label) : Prop := match l with Net _ => True | Server t => t_ok t = true end.

Lemma greet_step_inv l s s' :
  inv s -> told_ok l -> step l s = Ok (Some s') -> inv s' /\ master_socket s' = master_socket s.
Proof.
  intros Hi Hl E. destruct l as [e|t]; simpl in E; [case_decide; [done|]; injection E as <-; split; [by apply greet_net_inv|done]|].
  destruct (greet_moves t s Hi Hl) as [[E' _]|[[E' _]|(s1 & E' & Hm)]]; rewrite E in E'; [done..|].
  injection E' as <-. by apply (greet_moves_inv t s).
Qed.

Lemma greet_runs_inv ls s s' :
  inv s -> Forall told_ok ls -> runs step s ls s' -> inv s' /\ master_socket s' = master_socket s.
Proof.
  intros Hi Hk Hr. revert Hi Hk. induction Hr as [s|s l s1 ls s' E _ IH]; intros Hi Hk; [done|].
  apply Forall_cons in Hk as [Hl Hk]. destruct (greet_step_inv l s s1 Hi Hl E) as [Hi1 <-]. by apply IH.
Qed.

(** ** A connection along a run *)

Lemma text_of_plain d : NUL ∉ d -> text_of d = d.
Proof.
  induction d as [|c d IH]; [done|]. rewrite not_elem_of_cons. intros [Hc Hd]. simpl.
  rewrite decide_False by congruence. by rewrite IH.
Qed.

(** Peer [i] neither closes nor resets and sends text; the server's calls succeed, and a
    write to [i] takes up to 1024 bytes.  What writes to others meet is arbitrary. *)
Definition plain (i : Z) (l : label) : Prop :=
  match l with
  | Net e => quiet i e /\ NUL ∉ sent_by i e
  | Server t => t_ok t = true /\ exists n, t_write t i = WAccept n /\ (1024 <= n)%nat
  end.
Definition arrives (i : Z) (l : label) : bytes := match l with Net e => sent_by i e | Server _ => [] end.

Lemma plain_told i l : plain i l -> told_ok l.
Proof. destruct l; simpl; [done|]. by intros [? _]. Qed.

Definition speaks (p : peer) : Prop := healthy p /\ NUL ∉ p_in p.

(** What is about to be sent back to [i]. *)
Definition replying (i : Z) (s : St) : bytes :=
  match at_ s with
  | Reply _ sd => if decide (sd = i) then match cstr (buffer s) with Ok x => x | _ => [] end else []
  | _ => []
  end.
Definition holds (i : Z) (s : St) (p : peer) : bytes := p_out p ++ replying i s ++ p_in p.

(** The server is not about to greet [i], and what it sends back to it fits. *)
Definition settled_at (i : Z) (s : St) : Prop :=
  at_ s <> Welcome i /\ (length (replying i s) <= 1024)%nat.

Lemma greet_moves_account i t s s' p :
  moves t s s' -> plain i (Server t) -> k_conns (kern s) !! i = Some p -> speaks p -> settled_at i s ->
  exists q, k_conns (kern s') !! i = Some q /\ speaks q /\ settled_at i s' /\ holds i s' q = holds i s p.
Proof.
  intros Hm (_ & n & Hw & Hn) Hp [[Hf He] Hin] [Hwel Hlen]. unfold settled_at, holds, replying in *.
  destruct Hm as [rd E Hrd Hr|E Hn'|p0 bl E Hin' Hbl fd|fd E sent|E|j sd E Hi Hsd Hin'|j sd p0 E Hi Hsd Hin' Hp0 Hd Hf0 He0
                 |j sd p0 E Hi Hsd Hin' Hp0 He0|j sd p0 shown b E Hi Hsd Hin' Hp0 He0 Hd Hb' d Hc|j sd text E Hc sent];
    rewrite E in *; simpl in *.
  - exists p. split_and!; [done..|lia|done].
  - exists p. split_and!; [done..|lia|done].
  - assert (fd <> i).
    { intros Hfr. pose proof (fresh_fd_unused (master_socket s + 1) (k_conns (kern s))). subst fd. congruence. }
    exists p. rewrite lookup_insert_ne by done. split_and!; [done..|congruence|lia|done].
  - exists p. rewrite lookup_alter_ne by congruence. split_and!; [done..|lia|done].
  - exists p. split_and!; [done..|lia|done].
  - exists p. split_and!; [done..|lia|done].
  - exists p. rewrite lookup_delete_ne by (intros ->; congruence). split_and!; [done..|lia|done].
  - exists p. rewrite lookup_insert_ne by (intros ->; congruence). split_and!; [done..|lia|done].
  - destruct (decide (sd = i)) as [->|Hne].
    2:{ exists p. rewrite lookup_insert_ne by done. split_and!; [done..|simpl; lia|done]. }
    rewrite Hp in Hp0. injection Hp0 as <-. rewrite lookup_insert_eq. eexists. split; [done|].
    assert (Hd' : d ++ drop (length d) (p_in p) = p_in p).
    { unfold d, kread. rewrite length_take. destruct (decide (Z.to_nat 1024 <= length (p_in p))%nat).
      - rewrite Nat.min_l by lia. apply take_drop.
      - rewrite Nat.min_r by lia. rewrite take_ge, drop_ge by lia. apply app_nil_r. }
    assert (Hnul : NUL ∉ d /\ NUL ∉ drop (length d) (p_in p)).
    { rewrite <- Hd' in Hin. by rewrite not_elem_of_app in Hin. }
    rewrite Hc, text_of_plain by tauto. split; [split; [by split|simpl; tauto]|].
    split; [split; [done|]|simpl; by rewrite Hd'].
    assert (len d <= 1024) by (apply kread_length; lia). lia.
  - rewrite Hc in *. destruct (decide (sd = i)) as [->|Hne].
    2:{ exists p. rewrite lookup_alter_ne by done. split_and!; [done..|simpl; lia|done]. }
    exists (peer_sent sent p). rewrite lookup_alter_eq, Hp. split; [done|]. split; [by split|].
    split; [split; [done|simpl; lia]|]. unfold peer_sent. simpl. unfold sent. rewrite Hw. simpl.
    rewrite take_ge by lia. by rewrite <- app_assoc.
Qed.

Lemma hears_text i e p : quiet i e -> NUL ∉ sent_by i e -> speaks p -> NUL ∉ p_in (hears i e p).
Proof.
  intros Hq Hd [[Hf He] Hp]. destruct e as [|[j|m] d|[j|m]|[j|m]]; simpl in *; try done; case_decide; try done.
  unfold peer_data. rewrite Hf, He. simpl. by apply not_elem_of_app.
Qed.

Lemma greet_run_account i ls s s' p :
  inv s -> Forall (plain i) ls -> runs step s ls s' -> k_conns (kern s) !! i = Some p -> speaks p -> settled_at i s ->
  inv s' /\ exists q, k_conns (kern s') !! i = Some q /\ speaks q /\
    holds i s' q = holds i s p ++ concat (map (arrives i) ls).
Proof.
  intros Hi Hk Hr. revert p Hi Hk. induction Hr as [s|s l s1 ls s' E _ IH]; intros p Hi Hk Hp Hs Hw.
  - split; [done|]. exists p. simpl. by rewrite app_nil_r.
  - apply Forall_cons in Hk as [Hl Hk]. destruct (greet_step_inv l s s1 Hi (plain_told i l Hl) E) as [Hi1 _].
    assert (exists q, k_conns (kern s1) !! i = Some q /\ speaks q /\ settled_at i s1 /\
              holds i s1 q = holds i s p ++ arrives i l) as (q & Hq & Hsq & Hwq & Ha).
    { destruct l as [e|t].
      - simpl in E. case_decide; [done|]. injection E as <-. destruct Hl as [Hqu Hnul]. destruct Hs as [Hh Hin]. simpl.
        exists (hears i e p). split; [by apply net_hears|].
        destruct (net_account i e (kern s) p Hqu Hp Hh) as (q & Hq & Hhq & Ha). rewrite (net_hears i e _ p Hp) in Hq.
        injection Hq as <-. split; [split; [done|by apply hears_text]|]. split; [exact Hw|].
        assert (Ho : p_out (hears i e p) = p_out p) by (destruct e as [|[j|m] d|[j|m]|[j|m]]; simpl; try done;
          case_decide; try done; unfold peer_data, peer_fin; by destruct p as [? [] [] ?]).
        revert Ha. unfold account, holds, replying. simpl. rewrite Ho, <- !app_assoc. intros Ha%app_inv_head. by rewrite Ha.
      - destruct (greet_moves t s Hi (proj1 Hl)) as [[E' _]|[[E' _]|(s2 & E' & Hm)]]; simpl in E; rewrite E in E'; [done..|].
        injection E' as <-. simpl. rewrite app_nil_r. by apply (greet_moves_account i t s). }
    destruct (IH q Hi1 Hk Hq Hsq Hwq) as (Hi' & r & Hr' & Hsr & Har). split; [done|]. exists r. split; [done|].
    split; [done|]. simpl. by rewrite Har, Ha, app_assoc.
Qed.

(** The row of 30, in a state of the server. *)
Lemma table_of s fd :
  inv s -> master_socket s = fd ->
  (forall j, j ∈ client_socket s /\ j <> 0 <->
     j <= fd + 30 /\ is_Some (k_conns (kern s) !! j) /\ at_ s <> Welcome j) /\
  (forall j, is_Some (k_conns (kern s) !! j) -> fd < j).
Proof.
  intros Hi <-. pose proof (i_table s Hi) as [_ _ Hs Ho]. pose proof (i_here s Hi) as Hh.
  assert (Hk : forall j, is_Some (k_conns (settled s) !! j) <-> is_Some (k_conns (kern s) !! j) /\ at_ s <> Welcome j).
  { intros j. unfold settled. destruct (at_ s) as [| |f|i|i sd|]; try (split; [by split|by intros [? _]]).
    simpl. destruct (decide (j = f)) as [->|Hne].
    - rewrite lookup_delete_eq. split; [by intros []|by intros [_ ?]].
    - rewrite lookup_delete_ne by done. split; [|by intros [? _]]. intros H. split; [done|congruence]. }
  split.
  - intros j. split.
    + intros [Hj Hj0]. destruct (Hs j (conj Hj0 Hj)) as [Hr Hop]. split; [apply Hr|]. by apply Hk.
    + intros [Hj Hop]. destruct (Ho j (proj2 (Hk j) Hop)) as [_ Hst]. destruct (Hst Hj) as [Hj0 Hin]. by split.
  - intros j Hop. destruct (decide (at_ s = Welcome j)) as [E|E].
    + rewrite E in Hh. by destruct Hh as (_ & ? & _).
    + by apply (Ho j), Hk.
Qed.
End Greet.

(** ** Theorems *)

(** C34. Peer [i], as long as it does not reset its connection, gets the next byte for
    every byte it sends, in order, and nothing else: along any run its output, with
    the byte being answered and those still to be read, grows by the successors of
    the bytes that arrive; and the server closes the connection only when the peer
    has closed its side and every byte has been answered, where the run is cut.
    [write] is to take peer [i]'s byte; what it meets at other peers is arbitrary: it
    may wait there, and if one of them has reset its connection the server dies of
    [SIGPIPE], with which any run ends.  It dies so only at a write to another peer.
    Runs also end where [select] fails and the program exits, and before a failing
    [accept], which is undefined. *)
Theorem plus_server_answers fd s0 ls0 s i p ls s' :
  Plus.start fd = Ok s0 -> runs Plus.step s0 ls0 s ->
  k_conns (Plus.kern s) !! i = Some p -> p_err p = false ->
  Forall (Plus.kind i) ls -> runs Plus.step s ls s' ->
  exists ls1 ls2 s1 q, ls = ls1 ++ ls2 /\ runs Plus.step s ls1 s1 /\ runs Plus.step s1 ls2 s' /\
    k_conns (Plus.kern s1) !! i = Some q /\
    Plus.owed i s1 q = Plus.owed i s p ++ map Plus.plus (Plus.arrived i (p_fin p) ls1) /\
    (ls2 = [] \/
     exists l ls3 s2, ls2 = l :: ls3 /\ Plus.step l s1 = Ok (Some s2) /\ k_conns (Plus.kern s2) !! i = None /\
       p_fin q = true /\ p_out q = Plus.owed i s1 q) /\
    (forall l x, Plus.kind i l -> Plus.step l s' = Throw x ->
       x = SIGPIPE /\ exists j, j <> i /\ Plus.at_ s' = Plus.Write j).
Proof.
  intros Hs Hr0 Hp He Hk Hr. assert (Hi : Plus.inv s) by (eapply Plus.plus_runs_inv; [by eapply Plus.plus_start_inv|done]).
  destruct (Plus.run_owed i ls s s' p Hi Hk Hr Hp He) as (ls1 & ls2 & s1 & q & H1 & H2 & H3 & _ & H4 & H5 & H6).
  exists ls1, ls2, s1, q. do 6 (split; [done|]). intros l x Hl E. apply (Plus.kind_throw i l s'); [|done..].
  eapply Plus.plus_runs_inv; [|exact Hr]. exact Hi.
Qed.

(** The server catches up: without the network it makes at most 3074 steps for
    every byte to answer, connection to accept and end to notice, and two rounds
    more; when it waits then, and not for a peer that does not read, no connection has
    anything to read and the queue of the listener is empty. *)
Theorem plus_server_drains fd s0 ls0 s ls s' :
  Plus.start fd = Ok s0 -> runs Plus.step s0 ls0 s -> Plus.at_ s <> Plus.Failed ->
  Forall Plus.prompt ls -> runs Plus.step s ls s' ->
  len ls <= Plus.per_work * (work (Plus.kern s) + 2) /\
  (forall t, willing t -> Plus.step (Server t) s' = Ok None ->
     k_backlog (Plus.kern s') = [] /\ forall i p, k_conns (Plus.kern s') !! i = Some p -> ready p = false).
Proof.
  intros Hs Hr0 Hf Hp Hr. assert (Hi : Plus.inv s) by (eapply Plus.plus_runs_inv; [by eapply Plus.plus_start_inv|done]).
  destruct (Plus.prompt_runs ls s s' Hi Hf Hp Hr) as (Hi' & Hf' & Hlen).
  pose proof (Plus.measure_range s Hi). pose proof (Plus.measure_range s' Hi'). split; [lia|].
  intros t Ht E. by apply (Plus.rest_none t).
Qed.

(** The server has undefined behaviour in exactly one way, whatever the network
    does: an [accept] that fails, or that returns a descriptor which does not fit into
    an [fd_set], neither of which the code looks at.  No other step is undefined; only
    [select] and a [write] that its peer holds up wait, and only a write to a
    connection that is gone ends the process. *)
Theorem plus_server_undefined_iff fd s0 ls s t :
  Plus.start fd = Ok s0 -> runs Plus.step s0 ls s ->
  (Plus.step (Server t) s = UB <-> Plus.bad_accept t s) /\
  (Plus.step (Server t) s = Ok None -> Plus.at_ s = Plus.Failed \/ Plus.at_ s = Plus.Select \/
     exists j, Plus.at_ s = Plus.Write j /\ waits (t_write t j)) /\
  (forall e, Plus.step (Server t) s = Throw e -> e = SIGPIPE /\ exists j, Plus.at_ s = Plus.Write j /\ kills (t_write t j)).
Proof.
  intros Hs Hr. assert (Hi : Plus.inv s) by (eapply Plus.plus_runs_inv; [by eapply Plus.plus_start_inv|done]).
  split; [split|split].
  - intros E. by destruct (Plus.server_moves t s Hi) as [[H _]|[[H _]|[[H _]|(s' & H & _)]]];
      [|simpl in E; congruence..].
  - intros H. by apply Plus.bad_accept_ub.
  - intros E. simpl in E.
    destruct (Plus.server_moves t s Hi) as [[_ H]|[[_ [H|[(H & _)|H]]]|[[H _]|(s' & H & _)]]]; try congruence; auto.
  - intros e E. simpl in E.
    destruct (Plus.server_moves t s Hi) as [[_ H]|[[H _]|[[H Hw]|(s' & H & _)]]]; rewrite E in H; try done.
    by injection H.
Qed.


(** A client that sends text and neither closes nor resets gets it back, complete
    and in order, when [send] takes what it is given: what has been sent to it,
    followed by what is not yet read, grows by what arrives; and when the server waits
    in [select] and the client has a place in the table, everything has been sent.
    What sends to other clients meet is arbitrary. *)
Theorem greet_server_echoes fd junk ls0 s i p ls s' :
  0 < fd -> fd + 30 < FD_SETSIZE -> Greet.terminated junk ->
  Forall Greet.told_ok ls0 -> runs Greet.step (Greet.start fd junk) ls0 s ->
  k_conns (Greet.kern s) !! i = Some p -> Greet.speaks p -> Greet.at_ s = Greet.Top ->
  Forall (Greet.plain i) ls -> runs Greet.step s ls s' ->
  exists q, k_conns (Greet.kern s') !! i = Some q /\
    Greet.holds i s' q = (p_out p ++ p_in p) ++ concat (map (Greet.arrives i) ls) /\
    (forall t, t_ok t = true -> Greet.step (Server t) s' = Ok None -> Greet.at_ s' = Greet.Top ->
       i <= fd + 30 -> p_out q = (p_out p ++ p_in p) ++ concat (map (Greet.arrives i) ls)).
Proof.
  intros H1 H2 H3 Hl0 Hr0 Hp Hs Hat Hls Hr.
  destruct (Greet.greet_runs_inv ls0 _ s (Greet.greet_start_inv fd junk H1 H2 H3) Hl0 Hr0) as [Hi Hm].
  assert (Hsa : Greet.settled_at i s /\ Greet.holds i s p = p_out p ++ p_in p).
  { unfold Greet.settled_at, Greet.holds, Greet.replying. rewrite Hat. simpl. split; [split; [done|lia]|done]. }
  destruct (Greet.greet_run_account i ls s s' p Hi Hls Hr Hp Hs (proj1 Hsa)) as (Hi' & q & Hq & [[Hqf Hqe] _] & Ha).
  rewrite (proj2 Hsa) in Ha.
  assert (Hm' : Greet.master_socket s' = fd).
  { destruct (Greet.greet_runs_inv ls s s' Hi) as [_ ->]; [|done|by rewrite Hm].
    eapply Forall_impl; [exact Hls|]. intros l. apply Greet.plain_told. }
  exists q. split; [done|]. split; [exact Ha|]. intros t Ht E Hx Hin.
  destruct (Greet.table_of s' fd Hi' Hm') as [Htab Hopen].
  destruct (Greet.greet_moves t s' Hi' Ht) as [[_ [|[[_ Hrest]|(j & [Hj|[? Hj]] & _)]]]|[[E' _]|(s2 & E' & _)]];
    simpl in E; try congruence.
  specialize (Hopen i (ex_intro _ q Hq)).
  assert (Hst : Greet.stored (Greet.client_socket s') i).
  { destruct (proj2 (Htab i)) as [Hst Hne]; [|by split]. split; [done|]. split; [by eexists|congruence]. }
  specialize (Hrest i Hst). unfold fd_ready in Hrest. rewrite decide_False, Hq in Hrest by lia.
  unfold ready in Hrest. rewrite Hqf, Hqe in Hrest. simpl in Hrest.
  rewrite orb_false_r, negb_false_iff, bool_decide_eq_true in Hrest.
  unfold Greet.holds, Greet.replying in Ha. rewrite Hx, Hrest in Ha. simpl in Ha. by rewrite app_nil_r in Ha.
Qed.

(** ** What goes wrong *)

Definition fine : told := mkTold true NUL (fun _ => WAccept 2000).

(** [socket/02_server_select.c] with the connections [m] in its table. *)
Definition serving (m : gmap Z peer) (cs : list Z) (junk : bytes) : Greet.St :=
  Greet.mkSt 3 (mkK true [] m ∅ []) (cs ++ replicate (30 - length cs) 0) ∅ junk Greet.Top.
Definition says (d : bytes) : peer := Peer d false false [].

(** What the next step of the server does after a run. *)
Definition next_after (ls : list label) (s : Greet.St) : outcome (option Greet.pc) :=
  match execute Greet.step ls s with
  | Some s => fmap (M := outcome) (fmap Greet.at_) (Greet.server fine s)
  | None => Ok None
  end.

(** It prints [buffer] before it is terminated. *)
Lemma greet_unterminated_undefined :
  next_after [Server fine; Server fine] (serving {[4 := says (str "hi")]} [4] (replicate 1025 "x"%char)) = UB.
Proof. by vm_compute. Qed.

(** One connection that is reset ends it, whatever the others have sent. *)
Lemma greet_reset_exits :
  next_after [Server fine; Server fine]
    (serving {[4 := peer_reset Peer_new; 5 := says (str "hi")]} [4; 5] (replicate 1025 NUL)) = Ok (Some Greet.Exited).
Proof. by vm_compute. Qed.

(** A peer that does not read holds the server up, whatever the others have sent. *)
Lemma greet_slow_peer_blocks :
  match execute Greet.step [Server fine; Server fine; Server fine]
    (serving {[4 := says (str "a"); 5 := says (str "hi")]} [4; 5] (replicate 1025 NUL)) with
  | Some s => Greet.server (mkTold true NUL (fun i => if decide (i = 4) then WFail EWOULDBLOCK else WAccept 2000)) s
  | None => UB
  end = Ok None.
Proof. by vm_compute. Qed.

(** After a [select] that a signal interrupts, the sets are those it was given, and
    [accept] waits for a connection that may never come. *)
Lemma greet_interrupted_blocks :
  next_after [Server (mkTold false NUL (fun _ => WAccept 2000))] (serving ∅ [] (replicate 1025 NUL)) = Throw blocked.
Proof. by vm_compute. Qed.

(** ** Witnesses *)

Lemma skip_visits n a l k r tf c t :
  0 <= a -> a + Z.of_nat n <= FD_SETSIZE -> (forall i, i ∈ tf -> i < a) ->
  runs Plus.step (Plus.mkSt l k r tf c (Plus.Visit a)) (replicate n (Server t))
    (Plus.mkSt l k r tf c (Plus.Visit (a + Z.of_nat n))).
Proof.
  revert a. induction n as [|n IH]; intros a Ha Hn Hi; [rewrite Z.add_0_r; constructor|].
  simpl. econstructor.
  - simpl. unfold Plus.server. simpl. rewrite decide_True by lia. rewrite FD_ISSET_ok by lia. cbn.
    rewrite bool_decide_eq_false_2; [done|]. intros Hin. specialize (Hi a Hin). lia.
  - replace (a + Z.of_nat (S n)) with (a + 1 + Z.of_nat n) by lia. apply IH; [lia|lia|].
    intros i Hin. specialize (Hi i Hin). lia.
Qed.

(** A connection, accepted, and at the end of the round again. *)
Definition conn_4 (p : peer) : K := mkK true [] {[4 := p]} ∅ [].
Definition plus_up (k : K) (tf : gset Z) (p : Plus.pc) : Plus.St := Plus.mkSt 3 k {[4; 3]} tf NUL p.
Definition plus_start : Plus.St := Plus.mkSt 3 K_start {[3]} ∅ NUL Plus.Select.
Definition plus_up_run : list label :=
  [Net NConnect; Server fine; Server fine; Server fine; Server fine; Server fine] ++
  replicate 1020 (Server fine) ++ [Server fine].

Lemma plus_up_runs : runs Plus.step plus_start plus_up_run (plus_up (conn_4 Peer_new) {[3]} Plus.Select).
Proof.
  apply (lsteps_app _ _ _ (plus_up (conn_4 Peer_new) {[3]} (Plus.Visit 4))).
  { apply execute_runs. vm_compute. reflexivity. }
  apply (lsteps_app _ _ _ (plus_up (conn_4 Peer_new) {[3]} (Plus.Visit 1024))).
  - apply (skip_visits 1020 4); [lia|unfold FD_SETSIZE; lia|]. intros i. rewrite elem_of_singleton. lia.
  - apply execute_runs. vm_compute. reflexivity.
Qed.

(** "HAL" arrives and the first byte is answered. *)
Definition hal_run : list label :=
  [Net (NData (Fd 4) (str "HAL")); Server fine; Server fine; Server fine; Server fine; Server fine;
   Server fine; Server fine; Server fine].
Definition hal_end : Plus.St :=
  Plus.mkSt 3 (mkK true [] {[4 := Peer (str "AL") false false (str "I")]} {[4]} []) {[4; 3]} {[4]} "I"%char (Plus.Visit 5).

Lemma hal_runs : runs Plus.step (plus_up (conn_4 Peer_new) {[3]} Plus.Select) hal_run hal_end.
Proof. apply execute_runs. vm_compute. reflexivity. Qed.

Lemma plus_server_answers_witness :
  runs Plus.step plus_start (plus_up_run ++ hal_run) hal_end /\
  exists ls1 ls2 s1 q, hal_run = ls1 ++ ls2 /\ k_conns (Plus.kern s1) !! 4 = Some q /\
    Plus.owed 4 s1 q = map Plus.plus (Plus.arrived 4 false ls1).
Proof.
  split; [exact (lsteps_app _ _ _ _ _ _ plus_up_runs hal_runs)|].
  destruct (plus_server_answers 3 plus_start plus_up_run _ 4 Peer_new hal_run hal_end
    eq_refl plus_up_runs eq_refl eq_refl) as (ls1 & ls2 & s1 & q & H1 & _ & _ & H2 & H3 & _).
  - repeat constructor; by eexists.
  - exact hal_runs.
  - exists ls1, ls2, s1, q. split; [exact H1|]. split; [exact H2|]. exact H3.
Defined.

Lemma plus_server_drains_witness :
  len (tail hal_run) <= Plus.per_work * (3 + 2).
Proof.
  pose (s := plus_up (mkK true [] {[4 := says (str "HAL")]} {[4]} []) {[3]} Plus.Select).
  assert (Hr : runs Plus.step plus_start (plus_up_run ++ [Net (NData (Fd 4) (str "HAL"))]) s)
    by (eapply lsteps_app; [exact plus_up_runs|]; apply execute_runs; vm_compute; reflexivity).
  assert (Hr' : runs Plus.step s (tail hal_run) hal_end) by (apply execute_runs; vm_compute; reflexivity).
  apply (plus_server_drains 3 plus_start (plus_up_run ++ [Net (NData (Fd 4) (str "HAL"))]) s (tail hal_run) hal_end);
    [reflexivity|exact Hr|discriminate| |exact Hr'].
  repeat constructor.
Defined.

Lemma plus_server_undefined_iff_witness :
  exists s, runs Plus.step plus_start [Net NConnect; Server fine; Server fine; Server fine; Server fine] s /\
    Plus.step (Server (mkTold false NUL (fun _ => WAccept 0))) s = UB.
Proof.
  pose (s := Plus.mkSt 3 (mkK true [Peer_new] ∅ ∅ []) {[3]} {[3]} NUL (Plus.Visit 3)).
  assert (Hr : runs Plus.step plus_start [Net NConnect; Server fine; Server fine; Server fine; Server fine] s)
    by (apply execute_runs; vm_compute; reflexivity).
  exists s. split; [exact Hr|].
  apply (plus_server_undefined_iff 3 plus_start [Net NConnect; Server fine; Server fine; Server fine; Server fine] s);
    [reflexivity|exact Hr|]. split; [reflexivity|]. split; [exact (proj2 (elem_of_singleton (C := gset Z) 3 3) eq_refl)|by left].
Defined.

Definition zeros : bytes := replicate 1025 NUL.
Definition greet_run : list label := Net NConnect :: replicate 34 (Server fine).
Definition greeted : Greet.St :=
  Greet.mkSt 3 (conn_4 (Peer [] false false Greet.message)) (4 :: replicate 29 0) {[3]} zeros Greet.Top.

Lemma zeros_terminated : Greet.terminated zeros.
Proof. by split. Qed.

Lemma greet_runs : runs Greet.step (Greet.start 3 zeros) greet_run greeted.
Proof. apply execute_runs. vm_compute. reflexivity. Qed.


Lemma greet_server_echoes_witness :
  exists s' q, runs Greet.step greeted (Net (NData (Fd 4) (str "hi")) :: replicate 34 (Server fine)) s' /\
    k_conns (Greet.kern s') !! 4 = Some q /\ Greet.holds 4 s' q = Greet.message ++ str "hi".
Proof.
  assert (E : exists s', execute Greet.step (Net (NData (Fd 4) (str "hi")) :: replicate 34 (Server fine)) greeted
    = Some s') by (vm_compute; eexists; reflexivity).
  destruct E as [s' E]. apply execute_runs in E.
  destruct (greet_server_echoes 3 zeros greet_run greeted 4 (Peer [] false false Greet.message)
    (Net (NData (Fd 4) (str "hi")) :: replicate 34 (Server fine)) s' eq_refl eq_refl zeros_terminated)
    as (q & H1 & H2 & _); [repeat constructor|exact greet_runs|reflexivity| |reflexivity| |exact E|].
  - split; [by split|]. intros H. by apply not_elem_of_nil in H.
  - constructor; [split; [exact I|by apply (bool_decide_unpack (NUL ∉ _)); vm_compute]|]. apply Forall_replicate. split; [reflexivity|].
    exists 2000%nat. split; [reflexivity|]. by apply Nat.leb_le.
  - exists s', q. split; [exact E|]. split; [exact H1|exact H2].
Defined.
