(* ===== verification/ProcLocks.v ===== *)
(** * Locks between processes
      ([linux_program/ch07/manager_by_file_lock_7.c],
       [linux_program/ch14_semaphore_shareMemory_mq/01_semaphore.c])

    Any number of processes run the same program and take turns in a critical
    section: with a lock file that is created exclusively, or with a System V
    semaphore.  A step of a process is one system call with the code around it. *)

From S2P Require Import Prelude CppInt Turns.

(** ** A lock file *)

Module LockFile.

(** [Try]: at the condition of [while (tries--)]; [Holds]: between [open] and
    [unlink]; the second [sleep] of a round is part of the way back to [Try]. *)
Inductive pc : Type := Try | Open | Holds | Closed | Exited.

Record proc := mkProc { tries : Z; pc_ : pc }.
Record St := mkSt { lock_file : bool; procs : list proc }.

Definition set (t : nat) (p : proc) (file : bool) (s : St) : St := mkSt file (<[t := p]> (procs s)).

(** Process [t]; [fail]: [open] fails for a reason of its own. *)
Definition main (t : nat) (fail : bool) (s : St) : outcome (option St) :=
  match procs s !! t with
  | None => Ok None
  | Some p =>
      match pc_ p with
      | Try =>
          n ← schk 32 (tries p - 1);
          Ok (Some (set t (mkProc n (if decide (tries p = 0) then Exited else Open)) (lock_file s) s))
      | Open =>
          if fail || lock_file s then Ok (Some (set t (mkProc (tries p) Try) (lock_file s) s))
          else Ok (Some (set t (mkProc (tries p) Holds) true s))
      | Holds => Ok (Some (set t (mkProc (tries p) Closed) (lock_file s) s))
      | Closed => Ok (Some (set t (mkProc (tries p) Try) false s))
      | Exited => Ok None
      end
  end.

Record label := mkLabel { l_proc : nat; l_fail : bool }.
Definition step (l : label) (s : St) : outcome (option St) := main (l_proc l) (l_fail l) s.

(** [n] processes; [file]: a lock file is already there. *)
Definition start (n : nat) (file : bool) : St := mkSt file (replicate n (mkProc 10 Try)).

(** ** The invariant *)

Definition inside (p : proc) : Z := match pc_ p with Holds | Closed => 1 | _ => 0 end.
Lemma holder_nonneg p : 0 <= inside p.
Proof. unfold inside. destruct (pc_ p); lia. Qed.

Definition tries_ok (p : proc) : Prop :=
  match pc_ p with Try => 0 <= tries p <= 10 | Exited => tries p = -1 | _ => 0 <= tries p < 10 end.

(** [stale]: the file that was there at the start, and that nobody removes. *)
Record inv (n : nat) (stale : bool) (s : St) : Prop := {
  i_len : length (procs s) = n;
  i_tries : Forall tries_ok (procs s);
  i_sum : sum_over inside (procs s) + Z.b2z stale = Z.b2z (lock_file s);
}.

Lemma lockfile_start_inv n file : inv n file (start n file).
Proof.
  split; simpl; [apply length_replicate|by apply Forall_replicate|].
  rewrite sum_over_zero by (by apply Forall_replicate). lia.
Qed.

(** The steps left to a process. *)
Definition to_go (p : proc) : Z :=
  match pc_ p with
  | Try => 4 * tries p + 1 | Open => 4 * tries p + 4 | Holds => 4 * tries p + 3 | Closed => 4 * tries p + 2 | Exited => 0
  end.

Lemma tries_to_go p : tries_ok p -> 0 <= to_go p <= 41.
Proof. unfold tries_ok, to_go. destruct (pc_ p); lia. Qed.

Lemma lockfile_step n stale l s s' :
  inv n stale s -> step l s = Ok (Some s') ->
  inv n stale s' /\ sum_over to_go (procs s') + 1 <= sum_over to_go (procs s).
Proof.
  intros [H1 H2 H3] E. destruct l as [t fail]. unfold step, main in E. simpl in E.
  destruct (procs s !! t) as [p|] eqn:Hp; [|done]. pose proof (Forall_lookup_1 _ _ _ _ H2 Hp) as Hok.
  assert (Hset : forall q file, s' = set t q file s -> tries_ok q -> to_go q + 1 <= to_go p ->
    inside q - inside p = Z.b2z file - Z.b2z (lock_file s) ->
    inv n stale s' /\ sum_over to_go (procs s') + 1 <= sum_over to_go (procs s)).
  { intros q file -> Hq Hg Hi. split; [|simpl; rewrite (sum_over_insert _ _ _ _ q Hp); lia].
    split; simpl; [by rewrite length_insert|by apply Forall_insert|].
    rewrite (sum_over_insert _ _ _ _ q Hp). lia. }
  pose proof (sum_over_at inside _ t p holder_nonneg Hp) as Hin.
  unfold tries_ok, to_go, inside in *. destruct (pc_ p) eqn:Ep; simpl in E.
  - unfold schk in E. destruct (decide (in_s 32 (tries p - 1))); cbn in E; [|done]. injection E as <-. eapply Hset; [done|..]; simpl; case_decide; simpl; lia.
  - destruct fail; simpl in E; [|destruct (lock_file s) eqn:Ef]; injection E as <-; eapply Hset; try done; simpl; lia.
  - injection E as <-. eapply Hset; [done|..]; simpl; lia.
  - injection E as <-. destruct (lock_file s); simpl in *; [|destruct stale; simpl in *; lia].
    eapply Hset; [done|..]; simpl; lia.
  - done.
Qed.

Lemma lockfile_defined n stale l s : inv n stale s -> exists r, step l s = Ok r.
Proof.
  intros [_ H2 _]. destruct l as [t fail]. unfold step, main. simpl. destruct (procs s !! t) as [p|] eqn:Hp; [|by eexists].
  pose proof (Forall_lookup_1 _ _ _ _ H2 Hp) as Hok. unfold tries_ok in Hok.
  destruct (pc_ p); [|destruct (fail || lock_file s)|..]; try by eexists.
  unfold schk. rewrite (decide_True (P := in_s 32 (tries p - 1))) by (unfold in_s; simpl; lia). by eexists.
Qed.

Lemma lockfile_stuck s t p :
  (forall l, step l s = Ok None) -> procs s !! t = Some p -> pc_ p = Exited.
Proof.
  intros Hs Hp. specialize (Hs (mkLabel t false)). unfold step, main in Hs. simpl in Hs. rewrite Hp in Hs.
  destruct (pc_ p); try done; [|by destruct (lock_file s)].
  unfold schk in Hs. by destruct (decide (in_s 32 (tries p - 1))).
Qed.

Lemma lockfile_runs n stale ls s : runs step (start n stale) ls s -> inv n stale s /\ len ls <= 41 * Z.of_nat n.
Proof.
  intros Hr.
  assert (Hnn : forall s, inv n stale s -> 0 <= sum_over to_go (procs s)).
  { intros s0 Hi. apply sum_over_forall. eapply Forall_impl; [apply (i_tries _ _ _ Hi)|]. intros p Hp. by apply tries_to_go. }
  destruct (runs_bounded0 step (inv n stale) (fun s => sum_over to_go (procs s)) (start n stale) ls s) as [Hi Hl];
    [apply lockfile_step|exact Hnn|apply lockfile_start_inv|exact Hr|]. split; [done|].
  assert (sum_over to_go (procs (start n stale)) = 41 * Z.of_nat n); [|lia]. clear. simpl.
  induction n as [|n IH]; [done|]. cbn [replicate sum_over]. rewrite IH. unfold to_go. simpl. lia.
Qed.
End LockFile.

(** ** A System V semaphore *)

Module SysV.

(** The points of [main]: [First], [Second]: before the two [printf]s; [Post]: before
    [semaphore_v]; [Failed]: it has called [exit(EXIT_FAILURE)]. *)
Inductive pc : Type := SetVal | Wait | First | Second | Post | Finish | Del | Done | Failed.

(** [argc_gt_1]: the process initialises and removes the semaphore; [semadj]: what the
    kernel undoes when it exits. *)
Record proc := mkProc { argc_gt_1 : bool; i_ : Z; semadj : Z; pc_ : pc }.

(** [sem]: the value of the semaphore, [None] when it has been removed. *)
Record St := mkSt { sem : option Z; procs : list proc; out : list Ascii.ascii }.

Definition op_char (p : proc) : Ascii.ascii := if argc_gt_1 p then "x"%char else "O"%char.

Definition set (t : nat) (p : proc) (s : St) : St := mkSt (sem s) (<[t := p]> (procs s)) (out s).
Definition goto (c : pc) (p : proc) : proc := mkProc (argc_gt_1 p) (i_ p) (semadj p) c.

(** [exit]: the adjustment is added, down to 0. *)
Definition exit (t : nat) (p : proc) (c : pc) (s : St) : St :=
  mkSt ((fun v => Z.max 0 (v + semadj p)) <$> sem s) (<[t := mkProc (argc_gt_1 p) (i_ p) 0 c]> (procs s)) (out s).

(** [semctl(sem_id, 0, SETVAL, 1)] also clears the adjustments of all processes. *)
Definition set_semvalue (s : St) : option St :=
  match sem s with
  | None => None
  | Some _ => Some (mkSt (Some 1) (map (fun p => mkProc (argc_gt_1 p) (i_ p) 0 (pc_ p)) (procs s)) (out s))
  end.

(** [semop] with [SEM_UNDO]: [None] while it waits, [Some None] when it fails. *)
Definition semaphore_p (p : proc) (s : St) : option (option (proc * St)) :=
  match sem s with
  | None => Some None
  | Some v =>
      if decide (0 < v)
      then Some (Some (mkProc (argc_gt_1 p) (i_ p) (semadj p + 1) (pc_ p), mkSt (Some (v - 1)) (procs s) (out s)))
      else None
  end.
Definition semaphore_v (p : proc) (s : St) : option (proc * St) :=
  match sem s with
  | None => None
  | Some v => Some (mkProc (argc_gt_1 p) (i_ p) (semadj p - 1) (pc_ p), mkSt (Some (v + 1)) (procs s) (out s))
  end.

Definition main (t : nat) (s : St) : option St :=
  match procs s !! t with
  | None => None
  | Some p =>
      match pc_ p with
      | SetVal =>
          match set_semvalue s with
          | None => Some (exit t p Failed s)
          | Some s => Some (set t (mkProc (argc_gt_1 p) (i_ p) 0 Wait) s)
          end
      | Wait =>
          if decide (i_ p < 10) then
            match semaphore_p p s with
            | None => None
            | Some None => Some (exit t p Failed s)
            | Some (Some (p, s)) => Some (set t (goto First p) s)
            end
          else Some (set t (goto Finish p) s)
      | First => Some (set t (goto Second p) (mkSt (sem s) (procs s) (out s ++ [op_char p])))
      | Second => Some (set t (goto Post p) (mkSt (sem s) (procs s) (out s ++ [op_char p])))
      | Post =>
          match semaphore_v p s with
          | None => Some (exit t p Failed s)
          | Some (p, s) => Some (set t (mkProc (argc_gt_1 p) (i_ p + 1) (semadj p) Wait) s)
          end
      | Finish => if argc_gt_1 p then Some (set t (goto Del p) s) else Some (exit t p Done s)
      | Del => Some (exit t p Done (mkSt None (procs s) (out s)))
      | Done | Failed => None
      end
  end.

Definition step (t : nat) (s : St) : outcome (option St) := Ok (main t s).

(** Processes with these values of [argc > 1], on a semaphore of value [v]; [semget]
    makes it with value 0 when there is none. *)
Definition start (v : Z) (initialisers : list bool) : St :=
  mkSt (Some v) (map (fun b : bool => mkProc b 0 0 (if b then SetVal else Wait)) initialisers) [].

(** ** One initialiser *)

Definition inside (p : proc) : Z := match pc_ p with First | Second | Post => 1 | _ => 0 end.
Lemma inside_nonneg p : 0 <= inside p.
Proof. unfold inside. destruct (pc_ p); lia. Qed.

Definition second (p : proc) : list Ascii.ascii := match pc_ p with Second => [op_char p] | _ => [] end.
Definition seconds (l : list proc) : list Ascii.ascii := flat_map second l.
Definition doubled (cs : list Ascii.ascii) : list Ascii.ascii := flat_map (fun c => [c; c]) cs.

Lemma seconds_same l t p q : l !! t = Some p -> second q = second p -> seconds (<[t := q]> l) = seconds l.
Proof.
  intros Hp E. revert t Hp. induction l as [|x l IH]; intros [|t] Hp; simplify_eq/=; [by rewrite E|].
  unfold seconds in *. by rewrite IH.
Qed.

Lemma second_none p : inside p <= 0 -> second p = [].
Proof. unfold inside, second. destruct (pc_ p); try done; lia. Qed.

Lemma seconds_none l : sum_over inside l <= 0 -> seconds l = [].
Proof.
  induction l as [|x l IH]; [done|]. simpl. pose proof (inside_nonneg x). pose proof (sum_over_nonneg inside l inside_nonneg).
  intros Hs. by rewrite IH, second_none by lia.
Qed.

Lemma seconds_alone l t p q :
  sum_over inside l <= 1 -> l !! t = Some p -> inside p = 1 -> seconds (<[t := q]> l) = second q.
Proof.
  revert t. induction l as [|x l IH]; intros [|t] Hs Hp Hi; simplify_eq/=.
  - rewrite seconds_none by lia. apply app_nil_r.
  - pose proof (sum_over_at inside l t p inside_nonneg Hp). pose proof (inside_nonneg x).
    rewrite (second_none x) by lia. apply IH; [lia|done|done].
Qed.

Definition proc_ok (t0 t : nat) (sem : option Z) (p : proc) : Prop :=
  (argc_gt_1 p = true <-> t = t0) /\ semadj p = inside p /\
  match pc_ p with
  | SetVal => t = t0 /\ i_ p = 0
  | Wait => 0 <= i_ p <= 10
  | First | Second | Post => 0 <= i_ p < 10
  | Finish | Done => i_ p = 10
  | Del => t = t0 /\ i_ p = 10
  | Failed => sem = None
  end.

(** What the initialiser's place says about the semaphore. *)
Definition sem_ok (c : pc) (sem : option Z) (held : Z) : Prop :=
  match c with
  | SetVal => sem = Some 0 /\ held = 0
  | Done => sem = None /\ held <= 1
  | Failed => False
  | _ => exists v, sem = Some v /\ 0 <= v /\ v + held = 1
  end.

Record inv (t0 n : nat) (s : St) : Prop := {
  i_len : length (procs s) = n;
  i_procs : forall t p, procs s !! t = Some p -> proc_ok t0 t (sem s) p;
  i_sem : exists p, procs s !! t0 = Some p /\ sem_ok (pc_ p) (sem s) (sum_over inside (procs s));
  i_out : exists cs, out s = doubled cs ++ seconds (procs s);
}.

Lemma sem_held c sem held : sem_ok c sem held -> held <= 1.
Proof. destruct c; simpl; intros H; try (destruct H as (v & _ & ? & ?); lia); try done; destruct H; lia. Qed.

Definition only_at (t0 : nat) (bs : list bool) : Prop := forall t, bs !! t = Some true <-> t = t0.

Lemma all_start_inv t0 bs : only_at t0 bs -> inv t0 (length bs) (start 0 bs).
Proof.
  intros Hb. assert (Hz : sum_over inside (procs (start 0 bs)) = 0).
  { apply sum_over_zero. simpl. apply Forall_fmap, Forall_forall. intros b _. by destruct b. }
  split; [by simpl; rewrite length_fmap| | |].
  - intros t p Hp. simpl in Hp. apply list_lookup_fmap_Some in Hp as (b & -> & Hbt). specialize (Hb t).
    destruct b; (split; [|split; [done|]]); simpl.
    + split; [intros _; by apply Hb|done].
    + split; [by apply Hb|done].
    + split; [done|]. intros Ht. apply Hb in Ht. congruence.
    + lia.
  - exists (mkProc true 0 0 SetVal). split; [|by rewrite Hz].
    simpl. rewrite list_lookup_fmap. by rewrite (proj2 (Hb t0) eq_refl).
  - exists []. simpl in *. symmetry. apply seconds_none. lia.
Qed.

(** A step of one process that leaves the others alone. *)
Lemma inv_set t0 n s t p q sem' out' :
  inv t0 n s -> procs s !! t = Some p ->
  (sem s = None -> sem' = None) -> proc_ok t0 t sem' q ->
  (t <> t0 -> forall p0, procs s !! t0 = Some p0 ->
     sem_ok (pc_ p0) sem' (sum_over inside (procs s) - inside p + inside q)) ->
  (t = t0 -> sem_ok (pc_ q) sem' (sum_over inside (procs s) - inside p + inside q)) ->
  (exists cs, out' = doubled cs ++ seconds (<[t := q]> (procs s))) ->
  inv t0 n (mkSt sem' (<[t := q]> (procs s)) out').
Proof.
  intros [H1 H2 (p0 & Hp0 & H3) _] Hp Hn Hq Hother Hself Hout. split; simpl.
  - by rewrite length_insert.
  - intros u r Hu. apply list_lookup_insert_Some in Hu as [(-> & <- & _)|[_ Hu]]; [done|].
    destruct (H2 u r Hu) as (Ha & Hb & Hc). split; [done|]. split; [done|].
    destruct (pc_ r); try done. by apply Hn.
  - rewrite (sum_over_insert _ _ _ _ q Hp). destruct (decide (t = t0)) as [->|Hne].
    + exists q. split; [apply list_lookup_insert_eq; by eapply lookup_lt_Some|by apply Hself].
    + exists p0. split; [by rewrite list_lookup_insert_ne|by apply Hother].
  - done.
Qed.

Lemma sem_take c v held : sem_ok c (Some v) held -> 0 < v -> sem_ok c (Some (v - 1)) (held + 1).
Proof.
  destruct c; simpl; intros H Hv; try (destruct H as (w & [= ->] & ? & ?); exists (w - 1); split; [done|lia]); try done.
  - destruct H as [[= ->] _]. lia.
  - by destruct H.
Qed.

Lemma sem_give c v held : sem_ok c (Some v) held -> 1 <= held -> sem_ok c (Some (v + 1)) (held - 1).
Proof.
  destruct c; simpl; intros H Hv; try (destruct H as (w & [= ->] & ? & ?); exists (w + 1); split; [done|lia]); try done.
  - destruct H as [_ ->]. lia.
  - by destruct H.
Qed.

Lemma sem_nonneg c v held : sem_ok c (Some v) held -> 0 <= v.
Proof. destruct c; simpl; intros H; try (destruct H as (w & [= ->] & ? & ?); done); try done; by destruct H as [[= ->] _]. Qed.

Lemma sem_gone c held held' : sem_ok c None held -> held' <= held -> sem_ok c None held'.
Proof. destruct c; simpl; intros H Hl; try (by destruct H as (w & ? & _)); try done; destruct H; try done. split; [done|lia]. Qed.

Section step.
Context (t0 n : nat) (s : St) (t : nat) (p : proc) (Hi : inv t0 n s) (Hp : procs s !! t = Some p).

Lemma step_proc_ok : proc_ok t0 t (sem s) p.
Proof. by apply (i_procs _ _ _ Hi). Qed.

Lemma step_sem p0 : procs s !! t0 = Some p0 -> sem_ok (pc_ p0) (sem s) (sum_over inside (procs s)).
Proof. intros Hp0. destruct (i_sem _ _ _ Hi) as (q & Hq & H). congruence. Qed.

Lemma out_quiet q : second q = second p -> exists cs, out s = doubled cs ++ seconds (<[t := q]> (procs s)).
Proof.
  intros E. destruct (i_out _ _ _ Hi) as [cs Hcs]. exists cs. rewrite Hcs. f_equal. symmetry. by eapply seconds_same.
Qed.

(** A step that touches neither the semaphore nor the output. *)
Lemma step_plain q :
  proc_ok t0 t (sem s) q -> inside q = inside p -> second q = second p ->
  (t = t0 -> forall sem held, sem_ok (pc_ p) sem held -> sem_ok (pc_ q) sem held) ->
  inv t0 n (set t q s).
Proof.
  intros Hq Hin Hse Hs. apply inv_set with p; auto.
  - intros _ p0 Hp0. rewrite Hin, Z.sub_add. by apply step_sem.
  - intros ->. rewrite Hin, Z.sub_add. apply Hs; [done|]. by apply step_sem.
  - by apply out_quiet.
Qed.

Lemma step_out : inside p = 1 -> exists cs, out s = doubled cs ++ second p.
Proof.
  intros Hin. destruct (i_out _ _ _ Hi) as [cs Hcs]. exists cs. rewrite Hcs. f_equal.
  rewrite <- (list_insert_id _ _ _ Hp) at 1. apply (seconds_alone _ _ p); [|done|done].
  destruct (i_sem _ _ _ Hi) as (p0 & _ & H). by eapply sem_held.
Qed.

(** The process leaves when the semaphore is gone. *)
Lemma step_fails : sem s = None -> (pc_ p = SetVal \/ pc_ p = Wait \/ pc_ p = Post) -> inv t0 n (exit t p Failed s).
Proof.
  intros Hn Hpc. unfold exit. rewrite Hn. simpl.
  assert (Hne : t <> t0).
  { intros ->. pose proof (step_sem p Hp) as H. rewrite Hn in H. destruct Hpc as [E|[E|E]]; rewrite E in H;
      [by destruct H|by destruct H as (? & ? & _)..]. }
  apply inv_set with p; try done.
  - split; [apply step_proc_ok|]. split; [done|]. done.
  - intros _ p0 Hp0. pose proof (step_sem p0 Hp0) as H. rewrite Hn in H. eapply sem_gone; [exact H|].
    unfold inside at 3. simpl. pose proof (inside_nonneg p). lia.
  - apply out_quiet. destruct Hpc as [E|[E|E]]; unfold second; by rewrite E.
Qed.

Lemma step_inside : inside p = 1 -> 1 <= sum_over inside (procs s).
Proof. intros E. pose proof (sum_over_at inside _ t p inside_nonneg Hp). lia. Qed.
End step.

Lemma sem_step_keeps t0 n t s s' : inv t0 n s -> main t s = Some s' -> inv t0 n s'.
Proof.
  intros Hi E. unfold main in E. destruct (procs s !! t) as [p|] eqn:Hp; [|done].
  pose proof (step_proc_ok t0 n s t p Hi Hp) as (Ha & Hadj & Hpc).
  pose proof (step_sem t0 n s Hi) as Hsem.
  destruct (pc_ p) eqn:Ep; simpl in Hpc.
  - destruct Hpc as [-> Hi0]. pose proof (Hsem p Hp) as H. rewrite Ep in H. destruct H as [Hs Hheld].
    unfold set_semvalue in E. rewrite Hs in E. injection E as <-.
    assert (Hmap : map (fun p => mkProc (argc_gt_1 p) (i_ p) 0 (pc_ p)) (procs s) = procs s).
    { apply list_eq. intros u. rewrite list_lookup_fmap. destruct (procs s !! u) as [q|] eqn:Hq; [|done]. simpl.
      destruct (i_procs _ _ _ Hi u q Hq) as (_ & Hadj' & _). f_equal.
      assert (semadj q = 0) as E0.
      { pose proof (sum_over_at inside _ u q inside_nonneg Hq). pose proof (inside_nonneg q). lia. }
      destruct q; simpl in *. by rewrite E0. }
    unfold set. simpl. rewrite Hmap. apply inv_set with p; try done.
    + congruence.
    + split; [done|]. split; [done|]. simpl. lia.
    + intros _. exists 1. split; [done|]. assert (inside p = 0) as -> by (unfold inside; by rewrite Ep).
      change (inside (mkProc (argc_gt_1 p) (i_ p) 0 Wait)) with 0. lia.
    + apply (out_quiet t0 n s t0 p Hi Hp). unfold second. simpl. by rewrite Ep.
  - case_decide as Hlt.
    2:{ injection E as <-. apply (step_plain t0 n s t p Hi Hp).
        - split; [done|]. split; [by unfold inside in *; rewrite Ep in Hadj|]. simpl. lia.
        - unfold inside. by rewrite Ep.
        - unfold second. by rewrite Ep.
        - intros _ sm held. by rewrite Ep. }
    unfold semaphore_p in E. destruct (sem s) as [v|] eqn:Hv; [|injection E as <-; apply (step_fails t0 n); auto].
    case_decide as Hv0; [|done]. injection E as <-. unfold set, goto. simpl. apply inv_set with p; try done.
    + congruence.
    + split; [done|]. unfold inside in *. simpl. rewrite Ep in Hadj. split; lia.
    + intros _ p0 Hp0. unfold inside at 2 3. simpl. rewrite Ep, Z.sub_0_r. apply sem_take; [by apply Hsem|done].
    + intros ->. unfold inside at 2 3. simpl. rewrite Ep, Z.sub_0_r. apply (sem_take Wait); [|done].
      rewrite <- Ep. by apply Hsem.
    + apply (out_quiet t0 n s t p Hi Hp). unfold second. simpl. by rewrite Ep.
  - injection E as <-. unfold set, goto. simpl. assert (Hin : inside p = 1) by (unfold inside; by rewrite Ep).
    destruct (step_out t0 n s t p Hi Hp Hin) as [cs Hcs]. apply inv_set with p; try done.
    + split; [done|]. split; [by rewrite Hadj|done].
    + intros _ p0 Hp0. rewrite Hin. unfold inside at 2. simpl. rewrite Z.sub_add. by apply Hsem.
    + intros ->. rewrite Hin. unfold inside at 2. simpl. rewrite Z.sub_add. pose proof (Hsem p Hp) as H. by rewrite Ep in H.
    + exists cs. rewrite (seconds_alone _ _ p); [|destruct (i_sem _ _ _ Hi) as (p0 & _ & H); by eapply sem_held|done|done].
      rewrite Hcs. unfold second. simpl. by rewrite Ep, app_nil_r.
  - injection E as <-. unfold set, goto. simpl. assert (Hin : inside p = 1) by (unfold inside; by rewrite Ep).
    destruct (step_out t0 n s t p Hi Hp Hin) as [cs Hcs]. apply inv_set with p; try done.
    + split; [done|]. split; [by rewrite Hadj|done].
    + intros _ p0 Hp0. rewrite Hin. unfold inside at 2. simpl. rewrite Z.sub_add. by apply Hsem.
    + intros ->. rewrite Hin. unfold inside at 2. simpl. rewrite Z.sub_add. pose proof (Hsem p Hp) as H. by rewrite Ep in H.
    + exists (cs ++ [op_char p]).
      rewrite (seconds_alone _ _ p); [|destruct (i_sem _ _ _ Hi) as (p0 & _ & H); by eapply sem_held|done|done].
      rewrite Hcs. unfold second, doubled. simpl. rewrite Ep, flat_map_app, app_nil_r, <- app_assoc. done.
  - unfold semaphore_v in E. destruct (sem s) as [v|] eqn:Hv; [|injection E as <-; apply (step_fails t0 n); auto].
    injection E as <-. unfold set. simpl. assert (Hin : inside p = 1) by (unfold inside; by rewrite Ep).
    pose proof (step_inside s t p Hp Hin) as Hone. apply inv_set with p; try done.
    + congruence.
    + split; [done|]. simpl. change (inside (mkProc (argc_gt_1 p) (i_ p + 1) (semadj p - 1) Wait)) with 0. split; lia.
    + intros _ p0 Hp0. rewrite Hin. unfold inside at 2. simpl. rewrite Z.add_0_r. apply sem_give; [by apply Hsem|done].
    + intros ->. rewrite Hin. unfold inside at 2. simpl. rewrite Z.add_0_r. apply (sem_give Post); [|done].
      rewrite <- Ep. by apply Hsem.
    + apply (out_quiet t0 n s t p Hi Hp). unfold second. simpl. by rewrite Ep.
  - destruct (argc_gt_1 p) eqn:Earg.
    + injection E as <-. apply (step_plain t0 n s t p Hi Hp).
      * split; [simpl; by rewrite Earg|]. unfold inside in *. rewrite Ep in Hadj. split; [done|]. simpl. split; [by apply Ha|done].
      * unfold inside. by rewrite Ep.
      * unfold second. by rewrite Ep.
      * intros _ sm held. by rewrite Ep.
    + injection E as <-. assert (Hne : t <> t0) by (intros H; apply Ha in H; congruence).
      assert (Hadj0 : semadj p = 0) by (rewrite Hadj; unfold inside; by rewrite Ep).
      assert (Hin : inside p = 0) by lia.
      unfold exit. rewrite Hadj0. assert (((fun v => Z.max 0 (v + 0)) <$> sem s) = sem s) as ->.
      { destruct (i_sem _ _ _ Hi) as (p0 & _ & H). destruct (sem s) as [v|]; [|done]. apply sem_nonneg in H. simpl. f_equal. lia. }
      apply inv_set with p; try done.
      * split; [simpl; by rewrite Earg|]. done.
      * intros _ p0 Hp0. rewrite Hin. unfold inside at 2. simpl. rewrite Z.sub_0_r, Z.add_0_r. by apply Hsem.
      * apply (out_quiet t0 n s t p Hi Hp). unfold second. simpl. by rewrite Ep.
  - destruct Hpc as [-> Hi10]. injection E as <-. unfold exit. simpl.
    assert (Hin : inside p = 0) by (unfold inside; by rewrite Ep). apply inv_set with p; try done.
    + intros _. split; [done|]. rewrite Hin. unfold inside at 2. simpl. pose proof (Hsem p Hp) as H. rewrite Ep in H.
      apply sem_held in H. lia.
    + apply (out_quiet t0 n s t0 p Hi Hp). unfold second. simpl. by rewrite Ep.
  - done.
  - done.
Qed.

(** ** The end *)

(** The steps left to a process. *)
Definition to_go (p : proc) : Z :=
  match pc_ p with
  | SetVal => 44
  | Wait => 4 * (10 - i_ p) + 3
  | First => 4 * (10 - i_ p) + 2
  | Second => 4 * (10 - i_ p) + 1
  | Post => 4 * (10 - i_ p)
  | Finish => 2
  | Del => 1
  | Done | Failed => 0
  end.

Lemma to_go_range t0 t sem p : proc_ok t0 t sem p -> 0 <= to_go p <= 44.
Proof. intros (_ & _ & H). unfold to_go. destruct (pc_ p); lia. Qed.

Lemma sum_to_go t0 n s : inv t0 n s -> 0 <= sum_over to_go (procs s).
Proof.
  intros Hi. apply sum_over_forall, Forall_lookup. intros t p Hp. eapply to_go_range. by apply (i_procs _ _ _ Hi).
Qed.

Lemma main_to_go t0 n t s s' :
  inv t0 n s -> main t s = Some s' -> sum_over to_go (procs s') + 1 <= sum_over to_go (procs s).
Proof.
  intros Hi E. unfold main in E. destruct (procs s !! t) as [p|] eqn:Hp; [|done].
  pose proof (i_procs _ _ _ Hi t p Hp) as (_ & _ & Hpc).
  assert (Hset : forall q, to_go q + 1 <= to_go p ->
            sum_over to_go (<[t := q]> (procs s)) + 1 <= sum_over to_go (procs s))
    by (intros q Hq; rewrite (sum_over_insert _ _ _ _ q Hp); lia).
  unfold to_go in Hset at 1 2. destruct (pc_ p) eqn:Ep; simpl in Hpc.
  - unfold set_semvalue in E. destruct (sem s); injection E as <-; [|apply Hset; simpl; lia].
    simpl. set (f := fun p => _). assert (Hf : forall l, sum_over to_go (map f l) = sum_over to_go l).
    { induction l as [|x l IH]; [done|]. simpl. rewrite IH. by destruct x. }
    rewrite (sum_over_insert _ _ _ (f p)) by (by rewrite list_lookup_fmap, Hp).
    rewrite Hf. unfold to_go at 2 3. simpl. rewrite Ep. lia.
  - case_decide; [|injection E as <-; apply Hset; simpl; lia].
    unfold semaphore_p in E. destruct (sem s); [case_decide; [|done]|]; injection E as <-; apply Hset; simpl; lia.
  - injection E as <-. apply Hset; simpl; lia.
  - injection E as <-. apply Hset; simpl; lia.
  - unfold semaphore_v in E. destruct (sem s); injection E as <-; apply Hset; simpl; lia.
  - destruct (argc_gt_1 p); injection E as <-; apply Hset; simpl; lia.
  - injection E as <-. apply Hset; simpl; lia.
  - done.
  - done.
Qed.

Lemma sem_runs t0 bs ls s :
  only_at t0 bs -> runs step (start 0 bs) ls s -> inv t0 (length bs) s /\ len ls <= 44 * len bs.
Proof.
  intros Hb Hr.
  destruct (runs_bounded0 step (inv t0 (length bs)) (fun s => sum_over to_go (procs s)) (start 0 bs) ls s) as [Hi Hl];
    [|intros s0; apply sum_to_go|by apply all_start_inv|exact Hr|].
  { intros t s1 s2 H1 [= H2]. split; [by eapply sem_step_keeps|by eapply main_to_go]. }
  split; [done|]. assert (sum_over to_go (procs (start 0 bs)) <= 44 * len bs); [|lia].
  clear. simpl. induction bs as [|b bs IH]; [done|]. simpl. destruct b; unfold to_go at 1; simpl; lia.
Qed.

(** Nobody waits for ever. *)
Lemma sem_stuck t0 n s :
  inv t0 n s -> (forall t, step t s = Ok None) ->
  forall t p, procs s !! t = Some p -> (t = t0 -> pc_ p = Done /\ i_ p = 10) /\ (pc_ p = Done \/ pc_ p = Failed).
Proof.
  intros Hi Hs. assert (Hm : forall t, main t s = None) by (intros t; pose proof (Hs t) as E; by injection E).
  assert (Hcases : forall t p, procs s !! t = Some p ->
            pc_ p = Done \/ pc_ p = Failed \/ (pc_ p = Wait /\ exists v, sem s = Some v /\ v <= 0)).
  { intros t p Hp. specialize (Hm t). unfold main in Hm. rewrite Hp in Hm. destruct (pc_ p); auto; try done.
    - by destruct (set_semvalue s).
    - case_decide; [|done]. unfold semaphore_p in Hm. destruct (sem s) as [v|]; [|done]. case_decide; [done|].
      right; right. split; [done|]. exists v. split; [done|lia].
    - by destruct (semaphore_v p s) as [[]|].
    - by destruct (argc_gt_1 p). }
  assert (Hz : sum_over inside (procs s) = 0).
  { apply sum_over_zero, Forall_lookup. intros t p Hp. unfold inside. destruct (Hcases t p Hp) as [->|[->|[-> _]]]; done. }
  destruct (i_sem _ _ _ Hi) as (p0 & Hp0 & H0). rewrite Hz in H0.
  assert (Hd : pc_ p0 = Done).
  { destruct (Hcases t0 p0 Hp0) as [|[E|(E & v & Hv & Hle)]]; [done|by rewrite E in H0|].
    rewrite E in H0. destruct H0 as (w & Hw & _ & Hsum). rewrite Hv in Hw. injection Hw as ->. lia. }
  rewrite Hd in H0. destruct H0 as [Hn _]. intros t p Hp. split.
  - intros ->. assert (p = p0) as -> by congruence. split; [done|].
    pose proof (i_procs _ _ _ Hi t0 p0 Hp0) as (_ & _ & H). by rewrite Hd in H.
  - destruct (Hcases t p Hp) as [|[|(_ & v & Hv & _)]]; auto. congruence.
Qed.
End SysV.

(** ** Theorems *)

(** With the lock file at most one process is between [open] and [unlink], in
    every interleaving of any number of processes, and the file is there exactly while
    one is; a file left from before keeps all of them out. *)
Theorem lock_file_excludes n stale ls s t u p q :
  runs LockFile.step (LockFile.start n stale) ls s ->
  LockFile.procs s !! t = Some p -> LockFile.procs s !! u = Some q ->
  1 <= LockFile.inside p -> 1 <= LockFile.inside q ->
  t = u /\ stale = false /\ LockFile.lock_file s = true.
Proof.
  intros Hr Hp Hq Hip Hiq. destruct (LockFile.lockfile_runs n stale ls s Hr) as [[_ _ Hs] _].
  pose proof (sum_over_at LockFile.inside _ t p LockFile.holder_nonneg Hp).
  destruct (LockFile.lock_file s), stale; simpl in Hs; try lia. split; [|done].
  apply (sum_over_one LockFile.inside (LockFile.procs s) t u p q); try done; [apply LockFile.holder_nonneg|lia].
Qed.

(** No process waits for another: every run of [n] processes has at most [41 n] steps,
    each of them defined, and when none can go on all have made their ten tries and
    no lock file is left, but for one that was there before. *)
Theorem lock_file_ends n stale ls s :
  runs LockFile.step (LockFile.start n stale) ls s ->
  len ls <= 41 * Z.of_nat n /\ (forall l, exists r, LockFile.step l s = Ok r) /\
  ((forall l, LockFile.step l s = Ok None) ->
     Forall (fun p => LockFile.pc_ p = LockFile.Exited /\ LockFile.tries p = -1) (LockFile.procs s) /\
     LockFile.lock_file s = stale).
Proof.
  intros Hr. destruct (LockFile.lockfile_runs n stale ls s Hr) as [Hi Hl]. split; [done|].
  split; [intros l; by eapply LockFile.lockfile_defined|]. intros Hst.
  assert (Hall : Forall (fun p => LockFile.pc_ p = LockFile.Exited) (LockFile.procs s)).
  { apply Forall_lookup. intros t p Hp. by eapply LockFile.lockfile_stuck. }
  split.
  - apply Forall_lookup. intros t p Hp. pose proof (Forall_lookup_1 _ _ _ _ Hall Hp) as E. split; [exact E|].
    pose proof (Forall_lookup_1 _ _ _ _ (LockFile.i_tries _ _ _ Hi) Hp) as H. unfold LockFile.tries_ok in H. by rewrite E in H.
  - pose proof (LockFile.i_sum _ _ _ Hi) as Hs. rewrite sum_over_zero in Hs.
    + destruct stale, (LockFile.lock_file s); simpl in Hs; done.
    + eapply Forall_impl; [exact Hall|]. intros p E. unfold LockFile.inside. by rewrite E.
Qed.

(** C36. With the semaphore, initialised by one process: at most one process is between
    [semaphore_p] and [semaphore_v], in every interleaving and even after the
    semaphore has been removed, so that the characters come in pairs, the two of a
    pair by the same process: only the last one may be alone. *)
Theorem semaphore_pairs t0 bs ls s :
  SysV.only_at t0 bs -> runs SysV.step (SysV.start 0 bs) ls s ->
  (forall t u p q, SysV.procs s !! t = Some p -> SysV.procs s !! u = Some q ->
     1 <= SysV.inside p -> 1 <= SysV.inside q -> t = u) /\
  exists cs tl, SysV.out s = SysV.doubled cs ++ tl /\ (length tl <= 1)%nat.
Proof.
  intros Hb Hr. destruct (SysV.sem_runs t0 bs ls s Hb Hr) as [Hi _].
  destruct (SysV.i_sem _ _ _ Hi) as (p0 & _ & H0). apply SysV.sem_held in H0. split.
  - intros t u p q Hp Hq H1 H2. apply (sum_over_one SysV.inside (SysV.procs s) t u p q); try done. apply SysV.inside_nonneg.
  - destruct (SysV.i_out _ _ _ Hi) as [cs Hcs]. exists cs, (SysV.seconds (SysV.procs s)). split; [done|].
    revert H0. clear. induction (SysV.procs s) as [|p l IH]; simpl; [lia|]. intros H.
    pose proof (SysV.inside_nonneg p). pose proof (sum_over_nonneg SysV.inside l SysV.inside_nonneg).
    rewrite length_app. destruct (decide (SysV.inside p <= 0)) as [Hp|Hp].
    + rewrite SysV.second_none by done. simpl. apply IH. lia.
    + rewrite SysV.seconds_none by lia. unfold SysV.second. destruct (SysV.pc_ p); simpl; lia.
Qed.

(** With one initialiser every run ends, after at most 44 steps for each process; the
    initialiser always completes its ten rounds, the others complete theirs or leave
    with a failure, which they do when it has removed the semaphore. *)
Theorem semaphore_ends t0 bs ls s :
  SysV.only_at t0 bs -> runs SysV.step (SysV.start 0 bs) ls s ->
  len ls <= 44 * len bs /\
  (forall t p, SysV.procs s !! t = Some p -> SysV.pc_ p = SysV.Failed -> SysV.sem s = None /\ t <> t0) /\
  ((forall t, SysV.step t s = Ok None) ->
     forall t p, SysV.procs s !! t = Some p ->
       (t = t0 -> SysV.pc_ p = SysV.Done /\ SysV.i_ p = 10) /\ (SysV.pc_ p = SysV.Done \/ SysV.pc_ p = SysV.Failed)).
Proof.
  intros Hb Hr. destruct (SysV.sem_runs t0 bs ls s Hb Hr) as [Hi Hl]. split; [done|]. split.
  - intros t p Hp E. pose proof (SysV.i_procs _ _ _ Hi t p Hp) as (_ & _ & H). rewrite E in H. split; [done|].
    intros ->. destruct (SysV.i_sem _ _ _ Hi) as (p0 & Hp0 & H0). assert (p = p0) as -> by congruence. by rewrite E in H0.
  - intros Hs. by eapply SysV.sem_stuck.
Qed.

(** ** What goes wrong *)

(** Two initialisers: the second sets the semaphore to 1 while somebody is inside. *)
Lemma two_initialisers_mix :
  SysV.out <$> execute SysV.step [0; 2; 2; 1; 1; 1]%nat (SysV.start 0 [true; true; false]) = Some ["O"; "x"]%char.
Proof. by vm_compute. Qed.

(** Without an initialiser nobody gets in. *)
Lemma no_initialiser_waits n : forall t, SysV.step t (SysV.start 0 (replicate n false)) = Ok None.
Proof.
  intros t. unfold SysV.step, SysV.main. simpl. rewrite list_lookup_fmap.
  destruct (replicate n false !! t) as [b|] eqn:E; simpl; [|done]. apply lookup_replicate in E as [-> _]. done.
Qed.

(** ** Witnesses *)

Definition two_tries : list LockFile.label :=
  let a := LockFile.mkLabel 0 false in let b := LockFile.mkLabel 1 false in [a; b; a; b; a].

Lemma lock_file_excludes_witness :
  exists s p, runs LockFile.step (LockFile.start 2 false) two_tries s /\ LockFile.procs s !! 0%nat = Some p /\
    LockFile.lock_file s = true.
Proof.
  assert (E : exists s p, execute LockFile.step two_tries (LockFile.start 2 false) = Some s /\
    LockFile.procs s !! 0%nat = Some p /\ LockFile.inside p = 1) by (vm_compute; do 2 eexists; auto).
  destruct E as (s & p & E & Hp & Hi). apply execute_runs in E. exists s, p. split; [exact E|]. split; [exact Hp|].
  apply (lock_file_excludes 2 false two_tries s 0 0 p p E Hp Hp); lia.
Defined.

Lemma lock_file_ends_witness :
  exists s, runs LockFile.step (LockFile.start 2 false) two_tries s /\ 5 <= 41 * 2.
Proof.
  assert (E : exists s, execute LockFile.step two_tries (LockFile.start 2 false) = Some s) by (vm_compute; eexists; auto).
  destruct E as (s & E). apply execute_runs in E. exists s. split; [exact E|].
  exact (proj1 (lock_file_ends 2 false two_tries s E)).
Defined.

Lemma first_only : SysV.only_at 0 [true; false].
Proof. intros [|[|[|t]]]; simpl; split; intros H; try done. Qed.

Definition in_turn : list nat := [0; 0; 0; 0; 0; 1; 1]%nat.

Lemma semaphore_pairs_witness :
  exists s cs tl, runs SysV.step (SysV.start 0 [true; false]) in_turn s /\ SysV.out s = ["x"; "x"; "O"]%char /\
    SysV.out s = SysV.doubled cs ++ tl.
Proof.
  assert (E : exists s, execute SysV.step in_turn (SysV.start 0 [true; false]) = Some s /\
    SysV.out s = ["x"; "x"; "O"]%char) by (vm_compute; eexists; auto).
  destruct E as (s & E & Ho). apply execute_runs in E.
  destruct (semaphore_pairs 0 [true; false] in_turn s first_only E) as [_ (cs & tl & H & _)].
  exists s, cs, tl. split; [exact E|]. split; [exact Ho|exact H].
Defined.

Lemma semaphore_ends_witness :
  exists s, runs SysV.step (SysV.start 0 [true; false]) in_turn s /\ 7 <= 44 * 2.
Proof.
  assert (E : exists s, execute SysV.step in_turn (SysV.start 0 [true; false]) = Some s) by (vm_compute; eexists; auto).
  destruct E as (s & E). apply execute_runs in E. exists s. split; [exact E|].
  exact (proj1 (semaphore_ends 0 [true; false] in_turn s first_only E)).
Defined.
