(* ===== verification/IpcSem.v ===== *)
(** * A semaphore across [fork] ([ipc/semaphore_01.c])

    A child posts five times and its parent waits five times.  After [fork] a
    variable exists twice, once in each process, while a mapping or a named
    semaphore is one object: [home] says which of the two a process uses.  A step is
    a call on a semaphore or a line of output. *)

From S2P Require Import Prelude CppInt Turns.

Inductive home : Type := Mapped | Own.

(** The points of the child, of the parent; [CInit], [CCopy]: the child of
    [sem_mmap_error] before [sem_init] and [memcpy]. *)
Inductive cpc : Type := CInit | CCopy | CPrint | CPost | CExit.
Inductive ppc : Type := PWait | PPrint | PExit.

Inductive line : Type := Produce (i : Z) | Consume (i : Z).

(** The values of the shared semaphore and of the two copies; [i] in both loops. *)
Record St := mkSt {
  mapped : Z; child_own : Z; parent_own : Z;
  c_pc : cpc; c_i : Z; p_pc : ppc; p_i : Z;
  out : list line;
}.

Definition nloop : Z := 5.

Section processes.
Context (child_home parent_home : home).

(** [for (i = 0; i < 5; ++i) { printf; sem_post }]; for [sem_mmap_error], what it does first. *)
Definition child (s : St) : option St :=
  let goto c := mkSt (mapped s) (child_own s) (parent_own s) c (c_i s) (p_pc s) (p_i s) (out s) in
  match c_pc s with
  | CInit => Some (mkSt (mapped s) 0 (parent_own s) CCopy (c_i s) (p_pc s) (p_i s) (out s))
  | CCopy => Some (mkSt (child_own s) (child_own s) (parent_own s) CPrint (c_i s) (p_pc s) (p_i s) (out s))
  | CPrint =>
      if decide (c_i s < nloop)
      then Some (mkSt (mapped s) (child_own s) (parent_own s) CPost (c_i s) (p_pc s) (p_i s) (out s ++ [Produce (c_i s)]))
      else Some (goto CExit)
  | CPost =>
      Some (match child_home with
            | Mapped => mkSt (mapped s + 1) (child_own s) (parent_own s) CPrint (c_i s + 1) (p_pc s) (p_i s) (out s)
            | Own => mkSt (mapped s) (child_own s + 1) (parent_own s) CPrint (c_i s + 1) (p_pc s) (p_i s) (out s)
            end)
  | CExit => None
  end.

(** [for (i = 0; i < 5; ++i) { sem_wait; printf }] *)
Definition parent (s : St) : option St :=
  match p_pc s with
  | PWait =>
      if decide (p_i s < nloop) then
        match parent_home with
        | Mapped =>
            if decide (0 < mapped s)
            then Some (mkSt (mapped s - 1) (child_own s) (parent_own s) (c_pc s) (c_i s) PPrint (p_i s) (out s)) else None
        | Own =>
            if decide (0 < parent_own s)
            then Some (mkSt (mapped s) (child_own s) (parent_own s - 1) (c_pc s) (c_i s) PPrint (p_i s) (out s)) else None
        end
      else Some (mkSt (mapped s) (child_own s) (parent_own s) (c_pc s) (c_i s) PExit (p_i s) (out s))
  | PPrint =>
      Some (mkSt (mapped s) (child_own s) (parent_own s) (c_pc s) (c_i s) PWait (p_i s + 1) (out s ++ [Consume (p_i s)]))
  | PExit => None
  end.

Inductive who : Type := Child | Parent.
Definition step (w : who) (s : St) : outcome (option St) :=
  Ok match w with Child => child s | Parent => parent s end.
End processes.

(** [sem_open] keeps the value [v] of a semaphore that exists. *)
Definition sem_mmap_named (v : Z) : St := mkSt v 0 0 CPrint 0 PWait 0 [].
(** [sem_init(sem, 1, 0)] in the mapping, before [fork]. *)
Definition sem_mmap_anon : St := mkSt 0 0 0 CPrint 0 PWait 0 [].
(** The mapped file is new: it is filled with zeros. *)
Definition sem_mmap_error : St := mkSt 0 0 0 CInit 0 PWait 0 [].
(** [sem_init(&mutex, 1, 1)], then [fork] copies [mutex]. *)
Definition sem_2_error : St := mkSt 0 1 1 CPrint 0 PWait 0 [].

(** ** Counting *)

Definition consumed (l : list line) : list Z := omap (fun x => match x with Consume i => Some i | _ => None end) l.
Definition produced (l : list line) : list Z := omap (fun x => match x with Produce i => Some i | _ => None end) l.

Lemma produced_snoc l i : produced (l ++ [Produce i]) = produced l ++ [i] /\ produced (l ++ [Consume i]) = produced l.
Proof. unfold produced. rewrite !omap_app. simpl. by rewrite app_nil_r. Qed.
Lemma consumed_snoc l i : consumed (l ++ [Consume i]) = consumed l ++ [i] /\ consumed (l ++ [Produce i]) = consumed l.
Proof. unfold consumed. rewrite !omap_app. simpl. by rewrite app_nil_r. Qed.

(** What both loops keep, whatever the semaphores. *)
Record counts (s : St) : Prop := {
  n_child : 0 <= c_i s <= nloop /\ (c_pc s = CPost -> c_i s < nloop) /\ (c_pc s = CExit -> c_i s = nloop) /\
            (c_pc s = CInit \/ c_pc s = CCopy -> c_i s = 0);
  n_parent : 0 <= p_i s <= nloop /\ (p_pc s = PPrint -> p_i s < nloop) /\ (p_pc s = PExit -> p_i s = nloop);
  n_produced : produced (out s) = seqZ 0 (c_i s + match c_pc s with CPost => 1 | _ => 0 end);
  n_consumed : consumed (out s) = seqZ 0 (p_i s);
}.

Lemma seqZ_snoc n : 0 <= n -> seqZ 0 (n + 1) = seqZ 0 n ++ [n].
Proof. intros Hn. by rewrite seqZ_app by lia. Qed.

Lemma counts_child hc s s' : counts s -> child hc s = Some s' -> counts s'.
Proof.
  intros [(H1 & H2 & H3 & H0) Hp H7 H8] E. destruct s as [m co po c ci p pi o]; simpl in *.
  unfold child in E. simpl in E.
  assert (Hci : 0 <= ci) by lia.
  destruct c; [| |case_decide| |done]; injection E as <-; [| | | |destruct hc];
    split; simpl; rewrite ?(proj1 (produced_snoc _ _)), ?(proj2 (consumed_snoc _ _)), ?H7, ?H8; try done;
    try (split_and!; try lia; intros; try done; try lia; naive_solver lia).
  - by rewrite seqZ_snoc, Z.add_0_r.
  - by rewrite Z.add_0_r.
  - by rewrite Z.add_0_r.
Qed.

Lemma counts_parent hp s s' : counts s -> parent hp s = Some s' -> counts s'.
Proof.
  intros [Hc (H4 & H5 & H6) H7 H8] E. destruct s as [m co po c ci p pi o]; simpl in *.
  unfold parent in E. simpl in E.
  destruct p; [case_decide; [destruct hp; (case_decide; [|done])|]| |done]; injection E as <-;
    split; simpl; rewrite ?(proj2 (produced_snoc _ _)), ?(proj1 (consumed_snoc _ _)), ?H7, ?H8; try done;
    try (split_and!; try lia; intros; try done; try lia; naive_solver lia).
  by rewrite seqZ_snoc by lia.
Qed.

Lemma counts_step hc hp w s s' : counts s -> step hc hp w s = Ok (Some s') -> counts s'.
Proof. intros Hi [= E]. destruct w; [by eapply counts_child|by eapply counts_parent]. Qed.

(** The steps left. *)
Definition c_left (s : St) : Z :=
  match c_pc s with
  | CInit => 2 * (nloop - c_i s) + 3 | CCopy => 2 * (nloop - c_i s) + 2
  | CPrint => 2 * (nloop - c_i s) + 1 | CPost => 2 * (nloop - c_i s) | CExit => 0
  end.
Definition p_left (s : St) : Z :=
  match p_pc s with PWait => 2 * (nloop - p_i s) + 1 | PPrint => 2 * (nloop - p_i s) | PExit => 0 end.

Lemma step_left hc hp w s s' :
  counts s -> step hc hp w s = Ok (Some s') -> counts s' /\ (c_left s' + p_left s') + 1 <= c_left s + p_left s.
Proof.
  intros Hi E. split; [by eapply counts_step|]. destruct Hi as [(H1 & H2 & H3 & H0) (H4 & H5 & H6) _ _].
  injection E as E. destruct s as [m co po c ci p pi o]; simpl in *. unfold c_left, p_left. destruct w; simpl.
  - unfold child in E. simpl in E.
    destruct c; [| |case_decide| |done]; injection E as <-; [| | | |destruct hc]; simpl; try lia; specialize (H2 eq_refl); lia.
  - unfold parent in E. simpl in E.
    destruct p; [case_decide; [destruct hp; (case_decide; [|done])|]| |done]; injection E as <-; simpl; lia.
Qed.

Lemma runs_left hc hp s ls s' :
  counts s -> runs (step hc hp) s ls s' -> counts s' /\ len ls <= c_left s + p_left s.
Proof.
  intros Hi Hr. apply (runs_bounded0 (step hc hp) counts (fun s => c_left s + p_left s) s ls s'); [|clear|done|done].
  - intros l s1 s2 H1 H2. by apply (step_left hc hp l).
  - intros s [(H1 & H2 & _) (H4 & _) _ _]. unfold c_left, p_left. destruct (c_pc s), (p_pc s); lia.
Qed.

(** ** The semaphores *)

Definition value (hp : home) (s : St) : Z := match hp with Mapped => mapped s | Own => parent_own s end.

(** Taken: the times the parent got through [sem_wait]. *)
Definition taken (s : St) : Z := p_i s + match p_pc s with PPrint => 1 | _ => 0 end.

(** A shared one counts the posts as well. *)
Definition shared_ok (v : Z) (s : St) : Prop :=
  0 <= mapped s /\ mapped s = v + c_i s - taken s /\ c_pc s <> CInit /\ c_pc s <> CCopy.

(** One's own does not. *)
Definition own_ok (hp : home) (v : Z) (s : St) : Prop :=
  0 <= value hp s /\ value hp s = v - taken s /\ 0 <= taken s /\
  (c_pc s = CCopy -> child_own s = 0) /\ (c_pc s = CInit \/ c_pc s = CCopy -> hp = Mapped /\ v = 0).

Lemma shared_step v w s s' : shared_ok v s -> step Mapped Mapped w s = Ok (Some s') -> shared_ok v s'.
Proof.
  unfold shared_ok, taken. intros (H1 & H2 & H3 & H4) [= E]. destruct s as [m co po c ci p pi o]; simpl in *. destruct w.
  - unfold child in E. simpl in E. destruct c; [| |case_decide| |done]; injection E as <-; simpl; done || (split_and!; (done || lia)).
  - unfold parent in E. simpl in E.
    destruct p; [case_decide; [case_decide; [|done]|]| |done]; injection E as <-; simpl; split_and!; (done || lia).
Qed.

Lemma own_step hp v w s s' : own_ok hp v s -> step Own hp w s = Ok (Some s') -> own_ok hp v s'.
Proof.
  unfold own_ok, taken, value. intros (H1 & H2 & H3 & H4 & H5) [= E]. destruct s as [m co po c ci p pi o]; simpl in *. destruct w.
  - unfold child in E. simpl in E. destruct c; [| |case_decide| |done]; injection E as <-; simpl.
    + split_and!; auto.
    + destruct H5 as [-> ->]; [by right|]. specialize (H4 eq_refl). split_and!; auto; try lia; try (by intros [|]).
    + split_and!; auto; try done; try (by intros [|]).
    + split_and!; auto; try done; try (by intros [|]).
    + split_and!; auto; try done; try (by intros [|]).
  - unfold parent in E. simpl in E.
    destruct p; [case_decide; [destruct hp; (case_decide; [|done])|]| |done]; injection E as <-; simpl;
      split_and!; auto; try lia; destruct hp; lia.
Qed.

(** Nobody can go on. *)
Definition stuck (hc hp : home) (s : St) : Prop := forall w, step hc hp w s = Ok None.

Lemma stuck_child hc hp s : stuck hc hp s -> c_pc s = CExit.
Proof.
  intros Hs. specialize (Hs Child). injection Hs as E. unfold child in E. destruct (c_pc s); try done. by case_decide.
Qed.

Lemma stuck_parent hc hp s : stuck hc hp s -> p_pc s = PExit \/ (p_pc s = PWait /\ p_i s < nloop /\ value hp s <= 0).
Proof.
  intros Hs. specialize (Hs Parent). injection Hs as E. unfold parent in E. destruct (p_pc s); auto; [|done].
  right. case_decide; [|done]. split; [done|]. split; [done|]. destruct hp; (case_decide; [done|]); simpl; lia.
Qed.

(** ** Theorems *)

(** C37. A semaphore in a mapping, or one with a name, is one object: the parent never
    consumes more than was there and has been produced, every run ends within 22
    steps, and at the end the child has produced and the parent consumed 0 to 4, in
    this order.  The value is then the one of the beginning, which a named semaphore
    takes to the next run, as nobody unlinks it. *)
Theorem shared_semaphore_delivers v ls s :
  0 <= v -> runs (step Mapped Mapped) (sem_mmap_named v) ls s ->
  len (consumed (out s)) <= v + len (produced (out s)) /\ len ls <= 22 /\
  (stuck Mapped Mapped s ->
     produced (out s) = seqZ 0 5 /\ consumed (out s) = seqZ 0 5 /\ mapped s = v /\ c_pc s = CExit /\ p_pc s = PExit).
Proof.
  intros Hv Hr. assert (H0 : counts (sem_mmap_named v)) by (split; simpl; try done; split_and!; (done || lia || naive_solver)).
  destruct (runs_left _ _ _ ls s H0 Hr) as [Hc Hl].
  assert (Hs : shared_ok v s).
  { eapply (runs_invariant (step Mapped Mapped)); [intros l s1 s2; apply shared_step| |exact Hr].
    unfold shared_ok, taken. simpl. split_and!; (done || lia). }
  destruct Hc as [(H1 & H2 & H3 & _) (H4 & H5 & H6) H7 H8]. destruct Hs as (Hm & Hsum & _). unfold taken in Hsum.
  split; [|split].
  - rewrite H7, H8, !length_seqZ. destruct (c_pc s), (p_pc s); lia.
  - unfold c_left, p_left in Hl. simpl in Hl. unfold nloop in *. lia.
  - intros Hst. pose proof (stuck_child _ _ s Hst) as Ec. rewrite Ec in *. specialize (H3 eq_refl).
    destruct (stuck_parent _ _ s Hst) as [Ep|(Ep & Hlt & Hle)]; rewrite Ep in *; simpl in *; [|unfold nloop in *; lia].
    specialize (H6 eq_refl). rewrite H7, H8, H3, H6. unfold nloop in *. split_and!; try done. lia.
Qed.

(** A variable is not shared: where the child posts to a copy of its own
    ([sem_mmap_error], [sem_2_error]) every run ends with the parent waiting for ever,
    after as many rounds as the value its own semaphore started with (none and one),
    although the child has posted five times. *)
Theorem own_semaphore_starves hp s0 ls s :
  (hp = Mapped /\ s0 = sem_mmap_error) \/ (hp = Own /\ s0 = sem_2_error) ->
  runs (step Own hp) s0 ls s ->
  len ls <= 24 /\
  (stuck Own hp s -> p_pc s = PWait /\ consumed (out s) = seqZ 0 (value hp s0) /\ produced (out s) = seqZ 0 5).
Proof.
  intros Hs0 Hr. assert (H0 : counts s0 /\ c_left s0 + p_left s0 <= 24 /\ own_ok hp (value hp s0) s0 /\ value hp s0 <= 1).
  { unfold own_ok, taken. destruct Hs0 as [[-> ->]|[-> ->]]; simpl;
      (split; [split; simpl; try done; split_and!; (done || lia || naive_solver)|]); split_and!; try done; try lia; naive_solver. }
  destruct H0 as (H0 & Hleft & Hok & Hv). destruct (runs_left _ _ _ ls s H0 Hr) as [Hc Hl]. split; [lia|]. intros Hst.
  assert (Hs : own_ok hp (value hp s0) s).
  { eapply (runs_invariant (step Own hp)); [intros l s1 s2; apply own_step|exact Hok|exact Hr]. }
  destruct Hc as [(H1 & H2 & H3 & _) (H4 & H5 & H6) H7 H8]. destruct Hs as (Hm & Hsum & Ht & _). unfold taken in *.
  pose proof (stuck_child _ _ s Hst) as Ec. rewrite Ec in *. specialize (H3 eq_refl).
  destruct (stuck_parent _ _ s Hst) as [Ep|(Ep & Hlt & Hle)]; rewrite Ep in *.
  - specialize (H6 eq_refl). unfold nloop in *. lia.
  - split; [done|]. rewrite H7, H8, H3. split; [f_equal; lia|done].
Qed.

(** ** Witnesses *)

Definition taking_turns : list who :=
  concat (replicate 5 [Child; Child; Parent; Parent]) ++ [Child; Parent].

Lemma shared_semaphore_delivers_witness :
  exists s, runs (step Mapped Mapped) (sem_mmap_named 0) taking_turns s /\ consumed (out s) = seqZ 0 5 /\ mapped s = 0.
Proof.
  assert (E : exists s, execute (step Mapped Mapped) taking_turns (sem_mmap_named 0) = Some s /\ child Mapped s = None /\
    parent Mapped s = None) by (vm_compute; eexists; auto).
  destruct E as (s & E & Ec & Ep). apply execute_runs in E. exists s. split; [exact E|].
  destruct (shared_semaphore_delivers 0 taking_turns s (Z.le_refl 0) E) as (_ & _ & H).
  destruct H as (_ & H1 & H2 & _); [|split; [exact H1|exact H2]]. intros []; unfold step; by rewrite ?Ec, ?Ep.
Defined.

Definition alone : list who := [Child; Child] ++ replicate 11 Child.

Lemma own_semaphore_starves_witness :
  exists s, runs (step Own Mapped) sem_mmap_error alone s /\ p_pc s = PWait /\ produced (out s) = seqZ 0 5.
Proof.
  assert (E : exists s, execute (step Own Mapped) alone sem_mmap_error = Some s /\ child Own s = None /\
    parent Mapped s = None) by (vm_compute; eexists; auto).
  destruct E as (s & E & Ec & Ep). apply execute_runs in E. exists s. split; [exact E|].
  destruct (own_semaphore_starves Mapped sem_mmap_error alone s (or_introl (conj eq_refl eq_refl)) E) as (_ & H).
  destruct H as (H1 & _ & H2); [|split; [exact H1|exact H2]]. intros []; unfold step; by rewrite ?Ec, ?Ep.
Defined.
