(* ===== verification/Copy.v ===== *)
(** * Copying a file ([linux_program/ch03/copy_system.c, copy_block.c, copy_stdio.c])

    Three programs that copy [file.in] to [file.out]: with a system call for every
    byte, with blocks, and with the standard library.  What [read] and [write] do is
    an input of the first two, one reply for each call. *)

From S2P Require Import Prelude CppInt Sys.

(** What is still to be read of [file.in], the contents of [file.out], and where it is
    written. *)
Record St := mkSt { inp : bytes; outp : bytes; pos : nat }.

(** Replies: how many bytes [read] gives, or that it fails; what [write] takes. *)
Record replies := mkReplies { on_read : option nat; on_write : wreply }.

Definition read (rep : option nat) (n : nat) (s : St) : Z * bytes * St :=
  match rep with
  | None => (-1, [], s)
  | Some k =>
      let d := take (k `min` n) (inp s) in
      (len d, d, mkSt (drop (length d) (inp s)) (outp s) (pos s))
  end.

(** Bytes behind the end of what is written stay. *)
Definition overwrite (d old : bytes) (p : nat) : bytes := take p old ++ d ++ drop (p + length d) old.
Definition write (rep : wreply) (d : bytes) (s : St) : Z * St :=
  let '(n, _, sent) := kwrite rep d in
  (n, mkSt (inp s) (overwrite sent (outp s) (pos s)) (pos s + length sent)).

(** [open("file.out", O_WRONLY | O_CREAT)]; [old]: what it held, nothing if it is new. *)
Definition open_out (file_in old : bytes) : St := mkSt file_in old 0.
(** [fopen("file.out", "w")] *)
Definition fopen_out (file_in old : bytes) : St := mkSt file_in [] 0.

(** The loops; [None]: still running. *)
Fixpoint copy_block (rs : list replies) (s : St) : option St :=
  match rs with
  | [] => None
  | r :: rs =>
      let '(nread, block, s) := read (on_read r) 1024 s in
      if decide (nread > 0) then copy_block rs (snd (write (on_write r) block s)) else Some s
  end.

Fixpoint copy_system (rs : list replies) (s : St) : option St :=
  match rs with
  | [] => None
  | r :: rs =>
      let '(n, c, s) := read (on_read r) 1 s in
      if decide (n = 1) then copy_system rs (snd (write (on_write r) c s)) else Some s
  end.

(** [fgetc] gives a character as a number, or [EOF]; the streams are flushed by [exit]. *)
Definition EOF : Z := -1.
Definition fgetc (s : St) : Z * St :=
  match inp s with
  | [] => (EOF, s)
  | c :: rest => (Z.of_N (Ascii.N_of_ascii c), mkSt rest (outp s) (pos s))
  end.
Definition fputc (c : Z) (s : St) : St :=
  mkSt (inp s) (overwrite [Ascii.ascii_of_N (Z.to_N (c mod 256))] (outp s) (pos s)) (pos s + 1).

Fixpoint copy_stdio (fuel : nat) (s : St) : option St :=
  match fuel with
  | O => None
  | S fuel => let '(c, s) := fgetc s in if decide (c = EOF) then Some s else copy_stdio fuel (fputc c s)
  end.

(** ** The loops *)

(** Read calls give at least a byte until the end of the file, writes take all. *)
Definition willing (r : replies) : Prop :=
  (exists k, on_read r = Some (S k)) /\ exists n, on_write r = WAccept n /\ (1024 <= n)%nat.

Definition copied (s s' : St) : Prop :=
  inp s' = [] /\ outp s' = overwrite (inp s) (outp s) (pos s) /\ pos s' = (pos s + length (inp s))%nat.

Definition in_file (s : St) : Prop := (pos s <= length (outp s))%nat.

Lemma overwrite_app d1 d2 old p :
  (p <= length old)%nat -> overwrite d2 (overwrite d1 old p) (p + length d1) = overwrite (d1 ++ d2) old p.
Proof.
  intros Hp. unfold overwrite. rewrite length_app.
  rewrite (take_app_ge _ _ (p + length d1)) by list_lia. rewrite length_take, Nat.min_l by lia.
  replace (p + length d1 - p)%nat with (length d1) by lia. rewrite take_app_length.
  rewrite <- app_assoc. f_equal. rewrite <- app_assoc. f_equal. f_equal.
  rewrite !(drop_app_ge _ _ (p + length d1 + length d2)) by list_lia. rewrite length_take, Nat.min_l by lia.
  replace (p + length d1 + length d2 - p)%nat with (length d1 + length d2)%nat by lia.
  rewrite (drop_app_ge _ _ (length d1 + length d2)) by lia. rewrite drop_drop. f_equal. lia.
Qed.

Lemma overwrite_nil old p : overwrite [] old p = old.
Proof. unfold overwrite. simpl. rewrite Nat.add_0_r. apply take_drop. Qed.

Lemma overwrite_length d old p : (p <= length old)%nat -> (p + length d <= length (overwrite d old p))%nat.
Proof. intros. unfold overwrite. list_lia. Qed.

(** One piece after the other. *)
Lemma copied_step d rest s s' :
  in_file s -> inp s = d ++ rest ->
  copied (mkSt rest (overwrite d (outp s) (pos s)) (pos s + length d)) s' -> copied s s'.
Proof.
  intros Hf Hi (H1 & H2 & H3). simpl in *. split; [done|]. rewrite Hi. split.
  - by rewrite H2, overwrite_app.
  - rewrite H3, length_app. lia.
Qed.

Lemma read_willing r n s :
  willing r -> (0 < n)%nat -> inp s <> [] ->
  exists d rest, read (on_read r) n s = (len d, d, mkSt rest (outp s) (pos s)) /\
    inp s = d ++ rest /\ d <> [] /\ (length d <= n)%nat.
Proof.
  intros [(k & ->) _] Hn Hi. unfold read. set (m := (S k `min` n)%nat). assert (0 < m)%nat by lia.
  eexists _, _. split; [done|]. split_and!.
  - rewrite length_take. destruct (decide (m <= length (inp s))%nat).
    + rewrite Nat.min_l by lia. by rewrite take_drop.
    + rewrite Nat.min_r by lia. rewrite take_ge, drop_ge by lia. by rewrite app_nil_r.
  - destruct (inp s); [done|]. by destruct m; [lia|].
  - rewrite length_take. lia.
Qed.

Lemma read_end r n s : willing r -> inp s = [] -> read (on_read r) n s = (0, [], s).
Proof. intros [(k & ->) _] Hi. unfold read. rewrite Hi, take_nil. simpl. destruct s; simpl in *. by rewrite Hi. Qed.

Lemma write_willing r d s :
  willing r -> (length d <= 1024)%nat ->
  snd (write (on_write r) d s) = mkSt (inp s) (overwrite d (outp s) (pos s)) (pos s + length d).
Proof.
  intros [_ (n & -> & Hn)] Hd. unfold write, kwrite. rewrite take_ge by lia. done.
Qed.

Lemma copy_block_copies rs s :
  Forall willing rs -> in_file s -> (length (inp s) < length rs)%nat ->
  exists s', copy_block rs s = Some s' /\ copied s s'.
Proof.
  intros Hw. revert s. induction Hw as [|r rs Hr _ IH]; intros s Hf Hl; simpl in Hl; [lia|]. cbn [copy_block].
  destruct (decide (inp s = [])) as [Hi|Hi].
  - rewrite read_end by done. exists s. split; [done|]. unfold copied. rewrite Hi. simpl. by rewrite overwrite_nil, Nat.add_0_r.
  - destruct (read_willing r 1024 s Hr ltac:(lia) Hi) as (d & rest & -> & Hd & Hne & Hle).
    assert (0 < length d)%nat by (destruct d; [done|simpl; lia]). rewrite decide_True by lia.
    rewrite write_willing by done. simpl. destruct (IH (mkSt rest (overwrite d (outp s) (pos s)) (pos s + length d))) as (s' & E & Hc).
    + unfold in_file. simpl. by apply overwrite_length.
    + simpl. rewrite Hd, length_app in Hl. lia.
    + exists s'. split; [done|]. by eapply copied_step.
Qed.

Lemma copy_system_copies rs s :
  Forall willing rs -> in_file s -> (length (inp s) < length rs)%nat ->
  exists s', copy_system rs s = Some s' /\ copied s s'.
Proof.
  intros Hw. revert s. induction Hw as [|r rs Hr _ IH]; intros s Hf Hl; simpl in Hl; [lia|]. cbn [copy_system].
  destruct (decide (inp s = [])) as [Hi|Hi].
  - rewrite read_end by done. exists s. split; [done|]. unfold copied. rewrite Hi. simpl. by rewrite overwrite_nil, Nat.add_0_r.
  - destruct (read_willing r 1 s Hr ltac:(lia) Hi) as (d & rest & -> & Hd & Hne & Hle).
    assert (length d = 1)%nat by (destruct d; [done|simpl in *; lia]). rewrite decide_True by lia.
    rewrite write_willing by (done || lia). simpl.
    destruct (IH (mkSt rest (overwrite d (outp s) (pos s)) (pos s + length d))) as (s' & E & Hc).
    + unfold in_file. simpl. by apply overwrite_length.
    + simpl. rewrite Hd, length_app in Hl. lia.
    + exists s'. split; [done|]. by eapply copied_step.
Qed.

Lemma fputc_char c s : fputc (Z.of_N (Ascii.N_of_ascii c)) s = mkSt (inp s) (overwrite [c] (outp s) (pos s)) (pos s + 1).
Proof.
  unfold fputc. do 2 f_equal. f_equal. pose proof (Ascii.N_ascii_bounded c) as H.
  rewrite Z.mod_small by lia. by rewrite N2Z.id, Ascii.ascii_N_embedding.
Qed.

Lemma copy_stdio_copies fuel s :
  in_file s -> (length (inp s) < fuel)%nat -> exists s', copy_stdio fuel s = Some s' /\ copied s s'.
Proof.
  revert s. induction fuel as [|fuel IH]; intros s Hf Hl; [lia|]. cbn [copy_stdio]. unfold fgetc.
  destruct (inp s) as [|c rest] eqn:Hi.
  - rewrite decide_True by done. exists s. split; [done|]. unfold copied. rewrite Hi. simpl. by rewrite overwrite_nil, Nat.add_0_r.
  - rewrite decide_False by (unfold EOF; lia). rewrite fputc_char. simpl in *.
    destruct (IH (mkSt rest (overwrite [c] (outp s) (pos s)) (pos s + 1))) as (s' & E & Hc).
    + unfold in_file. simpl. by apply (overwrite_length [c]).
    + simpl. lia.
    + exists s'. split; [done|]. by apply (copied_step [c] rest).
Qed.

(** ** Theorems *)

(** C38. The three programs copy alike.  With calls that give at least a byte and take all
    they are given, however short the reads, the first two end after at most one read
    for every byte and one for the end, and leave the same [file.out]: the input,
    followed by what the old file had behind it, for the file is not truncated.  The
    third leaves exactly the input, so that it agrees with them just when the old file
    was not longer. *)
Theorem copies_agree rs1 rs2 fuel file_in old :
  Forall willing rs1 -> Forall willing rs2 ->
  (length file_in < length rs1)%nat -> (length file_in < length rs2)%nat -> (length file_in < fuel)%nat ->
  exists s1 s2 s3,
    copy_block rs1 (open_out file_in old) = Some s1 /\ copy_system rs2 (open_out file_in old) = Some s2 /\
    copy_stdio fuel (fopen_out file_in old) = Some s3 /\
    outp s1 = file_in ++ drop (length file_in) old /\ outp s2 = outp s1 /\ outp s3 = file_in /\
    (outp s1 = outp s3 <-> (length old <= length file_in)%nat).
Proof.
  intros Hw1 Hw2 H1 H2 H3.
  destruct (copy_block_copies rs1 (open_out file_in old) Hw1 (Nat.le_0_l _) H1) as (s1 & E1 & _ & O1 & _).
  destruct (copy_system_copies rs2 (open_out file_in old) Hw2 (Nat.le_0_l _) H2) as (s2 & E2 & _ & O2 & _).
  destruct (copy_stdio_copies fuel (fopen_out file_in old) (Nat.le_0_l _) H3) as (s3 & E3 & _ & O3 & _).
  exists s1, s2, s3. unfold overwrite in *. simpl in *. rewrite drop_nil, app_nil_r in O3.
  split_and!; try done; [congruence|]. rewrite O1, O3. split.
  - intros E. apply (f_equal length) in E. rewrite length_app, length_drop in E. lia.
  - intros Hle. rewrite drop_ge by done. apply app_nil_r.
Qed.

(** A short write loses the rest of its block: the result of [write] is not looked at. *)
Lemma short_write_loses :
  outp <$> copy_block [mkReplies (Some 1024%nat) (WAccept 2); mkReplies (Some 1024%nat) (WAccept 2)]
    (open_out (str "abcd") []) = Some (str "ab").
Proof. by vm_compute. Qed.

(** ** Witness *)

Definition easy : replies := mkReplies (Some 2%nat) (WAccept 2000).

Lemma copies_agree_witness :
  exists s, copy_block (replicate 6 easy) (open_out (str "abc") (str "12345")) = Some s /\ outp s = str "abc45".
Proof.
  assert (Hw : Forall willing (replicate 6 easy)).
  { apply Forall_replicate. split; [by exists 1%nat|]. exists 2000%nat. split; [reflexivity|]. by apply Nat.leb_le. }
  destruct (copies_agree (replicate 6 easy) (replicate 6 easy) 6 (str "abc") (str "12345") Hw Hw) as (s & _ & _ & E & _ & _ & O & _);
    [simpl; lia..|]. exists s. split; [exact E|exact O].
Defined.
