(* ===== verification/Topic.v ===== *)
(** * Requests over named pipes
      ([linux_program/ch13_process_communication/12_advance_topic_server.c],
       [12_advance_topic_client.c], [12_advance_topic_client.h])

    Clients send requests to a server over one named pipe; the server answers each over
    a pipe that the client has made and that both open and close again for every
    answer.  A step is one system call of one process with the code around it; an
    [open] is two steps, as it announces itself to the other side and may then have to
    wait for it. *)

From S2P Require Import Prelude CppInt CText Turns.

(** ** Named pipes

    A process that opens one end waits until the other end is open, or has been opened
    since: the kernel counts the calls of [open] for each end, and the waiting side
    looks whether the count has changed.  What is still in the pipe when its last
    end is closed is lost. *)

Module Pipe.
Section pipe.
Context {A : Type}.

Record pipe := mkPipe { readers : nat; writers : nat; r_counter : nat; w_counter : nat; data : list A }.

Definition new_pipe : pipe := mkPipe 0 0 0 0 [].

Definition open_r (p : pipe) : pipe := mkPipe (S (readers p)) (writers p) (S (r_counter p)) (w_counter p) (data p).
Definition open_w (p : pipe) : pipe := mkPipe (readers p) (S (writers p)) (r_counter p) (S (w_counter p)) (data p).

(** What an [open] waits for: nothing, or a higher count. *)
Definition wait_r (p : pipe) : option nat := if decide (readers p = 0%nat) then Some (r_counter p) else None.
Definition wait_w (p : pipe) : option nat := if decide (writers p = 0%nat) then Some (w_counter p) else None.
Definition met (k : option nat) (counter : nat) : bool :=
  match k with None => true | Some c => bool_decide (c < counter)%nat end.

Definition shut (r w : nat) (p : pipe) : pipe :=
  mkPipe r w (r_counter p) (w_counter p) (if decide (r = 0 /\ w = 0)%nat then [] else data p).
Definition close_r (p : pipe) : pipe := shut (pred (readers p)) (writers p) p.
Definition close_w (p : pipe) : pipe := shut (readers p) (pred (writers p)) p.

Definition with_data (l : list A) (p : pipe) : pipe :=
  mkPipe (readers p) (writers p) (r_counter p) (w_counter p) l.

(** [read]: a message, the end ([inl]), or nothing yet. *)
Definition read (p : pipe) : option (unit + A * pipe) :=
  match data p with
  | m :: l => Some (inr (m, with_data l p))
  | [] => if decide (writers p = 0%nat) then Some (inl tt) else None
  end.

(** [write]: killed by [SIGPIPE] ([inl]), done, or no room. *)
Definition write (cap : nat) (m : A) (p : pipe) : option (unit + pipe) :=
  if decide (readers p = 0%nat) then Some (inl tt)
  else if decide (length (data p) < cap)%nat then Some (inr (with_data (data p ++ [m]) p)) else None.

(** What a waiting [open] keeps is at most the count of that time. *)
Definition kept (k : option nat) (counter : nat) : Prop := match k with None => True | Some c => (c <= counter)%nat end.

Lemma met_up k n : kept k n -> met k (S n) = true.
Proof. destruct k as [c|]; [|done]. intros H. simpl in *. apply bool_decide_eq_true. lia. Qed.
Lemma kept_up k n : kept k n -> kept k (S n).
Proof. destruct k as [c|]; [|done]. simpl. lia. Qed.
Lemma met_wait_r p : met (wait_r p) (r_counter p) = bool_decide (readers p <> 0%nat).
Proof. unfold wait_r. case_decide; simpl; [rewrite !bool_decide_eq_false_2 by lia|rewrite bool_decide_eq_true_2 by lia]; done. Qed.
Lemma met_wait_w p : met (wait_w p) (w_counter p) = bool_decide (writers p <> 0%nat).
Proof. unfold wait_w. case_decide; simpl; [rewrite !bool_decide_eq_false_2 by lia|rewrite bool_decide_eq_true_2 by lia]; done. Qed.
Lemma kept_wait_r p : kept (wait_r p) (r_counter p).
Proof. unfold wait_r. case_decide; simpl; lia. Qed.
Lemma kept_wait_w p : kept (wait_w p) (w_counter p).
Proof. unfold wait_w. case_decide; simpl; lia. Qed.
End pipe.
Arguments pipe : clear implicits.
End Pipe.
Import Pipe.

(** ** The messages *)

Record data_to_pass_st := mkData { client_pid : Z; some_data : bytes }.

Definition BUFFER_SIZE : nat := 20.

(** [sprintf] into an array of [size] characters. *)
Definition sprintf (size : nat) (text : bytes) : outcome bytes :=
  if decide (length text < size)%nat then Ok text else UB.

Definition CLIENT_FIFO_NAME (pid : Z) : bytes := str "/tmp/cli_" ++ number_text pid ++ str "_fifo".
Definition hi_from (pid : Z) : bytes := str "hi from " ++ number_text pid.

Definition toupper (c : ascii) : ascii :=
  let n := nat_of_ascii c in if decide (97 <= n <= 122)%nat then ascii_of_nat (n - 32) else c.

(** ** The processes *)

Inductive cpc : Type :=
  | COpenServer | CWaitServer (k : option nat) | CMkfifo | CFor | CWrite
  | COpen | CWait (k : option nat) | CRead | CClose | CCloseServer | CUnlink
  | CDone | CFailed | CKilled.

#[export] Instance cpc_eq_dec : EqDecision cpc.
Proof. solve_decision. Defined.

(** A client, with the pipe its name [client_fifo] leads to when it is [linked]. *)
Record client := mkClient {
  c_pid : Z;
  c_pc : cpc;
  times_to_send : Z;
  c_data : data_to_pass_st;
  received : list bytes;
  linked : bool;
  fifo : pipe data_to_pass_st;
}.

(** [t]: the client whose pipe [client_fifo_fd] is. *)
Inductive spc : Type :=
  | SMkfifo | SOpen | SWait (k : option nat) | SRead
  | SOpenClient | SWaitClient (t : nat) (k : option nat) | SWrite (t : nat) | SClose (t : nat)
  | SCloseServer | SUnlink | SDone | SKilled.

Record St := mkSt {
  s_pc : spc;
  my_data : data_to_pass_st;
  s_linked : bool;
  s_fifo : pipe data_to_pass_st;
  clients : list client;
}.

Definition goto (pc : cpc) (c : client) : client :=
  mkClient (c_pid c) pc (times_to_send c) (c_data c) (received c) (linked c) (fifo c).
Definition set_fifo (f : pipe data_to_pass_st) (c : client) : client :=
  mkClient (c_pid c) (c_pc c) (times_to_send c) (c_data c) (received c) (linked c) f.
Definition set_client (t : nat) (c : client) (f : pipe data_to_pass_st) (s : St) : St :=
  mkSt (s_pc s) (my_data s) (s_linked s) f (<[t := c]> (clients s)).
Definition set_server (pc : spc) (f : pipe data_to_pass_st) (s : St) : St :=
  mkSt pc (my_data s) (s_linked s) f (clients s).

(** The file a name leads to. *)
Definition find_fifo (name : bytes) (cs : list client) : option nat :=
  fst <$> list_find (fun c => linked c = true /\ CLIENT_FIFO_NAME (c_pid c) = name) cs.

Section programs.
(** The messages a pipe has room for. *)
Variable cap : nat.

(** [main] of the client *)
Definition client_step (t : nat) (c : client) (s : St) : outcome (option St) :=
  let sf := s_fifo s in
  match c_pc c with
  | COpenServer =>
      if s_linked s then Ok (Some (set_client t (goto (CWaitServer (wait_r sf)) c) (open_w sf) s))
      else Ok (Some (set_client t (goto CFailed c) sf s))
  | CWaitServer k =>
      Ok (if met k (r_counter sf) then Some (set_client t (goto CMkfifo c) sf s) else None)
  | CMkfifo =>
      _ ← sprintf 256 (CLIENT_FIFO_NAME (c_pid c));
      if linked c then Ok (Some (set_client t (goto CFailed c) (close_w sf) s))
      else Ok (Some (set_client t (mkClient (c_pid c) CFor 0 (mkData (c_pid c) (some_data (c_data c))) (received c) true (fifo c)) sf s))
  | CFor =>
      if decide (times_to_send c < 5) then
        text ← sprintf (BUFFER_SIZE + 1) (hi_from (client_pid (c_data c)));
        Ok (Some (set_client t (mkClient (c_pid c) CWrite (times_to_send c) (mkData (client_pid (c_data c)) text)
                    (received c) (linked c) (fifo c)) sf s))
      else Ok (Some (set_client t (goto CCloseServer c) sf s))
  | CWrite =>
      Ok match write cap (c_data c) sf with
         | None => None
         | Some (inl _) => Some (set_client t (goto CKilled c) (close_w sf) s)
         | Some (inr sf') => Some (set_client t (goto COpen c) sf' s)
         end
  | COpen =>
      if linked c then Ok (Some (set_client t (set_fifo (open_r (fifo c)) (goto (CWait (wait_w (fifo c))) c)) sf s))
      else
        Ok (Some (set_client t (mkClient (c_pid c) CFor (times_to_send c + 1) (c_data c) (received c) (linked c) (fifo c)) sf s))
  | CWait k => Ok (if met k (w_counter (fifo c)) then Some (set_client t (goto CRead c) sf s) else None)
  | CRead =>
      Ok match read (fifo c) with
         | None => None
         | Some (inl _) => Some (set_client t (goto CClose c) sf s)
         | Some (inr (m, f)) =>
             Some (set_client t (mkClient (c_pid c) CClose (times_to_send c) m (received c ++ [some_data m]) (linked c) f) sf s)
         end
  | CClose =>
      n ← schk 32 (times_to_send c + 1);
      Ok (Some (set_client t (mkClient (c_pid c) CFor n (c_data c) (received c) (linked c) (close_r (fifo c))) sf s))
  | CCloseServer => Ok (Some (set_client t (goto CUnlink c) (close_w sf) s))
  | CUnlink =>
      Ok (Some (set_client t (mkClient (c_pid c) CDone (times_to_send c) (c_data c) (received c) false (fifo c)) sf s))
  | CDone | CFailed | CKilled => Ok None
  end.

Definition set_pipe (t : nat) (c : client) (f : pipe data_to_pass_st) (s : St) : St :=
  mkSt (s_pc s) (my_data s) (s_linked s) (s_fifo s) (<[t := set_fifo f c]> (clients s)).

(** [main] of the server *)
Definition server_step (s : St) : outcome (option St) :=
  let sf := s_fifo s in
  match s_pc s with
  | SMkfifo => Ok (Some (mkSt SOpen (my_data s) true sf (clients s)))
  | SOpen => Ok (Some (set_server (SWait (wait_w sf)) (open_r sf) s))
  | SWait k => Ok (if met k (w_counter sf) then Some (set_server SRead sf s) else None)
  | SRead =>
      Ok match read sf with
         | None => None
         | Some (inl _) => Some (set_server SCloseServer sf s)
         | Some (inr (m, sf')) =>
             Some (mkSt SOpenClient (mkData (client_pid m) (map toupper (some_data m))) (s_linked s) sf' (clients s))
         end
  | SOpenClient =>
      name ← sprintf 256 (CLIENT_FIFO_NAME (client_pid (my_data s)));
      Ok (Some match find_fifo name (clients s) with
               | None => set_server SRead sf s
               | Some t =>
                   match clients s !! t with
                   | None => s
                   | Some c => set_pipe t c (open_w (fifo c)) (set_server (SWaitClient t (wait_r (fifo c))) sf s)
                   end
               end)
  | SWaitClient t k =>
      Ok match clients s !! t with
         | None => None
         | Some c => if met k (r_counter (fifo c)) then Some (set_server (SWrite t) sf s) else None
         end
  | SWrite t =>
      Ok match clients s !! t with
         | None => None
         | Some c =>
             match write cap (my_data s) (fifo c) with
             | None => None
             | Some (inl _) => Some (set_pipe t c (close_w (fifo c)) (set_server SKilled (close_r sf) s))
             | Some (inr f) => Some (set_pipe t c f (set_server (SClose t) sf s))
             end
         end
  | SClose t =>
      Ok match clients s !! t with
         | None => None
         | Some c => Some (set_pipe t c (close_w (fifo c)) (set_server SRead sf s))
         end
  | SCloseServer => Ok (Some (set_server SUnlink (close_r sf) s))
  | SUnlink => Ok (Some (mkSt SDone (my_data s) false sf (clients s)))
  | SDone | SKilled => Ok None
  end.

Inductive label : Type := Server | Client (t : nat).

Definition step (l : label) (s : St) : outcome (option St) :=
  match l with
  | Server => server_step s
  | Client t => match clients s !! t with None => Ok None | Some c => client_step t c s end
  end.
End programs.

(** Pipes left from before: [old] of the server, and one for each client. *)
Definition new_client (p : Z * bool) : client := mkClient (p.1) COpenServer 0 (mkData 0 []) [] (p.2) new_pipe.
Definition start (old : bool) (ps : list (Z * bool)) : St :=
  mkSt SMkfifo (mkData 0 []) old new_pipe (map new_client ps).

(** ** What is in the messages *)

(** The answer to a client's request. *)
Definition reply (pid : Z) : bytes := str "HI FROM " ++ number_text pid.

Lemma toupper_digit d : 0 <= d < 10 -> toupper (digit_char d) = digit_char d.
Proof. intros Hd. by digit_cases d. Qed.

Lemma toupper_digits w n : map toupper (dec_digits w n) = dec_digits w n.
Proof.
  revert n. induction w as [|w IH]; intros n; [done|]. cbn [dec_digits]. rewrite map_app, IH. simpl. f_equal.
  by rewrite toupper_digit by (apply Z.mod_pos_bound; lia).
Qed.

Definition pid_ok (pid : Z) : Prop := 0 <= pid < 2 ^ 31.

Lemma pid_digits pid : pid_ok pid -> exists k, replicate k "0"%char ++ number_text pid = dec_digits 10 pid.
Proof. intros H. exists (10 - length (number_text pid))%nat. apply number_text_digits; unfold pid_ok in H; lia. Qed.

Lemma pid_length pid : pid_ok pid -> (length (number_text pid) <= 10)%nat.
Proof.
  intros (k & E)%pid_digits. apply (f_equal length) in E. rewrite length_app, length_replicate, dec_digits_length in E. lia.
Qed.

Lemma reply_upper pid : pid_ok pid -> map toupper (hi_from pid) = reply pid.
Proof.
  intros (k & E)%pid_digits. unfold hi_from, reply. rewrite map_app. f_equal.
  pose proof (toupper_digits 10 pid) as H. rewrite <- E, map_app in H. apply app_inj_1 in H; [by destruct H|by rewrite length_map].
Qed.

Lemma fifo_name_inj p q : CLIENT_FIFO_NAME p = CLIENT_FIFO_NAME q -> p = q.
Proof. intros E. apply app_inv_head, app_inv_tail in E. by apply number_text_inj. Qed.

Lemma sprintf_name pid : pid_ok pid -> sprintf 256 (CLIENT_FIFO_NAME pid) = Ok (CLIENT_FIFO_NAME pid).
Proof.
  intros H%pid_length. unfold sprintf. rewrite decide_True; [done|].
  unfold CLIENT_FIFO_NAME. rewrite !length_app. simpl. lia.
Qed.

Lemma sprintf_hi pid : pid_ok pid -> sprintf (BUFFER_SIZE + 1) (hi_from pid) = Ok (hi_from pid).
Proof.
  intros H%pid_length. unfold sprintf. rewrite decide_True; [done|].
  unfold hi_from, BUFFER_SIZE. rewrite length_app. simpl. lia.
Qed.

(** A pid is the pid of one client, so a name leads to its pipe. *)
Lemma find_fifo_some pid cs t :
  find_fifo (CLIENT_FIFO_NAME pid) cs = Some t -> exists c, cs !! t = Some c /\ c_pid c = pid /\ linked c = true.
Proof.
  unfold find_fifo. destruct (list_find _ cs) as [[i c]|] eqn:Hc; [|done]. intros [= <-].
  apply list_find_Some in Hc as (Hc & (Hl & Hn) & _).
  exists c. split; [done|]. split; [by apply fifo_name_inj|done].
Qed.

Lemma find_fifo_none pid cs t c :
  find_fifo (CLIENT_FIFO_NAME pid) cs = None -> cs !! t = Some c -> c_pid c = pid -> linked c = false.
Proof.
  unfold find_fifo. intros H Hc Hp. apply fmap_None, list_find_None in H.
  pose proof (Forall_lookup_1 _ _ _ _ H Hc) as Hn. destruct (linked c) eqn:El; [|done]. exfalso. apply Hn. by rewrite Hp.
Qed.

Definition request (pids : list Z) (m : data_to_pass_st) : Prop :=
  client_pid m ∈ pids /\ some_data m = hi_from (client_pid m).
Definition answer (pids : list Z) (m : data_to_pass_st) : Prop :=
  client_pid m ∈ pids /\ some_data m = reply (client_pid m).

(** The rounds a client has behind it, and those it may have an answer for. *)
Definition rounds_ok (c : client) : Prop :=
  match c_pc c with
  | COpenServer | CWaitServer _ | CMkfifo | CFailed => times_to_send c = 0 /\ received c = []
  | CFor => 0 <= times_to_send c <= 5 /\ len (received c) <= times_to_send c
  | CWrite | COpen | CWait _ | CRead => 0 <= times_to_send c < 5 /\ len (received c) <= times_to_send c
  | CClose => 0 <= times_to_send c < 5 /\ len (received c) <= times_to_send c + 1
  | _ => 0 <= times_to_send c <= 5 /\ len (received c) <= times_to_send c
  end.

Record client_texts (c : client) : Prop := {
  t_fifo : Forall (fun m => m = mkData (c_pid c) (reply (c_pid c))) (data (fifo c));
  t_received : Forall (fun l => l = reply (c_pid c)) (received c);
  t_data : match c_pc c with
           | COpenServer | CWaitServer _ | CMkfifo | CFailed => True
           | CWrite => c_data c = mkData (c_pid c) (hi_from (c_pid c))
           | _ => client_pid (c_data c) = c_pid c
           end;
  t_rounds : rounds_ok c;
}.

Definition serves (pids : list Z) (s : St) : Prop :=
  match s_pc s with
  | SOpenClient => answer pids (my_data s)
  | SWaitClient t _ | SWrite t =>
      answer pids (my_data s) /\ exists c, clients s !! t = Some c /\ c_pid c = client_pid (my_data s)
  | SClose t => is_Some (clients s !! t)
  | _ => True
  end.

Record texts (pids : list Z) (s : St) : Prop := {
  x_pids : map c_pid (clients s) = pids;
  x_queue : Forall (request pids) (data (s_fifo s));
  x_server : serves pids s;
  x_clients : Forall client_texts (clients s);
}.

Section proofs.
Context (cap : nat) (pids : list Z).
Hypothesis (Hdistinct : NoDup pids) (Hrange : Forall pid_ok pids).

Lemma texts_pid s t c : texts pids s -> clients s !! t = Some c -> c_pid c ∈ pids /\ pid_ok (c_pid c).
Proof.
  intros Hx Hc. assert (Hin : c_pid c ∈ pids).
  { rewrite <- (x_pids _ _ Hx). apply list_elem_of_fmap. exists c. split; [done|]. by eapply list_elem_of_lookup_2. }
  split; [done|]. rewrite Forall_forall in Hrange. by apply Hrange.
Qed.

Lemma same_client s t u c d :
  texts pids s -> clients s !! t = Some c -> clients s !! u = Some d -> c_pid c = c_pid d -> t = u.
Proof.
  intros Hx Hc Hd E. eapply NoDup_lookup; [exact Hdistinct|..]; rewrite <- (x_pids _ _ Hx), list_lookup_fmap.
  - by rewrite Hc.
  - by rewrite Hd, E.
Qed.

Lemma write_cases m (p : pipe data_to_pass_st) r : write cap m p = Some r ->
  (r = inl tt /\ readers p = 0%nat) \/ (r = inr (with_data (data p ++ [m]) p) /\ readers p <> 0%nat).
Proof. unfold write. case_decide; [intros [= <-]; by left|]. case_decide; [intros [= <-]; by right|done]. Qed.

Lemma read_cases (p : pipe data_to_pass_st) r : read p = Some r ->
  (r = inl tt /\ data p = [] /\ writers p = 0%nat) \/ (exists m l, data p = m :: l /\ r = inr (m, with_data l p)).
Proof.
  unfold read. destruct (data p) as [|m l]; [case_decide; [intros [= <-]; by left|done]|].
  intros [= <-]. right. by exists m, l.
Qed.

Lemma shut_data (P : data_to_pass_st -> Prop) r w p : Forall P (data p) -> Forall P (data (shut r w p)).
Proof. intros H. unfold shut. simpl. by case_decide. Qed.

(** A step of a client changes nothing but the client and the server's pipe. *)
Ltac moves := eexists _, _; split; [done|]; split; [done|]; split.
Ltac texts_done := split; simpl; unfold rounds_ok; simpl; try done; try lia.

Lemma client_texts_step s t c s' :
  texts pids s -> clients s !! t = Some c -> client_step cap t c s = Ok (Some s') ->
  exists c' f, s' = set_client t c' f s /\ c_pid c' = c_pid c /\ client_texts c' /\ Forall (request pids) (data f).
Proof.
  intros Hx Hc E. destruct (texts_pid s t c Hx Hc) as [Hin Hp].
  pose proof (Forall_lookup_1 _ _ _ _ (x_clients _ _ Hx) Hc) as [H1 H2 H3 H4]. pose proof (x_queue _ _ Hx) as Hq.
  unfold client_step in E. unfold rounds_ok in H4.
  destruct (c_pc c) eqn:Epc; simpl in H3, H4; try done;
    try (injection E as <-; moves; [texts_done|first [done|by apply shut_data]]).
  - destruct (s_linked s); injection E as <-; moves; [texts_done|done|texts_done|done].
  - destruct (met _ _); [|done]. injection E as <-. moves; [texts_done|done].
  - rewrite sprintf_name in E by done. simpl in E.
    destruct (linked c); injection E as <-; moves; [texts_done|by apply shut_data| |done].
    texts_done. destruct H4 as [_ ->]. simpl. lia.
  - destruct (decide (times_to_send c < 5)); [|injection E as <-; moves; [texts_done|done]].
    rewrite H3, sprintf_hi in E by done. simpl in E. injection E as <-. moves; [texts_done|done].
  - destruct (write _ _ _) as [r|] eqn:Ew; [|done]. apply write_cases in Ew as [[-> _]|[-> _]]; injection E as <-; moves;
      [texts_done; by rewrite H3|by apply shut_data|texts_done; by rewrite H3|].
    simpl. apply Forall_app. split; [done|]. apply Forall_singleton. by rewrite H3.
  - destruct (linked c); injection E as <-; moves; [texts_done|done|texts_done|done].
  - destruct (met _ _); [|done]. injection E as <-. moves; [texts_done|done].
  - destruct (read _) as [r|] eqn:Er; [|done]. apply read_cases in Er as [(-> & _)|(m & l & El & ->)]; injection E as <-;
      moves; [texts_done|done| |done].
    rewrite El in H1. apply Forall_cons in H1 as [-> H1]. texts_done; [by apply Forall_app_2, Forall_singleton|].
    rewrite length_app. simpl. lia.
  - unfold schk in E. rewrite decide_True in E by (unfold in_s; lia). simpl in E. injection E as <-.
    moves; [|done]. texts_done. by apply shut_data.
Qed.

Lemma texts_update s t c c' pc m l f :
  texts pids s -> clients s !! t = Some c -> c_pid c' = c_pid c -> client_texts c' ->
  Forall (request pids) (data f) ->
  serves pids (mkSt pc m l f (<[t := c']> (clients s))) -> texts pids (mkSt pc m l f (<[t := c']> (clients s))).
Proof.
  intros [H1 H2 H3 H4] Hc Hp Hc' Hf Hs. split; simpl; try done.
  - rewrite list_fmap_insert, Hp. rewrite list_insert_id; [done|]. by rewrite list_lookup_fmap, Hc.
  - by apply Forall_insert.
Qed.

(** What a step of a client leaves of the claim on the server. *)
Lemma serves_client s t c c' f :
  serves pids s -> clients s !! t = Some c -> c_pid c' = c_pid c -> serves pids (set_client t c' f s).
Proof.
  unfold serves. simpl. intros H Hc Hp.
  assert (Hk : forall u, (exists d, clients s !! u = Some d /\ c_pid d = client_pid (my_data s)) ->
                exists d, <[t := c']> (clients s) !! u = Some d /\ c_pid d = client_pid (my_data s)).
  { intros u (d & Hd & E). destruct (decide (u = t)) as [->|Hne].
    - exists c'. rewrite list_lookup_insert_eq by (by eapply lookup_lt_Some). split; [done|]. assert (d = c) as -> by congruence. by rewrite Hp.
    - exists d. by rewrite list_lookup_insert_ne. }
  destruct (s_pc s); try done; [by (split; [apply H|apply Hk, H])..|].
  apply lookup_lt_is_Some. rewrite length_insert. by apply lookup_lt_is_Some.
Qed.

Lemma set_fifo_texts c f :
  client_texts c -> Forall (fun m => m = mkData (c_pid c) (reply (c_pid c))) (data f) -> client_texts (set_fifo f c).
Proof. intros [H1 H2 H3 H4] Hf. by split. Qed.

Lemma server_texts_step s s' :
  texts pids s -> server_step cap s = Ok (Some s') -> texts pids s'.
Proof.
  intros Hx E. pose proof Hx as [H1 H2 H3 H4]. unfold server_step in E. unfold serves in H3.
  destruct (s_pc s) eqn:Epc; try done; try (injection E as <-; split; (done || by apply shut_data)).
  - destruct (met _ _); [|done]. injection E as <-. by split.
  - destruct (read _) as [r|] eqn:Er; [|done]. apply read_cases in Er as [(-> & _)|(m & l & El & ->)]; injection E as <-; [by split|].
    rewrite El in H2. apply Forall_cons in H2 as [[Hm Ht] H2]. split; try done. split; [done|]. simpl.
    rewrite Ht. apply reply_upper. rewrite Forall_forall in Hrange. by apply Hrange.
  - rewrite sprintf_name in E; [|rewrite Forall_forall in Hrange; apply Hrange, H3]. simpl in E. injection E as <-.
    destruct (find_fifo _ _) as [t|] eqn:Ef; [|by split]. apply find_fifo_some in Ef as (c & Hc & Hp & _). rewrite Hc.
    pose proof (Forall_lookup_1 _ _ _ _ H4 Hc) as Hct.
    apply (texts_update s t c); try done; [apply set_fifo_texts; [done|apply Hct]|].
    split; [done|]. exists (set_fifo (open_w (fifo c)) c). simpl.
    by rewrite list_lookup_insert_eq by (by eapply lookup_lt_Some).
  - destruct (clients s !! t) as [c|] eqn:Hc; [|done]. destruct (met _ _); [|done]. injection E as <-.
    split; try done. destruct H3 as [H3 (d & Hd & Hp)]. split; [done|]. exists d. by rewrite <- Hd.
  - destruct (clients s !! t) as [c|] eqn:Hc; [|done]. destruct (write _ _ _) as [r|] eqn:Ew; [|done].
    pose proof (Forall_lookup_1 _ _ _ _ H4 Hc) as Hct. destruct H3 as [[_ Ha] (d & Hd & Hp)]. injection Hd as <-.
    apply write_cases in Ew as [[-> _]|[-> _]]; injection E as <-; apply (texts_update s t c); try done.
    + apply set_fifo_texts; [done|]. apply shut_data, Hct.
    + by apply shut_data.
    + apply set_fifo_texts; [done|]. simpl. apply Forall_app. split; [apply Hct|]. apply Forall_singleton.
      rewrite Hp. destruct (my_data s). simpl in *. by rewrite Ha.
    + apply lookup_lt_is_Some. simpl. rewrite length_insert. by eapply lookup_lt_Some.
  - destruct (clients s !! t) as [c|] eqn:Hc; [|done]. injection E as <-.
    pose proof (Forall_lookup_1 _ _ _ _ H4 Hc) as Hct. apply (texts_update s t c); try done.
    apply set_fifo_texts; [done|]. apply shut_data, Hct.
Qed.

Lemma texts_step l s s' : texts pids s -> step cap l s = Ok (Some s') -> texts pids s'.
Proof.
  intros Hx. destruct l as [|t]; [by apply server_texts_step|]. simpl. destruct (clients s !! t) as [c|] eqn:Hc; [|done].
  intros E. destruct (client_texts_step s t c s' Hx Hc E) as (c' & f & -> & Hp & Hc' & Hf).
  apply (texts_update s t c); try done. apply (serves_client s t c c' f); [apply Hx|done|done].
Qed.

(** No step is undefined, and none throws. *)
Lemma topic_defined l s : texts pids s -> exists r, step cap l s = Ok r.
Proof.
  intros Hx. destruct l as [|t]; simpl.
  - pose proof (x_server _ _ Hx) as H3. unfold server_step, serves in *. destruct (s_pc s); try by eexists.
    rewrite sprintf_name; [by eexists|]. rewrite Forall_forall in Hrange. apply Hrange, H3.
  - destruct (clients s !! t) as [c|] eqn:Hc; [|by eexists]. destruct (texts_pid s t c Hx Hc) as [_ Hp].
    pose proof (Forall_lookup_1 _ _ _ _ (x_clients _ _ Hx) Hc) as [_ _ H3 H4]. unfold client_step, rounds_ok in *.
    destruct (c_pc c); try by eexists.
    + by destruct (s_linked s); eexists.
    + rewrite sprintf_name by done. simpl. by destruct (linked c); eexists.
    + rewrite H3, sprintf_hi by done. simpl. by case_decide; eexists.
    + by destruct (linked c); eexists.
    + unfold schk. rewrite decide_True by (unfold in_s; lia). by eexists.
Qed.

Lemma texts_start old (ps : list (Z * bool)) : ps.*1 = pids -> texts pids (start old ps).
Proof.
  intros E. split; simpl; try done.
  - rewrite <- E. clear. induction ps as [|p ps IH]; [done|]. simpl. by f_equal.
  - apply Forall_forall. intros c (p & -> & _)%list_elem_of_fmap. by split.
Qed.

(** ** Every run ends

    A request costs the server five steps, and a round the client six. *)

Definition left (c : client) : Z :=
  let n := 11 * (5 - times_to_send c) in
  match c_pc c with
  | COpenServer => 61 | CWaitServer _ => 60 | CMkfifo => 59
  | CFor => n + 3 | CWrite => n + 2 | COpen => n - 4 | CWait _ => n - 5 | CRead => n - 6 | CClose => n - 7
  | CCloseServer => 2 | CUnlink => 1 | _ => 0
  end.

Definition server_left (pc : spc) : Z :=
  match pc with
  | SMkfifo => 6 | SOpen => 5 | SWait _ => 4 | SRead => 3
  | SOpenClient => 7 | SWaitClient _ _ => 6 | SWrite _ => 5 | SClose _ => 4
  | SCloseServer => 2 | SUnlink => 1 | SDone | SKilled => 0
  end.

Definition measure (s : St) : Z := sum_over left (clients s) + 5 * len (data (s_fifo s)) + server_left (s_pc s).

Lemma client_left_nonneg c : client_texts c -> 0 <= left c.
Proof. intros [_ _ _ H]. unfold rounds_ok in H. unfold left. destruct (c_pc c); lia. Qed.

Lemma measure_nonneg s : texts pids s -> 0 <= measure s.
Proof.
  intros Hx. unfold measure. pose proof (sum_over_forall left (clients s)) as H.
  assert (0 <= sum_over left (clients s)).
  { apply H. eapply Forall_impl; [apply (x_clients _ _ Hx)|]. apply client_left_nonneg. }
  destruct (s_pc s); simpl; lia.
Qed.

Lemma left_client s t c c' f :
  clients s !! t = Some c -> left c' + 5 * len (data f) + 1 <= left c + 5 * len (data (s_fifo s)) ->
  measure (set_client t c' f s) + 1 <= measure s.
Proof. intros Hc H. unfold measure. simpl. rewrite (sum_over_insert left _ t c c' Hc). lia. Qed.

(** The pipe of a client does not count. *)
Lemma left_pipe s t c f pc sf :
  clients s !! t = Some c -> server_left pc + 5 * len (data sf) + 1 <= server_left (s_pc s) + 5 * len (data (s_fifo s)) ->
  measure (set_pipe t c f (set_server pc sf s)) + 1 <= measure s.
Proof.
  intros Hc H. unfold measure. simpl. rewrite (sum_over_insert left _ t c _ Hc).
  change (left (set_fifo f c)) with (left c). lia.
Qed.

Lemma client_left s t c s' :
  rounds_ok c -> clients s !! t = Some c -> client_step cap t c s = Ok (Some s') -> measure s' + 1 <= measure s.
Proof.
  intros H4 Hc E. unfold client_step, rounds_ok in *.
  destruct (c_pc c) eqn:Epc; try done.
  all: repeat match type of E with
       | context [sprintf ?n ?t] => unfold sprintf in E; destruct (decide (length t < n)%nat); [|done]; simpl in E
       | context [schk] => unfold schk in E; destruct (decide (in_s 32 (times_to_send c + 1))); [|done]; simpl in E
       | context [write cap ?m ?p] =>
           let Ew := fresh in destruct (write cap m p) as [r|] eqn:Ew; [|done]; apply write_cases in Ew as [[-> _]|[-> _]]
       | context [read ?p] =>
           let Er := fresh in destruct (read p) as [r|] eqn:Er; [|done]; apply read_cases in Er as [[-> _]|(? & ? & _ & ->)]
       | Ok (if ?b then _ else None) = _ => destruct b; [|done]
       | (if ?b then _ else _) = _ => destruct b
       end; injection E as <-; apply (left_client s t c); try exact Hc; unfold left; simpl; rewrite Epc; simpl;
       rewrite ?length_app; repeat case_decide; simpl; lia.
Qed.

Lemma server_left_step s s' : server_step cap s = Ok (Some s') -> texts pids s -> measure s' + 1 <= measure s.
Proof.
  intros E Hx. pose proof (x_server _ _ Hx) as H3. unfold server_step, serves in *.
  destruct (s_pc s) eqn:Epc; try done.
  all: try (injection E as <-; unfold measure; simpl; rewrite Epc; simpl; repeat case_decide; simpl; lia).
  - destruct (met _ _); [|done]. injection E as <-. unfold measure. simpl. rewrite Epc. simpl. lia.
  - destruct (read _) as [r|] eqn:Er; [|done]. apply read_cases in Er as [[-> _]|(m & l & El & ->)]; injection E as <-;
      unfold measure; simpl; rewrite Epc, ?El; simpl; lia.
  - unfold sprintf in E. case_decide; [|done]. simpl in E. injection E as <-.
    destruct (find_fifo _ _) as [t|] eqn:Ef; [|unfold measure; simpl; rewrite Epc; simpl; lia].
    apply find_fifo_some in Ef as (c & Hc & _). rewrite Hc. apply left_pipe; [done|]. rewrite Epc. simpl. lia.
  - destruct (clients s !! t) as [c|] eqn:Hc; [|done]. destruct (met _ _); [|done]. injection E as <-.
    unfold measure. simpl. rewrite Epc. simpl. lia.
  - destruct (clients s !! t) as [c|] eqn:Hc; [|done]. destruct (write _ _ _) as [r|] eqn:Ew; [|done].
    apply write_cases in Ew as [[-> _]|[-> _]]; injection E as <-; (apply left_pipe; [done|]); rewrite Epc; simpl; repeat case_decide; simpl; lia.
  - destruct (clients s !! t) as [c|] eqn:Hc; [|done]. injection E as <-. apply left_pipe; [done|]. rewrite Epc. simpl. lia.
Qed.

Lemma topic_runs old ps ls s :
  ps.*1 = pids -> runs (step cap) (start old ps) ls s -> texts pids s /\ len ls <= 61 * len ps + 6.
Proof.
  intros E Hr.
  destruct (runs_bounded0 (step cap) (texts pids) measure (start old ps) ls s) as [Hx Hl];
    [|exact measure_nonneg|by apply texts_start|exact Hr|].
  - intros l s1 s2 Hx Hs. split; [by eapply texts_step|]. destruct l as [|t]; [by apply server_left_step|].
    simpl in Hs. destruct (clients s1 !! t) as [c|] eqn:Hc; [|done]. eapply client_left; [|exact Hc|exact Hs].
    apply (Forall_lookup_1 _ _ _ _ (x_clients _ _ Hx) Hc).
  - split; [done|]. assert (measure (start old ps) = 61 * len ps + 6); [|lia]. clear. unfold measure, start. cbn [clients data s_fifo s_pc server_left new_pipe length].
    assert (sum_over left (map new_client ps) = 61 * len ps); [|lia]. induction ps as [|p ps IH]; [done|].
    cbn [map sum_over length]. rewrite IH. unfold left. simpl. lia.
Qed.
End proofs.
