(* ===== verification/TopicCalm.v ===== *)
(** * The pipe server without its race
      ([linux_program/ch13_process_communication/12_advance_topic_server.c],
       [12_advance_topic_client.c])

    The server closes the pipe of a client after its answer.  A client that is already
    in its next round may open the pipe before that, and takes the end of the old
    answer for the end of the new one.  This file shows that the race is the only one:
    without it every client gets all its answers or none, and the server ends. *)

From S2P Require Import Prelude CppInt CText Turns Topic.
Import Pipe.

(** The race: a client opens its pipe while the server still has it open. *)
Definition races (l : label) (s : St) : bool :=
  match l, s_pc s with
  | Client t, SClose u => bool_decide (t = u /\ c_pc <$> clients s !! t = Some COpen)
  | _, _ => false
  end.

Definition calm_step (cap : nat) (l : label) (s : St) : outcome (option St) :=
  if races l s then Ok None else step cap l s.

(** ** The invariant while the server answers *)

(** Where the server is with a client's request. *)
Inductive stage : Type := Away | Held | Opening (k : option nat) | Writing | Closing.

Definition stage_of (s : St) (t : nat) (c : client) : stage :=
  match s_pc s with
  | SOpenClient => if decide (client_pid (my_data s) = c_pid c) then Held else Away
  | SWaitClient u k => if decide (u = t) then Opening k else Away
  | SWrite u => if decide (u = t) then Writing else Away
  | SClose u => if decide (u = t) then Closing else Away
  | _ => Away
  end.

Definition requests_of (pid : Z) (l : list data_to_pass_st) : nat :=
  length (filter (fun m => client_pid m = pid) l).

Definition asking (c : client) : nat := match c_pc c with COpen | CWait _ | CRead => 1 | _ => 0 end.
Definition holding (g : stage) : nat := match g with Held | Opening _ | Writing => 1 | _ => 0 end.
Definition writing (g : stage) : nat := match g with Opening _ | Writing | Closing => 1 | _ => 0 end.
Definition reading (c : client) : nat := match c_pc c with CWait _ | CRead | CClose => 1 | _ => 0 end.

(** The server has opened the pipe for the present request. *)
Definition served (g : stage) (c : client) : bool :=
  match g with Opening _ | Writing => true | _ => bool_decide (length (data (fifo c)) = 1%nat) end.

Definition progress (c : client) : Prop :=
  let n := len (received c) in
  match c_pc c with
  | COpenServer | CWaitServer _ | CMkfifo | CFailed => n = 0
  | CFor | CWrite | COpen | CWait _ | CRead => n = times_to_send c /\ linked c = true
  | CClose => n = times_to_send c + 1 /\ linked c = true
  | CCloseServer | CUnlink | CDone => n = 5
  | CKilled => False
  end.

(** A request is in the server's pipe, with the server, or answered in the client's
    pipe; [q]: the client's requests in the server's pipe. *)
Record client_ok (q : nat) (g : stage) (c : client) : Prop := {
  k_one : asking c = (q + holding g + length (data (fifo c)))%nat;
  k_writers : writers (fifo c) = writing g;
  k_readers : readers (fifo c) = reading c;
  k_open : c_pc c = COpen -> data (fifo c) = [];
  k_stage : match g with
            | Opening k => kept k (r_counter (fifo c)) /\ met k (r_counter (fifo c)) = bool_decide (c_pc c <> COpen)
            | Writing => readers (fifo c) = 1%nat
            | _ => True
            end;
  k_wait : match c_pc c with
           | CWait k => kept k (w_counter (fifo c)) /\ met k (w_counter (fifo c)) = served g c
           | CRead => served g c = true
           | _ => True
           end;
  k_progress : progress c;
}.

Definition opened (s : St) : Prop := match s_pc s with SMkfifo | SOpen => False | _ => True end.

(** The server's pipe and a client: it can pass [open] once the server has opened. *)
Definition arrived (s : St) (c : client) : Prop :=
  match c_pc c with
  | COpenServer | CFailed => True
  | CWaitServer None => opened s
  | CWaitServer (Some n) => n = 0%nat
  | _ => opened s
  end.

Definition has_open (c : client) : Z :=
  match c_pc c with COpenServer | CUnlink | CDone | CFailed | CKilled => 0 | _ => 1 end.

Record open_phase (s : St) : Prop := {
  o_up : match s_pc s with SCloseServer | SUnlink | SDone | SKilled => False | _ => True end;
  o_readers : readers (s_fifo s) = match s_pc s with SMkfifo | SOpen => 0%nat | _ => 1%nat end;
  o_rcount : r_counter (s_fifo s) = match s_pc s with SMkfifo | SOpen => 0%nat | _ => 1%nat end;
  o_writers : Z.of_nat (writers (s_fifo s)) = sum_over has_open (clients s);
  o_wait : match s_pc s with
           | SWait k => kept k (w_counter (s_fifo s)) /\ (met k (w_counter (s_fifo s)) = true \/ writers (s_fifo s) = 0%nat)
           | _ => True
           end;
  o_clients : forall t c, clients s !! t = Some c ->
    client_ok (requests_of (c_pid c) (data (s_fifo s))) (stage_of s t c) c /\ arrived s c;
}.

(** ** The invariant when it has left its loop *)

Definition finished (c : client) : Prop := (c_pc c = CUnlink \/ c_pc c = CDone) /\ len (received c) = 5.

Definition late (c : client) : Prop :=
  received c = [] /\ writers (fifo c) = 0%nat /\
  match c_pc c with
  | COpenServer | CWaitServer _ | CMkfifo | CFailed | CKilled => True
  | CFor | CWrite | COpen => times_to_send c = 0 /\ linked c = true
  | CWait k => met k (w_counter (fifo c)) = false
  | _ => False
  end.

Record shut_phase (s : St) : Prop := {
  h_down : match s_pc s with
           | SCloseServer => readers (s_fifo s) = 1%nat
           | SUnlink | SDone => readers (s_fifo s) = 0%nat
           | _ => False
           end;
  h_clients : Forall (fun c => finished c \/ late c) (clients s);
}.

Section proofs.
Context (cap : nat) (pids : list Z).
Hypothesis (Hdistinct : NoDup pids) (Hrange : Forall pid_ok pids).

Lemma requests_app pid l l' : requests_of pid (l ++ l') = (requests_of pid l + requests_of pid l')%nat.
Proof. unfold requests_of. by rewrite filter_app, length_app. Qed.

Lemma requests_cons pid m l : requests_of pid (m :: l) = ((if decide (client_pid m = pid) then 1 else 0) + requests_of pid l)%nat.
Proof. unfold requests_of. rewrite filter_cons. by case_decide. Qed.

(** What a step of client [t] has to keep. *)
Lemma open_update s t c c' f :
  texts pids s -> open_phase s -> clients s !! t = Some c -> c_pid c' = c_pid c ->
  readers f = readers (s_fifo s) -> r_counter f = r_counter (s_fifo s) ->
  Z.of_nat (writers f) - Z.of_nat (writers (s_fifo s)) = has_open c' - has_open c ->
  (w_counter f = w_counter (s_fifo s) /\ (writers f <= writers (s_fifo s))%nat \/ w_counter f = S (w_counter (s_fifo s))) ->
  (forall pid, pid <> c_pid c -> requests_of pid (data f) = requests_of pid (data (s_fifo s))) ->
  client_ok (requests_of (c_pid c) (data f)) (stage_of s t c) c' -> arrived s c' ->
  open_phase (set_client t c' f s).
Proof.
  intros Hx [H1 H2 H3 H4 H5 H6] Hc Hp Hr Hrc Hw Hwc Hq Hok Ha. split; simpl; try done; try congruence.
  - rewrite (sum_over_insert has_open _ t c c' Hc). lia.
  - destruct (s_pc s); try done. destruct H5 as [Hk Hm]. destruct Hwc as [[-> Hle]| ->].
    + split; [done|]. destruct Hm; [by left|right; lia].
    + split; [by apply kept_up|left; by apply met_up].
  - intros u d Hd. destruct (decide (u = t)) as [->|Hne].
    + rewrite list_lookup_insert_eq in Hd by (by eapply lookup_lt_Some). injection Hd as <-.
      rewrite Hp. split; [|exact Ha]. unfold stage_of in *. simpl. by rewrite Hp.
    + rewrite list_lookup_insert_ne in Hd by done. destruct (H6 u d Hd) as [Hok' Ha']. split; [|exact Ha'].
      rewrite Hq; [done|]. intros E. apply Hne. by eapply (same_client pids Hdistinct s u t d c).
Qed.

(** With the server's pipe left alone, but for ends that are closed. *)
Lemma open_update_same s t c c' :
  texts pids s -> open_phase s -> clients s !! t = Some c -> c_pid c' = c_pid c -> has_open c' = has_open c ->
  client_ok (requests_of (c_pid c) (data (s_fifo s))) (stage_of s t c) c' -> arrived s c' ->
  open_phase (set_client t c' (s_fifo s) s).
Proof. intros. eapply open_update; try done; [lia|left; split; [done|lia]]. Qed.

Lemma opened_readers s : open_phase s -> opened s -> readers (s_fifo s) = 1%nat.
Proof. intros Ho H. rewrite (o_readers s Ho). unfold opened in H. by destruct (s_pc s). Qed.

Lemma open_update_close s t c c' :
  texts pids s -> open_phase s -> opened s -> clients s !! t = Some c -> c_pid c' = c_pid c ->
  has_open c = 1 -> has_open c' = 0 ->
  client_ok (requests_of (c_pid c) (data (s_fifo s))) (stage_of s t c) c' -> arrived s c' ->
  open_phase (set_client t c' (close_w (s_fifo s)) s).
Proof.
  intros Hx Ho Hop Hc Hp Hh Hh' Hok Ha. pose proof (opened_readers s Ho Hop) as Hr.
  assert (Hd : data (close_w (s_fifo s)) = data (s_fifo s)).
  { unfold close_w, shut. simpl. rewrite decide_False; [done|]. lia. }
  assert (Hw : (0 < writers (s_fifo s))%nat).
  { pose proof (o_writers s Ho) as H. pose proof (sum_over_at has_open (clients s) t c) as H'.
    enough (has_open c <= sum_over has_open (clients s)) by lia. apply H'; [|done].
    intros d. unfold has_open. by destruct (c_pc d). }
  eapply open_update; try done; rewrite ?Hd; try done; simpl; [lia|left; split; [done|lia]].
Qed.

Lemma no_race s t c u : clients s !! t = Some c -> c_pc c = COpen -> races (Client t) s = false -> s_pc s = SClose u -> u <> t.
Proof.
  intros Hc Hp Hr Hs ->. unfold races in Hr. rewrite Hs, Hc in Hr. apply bool_decide_eq_false in Hr. apply Hr.
  split; [done|]. simpl. by rewrite Hp.
Qed.

Lemma ok_idle q g c : client_ok q g c -> asking c = 0%nat -> q = 0%nat /\ holding g = 0%nat /\ data (fifo c) = [].
Proof. intros H E. pose proof (k_one _ _ _ H) as H1. rewrite E in H1. split_and!; [lia..|]. apply length_zero_iff_nil. lia. Qed.

Lemma idle_ok g c :
  holding g = 0%nat -> data (fifo c) = [] -> asking c = 0%nat -> writers (fifo c) = writing g ->
  readers (fifo c) = reading c -> progress c -> client_ok 0 g c.
Proof.
  intros Hg Hd Ha Hw Hr Hp. split; try done; [by rewrite Ha, Hg, Hd|by destruct g|].
  unfold asking in Ha. by destruct (c_pc c).
Qed.

(** A client that asks for nothing before and after its step. *)
Lemma idle_step q g c c' :
  client_ok q g c -> asking c = 0%nat -> asking c' = 0%nat -> data (fifo c') = [] ->
  writers (fifo c') = writers (fifo c) -> readers (fifo c') = reading c' -> progress c' -> client_ok q g c'.
Proof.
  intros Hok Ha Ha' Hd Hw Hr Hp. destruct (ok_idle q g c Hok Ha) as (-> & Hg & _).
  apply idle_ok; try done. rewrite Hw. apply Hok.
Qed.

Lemma wait_server_arrived s c : open_phase s -> arrived s (goto (CWaitServer (wait_r (s_fifo s))) c).
Proof.
  intros Ho. pose proof (o_readers s Ho) as Hr. pose proof (o_rcount s Ho) as Hc.
  unfold arrived, wait_r, opened. simpl. case_decide; destruct (s_pc s); done || lia.
Qed.

Lemma passed_opened s k : open_phase s ->
  match k with None => opened s | Some n => n = 0%nat end -> met k (r_counter (s_fifo s)) = true -> opened s.
Proof.
  intros Ho. destruct k as [n|]; [|done]. intros -> H. simpl in H. apply bool_decide_eq_true in H.
  pose proof (o_rcount s Ho) as Hc. unfold opened. destruct (s_pc s); done || lia.
Qed.

Ltac at_pc := unfold asking, reading, has_open, progress, arrived in *; simpl in *;
  repeat match goal with H : c_pc _ = _ |- _ => rewrite !H end; simpl; try done.

Lemma open_client_step s t c s' :
  texts pids s -> open_phase s -> clients s !! t = Some c -> races (Client t) s = false ->
  client_step cap t c s = Ok (Some s') -> open_phase s'.
Proof.
  intros Hx Ho Hc Hrace E. destruct (texts_pid pids Hrange s t c Hx Hc) as [Hin Hp].
  pose proof (Forall_lookup_1 _ _ _ _ (x_clients _ _ Hx) Hc) as [_ _ T3 T4].
  destruct (o_clients s Ho t c Hc) as [Hok Ha]. pose proof (k_progress _ _ _ Hok) as K.
  pose proof (ok_idle _ _ _ Hok) as Hidle. pose proof (k_readers _ _ _ Hok) as Hrd.
  assert (Hstep : forall c', asking c = 0%nat -> asking c' = 0%nat -> data (fifo c') = data (fifo c) ->
     writers (fifo c') = writers (fifo c) -> readers (fifo c') = reading c' -> progress c' ->
     client_ok (requests_of (c_pid c) (data (s_fifo s))) (stage_of s t c) c').
  { intros c' A A' D. apply (idle_step _ _ c); try done. rewrite D. by apply Hidle. }
  unfold client_step in E. unfold rounds_ok in T4. unfold arrived in Ha. unfold progress in K. unfold reading in Hrd.
  destruct (c_pc c) eqn:Epc; try done.
  - destruct (s_linked s); injection E as <-.
    + eapply open_update; try done; simpl; [at_pc; lia|by right|apply Hstep; by at_pc|by apply wait_server_arrived].
    + apply (open_update_same s t c); try done; [by at_pc|apply Hstep; by at_pc].
  - destruct (met k _) eqn:Em; [|done]. injection E as <-. apply (open_update_same s t c); try done; [by at_pc|apply Hstep; by at_pc|].
    at_pc. by eapply passed_opened.
  - rewrite sprintf_name in E by done. simpl in E. destruct (linked c); injection E as <-.
    + apply (open_update_close s t c); try done; [by at_pc|apply Hstep; by at_pc].
    + apply (open_update_same s t c); try done; [by at_pc|apply Hstep; by at_pc].
  - destruct (decide (times_to_send c < 5)).
    + rewrite T3, sprintf_hi in E by done. simpl in E. injection E as <-.
      apply (open_update_same s t c); try done; [by at_pc|apply Hstep; by at_pc].
    + injection E as <-. apply (open_update_same s t c); try done; [by at_pc|apply Hstep; at_pc; try done; lia].
  - pose proof (opened_readers s Ho Ha) as Hr1. rewrite T3 in E.
    destruct (write _ _ _) as [r|] eqn:Ew; [|done]. apply write_cases in Ew as [[_ Hr]|[-> _]]; [lia|]. injection E as <-.
    eapply open_update; try done; simpl; [at_pc; lia|left; split; [done|lia]|..].
    + intros pid Hne. rewrite requests_app, requests_cons, decide_False by done. unfold requests_of at 2. simpl. lia.
    + destruct Hidle as (Hq & Hh & Hd); [by at_pc|]. rewrite requests_app, Hq, requests_cons, decide_True by done.
      split; try done; [by at_pc; rewrite Hh, Hd|apply Hok|by destruct (stage_of s t c)].
  - destruct K as [K Hl]. rewrite Hl in E. injection E as <-. apply (open_update_same s t c); try done; [by at_pc|].
    pose proof (k_open _ _ _ Hok Epc) as Hd. pose proof (k_one _ _ _ Hok) as H1. unfold asking in H1. rewrite Epc in H1. simpl in H1.
    assert (Hcl : writing (stage_of s t c) = if served (stage_of s t c) c then 1%nat else 0%nat).
    { unfold served, stage_of. pose proof (no_race s t c) as Hnr. rewrite Hd. destruct (s_pc s); try done; case_decide; try done.
      exfalso. by eapply Hnr. }
    pose proof (k_stage _ _ _ Hok) as Hst. pose proof (k_writers _ _ _ Hok) as Hw.
    split; try done; simpl; [by at_pc; rewrite Hrd| |].
    + destruct (stage_of s t c) as [| |k| |]; try done; [|lia]. destruct Hst as [Hk _].
      split; [by apply kept_up|by apply met_up].
    + split; [apply kept_wait_w|]. rewrite met_wait_w, Hw, Hcl. unfold served. simpl. rewrite Hd. by destruct (stage_of s t c).
  - destruct (met k _) eqn:Em; [|done]. injection E as <-. apply (open_update_same s t c); try done; [by at_pc|].
    destruct Hok as [K1 K2 K3 K4 K5 K6 K7]. rewrite Epc in K6. destruct K6 as [_ K6].
    unfold asking, reading in *. rewrite Epc in *. split; try done; simpl.
    change (served (stage_of s t c) c = true). by rewrite <- K6.
  - destruct Hok as [K1 K2 K3 K4 K5 K6 K7]. unfold asking, reading, progress in *. rewrite Epc in *.
    destruct (read _) as [r|] eqn:Er; [|done]. apply read_cases in Er as [(_ & Hd & Hw)|(m & l & El & ->)].
    + exfalso. unfold served in K6. rewrite Hd in K6. destruct (stage_of s t c); simpl in *; (done || lia).
    + injection E as <-. rewrite El in K1. simpl in K1.
      assert (Hl : l = []) by (apply length_zero_iff_nil; lia).
      assert (requests_of (c_pid c) (data (s_fifo s)) = 0%nat) as Hq by lia.
      apply (open_update_same s t c); try done; [by at_pc|]. rewrite Hq.
      apply idle_ok; try done; [lia|].
      at_pc. rewrite length_app. simpl. destruct K7. split; [lia|done].
  - unfold schk in E. rewrite decide_True in E by (unfold in_s; lia). simpl in E. injection E as <-.
    destruct Hidle as (Hq & Hh & Hd); [by at_pc|].
    apply (open_update_same s t c); try done; [by at_pc|]. apply (idle_step _ _ c); try done.
    + by at_pc.
    + unfold close_r, shut. simpl. by case_decide.
    + unfold reading. simpl. by rewrite Hrd.
  - injection E as <-. apply (open_update_close s t c); try done; [by at_pc|apply Hstep; by at_pc].
  - injection E as <-. apply (open_update_same s t c); try done; [by at_pc|apply Hstep; by at_pc].
Qed.

(** *** The server's steps *)

Lemma take_request q c : client_ok (S q) Away c -> client_ok q Held c.
Proof. intros [K1 K2 K3 K4 K5 K6 K7]. split; try done. simpl in *. lia. Qed.

Lemma asking_reading c : asking c = 1%nat -> reading c = if decide (c_pc c = COpen) then 0%nat else 1%nat.
Proof. unfold asking, reading. by destruct (c_pc c). Qed.

Lemma open_request q c :
  client_ok q Held c -> client_ok q (Opening (wait_r (fifo c))) (set_fifo (open_w (fifo c)) c).
Proof.
  intros [K1 K2 K3 K4 K5 K6 K7].
  assert (Ha : asking c = 1%nat) by (unfold asking in *; destruct (c_pc c); simpl in *; lia).
  split; try done; simpl.
  - by rewrite K2.
  - split; [apply kept_wait_r|]. rewrite met_wait_r, K3, (asking_reading c Ha). by destruct (decide (c_pc c = COpen)); repeat case_bool_decide.
  - destruct (c_pc c); try done. destruct K6 as [K6 _]. split; [by apply kept_up|by apply met_up].
Qed.

Lemma writing_request q k c : client_ok q (Opening k) c -> met k (r_counter (fifo c)) = true -> client_ok q Writing c.
Proof.
  intros [K1 K2 K3 K4 K5 K6 K7] Hm. destruct K5 as [_ K5]. rewrite Hm in K5. symmetry in K5. apply bool_decide_eq_true in K5.
  assert (Ha : asking c = 1%nat) by (unfold asking in *; destruct (c_pc c); simpl in *; lia).
  split; try done. rewrite K3, (asking_reading c Ha), decide_False by done. done.
Qed.

Lemma answer_request q c m : client_ok q Writing c -> client_ok q Closing (set_fifo (with_data (data (fifo c) ++ [m]) (fifo c)) c).
Proof.
  intros [K1 K2 K3 K4 K5 K6 K7].
  assert (Hd : data (fifo c) = []).
  { apply length_zero_iff_nil. unfold asking in *. destruct (c_pc c); simpl in *; lia. }
  split; try done; simpl; rewrite ?Hd; simpl.
  - rewrite Hd in K1. change (asking (set_fifo _ c)) with (asking c). simpl in *. lia.
  - intros E. unfold reading in K3. rewrite E in K3. lia.
  - by destruct (c_pc c).
Qed.

Lemma close_request q c : client_ok q Closing c -> client_ok q Away (set_fifo (close_w (fifo c)) c).
Proof.
  intros [K1 K2 K3 K4 K5 K6 K7].
  assert (Hd : data (close_w (fifo c)) = data (fifo c)).
  { unfold close_w, shut. simpl. rewrite K2, K3. simpl. case_decide as H; [|done]. symmetry.
    apply length_zero_iff_nil. unfold asking, reading in *. destruct (c_pc c); simpl in *; try lia. by rewrite K4. }
  split; try done; cbn [set_fifo fifo c_pc]; rewrite ?Hd; try done.
  - simpl. by rewrite K2.
  - unfold served in *. cbn [set_fifo fifo c_pc]. by rewrite Hd.
Qed.

Lemma arrived_mono s s' c c' : (opened s -> opened s') -> c_pc c' = c_pc c -> arrived s c -> arrived s' c'.
Proof. intros H E. unfold arrived. rewrite E. destruct (c_pc c) as [|[n|]| | | | | | | | | | | |]; auto. Qed.

(** A step of the server that leaves the clients alone, and one that changes a pipe. *)
Lemma keep_clients s s' :
  open_phase s -> clients s' = clients s -> (opened s -> opened s') ->
  (forall t c, clients s !! t = Some c ->
     client_ok (requests_of (c_pid c) (data (s_fifo s))) (stage_of s t c) c ->
     client_ok (requests_of (c_pid c) (data (s_fifo s'))) (stage_of s' t c) c) ->
  forall t c, clients s' !! t = Some c ->
    client_ok (requests_of (c_pid c) (data (s_fifo s'))) (stage_of s' t c) c /\ arrived s' c.
Proof.
  intros Ho E Hop H t c Hc. rewrite E in Hc. destruct (o_clients s Ho t c Hc) as [Hok Ha].
  split; [by apply H|]. by apply (arrived_mono s s' c c).
Qed.

Lemma change_pipe s pc t c f :
  open_phase s -> opened s -> clients s !! t = Some c ->
  let s' := set_pipe t c f (set_server pc (s_fifo s) s) in
  match pc with SRead | SWaitClient _ _ | SWrite _ | SClose _ => True | _ => False end ->
  client_ok (requests_of (c_pid c) (data (s_fifo s))) (stage_of s' t c) (set_fifo f c) ->
  (forall u d, clients s !! u = Some d -> u <> t -> stage_of s' u d = stage_of s u d) ->
  open_phase s'.
Proof.
  intros Ho Hop Hc s' Hpc Hok Hst. pose proof (opened_readers s Ho Hop) as Hr.
  assert (Hrc : r_counter (s_fifo s) = 1%nat) by (rewrite (o_rcount s Ho); unfold opened in Hop; by destruct (s_pc s)).
  split; simpl.
  - by destruct pc.
  - rewrite Hr. by destruct pc.
  - rewrite Hrc. by destruct pc.
  - rewrite (sum_over_insert has_open _ t c _ Hc). change (has_open (set_fifo f c)) with (has_open c). rewrite (o_writers s Ho). lia.
  - by destruct pc.
  - assert (Hop' : opened s') by (unfold opened; simpl; by destruct pc).
    intros u d Hd. destruct (decide (u = t)) as [->|Hne].
    + rewrite list_lookup_insert_eq in Hd by (by eapply lookup_lt_Some). injection Hd as <-.
      split; [done|]. destruct (o_clients s Ho t c Hc) as [_ Ha]. by apply (arrived_mono s s' c).
    + rewrite list_lookup_insert_ne in Hd by done. destruct (o_clients s Ho u d Hd) as [Hok' Ha].
      split; [|by apply (arrived_mono s s' d)]. fold s'. by rewrite Hst.
Qed.

Lemma away_or s t c u d :
  texts pids s -> clients s !! t = Some c -> clients s !! u = Some d -> u <> t -> c_pid d <> c_pid c.
Proof. intros Hx Hc Hd Hne E. apply Hne. by eapply (same_client pids Hdistinct s u t d c). Qed.

Lemma find_client s m : texts pids s -> client_pid m ∈ pids -> exists t c, clients s !! t = Some c /\ c_pid c = client_pid m.
Proof.
  intros Hx Hm. rewrite <- (x_pids _ _ Hx) in Hm. apply list_elem_of_fmap in Hm as (c & -> & Hc).
  apply list_elem_of_lookup in Hc as [t Hc]. by exists t, c.
Qed.

Lemma open_server_step s s' :
  texts pids s -> open_phase s -> server_step cap s = Ok (Some s') -> open_phase s' \/ s' = set_server SCloseServer (s_fifo s) s /\
    s_pc s = SRead /\ data (s_fifo s) = [] /\ writers (s_fifo s) = 0%nat.
Proof.
  intros Hx Ho E. pose proof Ho as [H1 H2 H3 H4 H5 H6]. pose proof (x_server _ _ Hx) as Hsrv.
  unfold server_step in E. unfold serves in Hsrv.
  destruct (s_pc s) as [| |k| | |t k|t|t| | | |] eqn:Epc; try done.
  - injection E as <-. left. split; try done. apply (keep_clients s); [done|done|unfold opened; by rewrite Epc|].
    intros t c _. unfold stage_of. by rewrite Epc.
  - injection E as <-. left. split; try done; [simpl; by rewrite H2|simpl; by rewrite H3|split; [apply (kept_wait_w (s_fifo s))|]|].
    + simpl. rewrite met_wait_w. destruct (decide (writers (s_fifo s) = 0%nat)); [by right|left; by apply bool_decide_eq_true_2].
    + apply (keep_clients s); [done|done|unfold opened; by rewrite Epc|]. intros t c _. unfold stage_of. by rewrite Epc.
  - destruct (met k _) eqn:Em; [|done]. injection E as <-. left. split; try done.
    apply (keep_clients s); [done|done|done|]. intros t c _. unfold stage_of. by rewrite Epc.
  - destruct (read _) as [r|] eqn:Er; [|done]. apply read_cases in Er as [(-> & Hd & Hw)|(m & l & El & ->)]; injection E as <-; [by right|].
    left. split; try done. apply (keep_clients s); [done|done|done|]. intros t c _. unfold stage_of. simpl. rewrite Epc, El, requests_cons.
    case_decide; [apply take_request|done].
  - rewrite sprintf_name in E; [|rewrite Forall_forall in Hrange; apply Hrange, Hsrv]. simpl in E. injection E as <-. left.
    destruct (find_client s (my_data s) Hx) as (t & c & Hc & Hp); [apply Hsrv|]. destruct (H6 t c Hc) as [Hok _].
    unfold stage_of in Hok. rewrite Epc, decide_True in Hok by done.
    assert (Hl : linked c = true).
    { pose proof (k_one _ _ _ Hok) as Ha. pose proof (k_progress _ _ _ Hok) as Hpr. unfold asking, progress in *.
      destruct (c_pc c); simpl in *; (done || lia || apply Hpr). }
    destruct (find_fifo _ _) as [u|] eqn:Ef; [|rewrite (find_fifo_none _ _ _ _ Ef Hc Hp) in Hl; done].
    apply find_fifo_some in Ef as (d & Hd & Hdp & _). assert (u = t) as ->.
    { eapply (same_client pids Hdistinct s); [done..|]. congruence. }
    assert (d = c) as -> by congruence. rewrite Hc.
    apply change_pipe; try done; [unfold opened; by rewrite Epc|..]; unfold stage_of; simpl.
    + rewrite decide_True by done. by apply open_request.
    + intros v e He Hne. rewrite Epc, !decide_False; [done| |done]. rewrite <- Hp. intros Ev.
      eapply (away_or s t c v e); try done.
  - destruct (clients s !! t) as [c|] eqn:Hc; [|done]. destruct (met k _) eqn:Em; [|done]. injection E as <-. left.
    split; try done. apply (keep_clients s); [done|done|done|]. intros u d Hd. unfold stage_of. simpl. rewrite Epc.
    case_decide; [|done]. subst u. assert (d = c) as -> by congruence. intros Hok. by eapply writing_request.
  - destruct (clients s !! t) as [c|] eqn:Hc; [|done]. destruct (write _ _ _) as [r|] eqn:Ew; [|done].
    destruct (H6 t c Hc) as [Hok _]. unfold stage_of in Hok. rewrite Epc, decide_True in Hok by done.
    apply write_cases in Ew as [[_ Hr]|[-> _]]; [pose proof (k_stage _ _ _ Hok) as Hk; simpl in Hk; lia|]. injection E as <-. left.
    apply change_pipe; try done; [unfold opened; by rewrite Epc|..]; unfold stage_of; simpl.
    + rewrite decide_True by done. by apply answer_request.
    + intros v e He Hne. by rewrite Epc, !decide_False.
  - destruct (clients s !! t) as [c|] eqn:Hc; [|done]. injection E as <-. left.
    destruct (H6 t c Hc) as [Hok _]. unfold stage_of in Hok. rewrite Epc, decide_True in Hok by done.
    apply change_pipe; try done; [unfold opened; by rewrite Epc|..]; unfold stage_of; simpl.
    + by apply close_request.
    + intros v e He Hne. by rewrite Epc, decide_False.
Qed.

(** *** After the server's loop *)

Lemma has_open_nonneg c : 0 <= has_open c.
Proof. unfold has_open. destruct (c_pc c); lia. Qed.

(** Nobody has the server's pipe open: all are before it, or through. *)
Lemma nobody_open s t c :
  open_phase s -> writers (s_fifo s) = 0%nat -> clients s !! t = Some c ->
  (c_pc c = COpenServer \/ c_pc c = CFailed) /\ received c = [] \/ finished c.
Proof.
  intros Ho Hw Hc. pose proof (o_writers s Ho) as H. pose proof (sum_over_at has_open _ t c has_open_nonneg Hc) as H'.
  destruct (o_clients s Ho t c Hc) as [Hok _]. pose proof (k_progress _ _ _ Hok) as Hp.
  unfold has_open, progress, finished in *. destruct (c_pc c); try done; try lia; auto; left; (split; [by auto|]);
    by destruct (received c).
Qed.

Lemma enter_shut s :
  open_phase s -> s_pc s = SRead -> writers (s_fifo s) = 0%nat -> shut_phase (set_server SCloseServer (s_fifo s) s).
Proof.
  intros Ho Hpc Hw. split; simpl; [by rewrite (o_readers s Ho), Hpc|].
  apply Forall_lookup. intros t c Hc. destruct (nobody_open s t c Ho Hw Hc) as [[Hp Hr]|H]; [right|by left].
  split; [done|]. destruct (o_clients s Ho t c Hc) as [Hok _]. split.
  - rewrite (k_writers _ _ _ Hok). unfold stage_of. by rewrite Hpc.
  - by destruct Hp as [-> | ->].
Qed.

Lemma shut_client_step s t c s' :
  texts pids s -> shut_phase s -> clients s !! t = Some c -> client_step cap t c s = Ok (Some s') -> shut_phase s'.
Proof.
  intros Hx [H1 H2] Hc E. destruct (texts_pid pids Hrange s t c Hx Hc) as [_ Hp].
  pose proof (Forall_lookup_1 _ _ _ _ (x_clients _ _ Hx) Hc) as [_ _ T3 _].
  assert (Hset : forall c' f, s' = set_client t c' f s -> readers f = readers (s_fifo s) -> finished c' \/ late c' -> shut_phase s').
  { intros c' f -> Hr Hok. split; simpl; [by rewrite Hr|by apply Forall_insert]. }
  unfold client_step in E. destruct (Forall_lookup_1 _ _ _ _ H2 Hc) as [[[Hpc|Hpc] Hf]|(L1 & L2 & L3)]; rewrite ?Hpc in E; try done.
  - injection E as <-. eapply Hset; [done|done|]. left. by split; [right|].
  - destruct (c_pc c) eqn:Epc; try done; rewrite ?L3 in E; try done.
    + destruct (s_linked s); injection E as <-; (eapply Hset; [done|done|right; done]).
    + destruct (met k _); [|done]. injection E as <-. eapply Hset; [done|done|right; done].
    + rewrite sprintf_name in E by done. simpl in E. destruct (linked c); injection E as <-; (eapply Hset; [done|done|right; done]).
    + destruct L3 as [L3 L4]. rewrite L3, decide_True, T3, sprintf_hi in E by done. simpl in E. injection E as <-.
      eapply Hset; [done|done|right; done].
    + destruct (write _ _ _) as [r|] eqn:Ew; [|done]. apply write_cases in Ew as [[-> _]|[-> _]]; injection E as <-;
        (eapply Hset; [done|done|right; done]).
    + destruct L3 as [L3 L4]. rewrite L4 in E. injection E as <-. eapply Hset; [done|done|right]. split; [done|]. split; [done|].
      simpl. rewrite met_wait_w, L2. done.
Qed.

Lemma shut_server_step s s' : shut_phase s -> server_step cap s = Ok (Some s') -> shut_phase s'.
Proof.
  intros [H1 H2] E. unfold server_step in E. destruct (s_pc s); try done; injection E as <-; split; try done.
  simpl in *. by rewrite H1.
Qed.

Lemma calm_step_inv l s s' :
  texts pids s -> open_phase s \/ shut_phase s -> calm_step cap l s = Ok (Some s') ->
  texts pids s' /\ (open_phase s' \/ shut_phase s').
Proof.
  intros Hx Hi E. unfold calm_step in E. destruct (races l s) eqn:Hr; [done|]. split; [by eapply texts_step|].
  destruct l as [|t]; simpl in E.
  - destruct Hi as [Ho|Hs]; [|right; by eapply shut_server_step].
    destruct (open_server_step s s' Hx Ho E) as [H|(-> & Hpc & _ & Hw)]; [by left|right; by apply enter_shut].
  - destruct (clients s !! t) as [c|] eqn:Hc; [|done].
    destruct Hi as [Ho|Hs]; [left; by eapply open_client_step|right; by eapply shut_client_step].
Qed.

Lemma open_start old ps : open_phase (start old ps).
Proof.
  split; simpl; try done.
  - symmetry. apply sum_over_zero, Forall_forall. by intros c (p & -> & _)%list_elem_of_fmap.
  - intros t c Hc. apply list_lookup_fmap_Some in Hc as (p & -> & _). split; [|done]. by apply idle_ok.
Qed.

(** *** Nothing can go on *)

Lemma client_can s t c :
  (0 < cap)%nat -> texts pids s -> open_phase s -> s_pc s = SRead -> data (s_fifo s) = [] ->
  clients s !! t = Some c -> has_open c = 1 -> client_step cap t c s <> Ok None.
Proof.
  intros Hcap Hx Ho Hpc Hd Hc Hh E. destruct (texts_pid pids Hrange s t c Hx Hc) as [_ Hp].
  pose proof (Forall_lookup_1 _ _ _ _ (x_clients _ _ Hx) Hc) as [_ _ T3 T4].
  destruct (o_clients s Ho t c Hc) as [[K1 _ _ _ _ K6 _] Ha].
  pose proof (o_readers s Ho) as Hr. pose proof (o_rcount s Ho) as Hrc. rewrite Hpc in Hr, Hrc.
  unfold stage_of in *. rewrite Hpc, Hd in *. unfold requests_of, asking in K1. unfold rounds_ok in T4. unfold arrived in Ha.
  unfold client_step, has_open in *. simpl in K1. destruct (c_pc c) as [|k| | | | |k| | | | | | |]; try done; simpl in *.
  - enough (met k (r_counter (s_fifo s)) = true) as Hm by (by rewrite Hm in E).
    destruct k as [n|]; [|done]. rewrite Ha, Hrc. done.
  - rewrite sprintf_name in E by done. simpl in E. by destruct (linked c).
  - case_decide; [|done]. by rewrite T3, sprintf_hi in E by done.
  - unfold write in E. by rewrite Hr, Hd, decide_False, decide_True in E by (simpl; lia).
  - by destruct (linked c).
  - destruct K6 as [_ K6]. rewrite K6 in E. by rewrite bool_decide_eq_true_2 in E by lia.
  - unfold read in E. by destruct (data (fifo c)).
  - unfold schk in E. by rewrite decide_True in E by (unfold in_s; lia).
Qed.

(** In its loop the server, or a client it waits for, can go on. *)
Lemma open_stuck s :
  (0 < cap)%nat -> texts pids s -> open_phase s -> (forall l, step cap l s = Ok None) ->
  exists k, s_pc s = SWait k /\ writers (s_fifo s) = 0%nat.
Proof.
  intros Hcap Hx Ho Hs. pose proof (Hs Server) as E. pose proof (x_server _ _ Hx) as Hsrv. pose proof (o_up s Ho) as Hup.
  simpl in E. unfold server_step, serves in *. destruct (s_pc s) as [| |k| | |t k|t|t| | | |] eqn:Epc; try done.
  - exists k. split; [done|]. pose proof (o_wait s Ho) as Hw. rewrite Epc in Hw. destruct Hw as [_ [Hm|Hw]]; [|done].
    by rewrite Hm in E.
  - exfalso. unfold read in E. destruct (data (s_fifo s)) as [|m l] eqn:Hd; [|done]. case_decide as Hw; [done|].
    destruct (decide (Forall (fun c => has_open c = 0) (clients s))) as [Hz|Hz].
    + apply sum_over_zero in Hz. pose proof (o_writers s Ho). lia.
    + apply not_Forall_Exists in Hz; [|apply _]. apply Exists_exists in Hz as (c & Hin & Hh).
      apply list_elem_of_lookup in Hin as [t Hc]. specialize (Hs (Client t)). simpl in Hs. rewrite Hc in Hs.
      cbn in Hh. eapply (client_can s t c); try done. unfold has_open in *. by destruct (c_pc c).
  - rewrite sprintf_name in E; [done|]. rewrite Forall_forall in Hrange. apply Hrange, Hsrv.
  - exfalso. destruct Hsrv as (_ & c & Hc & _). rewrite Hc in E. destruct (o_clients s Ho t c Hc) as [Hok _].
    pose proof (k_stage _ _ _ Hok) as Hk. unfold stage_of in Hk. rewrite Epc, decide_True in Hk by done. destruct Hk as [_ Hk].
    rewrite Hk in E. case_bool_decide as Hp; [done|]. specialize (Hs (Client t)). simpl in Hs. rewrite Hc in Hs.
    unfold client_step in Hs. rewrite Hp in Hs. by destruct (linked c).
  - exfalso. destruct Hsrv as (_ & c & Hc & _). rewrite Hc in E. destruct (o_clients s Ho t c Hc) as [Hok _].
    pose proof (k_stage _ _ _ Hok) as Hk. pose proof (k_one _ _ _ Hok) as H1. unfold stage_of in *. rewrite Epc, decide_True in * by done.
    unfold write in E. rewrite decide_False, decide_True in E; [done|simpl in *; unfold asking in H1; destruct (c_pc c); lia|lia].
  - destruct Hsrv as (c & Hc). by rewrite Hc in E.
Qed.

Lemma shut_stuck s :
  texts pids s -> shut_phase s -> (forall l, step cap l s = Ok None) ->
  s_pc s = SDone /\ forall t c, clients s !! t = Some c ->
    c_pc c = CDone /\ len (received c) = 5 \/
    received c = [] /\ (c_pc c = CFailed \/ c_pc c = CKilled \/ exists k, c_pc c = CWaitServer k \/ c_pc c = CWait k).
Proof.
  intros Hx [H1 H2] Hs. assert (Hpc : s_pc s = SDone).
  { specialize (Hs Server). simpl in Hs. unfold server_step in Hs. by destruct (s_pc s). }
  split; [done|]. rewrite Hpc in H1. intros t c Hc. destruct (texts_pid pids Hrange s t c Hx Hc) as [_ Hp].
  pose proof (Forall_lookup_1 _ _ _ _ (x_clients _ _ Hx) Hc) as [_ _ T3 T4].
  specialize (Hs (Client t)). simpl in Hs. rewrite Hc in Hs. unfold client_step in Hs. unfold rounds_ok in T4.
  destruct (Forall_lookup_1 _ _ _ _ H2 Hc) as [[[E|E] Hf]|(L1 & L2 & L3)]; [by rewrite E in Hs|by left|right].
  split; [done|]. destruct (c_pc c) as [|k| | | | |k| | | | | | |]; try done; eauto.
  - by destruct (s_linked s).
  - rewrite sprintf_name in Hs by done. simpl in Hs. by destruct (linked c).
  - rewrite decide_True in Hs by (destruct L3; lia). by rewrite T3, sprintf_hi in Hs by done.
  - unfold write in Hs. by rewrite decide_True in Hs by done.
  - by destruct (linked c).
Qed.

Lemma received_all c n :
  client_texts c -> len (received c) = Z.of_nat n -> received c = replicate n (reply (c_pid c)).
Proof.
  intros Ht Hn. apply Nat2Z.inj in Hn. pose proof (t_received _ Ht) as H. subst n. revert H.
  induction (received c) as [|l ls IH]; [done|]. intros [-> H]%Forall_cons. simpl. f_equal. by apply IH.
Qed.

(** *** A client the server has let in *)

Definition admitted (c : client) : Prop :=
  match c_pc c with CFor | CWrite | COpen | CWait _ | CRead | CClose | CCloseServer => True | _ => False end.
Definition in_loop (s : St) : Prop :=
  match s_pc s with SRead | SOpenClient | SWaitClient _ _ | SWrite _ | SClose _ => True | _ => False end.

(** Client [t] is being served, or through. *)
Definition in_service (t : nat) (s : St) : Prop :=
  exists c, clients s !! t = Some c /\
    (in_loop s /\ open_phase s /\ (admitted c \/ finished c) \/ shut_phase s /\ finished c).

Lemma admitted_step s t c s' :
  open_phase s -> clients s !! t = Some c -> admitted c \/ finished c -> client_step cap t c s = Ok (Some s') ->
  exists c', clients s' !! t = Some c' /\ (admitted c' \/ finished c').
Proof.
  intros Ho Hc Ha E. destruct (o_clients s Ho t c Hc) as [Hok Harr]. pose proof (k_progress _ _ _ Hok) as Hp.
  assert (Hset : forall c' f, admitted c' \/ finished c' -> Ok (Some (set_client t c' f s)) = Ok (Some s') ->
            exists c', clients s' !! t = Some c' /\ (admitted c' \/ finished c')).
  { intros c' f H [= <-]. exists c'. simpl. by rewrite list_lookup_insert_eq by (by eapply lookup_lt_Some). }
  unfold client_step, admitted, finished, progress, arrived in *. destruct (c_pc c) eqn:Epc; try (destruct Ha as [|[[|] _]]; done).
  - case_decide; [|by eapply Hset; [left|exact E]]. destruct (sprintf _ _); try done. by eapply Hset; [left|exact E].
  - destruct (write _ _ _) as [r|] eqn:Ew; [|done]. apply write_cases in Ew as [[_ Hr]|[-> _]].
    + rewrite (opened_readers s Ho Harr) in Hr. done.
    + by eapply Hset; [left|exact E].
  - destruct (linked c); by eapply Hset; [left|exact E].
  - destruct (met k _); [|done]. by eapply Hset; [left|exact E].
  - destruct (read _) as [[|[m f]]|]; [..|done]; by eapply Hset; [left|exact E].
  - destruct (schk 32 _); try done. by eapply Hset; [left|exact E].
  - eapply Hset; [right|exact E]. by split; [left|].
  - eapply Hset; [right|exact E]. simpl. by split; [right|].
Qed.

(** The other processes leave the counts of a client alone. *)
Lemma server_keeps_client s s' t c :
  server_step cap s = Ok (Some s') -> clients s !! t = Some c ->
  exists c', clients s' !! t = Some c' /\ c_pc c' = c_pc c /\ received c' = received c.
Proof.
  intros E Hc.
  assert (Hpipe : forall u d f pc sf m l, clients s !! u = Some d ->
     exists c', clients (mkSt pc m l sf (<[u := set_fifo f d]> (clients s))) !! t = Some c' /\ c_pc c' = c_pc c /\ received c' = received c).
  { intros u d f pc sf m l Hd. simpl. destruct (decide (t = u)) as [->|Hne].
    - rewrite list_lookup_insert_eq by (by eapply lookup_lt_Some). eexists. split; [done|]. by simplify_eq.
    - rewrite list_lookup_insert_ne by done. by exists c. }
  unfold server_step in E. destruct (s_pc s) as [| |k| | |u k|u|u| | | |]; try done; try (injection E as <-; by exists c).
  - destruct (met k _); [|done]. injection E as <-. by exists c.
  - destruct (read _) as [[|[m f]]|]; try done; injection E as <-; by exists c.
  - destruct (sprintf _ _); try done. simpl in E. injection E as <-. destruct (find_fifo _ _) as [u|]; [|by exists c].
    destruct (clients s !! u) eqn:Hu; [|by exists c]. by apply Hpipe.
  - destruct (clients s !! u); [|done]. destruct (met k _); [|done]. injection E as <-. by exists c.
  - destruct (clients s !! u) eqn:Hu; [|done]. destruct (write _ _ _) as [[|f]|]; try done; injection E as <-; by apply Hpipe.
  - destruct (clients s !! u) eqn:Hu; [|done]. injection E as <-. by apply Hpipe.
Qed.

Lemma loop_stays s s' :
  in_loop s -> server_step cap s = Ok (Some s') -> open_phase s' -> in_loop s'.
Proof.
  intros Hl E Ho. pose proof (o_up s' Ho) as Hup. revert Hup. unfold in_loop, server_step in *.
  destruct (s_pc s) eqn:Epc; try done.
  - destruct (read _) as [[|[m f]]|]; try done; by injection E as <-.
  - destruct (sprintf _ _); try done. simpl in E. injection E as <-. destruct (find_fifo _ _) as [u|]; [|done].
    destruct (clients s !! u); [done|by rewrite Epc].
  - destruct (clients s !! t); [|done]. destruct (met k _); [|done]. by injection E as <-.
  - destruct (clients s !! t); [|done]. destruct (write _ _ _) as [[|f]|]; try done; by injection E as <-.
  - destruct (clients s !! t); [|done]. by injection E as <-.
Qed.

Lemma finished_or c : admitted c \/ finished c -> (c_pc c = COpenServer \/ c_pc c = CFailed) /\ received c = [] \/ finished c -> finished c.
Proof. intros [Ha|Hf]; [|done]. intros [[[E|E] _]|Hf]; [..|done]; unfold admitted in Ha; by rewrite E in Ha. Qed.

Lemma in_service_step t l s s' : texts pids s -> in_service t s -> calm_step cap l s = Ok (Some s') -> in_service t s'.
Proof.
  intros Hx (c & Hc & Hin) Hcalm.
  assert (Hinv : texts pids s' /\ (open_phase s' \/ shut_phase s')).
  { eapply calm_step_inv; [exact Hx| |exact Hcalm]. destruct Hin as [(_ & H & _)|[H _]]; auto. }
  unfold calm_step in Hcalm. destruct (races l s) eqn:Hrace; [done|]. destruct l as [|u]; simpl in Hcalm.
  - destruct (server_keeps_client s s' t c Hcalm Hc) as (c' & Hc' & Ep & Er).
    assert (Hf : finished c -> finished c') by (unfold finished; by rewrite Ep, Er).
    exists c'. split; [done|]. destruct Hin as [(Hl & Ho & Ha)|[Hs Hfin]].
    + destruct (open_server_step s s' Hx Ho Hcalm) as [Ho'|(-> & Hpc & _ & Hw)].
      * left. split; [by eapply loop_stays|]. split; [done|]. destruct Ha as [Ha|Ha]; [left; unfold admitted in *; by rewrite Ep|auto].
      * right. split; [by apply enter_shut|]. apply Hf. apply (finished_or c Ha). by apply (nobody_open s t c).
    + right. split; [by eapply shut_server_step|auto].
  - destruct (clients s !! u) as [d|] eqn:Hd; [|done].
    destruct (client_texts_step cap pids Hrange s u d s' Hx Hd Hcalm) as (d' & f & Es & _).
    destruct Hin as [(Hl & Ho & Ha)|[Hs Hfin]].
    + assert (Ho' : open_phase s') by (by eapply open_client_step).
      assert (Hl' : in_loop s') by (by rewrite Es).
      destruct (decide (u = t)) as [->|Hne].
      * destruct (admitted_step s t c s' Ho Hc Ha) as (c' & Hc' & Ha'); [by simplify_eq|]. exists c'. auto.
      * exists c. rewrite Es. simpl. rewrite list_lookup_insert_ne by done. rewrite Es in Ho', Hl'. auto.
    + assert (Hs' : shut_phase s') by (by eapply shut_client_step).
      destruct (decide (u = t)) as [->|Hne].
      * assert (d = c) as -> by congruence. destruct Hfin as [[Ep|Ep] Hr]; unfold client_step in Hcalm; rewrite Ep in Hcalm; [|done].
        injection Hcalm as <-. eexists. simpl. rewrite list_lookup_insert_eq by (by eapply lookup_lt_Some).
        split; [done|]. right. split; [done|]. by split; [right|].
      * exists c. rewrite Es. simpl. rewrite list_lookup_insert_ne by done. rewrite Es in Hs'. auto.
Qed.

Lemma calm_runs_inv s ls s' :
  texts pids s -> open_phase s \/ shut_phase s -> runs (calm_step cap) s ls s' ->
  texts pids s' /\ (open_phase s' \/ shut_phase s').
Proof.
  intros Hx Hi. apply (runs_invariant (calm_step cap) (fun s => texts pids s /\ (open_phase s \/ shut_phase s))); [|done].
  intros l s1 s2 [H1 H2]. by apply calm_step_inv.
Qed.

Lemma service_runs t s ls s' : texts pids s -> in_service t s -> runs (calm_step cap) s ls s' -> texts pids s' /\ in_service t s'.
Proof.
  intros Hx Hi. apply (runs_invariant (calm_step cap) (fun s => texts pids s /\ in_service t s)); [|done].
  intros l s1 s2 [H1 H2] E. split; [|by eapply in_service_step]. unfold calm_step in E. destruct (races l s1); [done|].
  by eapply texts_step.
Qed.
End proofs.

(** ** Theorems *)

(** In every interleaving of the server and any number of clients, races included,
    no step is undefined, and what a client receives are answers to its own requests,
    its own text in capital letters, and at most one for each request it has sent. *)
Theorem topic_answers_own cap old ps ls s t c :
  NoDup ps.*1 -> Forall pid_ok ps.*1 -> runs (step cap) (start old ps) ls s -> clients s !! t = Some c ->
  Forall (fun l => l = reply (c_pid c)) (received c) /\
  len (received c) <= times_to_send c + (if decide (c_pc c = CClose) then 1 else 0) /\ times_to_send c <= 5 /\
  forall l, exists r, step cap l s = Ok r.
Proof.
  intros Hd Hr Hrun Hc. destruct (topic_runs cap _ Hr old ps ls s eq_refl Hrun) as [Hx _].
  pose proof (Forall_lookup_1 _ _ _ _ (x_clients _ _ Hx) Hc) as [_ T2 _ T4]. split; [done|]. unfold rounds_ok in T4.
  split; [|split; [|intros l; by eapply topic_defined]]; destruct (c_pc c); try (destruct T4 as [T4 T5]); rewrite ?T5; simpl; lia.
Qed.

(** Every run ends: [n] clients and the server make at most [61 n + 6] steps
    together, races included. *)
Theorem topic_ends cap old ps ls s :
  Forall pid_ok ps.*1 -> runs (step cap) (start old ps) ls s -> len ls <= 61 * len ps + 6.
Proof. intros Hr Hrun. by destruct (topic_runs cap _ Hr old ps ls s eq_refl Hrun). Qed.

(** But for the race, in which a client opens its pipe again before the server has
    closed it, every client gets all its answers or none: when no process can go on,
    each has received five and is through, or has received none, having come too early
    or too late for the server, or having found its pipe already there.  The server is
    not killed; it has removed its pipe, or still waits for a first client. *)
Theorem topic_all_or_none cap old ps ls s :
  (0 < cap)%nat -> NoDup ps.*1 -> Forall pid_ok ps.*1 -> runs (calm_step cap) (start old ps) ls s ->
  s_pc s <> SKilled /\
  ((forall l, step cap l s = Ok None) ->
   (s_pc s = SDone \/ exists k, s_pc s = SWait k) /\
   forall t c, clients s !! t = Some c ->
     c_pc c = CDone /\ received c = replicate 5 (reply (c_pid c)) \/
     received c = [] /\ (c_pc c = CFailed \/ c_pc c = CKilled \/ exists k, c_pc c = CWaitServer k \/ c_pc c = CWait k)).
Proof.
  intros Hcap Hd Hr Hrun.
  destruct (calm_runs_inv cap _ Hd Hr (start old ps) ls s) as [Hx Hi]; [by apply texts_start|left; apply open_start|exact Hrun|].
  split; [destruct Hi as [Ho|Hs]; [pose proof (o_up s Ho)|pose proof (h_down s Hs)]; by intros E; rewrite E in *|].
  intros Hst. destruct Hi as [Ho|Hs].
  - destruct (open_stuck cap _ Hr s Hcap Hx Ho Hst) as (k & Hk & Hw). split; [right; by exists k|].
    intros t c Hc. specialize (Hst (Client t)). simpl in Hst. rewrite Hc in Hst. unfold client_step in Hst.
    destruct (nobody_open s t c Ho Hw Hc) as [[[E|E] Hr0]|[[E|E] H5]]; rewrite E in Hst; try done.
    + by destruct (s_linked s).
    + right. auto.
    + left. split; [done|]. apply (received_all c 5); [|done]. apply (Forall_lookup_1 _ _ _ _ (x_clients _ _ Hx) Hc).
  - destruct (shut_stuck cap _ Hr s Hx Hs Hst) as [Hpc H]. split; [by left|]. intros t c Hc.
    destruct (H t c Hc) as [[E H5]|H']; [left|by right]. split; [done|]. apply (received_all c 5); [|done].
    apply (Forall_lookup_1 _ _ _ _ (x_clients _ _ Hx) Hc).
Qed.

(** C39. And whoever has the server's pipe open and its own pipe made while the server
    is in its loop gets all five answers, but for the race: when no process can go on
    it is through, and so is the server. *)
Theorem topic_clients_served cap old ps ls1 s1 ls2 s t c1 :
  (0 < cap)%nat -> NoDup ps.*1 -> Forall pid_ok ps.*1 ->
  runs (calm_step cap) (start old ps) ls1 s1 -> clients s1 !! t = Some c1 -> admitted c1 -> in_loop s1 ->
  runs (calm_step cap) s1 ls2 s -> (forall l, step cap l s = Ok None) ->
  s_pc s = SDone /\
  exists c, clients s !! t = Some c /\ c_pc c = CDone /\ received c = replicate 5 (reply (c_pid c)).
Proof.
  intros Hcap Hd Hr Hrun1 Hc1 Ha Hl Hrun2 Hst.
  destruct (calm_runs_inv cap _ Hd Hr (start old ps) ls1 s1) as [Hx1 Hi]; [by apply texts_start|left; apply open_start|exact Hrun1|].
  assert (Ho : open_phase s1).
  { destruct Hi as [H|H]; [done|]. pose proof (h_down s1 H) as H'. unfold in_loop in Hl. by destruct (s_pc s1). }
  destruct (service_runs cap _ Hd Hr t s1 ls2 s Hx1) as [Hx (c & Hc & Hin)]; [|exact Hrun2|].
  { exists c1. split; [done|]. left. auto. }
  destruct Hin as [(Hl' & Ho' & _)|[Hs [Hp H5]]].
  - destruct (open_stuck cap _ Hr s Hcap Hx Ho' Hst) as (k & Hk & _). unfold in_loop in Hl'. by rewrite Hk in Hl'.
  - destruct (shut_stuck cap _ Hr s Hx Hs Hst) as [Hpc H]. split; [done|]. exists c. split; [done|].
    specialize (Hst (Client t)). simpl in Hst. rewrite Hc in Hst. unfold client_step in Hst.
    destruct Hp as [Hp|Hp]; rewrite Hp in Hst; [done|]. split; [done|]. apply (received_all c 5); [|done].
    apply (Forall_lookup_1 _ _ _ _ (x_clients _ _ Hx) Hc).
Qed.

(** ** Witnesses and errors *)

Definition one_client : St := start false [(42, false)].
Definition admit_one : list label := [Server; Server; Client 0; Client 0; Server; Client 0].
Definition one_round : list label :=
  [Client 0; Client 0; Client 0; Server; Server; Server; Client 0; Server; Client 0; Server; Client 0].
Definition all_rounds : list label :=
  one_round ++ one_round ++ one_round ++ one_round ++ one_round ++ [Client 0; Client 0; Client 0; Server; Server; Server].

Definition state_after (ls : list label) (s : St) : St :=
  match execute (calm_step 4) ls s with Some s' => s' | None => s end.
Definition one_admitted : St := Eval vm_compute in state_after admit_one one_client.
Definition one_served : St := Eval vm_compute in state_after all_rounds one_admitted.

Lemma one_admitted_runs : execute (calm_step 4) admit_one one_client = Some one_admitted.
Proof. vm_compute. reflexivity. Qed.
Lemma one_served_runs : execute (calm_step 4) all_rounds one_admitted = Some one_served.
Proof. vm_compute. reflexivity. Qed.
Lemma one_served_stuck l : step 4 l one_served = Ok None.
Proof. by destruct l as [|[|t]]. Qed.

Lemma one_distinct : NoDup [42].
Proof. apply NoDup_singleton. Qed.
Lemma one_in_range : Forall pid_ok [42].
Proof. apply Forall_singleton. unfold pid_ok. lia. Qed.

Lemma topic_clients_served_witness :
  s_pc one_served = SDone /\
  exists c, clients one_served !! 0%nat = Some c /\ c_pc c = CDone /\ received c = replicate 5 (reply (c_pid c)).
Proof.
  refine (topic_clients_served 4 false [(42, false)] admit_one one_admitted all_rounds one_served 0 _ ltac:(lia)
    one_distinct one_in_range (execute_runs _ _ _ _ one_admitted_runs) _ _ _ (execute_runs _ _ _ _ one_served_runs) one_served_stuck);
    [reflexivity|exact I|exact I].
Defined.

Lemma topic_all_or_none_witness :
  s_pc one_served <> SKilled /\
  ((forall l, step 4 l one_served = Ok None) ->
   (s_pc one_served = SDone \/ exists k, s_pc one_served = SWait k) /\
   forall t c, clients one_served !! t = Some c ->
     c_pc c = CDone /\ received c = replicate 5 (reply (c_pid c)) \/
     received c = [] /\ (c_pc c = CFailed \/ c_pc c = CKilled \/ exists k, c_pc c = CWaitServer k \/ c_pc c = CWait k)).
Proof.
  apply (topic_all_or_none 4 false [(42, false)] (admit_one ++ all_rounds)); [lia|exact one_distinct|exact one_in_range|].
  apply execute_runs. vm_compute. reflexivity.
Defined.

(** The race: the client is in its next round before the server has closed the pipe of
    the last one. *)
Definition open_again : list label :=
  [Client 0; Client 0; Client 0; Server; Server; Server; Client 0; Server; Client 0; Client 0;
   Client 0; Client 0; Client 0; Client 0; Server].
Definition shown (s : option St) : option (spc * list (cpc * nat)) :=
  (fun s => (s_pc s, map (fun c => (c_pc c, length (received c))) (clients s))) <$> s.

(** It reads the end of the old answer; the server opens the pipe, the client closes
    it, and the server is killed by its own [write]. *)
Lemma race_kills_server :
  shown (execute (step 4) (admit_one ++ open_again ++ [Client 0; Server; Server; Server; Client 0; Server]) one_client)
    = Some (SKilled, [(CFor, 1%nat)]).
Proof. vm_compute. reflexivity. Qed.

(** In its last round the client leaves without the answer, and the server waits for
    ever for somebody to open a pipe that has lost its name. *)
Definition last_lost : list label :=
  admit_one ++ one_round ++ one_round ++ one_round ++ open_again ++ [Client 0; Client 0; Server; Server; Client 0; Client 0; Client 0].
Lemma race_blocks_server :
  exists s, execute (step 4) last_lost one_client = Some s /\
    shown (Some s) = Some (SWaitClient 0 (Some 5%nat), [(CDone, 4%nat)]) /\ forall l, step 4 l s = Ok None.
Proof.
  destruct (execute (step 4) last_lost one_client) as [s|] eqn:E; vm_compute in E; [|done].
  injection E as <-. eexists. split; [done|]. split; [done|]. by intros [|[|t]].
Qed.

(** A client that opens the server's pipe after the server has seen its end is killed,
    or waits for ever. *)
Definition late_start : St := start false [(42, false); (43, false)].
Definition until_end : list label :=
  admit_one ++ one_round ++ one_round ++ one_round ++ one_round ++ one_round ++ [Client 0; Client 0; Client 0; Server].
Lemma late_client_killed :
  shown (execute (step 4) (until_end ++ [Client 1; Client 1; Client 1; Client 1; Server; Client 1; Server]) late_start)
    = Some (SDone, [(CDone, 5%nat); (CKilled, 0%nat)]).
Proof. vm_compute. reflexivity. Qed.
Lemma late_client_waits :
  shown (execute (step 4) (until_end ++ [Server; Client 1; Server]) late_start)
    = Some (SDone, [(CDone, 5%nat); (CWaitServer (Some 1%nat), 0%nat)]).
Proof. vm_compute. reflexivity. Qed.

Lemma topic_answers_own_witness :
  exists s c, execute (step 4) (admit_one ++ open_again) one_client = Some s /\ clients s !! 0%nat = Some c /\
  Forall (fun l => l = reply (c_pid c)) (received c) /\
  len (received c) <= times_to_send c + (if decide (c_pc c = CClose) then 1 else 0) /\ times_to_send c <= 5 /\
  forall l, exists r, step 4 l s = Ok r.
Proof.
  destruct (execute (step 4) (admit_one ++ open_again) one_client) as [s|] eqn:E; [|vm_compute in E; discriminate].
  destruct (clients s !! 0%nat) as [c|] eqn:Hc.
  - exists s, c. split; [reflexivity|]. split; [exact Hc|].
    exact (topic_answers_own 4 false [(42, false)] _ s 0 c one_distinct one_in_range (execute_runs _ _ _ _ E) Hc).
  - vm_compute in E. injection E as <-. discriminate Hc.
Defined.

Lemma one_served_steps : execute (step 4) (admit_one ++ all_rounds) one_client = Some one_served.
Proof. vm_compute. reflexivity. Qed.

Lemma topic_ends_witness : len (admit_one ++ all_rounds) <= 61 * len [(42, false)] + 6.
Proof.
  exact (topic_ends 4 false [(42, false)] (admit_one ++ all_rounds) one_served one_in_range
    (execute_runs _ _ _ _ one_served_steps)).
Defined.
