(* ===== verification/PrintDir.v ===== *)
(** * Listing a directory tree ([linux_program/ch03/print_dir.c])

    [printdir] changes the working directory on its way down and back, and keeps a
    directory open on every level.  The working directory, the output and the number
    of descriptors the process may still open are the state; in which order [readdir]
    gives the entries is open. *)

From S2P Require Import Prelude CppInt CText.

(** ** The file system *)

(** A directory that may be read, and one that may be entered. *)
Inductive node : Type := File | Dir (r x : bool) (entries : list (bytes * node)).

Definition dot : bytes := str ".".
Definition dotdot : bytes := str "..".

Fixpoint assoc {A} (n : bytes) (l : list (bytes * A)) : option A :=
  match l with
  | [] => None
  | (m, a) :: l => if decide (m = n) then Some a else assoc n l
  end.

Fixpoint walk (t : node) (p : list bytes) : option node :=
  match p with
  | [] => Some t
  | n :: p => match t with File => None | Dir _ _ es => c ← assoc n es; walk c p end
  end.

(** The argument of [opendir]: an absolute path, or a name in the working directory. *)
Inductive place : Type := At (p : list bytes) | In (n : bytes).

Inductive line : Type := Out (text : bytes) | Err (dir : place).

Record St := mkSt { cwd : list bytes; out : list line; fds : nat }.

Section printdir.
Context (root : node) (order : list bytes -> list bytes).

Definition resolve (d : place) (s : St) : list bytes := match d with At p => p | In n => cwd s ++ [n] end.

(** [opendir] takes a descriptor; without one it fails like on a directory that may not
    be read.  [closedir] gives it back. *)
Definition opendir (d : place) (s : St) : option (list bytes * St) :=
  match fds s, walk root (resolve d s) with
  | S n, Some (Dir true _ es) => Some (order (dot :: dotdot :: map fst es), mkSt (cwd s) (out s) n)
  | _, _ => None
  end.
Definition closedir (s : St) : St := mkSt (cwd s) (out s) (S (fds s)).

(** [chdir]; its result is not looked at. *)
Definition chdir (d : place) (s : St) : St :=
  match walk root (resolve d s) with
  | Some (Dir _ true _) => mkSt (resolve d s) (out s) (fds s)
  | _ => s
  end.
Definition chdir_up (s : St) : St := mkSt (removelast (cwd s)) (out s) (fds s).

(** [lstat], as far as it is used: whether the name is a directory. *)
Definition lstat (n : bytes) (s : St) : option bool :=
  if decide (n = dot \/ n = dotdot) then Some true
  else match walk root (cwd s ++ [n]) with
       | None => None
       | Some File => Some false
       | Some (Dir _ _ _) => Some true
       end.

Definition say (l : line) (s : St) : St := mkSt (cwd s) (out s ++ [l]) (fds s).

(** ["%*s%s"] with a blank *)
Definition indented (depth : nat) (n : bytes) : bytes := replicate (Nat.max 1 depth) " "%char ++ n.

(** The loop over the entries; [statbuf] keeps its contents when [lstat] fails, and
    has none at first.  [depth] is an [int]. *)
Fixpoint scan (printdir : place -> nat -> St -> option (outcome St)) (depth : nat) (statbuf : option bool)
    (names : list bytes) (s : St) : option (outcome St) :=
  match names with
  | [] => Some (Ok s)
  | n :: names =>
      let statbuf := match lstat n s with Some b => Some b | None => statbuf end in
      match statbuf with
      | None => Some UB
      | Some true =>
          if decide (n = dot \/ n = dotdot) then scan printdir depth statbuf names s
          else if decide (2 ^ 31 <= Z.of_nat depth + 4) then Some UB
          else
            match printdir (In n) (depth + 4)%nat (say (Out (indented depth n ++ str "/")) s) with
            | Some (Ok s) => scan printdir depth statbuf names s
            | r => r
            end
      | Some false => scan printdir depth statbuf names (say (Out (indented depth n)) s)
      end
  end.

Fixpoint printdir (fuel : nat) (dir : place) (depth : nat) (s : St) : option (outcome St) :=
  match fuel with
  | O => None
  | S fuel =>
      match opendir dir s with
      | None => Some (Ok (say (Err dir) s))
      | Some (names, s) =>
          match scan (printdir fuel) depth None names (chdir dir s) with
          | Some (Ok s) => Some (Ok (closedir (chdir_up s)))
          | r => r
          end
      end
  end.
End printdir.

(** [main] lists ["/home"], whatever the working directory is; its own two lines of
    output are left out. *)
Definition main (root : node) (order : list bytes -> list bytes) (fuel : nat) (cwd : list bytes) (fds : nat)
    : option (outcome St) :=
  printdir root order fuel (At [str "home"]) 0 (mkSt cwd [] fds).

(** ** What is to be printed *)

Section listing.
Context (order : list bytes -> list bytes).

(** The lines for an entry, and for the contents of a directory. *)
Fixpoint listing (d : place) (depth : nat) (t : node) : list line :=
  match t with
  | File => [Err d]
  | Dir false _ _ => [Err d]
  | Dir true _ es =>
      let blocks := map (fun e => (fst e,
        match snd e with
        | File => [Out (indented depth (fst e))]
        | _ => Out (indented depth (fst e) ++ str "/") :: listing (In (fst e)) (depth + 4)%nat (snd e)
        end)) es in
      concat (map (fun n => default [] (assoc n blocks)) (order (dot :: dotdot :: map fst es)))
  end.

(** The deepest nesting of directories. *)
Fixpoint height (t : node) : nat :=
  match t with File => 0%nat | Dir _ _ es => S (foldr Nat.max 0%nat (map (fun e => height (snd e)) es)) end.

(** Names are different and not special, and what can be read can be entered. *)
Fixpoint enterable (t : node) : Prop :=
  match t with
  | File => True
  | Dir r x es =>
      (r = true -> x = true) /\ NoDup (map fst es) /\ dot ∉ map fst es /\ dotdot ∉ map fst es /\
      foldr and True (map (fun e => enterable (snd e)) es)
  end.
End listing.

(** ** Paths, heights and entries *)

Lemma walk_app t p q : walk t (p ++ q) = (c ← walk t p; walk c q).
Proof.
  revert t. induction p as [|n p IH]; intros t; [done|]. destruct t as [|r x es]; [done|]. simpl.
  destruct (assoc n es) as [c|]; [|done]. apply IH.
Qed.

Lemma assoc_map {A B} (f : bytes * A -> B) n l :
  assoc n (map (fun e => (fst e, f e)) l) = (fun a => f (n, a)) <$> assoc n l.
Proof. induction l as [|[m a] l IH]; [done|]. simpl. case_decide; [by subst|done]. Qed.

Lemma assoc_in {A} n (l : list (bytes * A)) : n ∈ map fst l -> is_Some (assoc n l).
Proof.
  induction l as [|[m a] l IH]; simpl; [by intros ?%elem_of_nil|]. intros [->|H]%elem_of_cons; [by rewrite decide_True|].
  case_decide; [done|by apply IH].
Qed.

Lemma assoc_none {A} n (l : list (bytes * A)) : n ∉ map fst l -> assoc n l = None.
Proof.
  induction l as [|[m a] l IH]; [done|]. simpl. intros [Hn H]%not_elem_of_cons. rewrite decide_False by done. by apply IH.
Qed.

Lemma height_child n c r x es : assoc n es = Some c -> (height c < height (Dir r x es))%nat.
Proof.
  simpl. induction es as [|[m d] es IH]; [done|]. simpl. case_decide; [intros [= ->]; lia|]. intros Hn. specialize (IH Hn). lia.
Qed.

Lemma enterable_child n c r x es : assoc n es = Some c -> enterable (Dir r x es) -> enterable c.
Proof.
  intros Hn (_ & _ & _ & _ & Hf). induction es as [|[m d] es IH]; [done|]. simpl in *. destruct Hf as [Hd Hf].
  case_decide; [by simplify_eq|by apply IH].
Qed.

Section proofs.
Context (root : node) (order : list bytes -> list bytes).
Hypothesis order_perm : forall l, order l ≡ₚ l.

(** The lines of a directory, by the names of its entries. *)
Definition blocks (depth : nat) (es : list (bytes * node)) : list (bytes * list line) :=
  map (fun e => (fst e,
    match snd e with
    | File => [Out (indented depth (fst e))]
    | _ => Out (indented depth (fst e) ++ str "/") :: listing order (In (fst e)) (depth + 4)%nat (snd e)
    end)) es.
Definition entries (depth : nat) (es : list (bytes * node)) (names : list bytes) : list line :=
  concat (map (fun n => default [] (assoc n (blocks depth es))) names).

Lemma listing_dir d depth x es :
  listing order d depth (Dir true x es) = entries depth es (order (dot :: dotdot :: map fst es)).
Proof. done. Qed.

Definition is_dir (t : node) : bool := match t with File => false | _ => true end.

Lemma scan_lists rec depth p k r x es names :
  walk root p = Some (Dir r x es) -> enterable (Dir r x es) ->
  (forall n, n ∈ names -> n ∈ dot :: dotdot :: map fst es) ->
  Z.of_nat depth + 4 < 2 ^ 31 ->
  (forall n c s, assoc n es = Some c -> is_dir c = true -> cwd s = p -> fds s = k ->
     rec (In n) (depth + 4)%nat s = Some (Ok (mkSt p (out s ++ listing order (In n) (depth + 4)%nat c) k))) ->
  forall sb s, cwd s = p -> fds s = k ->
    scan root rec depth sb names s = Some (Ok (mkSt p (out s ++ entries depth es names) k)).
Proof.
  intros Hp He Hin Hint Hrec. pose proof He as (_ & _ & Hdot & Hdd & _). induction names as [|n names IH]; intros sb s Hs Hk.
  - unfold entries. simpl. rewrite app_nil_r. destruct s. simpl in *. by subst.
  - assert (IH' : forall sb s, cwd s = p -> fds s = k ->
      scan root rec depth sb names s = Some (Ok (mkSt p (out s ++ entries depth es names) k))).
    { apply IH. intros m Hm. apply Hin. by apply list_elem_of_further. }
    unfold entries. cbn [map concat scan]. fold (entries depth es names). unfold blocks at 1. rewrite assoc_map. unfold lstat.
    destruct (decide (n = dot \/ n = dotdot)) as [Hd|Hd].
    + rewrite assoc_none by (by destruct Hd as [-> | ->]). by apply IH'.
    + destruct (assoc_in n es) as [c Hc].
      { specialize (Hin n (list_elem_of_here _ _)). apply elem_of_cons in Hin as [->|Hin]; [naive_solver|].
        apply elem_of_cons in Hin as [->|Hin]; [naive_solver|done]. }
      rewrite Hc, Hs, walk_app, Hp. simpl. rewrite Hc. simpl. destruct c as [|r' x' es'].
      * rewrite IH' by done. simpl. by rewrite <- app_assoc.
      * rewrite decide_False by lia. rewrite (Hrec n (Dir r' x' es')) by done. rewrite IH' by done. simpl. by rewrite <- !app_assoc.
Qed.

Lemma printdir_lists fuel d depth t s :
  walk root (resolve d s) = Some t -> enterable t -> fuel <> 0%nat -> (height t <= fuel)%nat ->
  (height t <= fds s)%nat -> Z.of_nat depth + 4 * Z.of_nat (height t) < 2 ^ 31 ->
  printdir root order fuel d depth s =
    Some (Ok (mkSt (match t with Dir true _ _ => removelast (resolve d s) | _ => cwd s end)
                (out s ++ listing order d depth t) (fds s))).
Proof.
  revert d depth t s. induction fuel as [|fuel IH]; intros d depth t s Ht He Hz Hf Hd Hi; [done|].
  cbn [printdir]. unfold opendir. rewrite Ht. destruct s as [wd o [|k]].
  { destruct t as [|r x es]; [done|]. simpl in Hd. lia. }
  cbn [fds cwd out]. destruct t as [|[|] x es]; [done| |done].
  assert (Hx : x = true) by (by apply He). subst x.
  assert (Hr : forall n, resolve d (mkSt wd o n) = resolve d (mkSt wd o (S k))) by done.
  unfold chdir. rewrite Hr, Ht. cbn [height fds] in Hd, Hi.
  rewrite (scan_lists _ depth (resolve d (mkSt wd o (S k))) k true true es _ Ht He); [done|..|done|done].
  - intros n. by rewrite order_perm.
  - lia.
  - intros n c s' Hc Hdir Hs' Hk'. pose proof (height_child n c true true es Hc) as Hlt. cbn [height] in Hlt.
    rewrite (IH (In n) _ c).
    + simpl. rewrite Hs', Hk', removelast_last. by destruct c as [|[|] ? ?].
    + simpl. rewrite Hs', walk_app, Ht. simpl. by rewrite Hc.
    + by eapply enterable_child.
    + destruct c; [done|]. simpl in *. lia.
    + simpl in Hf. lia.
    + lia.
    + lia.
Qed.
End proofs.

(** ** Theorems *)

(** C40. The program lists the tree: as long as every directory it may read it may also
    enter, and the process may open as many descriptors as directories are nested,
    [main] ends, without an indeterminate [statbuf] or overflow of [depth], after
    descending as deep as the tree, and has printed every entry below the directory
    once: each directory followed by its contents, or by a message if it cannot be
    read, the first level behind one blank and each further level [n] behind [4 n]
    blanks; whatever the order in which [readdir] gives the entries.  All directories
    are closed again, and the working directory is the parent of the listed one. *)
Theorem main_lists root order fuel wd k x es :
  (forall l, order l ≡ₚ l) -> walk root [str "home"] = Some (Dir true x es) -> enterable (Dir true x es) ->
  (height (Dir true x es) <= fuel)%nat -> (height (Dir true x es) <= k)%nat ->
  4 * Z.of_nat (height (Dir true x es)) < 2 ^ 31 ->
  main root order fuel wd k = Some (Ok (mkSt [] (listing order (At [str "home"]) 0 (Dir true x es)) k)).
Proof.
  intros Ho Hw He Hf Hk Hi. unfold main. rewrite (printdir_lists root order Ho fuel _ 0 (Dir true x es)); try done.
  simpl in Hf. lia.
Qed.

(** Without the descriptors a directory that may be read is reported as one that
    cannot be opened. *)
Theorem no_descriptor root order fuel d depth s :
  fds s = 0%nat -> printdir root order (S fuel) d depth s = Some (Ok (say (Err d) s)).
Proof. intros Hf. cbn [printdir]. unfold opendir. by rewrite Hf. Qed.

(** A directory that may be read but not entered and that contains an entry of its
    own name, itself a directory or not, makes the program descend until no
    descriptor is left: the failing [chdir] is not noticed, [lstat] looks beside the
    directory instead of into it and finds the directory again. *)
Theorem own_name_descends root order fuel n es depth s r' es' :
  walk root (cwd s) = Some (Dir r' true es') -> assoc n es' = Some (Dir true false es) ->
  (forall l, order l ≡ₚ l) -> map fst es = [n] -> n <> dot -> n <> dotdot ->
  (fuel <= fds s)%nat -> Z.of_nat depth + 4 * Z.of_nat (fds s) < 2 ^ 31 ->
  printdir root order fuel (In n) depth s = None.
Proof.
  intros Hw Hn Ho Hes H1 H2.
  revert depth s Hw. induction fuel as [|fuel IH]; intros depth s Hw Hf Hi; [done|]. cbn [printdir].
  assert (Ht : walk root (cwd s ++ [n]) = Some (Dir true false es)).
  { rewrite walk_app, Hw. simpl. by rewrite Hn. }
  unfold opendir. simpl resolve. rewrite Ht, Hes. destruct s as [wd o [|k]]; simpl in *; [lia|].
  unfold chdir. simpl resolve. rewrite Ht.
  assert (Hin : n ∈ order [dot; dotdot; n]) by (rewrite Ho; set_solver).
  assert (Hsub : forall m, m ∈ order [dot; dotdot; n] -> m = dot \/ m = dotdot \/ m = n) by (intros m; rewrite Ho; set_solver).
  enough (forall sb, scan root (printdir root order fuel) depth sb (order [dot; dotdot; n]) (mkSt wd o k) = None) as -> by done.
  revert Hin Hsub. generalize (order [dot; dotdot; n]) as l. induction l as [|m l IHl]; intros Hin Hsub sb.
  - by apply elem_of_nil in Hin.
  - cbn [scan]. unfold lstat. destruct (decide (m = dot \/ m = dotdot)) as [Hm|Hm].
    + apply elem_of_cons in Hin as [->|Hin]; [naive_solver|]. apply IHl; [done|].
      intros j Hj. apply Hsub. by apply list_elem_of_further.
    + assert (m = n) as ->.
      { destruct (Hsub m (list_elem_of_here _ _)) as [E|[E|E]]; [naive_solver..|done]. }
      simpl. rewrite Ht. rewrite decide_False by lia. rewrite IH; [done|done|simpl; lia|simpl; lia].
Qed.

(** ** Witnesses and an error *)

Definition sample : node :=
  Dir true true [(str "a", Dir true true [(str "f", File)]); (str "b", File); (str "c", Dir false false [])].

Lemma sample_enterable : enterable sample.
Proof.
  assert (H : forall l : list bytes, bool_decide (NoDup l) = true -> NoDup l) by (intros l; apply bool_decide_eq_true_1).
  assert (H' : forall (n : bytes) (l : list bytes), bool_decide (n ∉ l) = true -> n ∉ l) by (intros n l; apply bool_decide_eq_true_1).
  simpl. split_and!; try done; first [by apply H|by apply H'].
Qed.

Lemma main_lists_witness :
  main (Dir true true [(str "home", sample)]) (fun l => l) 2 [] 2 =
    Some (Ok (mkSt [] [Out (str " a/"); Out (str "    f"); Out (str " b"); Out (str " c/"); Err (In (str "c"))] 2)).
Proof.
  exact (main_lists (Dir true true [(str "home", sample)]) (fun l => l) 2 [] 2 true
    [(str "a", Dir true true [(str "f", File)]); (str "b", File); (str "c", Dir false false [])]
    (fun l => reflexivity l) eq_refl sample_enterable ltac:(simpl; lia) ltac:(simpl; lia) ltac:(simpl; lia)).
Defined.

Lemma own_name_descends_witness :
  printdir (Dir true true [(str "d", Dir true false [(str "d", File)])]) (fun l => l) 1000 (In (str "d")) 0 (mkSt [] [] 1000) = None.
Proof.
  exact (own_name_descends _ (fun l => l) 1000 (str "d") [(str "d", File)] 0 (mkSt [] [] 1000) true
    [(str "d", Dir true false [(str "d", File)])] eq_refl eq_refl (fun l => reflexivity l) eq_refl ltac:(discriminate) ltac:(discriminate)
    (le_n 1000) ltac:(vm_compute; reflexivity)).
Defined.

(** Behind a directory that cannot be entered the program is one directory too high,
    and takes files for directories. *)
Lemma wrong_directory :
  main (Dir true true [(str "home", Dir true true [(str "a", Dir true false [(str "f", File)]); (str "b", File)])]) (fun l => l) 9 [] 9
  = Some (Ok (mkSt [] [Out (str " a/"); Out (str "    f/"); Err (In (str "f")); Out (str " b/"); Err (In (str "b"))] 9)).
Proof. by vm_compute. Qed.
